(* ===== verification/_CoqProject ===== *)
-Q . S2P
Prelude.v
RustStr.v
RustNet.v
Error.v
Hickory.v
HickoryDemo.v
External.v
PublicIp.v
DnsUtil.v
Context.v
Config.v
DomainSet.v
Matcher.v
Upstream.v
Shard.v
Net.v
Task.v
Metrics.v
Actions.v
Ecs.v
Hosts.v
Cache.v
CacheKey.v
CacheHits.v
Exchange.v
Forward.v
Fallback.v
Sequence.v
Graph.v
Listener.v
Runtime.v
Server.v
Accept.v
Api.v
Ownership.v
Main.v
Safe.v
World.v
Drain.v
Deadline.v
Front.v
