(* ===== verification/Prelude.v ===== *)
(** * FerrumDNS: a verification library

    FerrumDNS is a forwarding DNS server.  Listeners (UDP, TCP, TLS, HTTPS) decode
    a query and hand it to [server::handle], which runs the plugin pipeline of an
    entry under a time limit and finalises the reply.  A pipeline is a graph of
    plugins that share one mutable [QueryContext]: a [sequence] walks guarded
    steps, [cache], [hosts], [forward], [black_hole], [redirect] and [ecs] act on
    the context, [fallback] runs two pipelines on forks of it.  The runtime
    builds the plugins from the configuration, once their call graph has been
    validated, and a reload swaps the whole runtime.

    ** Files

    - [Prelude]: results, machine integers, list lemmas, automation.
    - [RustStr], [RustNet]: the functions of Rust's [str], [IpAddr] and
      [SocketAddr] the program calls, on byte strings and integers.
    - [Error]: [error.rs].
    - [Hickory]: the interface to the DNS library, as a class of operations and a
      class of laws (what a setter changes, what equality means); [HickoryDemo]
      is an instance of both, used by the witnesses.
    - [External]: the interfaces to [serde_yaml], [regex] and [ipnet].
    - [PublicIp]: [plugin/ecs.rs], which addresses are public, and masks.
    - [DnsUtil]: [dnsutil.rs].  [Context]: [context.rs].  [Config]: [config.rs],
      includes and normalisation.  [DomainSet], [Matcher]: [matcher.rs] and
      [plugin/sets.rs].  [Upstream]: [upstream.rs], specs and addresses.
    - [Shard]: the LRU shard of [plugin/cache.rs], refined by a bounded list.
    - [Net]: the operations on sockets and connections a task may await, and
      [StreamPool] of [upstream.rs] with the other cells the clones of an
      upstream share.
    - [Task]: what an [async fn] is here: a tree of atomic accesses to shared
      state ([Sync]) and suspensions ([Await]), with the state it borrows at each;
      [until] and [timeout], [select] and [race] (tokio's and futures' combinators)
      on such trees; the logic [wp], which includes termination and the absence of
      panics; [steps], the specification every plugin meets; and [run], the traces
      of a task.
    - [Metrics]: [metrics.rs].
    - [Actions], [Ecs], [Hosts], [Cache], [Forward], [Fallback], [Sequence]: the
      plugins of [plugin/], one file each: the state as a record, [from_args],
      [exec], and the proof that [exec] steps.  [Forward] starts the exchanges of
      [Exchange] and polls them side by side.
    - [CacheKey], [CacheHits]: [plugin/cache.rs] again, its theorems: which queries
      share a key, what is stored, how long, and what a hit serves; and
      [shared_protocol], what the tasks of a server promise each other about the
      caches.
    - [Exchange]: [upstream.rs], one exchange: resolving the address, UDP with
      its retry over TCP, pooled TCP and TLS, HTTPS, time limits.
    - [Graph]: [runtime.rs], the depth-first search over the call graph.
    - [Listener]: [server.rs], listener settings and certificates; [Accept]: what
      the listeners bind and accept, and their bounds on TLS handshakes, as step
      relations.
    - [Runtime]: [plugin/mod.rs] and [runtime.rs]: the registry, the dispatch of
      executables through it, [build], [reload_file].
    - [Server]: [server.rs]: [handle], and what a datagram, a frame of a stream
      and an HTTP request do with it; the refresh task of a lazy cache hit.
    - [Api]: [api.rs]: the guard on browser writes, the handlers, the routes.
    - [Ownership]: who owns an in-flight mark of a cache, and who a connection to
      an upstream, through every task and between the tasks and the pools.
    - [Main]: [main.rs] and [Live::serve]: the commands, the reload loop.
    - [Safe]: every task of the program keeps to the protocol of the runtime it
      works with, also across [Live::get], and says to its client what it should.
    - [World]: the running server: a step relation over all the tasks and what they
      share, in which requests of every transport and of the admin API arrive
      and the configuration is reloaded at any time.
    - [Drain]: the steps of [World] without new requests, and those when nobody but
      the timers ends a wait.  [Deadline]: the steps of [World] in which time waits
      for the tasks, and how long a request takes in them.
    - [Front]: the listeners of [Accept] in front of the tasks of [World], started
      from the plan of [serve].

    ** How state and interleaving are modelled

    A context is a value threaded through the monad [M].  What other tasks can
    change between two steps of a task is an event: the clock, the id counter, the
    metrics, the critical sections on a cache's shards and on its set of
    refreshes, the spawning of a refresh, the runtime that is live, the cells the
    clones of an upstream share.  The reply to an event is arbitrary, up to a
    [Protocol], so a [wp] theorem holds for every interleaving.  A suspension
    shows the borrowed state, which is what is left of it when a timeout drops the
    task there, and what the task waits for: an operation on a socket or
    connection, with the documented behaviour of that operation.  A task that
    waits for several others ([fallback], [forward], the two lookups of a bootstrap
    resolution) holds what remains of each of them; there is nothing between the
    pipeline and the sockets that is not a task.

    A time limit is an instant: [timeout] reads the clock when it is set and runs the
    rest under a timer ([ATimer]) that fires at the instant it computed, with the
    arithmetic of the runtime's clock ([timer_at]).  In [World] a timer fires only when
    its instant has come; how much later is left open there, and closed in
    [Deadline].  The logic says of every wait whether a timer is running, and no task
    waits for anything but the sending of a datagram without one ([speaks]).

    [World] closes the circle: there the replies to events come from a shared state,
    any task may make the next access, and [shared_protocol] is an invariant
    ([world_inv]), so the hypotheses of the [wp] theorems hold in every
    reachable state.  Every runtime the server has had keeps its own caches, marks,
    counters and pools there, for the requests that began with it; the sequence
    [live] names the runtimes, and a step of reload is allowed when [reload_file]
    makes the next of them from the live one.  Requests arrive there at any time, in
    any number and with any limits; [Front] is the server whose requests come from the
    listeners of its configuration, and refines it.  The ownership of [Ownership] is a
    partition of what is marked and of what was opened among the tasks and the pools.

    ** What the theorems show

    - Requests: every pipeline of a built runtime ends without a panic
      ([Runtime.pipeline_total]); the reply of [handle] is bound to the client's
      message whatever the pipeline did ([Server.handle_replies],
      [Context.finalized_reply]) and is counted once ([Server.handle_accounting]);
      what the transports send is such a reply, whole ([Server.udp_packet_reply],
      [Server.serve_frame_reply], [Server.doh_reply]).
    - Construction: the search over the call graph ends and is exact
      ([Graph.validate_edges_exact]), [build] gives a runtime in order
      ([Runtime.runtime_build_ok]), a reload is all or nothing
      ([Runtime.reload_file_atomic]), loading a configuration ends,
      with what the file and its includes say in the order they are read
      ([Config.config_load_file_exact]).
    - Plugins: which answer a [forward] and a [fallback] use, under every
      interleaving, and that it is what one of the upstreams answered to the
      query; what a [sequence] executes and which caches it writes to
      ([Sequence.sequence_run_walks]); what [ecs] may reveal of a client; what
      [hosts] answers; what a domain set contains; the LRU behaviour of the cache's
      shards.
    - Cache: a key determines the question and every flag an answer depends on
      ([CacheKey.cache_key_exact]); what is stored and until when
      ([CacheHits.cache_store_exact], [CacheHits.cache_lookup_window]); what a
      hit serves ([CacheHits.cache_exec_serves]); that a refresh always ends with
      the release of its in-flight mark ([Server.refresh_task_releases]).
    - The running system, with any number of reloads: no reachable state has a task
      that panicked or is stuck, the entries of the listeners exist and the caches
      stay in order ([World.world_safe]); what a client is sent answers what it
      asked ([World.replies_answer_clients]); one refresh per key at a time, and no
      mark left behind ([World.refresh_single_flight]); no connection serves two
      exchanges or lies in a pool while it is used ([World.connections_exclusive]);
      without new requests (open streams bring so many messages and no more) service
      comes to an end, and nothing hangs when upstreams and clients fall silent
      ([Drain.server_drains]); queries are over within their time limits ([Deadline.requests_in_time]).  The server [start] runs, with its
      listeners, is such a system ([Front.start_serves]).
      The witnesses run the model: [World.d_busy] is the state of a server whose
      upstream has answered one query, which is refreshing it for a second, has
      been reloaded and is asking the upstream for a third.
    - Upstreams: an exchange returns only an answer to its query, over UDP never a
      truncated one ([Exchange.exchange_answers]); a pooled connection stands
      between two messages ([Exchange.pooled_between_messages]).
    - Admin API: nothing but a trusted POST changes anything, refused writes touch
      nothing, every response is secured ([Api.api_write_guard]); what a flush
      empties ([Api.api_flush_exact]); what a query answers
      ([Api.api_query_outcome]).
    - Life of a server: [check] accepts what [start] would serve
      ([Main.check_agrees_with_start]); any number of reloads keeps the service
      ([Main.reload_loop_invariant]); the handshakes of the listeners are bounded
      and their permits never lost ([Accept.tls_handshakes_bounded]).
    - Pure parts: TTL arithmetic, EDNS client subnet round trips, reply sizes,
      response matching, public addresses, percent decoding (in lemmas), metrics.

    ** Bounds

    Fuel is used where the recursion is not structural, and is shown to be enough:
    64 levels of calls for a pipeline ([MAX_PIPELINE_DEPTH], which the validation
    enforces), 65 for the search itself, 65 for includes, the length of the
    expression for the [!] of a matcher.  The pending exchanges of [forward] are
    counted by the type [racing].  Durations and instants are in nanoseconds; an
    [Instant] ends at [instant_max]; counters wrap at 2^64.  The messages a stream may
    bring ([serve_framed]) are bounded by a number the theorems leave open.

    ** What is not modelled

    The inside of what other crates do: sockets, TLS, HTTP, the DNS codec, YAML and
    JSON, regular expressions, IP networks, URLs, base64, certificates, the
    command line and the logger are interfaces, with laws where the code relies on
    them.  An HTTPS upstream is asked through [reqwest], whose own connection pool
    and certificate checks (also the insecure verifier of [upstream.rs]) are not
    here.  The metrics that the admin API prints are read as one state.  How JSON
    prints is left out.  A bound address is where [Front] begins, and it has no end:
    that the server stops when a listener does is [Main.serve_error].  Of a stream
    each wait is bounded, and each query, but a client that keeps asking keeps its
    connection, so [Deadline] is about datagrams, HTTP requests and refreshes.  How
    long computing takes is nowhere modelled. *)
From Stdlib Require Export Lia ZArith.
From stdpp Require Export base option list gmap strings pretty numbers functions.
Export stdpp.list_relations.list.

Declare Scope ferrum_scope.
Delimit Scope ferrum_scope with ferrum.
#[global] Open Scope ferrum_scope.

(** ** Rust's [Result] with an arbitrary error type *)
Inductive result (E A : Type) : Type :=
| Ok (a : A)
| Err (e : E).
Arguments Ok {E A} a.
Arguments Err {E A} e.

#[export] Instance result_eq_dec {E A} `{EqDecision E, EqDecision A} : EqDecision (result E A).
Proof. solve_decision. Defined.

(** [r?] inside a function that returns a [result]. *)
Definition result_bind {E A B} (r : result E A) (f : A → result E B) : result E B :=
  match r with Ok a => f a | Err e => Err e end.

Definition map_err {E F A} (f : E → F) (r : result E A) : result F A :=
  match r with Ok a => Ok a | Err e => Err (f e) end.

(** [Option::ok_or_else]. *)
Definition ok_or {E A} (o : option A) (e : E) : result E A :=
  match o with Some a => Ok a | None => Err e end.

(** [Result::ok]. *)
Definition result_ok {E A} (r : result E A) : option A :=
  match r with Ok a => Some a | Err _ => None end.

Definition is_ok {E A} (r : result E A) : bool :=
  match r with Ok _ => true | Err _ => false end.

Notation "'let?' x := r 'in' k" := (result_bind r (λ x, k))
  (at level 10, x pattern, r at level 100, k at level 200) : ferrum_scope.

(** [iter.map(f).collect::<Result<Vec<_>>>()]: the first error wins. *)
Fixpoint result_mapM {E A B} (f : A → result E B) (l : list A) : result E (list B) :=
  match l with
  | [] => Ok []
  | x :: l' => let? y := f x in let? ys := result_mapM f l' in Ok (y :: ys)
  end.

(** A [for] loop that threads a state and leaves at the first error. *)
Fixpoint result_foldM {E A S} (f : S → A → result E S) (s : S) (l : list A) : result E S :=
  match l with
  | [] => Ok s
  | x :: l' => let? s' := f s x in result_foldM f s' l'
  end.

Lemma result_bind_Ok {E A B} (r : result E A) (f : A → result E B) b :
  result_bind r f = Ok b ↔ ∃ a, r = Ok a ∧ f a = Ok b.
Proof.
  destruct r as [a|e]; simpl; [|by split; [done|intros (? & ? & _)]].
  split; [by exists a|by intros (? & [= ->] & ?)].
Qed.

Lemma result_foldM_inv {E A S} (f : S → A → result E S) (P : S → Prop) s l s' :
  P s → (∀ s x s', P s → x ∈ l → f s x = Ok s' → P s') →
  result_foldM f s l = Ok s' → P s'.
Proof.
  revert s; induction l as [|x l IH]; intros s Hs Hstep; simpl; [naive_solver|].
  rewrite result_bind_Ok. intros (s1 & H1 & H2).
  apply (IH s1); [|intros s2 y s3 ? ?; apply Hstep; [done|by apply list_elem_of_further]|done].
  eapply Hstep; [done|by apply list_elem_of_here|done].
Qed.

(** A loop that only checks. *)
Lemma result_foldM_checks {E A} (f : A → result E unit) l :
  result_foldM (λ _ x, f x) tt l = Ok tt ↔ Forall (λ x, f x = Ok tt) l.
Proof.
  induction l as [|x l IH]; simpl; [by rewrite Forall_nil|]. rewrite Forall_cons, <- IH.
  destruct (f x) as [[]|e]; simpl; [tauto|]. by split; [|intros [? _]].
Qed.

Lemma result_mapM_Ok {E A B} (f : A → result E B) l k :
  result_mapM f l = Ok k ↔ Forall2 (λ x y, f x = Ok y) l k.
Proof.
  revert k; induction l as [|x l IH]; intros k; simpl.
  - split; [intros [= <-]; constructor|by inversion 1].
  - rewrite result_bind_Ok. setoid_rewrite result_bind_Ok. split.
    + intros (y & Hy & ys & Hys & [= <-]). constructor; [done|by apply IH].
    + inversion 1 as [|? y ? ys Hy Hys]; subst. exists y. split; [done|].
      exists ys. by rewrite IH.
Qed.

(** ** Machine integers

    A [uN] value is a [Z] in [0, 2^N). *)
Definition u8_max : Z := 255.
Definition u16_max : Z := 65535.
Definition u32_max : Z := 4294967295.
Definition u64_max : Z := 18446744073709551615.

Definition wrap_u32 (z : Z) : Z := z mod 4294967296.
Definition wrap_u64 (z : Z) : Z := z mod 18446744073709551616.

(** [u32::saturating_sub]. *)
Definition saturating_sub (a b : Z) : Z := Z.max 0 (a - b).

(** [Ord::clamp] (the caller guarantees [lo <= hi]). *)
Definition clamp (lo hi a : Z) : Z := Z.min hi (Z.max lo a).

Lemma saturating_sub_range a b : (0 ≤ a)%Z → (0 ≤ b)%Z → (0 ≤ saturating_sub a b ≤ a)%Z.
Proof. unfold saturating_sub. lia. Qed.

Lemma clamp_range lo hi a : (lo ≤ hi)%Z → (lo ≤ clamp lo hi a ≤ hi)%Z.
Proof. unfold clamp. lia. Qed.

Lemma wrap_u64_range z : (0 ≤ wrap_u64 z ≤ u64_max)%Z.
Proof. unfold wrap_u64, u64_max. pose proof (Z.mod_pos_bound z 18446744073709551616). lia. Qed.

Lemma wrap_u32_range z : (0 ≤ wrap_u32 z ≤ u32_max)%Z.
Proof. unfold wrap_u32, u32_max. pose proof (Z.mod_pos_bound z 4294967296). lia. Qed.

Lemma wrap_u32_small z : (0 ≤ z ≤ u32_max)%Z → wrap_u32 z = z.
Proof. unfold wrap_u32, u32_max. intros. apply Z.mod_small. lia. Qed.

Lemma wrap_u32_idem z : wrap_u32 (wrap_u32 z) = wrap_u32 z.
Proof. apply wrap_u32_small, wrap_u32_range. Qed.

(** ** Lists and options *)
Fixpoint find_first {A} (p : A → bool) (l : list A) : option A :=
  match l with
  | [] => None
  | x :: l' => if p x then Some x else find_first p l'
  end.

Lemma find_first_Some {A} (p : A → bool) l x :
  find_first p l = Some x ↔
  ∃ l1 l2, l = l1 ++ x :: l2 ∧ p x = true ∧ Forall (λ y, p y = false) l1.
Proof.
  split.
  - induction l as [|y l IH]; simpl; [done|]. destruct (p y) eqn:Hy.
    + intros [= ->]. exists [], l. by repeat constructor.
    + intros (l1 & l2 & -> & Hx & Hl)%IH. exists (y :: l1), l2. by repeat constructor.
  - intros (l1 & l2 & -> & Hx & Hl). induction Hl as [|y l1 Hy _ IH]; simpl.
    + by rewrite Hx.
    + by rewrite Hy.
Qed.

Lemma find_first_None {A} (p : A → bool) l :
  find_first p l = None ↔ Forall (λ y, p y = false) l.
Proof.
  induction l as [|y l IH]; simpl; [by split; [constructor|]|].
  rewrite Forall_cons_iff. destruct (p y); [split; [done|by intros [? _]]|].
  rewrite IH. tauto.
Qed.

Lemma existsb_elem {A} (p : A → bool) l : existsb p l = true ↔ ∃ x, x ∈ l ∧ p x = true.
Proof. rewrite existsb_exists. by setoid_rewrite list_elem_of_In. Qed.

Lemma forallb_elem {A} (p : A → bool) l : forallb p l = true ↔ ∀ x, x ∈ l → p x = true.
Proof. rewrite forallb_forall. by setoid_rewrite list_elem_of_In. Qed.

(** ** Automation

    [ferrum] is the database of the library's rewriting and resolution hints;
    [simp_res] clears the bookkeeping of the error monad. *)
Create HintDb ferrum discriminated.
#[export] Hint Resolve saturating_sub_range clamp_range wrap_u64_range : ferrum.

Ltac simp_res :=
  repeat match goal with
  | H : result_bind _ _ = Ok _ |- _ => apply result_bind_Ok in H; destruct H as (? & ? & H)
  | H : Ok _ = Ok _ |- _ => injection H as H
  | H : Err _ = Err _ |- _ => injection H as H
  | H : Ok _ = Err _ |- _ => discriminate H
  | H : Err _ = Ok _ |- _ => discriminate H
  | H : Some _ = Some _ |- _ => injection H as H
  | H : None = Some _ |- _ => discriminate H
  | H : Some _ = None |- _ => discriminate H
  end; subst.

(** Split every [match] of the goal on a scrutinee that is not a variable. *)
Ltac case_all := repeat (case_match; simp_res; try done).
