(* ===== verification/RustStr.v ===== *)
(** * Rust's [str] operations on byte strings

    A Rust [&str] is a sequence of bytes that is valid UTF-8; it is modelled by
    [string], one character per byte.  The operations below are those of
    [core::str] the program calls.  Whitespace is Unicode's [White_Space]
    property, recognised through the UTF-8 encoding of each such character, so
    [trim] and [split_whitespace] agree with Rust on every valid string. *)
From S2P Require Import Prelude.
From Stdlib Require Export Ascii.

Definition byte_of (c : ascii) : N := N_of_ascii c.

Definition is_digit (c : ascii) : bool := (48 <=? byte_of c)%N && (byte_of c <=? 57)%N.
Definition is_upper (c : ascii) : bool := (65 <=? byte_of c)%N && (byte_of c <=? 90)%N.
Definition is_lower (c : ascii) : bool := (97 <=? byte_of c)%N && (byte_of c <=? 122)%N.

Definition lower_char (c : ascii) : ascii :=
  if is_upper c then ascii_of_N (byte_of c + 32) else c.
Definition upper_char (c : ascii) : ascii :=
  if is_lower c then ascii_of_N (byte_of c - 32) else c.

Fixpoint string_map (f : ascii → ascii) (s : string) : string :=
  match s with "" => "" | String c s' => String (f c) (string_map f s') end.

(** [str::to_ascii_lowercase] and [str::to_ascii_uppercase]. *)
Definition to_ascii_lowercase : string → string := string_map lower_char.
Definition to_ascii_uppercase : string → string := string_map upper_char.

(** The number of bytes of the whitespace character a string starts with, 0 if
    it does not start with one. *)
Definition ws_len (s : string) : nat :=
  match s with
  | "" => 0
  | String a s1 =>
      let x := byte_of a in
      if ((9 <=? x)%N && (x <=? 13)%N) || (x =? 32)%N then 1
      else match s1 with
      | "" => 0
      | String b s2 =>
          let y := byte_of b in
          if (x =? 194)%N && ((y =? 133)%N || (y =? 160)%N) then 2
          else match s2 with
          | "" => 0
          | String c _ =>
              let z := byte_of c in
              if ((x =? 225)%N && (y =? 154)%N && (z =? 128)%N)
                 || ((x =? 226)%N && (y =? 128)%N
                     && (((128 <=? z)%N && (z <=? 138)%N) || (z =? 168)%N || (z =? 169)%N
                         || (z =? 175)%N))
                 || ((x =? 226)%N && (y =? 129)%N && (z =? 159)%N)
                 || ((x =? 227)%N && (y =? 128)%N && (z =? 128)%N)
              then 3 else 0
          end
      end
  end.

(** [str::trim_start]; [skip] counts the bytes left of a whitespace character
    already recognised. *)
Fixpoint trim_start_go (skip : nat) (s : string) : string :=
  match s with
  | "" => ""
  | String _ s' =>
      match skip with
      | S k => trim_start_go k s'
      | O => match ws_len s with O => s | S k => trim_start_go k s' end
      end
  end.
Definition trim_start (s : string) : string := trim_start_go 0 s.

(** [str::trim_end]: cut where only whitespace follows. *)
Fixpoint trim_end (s : string) : string :=
  match s with
  | "" => ""
  | String c s' =>
      if decide (trim_start s = "") then "" else String c (trim_end s')
  end.

Definition trim (s : string) : string := trim_end (trim_start s).

(** [s.chars().any(char::is_whitespace)]. *)
Fixpoint has_whitespace (s : string) : bool :=
  match s with
  | "" => false
  | String _ s' => negb (Nat.eqb (ws_len s) 0) || has_whitespace s'
  end.

(** Without whitespace there is nothing to trim. *)
Lemma trim_start_no_whitespace s : has_whitespace s = false → trim_start s = s.
Proof. destruct s as [|a s]; [done|]. unfold trim_start. cbn -[ws_len]. by destruct (ws_len _). Qed.

Lemma trim_end_no_whitespace s : has_whitespace s = false → trim_end s = s.
Proof.
  induction s as [|a s IH]; [done|]. intros Hw. pose proof (trim_start_no_whitespace _ Hw) as Ht.
  cbn [trim_end]. rewrite Ht, decide_False by done. cbn -[ws_len] in Hw.
  apply orb_false_iff in Hw as [_ Hw]. by rewrite IH.
Qed.

Lemma trim_no_whitespace s : has_whitespace s = false → trim s = s.
Proof. intros Hw. unfold trim. rewrite trim_start_no_whitespace by done. by apply trim_end_no_whitespace. Qed.

(** [str::trim_start_matches(c)] and [str::trim_end_matches(c)]. *)
Fixpoint trim_start_matches (c : ascii) (s : string) : string :=
  match s with
  | "" => ""
  | String a s' => if decide (a = c) then trim_start_matches c s' else s
  end.

Fixpoint trim_end_matches (c : ascii) (s : string) : string :=
  match s with
  | "" => ""
  | String a s' =>
      if decide (trim_start_matches c s = "") then "" else String a (trim_end_matches c s')
  end.

(** [str::split_whitespace]. *)
Fixpoint split_whitespace_go (skip : nat) (cur : string) (s : string) : list string :=
  let flush := if decide (cur = "") then [] else [cur] in
  match s with
  | "" => flush
  | String c s' =>
      match skip with
      | S k => split_whitespace_go k cur s'
      | O =>
          match ws_len s with
          | O => split_whitespace_go 0 (cur +:+ String c "") s'
          | S k => flush ++ split_whitespace_go k "" s'
          end
      end
  end.
Definition split_whitespace (s : string) : list string := split_whitespace_go 0 "" s.

(** [str::split(c)]: at least one part, empty parts kept. *)
Fixpoint split_on (c : ascii) (s : string) : list string :=
  match s with
  | "" => [""]
  | String a s' =>
      if decide (a = c) then "" :: split_on c s'
      else match split_on c s' with
           | [] => [String a ""]
           | h :: t => String a h :: t
           end
  end.

(** [str::split_once(c)] and [str::rsplit_once(c)]. *)
Fixpoint split_once (c : ascii) (s : string) : option (string * string) :=
  match s with
  | "" => None
  | String a s' =>
      if decide (a = c) then Some ("", s')
      else prod_map (String a) id <$> split_once c s'
  end.

Fixpoint rsplit_once (c : ascii) (s : string) : option (string * string) :=
  match s with
  | "" => None
  | String a s' =>
      match rsplit_once c s' with
      | Some (x, y) => Some (String a x, y)
      | None => if decide (a = c) then Some ("", s') else None
      end
  end.

(** [str::strip_prefix], [str::starts_with], [str::strip_suffix], [str::ends_with]. *)
Fixpoint strip_prefix (p s : string) : option string :=
  match p, s with
  | "", _ => Some s
  | String a p', String b s' => if decide (a = b) then strip_prefix p' s' else None
  | _, _ => None
  end.

Definition starts_with (p s : string) : bool := bool_decide (is_Some (strip_prefix p s)).

Fixpoint strip_suffix (p s : string) : option string :=
  if decide (s = p) then Some ""
  else match s with
       | "" => None
       | String a s' => String a <$> strip_suffix p s'
       end.

Definition ends_with (p s : string) : bool := bool_decide (is_Some (strip_suffix p s)).

(** [str::contains(p)] for a substring. *)
Fixpoint str_contains (p s : string) : bool :=
  starts_with p s || match s with "" => false | String _ s' => str_contains p s' end.

(** [s.find(p)] followed by slicing around the match. *)
Fixpoint split_once_str (p s : string) : option (string * string) :=
  match strip_prefix p s with
  | Some rest => Some ("", rest)
  | None =>
      match s with
      | "" => None
      | String a s' => prod_map (String a) id <$> split_once_str p s'
      end
  end.

(** [str::lines]: split at line feeds, drop one trailing carriage return of a
    line, and no final empty line. *)
Definition strip_cr (s : string) : string :=
  match strip_suffix (String (ascii_of_nat 13) "") s with Some l => l | None => s end.

Definition drop_last_empty (l : list string) : list string :=
  match rev l with "" :: r => rev r | _ => l end.

Definition str_lines (s : string) : list string :=
  strip_cr <$> drop_last_empty (split_on (ascii_of_nat 10) s).

(** [Vec<&str>::join]. *)
Fixpoint join (sep : string) (l : list string) : string :=
  match l with
  | [] => ""
  | [x] => x
  | x :: l' => x +:+ sep +:+ join sep l'
  end.

#[global] Arguments trim_start_matches _%_char _ : assert.
#[global] Arguments trim_end_matches _%_char _ : assert.
#[global] Arguments split_on _%_char _ : assert.
#[global] Arguments split_once _%_char _ : assert.
#[global] Arguments rsplit_once _%_char _ : assert.

(** ** Integers as text

    [format!("{}", n)] of an unsigned integer is [pretty]; [str::parse] of a
    [uN] reads an optional [+] and decimal digits and refuses overflow. *)
Definition show_Z (z : Z) : string := pretty z.

Definition digit_val (c : ascii) : Z := Z.of_N (byte_of c) - 48.

Fixpoint parse_digits (acc : Z) (s : string) : option Z :=
  match s with
  | "" => Some acc
  | String c s' => if is_digit c then parse_digits (acc * 10 + digit_val c)%Z s' else None
  end.

Definition parse_uint (max : Z) (s : string) : option Z :=
  let body := match s with String "+" s' => s' | _ => s end in
  match body with
  | "" => None
  | _ => match parse_digits 0 body with
         | Some z => if (z <=? max)%Z then Some z else None
         | None => None
         end
  end.

(** Lower-case hexadecimal, [{:x}] and [{:02x}]. *)
Definition hex_char (n : Z) : ascii :=
  ascii_of_N (Z.to_N (if (n <? 10)%Z then n + 48 else n + 87)%Z).

(** The hexadecimal digits of [n < 2^16], without leading zeros. *)
Definition show_hex16 (n : Z) : string :=
  let d3 := (n / 4096 mod 16)%Z in
  let d2 := (n / 256 mod 16)%Z in
  let d1 := (n / 16 mod 16)%Z in
  let d0 := (n mod 16)%Z in
  if (0 <? d3)%Z then String (hex_char d3) (String (hex_char d2) (String (hex_char d1) (String (hex_char d0) "")))
  else if (0 <? d2)%Z then String (hex_char d2) (String (hex_char d1) (String (hex_char d0) ""))
  else if (0 <? d1)%Z then String (hex_char d1) (String (hex_char d0) "")
  else String (hex_char d0) "".

Definition show_hex8 (n : Z) : string :=
  String (hex_char (n / 16 mod 16)) (String (hex_char (n mod 16)) "").

(** [format!("{v:02x?}")] of a byte vector. *)
Definition debug_hex_bytes (l : list Z) : string :=
  "[" +:+ join ", " (show_hex8 <$> l) +:+ "]".
