(* ===== verification/RustNet.v ===== *)
(** * [std::net] addresses

    An [Ipv4Addr] is its 32-bit number, an [Ipv6Addr] its 128-bit number, both in
    [Z]; [ip_wf] states the range.  Parsing and printing follow the standard
    library's recursive-descent parser and [Display] instances. *)
From S2P Require Import Prelude RustStr.

Definition Ipv4Addr := Z.
Definition Ipv6Addr := Z.

Inductive IpAddr : Type :=
| V4 (a : Ipv4Addr)
| V6 (a : Ipv6Addr).

#[export] Instance IpAddr_eq_dec : EqDecision IpAddr.
Proof. solve_decision. Defined.

Definition ip_wf (ip : IpAddr) : Prop :=
  match ip with
  | V4 a => (0 ≤ a < 2 ^ 32)%Z
  | V6 a => (0 ≤ a < 2 ^ 128)%Z
  end.

Definition is_ipv4 (ip : IpAddr) : bool := match ip with V4 _ => true | V6 _ => false end.

(** [Ipv4Addr::octets] and [Ipv6Addr::segments], most significant first. *)
Definition octet (i : Z) (a : Ipv4Addr) : Z := a / 2 ^ (24 - 8 * i) mod 256.
Definition segment (i : Z) (a : Ipv6Addr) : Z := a / 2 ^ (112 - 16 * i) mod 65536.
Definition segments (a : Ipv6Addr) : list Z := (λ i, segment i a) <$> [0; 1; 2; 3; 4; 5; 6; 7]%Z.

Definition ipv4_new (a b c d : Z) : Ipv4Addr := (a * 2 ^ 24 + b * 2 ^ 16 + c * 2 ^ 8 + d)%Z.
Definition ipv6_of_segments (l : list Z) : Ipv6Addr := foldl (λ acc s, acc * 65536 + s)%Z 0%Z l.

(** ** Classification of IPv4 addresses *)
Definition v4_is_private (a : Ipv4Addr) : bool :=
  (octet 0 a =? 10)%Z
  || ((octet 0 a =? 172)%Z && (16 <=? octet 1 a)%Z && (octet 1 a <=? 31)%Z)
  || ((octet 0 a =? 192)%Z && (octet 1 a =? 168)%Z).
Definition v4_is_loopback (a : Ipv4Addr) : bool := (octet 0 a =? 127)%Z.
Definition v4_is_link_local (a : Ipv4Addr) : bool := (octet 0 a =? 169)%Z && (octet 1 a =? 254)%Z.
Definition v4_is_unspecified (a : Ipv4Addr) : bool := (a =? 0)%Z.
Definition v4_is_broadcast (a : Ipv4Addr) : bool := (a =? 4294967295)%Z.
Definition v4_is_documentation (a : Ipv4Addr) : bool :=
  ((octet 0 a =? 192)%Z && (octet 1 a =? 0)%Z && (octet 2 a =? 2)%Z)
  || ((octet 0 a =? 198)%Z && (octet 1 a =? 51)%Z && (octet 2 a =? 100)%Z)
  || ((octet 0 a =? 203)%Z && (octet 1 a =? 0)%Z && (octet 2 a =? 113)%Z).
Definition v4_is_multicast (a : Ipv4Addr) : bool := (224 <=? octet 0 a)%Z && (octet 0 a <=? 239)%Z.

(** ** Classification of IPv6 addresses *)
Definition v6_is_loopback (a : Ipv6Addr) : bool := (a =? 1)%Z.
Definition v6_is_unspecified (a : Ipv6Addr) : bool := (a =? 0)%Z.
Definition v6_is_multicast (a : Ipv6Addr) : bool := (segment 0 a / 256 =? 255)%Z.
(** [Ipv6Addr::to_ipv4_mapped]: [::ffff:a.b.c.d]. *)
Definition to_ipv4_mapped (a : Ipv6Addr) : option Ipv4Addr :=
  if (a / 2 ^ 32 =? 65535)%Z then Some (a mod 2 ^ 32)%Z else None.

(** ** Printing *)
Definition show_ipv4 (a : Ipv4Addr) : string :=
  join "." (show_Z <$> [octet 0 a; octet 1 a; octet 2 a; octet 3 a]).

(** The first longest run of zero segments: [(start, length)]. *)
Fixpoint longest_zeros (i : nat) (cur best : nat * nat) (l : list Z) : nat * nat :=
  match l with
  | [] => best
  | s :: l' =>
      if (s =? 0)%Z then
        let cur := (if Nat.eqb cur.2 0 then i else cur.1, S cur.2) in
        longest_zeros (S i) cur (if Nat.ltb best.2 cur.2 then cur else best) l'
      else longest_zeros (S i) (0, 0) best l'
  end.

Definition fmt_subslice (l : list Z) : string := join ":" (show_hex16 <$> l).

Definition show_ipv6 (a : Ipv6Addr) : string :=
  match to_ipv4_mapped a with
  | Some v4 => "::ffff:" +:+ show_ipv4 v4
  | None =>
      let '(start, len) := longest_zeros 0 (0, 0) (0, 0) (segments a) in
      if Nat.ltb 1 len
      then fmt_subslice (take start (segments a)) +:+ "::"
             +:+ fmt_subslice (drop (start + len) (segments a))
      else fmt_subslice (segments a)
  end.

Definition show_ip (ip : IpAddr) : string :=
  match ip with V4 a => show_ipv4 a | V6 a => show_ipv6 a end.

(** ** Parsing

    A parser returns the value read and the rest of the input. *)
Definition parser (A : Type) := string → option (A * string).

Definition read_char (c : ascii) : parser unit := λ s,
  match s with String a s' => if decide (a = c) then Some (tt, s') else None | "" => None end.
#[global] Arguments read_char _%_char _ : assert.

(** [read_separator(sep, index, inner)]: a separator before every item but the first. *)
Definition read_separator {A} (sep : ascii) (index : nat) (inner : parser A) : parser A := λ s,
  match index with
  | O => inner s
  | S _ => match read_char sep s with Some (_, s') => inner s' | None => None end
  end.
#[global] Arguments read_separator {A} _%_char _ _ _ : assert.

Definition digit_of (radix : Z) (c : ascii) : option Z :=
  let n := Z.of_N (byte_of c) in
  let v := (if is_digit c then n - 48
            else if is_lower c then n - 87
            else if is_upper c then n - 55 else radix)%Z in
  if (v <? radix)%Z then Some v else None.

(** [read_number]: at most [max_digits] digits, values up to [limit]. *)
Fixpoint read_digits (radix limit acc : Z) (count : nat) (s : string) : option (Z * nat * string) :=
  match s with
  | "" => Some (acc, count, s)
  | String c s' =>
      match digit_of radix c with
      | Some d =>
          let acc' := (acc * radix + d)%Z in
          if (limit <? acc')%Z then None else read_digits radix limit acc' (S count) s'
      | None => Some (acc, count, s)
      end
  end.

Definition read_number (radix limit : Z) (max_digits : nat) (zero_prefix : bool) : parser Z := λ s,
  match read_digits radix limit 0 0 s with
  | Some (v, n, rest) =>
      let leading_zero := match s with String "0" _ => true | _ => false end in
      if Nat.eqb n 0 || Nat.ltb max_digits n then None
      else if negb zero_prefix && leading_zero && Nat.ltb 1 n then None
      else Some (v, rest)
  | None => None
  end.

Definition read_ipv4 : parser Ipv4Addr := λ s,
  let oct := read_number 10 255 3 false in
  match read_separator "." 0 oct s with
  | Some (a, s) => match read_separator "." 1 oct s with
  | Some (b, s) => match read_separator "." 2 oct s with
  | Some (c, s) => match read_separator "." 3 oct s with
  | Some (d, s) => Some (ipv4_new a b c d, s)
  | None => None end | None => None end | None => None end | None => None end.

(** [read_groups]: up to [limit] 16-bit groups; an embedded IPv4 address counts
    for two and ends the list.  Returns the groups, whether one was IPv4, and
    the rest.  [todo] is [limit - i]. *)
Fixpoint read_groups (i todo : nat) (s : string) : list Z * bool * string :=
  match todo with
  | O => ([], false, s)
  | S todo' =>
      let v4 := match todo' with O => None | S _ => read_separator ":" i read_ipv4 s end in
      match v4 with
      | Some (a, rest) => ([a / 65536; a mod 65536]%Z, true, rest)
      | None =>
          match read_separator ":" i (read_number 16 65535 4 true) s with
          | Some (g, rest) =>
              let '(gs, b, rest') := read_groups (S i) todo' rest in (g :: gs, b, rest')
          | None => ([], false, s)
          end
      end
  end.

Definition read_ipv6 : parser Ipv6Addr := λ s,
  let '(head, head_v4, rest) := read_groups 0 8 s in
  if Nat.eqb (length head) 8 then Some (ipv6_of_segments head, rest)
  else if head_v4 then None
  else match read_char ":" rest with
  | Some (_, rest) =>
      match read_char ":" rest with
      | Some (_, rest) =>
          let '(tail, _, rest) := read_groups 0 (7 - length head) rest in
          Some (ipv6_of_segments (head ++ replicate (8 - length head - length tail) 0%Z ++ tail), rest)
      | None => None
      end
  | None => None
  end.

(** [parse_with]: the whole input must be consumed. *)
Definition parse_all {A} (p : parser A) (s : string) : option A :=
  match p s with Some (a, "") => Some a | _ => None end.

Definition parse_ipv4 (s : string) : option Ipv4Addr :=
  if Nat.ltb 15 (String.length s) then None else parse_all read_ipv4 s.
Definition parse_ipv6 (s : string) : option Ipv6Addr := parse_all read_ipv6 s.
Definition read_ip : parser IpAddr := λ s,
  match read_ipv4 s with
  | Some (a, rest) => Some (V4 a, rest)
  | None => match read_ipv6 s with Some (a, rest) => Some (V6 a, rest) | None => None end
  end.
(** [s.parse::<IpAddr>()]. *)
Definition parse_ip_addr (s : string) : option IpAddr := parse_all read_ip s.

(** The [Display] of the parse errors. *)
Definition ip_parse_error : string := "invalid IP address syntax".
Definition ipv4_parse_error : string := "invalid IPv4 address syntax".
Definition ipv6_parse_error : string := "invalid IPv6 address syntax".

(** ** Socket addresses *)
Record SocketAddr : Type := mkSocketAddr { sa_ip : IpAddr; sa_port : Z }.
#[export] Instance SocketAddr_eq_dec : EqDecision SocketAddr.
Proof. solve_decision. Defined.

Definition read_port : parser Z := λ s,
  match read_char ":" s with
  | Some (_, s) => read_number 10 65535 (String.length s) true s
  | None => None
  end.

(** [%scope], read and not kept. *)
Definition read_scope_id : parser unit := λ s,
  match read_char "%" s with
  | Some (_, s) =>
      match read_number 10 4294967295 (String.length s) true s with
      | Some (_, rest) => Some (tt, rest)
      | None => None
      end
  | None => None
  end.

Definition read_socket_v4 : parser SocketAddr := λ s,
  match read_ipv4 s with
  | Some (a, s) => match read_port s with Some (p, s) => Some (mkSocketAddr (V4 a) p, s) | None => None end
  | None => None
  end.

Definition read_socket_v6 : parser SocketAddr := λ s,
  match read_char "[" s with
  | Some (_, s) => match read_ipv6 s with
  | Some (a, s) =>
      let s := match read_scope_id s with Some (_, s') => s' | None => s end in
      match read_char "]" s with
      | Some (_, s) => match read_port s with
      | Some (p, s) => Some (mkSocketAddr (V6 a) p, s)
      | None => None end | None => None end
  | None => None end | None => None end.

(** [s.parse::<SocketAddr>()]. *)
Definition parse_socket_addr (s : string) : option SocketAddr :=
  parse_all (λ s, match read_socket_v4 s with Some r => Some r | None => read_socket_v6 s end) s.
Definition socket_parse_error : string := "invalid socket address syntax".
