(* ===== verification/Error.v ===== *)
(** * [error.rs]: the crate's error type *)
From S2P Require Import Prelude RustStr.

(** @src src/src/error.rs 3-29 Error *)
Inductive Error : Type :=
| ErrConfig (msg : string)
| ErrPlugin (tag kind message : string)
| ErrUnknownTag (tag : string)
| ErrProtocol (msg : string)
| ErrUpstream (addr message : string)
| ErrIo (msg : string)
| ErrOther (msg : string).

#[export] Instance Error_eq_dec : EqDecision Error.
Proof. solve_decision. Defined.

(** [crate::error::Result<T>]. *)
Notation Res := (result Error).

(** The [#[error("...")]] attributes: [Error]'s [Display].
    @src src/src/error.rs 5-29 Error *)
Definition error_display (e : Error) : string :=
  match e with
  | ErrConfig msg => "config: " +:+ msg
  | ErrPlugin tag kind message => "plugin `" +:+ tag +:+ "` (" +:+ kind +:+ "): " +:+ message
  | ErrUnknownTag tag => "unknown plugin tag `" +:+ tag +:+ "`"
  | ErrProtocol msg => "dns protocol: " +:+ msg
  | ErrUpstream addr message => "upstream " +:+ addr +:+ ": " +:+ message
  | ErrIo msg => "io: " +:+ msg
  | ErrOther msg => msg
  end.
