(* ===== verification/Hickory.v ===== *)
(** * The interface to [hickory_proto]

    The DNS message library is not part of the repository.  Its types are
    abstract here: the class [Hickory] lists the operations the program calls,
    and [HickoryLaws] the documented behaviour the proofs rely on.  Structured
    values are observed through a view: [mview m] holds what the accessors of a
    [Message] return, and the law of each setter says how the view changes. *)
From S2P Require Import Prelude RustStr RustNet.

(** What the accessors of each structure return. *)
Record RecordView (Name RecordType DNSClass RData : Type) := mkRecordView {
  r_name : Name;
  r_ttl : Z;
  r_class : DNSClass;
  r_type : RecordType;
  r_data : RData;
}.
Record QueryView (Name RecordType DNSClass : Type) := mkQueryView {
  q_name : Name;
  q_type : RecordType;
  q_class : DNSClass;
}.
Record EdnsView (EdnsCode EdnsOption : Type) := mkEdnsView {
  e_max_payload : Z;
  e_version : Z;
  e_dnssec_ok : bool;
  e_options : list (EdnsCode * EdnsOption);
}.
Record MessageView (MessageType OpCode ResponseCode Query Record_ Edns : Type) := mkMessageView {
  m_id : Z;
  m_type : MessageType;
  m_opcode : OpCode;
  m_authoritative : bool;
  m_truncated : bool;
  m_recursion_desired : bool;
  m_recursion_available : bool;
  m_authentic_data : bool;
  m_checking_disabled : bool;
  m_rcode : ResponseCode;
  m_queries : list Query;
  m_answers : list Record_;
  m_name_servers : list Record_;
  m_additionals : list Record_;
  m_edns : option Edns;
}.
Arguments mkRecordView {_ _ _ _}.
Arguments r_name {_ _ _ _}.
Arguments r_ttl {_ _ _ _}.
Arguments r_class {_ _ _ _}.
Arguments r_type {_ _ _ _}.
Arguments r_data {_ _ _ _}.
Arguments mkQueryView {_ _ _}.
Arguments q_name {_ _ _}.
Arguments q_type {_ _ _}.
Arguments q_class {_ _ _}.
Arguments mkEdnsView {_ _}.
Arguments e_max_payload {_ _}.
Arguments e_version {_ _}.
Arguments e_dnssec_ok {_ _}.
Arguments e_options {_ _}.
Arguments mkMessageView {_ _ _ _ _ _}.
Arguments m_id {_ _ _ _ _ _}.
Arguments m_type {_ _ _ _ _ _}.
Arguments m_opcode {_ _ _ _ _ _}.
Arguments m_authoritative {_ _ _ _ _ _}.
Arguments m_truncated {_ _ _ _ _ _}.
Arguments m_recursion_desired {_ _ _ _ _ _}.
Arguments m_recursion_available {_ _ _ _ _ _}.
Arguments m_authentic_data {_ _ _ _ _ _}.
Arguments m_checking_disabled {_ _ _ _ _ _}.
Arguments m_rcode {_ _ _ _ _ _}.
Arguments m_queries {_ _ _ _ _ _}.
Arguments m_answers {_ _ _ _ _ _}.
Arguments m_name_servers {_ _ _ _ _ _}.
Arguments m_additionals {_ _ _ _ _ _}.
Arguments m_edns {_ _ _ _ _ _}.

(** The variants of [RData] the program matches on. *)
Inductive RDataView (Name : Type) : Type :=
| RDataA (ip : Ipv4Addr)
| RDataAAAA (ip : Ipv6Addr)
| RDataCNAME (target : Name)
| RDataOther.
Arguments RDataA {_}.
Arguments RDataAAAA {_}.
Arguments RDataCNAME {_}.
Arguments RDataOther {_}.

Class Hickory := {
  (** Names. *)
  Name : Type;
  name_eqb : Name → Name → bool;
  name_to_ascii : Name → string;
  name_display : Name → string;
  name_from_ascii : string → result string Name;
  name_from_str : string → result string Name;
  name_set_fqdn : bool → Name → Name;
  (** Enumerations. *)
  MessageType : Type;
  MessageType_eq_dec :: EqDecision MessageType;
  mt_Query : MessageType;
  mt_Response : MessageType;
  OpCode : Type;
  OpCode_eq_dec :: EqDecision OpCode;
  op_Query : OpCode;
  ResponseCode : Type;
  ResponseCode_eq_dec :: EqDecision ResponseCode;
  rcode_from_u16 : Z → ResponseCode;
  rcode_into_u16 : ResponseCode → Z;
  rcode_display : ResponseCode → string;
  rc_NoError : ResponseCode;
  rc_FormErr : ResponseCode;
  rc_ServFail : ResponseCode;
  rc_NXDomain : ResponseCode;
  rc_NotImp : ResponseCode;
  rc_Refused : ResponseCode;
  RecordType : Type;
  RecordType_eq_dec :: EqDecision RecordType;
  rt_from_str : string → option RecordType;
  rt_debug : RecordType → string;
  rt_A : RecordType;
  rt_AAAA : RecordType;
  rt_CNAME : RecordType;
  rt_MX : RecordType;
  rt_NS : RecordType;
  rt_PTR : RecordType;
  rt_SOA : RecordType;
  rt_SRV : RecordType;
  rt_TXT : RecordType;
  rt_HTTPS : RecordType;
  rt_SVCB : RecordType;
  rt_ANY : RecordType;
  rt_OPT : RecordType;
  DNSClass : Type;
  DNSClass_eq_dec :: EqDecision DNSClass;
  class_IN : DNSClass;
  class_debug : DNSClass → string;
  (** Record data and records. *)
  RData : Type;
  rdata_view : RData → RDataView Name;
  rdata_A : Ipv4Addr → RData;
  rdata_AAAA : Ipv6Addr → RData;
  rdata_CNAME : Name → RData;
  Record_ : Type;
  rview : Record_ → RecordView Name RecordType DNSClass RData;
  record_from_rdata : Name → Z → RData → Record_;
  record_set_ttl : Z → Record_ → Record_;
  record_set_class : DNSClass → Record_ → Record_;
  (** Questions. *)
  Query : Type;
  qview : Query → QueryView Name RecordType DNSClass;
  query_eqb : Query → Query → bool;
  query_new : Query;
  query_set_name : Name → Query → Query;
  query_set_type : RecordType → Query → Query;
  query_set_class : DNSClass → Query → Query;
  (** EDNS and the client-subnet option. *)
  ClientSubnet : Type;
  cs_new : IpAddr → Z → Z → ClientSubnet;
  cs_addr : ClientSubnet → IpAddr;
  cs_source_prefix : ClientSubnet → Z;
  cs_scope_prefix : ClientSubnet → Z;
  EdnsCode : Type;
  EdnsCode_eq_dec :: EqDecision EdnsCode;
  code_Subnet : EdnsCode;
  EdnsOption : Type;
  option_Subnet : ClientSubnet → EdnsOption;
  option_as_subnet : EdnsOption → option ClientSubnet;
  option_code : EdnsOption → EdnsCode;
  Edns : Type;
  eview : Edns → EdnsView EdnsCode EdnsOption;
  edns_new : Edns;
  edns_set_max_payload : Z → Edns → Edns;
  edns_set_dnssec_ok : bool → Edns → Edns;
  edns_option : EdnsCode → Edns → option EdnsOption;
  edns_options_insert : EdnsOption → Edns → Edns;
  edns_options_remove : EdnsCode → Edns → Edns;
  (** Messages. *)
  Message : Type;
  mview : Message → MessageView MessageType OpCode ResponseCode Query Record_ Edns;
  message_new : Message;
  set_id : Z → Message → Message;
  set_message_type : MessageType → Message → Message;
  set_op_code : OpCode → Message → Message;
  set_authoritative : bool → Message → Message;
  set_truncated : bool → Message → Message;
  set_recursion_desired : bool → Message → Message;
  set_recursion_available : bool → Message → Message;
  set_authentic_data : bool → Message → Message;
  set_checking_disabled : bool → Message → Message;
  set_response_code : ResponseCode → Message → Message;
  set_queries : list Query → Message → Message;
  set_answers : list Record_ → Message → Message;
  set_name_servers : list Record_ → Message → Message;
  set_additionals : list Record_ → Message → Message;
  set_extensions : option Edns → Message → Message;
  message_truncate : Message → Message;
  message_from_vec : list Z → result string Message;
  message_to_vec : Message → result string (list Z);
}.

(** ** Accessors *)
Section accessors.
Context `{H : Hickory}.
Definition msg_id (m : Message) : Z := m_id (mview m).
Definition message_type (m : Message) : MessageType := m_type (mview m).
Definition op_code (m : Message) : OpCode := m_opcode (mview m).
Definition authoritative (m : Message) : bool := m_authoritative (mview m).
Definition truncated (m : Message) : bool := m_truncated (mview m).
Definition recursion_desired (m : Message) : bool := m_recursion_desired (mview m).
Definition recursion_available (m : Message) : bool := m_recursion_available (mview m).
Definition authentic_data (m : Message) : bool := m_authentic_data (mview m).
Definition checking_disabled (m : Message) : bool := m_checking_disabled (mview m).
Definition response_code (m : Message) : ResponseCode := m_rcode (mview m).
Definition queries (m : Message) : list Query := m_queries (mview m).
Definition answers (m : Message) : list Record_ := m_answers (mview m).
Definition name_servers (m : Message) : list Record_ := m_name_servers (mview m).
Definition additionals (m : Message) : list Record_ := m_additionals (mview m).
Definition extensions (m : Message) : option Edns := m_edns (mview m).
Definition rec_name (r : Record_) : Name := r_name (rview r).
(** [ttl()] returns a [u32]. *)
Definition rec_ttl (r : Record_) : Z := wrap_u32 (r_ttl (rview r)).
Definition rec_class (r : Record_) : DNSClass := r_class (rview r).
Definition record_type (r : Record_) : RecordType := r_type (rview r).
Definition rec_data (r : Record_) : RData := r_data (rview r).
Definition query_name (q : Query) : Name := q_name (qview q).
Definition query_type (q : Query) : RecordType := q_type (qview q).
Definition query_class (q : Query) : DNSClass := q_class (qview q).
Definition max_payload (e : Edns) : Z := e_max_payload (eview e).
Definition edns_version (e : Edns) : Z := e_version (eview e).
Definition dnssec_ok (e : Edns) : bool := e_dnssec_ok (eview e).
Definition edns_options (e : Edns) : list (EdnsCode * EdnsOption) := e_options (eview e).

(** [add_query], [add_answer], [set_edns]. *)
Definition add_query (q : Query) (m : Message) : Message := set_queries (queries m ++ [q]) m.
Definition add_answer (r : Record_) (m : Message) : Message := set_answers (answers m ++ [r]) m.
Definition set_edns (e : Edns) (m : Message) : Message := set_extensions (Some e) m.
End accessors.

(** ** Documented behaviour *)
Class HickoryLaws (H : Hickory) : Prop := {
  mt_distinct : mt_Query ≠ mt_Response;
  rcode_NoError_u16 : rcode_into_u16 rc_NoError = 0%Z;
  rcode_FormErr_u16 : rcode_into_u16 rc_FormErr = 1%Z;
  rcode_ServFail_u16 : rcode_into_u16 rc_ServFail = 2%Z;
  rcode_NXDomain_u16 : rcode_into_u16 rc_NXDomain = 3%Z;
  rcode_NotImp_u16 : rcode_into_u16 rc_NotImp = 4%Z;
  rcode_Refused_u16 : rcode_into_u16 rc_Refused = 5%Z;
  rt_distinct : NoDup [rt_A; rt_AAAA; rt_CNAME; rt_MX; rt_NS; rt_PTR; rt_SOA; rt_SRV; rt_TXT;
                       rt_HTTPS; rt_SVCB; rt_ANY; rt_OPT];
  (** Comparison of names is an equivalence that ignores the case of letters. *)
  name_eqb_refl : ∀ n, name_eqb n n = true;
  name_eqb_sym : ∀ n1 n2, name_eqb n1 n2 = name_eqb n2 n1;
  name_eqb_trans : ∀ n1 n2 n3, name_eqb n1 n2 = true → name_eqb n2 n3 = true → name_eqb n1 n3 = true;
  (** Record data and records. *)
  rdata_view_A : ∀ ip, rdata_view (rdata_A ip) = RDataA ip;
  rdata_view_AAAA : ∀ ip, rdata_view (rdata_AAAA ip) = RDataAAAA ip;
  rdata_view_CNAME : ∀ n, rdata_view (rdata_CNAME n) = RDataCNAME n;
  rview_A : ∀ n t ip,
    rview (record_from_rdata n t (rdata_A ip)) = mkRecordView n t class_IN rt_A (rdata_A ip);
  rview_AAAA : ∀ n t ip,
    rview (record_from_rdata n t (rdata_AAAA ip)) = mkRecordView n t class_IN rt_AAAA (rdata_AAAA ip);
  rview_CNAME : ∀ n t c,
    rview (record_from_rdata n t (rdata_CNAME c)) = mkRecordView n t class_IN rt_CNAME (rdata_CNAME c);
  rview_set_ttl : ∀ t r,
    rview (record_set_ttl t r)
    = mkRecordView (rec_name r) t (rec_class r) (record_type r) (rec_data r);
  rview_set_class : ∀ c r,
    rview (record_set_class c r)
    = mkRecordView (rec_name r) (r_ttl (rview r)) c (record_type r) (rec_data r);
  (** Questions. *)
  query_eqb_spec : ∀ q1 q2,
    query_eqb q1 q2 = name_eqb (query_name q1) (query_name q2)
                      && bool_decide (query_type q1 = query_type q2)
                      && bool_decide (query_class q1 = query_class q2);
  qview_set_name : ∀ n q,
    qview (query_set_name n q) = mkQueryView n (query_type q) (query_class q);
  qview_set_type : ∀ t q,
    qview (query_set_type t q) = mkQueryView (query_name q) t (query_class q);
  qview_set_class : ∀ c q,
    qview (query_set_class c q) = mkQueryView (query_name q) (query_type q) c;
  (** EDNS: [remove] drops every option of a code, [insert] adds one. *)
  cs_addr_new : ∀ a s p, cs_addr (cs_new a s p) = a;
  cs_source_new : ∀ a s p, cs_source_prefix (cs_new a s p) = s;
  cs_scope_new : ∀ a s p, cs_scope_prefix (cs_new a s p) = p;
  option_subnet_code : ∀ cs, option_code (option_Subnet cs) = code_Subnet;
  option_subnet_as : ∀ cs, option_as_subnet (option_Subnet cs) = Some cs;
  edns_new_options : edns_options edns_new = [];
  eview_set_max_payload : ∀ n e,
    eview (edns_set_max_payload n e) = mkEdnsView n (edns_version e) (dnssec_ok e) (edns_options e);
  eview_set_dnssec_ok : ∀ b e,
    eview (edns_set_dnssec_ok b e) = mkEdnsView (max_payload e) (edns_version e) b (edns_options e);
  edns_option_spec : ∀ c e,
    edns_option c e = snd <$> find_first (λ p, bool_decide (p.1 = c)) (edns_options e);
  eview_options_remove : ∀ c e,
    eview (edns_options_remove c e)
    = mkEdnsView (max_payload e) (edns_version e) (dnssec_ok e)
        (filter (λ p, p.1 ≠ c) (edns_options e));
  eview_options_insert : ∀ o e,
    Forall (λ p, p.1 ≠ option_code o) (edns_options e) →
    eview (edns_options_insert o e)
    = mkEdnsView (max_payload e) (edns_version e) (dnssec_ok e)
        (edns_options e ++ [(option_code o, o)]);
  (** Messages. *)
  message_new_lists : queries message_new = [] ∧ answers message_new = []
    ∧ name_servers message_new = [] ∧ additionals message_new = [] ∧ extensions message_new = None;
  message_new_flags : authoritative message_new = false ∧ truncated message_new = false
    ∧ authentic_data message_new = false ∧ checking_disabled message_new = false;
  mview_set_id : ∀ x m, mview (set_id x m)
    = mkMessageView x (message_type m) (op_code m) (authoritative m) (truncated m) (recursion_desired m) (recursion_available m) (authentic_data m) (checking_disabled m) (response_code m) (queries m) (answers m) (name_servers m) (additionals m) (extensions m);
  mview_set_message_type : ∀ x m, mview (set_message_type x m)
    = mkMessageView (msg_id m) x (op_code m) (authoritative m) (truncated m) (recursion_desired m) (recursion_available m) (authentic_data m) (checking_disabled m) (response_code m) (queries m) (answers m) (name_servers m) (additionals m) (extensions m);
  mview_set_op_code : ∀ x m, mview (set_op_code x m)
    = mkMessageView (msg_id m) (message_type m) x (authoritative m) (truncated m) (recursion_desired m) (recursion_available m) (authentic_data m) (checking_disabled m) (response_code m) (queries m) (answers m) (name_servers m) (additionals m) (extensions m);
  mview_set_authoritative : ∀ x m, mview (set_authoritative x m)
    = mkMessageView (msg_id m) (message_type m) (op_code m) x (truncated m) (recursion_desired m) (recursion_available m) (authentic_data m) (checking_disabled m) (response_code m) (queries m) (answers m) (name_servers m) (additionals m) (extensions m);
  mview_set_truncated : ∀ x m, mview (set_truncated x m)
    = mkMessageView (msg_id m) (message_type m) (op_code m) (authoritative m) x (recursion_desired m) (recursion_available m) (authentic_data m) (checking_disabled m) (response_code m) (queries m) (answers m) (name_servers m) (additionals m) (extensions m);
  mview_set_recursion_desired : ∀ x m, mview (set_recursion_desired x m)
    = mkMessageView (msg_id m) (message_type m) (op_code m) (authoritative m) (truncated m) x (recursion_available m) (authentic_data m) (checking_disabled m) (response_code m) (queries m) (answers m) (name_servers m) (additionals m) (extensions m);
  mview_set_recursion_available : ∀ x m, mview (set_recursion_available x m)
    = mkMessageView (msg_id m) (message_type m) (op_code m) (authoritative m) (truncated m) (recursion_desired m) x (authentic_data m) (checking_disabled m) (response_code m) (queries m) (answers m) (name_servers m) (additionals m) (extensions m);
  mview_set_authentic_data : ∀ x m, mview (set_authentic_data x m)
    = mkMessageView (msg_id m) (message_type m) (op_code m) (authoritative m) (truncated m) (recursion_desired m) (recursion_available m) x (checking_disabled m) (response_code m) (queries m) (answers m) (name_servers m) (additionals m) (extensions m);
  mview_set_checking_disabled : ∀ x m, mview (set_checking_disabled x m)
    = mkMessageView (msg_id m) (message_type m) (op_code m) (authoritative m) (truncated m) (recursion_desired m) (recursion_available m) (authentic_data m) x (response_code m) (queries m) (answers m) (name_servers m) (additionals m) (extensions m);
  mview_set_response_code : ∀ x m, mview (set_response_code x m)
    = mkMessageView (msg_id m) (message_type m) (op_code m) (authoritative m) (truncated m) (recursion_desired m) (recursion_available m) (authentic_data m) (checking_disabled m) x (queries m) (answers m) (name_servers m) (additionals m) (extensions m);
  mview_set_queries : ∀ x m, mview (set_queries x m)
    = mkMessageView (msg_id m) (message_type m) (op_code m) (authoritative m) (truncated m) (recursion_desired m) (recursion_available m) (authentic_data m) (checking_disabled m) (response_code m) x (answers m) (name_servers m) (additionals m) (extensions m);
  mview_set_answers : ∀ x m, mview (set_answers x m)
    = mkMessageView (msg_id m) (message_type m) (op_code m) (authoritative m) (truncated m) (recursion_desired m) (recursion_available m) (authentic_data m) (checking_disabled m) (response_code m) (queries m) x (name_servers m) (additionals m) (extensions m);
  mview_set_name_servers : ∀ x m, mview (set_name_servers x m)
    = mkMessageView (msg_id m) (message_type m) (op_code m) (authoritative m) (truncated m) (recursion_desired m) (recursion_available m) (authentic_data m) (checking_disabled m) (response_code m) (queries m) (answers m) x (additionals m) (extensions m);
  mview_set_additionals : ∀ x m, mview (set_additionals x m)
    = mkMessageView (msg_id m) (message_type m) (op_code m) (authoritative m) (truncated m) (recursion_desired m) (recursion_available m) (authentic_data m) (checking_disabled m) (response_code m) (queries m) (answers m) (name_servers m) x (extensions m);
  mview_set_extensions : ∀ x m, mview (set_extensions x m)
    = mkMessageView (msg_id m) (message_type m) (op_code m) (authoritative m) (truncated m) (recursion_desired m) (recursion_available m) (authentic_data m) (checking_disabled m) (response_code m) (queries m) (answers m) (name_servers m) (additionals m) x;
  mview_truncate : ∀ m, mview (message_truncate m)
    = mkMessageView (msg_id m) (message_type m) (op_code m) (authoritative m) true (recursion_desired m)
        (recursion_available m) (authentic_data m) (checking_disabled m) (response_code m) (queries m)
        [] [] [] (extensions m);
}.

(** ** Rewriting with the laws

    [dns] computes the view of a message built by setters: it unfolds the
    accessors, rewrites with the setter laws and reduces the projections. *)
Ltac dns_unfold := unfold msg_id, message_type, op_code, authoritative, truncated, recursion_desired,
  recursion_available, authentic_data, checking_disabled, response_code, queries, answers,
  name_servers, additionals, extensions, add_query, add_answer, set_edns,
  rec_name, rec_ttl, rec_class, record_type, rec_data, query_name, query_type, query_class,
  max_payload, edns_version, dnssec_ok, edns_options in *.

Ltac dns_views := rewrite ?mview_set_id, ?mview_set_message_type, ?mview_set_op_code,
  ?mview_set_authoritative, ?mview_set_truncated, ?mview_set_recursion_desired,
  ?mview_set_recursion_available, ?mview_set_authentic_data, ?mview_set_checking_disabled,
  ?mview_set_response_code, ?mview_set_queries, ?mview_set_answers, ?mview_set_name_servers,
  ?mview_set_additionals, ?mview_set_extensions, ?mview_truncate,
  ?rview_set_ttl, ?rview_set_class, ?rview_A, ?rview_AAAA, ?rview_CNAME,
  ?qview_set_name, ?qview_set_type, ?qview_set_class,
  ?eview_set_max_payload, ?eview_set_dnssec_ok, ?eview_options_remove.

Ltac dns_cbn := cbn [m_id m_type m_opcode m_authoritative m_truncated m_recursion_desired
  m_recursion_available m_authentic_data m_checking_disabled m_rcode m_queries m_answers
  m_name_servers m_additionals m_edns r_name r_ttl r_class r_type r_data q_name q_type q_class
  e_max_payload e_version e_dnssec_ok e_options].

Ltac dns := repeat (progress (dns_unfold; dns_views; dns_cbn)).

(** Two messages are equivalent when every accessor agrees on them. *)
Definition message_equiv `{H : Hickory} (m1 m2 : Message) : Prop := mview m1 = mview m2.

#[export] Instance message_equiv_equivalence `{H : Hickory} : Equivalence message_equiv.
Proof. split; unfold message_equiv; [congruence..]. Qed.

Section setter_proper.
Context {H : Hickory} {HL : HickoryLaws H}.

#[export] Instance set_id_proper x : Proper (message_equiv ==> message_equiv) (set_id x).
Proof. intros m1 m2 E. unfold message_equiv in *. dns. by rewrite E. Qed.
#[export] Instance set_answers_proper x : Proper (message_equiv ==> message_equiv) (set_answers x).
Proof. intros m1 m2 E. unfold message_equiv in *. dns. by rewrite E. Qed.
#[export] Instance set_extensions_proper x :
  Proper (message_equiv ==> message_equiv) (set_extensions x).
Proof. intros m1 m2 E. unfold message_equiv in *. dns. by rewrite E. Qed.
#[export] Instance set_message_type_proper x :
  Proper (message_equiv ==> message_equiv) (set_message_type x).
Proof. intros m1 m2 E. unfold message_equiv in *. dns. by rewrite E. Qed.
End setter_proper.
