(* ===== verification/HickoryDemo.v ===== *)
(** * A concrete instance of the [Hickory] interface

    Used by the witnesses: every law of [HickoryLaws] holds of it and all its
    operations compute.  Names are lists of labels without escapes; the wire
    codec is the [Countable] code of the message's view, written as bits, so
    that decoding inverts encoding. *)
From S2P Require Import Prelude RustStr RustNet Hickory.

Record DName := mkDName { d_labels : list string; d_fqdn : bool }.
#[export] Instance DName_eq_dec : EqDecision DName. Proof. solve_decision. Defined.
#[export] Instance DName_countable : Countable DName.
Proof.
  refine (inj_countable' (λ n, (d_labels n, d_fqdn n)) (λ p, mkDName p.1 p.2) _).
  by intros [].
Defined.

Definition d_to_ascii (n : DName) : string :=
  if d_fqdn n then join "." (d_labels n) +:+ "." else join "." (d_labels n).
Definition d_from_ascii (s : string) : result string DName :=
  if decide (s = ".") then Ok (mkDName [] true)
  else
    let '(body, fqdn) := match strip_suffix "." s with Some b => (b, true) | None => (s, false) end in
    let labels := split_on "." body in
    if decide (s = "") then Ok (mkDName [] false)
    else if forallb (λ l, Nat.ltb 0 (String.length l) && Nat.ltb (String.length l) 64
                          && negb (has_whitespace l)) labels
    then Ok (mkDName labels fqdn) else Err "label bytes exceed limit".
Definition d_name_eqb (a b : DName) : bool :=
  bool_decide (to_ascii_lowercase <$> d_labels a = to_ascii_lowercase <$> d_labels b)
  && bool_decide (d_fqdn a = d_fqdn b).

Inductive DRData :=
| DA (ip : Z)
| DAAAA (ip : Z)
| DCNAME (n : DName)
| DOther (t : Z) (bytes : list Z).
#[export] Instance DRData_eq_dec : EqDecision DRData. Proof. solve_decision. Defined.
#[export] Instance DRData_countable : Countable DRData.
Proof.
  refine (inj_countable'
    (λ d, match d with DA i => inl (inl i) | DAAAA i => inl (inr i) | DCNAME n => inr (inl n)
          | DOther t b => inr (inr (t, b)) end)
    (λ s, match s with inl (inl i) => DA i | inl (inr i) => DAAAA i | inr (inl n) => DCNAME n
          | inr (inr (t, b)) => DOther t b end) _).
  by intros [].
Defined.
Definition d_rtype (d : DRData) : Z :=
  match d with DA _ => 1 | DAAAA _ => 28 | DCNAME _ => 5 | DOther t _ => t end.

Definition DRecord := RecordView DName Z Z DRData.
#[export] Instance DRecord_eq_dec : EqDecision DRecord. Proof. unfold DRecord. solve_decision. Defined.
#[export] Instance DRecord_countable : Countable DRecord.
Proof.
  refine (inj_countable
    (λ r : DRecord, [encode (r_name r); encode (r_ttl r); encode (r_class r); encode (r_type r); encode (r_data r)])
    (λ l, match l with
          | [n; t; c; y; d] =>
              n ← decode n; t ← decode t; c ← decode c; y ← decode y; d ← decode d; Some (mkRecordView n t c y d)
          | _ => None
          end) _).
  intros []. cbn -[encode decode]. by rewrite !decode_encode.
Defined.

Definition DQuery := QueryView DName Z Z.
#[export] Instance DQuery_eq_dec : EqDecision DQuery. Proof. unfold DQuery. solve_decision. Defined.
#[export] Instance DQuery_countable : Countable DQuery.
Proof.
  refine (inj_countable' (λ q : DQuery, (q_name q, q_type q, q_class q))
    (λ '(n, t, c), mkQueryView n t c) _).
  by intros [].
Defined.

Definition DSubnet : Type := IpAddr * Z * Z.
#[export] Instance IpAddr_countable : Countable IpAddr.
Proof.
  refine (inj_countable' (λ ip, match ip with V4 a => inl a | V6 a => inr a end)
    (λ s, match s with inl a => V4 a | inr a => V6 a end) _).
  by intros [].
Defined.

(** Options: a client subnet (code 8), or another code with its bytes. *)
Definition DOption : Type := DSubnet + Z * list Z.
Definition DEdns := EdnsView Z DOption.
#[export] Instance DEdns_eq_dec : EqDecision DEdns. Proof. unfold DEdns. solve_decision. Defined.
#[export] Instance DEdns_countable : Countable DEdns.
Proof.
  refine (inj_countable' (λ e : DEdns, (e_max_payload e, e_version e, e_dnssec_ok e, e_options e))
    (λ '(p, v, d, o), mkEdnsView p v d o) _).
  by intros [].
Defined.

Definition DMessage := MessageView bool Z Z DQuery DRecord DEdns.
#[export] Instance DMessage_eq_dec : EqDecision DMessage. Proof. unfold DMessage. solve_decision. Defined.
(** The code of a tuple of fields: the list of the codes of the fields, which is
    linear in their size. *)
#[export] Instance DMessage_countable : Countable DMessage.
Proof.
  refine (inj_countable
    (λ m : DMessage, [encode (m_id m); encode (m_type m); encode (m_opcode m); encode (m_authoritative m);
      encode (m_truncated m); encode (m_recursion_desired m); encode (m_recursion_available m);
      encode (m_authentic_data m); encode (m_checking_disabled m); encode (m_rcode m); encode (m_queries m);
      encode (m_answers m); encode (m_name_servers m); encode (m_additionals m); encode (m_edns m)])
    (λ l, match l with
          | [a; b; c; d; e; f; g; h; i; j; k; l; m; n; o] =>
              a ← decode a; b ← decode b; c ← decode c; d ← decode d; e ← decode e; f ← decode f; g ← decode g;
              h ← decode h; i ← decode i; j ← decode j; k ← decode k; l ← decode l; m ← decode m; n ← decode n;
              o ← decode o; Some (mkMessageView a b c d e f g h i j k l m n o)
          | _ => None
          end) _).
  intros []. cbn -[encode decode]. by rewrite !decode_encode.
Defined.

Fixpoint pos_bits (p : positive) : list Z :=
  match p with xH => [] | xO p => 0%Z :: pos_bits p | xI p => 1%Z :: pos_bits p end.
Fixpoint bits_pos (l : list Z) : positive :=
  match l with [] => xH | b :: l => if (b =? 0)%Z then xO (bits_pos l) else xI (bits_pos l) end.
Lemma bits_pos_bits p : bits_pos (pos_bits p) = p.
Proof. induction p; simpl; congruence. Qed.

Definition d_to_vec (m : DMessage) : result string (list Z) := Ok (pos_bits (encode m)).
Definition d_from_vec (l : list Z) : result string DMessage :=
  ok_or (decode (bits_pos l)) "unexpected end of input reached".

Definition d_rt_from_str (s : string) : option Z :=
  if decide (s = "A") then Some 1%Z else if decide (s = "OPT") then Some 41%Z
  else if decide (s = "CAA") then Some 257%Z else None.

Definition d_empty : DMessage :=
  mkMessageView 0%Z false 0%Z false false false false false false 0%Z [] [] [] [] None.

#[export] Instance Demo : Hickory := {|
  Name := DName;
  name_eqb := d_name_eqb;
  name_to_ascii := d_to_ascii;
  name_display := d_to_ascii;
  name_from_ascii := d_from_ascii;
  name_from_str := d_from_ascii;
  name_set_fqdn b n := mkDName (d_labels n) b;
  MessageType := bool;
  mt_Query := false;
  mt_Response := true;
  OpCode := Z;
  op_Query := 0%Z;
  ResponseCode := Z;
  rcode_from_u16 z := z;
  rcode_into_u16 z := z;
  rcode_display z := show_Z z;
  rc_NoError := 0%Z; rc_FormErr := 1%Z; rc_ServFail := 2%Z; rc_NXDomain := 3%Z;
  rc_NotImp := 4%Z; rc_Refused := 5%Z;
  RecordType := Z;
  rt_from_str := d_rt_from_str;
  rt_debug z := show_Z z;
  rt_A := 1%Z; rt_AAAA := 28%Z; rt_CNAME := 5%Z; rt_MX := 15%Z; rt_NS := 2%Z; rt_PTR := 12%Z;
  rt_SOA := 6%Z; rt_SRV := 33%Z; rt_TXT := 16%Z; rt_HTTPS := 65%Z; rt_SVCB := 64%Z;
  rt_ANY := 255%Z; rt_OPT := 41%Z;
  DNSClass := Z;
  class_IN := 1%Z;
  class_debug z := show_Z z;
  RData := DRData;
  rdata_view d := match d with DA i => RDataA i | DAAAA i => RDataAAAA i
                  | DCNAME n => RDataCNAME n | DOther _ _ => RDataOther end;
  rdata_A := DA; rdata_AAAA := DAAAA; rdata_CNAME := DCNAME;
  Record_ := DRecord;
  rview r := r;
  record_from_rdata n t d := mkRecordView n t 1%Z (d_rtype d) d;
  record_set_ttl t r := mkRecordView (r_name r) t (r_class r) (r_type r) (r_data r);
  record_set_class c r := mkRecordView (r_name r) (r_ttl r) c (r_type r) (r_data r);
  Query := DQuery;
  qview q := q;
  query_eqb q1 q2 := d_name_eqb (q_name q1) (q_name q2) && bool_decide (q_type q1 = q_type q2)
                     && bool_decide (q_class q1 = q_class q2);
  query_new := mkQueryView (mkDName [] true) 1%Z 1%Z;
  query_set_name n q := mkQueryView n (q_type q) (q_class q);
  query_set_type t q := mkQueryView (q_name q) t (q_class q);
  query_set_class c q := mkQueryView (q_name q) (q_type q) c;
  ClientSubnet := DSubnet;
  cs_new a s p := (a, s, p);
  cs_addr cs := cs.1.1; cs_source_prefix cs := cs.1.2; cs_scope_prefix cs := cs.2;
  EdnsCode := Z;
  code_Subnet := 8%Z;
  EdnsOption := DOption;
  option_Subnet cs := inl cs;
  option_as_subnet o := match o with inl cs => Some cs | inr _ => None end;
  option_code o := match o with inl _ => 8%Z | inr (c, _) => c end;
  Edns := DEdns;
  eview e := e;
  edns_new := mkEdnsView 512%Z 0%Z false [];
  edns_set_max_payload n e := mkEdnsView n (e_version e) (e_dnssec_ok e) (e_options e);
  edns_set_dnssec_ok b e := mkEdnsView (e_max_payload e) (e_version e) b (e_options e);
  edns_option c e := snd <$> find_first (λ p, bool_decide (p.1 = c)) (e_options e);
  edns_options_insert o e := mkEdnsView (e_max_payload e) (e_version e) (e_dnssec_ok e)
    (e_options e ++ [(match o with inl _ => 8%Z | inr (c, _) => c end, o)]);
  edns_options_remove c e := mkEdnsView (e_max_payload e) (e_version e) (e_dnssec_ok e)
    (filter (λ p, p.1 ≠ c) (e_options e));
  Message := DMessage;
  mview m := m;
  message_new := d_empty;
  set_id x m := mkMessageView x (m_type m) (m_opcode m) (m_authoritative m) (m_truncated m) (m_recursion_desired m) (m_recursion_available m) (m_authentic_data m) (m_checking_disabled m) (m_rcode m) (m_queries m) (m_answers m) (m_name_servers m) (m_additionals m) (m_edns m);
  set_message_type x m := mkMessageView (m_id m) x (m_opcode m) (m_authoritative m) (m_truncated m) (m_recursion_desired m) (m_recursion_available m) (m_authentic_data m) (m_checking_disabled m) (m_rcode m) (m_queries m) (m_answers m) (m_name_servers m) (m_additionals m) (m_edns m);
  set_op_code x m := mkMessageView (m_id m) (m_type m) x (m_authoritative m) (m_truncated m) (m_recursion_desired m) (m_recursion_available m) (m_authentic_data m) (m_checking_disabled m) (m_rcode m) (m_queries m) (m_answers m) (m_name_servers m) (m_additionals m) (m_edns m);
  set_authoritative x m := mkMessageView (m_id m) (m_type m) (m_opcode m) x (m_truncated m) (m_recursion_desired m) (m_recursion_available m) (m_authentic_data m) (m_checking_disabled m) (m_rcode m) (m_queries m) (m_answers m) (m_name_servers m) (m_additionals m) (m_edns m);
  set_truncated x m := mkMessageView (m_id m) (m_type m) (m_opcode m) (m_authoritative m) x (m_recursion_desired m) (m_recursion_available m) (m_authentic_data m) (m_checking_disabled m) (m_rcode m) (m_queries m) (m_answers m) (m_name_servers m) (m_additionals m) (m_edns m);
  set_recursion_desired x m := mkMessageView (m_id m) (m_type m) (m_opcode m) (m_authoritative m) (m_truncated m) x (m_recursion_available m) (m_authentic_data m) (m_checking_disabled m) (m_rcode m) (m_queries m) (m_answers m) (m_name_servers m) (m_additionals m) (m_edns m);
  set_recursion_available x m := mkMessageView (m_id m) (m_type m) (m_opcode m) (m_authoritative m) (m_truncated m) (m_recursion_desired m) x (m_authentic_data m) (m_checking_disabled m) (m_rcode m) (m_queries m) (m_answers m) (m_name_servers m) (m_additionals m) (m_edns m);
  set_authentic_data x m := mkMessageView (m_id m) (m_type m) (m_opcode m) (m_authoritative m) (m_truncated m) (m_recursion_desired m) (m_recursion_available m) x (m_checking_disabled m) (m_rcode m) (m_queries m) (m_answers m) (m_name_servers m) (m_additionals m) (m_edns m);
  set_checking_disabled x m := mkMessageView (m_id m) (m_type m) (m_opcode m) (m_authoritative m) (m_truncated m) (m_recursion_desired m) (m_recursion_available m) (m_authentic_data m) x (m_rcode m) (m_queries m) (m_answers m) (m_name_servers m) (m_additionals m) (m_edns m);
  set_response_code x m := mkMessageView (m_id m) (m_type m) (m_opcode m) (m_authoritative m) (m_truncated m) (m_recursion_desired m) (m_recursion_available m) (m_authentic_data m) (m_checking_disabled m) x (m_queries m) (m_answers m) (m_name_servers m) (m_additionals m) (m_edns m);
  set_queries x m := mkMessageView (m_id m) (m_type m) (m_opcode m) (m_authoritative m) (m_truncated m) (m_recursion_desired m) (m_recursion_available m) (m_authentic_data m) (m_checking_disabled m) (m_rcode m) x (m_answers m) (m_name_servers m) (m_additionals m) (m_edns m);
  set_answers x m := mkMessageView (m_id m) (m_type m) (m_opcode m) (m_authoritative m) (m_truncated m) (m_recursion_desired m) (m_recursion_available m) (m_authentic_data m) (m_checking_disabled m) (m_rcode m) (m_queries m) x (m_name_servers m) (m_additionals m) (m_edns m);
  set_name_servers x m := mkMessageView (m_id m) (m_type m) (m_opcode m) (m_authoritative m) (m_truncated m) (m_recursion_desired m) (m_recursion_available m) (m_authentic_data m) (m_checking_disabled m) (m_rcode m) (m_queries m) (m_answers m) x (m_additionals m) (m_edns m);
  set_additionals x m := mkMessageView (m_id m) (m_type m) (m_opcode m) (m_authoritative m) (m_truncated m) (m_recursion_desired m) (m_recursion_available m) (m_authentic_data m) (m_checking_disabled m) (m_rcode m) (m_queries m) (m_answers m) (m_name_servers m) x (m_edns m);
  set_extensions x m := mkMessageView (m_id m) (m_type m) (m_opcode m) (m_authoritative m) (m_truncated m) (m_recursion_desired m) (m_recursion_available m) (m_authentic_data m) (m_checking_disabled m) (m_rcode m) (m_queries m) (m_answers m) (m_name_servers m) (m_additionals m) x;
  message_truncate m := mkMessageView (m_id m) (m_type m) (m_opcode m) (m_authoritative m) true
    (m_recursion_desired m) (m_recursion_available m) (m_authentic_data m) (m_checking_disabled m)
    (m_rcode m) (m_queries m) [] [] [] (m_edns m);
  message_from_vec := d_from_vec;
  message_to_vec := d_to_vec;
|}.

Lemma d_name_eqb_true a b :
  d_name_eqb a b = true ↔
  to_ascii_lowercase <$> d_labels a = to_ascii_lowercase <$> d_labels b ∧ d_fqdn a = d_fqdn b.
Proof. unfold d_name_eqb. by rewrite andb_true_iff, !bool_decide_eq_true. Qed.

#[export] Instance Demo_laws : HickoryLaws Demo.
Proof.
  split; try reflexivity; [discriminate|..].
  - apply (bool_decide_unpack _). by vm_compute.
  - intros n. by apply d_name_eqb_true.
  - intros n1 n2. simpl. apply eq_bool_prop_intro.
    split; intros H%Is_true_true; apply Is_true_true, d_name_eqb_true; apply d_name_eqb_true in H; naive_solver.
  - simpl. intros n1 n2 n3 (H1 & H2)%d_name_eqb_true (H3 & H4)%d_name_eqb_true.
    apply d_name_eqb_true. split; congruence.
  - repeat split.
  - repeat split.
Qed.

(** Decoding inverts encoding. *)
Lemma demo_codec (m : Message) w : message_to_vec m = Ok w → message_from_vec w = Ok m.
Proof.
  simpl. unfold d_to_vec, d_from_vec. intros [= <-]. by rewrite bits_pos_bits, decode_encode.
Qed.

(** ** Sample messages *)
Definition d_name (s : string) : Name := mkDName (split_on "." s) true.
Definition d_question (s : string) (t : RecordType) : Query := mkQueryView (d_name s) t class_IN.
Definition d_query (id : Z) (s : string) (t : RecordType) : Message :=
  set_recursion_desired true (set_id id (add_query (d_question s t) message_new)).
Definition d_a (s : string) (ttl : Z) (ip : Ipv4Addr) : Record_ :=
  record_from_rdata (d_name s) ttl (rdata_A ip).
Definition d_edns (payload : Z) : Edns := edns_set_max_payload payload edns_new.
Definition d_response (id : Z) (s : string) (t : RecordType) (rs : list Record_) : Message :=
  set_answers rs (set_message_type mt_Response (d_query id s t)).
