(* ===== verification/External.v ===== *)
(** * Interfaces to the other libraries: [serde_yaml], [regex], [ipnet]

    Each is a class of the operations the program calls; the law class of
    [ipnet] states its documented meaning of a network prefix.  [DemoYaml],
    [DemoRegex] and [DemoNet] are the instances the witnesses use. *)
From S2P Require Import Prelude RustStr RustNet.

(** ** [serde_yaml::Value]

    [yview] shows the variant the program matches on; the [y_as_*] accessors
    and [yget] (indexing by a string key) are the library's. *)
Inductive YView (V : Type) : Type :=
| YString (s : string)
| YSequence (l : list V)
| YMapping (m : list (V * V))
| YOther.
Arguments YString {_}.
Arguments YSequence {_}.
Arguments YMapping {_}.
Arguments YOther {_}.

Class Yaml := {
  YValue : Type;
  yview : YValue → YView YValue;
  yget : string → YValue → option YValue;
  y_mapping_get : string → list (YValue * YValue) → option YValue;
  y_as_str : YValue → option string;
  y_as_u64 : YValue → option Z;
  y_as_bool : YValue → option bool;
  y_as_sequence : YValue → option (list YValue);
  y_as_mapping : YValue → option (list (YValue * YValue));
}.

(** [args.get(key).and_then(|v| v.as_x())]. *)
Definition yget_as `{Yaml} {A} (f : YValue → option A) (key : string) (v : YValue) : option A :=
  match yget key v with Some x => f x | None => None end.

(** ** [regex::Regex] *)
Class RegexLib := {
  Regex : Type;
  regex_new : string → result string Regex;
  regex_is_match : Regex → string → bool;
}.

(** ** [ipnet::IpNet] *)
Class IpNetLib := {
  IpNet : Type;
  ipnet_new : IpAddr → Z → option IpNet;
  ipnet_network : IpNet → IpAddr;
  ipnet_contains : IpNet → IpAddr → bool;
  ipnet_from_str : string → result string IpNet;
  ipnet_from_ip : IpAddr → IpNet;
}.

(** The number of bits of an address, its first [p] bits, and its network part. *)
Definition ip_bits (ip : IpAddr) : Z := match ip with V4 _ => 32 | V6 _ => 128 end.
Definition ip_num (ip : IpAddr) : Z := match ip with V4 a => a | V6 a => a end.
Definition ip_prefix (p : Z) (ip : IpAddr) : Z := (ip_num ip / 2 ^ (ip_bits ip - p))%Z.
Definition same_family (a b : IpAddr) : bool := Bool.eqb (is_ipv4 a) (is_ipv4 b).
Definition mask_ip (p : Z) (ip : IpAddr) : IpAddr :=
  match ip with
  | V4 a => V4 (a / 2 ^ (32 - p) * 2 ^ (32 - p))%Z
  | V6 a => V6 (a / 2 ^ (128 - p) * 2 ^ (128 - p))%Z
  end.

Class IpNetLaws (L : IpNetLib) : Prop := {
  ipnet_new_ok : ∀ ip p, (0 ≤ p)%Z → is_Some (ipnet_new ip p) ↔ (p ≤ ip_bits ip)%Z;
  ipnet_network_new : ∀ ip p n, ipnet_new ip p = Some n → ipnet_network n = mask_ip p ip;
  ipnet_contains_new : ∀ ip p n x, ipnet_new ip p = Some n →
    ipnet_contains n x = same_family ip x && (ip_prefix p ip =? ip_prefix p x)%Z;
  ipnet_from_ip_new : ∀ ip, ipnet_new ip (ip_bits ip) = Some (ipnet_from_ip ip);
}.

(** ** Instances for the witnesses *)
Inductive DYaml : Type :=
| DNull
| DBool (b : bool)
| DNum (z : Z)
| DStr (s : string)
| DSeq (l : list DYaml)
| DMap (m : list (DYaml * DYaml)).

Definition d_mapping_get (k : string) (m : list (DYaml * DYaml)) : option DYaml :=
  snd <$> find_first (λ p, match p.1 with DStr s => bool_decide (s = k) | _ => false end) m.

#[export] Instance DemoYaml : Yaml := {|
  YValue := DYaml;
  yview v := match v with DStr s => YString s | DSeq l => YSequence l | DMap m => YMapping m
             | _ => YOther end;
  yget k v := match v with DMap m => d_mapping_get k m | _ => None end;
  y_mapping_get := d_mapping_get;
  y_as_str v := match v with DStr s => Some s | _ => None end;
  y_as_u64 v := match v with DNum z => if (0 <=? z)%Z then Some z else None | _ => None end;
  y_as_bool v := match v with DBool b => Some b | _ => None end;
  y_as_sequence v := match v with DSeq l => Some l | _ => None end;
  y_as_mapping v := match v with DMap m => Some m | _ => None end;
|}.

(** Regular expressions without operators: a literal is searched for. *)
#[export] Instance DemoRegex : RegexLib := {|
  Regex := string;
  regex_new s := if str_contains "(" s then Err "unclosed group" else Ok s;
  regex_is_match r s := str_contains r s;
|}.

Definition d_net_new (ip : IpAddr) (p : Z) : option (IpAddr * Z) :=
  if (0 <=? p)%Z && (p <=? ip_bits ip)%Z then Some (ip, p) else None.

#[export] Instance DemoNet : IpNetLib := {|
  IpNet := IpAddr * Z;
  ipnet_new := d_net_new;
  ipnet_network n := mask_ip n.2 n.1;
  ipnet_contains n x := same_family n.1 x && (ip_prefix n.2 n.1 =? ip_prefix n.2 x)%Z;
  ipnet_from_str s :=
    match split_once "/" s with
    | Some (a, p) =>
        match parse_ip_addr a, parse_uint u8_max p with
        | Some ip, Some p => ok_or (d_net_new ip p) "invalid IP address syntax"
        | _, _ => Err "invalid IP address syntax"
        end
    | None => Err "invalid IP address syntax"
    end;
  ipnet_from_ip ip := (ip, ip_bits ip);
|}.

#[export] Instance DemoNet_laws : IpNetLaws DemoNet.
Proof.
  split; simpl; unfold d_net_new.
  - intros ip p Hp. destruct (Z.leb_spec 0 p), (Z.leb_spec p (ip_bits ip)); simpl;
      (split; [by intros [? [=]]|by eauto || lia]).
  - intros ip p n. case_match; [|done]. by intros [= <-].
  - intros ip p n x. case_match; [|done]. by intros [= <-].
  - intros [a|a]; reflexivity.
Qed.
