(* ===== verification/PublicIp.v ===== *)
(** * The address functions of [plugin/ecs.rs]

    [masked] keeps the network part of an address, [is_public_ip] tells whether
    an address may be sent upstream as a client subnet.  Both are proved
    against reference definitions: prefix arithmetic for the first, a list of
    reserved CIDR blocks for the second. *)
From S2P Require Import Prelude RustStr RustNet External.

(** ** Definitions *)

(** @src src/src/plugin/ecs.rs 144-151 masked *)
Definition masked `{IpNetLib} (ip : IpAddr) (prefix : Z) : IpAddr * Z :=
  let max := if is_ipv4 ip then 32%Z else 128%Z in
  let prefix := Z.min prefix max in
  match ipnet_new ip prefix with
  | Some n => (ipnet_network n, prefix)
  | None => (ip, prefix)
  end.

(** @src src/src/plugin/ecs.rs 155-174 is_public_ip *)
Definition is_public_v4 (v : Ipv4Addr) : bool :=
  if v4_is_private v || v4_is_loopback v || v4_is_link_local v || v4_is_unspecified v
     || v4_is_broadcast v || v4_is_documentation v || v4_is_multicast v
  then false
  else if (octet 0 v =? 100)%Z && (Z.land (octet 1 v) 192 =? 64)%Z then false
  else if (octet 0 v =? 0)%Z || (224 <=? octet 0 v)%Z then false
  else true.

(** @src src/src/plugin/ecs.rs 153-188 is_public_ip *)
Definition is_public_ip (ip : IpAddr) : bool :=
  match ip with
  | V4 v => is_public_v4 v
  | V6 v =>
      match to_ipv4_mapped v with
      | Some v4 => is_public_v4 v4
      | None =>
          negb (v6_is_loopback v) && negb (v6_is_unspecified v) && negb (v6_is_multicast v)
          && negb (Z.land (segment 0 v) 65024 =? 64512)%Z
          && negb (Z.land (segment 0 v) 65472 =? 65152)%Z
      end
  end.

(** ** Reference: the reserved blocks *)
Record cidr := mkCidr { c_net : IpAddr; c_len : Z }.

Definition in_cidr (c : cidr) (ip : IpAddr) : bool :=
  same_family (c_net c) ip && (ip_prefix (c_len c) (c_net c) =? ip_prefix (c_len c) ip)%Z.

Definition reserved_v4 : list cidr :=
  [mkCidr (V4 (ipv4_new 0 0 0 0)) 8;       (* this network *)
   mkCidr (V4 (ipv4_new 10 0 0 0)) 8;      (* private *)
   mkCidr (V4 (ipv4_new 100 64 0 0)) 10;   (* carrier-grade NAT *)
   mkCidr (V4 (ipv4_new 127 0 0 0)) 8;     (* loopback *)
   mkCidr (V4 (ipv4_new 169 254 0 0)) 16;  (* link local *)
   mkCidr (V4 (ipv4_new 172 16 0 0)) 12;   (* private *)
   mkCidr (V4 (ipv4_new 192 0 2 0)) 24;    (* documentation *)
   mkCidr (V4 (ipv4_new 192 168 0 0)) 16;  (* private *)
   mkCidr (V4 (ipv4_new 198 51 100 0)) 24; (* documentation *)
   mkCidr (V4 (ipv4_new 203 0 113 0)) 24;  (* documentation *)
   mkCidr (V4 (ipv4_new 224 0 0 0)) 4;     (* multicast *)
   mkCidr (V4 (ipv4_new 240 0 0 0)) 4].    (* future use, broadcast *)

Definition reserved_v6 : list cidr :=
  [mkCidr (V6 0%Z) 128;                     (* :: *)
   mkCidr (V6 1%Z) 128;                     (* ::1 *)
   mkCidr (V6 (252 * 2 ^ 120)%Z) 7;         (* fc00::/7 unique local *)
   mkCidr (V6 (1018 * 2 ^ 118)%Z) 10;       (* fe80::/10 link local *)
   mkCidr (V6 (255 * 2 ^ 120)%Z) 8].        (* ff00::/8 multicast *)

(** ** Proofs *)
Lemma land_field (w k mask : Z) :
  (0 ≤ k)%Z → (0 ≤ w)%Z → mask = ((2 ^ w - 1) * 2 ^ k)%Z →
  ∀ z, Z.land z mask = ((z / 2 ^ k) mod 2 ^ w * 2 ^ k)%Z.
Proof.
  intros Hk Hw -> z.
  rewrite Z.sub_1_r, <- Z.ones_equiv, <- Z.shiftr_div_pow2, <- Z.land_ones by done.
  rewrite <- !Z.shiftl_mul_pow2 by done.
  apply Z.bits_inj'. intros n Hn.
  rewrite Z.land_spec, !Z.shiftl_spec, Z.land_spec by done.
  destruct (Z.ltb_spec (n - k) 0) as [?|?].
  - rewrite !(Z.testbit_neg_r _ (n - k)) by done. by rewrite !andb_false_r.
  - rewrite Z.shiftr_spec by done. by replace (n - k + k)%Z with n by lia.
Qed.

(** An IPv4 address from its four octets. *)
Lemma octets_of a :
  ip_wf (V4 a) →
  ∃ o0 o1 o2 o3, (0 ≤ o0 < 256 ∧ 0 ≤ o1 < 256 ∧ 0 ≤ o2 < 256 ∧ 0 ≤ o3 < 256
                  ∧ a = o0 * 16777216 + o1 * 65536 + o2 * 256 + o3)%Z.
Proof.
  simpl. intros Ha.
  exists (a / 16777216)%Z, (a / 65536 mod 256)%Z, (a / 256 mod 256)%Z, (a mod 256)%Z.
  Z.to_euclidean_division_equations. lia.
Qed.

Lemma octet_values o0 o1 o2 o3 a :
  (0 ≤ o0 < 256)%Z → (0 ≤ o1 < 256)%Z → (0 ≤ o2 < 256)%Z → (0 ≤ o3 < 256)%Z →
  a = (o0 * 16777216 + o1 * 65536 + o2 * 256 + o3)%Z →
  octet 0 a = o0 ∧ octet 1 a = o1 ∧ octet 2 a = o2.
Proof.
  intros ???? ->. unfold octet.
  change (2 ^ (24 - 8 * 0))%Z with 16777216%Z. change (2 ^ (24 - 8 * 1))%Z with 65536%Z.
  change (2 ^ (24 - 8 * 2))%Z with 256%Z.
  repeat split; Z.to_euclidean_division_equations; lia.
Qed.

Lemma in_cidr_v4 n len a :
  in_cidr (mkCidr (V4 n) len) (V4 a) = (n / 2 ^ (32 - len) =? a / 2 ^ (32 - len))%Z.
Proof. reflexivity. Qed.

Lemma in_cidr_v6 n len a :
  in_cidr (mkCidr (V6 n) len) (V6 a) = (n / 2 ^ (128 - len) =? a / 2 ^ (128 - len))%Z.
Proof. reflexivity. Qed.

Lemma if_false_andb (b x : bool) : (if b then false else x) = negb b && x.
Proof. by destruct b. Qed.

(** The network prefixes of an address in terms of its octets. *)
Lemma prefix_values o0 o1 o2 o3 a :
  (0 ≤ o0 < 256)%Z → (0 ≤ o1 < 256)%Z → (0 ≤ o2 < 256)%Z → (0 ≤ o3 < 256)%Z →
  a = (o0 * 16777216 + o1 * 65536 + o2 * 256 + o3)%Z →
  (a / 268435456 = o0 / 16 ∧ a / 16777216 = o0 ∧ a / 4194304 = o0 * 4 + o1 / 64
   ∧ a / 1048576 = o0 * 16 + o1 / 16 ∧ a / 65536 = o0 * 256 + o1
   ∧ a / 256 = (o0 * 256 + o1) * 256 + o2)%Z.
Proof.
  intros ???? ->. repeat split; Z.to_euclidean_division_equations; lia.
Qed.

Lemma eqb_digits b x y c d :
  (0 ≤ y < b)%Z → (0 ≤ d < b)%Z → (x * b + y =? c * b + d)%Z = (x =? c)%Z && (y =? d)%Z.
Proof.
  intros ??. destruct (Z.eqb_spec x c) as [->|?], (Z.eqb_spec y d) as [->|?]; simpl;
    [apply Z.eqb_eq|apply Z.eqb_neq..]; nia.
Qed.

(** Decide a goal about octets for one value of [o], and go on with the others. *)
Ltac by_octet o k := destruct (Z.eqb_spec o k) as [->|?]; [lia|].

Lemma public_v4_reserved a :
  ip_wf (V4 a) → is_public_v4 a = negb (existsb (λ c, in_cidr c (V4 a)) reserved_v4).
Proof.
  intros (o0 & o1 & o2 & o3 & H0 & H1 & H2 & H3 & Ha)%octets_of.
  destruct (octet_values o0 o1 o2 o3 a) as (E0 & E1 & E2); [done..|].
  destruct (prefix_values o0 o1 o2 o3 a) as (P4 & P8 & P10 & P12 & P16 & P24); [done..|].
  unfold is_public_v4, v4_is_private, v4_is_loopback, v4_is_link_local, v4_is_unspecified,
    v4_is_broadcast, v4_is_documentation, v4_is_multicast.
  rewrite E0, E1, E2, !if_false_andb, (land_field 2 6 192) by done.
  unfold reserved_v4. cbn [existsb]. rewrite !in_cidr_v4.
  change (2 ^ (32 - 8))%Z with 16777216%Z. change (2 ^ (32 - 10))%Z with 4194304%Z.
  change (2 ^ (32 - 16))%Z with 65536%Z. change (2 ^ (32 - 12))%Z with 1048576%Z.
  change (2 ^ (32 - 24))%Z with 256%Z. change (2 ^ (32 - 4))%Z with 268435456%Z.
  change (2 ^ 6)%Z with 64%Z. change (2 ^ 2)%Z with 4%Z.
  rewrite P4, P8, P10, P12, P16, P24.
  repeat match goal with |- context [(ipv4_new ?x ?y ?z ?w / ?d)%Z] =>
    let v := eval vm_compute in (ipv4_new x y z w / d)%Z in
    change (ipv4_new x y z w / d)%Z with v end.
  clear E0 E1 E2 P4 P8 P10 P12 P16 P24.
  assert (Hu : (64 * (o1 / 64) ≤ o1 < 64 * (o1 / 64) + 64)%Z) by (Z.to_euclidean_division_equations; lia).
  assert (Hv : (16 * (o1 / 16) ≤ o1 < 16 * (o1 / 16) + 16)%Z) by (Z.to_euclidean_division_equations; lia).
  assert (Hw : (16 * (o0 / 16) ≤ o0 < 16 * (o0 / 16) + 16)%Z) by (Z.to_euclidean_division_equations; lia).
  rewrite (Z.mod_small (o1 / 64) 4) by lia.
  revert Hu Hv Hw. generalize (o1 / 64)%Z, (o1 / 16)%Z, (o0 / 16)%Z. intros u v w Hu Hv Hw.
  rewrite !(Z.eqb_sym _ (_ + _)), !(Z.eqb_sym _ o0).
  change 401%Z with (100 * 4 + 1)%Z. change 43518%Z with (169 * 256 + 254)%Z.
  change 2753%Z with (172 * 16 + 1)%Z. change 49320%Z with (192 * 256 + 168)%Z.
  change 12582914%Z with ((192 * 256 + 0) * 256 + 2)%Z.
  change 12989284%Z with ((198 * 256 + 51) * 256 + 100)%Z.
  change 13303921%Z with ((203 * 256 + 0) * 256 + 113)%Z.
  rewrite !eqb_digits by lia.
  by_octet o0 10%Z. by_octet o0 172%Z. by_octet o0 192%Z. by_octet o0 127%Z. by_octet o0 169%Z.
  by_octet o0 198%Z. by_octet o0 203%Z. by_octet o0 100%Z. by_octet o0 0%Z.
  cbn [andb orb]. clear -H0 H1 H2 H3 Ha Hw n7. lia.
Qed.

Lemma public_v6_reserved a :
  ip_wf (V6 a) → to_ipv4_mapped a = None →
  is_public_ip (V6 a) = negb (existsb (λ c, in_cidr c (V6 a)) reserved_v6).
Proof.
  intros Ha E. unfold is_public_ip. rewrite E. unfold ip_wf in Ha. clear E.
  set (s := (a / 2 ^ 112)%Z).
  assert (Hs : segment 0 a = s).
  { unfold segment, s. change (2 ^ (112 - 16 * 0))%Z with (2 ^ 112)%Z.
    rewrite Z.mod_small; [done|]. split; [apply Z.div_pos; lia|].
    apply Z.div_lt_upper_bound; lia. }
  assert (Hs_range : (0 ≤ s < 65536)%Z).
  { unfold s. split; [apply Z.div_pos; lia|]. apply Z.div_lt_upper_bound; lia. }
  unfold v6_is_loopback, v6_is_unspecified, v6_is_multicast.
  rewrite Hs, (land_field 7 9 65024), (land_field 10 6 65472) by done.
  unfold reserved_v6. cbn [existsb]. rewrite !in_cidr_v6.
  change (128 - 128)%Z with 0%Z. rewrite Z.pow_0_r, !Z.div_1_r.
  change (2 ^ (128 - 7))%Z with (2 ^ 112 * 512)%Z. change (2 ^ (128 - 10))%Z with (2 ^ 112 * 64)%Z.
  change (2 ^ (128 - 8))%Z with (2 ^ 112 * 256)%Z.
  rewrite <- !(Z.div_div a) by done. fold s.
  change (252 * 2 ^ 120 / (2 ^ 112 * 512))%Z with 126%Z.
  change (1018 * 2 ^ 118 / (2 ^ 112 * 64))%Z with 1018%Z.
  change (255 * 2 ^ 120 / (2 ^ 112 * 256))%Z with 255%Z.
  change (2 ^ 9)%Z with 512%Z. change (2 ^ 6)%Z with 64%Z.
  rewrite !Z.mod_small by (Z.to_euclidean_division_equations; lia).
  revert Hs_range. clear. clearbody s. revert s a. intros s a Hs.
  rewrite !(Z.eqb_sym _ (_ / _)), (Z.eqb_sym 0 a), (Z.eqb_sym 1 a).
  assert (E1 : (s / 512 * 512 =? 64512)%Z = (s / 512 =? 126)%Z) by lia.
  assert (E2 : (s / 64 * 64 =? 65152)%Z = (s / 64 =? 1018)%Z) by lia.
  rewrite E1, E2.
  by destruct (a =? 1)%Z, (a =? 0)%Z, (s / 256 =? 255)%Z, (s / 512 =? 126)%Z, (s / 64 =? 1018)%Z.
Qed.

(** What [is_public_ip] means: outside every reserved block, an IPv4-mapped
    address being judged as the IPv4 address it carries. *)
Definition publicly_routable (ip : IpAddr) : bool :=
  match ip with
  | V4 _ => negb (existsb (λ c, in_cidr c ip) reserved_v4)
  | V6 a =>
      match to_ipv4_mapped a with
      | Some v4 => negb (existsb (λ c, in_cidr c (V4 v4)) reserved_v4)
      | None => negb (existsb (λ c, in_cidr c ip) reserved_v6)
      end
  end.

(** C35: [is_public_ip] agrees on every address with the list of reserved CIDR
    blocks (private, loopback, link-local, CGNAT, documentation, multicast and
    future use for IPv4; unspecified, loopback, unique-local, link-local and
    multicast for IPv6), so [ecs.auto] never reveals an address of those. *)
Theorem is_public_ip_reserved ip : ip_wf ip → is_public_ip ip = publicly_routable ip.
Proof.
  destruct ip as [a|a]; intros Hwf; [by apply public_v4_reserved|].
  unfold publicly_routable. destruct (to_ipv4_mapped a) as [v4|] eqn:E;
    [|by apply public_v6_reserved].
  unfold is_public_ip. rewrite E. apply public_v4_reserved. revert E. unfold to_ipv4_mapped.
  case_match; [|done]. intros [= <-]. apply Z.mod_pos_bound. lia.
Qed.

Lemma is_public_ip_reserved_witness :
  is_public_ip (V4 (ipv4_new 100 64 1 1)) = false
  ∧ is_public_ip (V4 (ipv4_new 100 64 1 1)) = publicly_routable (V4 (ipv4_new 100 64 1 1)).
Proof.
  split; [by vm_compute|]. apply (is_public_ip_reserved (V4 (ipv4_new 100 64 1 1))).
  split; [by vm_compute|by vm_compute].
Defined.

(** ** [masked] *)
Section masked.
Context {L : IpNetLib} {LL : IpNetLaws L}.

Lemma ip_bits_pos ip : (0 < ip_bits ip)%Z.
Proof. by destruct ip. Qed.

Lemma masked_value ip p :
  (0 ≤ p)%Z → masked ip p = (mask_ip (Z.min p (ip_bits ip)) ip, Z.min p (ip_bits ip)).
Proof.
  intros Hp. unfold masked.
  assert (E : (if is_ipv4 ip then 32%Z else 128%Z) = ip_bits ip) by by destruct ip.
  rewrite E. pose proof (ip_bits_pos ip).
  destruct (ipnet_new ip (Z.min p (ip_bits ip))) as [n|] eqn:En.
  - by rewrite (ipnet_network_new _ _ _ En).
  - exfalso. destruct (proj2 (ipnet_new_ok ip (Z.min p (ip_bits ip)) ltac:(lia)) ltac:(lia)) as [? E'].
    congruence.
Qed.

Lemma mask_ip_num p ip : ip_num (mask_ip p ip) = (ip_prefix p ip * 2 ^ (ip_bits ip - p))%Z.
Proof. by destruct ip. Qed.

Lemma mask_ip_bits p ip : ip_bits (mask_ip p ip) = ip_bits ip.
Proof. by destruct ip. Qed.

Lemma ip_wf_num ip : ip_wf ip ↔ (0 ≤ ip_num ip < 2 ^ ip_bits ip)%Z.
Proof. by destruct ip. Qed.

Lemma mask_ip_prefix p ip :
  (0 ≤ p ≤ ip_bits ip)%Z → ip_prefix p (mask_ip p ip) = ip_prefix p ip.
Proof.
  intros Hp. unfold ip_prefix at 1. rewrite mask_ip_bits, mask_ip_num.
  apply Z.div_mul. apply Z.pow_nonzero; lia.
Qed.
End masked.

(** [masked] clamps the prefix to the address width and returns the network
    address: same family, same leading bits, every host bit zero, still in
    range; masking again changes nothing. *)
Theorem masked_spec {L : IpNetLib} {LL : IpNetLaws L} ip p :
  ip_wf ip → (0 ≤ p)%Z →
  let '(net, p') := masked ip p in
  p' = Z.min p (ip_bits ip)
  ∧ is_ipv4 net = is_ipv4 ip
  ∧ ip_prefix p' net = ip_prefix p' ip
  ∧ (ip_num net mod 2 ^ (ip_bits ip - p') = 0)%Z
  ∧ ip_wf net
  ∧ masked net p = (net, p').
Proof.
  intros Hwf Hp. rewrite masked_value by done. pose proof (ip_bits_pos ip) as Hb.
  set (q := Z.min p (ip_bits ip)). assert (Hq : (0 ≤ q ≤ ip_bits ip)%Z) by lia.
  assert (H2 : (0 < 2 ^ (ip_bits ip - q))%Z) by (apply Z.pow_pos_nonneg; lia).
  split; [done|]. split; [by destruct ip|]. split; [by apply mask_ip_prefix|].
  split; [rewrite mask_ip_num; apply Z.mod_mul; lia|].
  split.
  - apply ip_wf_num. apply ip_wf_num in Hwf. rewrite mask_ip_bits, mask_ip_num. unfold ip_prefix.
    pose proof (Z.mul_div_le (ip_num ip) _ H2).
    assert (0 ≤ ip_num ip / 2 ^ (ip_bits ip - q))%Z by (apply Z.div_pos; lia). nia.
  - rewrite masked_value, mask_ip_bits by done. fold q. f_equal.
    pose proof (mask_ip_prefix q ip Hq) as E. unfold ip_prefix in E.
    rewrite mask_ip_bits in E. destruct ip; simpl in *; f_equal; by rewrite E.
Qed.

Lemma masked_spec_witness :
  masked (V4 (ipv4_new 203 0 113 9)) 24 = (V4 (ipv4_new 203 0 113 0), 24%Z)
  ∧ masked (V4 (ipv4_new 203 0 113 0)) 24 = (V4 (ipv4_new 203 0 113 0), 24%Z).
Proof.
  split; [by vm_compute|].
  assert (Hwf : ip_wf (V4 (ipv4_new 203 0 113 9))) by (split; by vm_compute).
  pose proof (masked_spec (V4 (ipv4_new 203 0 113 9)) 24 Hwf ltac:(done)) as H.
  vm_compute in H. vm_compute. apply H.
Defined.
