(* ===== verification/DnsUtil.v ===== *)
(** * [dnsutil.rs]: packet classification, response validation, TTLs, ECS

    Every function of the file, over the abstract [hickory_proto] messages. *)
From S2P Require Import Prelude RustStr RustNet Error Hickory HickoryDemo External PublicIp.

Section dnsutil.
Context {H : Hickory}.

(** @src src/src/dnsutil.rs 8-10 decode *)
Definition decode_msg (buf : list Z) : Res Message := map_err ErrProtocol (message_from_vec buf).

(** @src src/src/dnsutil.rs 12-14 encode *)
Definition encode_msg (msg : Message) : Res (list Z) := map_err ErrProtocol (message_to_vec msg).

(** @src src/src/dnsutil.rs 16-24 Incoming *)
Inductive Incoming : Type := IncomingDrop | IncomingNotImp | IncomingOk.

(** @src src/src/dnsutil.rs 26-34 classify_incoming *)
Definition classify_incoming (msg : Message) : Incoming :=
  if decide (message_type msg ≠ mt_Query) then IncomingDrop
  else if decide (op_code msg ≠ op_Query) then IncomingNotImp
  else IncomingOk.

(** Comparison of two question vectors ([Vec<Query>: PartialEq]). *)
Fixpoint queries_eqb (l1 l2 : list Query) : bool :=
  match l1, l2 with
  | [], [] => true
  | q1 :: l1, q2 :: l2 => query_eqb q1 q2 && queries_eqb l1 l2
  | _, _ => false
  end.

(** @src src/src/dnsutil.rs 36-52 take_response *)
Definition take_response (query resp : Message) : Res Message :=
  if decide (message_type resp ≠ mt_Response) then Err (ErrProtocol "upstream sent a query")
  else if decide (msg_id resp ≠ msg_id query) then Err (ErrProtocol "id mismatch")
  else if decide (op_code resp ≠ op_code query) then Err (ErrProtocol "opcode mismatch")
  else if negb (queries_eqb (queries resp) (queries query))
  then Err (ErrProtocol "question mismatch")
  else Ok resp.

(** @src src/src/dnsutil.rs 56-66 is_usable_response *)
Definition is_usable_response (msg : Message) : bool :=
  bool_decide (message_type msg = mt_Response)
  && negb (truncated msg)
  && negb (bool_decide (response_code msg = rc_ServFail)
           || bool_decide (response_code msg = rc_FormErr)
           || bool_decide (response_code msg = rc_NotImp)
           || bool_decide (response_code msg = rc_Refused)).

(** @src src/src/dnsutil.rs 68-76 udp_payload_max *)
Definition udp_payload_max (query : Message) : Z :=
  let n := match extensions query with
           | Some e => if (512 <=? max_payload e)%Z then max_payload e else 512
           | None => 512
           end%Z in
  Z.min n 4096.

(** @src src/src/dnsutil.rs 78-84 encode_udp *)
Definition encode_udp (msg : Message) (max_len : Z) : Res (list Z) :=
  let? bytes := encode_msg msg in
  if (Z.of_nat (length bytes) <=? max_len)%Z then Ok bytes
  else encode_msg (message_truncate msg).

(** @src src/src/dnsutil.rs 86-101 reply_skeleton *)
Definition reply_skeleton (query : Message) (rcode : ResponseCode) : Message :=
  let msg := message_new in
  let msg := set_id (msg_id query) msg in
  let msg := set_message_type mt_Response msg in
  let msg := set_op_code (op_code query) msg in
  let msg := set_recursion_desired (recursion_desired query) msg in
  let msg := set_recursion_available true msg in
  let msg := set_response_code rcode msg in
  let msg := foldl (λ msg q, add_query q msg) msg (queries query) in
  match extensions query with
  | Some edns => set_edns edns msg
  | None => msg
  end.

(** [Iterator::min]. *)
Definition list_min (l : list Z) : option Z :=
  match l with [] => None | x :: l' => Some (foldl Z.min x l') end.

(** @src src/src/dnsutil.rs 103-110 min_ttl *)
Definition min_ttl (msg : Message) : Z :=
  default 0%Z (list_min (rec_ttl <$> (answers msg ++ name_servers msg))).

(** @src src/src/dnsutil.rs 113-122 subtract_ttl *)
Definition bump_ttl (elapsed : Z) (r : Record_) : Record_ :=
  if decide (record_type r = rt_OPT) then r
  else record_set_ttl (saturating_sub (rec_ttl r) elapsed) r.

(** @src src/src/dnsutil.rs 112-126 subtract_ttl *)
Definition subtract_ttl (msg : Message) (elapsed : Z) : Message :=
  let msg := set_answers (bump_ttl elapsed <$> answers msg) msg in
  let msg := set_name_servers (bump_ttl elapsed <$> name_servers msg) msg in
  set_additionals (bump_ttl elapsed <$> additionals msg) msg.

(** @src src/src/dnsutil.rs 128-135 set_all_ttl *)
Definition set_all_ttl (msg : Message) (ttl : Z) : Message :=
  let msg := set_answers (record_set_ttl ttl <$> answers msg) msg in
  set_name_servers (record_set_ttl ttl <$> name_servers msg) msg.

(** @src src/src/dnsutil.rs 137-139 record_a *)
Definition record_a (name : Name) (ttl : Z) (ip : Ipv4Addr) : Record_ :=
  record_from_rdata name ttl (rdata_A ip).

(** @src src/src/dnsutil.rs 141-143 record_aaaa *)
Definition record_aaaa (name : Name) (ttl : Z) (ip : Ipv6Addr) : Record_ :=
  record_from_rdata name ttl (rdata_AAAA ip).

(** @src src/src/dnsutil.rs 145-151 record_cname *)
Definition record_cname (name : Name) (ttl : Z) (target : Name) : Record_ :=
  record_from_rdata name ttl (rdata_CNAME target).

(** @src src/src/dnsutil.rs 153-155 parse_ip *)
Definition parse_ip (s : string) : option IpAddr := parse_ip_addr s.

(** @src src/src/dnsutil.rs 157-173 qtype_from_str *)
Definition qtype_from_str (s : string) : option RecordType :=
  let u := to_ascii_uppercase s in
  if decide (u = "A") then Some rt_A
  else if decide (u = "AAAA") then Some rt_AAAA
  else if decide (u = "CNAME") then Some rt_CNAME
  else if decide (u = "MX") then Some rt_MX
  else if decide (u = "NS") then Some rt_NS
  else if decide (u = "PTR") then Some rt_PTR
  else if decide (u = "SOA") then Some rt_SOA
  else if decide (u = "SRV") then Some rt_SRV
  else if decide (u = "TXT") then Some rt_TXT
  else if decide (u = "HTTPS") then Some rt_HTTPS
  else if decide (u = "SVCB") then Some rt_SVCB
  else if decide (u = "ANY" ∨ u = "*") then Some rt_ANY
  else rt_from_str u.

(** @src src/src/dnsutil.rs 175-188 rcode_from_str *)
Definition rcode_from_str (s : string) : ResponseCode :=
  let u := to_ascii_uppercase s in
  if decide (u = "NOERROR" ∨ u = "0") then rc_NoError
  else if decide (u = "FORMERR" ∨ u = "1") then rc_FormErr
  else if decide (u = "SERVFAIL" ∨ u = "2") then rc_ServFail
  else if decide (u = "NXDOMAIN" ∨ u = "3") then rc_NXDomain
  else if decide (u = "NOTIMP" ∨ u = "4") then rc_NotImp
  else if decide (u = "REFUSED" ∨ u = "5") then rc_Refused
  else match parse_uint u16_max u with
       | Some v => rcode_from_u16 v
       | None => rc_Refused
       end.

(** @src src/src/dnsutil.rs 190-192 rcode_to_u16 *)
Definition rcode_to_u16 (r : ResponseCode) : Z := rcode_into_u16 r.

(** @src src/src/dnsutil.rs 194-196 name_ascii *)
Definition name_ascii (n : Name) : string := name_to_ascii n.

(** @src src/src/dnsutil.rs 198-204 ecs_of *)
Definition ecs_of (msg : Message) : option ClientSubnet :=
  match extensions msg with
  | Some edns =>
      match edns_option code_Subnet edns with
      | Some o => option_as_subnet o
      | None => None
      end
  | None => None
  end.

(** @src src/src/dnsutil.rs 206-214 set_ecs *)
Definition set_ecs (msg : Message) (cs : ClientSubnet) : Message :=
  let edns := match extensions msg with
              | Some e => e
              | None => edns_set_max_payload 1232 edns_new
              end in
  let edns := edns_options_remove code_Subnet edns in
  let edns := edns_options_insert (option_Subnet cs) edns in
  set_extensions (Some edns) msg.

(** @src src/src/dnsutil.rs 216-220 remove_ecs *)
Definition remove_ecs (msg : Message) : Message :=
  match extensions msg with
  | Some edns => set_extensions (Some (edns_options_remove code_Subnet edns)) msg
  | None => msg
  end.

(** @src src/src/dnsutil.rs 222-227 ecs_label *)
Definition ecs_label (cs : option ClientSubnet) : string :=
  match cs with
  | Some cs => show_ip (cs_addr cs) +:+ "/" +:+ show_Z (cs_source_prefix cs)
  | None => "-"
  end.

(** @src src/src/dnsutil.rs 229-235 ecs_cache_key *)
Definition ecs_cache_key (msg : Message) : string :=
  match ecs_of msg with
  | Some cs => "ecs=" +:+ show_ip (cs_addr cs) +:+ "/" +:+ show_Z (cs_source_prefix cs)
  | None => "ecs=-"
  end.

(** @src src/src/dnsutil.rs 237-254 parse_ecs_spec *)
Definition parse_ecs_spec `{IpNetLib} (s : string) : Res ClientSubnet :=
  let s := trim s in
  let? (addr, prefix) :=
    match split_once "/" s with
    | Some (a, p) =>
        let? ip := ok_or (parse_ip_addr a) (ErrConfig ("bad ecs addr: " +:+ ip_parse_error)) in
        let? prefix := ok_or (parse_uint u8_max p) (ErrConfig "bad ecs prefix") in
        Ok (ip, prefix)
    | None =>
        let? ip := ok_or (parse_ip_addr s) (ErrConfig ("bad ecs addr: " +:+ ip_parse_error)) in
        Ok (ip, if is_ipv4 ip then 24%Z else 48%Z)
    end in
  let '(net, prefix) := masked addr prefix in
  Ok (cs_new net prefix 0).

End dnsutil.

(** ** Response validation *)

(** Two questions that agree, names being compared without regard to case. *)
Definition same_question `{Hickory} (q1 q2 : Query) : Prop :=
  name_eqb (query_name q1) (query_name q2) = true
  ∧ query_type q1 = query_type q2 ∧ query_class q1 = query_class q2.

Section validation.
Context {H : Hickory} {HL : HickoryLaws H}.

Lemma query_eqb_iff q1 q2 : query_eqb q1 q2 = true ↔ same_question q1 q2.
Proof.
  rewrite query_eqb_spec, !andb_true_iff, !bool_decide_eq_true. unfold same_question. tauto.
Qed.

Lemma queries_eqb_iff l1 l2 : queries_eqb l1 l2 = true ↔ Forall2 same_question l1 l2.
Proof.
  revert l2. induction l1 as [|q1 l1 IH]; intros [|q2 l2]; simpl;
    [split; by constructor|split; [done|by inversion 1]..|].
  rewrite andb_true_iff, query_eqb_iff, IH. split; [by intros []; constructor|by inversion 1].
Qed.

Lemma same_question_refl q : same_question q q.
Proof. by split; [apply name_eqb_refl|]. Qed.
End validation.

(** [take_response] accepts a message from an upstream exactly when it is a
    response with the query's id, its opcode and its questions in order (names
    compared without case), and then returns it unchanged; anything else is an
    error, so a spoofed or crossed answer never reaches a plugin. *)
Theorem take_response_spec {H : Hickory} {HL : HickoryLaws H} (query resp m : Message) :
  take_response query resp = Ok m ↔
  m = resp ∧ message_type resp = mt_Response ∧ msg_id resp = msg_id query
  ∧ op_code resp = op_code query ∧ Forall2 same_question (queries resp) (queries query).
Proof.
  rewrite <- queries_eqb_iff. unfold take_response.
  repeat case_decide; [naive_solver..|].
  destruct (queries_eqb _ _); simpl; split; [intros [= <-]|intros (-> & _)|..]; try done; try naive_solver.
Qed.

(** ** TTLs *)

(** [r'] is [r] with [elapsed] seconds of its lifetime gone. *)
Definition aged `{Hickory} (elapsed : Z) (r r' : Record_) : Prop :=
  rec_name r' = rec_name r ∧ record_type r' = record_type r ∧ rec_class r' = rec_class r
  ∧ rec_data r' = rec_data r
  ∧ rec_ttl r' = if decide (record_type r = rt_OPT) then rec_ttl r
                 else Z.max 0 (rec_ttl r - elapsed).

(** Same message outside the three record sections. *)
Definition same_header `{Hickory} (m m' : Message) : Prop :=
  msg_id m' = msg_id m ∧ message_type m' = message_type m ∧ op_code m' = op_code m
  ∧ authoritative m' = authoritative m ∧ truncated m' = truncated m
  ∧ recursion_desired m' = recursion_desired m ∧ recursion_available m' = recursion_available m
  ∧ authentic_data m' = authentic_data m ∧ checking_disabled m' = checking_disabled m
  ∧ response_code m' = response_code m ∧ queries m' = queries m ∧ extensions m' = extensions m.

Section ttl.
Context {H : Hickory} {HL : HickoryLaws H}.

Lemma rec_ttl_range r : (0 ≤ rec_ttl r ≤ u32_max)%Z.
Proof. apply wrap_u32_range. Qed.

Lemma rec_ttl_set t r : (0 ≤ t ≤ u32_max)%Z → rec_ttl (record_set_ttl t r) = t.
Proof. intros. unfold rec_ttl. rewrite rview_set_ttl. by apply wrap_u32_small. Qed.

Lemma bump_ttl_aged e r : (0 ≤ e)%Z → aged e r (bump_ttl e r).
Proof.
  intros He. unfold bump_ttl, aged. destruct (decide (record_type r = rt_OPT)); [done|].
  pose proof (rec_ttl_range r). rewrite rec_ttl_set by (unfold saturating_sub; lia).
  split; [by dns|]. split; [by dns|]. split; [by dns|]. by dns.
Qed.

Lemma fmap_Forall2 {A B} (R : A → B → Prop) (f : A → B) l :
  (∀ x, R x (f x)) → Forall2 R l (f <$> l).
Proof. intros Hf. apply Forall2_fmap_r, Forall_Forall2_diag, Forall_forall. naive_solver. Qed.

Lemma same_header_refl m : same_header m m.
Proof. done. Qed.

Lemma list_min_None l : list_min l = None ↔ l = [].
Proof. by destruct l. Qed.

Lemma foldl_min_le l x : (foldl Z.min x l ≤ x)%Z.
Proof. revert x. induction l as [|y l IH]; intros x; simpl; [lia|]. pose proof (IH (Z.min x y)). lia. Qed.

Lemma list_min_Some l n :
  list_min l = Some n ↔ n ∈ l ∧ ∀ x, x ∈ l → (n ≤ x)%Z.
Proof.
  assert (Hmin : ∀ l x, foldl Z.min x l ∈ x :: l ∧ ∀ y, y ∈ x :: l → (foldl Z.min x l ≤ y)%Z).
  { clear. induction l as [|y l IH]; intros x; simpl; [split; [set_solver|set_solver by lia]|].
    destruct (IH (Z.min x y)) as [Hin Hle]. split.
    - rewrite !elem_of_cons in *. destruct Hin as [->|Hin]; [|by auto].
      destruct (Z.min_spec x y) as [[_ ->]|[_ ->]]; auto.
    - intros z Hz. pose proof (Hle (Z.min x y) ltac:(set_solver)).
      rewrite !elem_of_cons in Hz. destruct Hz as [->|[->|Hz]]; [lia..|].
      apply Hle. set_solver. }
  destruct l as [|x l]; simpl; [set_solver|]. destruct (Hmin l x) as [Hin Hle]. split.
  - by intros [= <-].
  - intros [Hn Hl]. f_equal. pose proof (Hle n Hn). pose proof (Hl _ Hin). lia.
Qed.

Lemma min_ttl_le m r : r ∈ answers m ++ name_servers m → (min_ttl m ≤ rec_ttl r)%Z.
Proof.
  intros Hr. unfold min_ttl. destruct (list_min _) as [n|] eqn:E; simpl.
  - apply list_min_Some in E as [_ E]. apply E, list_elem_of_fmap. eauto.
  - apply list_min_None, fmap_nil_inv in E. rewrite E in Hr. set_solver.
Qed.

Lemma min_ttl_attained m :
  min_ttl m ≠ 0%Z → ∃ r, r ∈ answers m ++ name_servers m ∧ rec_ttl r = min_ttl m.
Proof.
  unfold min_ttl. destruct (list_min _) as [n|] eqn:E; simpl; [|done]. intros _.
  apply list_min_Some in E as [(r & -> & Hr)%list_elem_of_fmap _]. eauto.
Qed.
End ttl.

(** C39: [subtract_ttl] ages every record of the answer, authority and
    additional sections: its TTL drops by the elapsed seconds and stops at 0,
    except for OPT pseudo-records, whose TTL field carries EDNS flags and stays;
    names, types, classes, data, order and number of the records and the rest of
    the message are unchanged. *)
Theorem subtract_ttl_spec {H : Hickory} {HL : HickoryLaws H} (m : Message) (elapsed : Z) :
  (0 ≤ elapsed)%Z →
  let m' := subtract_ttl m elapsed in
  Forall2 (aged elapsed) (answers m) (answers m')
  ∧ Forall2 (aged elapsed) (name_servers m) (name_servers m')
  ∧ Forall2 (aged elapsed) (additionals m) (additionals m')
  ∧ same_header m m'.
Proof.
  intros He m'. unfold m', subtract_ttl, same_header. dns.
  repeat split; apply fmap_Forall2; intros r; by apply bump_ttl_aged.
Qed.

(** ** UDP sizes *)
Lemma encode_udp_Ok {H : Hickory} {HL : HickoryLaws H} (msg : Message) limit (bytes : list Z) :
  encode_udp msg limit = Ok bytes →
  (encode_msg msg = Ok bytes ∧ (Z.of_nat (length bytes) ≤ limit)%Z)
  ∨ (∃ full, encode_msg msg = Ok full ∧ (limit < Z.of_nat (length full))%Z
      ∧ encode_msg (message_truncate msg) = Ok bytes).
Proof.
  unfold encode_udp. intros (full & Hfull & Hb)%result_bind_Ok.
  destruct (Z.leb_spec (Z.of_nat (length full)) limit); [injection Hb as <-|]; eauto.
Qed.

(** The UDP reply limit of a query is always between 512 and 4096 bytes; it
    is the size the client advertised when that lies in the range, and 512 when
    the query has no EDNS.  A reply within the limit is sent as it is, and a
    longer one is replaced by its truncation, with the TC bit set and no records
    left. *)
Theorem udp_reply_size {H : Hickory} {HL : HickoryLaws H} (query msg : Message) (bytes : list Z) :
  let limit := udp_payload_max query in
  (512 ≤ limit ≤ 4096)%Z
  ∧ (extensions query = None → limit = 512%Z)
  ∧ (∀ e, extensions query = Some e → (512 ≤ max_payload e ≤ 4096)%Z → limit = max_payload e)
  ∧ (encode_udp msg limit = Ok bytes →
     (encode_msg msg = Ok bytes ∧ (Z.of_nat (length bytes) ≤ limit)%Z)
     ∨ (∃ full, encode_msg msg = Ok full ∧ (limit < Z.of_nat (length full))%Z
         ∧ encode_msg (message_truncate msg) = Ok bytes
         ∧ truncated (message_truncate msg) = true ∧ answers (message_truncate msg) = [])).
Proof.
  intros limit. unfold limit, udp_payload_max. split; [|split; [|split]].
  - destruct (extensions query) as [e|]; [destruct (Z.leb_spec 512 (max_payload e))|]; lia.
  - by intros ->.
  - intros e -> He. destruct (Z.leb_spec 512 (max_payload e)); lia.
  - intros [?|(full & ? & ? & ?)]%encode_udp_Ok; [by left|]. right. exists full. dns. done.
Qed.

(** ** The client-subnet option *)
Section ecs_option.
Context {H : Hickory} {HL : HickoryLaws H}.

Lemma find_first_app {A} (p : A → bool) l1 l2 :
  Forall (λ x, p x = false) l1 → find_first p (l1 ++ l2) = find_first p l2.
Proof. induction 1 as [|x l1 Hx _ IH]; simpl; [done|by rewrite Hx]. Qed.

Lemma removed_options c e :
  Forall (λ p, p.1 ≠ c) (edns_options (edns_options_remove c e)).
Proof. dns. apply Forall_forall. intros p Hp. by apply list_elem_of_filter in Hp as [? _]. Qed.

Lemma ecs_of_set_ecs m cs : ecs_of (set_ecs m cs) = Some cs.
Proof.
  unfold ecs_of, set_ecs. dns. set (e := match m_edns (mview m) with Some e => e | None => _ end).
  rewrite edns_option_spec. unfold edns_options.
  rewrite eview_options_insert by (rewrite option_subnet_code; apply removed_options).
  cbn [e_options]. rewrite find_first_app.
  - cbn [find_first fst snd]. rewrite option_subnet_code, bool_decide_eq_true_2 by done.
    apply option_subnet_as.
  - eapply Forall_impl; [apply removed_options|]. intros p Hp. by apply bool_decide_eq_false_2.
Qed.

Lemma ecs_of_remove_ecs m : ecs_of (remove_ecs m) = None.
Proof.
  unfold ecs_of, remove_ecs. destruct (extensions m) as [e|] eqn:E; [|by rewrite E].
  dns. rewrite edns_option_spec.
  rewrite (proj2 (find_first_None _ _)); [done|].
  eapply Forall_impl; [apply removed_options|]. intros p Hp. by apply bool_decide_eq_false_2.
Qed.
End ecs_option.

(** The options of a message other than the client subnet. *)
Definition other_options `{Hickory} (m : Message) : list (EdnsCode * EdnsOption) :=
  match extensions m with
  | Some e => filter (λ p, p.1 ≠ code_Subnet) (edns_options e)
  | None => []
  end.


(** ** Concrete instances *)
Lemma take_response_spec_witness :
  let q := d_query 7 "www.example.com" rt_A in
  let r := d_response 7 "WWW.Example.com" rt_A [] in
  take_response q r = Ok r ∧ take_response q (set_id 8 r) = Err (ErrProtocol "id mismatch").
Proof.
  intros q r. split; [|by vm_compute]. apply take_response_spec.
  do 4 (split; [reflexivity|]). constructor; [|constructor]. by repeat split.
Defined.

Lemma subtract_ttl_spec_witness :
  let m := d_response 7 "a.b" rt_A [d_a "a.b" 300 1%Z; d_a "a.b" 5 2%Z] in
  rec_ttl <$> answers (subtract_ttl m 60) = [240%Z; 0%Z]
  ∧ Forall2 (aged 60) (answers m) (answers (subtract_ttl m 60)).
Proof. intros m. split; [by vm_compute|]. apply (subtract_ttl_spec m 60). lia. Defined.

Lemma udp_reply_size_witness :
  let q := set_edns (d_edns 9000) (d_query 7 "a.b" rt_A) in
  udp_payload_max q = 4096%Z ∧ (512 ≤ udp_payload_max q ≤ 4096)%Z.
Proof. intros q. split; [by vm_compute|]. apply (udp_reply_size q q []). Defined.


(** ** The size limit of a UDP reply *)

(** [udp_loop] (server.rs) takes the size limit of the reply from the query as the pipeline
    left it, so an [ecs] step changes it for a client without EDNS: from 512 bytes
    to the 1232 of the EDNS it adds; for a client with EDNS the limit stays. *)
Theorem ecs_raises_udp_limit {H : Hickory} {HL : HickoryLaws H} (q : Message) (cs : ClientSubnet) :
  udp_payload_max (set_ecs q cs)
  = match extensions q with None => 1232%Z | Some _ => udp_payload_max q end
  ∧ (extensions q = None → udp_payload_max q = 512%Z).
Proof.
  unfold udp_payload_max, set_ecs. split; [|by intros ->]. destruct (extensions q) eqn:Eq; dns;
    rewrite eview_options_insert by (rewrite option_subnet_code; apply removed_options); dns; by rewrite ?Eq.
Qed.

Lemma ecs_raises_udp_limit_witness :
  udp_payload_max (set_ecs (d_query 7 "a.test" rt_A) (cs_new (V4 (ipv4_new 203 0 113 0)) 24 0)) = 1232%Z.
Proof.
  rewrite (proj1 (ecs_raises_udp_limit (d_query 7 "a.test" rt_A) (cs_new (V4 (ipv4_new 203 0 113 0)) 24 0))).
  reflexivity.
Defined.
