(* ===== verification/Context.v ===== *)
(** * [context.rs]: the state of one query

    [QueryContext] is the record that flows through the plugin pipeline, with
    one definition per method.  An [Instant] is a number of nanoseconds; the
    two ambient reads of the file, [next_id()] and [Instant::now()], are
    arguments of the constructors here and events of a task in [Task]. *)
From S2P Require Import Prelude RustStr RustNet Error Hickory HickoryDemo External PublicIp.
From S2P Require Import DnsUtil.

(** @src src/src/context.rs 9-15 ClientProto *)
Inductive ClientProto : Type := ProtoUdp | ProtoTcp | ProtoTls | ProtoHttps.

(** @src src/src/context.rs 18-25 ClientProto::as_str *)
Definition proto_as_str (p : ClientProto) : string :=
  match p with ProtoUdp => "udp" | ProtoTcp => "tcp" | ProtoTls => "tls" | ProtoHttps => "https" end.

(** @src src/src/context.rs 59-65 TraceEvent *)
Record TraceEvent : Type := mkTraceEvent {
  te_plugin : string;
  te_event : string;
  te_detail : string;
  te_elapsed_us : Z;
}.

Section context.
Context {H : Hickory}.

(** @src src/src/context.rs 52-57 EntryState *)
Record EntryState : Type := mkEntryState {
  es_query : Message;
  es_marks : gset Z;
  es_strip_ecs_on_reply : bool;
}.

(** @src src/src/context.rs 28-50 QueryContext *)
Record QueryContext : Type := mkCtx {
  c_id : Z;
  c_start : Z;
  client_addr : option IpAddr;
  protocol : ClientProto;
  c_query : Message;
  c_original : Message;
  c_response : option Message;
  c_marks : gset Z;
  c_rewrites : list (Name * Name);
  c_entry_state : option EntryState;
  c_trace : list TraceEvent;
  trace_enabled : bool;
  skip_cache : bool;
  strip_ecs_on_reply : bool;
  served_from_cache : bool;
  pipeline_entry : option string;
}.

(** Assignments to one field. *)
Definition with_query (x : Message) (c : QueryContext) : QueryContext :=
  mkCtx (c_id c) (c_start c) (client_addr c) (protocol c) x (c_original c) (c_response c) (c_marks c) (c_rewrites c) (c_entry_state c) (c_trace c) (trace_enabled c) (skip_cache c) (strip_ecs_on_reply c) (served_from_cache c) (pipeline_entry c).
Definition with_response (x : option Message) (c : QueryContext) : QueryContext :=
  mkCtx (c_id c) (c_start c) (client_addr c) (protocol c) (c_query c) (c_original c) x (c_marks c) (c_rewrites c) (c_entry_state c) (c_trace c) (trace_enabled c) (skip_cache c) (strip_ecs_on_reply c) (served_from_cache c) (pipeline_entry c).
Definition with_marks (x : gset Z) (c : QueryContext) : QueryContext :=
  mkCtx (c_id c) (c_start c) (client_addr c) (protocol c) (c_query c) (c_original c) (c_response c) x (c_rewrites c) (c_entry_state c) (c_trace c) (trace_enabled c) (skip_cache c) (strip_ecs_on_reply c) (served_from_cache c) (pipeline_entry c).
Definition with_rewrites (x : list (Name * Name)) (c : QueryContext) : QueryContext :=
  mkCtx (c_id c) (c_start c) (client_addr c) (protocol c) (c_query c) (c_original c) (c_response c) (c_marks c) x (c_entry_state c) (c_trace c) (trace_enabled c) (skip_cache c) (strip_ecs_on_reply c) (served_from_cache c) (pipeline_entry c).
Definition with_entry_state (x : option EntryState) (c : QueryContext) : QueryContext :=
  mkCtx (c_id c) (c_start c) (client_addr c) (protocol c) (c_query c) (c_original c) (c_response c) (c_marks c) (c_rewrites c) x (c_trace c) (trace_enabled c) (skip_cache c) (strip_ecs_on_reply c) (served_from_cache c) (pipeline_entry c).
Definition with_trace (x : list TraceEvent) (c : QueryContext) : QueryContext :=
  mkCtx (c_id c) (c_start c) (client_addr c) (protocol c) (c_query c) (c_original c) (c_response c) (c_marks c) (c_rewrites c) (c_entry_state c) x (trace_enabled c) (skip_cache c) (strip_ecs_on_reply c) (served_from_cache c) (pipeline_entry c).
Definition with_skip_cache (x : bool) (c : QueryContext) : QueryContext :=
  mkCtx (c_id c) (c_start c) (client_addr c) (protocol c) (c_query c) (c_original c) (c_response c) (c_marks c) (c_rewrites c) (c_entry_state c) (c_trace c) (trace_enabled c) x (strip_ecs_on_reply c) (served_from_cache c) (pipeline_entry c).
Definition with_strip_ecs_on_reply (x : bool) (c : QueryContext) : QueryContext :=
  mkCtx (c_id c) (c_start c) (client_addr c) (protocol c) (c_query c) (c_original c) (c_response c) (c_marks c) (c_rewrites c) (c_entry_state c) (c_trace c) (trace_enabled c) (skip_cache c) x (served_from_cache c) (pipeline_entry c).
Definition with_served_from_cache (x : bool) (c : QueryContext) : QueryContext :=
  mkCtx (c_id c) (c_start c) (client_addr c) (protocol c) (c_query c) (c_original c) (c_response c) (c_marks c) (c_rewrites c) (c_entry_state c) (c_trace c) (trace_enabled c) (skip_cache c) (strip_ecs_on_reply c) x (pipeline_entry c).
Definition with_pipeline_entry (x : option string) (c : QueryContext) : QueryContext :=
  mkCtx (c_id c) (c_start c) (client_addr c) (protocol c) (c_query c) (c_original c) (c_response c) (c_marks c) (c_rewrites c) (c_entry_state c) (c_trace c) (trace_enabled c) (skip_cache c) (strip_ecs_on_reply c) (served_from_cache c) x.

(** @src src/src/context.rs 67-88 QueryContext::new *)
Definition ctx_new (id now : Z) (query : Message) (addr : option IpAddr) (proto : ClientProto)
    : QueryContext :=
  mkCtx id now addr proto query query None ∅ [] None [] false false false false None.

(** @src src/src/context.rs 110-115 QueryContext::set_response *)
Definition set_response (msg : Message) (c : QueryContext) : QueryContext :=
  let msg := set_id (msg_id (c_query c)) msg in
  let msg := set_message_type mt_Response msg in
  with_served_from_cache false (with_response (Some msg) c).

(** @src src/src/context.rs 117-120 QueryContext::drop_response *)
Definition drop_response (c : QueryContext) : QueryContext :=
  with_served_from_cache false (with_response None c).

(** @src src/src/context.rs 122-132 QueryContext::begin_pipeline *)
Definition begin_pipeline (entry : string) (c : QueryContext) : QueryContext :=
  match c_entry_state c with
  | None =>
      with_pipeline_entry (Some entry)
        (with_entry_state (Some (mkEntryState (c_query c) (c_marks c) (strip_ecs_on_reply c))) c)
  | Some _ => c
  end.

(** @src src/src/context.rs 134-145 QueryContext::rewrite_name *)
Definition rewrite_name (name : Name) (c : QueryContext) : QueryContext :=
  let name := name_set_fqdn true name in
  match queries (c_query c) with
  | question :: rest =>
      if negb (name_eqb (query_name question) name) then
        with_query (set_queries (query_set_name name question :: rest) (c_query c))
          (with_rewrites (c_rewrites c ++ [(query_name question, name)]) c)
      else c
  | [] => c
  end.

(** @src src/src/context.rs 147-149 QueryContext::rewrite_count *)
Definition rewrite_count (c : QueryContext) : nat := length (c_rewrites c).

(** @src src/src/context.rs 190-205 QueryContext::rebind_response *)
Definition rebind_response (response query : Message) : Message :=
  let response := set_id (msg_id query) response in
  let response := set_message_type mt_Response response in
  let response := set_op_code (op_code query) response in
  let response := set_recursion_desired (recursion_desired query) response in
  let response := set_checking_disabled (checking_disabled query) response in
  let response := set_queries (queries query) response in
  match extensions response, extensions query with
  | _, None => set_extensions None response
  | Some response_edns, Some query_edns =>
      set_extensions
        (Some (edns_set_dnssec_ok (dnssec_ok query_edns)
                 (edns_set_max_payload (max_payload query_edns) response_edns)))
        response
  | None, Some _ => response
  end.

(** The test of one existing record against one alias of the chain. *)
Definition is_alias_record (alias : Name * Name) (record : Record_) : bool :=
  name_eqb (rec_name record) alias.1
  && match rdata_view (rec_data record) with
     | RDataCNAME target => name_eqb target alias.2
     | _ => false
     end.

(** The CNAME records of the aliases the answer does not hold yet.
    @src src/src/context.rs 168-181 QueryContext::response_for_query *)
Definition alias_records (query : Message) (ttl : Z) (present : list Record_)
    (aliases : list (Name * Name)) : list Record_ :=
  omap (λ alias,
    if existsb (is_alias_record alias) present then None
    else
      let record := record_cname alias.1 ttl alias.2 in
      Some (match queries query with
            | question :: _ => record_set_class (query_class question) record
            | [] => record
            end)) aliases.

(** @src src/src/context.rs 151-188 QueryContext::response_for_query *)
Definition response_for_query (query : Message) (rewrite_start : nat) (c : QueryContext)
    : option Message :=
  match c_response c with
  | None => None
  | Some response =>
      let response := rebind_response response query in
      let aliases := drop (Nat.min rewrite_start (length (c_rewrites c))) (c_rewrites c) in
      if negb (bool_decide (aliases = []))
         && (bool_decide (response_code response = rc_NoError)
             || bool_decide (response_code response = rc_NXDomain))
      then
        let records := alias_records query (min_ttl response) (answers response) aliases in
        let response := set_answers (records ++ answers response) response in
        Some (set_authentic_data false response)
      else Some response
  end.

(** @src src/src/context.rs 207-210 QueryContext::finalize_response *)
Definition finalize_response (c : QueryContext) : QueryContext :=
  with_response (response_for_query (c_original c) 0 c) c.

(** @src src/src/context.rs 212-214 QueryContext::has_resp *)
Definition has_resp (c : QueryContext) : bool :=
  match c_response c with Some _ => true | None => false end.

(** @src src/src/context.rs 216-218 QueryContext::qname *)
Definition qname (c : QueryContext) : option Name := query_name <$> head (queries (c_query c)).

(** @src src/src/context.rs 220-224 QueryContext::qname_str *)
Definition qname_str (c : QueryContext) : string :=
  match qname c with Some n => name_to_ascii n | None => "." end.

(** @src src/src/context.rs 226-232 QueryContext::qtype *)
Definition qtype (c : QueryContext) : RecordType :=
  match head (queries (c_query c)) with Some q => query_type q | None => rt_A end.

(** @src src/src/context.rs 238-240 QueryContext::add_mark *)
Definition add_mark (m : Z) (c : QueryContext) : QueryContext :=
  with_marks ({[m]} ∪ c_marks c) c.

(** @src src/src/context.rs 242-244 QueryContext::has_mark *)
Definition has_mark (m : Z) (c : QueryContext) : bool := bool_decide (m ∈ c_marks c).

(** [self.start.elapsed().as_micros() as u64], [now] being the time read.
    @src src/src/context.rs 259-259 QueryContext::push_trace *)
Definition elapsed_us (now : Z) (c : QueryContext) : Z :=
  wrap_u64 (saturating_sub now (c_start c) / 1000).

(** The event [push_trace] records at time [now] when tracing is enabled; the
    test of [trace_enabled] and the clock read are in [Task.push_trace].
    @src src/src/context.rs 246-261 QueryContext::push_trace *)
Definition push_trace_at (now : Z) (plugin event detail : string) (c : QueryContext) : QueryContext :=
  with_trace (c_trace c ++ [mkTraceEvent plugin event detail (elapsed_us now c)]) c.

(** @src src/src/context.rs 263-265 QueryContext::make_response *)
Definition make_response (rcode : ResponseCode) (c : QueryContext) : Message :=
  reply_skeleton (c_query c) rcode.

(** @src src/src/context.rs 267-269 QueryContext::reject *)
Definition reject (rcode : ResponseCode) (c : QueryContext) : QueryContext :=
  set_response (make_response rcode c) c.

(** @src src/src/context.rs 271-282 QueryContext::clone_for_lazy *)
Definition clone_for_lazy (id now : Z) (c : QueryContext) : QueryContext :=
  let l := ctx_new id now (c_original c) (client_addr c) (protocol c) in
  let l := match c_entry_state c with
           | Some initial =>
               with_strip_ecs_on_reply (es_strip_ecs_on_reply initial)
                 (with_marks (es_marks initial) (with_query (es_query initial) l))
           | None => l
           end in
  with_skip_cache true (with_pipeline_entry (pipeline_entry c) (with_entry_state (c_entry_state c) l)).

(** @src src/src/context.rs 284-305 QueryContext::fork *)
Definition fork (id now : Z) (c : QueryContext) : QueryContext :=
  mkCtx id now (client_addr c) (protocol c) (c_query c) (c_original c) None (c_marks c) (c_rewrites c)
    (c_entry_state c) [] (trace_enabled c) (skip_cache c) (strip_ecs_on_reply c) false
    (pipeline_entry c).

(** @src src/src/context.rs 307-319 QueryContext::absorb *)
Definition absorb (other c : QueryContext) : QueryContext :=
  let c := with_query (c_query other) c in
  let c := with_response (c_response other) c in
  let c := with_marks (c_marks other) c in
  let c := with_rewrites (c_rewrites other) c in
  let c := with_strip_ecs_on_reply (strip_ecs_on_reply other) c in
  let c := with_skip_cache (skip_cache other) c in
  let c := with_served_from_cache (served_from_cache other) c in
  if trace_enabled c then with_trace (c_trace c ++ c_trace other) c else c.

(** @src src/src/context.rs 321-333 QueryContext::answer_ips *)
Definition answer_ips (c : QueryContext) : list IpAddr :=
  match c_response c with
  | None => []
  | Some resp =>
      omap (λ r, match rdata_view (rec_data r) with
                 | RDataA a => Some (V4 a)
                 | RDataAAAA a => Some (V6 a)
                 | _ => None
                 end) (answers resp)
  end.

(** @src src/src/context.rs 335-344 QueryContext::has_wanted_ans *)
Definition has_wanted_ans (c : QueryContext) : bool :=
  match c_response c with
  | None => false
  | Some resp =>
      if decide (response_code resp ≠ rc_NoError) then false
      else let want := qtype c in
           existsb (λ r, bool_decide (record_type r = want)) (answers resp)
  end.

(** [Ord::clamp] panics when the bounds are out of order: [None] is the panic. *)
Definition clamp_ttl (min max : Z) (r : Record_) : option Record_ :=
  if (min <=? max)%Z then Some (record_set_ttl (clamp min max (rec_ttl r)) r) else None.

(** [None] when a [clamp] panics.
    @src src/src/context.rs 346-358 QueryContext::apply_ttl_clamp *)
Definition apply_ttl_clamp (min max : Z) (c : QueryContext) : option QueryContext :=
  match c_response c with
  | None => Some c
  | Some resp =>
      ans ← mapM (clamp_ttl min max) (answers resp);
      let resp := set_answers ans resp in
      ns ← mapM (clamp_ttl min max) (name_servers resp);
      let resp := set_name_servers ns resp in
      Some (with_response (Some resp) c)
  end.

(** @src src/src/context.rs 368-382 QueryContext::filter_answers *)
Definition filter_answers (keep : RecordType → bool) (c : QueryContext) : QueryContext :=
  match c_response c with
  | None => c
  | Some resp =>
      let kept := filter (λ r, keep (record_type r)) (answers resp) in
      let resp := set_answers [] resp in
      let resp := foldl (λ resp r, add_answer r resp) resp kept in
      with_response (Some resp) c
  end.

(** @src src/src/context.rs 360-362 QueryContext::prefer_ipv4 *)
Definition prefer_ipv4 (c : QueryContext) : QueryContext :=
  filter_answers (λ rt, negb (bool_decide (rt = rt_AAAA))) c.

(** @src src/src/context.rs 364-366 QueryContext::prefer_ipv6 *)
Definition prefer_ipv6 (c : QueryContext) : QueryContext :=
  filter_answers (λ rt, negb (bool_decide (rt = rt_A))) c.

(** @src src/src/context.rs 385-392 build_hosts_response *)
Definition build_hosts_response (q : Message) (records : list Record_) : Message :=
  let msg := reply_skeleton q rc_NoError in
  let msg := set_authoritative true msg in
  foldl (λ msg r, add_answer r msg) msg records.

(** [id] is the value of [rand::random()].
    @src src/src/context.rs 394-407 build_query *)
Definition build_query (id : Z) (name : string) (qtype : RecordType) : result string Message :=
  let msg := message_new in
  let msg := set_id id msg in
  let msg := set_message_type mt_Query msg in
  let msg := set_op_code op_Query msg in
  let msg := set_recursion_desired true msg in
  let? n := name_from_ascii name in
  let query := query_new in
  let query := query_set_name n query in
  let query := query_set_type qtype query in
  let query := query_set_class class_IN query in
  Ok (add_query query msg).

(** The new value of the counter and the id handed out.
    @src src/src/context.rs 409-413 next_id *)
Definition next_id (counter : Z) : Z * Z := (wrap_u64 (counter + 1), counter).

End context.

(** ** What every step of a pipeline leaves alone

    [same_request c c']: the fields of the context no plugin assigns. *)
Record same_request `{Hickory} (c c' : QueryContext) : Prop := mkSameRequest {
  sr_original : c_original c' = c_original c;
  sr_client : client_addr c' = client_addr c;
  sr_protocol : protocol c' = protocol c;
  sr_entry_state : c_entry_state c' = c_entry_state c;
  sr_pipeline_entry : pipeline_entry c' = pipeline_entry c;
  sr_trace_enabled : trace_enabled c' = trace_enabled c;
}.

#[export] Instance same_request_preorder `{Hickory} : PreOrder same_request.
Proof. split; [by intros c|intros c1 c2 c3 [] []; split; congruence]. Qed.

Section frames.
Context {H : Hickory}.

Lemma same_request_set_response m c : same_request c (set_response m c).
Proof. done. Qed.

Lemma same_request_rewrite_name n c : same_request c (rewrite_name n c).
Proof. unfold rewrite_name. repeat case_match; done. Qed.

Lemma same_request_absorb o c : same_request c (absorb o c).
Proof. unfold absorb. case_match; done. Qed.

Lemma same_request_apply_ttl_clamp min max c c' :
  apply_ttl_clamp min max c = Some c' → same_request c c'.
Proof.
  unfold apply_ttl_clamp. case_match; [|by intros [= <-]].
  destruct (mapM _ (answers m)); simpl; [|done]. destruct (mapM _ _); simpl; [|done].
  by intros [= <-].
Qed.

Lemma same_request_filter_answers keep c : same_request c (filter_answers keep c).
Proof. unfold filter_answers. case_match; done. Qed.
End frames.

#[export] Hint Resolve same_request_set_response same_request_rewrite_name same_request_absorb
  same_request_apply_ttl_clamp same_request_filter_answers : ferrum.
#[export] Hint Extern 1 (same_request ?c ?c) => reflexivity : ferrum.

(** ** The reply is bound to the question *)

(** [resp] is addressed to [query]: what a client checks before it accepts a
    reply, and the EDNS rules of the server. *)
Record bound_to `{Hickory} (query resp : Message) : Prop := mkBoundTo {
  bt_id : msg_id resp = msg_id query;
  bt_type : message_type resp = mt_Response;
  bt_opcode : op_code resp = op_code query;
  bt_rd : recursion_desired resp = recursion_desired query;
  bt_cd : checking_disabled resp = checking_disabled query;
  bt_queries : queries resp = queries query;
  bt_edns : ∀ e, extensions resp = Some e → ∃ eq, extensions query = Some eq
                 ∧ max_payload e = max_payload eq ∧ dnssec_ok e = dnssec_ok eq;
}.

Section rebind.
Context {H : Hickory} {HL : HickoryLaws H}.

Lemma rebind_response_bound resp query : bound_to query (rebind_response resp query).
Proof.
  unfold rebind_response. dns. destruct (m_edns (mview resp)) eqn:E1, (m_edns (mview query)) eqn:E2;
    split; dns; rewrite ?E1; try done.
  intros e' [= <-]. exists e0. rewrite E2. dns. done.
Qed.

Lemma rebind_response_keeps resp query :
  answers (rebind_response resp query) = answers resp
  ∧ name_servers (rebind_response resp query) = name_servers resp
  ∧ additionals (rebind_response resp query) = additionals resp
  ∧ response_code (rebind_response resp query) = response_code resp
  ∧ truncated (rebind_response resp query) = truncated resp
  ∧ authentic_data (rebind_response resp query) = authentic_data resp.
Proof. unfold rebind_response. dns. repeat case_match; dns; done. Qed.

Lemma bound_to_set_answers q m l b :
  bound_to q m → bound_to q (set_authentic_data b (set_answers l m)).
Proof. intros []. split; dns; done. Qed.

Lemma bound_to_remove_ecs q m : bound_to q m → bound_to q (remove_ecs m).
Proof.
  intros Hb. unfold remove_ecs. destruct (extensions m) as [e|] eqn:E; [|done].
  destruct Hb. split; dns; try done. intros e' [= <-]. dns. by apply bt_edns0.
Qed.

Lemma response_for_query_bound query k c m :
  response_for_query query k c = Some m → bound_to query m.
Proof.
  unfold response_for_query. destruct (c_response c); [|done].
  case_match; intros [= <-]; [apply bound_to_set_answers|]; apply rebind_response_bound.
Qed.

Lemma response_for_query_Some query k c :
  is_Some (response_for_query query k c) ↔ is_Some (c_response c).
Proof.
  unfold response_for_query. destruct (c_response c); [|done]. case_match; naive_solver.
Qed.
End rebind.

(** ** Aliases *)

(** The rewrites of a context form a path from one name to another. *)
Fixpoint alias_path `{Hickory} (from : Name) (rewrites : list (Name * Name)) (to : Name) : Prop :=
  match rewrites with
  | [] => from = to
  | (a, b) :: rest => a = from ∧ alias_path b rest to
  end.

(** The context's rewrites lead from the client's question to the current one. *)
Definition aliases_connected `{Hickory} (c : QueryContext) : Prop :=
  ∀ q qs, queries (c_original c) = q :: qs →
  ∃ q' qs', queries (c_query c) = q' :: qs' ∧ qs' = qs
            ∧ alias_path (query_name q) (c_rewrites c) (query_name q')
            ∧ query_class q' = query_class q ∧ query_type q' = query_type q.

Section aliases.
Context {H : Hickory} {HL : HickoryLaws H}.

Lemma alias_path_snoc a l b n : alias_path a l b → alias_path a (l ++ [(b, n)]) n.
Proof. revert a. induction l as [|[x y] l IH]; simpl; [by intros ? ->|]. naive_solver. Qed.

Lemma rewrite_name_connected n c : aliases_connected c → aliases_connected (rewrite_name n c).
Proof.
  unfold aliases_connected. intros Hc q qs.
  rewrite (sr_original _ _ (same_request_rewrite_name n c)). intros Hq.
  destruct (Hc q qs Hq) as (q' & qs' & Hq' & -> & Hp & Hcl & Hty).
  unfold rewrite_name. rewrite Hq'. case_match; [|by exists q', qs].
  exists (query_set_name (name_set_fqdn true n) q'), qs. cbn. dns.
  split; [reflexivity|]. split; [reflexivity|]. split; [by apply alias_path_snoc|]. done.
Qed.

Lemma alias_records_spec query ttl present aliases r :
  r ∈ alias_records query ttl present aliases ↔
  ∃ alias, alias ∈ aliases ∧ existsb (is_alias_record alias) present = false
    ∧ r = match queries query with
          | question :: _ => record_set_class (query_class question) (record_cname alias.1 ttl alias.2)
          | [] => record_cname alias.1 ttl alias.2
          end.
Proof.
  unfold alias_records. rewrite list_elem_of_omap. split.
  - intros (alias & Hin & E). destruct (existsb _ _) eqn:Hx; [done|]. injection E as <-. eauto.
  - intros (alias & Hin & Hx & ->). exists alias. rewrite Hx. eauto.
Qed.

Lemma synthesized_alias query ttl alias :
  is_alias_record alias (match queries query with
    | question :: _ => record_set_class (query_class question) (record_cname alias.1 ttl alias.2)
    | [] => record_cname alias.1 ttl alias.2
    end) = true.
Proof.
  unfold is_alias_record, record_cname. case_match; dns;
    by rewrite rdata_view_CNAME, !name_eqb_refl.
Qed.

(** Every alias is in the answer section, and nothing else was added. *)
Lemma alias_records_complete query ttl present aliases alias :
  alias ∈ aliases →
  ∃ r, r ∈ alias_records query ttl present aliases ++ present ∧ is_alias_record alias r = true.
Proof.
  intros Hin. destruct (existsb (is_alias_record alias) present) eqn:E.
  - apply existsb_elem in E as (r & Hr & ?). exists r. set_solver.
  - eexists. split; [|apply (synthesized_alias query ttl)].
    apply elem_of_app. left. apply alias_records_spec. eauto.
Qed.
End aliases.

(** The answer holds a CNAME record for each step from [from] to [to]. *)
Inductive cname_path `{Hickory} (ans : list Record_) : Name → Name → Prop :=
| cname_path_nil n : cname_path ans n n
| cname_path_step a b n r :
    r ∈ ans → is_alias_record (a, b) r = true → cname_path ans b n → cname_path ans a n.

Lemma alias_path_cname `{Hickory} ans from l to :
  alias_path from l to → (∀ alias, alias ∈ l → ∃ r, r ∈ ans ∧ is_alias_record alias r = true) →
  cname_path ans from to.
Proof.
  revert from. induction l as [|[a b] l IH]; simpl; intros from.
  - intros -> _. constructor.
  - intros [-> Hp] Hl. destruct (Hl (from, b)) as (r & Hr & Ha); [set_solver|].
    apply (cname_path_step _ _ b _ r); [done..|]. apply IH; [done|]. set_solver.
Qed.

(** The facts about the finalised reply. *)
Lemma finalize_response_spec {H : Hickory} {HL : HickoryLaws H} (c : QueryContext) (up : Message) q qs :
  c_response c = Some up →
  aliases_connected c →
  queries (c_original c) = q :: qs →
  ∃ m q' qs', c_response (finalize_response c) = Some m
    ∧ bound_to (c_original c) m
    ∧ queries (c_query c) = q' :: qs'
    ∧ answers up `suffix_of` answers m
    ∧ response_code m = response_code up
    ∧ (response_code up = rc_NoError ∨ response_code up = rc_NXDomain →
       cname_path (answers m) (query_name q) (query_name q')).
Proof.
  intros Hr Hc Hq. destruct (Hc q qs Hq) as (q' & qs' & Hq' & _ & Hp & _ & _).
  destruct (proj2 (response_for_query_Some (c_original c) 0 c) ltac:(rewrite Hr; eauto)) as [m Hm].
  exists m, q', qs'. split; [done|]. split; [by eapply response_for_query_bound|].
  split; [done|]. revert Hm. unfold response_for_query. rewrite Hr. rewrite Nat.min_0_l, drop_0.
  destruct (rebind_response_keeps up (c_original c)) as (Ha & _ & _ & Hrc & _ & _).
  rewrite Ha, Hrc. case_bool_decide as Hn; simpl.
  - intros [= <-]. rewrite Ha, Hrc. split; [done|]. split; [done|]. intros _.
    rewrite Hn in Hp. simpl in Hp. rewrite Hp. constructor.
  - destruct (_ || _) eqn:Hcode; intros [= <-].
    + dns. split; [by eexists|]. split; [done|]. intros _.
      eapply alias_path_cname; [done|]. intros alias Hin. by apply alias_records_complete.
    + rewrite Ha, Hrc. split; [done|]. split; [done|].
      apply orb_false_iff in Hcode as [?%bool_decide_eq_false ?%bool_decide_eq_false]. tauto.
Qed.

(** C12: after any rewrites of the question, the reply sent to the client is
    bound to the client's own message (id, opcode, RD, CD, question; EDNS only
    if the client used it, with the client's payload size and DO bit), and when
    the answer is NOERROR or NXDOMAIN its answer section holds an unbroken CNAME
    chain from the name the client asked to the name that was resolved, in front
    of the records of the upstream answer. *)
Theorem finalized_reply {H : Hickory} {HL : HickoryLaws H} (c : QueryContext) (up : Message) q qs :
  c_response c = Some up →
  aliases_connected c →
  queries (c_original c) = q :: qs →
  ∃ m q' qs', c_response (finalize_response c) = Some m
    ∧ bound_to (c_original c) m
    ∧ queries (c_query c) = q' :: qs'
    ∧ answers up `suffix_of` answers m
    ∧ response_code m = response_code up
    ∧ (response_code up = rc_NoError ∨ response_code up = rc_NXDomain →
       cname_path (answers m) (query_name q) (query_name q')).
Proof. apply finalize_response_spec. Qed.

(** ** One step of a pipeline

    [ctx_step c c']: [c'] belongs to the same request as [c], its rewrites still lead
    from the client's question to the current one if those of [c] did, and it skips
    the caches if [c] does. *)
Record ctx_step `{Hickory} (c c' : QueryContext) : Prop := mkCtxStep {
  cs_request : same_request c c';
  cs_aliases : aliases_connected c → aliases_connected c';
  cs_skip : skip_cache c' = skip_cache c;
}.

Lemma skip_begin_pipeline `{Hickory} entry c : skip_cache (begin_pipeline entry c) = skip_cache c.
Proof. unfold begin_pipeline. by case_match. Qed.

#[export] Instance ctx_step_preorder `{Hickory} : PreOrder ctx_step.
Proof.
  split; [by intros c; split|]. intros c1 c2 c3 [S1 A1 E1] [S2 A2 E2].
  split; [by transitivity c2|auto|congruence].
Qed.

Section ctx_steps.
Context {H : Hickory} {HL : HickoryLaws H}.

(** A change of anything but the question and the rewrites. *)
Lemma ctx_step_same c c' :
  same_request c c' → queries (c_query c') = queries (c_query c) → c_rewrites c' = c_rewrites c →
  skip_cache c' = skip_cache c → ctx_step c c'.
Proof.
  intros S Hq Hr Hs. split; [done| |done]. unfold aliases_connected. by rewrite (sr_original _ _ S), Hq, Hr.
Qed.

Lemma ctx_step_with_trace t c : ctx_step c (with_trace t c).
Proof. by apply ctx_step_same. Qed.

Lemma ctx_step_set_response m c : ctx_step c (set_response m c).
Proof. by apply ctx_step_same. Qed.

Lemma ctx_step_reject rc c : ctx_step c (reject rc c).
Proof. by apply ctx_step_same. Qed.

Lemma ctx_step_rewrite_name n c : ctx_step c (rewrite_name n c).
Proof.
  split; [apply same_request_rewrite_name|apply rewrite_name_connected|].
  unfold rewrite_name. by repeat case_match.
Qed.

Lemma ctx_step_with_query q c : queries q = queries (c_query c) → ctx_step c (with_query q c).
Proof. intros. by apply ctx_step_same. Qed.

Lemma ctx_step_absorb o c : c_original o = c_original c → (aliases_connected c → aliases_connected o) →
  skip_cache o = skip_cache c → ctx_step c (absorb o c).
Proof.
  intros Ho Ha Hs. split; [apply same_request_absorb| |unfold absorb; by case_match]. intros Hc. specialize (Ha Hc). revert Ha.
  unfold aliases_connected. rewrite (sr_original _ _ (same_request_absorb o c)), Ho.
  unfold absorb. case_match; done.
Qed.

Lemma ctx_step_fork id now c : ctx_step c (fork id now c).
Proof. by apply ctx_step_same. Qed.

Lemma ctx_step_apply_ttl_clamp min max c c' : apply_ttl_clamp min max c = Some c' → ctx_step c c'.
Proof.
  intros Hc. pose proof (same_request_apply_ttl_clamp _ _ _ _ Hc) as S.
  unfold apply_ttl_clamp in Hc. destruct (c_response c); [|by injection Hc as <-].
  destruct (mapM _ (answers m)); simpl in Hc; [|done]. destruct (mapM _ _); simpl in Hc; [|done].
  injection Hc as <-. by apply ctx_step_same.
Qed.

Lemma ctx_step_filter_answers keep c : ctx_step c (filter_answers keep c).
Proof.
  pose proof (same_request_filter_answers keep c) as S. revert S. unfold filter_answers.
  case_match; intros S; [by apply ctx_step_same|done].
Qed.

Lemma queries_set_ecs m cs : queries (set_ecs m cs) = queries m.
Proof. unfold set_ecs. dns. done. Qed.

Lemma queries_remove_ecs m : queries (remove_ecs m) = queries m.
Proof. unfold remove_ecs. case_match; dns; done. Qed.

Lemma clamp_all_Some min max l : (min ≤ max)%Z → is_Some (mapM (clamp_ttl min max) l).
Proof.
  intros Hle. apply mapM_is_Some_2, Forall_forall. intros r _. unfold clamp_ttl.
  rewrite (proj2 (Z.leb_le _ _) Hle). eauto.
Qed.

Lemma apply_ttl_clamp_Some min max c : (min ≤ max)%Z → is_Some (apply_ttl_clamp min max c).
Proof.
  intros Hle. unfold apply_ttl_clamp. destruct (c_response c) as [m|]; [|eauto].
  destruct (clamp_all_Some min max (answers m) Hle) as [a Ea]. rewrite Ea. cbn [mbind option_bind].
  set (m' := set_answers a m).
  destruct (clamp_all_Some min max (name_servers m') Hle) as [n En]. rewrite En. simpl. eauto.
Qed.
End ctx_steps.

(** A client asks [a.test], a redirect turns it into [b.test], upstream answers. *)
Definition d_ctx (q : Message) : QueryContext := ctx_new 1 0 q (Some (V4 (ipv4_new 8 8 8 8))) ProtoUdp.

Lemma finalized_reply_witness :
  let c := set_response (d_response 9 "b.test" rt_A [d_a "b.test" 60 1%Z])
             (rewrite_name (d_name "b.test") (d_ctx (d_query 7 "a.test" rt_A))) in
  option_map (λ m, (msg_id m, rec_ttl <$> answers m)) (c_response (finalize_response c))
  = Some (7%Z, [60%Z; 60%Z])
  ∧ ∃ m q', c_response (finalize_response c) = Some m ∧ bound_to (c_original c) m
            ∧ cname_path (answers m) (d_name "a.test") (query_name q').
Proof.
  intros c. split; [by vm_compute|].
  destruct (finalized_reply c (set_message_type mt_Response (set_id 7
      (d_response 9 "b.test" rt_A [d_a "b.test" 60 1%Z]))) (d_question "a.test" rt_A) [])
    as (m & q' & qs' & Hm & Hb & _ & _ & _ & Hp).
  - by vm_compute.
  - apply rewrite_name_connected. intros q qs Hq. exists q, qs. done.
  - by vm_compute.
  - exists m, q'. split; [done|]. split; [done|]. apply Hp. by left.
Defined.
