(* ===== verification/Config.v ===== *)
(** * [config.rs]: the configuration and its includes

    Deserialising YAML is [serde]'s; [yaml_config] is that function.  The file
    system is a class.  Everything [config.rs] does with the deserialised
    value is defined here: lifting server plugins, normalising entries, and
    loading a file with its includes, whose recursion is bounded by the include
    stack.  [loads_file] says which files a file stands for, [assembled] what
    they amount to; loading returns exactly that. *)
From S2P Require Import Prelude RustStr RustNet Error External.

Section config.
Context {Y : Yaml}.

(** @src src/src/config.rs 25-31 LogConfig *)
Record LogConfig : Type := mkLogConfig { lc_level : string; lc_file : option string }.

(** @src src/src/config.rs 42-44 default_log_level *)
Definition default_log_level : string := "info".

(** The [Default] of [LogConfig].
    @src src/src/config.rs 34-39 default *)
Definition default_log : LogConfig := mkLogConfig default_log_level None.

(** @src src/src/config.rs 46-55 PluginConfig *)
Record PluginConfig : Type := mkPluginConfig {
  pc_tag : option string;
  pc_ty : string;
  pc_args : YValue;
  pc_base_dir : string;
}.

(** @src src/src/config.rs 73-90 ListenerConfig *)
Record ListenerConfig : Type := mkListenerConfig {
  l_protocol : string;
  l_addr : string;
  l_cert : option string;
  l_key : option string;
  l_url_path : option string;
  l_idle_timeout : option Z;
  l_workers : option Z;
}.

(** @src src/src/config.rs 57-67 ServerConfig *)
Record ServerConfig : Type := mkServerConfig {
  sc_exec : string;
  sc_timeout : Z;
  sc_listeners : list ListenerConfig;
}.

#[export] Instance LogConfig_eq_dec : EqDecision LogConfig.
Proof. solve_decision. Defined.
#[export] Instance ListenerConfig_eq_dec : EqDecision ListenerConfig.
Proof. solve_decision. Defined.
#[export] Instance ServerConfig_eq_dec : EqDecision ServerConfig.
Proof. solve_decision. Defined.

(** [api.http] is the only field of [ApiConfig].
    @src src/src/config.rs 7-23 Config *)
Record Config : Type := mkConfig {
  cf_log : LogConfig;
  cf_include : list string;
  cf_plugins : list PluginConfig;
  cf_servers : list ServerConfig;
  cf_api_http : option string;
  cf_base_dir : string;
}.

(** [serde_yaml::from_str::<Config>] and the file system. *)
Class ConfigEnv := {
  yaml_config : string → result string Config;
  fs_read_to_string : string → result string string;
  fs_canonicalize : string → result string string;
}.

(** ** Paths *)
Definition path_is_absolute (p : string) : bool := starts_with "/" p.

(** [Path::join] of a relative path. *)
Definition path_join (base p : string) : string :=
  if ends_with "/" base then base +:+ p else base +:+ "/" +:+ p.

(** [Path::parent]: the path up to its last component. *)
Definition path_parent (p : string) : option string :=
  let body := trim_end_matches "/" p in
  if decide (body = "") then None
  else match rsplit_once "/" body with
       | Some (dir, _) =>
           let dir' := trim_end_matches "/" dir in
           if decide (dir' = "") then Some "/" else Some dir'
       | None => Some ""
       end.

(** @src src/src/config.rs 103-114 resolve_path *)
Definition resolve_path (base p : string) : string :=
  if path_is_absolute p then p
  else if decide (base = "") then p
  else path_join base p.

(** ** Server plugins *)

Definition is_server_plugin (ty : string) : bool :=
  bool_decide (ty ∈ ["udp_server"; "tcp_server"; "tls_server"; "http_server"; "doh_server"]).

(** [args.get(a).or_else(|| args.get(b)).and_then(|v| v.as_str())]. *)
Definition yget_or_str (a b : string) (args : YValue) : option string :=
  match yget a args with
  | Some v => y_as_str v
  | None => yget_as y_as_str b args
  end.

(** The [ServerConfig] of one lifted plugin.
    @src src/src/config.rs 215-285 lift_server_plugins *)
Definition lift_server_plugin (p : PluginConfig) : Res ServerConfig :=
  let ty := pc_ty p in
  let args := pc_args p in
  let proto := if decide (ty = "udp_server") then "udp"
               else if decide (ty = "tcp_server") then "tcp"
               else if decide (ty = "tls_server") then "tls"
               else "doh" in
  let entry := default "" (yget_or_str "entry" "exec" args) in
  let? listen :=
    match (match yget "listen" args with Some v => Some v | None => yget "addr" args end) with
    | Some v =>
        match yview v with
        | YString s => Ok s
        | _ => Err (ErrConfig "server `listen` must be a string (one address), not a list")
        end
    | None => Ok "0.0.0.0:53"
    end in
  let timeout := default 5%Z (yget_as y_as_u64 "timeout" args) in
  let? workers :=
    match yget "workers" args with
    | None => Ok None
    | Some v =>
        match y_as_u64 v with
        | Some n => if (n <=? u32_max)%Z then Ok (Some n)
                    else Err (ErrConfig "server workers must be a u32")
        | None => Err (ErrConfig "server workers must be a u32")
        end
    end in
  Ok (mkServerConfig entry timeout
        [mkListenerConfig proto listen (yget_as y_as_str "cert" args) (yget_as y_as_str "key" args)
           (yget_or_str "url_path" "path" args) (yget_as y_as_u64 "idle_timeout" args) workers]).

(** @src src/src/config.rs 215-285 lift_server_plugins *)
Definition lift_server_plugins (cfg : Config) : Res Config :=
  let? (keep, servers) :=
    result_foldM (λ '(keep, servers) p,
      if is_server_plugin (pc_ty p)
      then let? s := lift_server_plugin p in Ok (keep, servers ++ [s])
      else Ok (keep ++ [p], servers)) ([], cf_servers cfg) (cf_plugins cfg) in
  Ok (mkConfig (cf_log cfg) (cf_include cfg) keep servers (cf_api_http cfg) (cf_base_dir cfg)).

(** ** Entries *)

(** The loop body of [normalize_entries].
    @src src/src/config.rs 194-205 normalize_entries *)
Definition normalize_server (server : ServerConfig) : Res ServerConfig :=
  let raw := trim (sc_exec server) in
  let entry := trim_start_matches "$" raw in
  if (negb (bool_decide (raw = "")) && bool_decide (entry = "")) || has_whitespace entry
  then Err (ErrConfig ("invalid server entry `" +:+ raw +:+ "`"))
  else Ok (mkServerConfig entry (sc_timeout server) (sc_listeners server)).

(** @src src/src/config.rs 194-205 normalize_entries *)
Definition normalize_entries (cfg : Config) : Res Config :=
  let? servers := result_mapM normalize_server (cf_servers cfg) in
  Ok (mkConfig (cf_log cfg) (cf_include cfg) (cf_plugins cfg) servers (cf_api_http cfg) (cf_base_dir cfg)).

(** @src src/src/config.rs 207-213 merge *)
Definition config_merge (other cfg : Config) : Config :=
  mkConfig (cf_log cfg) (cf_include cfg) (cf_plugins cfg ++ cf_plugins other)
    (cf_servers cfg ++ cf_servers other)
    (match cf_api_http cfg with Some a => Some a | None => cf_api_http other end)
    (cf_base_dir cfg).

(** @src src/src/config.rs 173-192 stamp_base *)
Definition stamp_base (cfg : Config) : Config :=
  let base := cf_base_dir cfg in
  let stamp_listener l :=
    mkListenerConfig (l_protocol l) (l_addr l) (resolve_path base <$> l_cert l)
      (resolve_path base <$> l_key l) (l_url_path l) (l_idle_timeout l) (l_workers l) in
  mkConfig (mkLogConfig (lc_level (cf_log cfg)) (resolve_path base <$> lc_file (cf_log cfg)))
    (cf_include cfg)
    ((λ p, if decide (pc_base_dir p = "")
           then mkPluginConfig (pc_tag p) (pc_ty p) (pc_args p) base else p) <$> cf_plugins cfg)
    ((λ s, mkServerConfig (sc_exec s) (sc_timeout s) (stamp_listener <$> sc_listeners s))
       <$> cf_servers cfg)
    (cf_api_http cfg) base.

(** ** Loading *)
Context {E : ConfigEnv}.

(** @src src/src/config.rs 117-123 from_yaml *)
Definition config_from_yaml (text : string) : Res Config :=
  let? cfg := map_err (λ e, ErrConfig ("yaml parse: " +:+ e)) (yaml_config text) in
  let? cfg := lift_server_plugins cfg in
  normalize_entries cfg.

(** @src src/src/config.rs 129-152 load_with_stack *)
Definition MAX_INCLUDE_DEPTH : nat := 64.

(** The file by itself, its base directory being [path.parent()], or [.] when
    that is empty.
    @src src/src/config.rs 154-163 load_contents *)
Definition load_own (path : string) : Res Config :=
  let? text := map_err (λ e, ErrConfig ("read " +:+ path +:+ ": " +:+ e)) (fs_read_to_string path) in
  let? cfg := config_from_yaml text in
  let base := match path_parent path with
              | Some d => if decide (d = "") then "." else d
              | None => "."
              end in
  Ok (stamp_base (mkConfig (cf_log cfg) (cf_include cfg) (cf_plugins cfg)
                    (cf_servers cfg) (cf_api_http cfg) base)).

(** The loop over the includes, each read by [load].
    @src src/src/config.rs 164-170 load_contents *)
Fixpoint load_includes (load : string → option (Res Config)) (base : string)
    (includes : list string) (cfg : Config) : option (Res Config) :=
  match includes with
  | [] => Some (Ok cfg)
  | rel :: rest =>
      match load (resolve_path base rel) with
      | None => None
      | Some (Err e) => Some (Err e)
      | Some (Ok extra) => load_includes load base rest (config_merge extra cfg)
      end
  end.

(** [load_contents], its recursive calls being [load].
    @src src/src/config.rs 154-171 load_contents *)
Definition load_contents (load : string → option (Res Config)) (path : string)
    : option (Res Config) :=
  match load_own path with
  | Err e => Some (Err e)
  | Ok cfg => load_includes load (cf_base_dir cfg) (cf_include cfg) cfg
  end.

(** [None]: the bound [fuel] on the depth of the recursion ran out.
    @src src/src/config.rs 129-152 load_with_stack *)
Fixpoint load_with_stack (fuel : nat) (stack : list string) (path : string) : option (Res Config) :=
  match fuel with
  | O => None
  | S fuel =>
      if Nat.leb MAX_INCLUDE_DEPTH (length stack) then
        Some (Err (ErrConfig ("include depth exceeds " +:+ show_Z (Z.of_nat MAX_INCLUDE_DEPTH)
                              +:+ " at " +:+ path)))
      else
        match map_err (λ e, ErrConfig ("resolve " +:+ path +:+ ": " +:+ e)) (fs_canonicalize path) with
        | Err e => Some (Err e)
        | Ok canonical =>
            if decide (canonical ∈ stack) then
              Some (Err (ErrConfig ("include cycle: " +:+ join " -> " (stack ++ [canonical]))))
            else load_contents (load_with_stack fuel (stack ++ [canonical])) path
        end
  end.

(** @src src/src/config.rs 125-127 load_file *)
Definition config_load_file (path : string) : option (Res Config) :=
  load_with_stack (S MAX_INCLUDE_DEPTH) [] path.
End config.

(** ** What loading means

    The files one file stands for, in the order they are read: the file itself,
    then those of each of its includes in turn.  [stack] holds the canonical
    names of the files that lead to it; a file is not read again below itself,
    nor more than 64 files deep. *)
Inductive loads_file `{Y : Yaml, !ConfigEnv} : list string → string → Config → list Config → Prop :=
  | loads_file_intro stack path canonical own files :
      length stack < MAX_INCLUDE_DEPTH →
      fs_canonicalize path = Ok canonical → canonical ∉ stack →
      load_own path = Ok own →
      loads_includes (stack ++ [canonical]) (cf_base_dir own) (cf_include own) files →
      loads_file stack path own files
with loads_includes `{Y : Yaml, !ConfigEnv} : list string → string → list string → list Config → Prop :=
  | loads_includes_nil stack base : loads_includes stack base [] []
  | loads_includes_cons stack base rel rest own files files' :
      loads_file stack (resolve_path base rel) own files →
      loads_includes stack base rest files' →
      loads_includes stack base (rel :: rest) (own :: files ++ files').

(** What the files amount to: the plugins and the servers of all of them in
    that order, the first API address given, and everything else from the file
    asked for. *)
Definition assembled `{Yaml} (own : Config) (files : list Config) : Config :=
  mkConfig (cf_log own) (cf_include own)
    ((own :: files) ≫= cf_plugins) ((own :: files) ≫= cf_servers)
    (head (omap cf_api_http (own :: files))) (cf_base_dir own).

(** An entry as the runtime expects it: no [$] in front, no whitespace. *)
Definition entry_normal (s : string) : Prop :=
  trim_start_matches "$" s = s ∧ has_whitespace s = false.

Record config_normal `{Yaml} (cfg : Config) : Prop := mkConfigNormal {
  cn_servers : Forall (λ s, entry_normal (sc_exec s)) (cf_servers cfg);
  cn_plugins : Forall (λ p, is_server_plugin (pc_ty p) = false) (cf_plugins cfg);
}.

Section loading.
Context {Y : Yaml}.

Lemma trim_start_matches_idem c s :
  trim_start_matches c (trim_start_matches c s) = trim_start_matches c s.
Proof.
  induction s as [|a s IH]; simpl; [done|]. case_decide as Ha; [done|].
  simpl. by rewrite decide_False by done.
Qed.

Lemma normalize_entries_normal cfg cfg' :
  normalize_entries cfg = Ok cfg' →
  Forall (λ s, entry_normal (sc_exec s)) (cf_servers cfg') ∧ cf_plugins cfg' = cf_plugins cfg.
Proof.
  unfold normalize_entries. intros (servers & Hs & [= <-])%result_bind_Ok. simpl. split; [|done].
  apply result_mapM_Ok in Hs. induction Hs as [|s s' l l' Hs _ IH]; constructor; [|done].
  unfold normalize_server in Hs. destruct (_ || _) eqn:E; [done|]. injection Hs as <-. simpl.
  split; [apply trim_start_matches_idem|]. by apply orb_false_iff in E as [_ ?].
Qed.

Lemma lift_server_plugins_normal cfg cfg' :
  lift_server_plugins cfg = Ok cfg' →
  Forall (λ p, is_server_plugin (pc_ty p) = false) (cf_plugins cfg').
Proof.
  unfold lift_server_plugins. intros ([keep servers] & Hf & [= <-])%result_bind_Ok. simpl.
  change keep with (keep, servers).1. revert Hf.
  apply (result_foldM_inv _ (λ st, Forall (λ p, is_server_plugin (pc_ty p) = false) st.1));
    [constructor|].
  intros [k s] p [k' s'] Hk _. simpl in *. destruct (is_server_plugin (pc_ty p)) eqn:E.
  - intros (x & _ & [= <- <-])%result_bind_Ok. done.
  - intros [= <- <-]. apply Forall_app. auto.
Qed.

Context {E : ConfigEnv}.

Lemma config_from_yaml_normal text cfg : config_from_yaml text = Ok cfg → config_normal cfg.
Proof.
  unfold config_from_yaml. intros H. simp_res. apply normalize_entries_normal in H as [Hs Hp].
  split; [done|]. rewrite Hp. by eapply lift_server_plugins_normal.
Qed.

Lemma stamp_base_normal cfg : config_normal cfg → config_normal (stamp_base cfg).
Proof.
  intros [Hs Hp]. split; simpl; apply Forall_fmap.
  - eapply Forall_impl; [exact Hs|done].
  - eapply Forall_impl; [exact Hp|]. intros p ?. simpl. by case_decide.
Qed.

Lemma load_own_normal path own : load_own path = Ok own → config_normal own.
Proof.
  unfold load_own. intros H. simp_res. apply stamp_base_normal.
  match goal with H : config_from_yaml _ = Ok _ |- _ => apply config_from_yaml_normal in H as [] end.
  by split.
Qed.

(** The two relations, by induction on the files read. *)
Scheme loads_file_mind := Minimality for loads_file Sort Prop
  with loads_includes_mind := Minimality for loads_includes Sort Prop.
Combined Scheme loads_mind from loads_file_mind, loads_includes_mind.

Lemma loads_normal :
  (∀ stack path own files, loads_file stack path own files → Forall config_normal (own :: files))
  ∧ (∀ stack base rels files, loads_includes stack base rels files → Forall config_normal files).
Proof.
  apply loads_mind.
  - intros stack path canonical own files _ _ _ Hown _ IH. constructor; [by eapply load_own_normal|done].
  - constructor.
  - intros stack base rel rest own files files' _ IH _ IH'. by apply (Forall_app_2 _ (own :: files)).
Qed.

Lemma assembled_normal own files : Forall config_normal (own :: files) → config_normal (assembled own files).
Proof.
  intros Hn. split; cbn [assembled cf_servers cf_plugins]; apply Forall_bind;
    (eapply Forall_impl; [exact Hn|by intros c []]).
Qed.

Lemma assembled_alone own : assembled own [] = own.
Proof.
  destruct own as [? ? ? ? api ?]. unfold assembled. simpl. rewrite !app_nil_r.
  by destruct api.
Qed.

(** Merging what an include stands for appends its files. *)
Lemma merge_assembled own files own' files' :
  config_merge (assembled own' files') (assembled own files) = assembled own (files ++ own' :: files').
Proof.
  unfold config_merge, assembled. cbn [cf_log cf_include cf_plugins cf_servers cf_api_http cf_base_dir].
  change (own :: files ++ own' :: files') with ((own :: files) ++ own' :: files').
  rewrite !bind_app, omap_app, head_app. by destruct (head (omap _ (own :: files))).
Qed.

(** A file stands for one list of files at most. *)
Lemma loads_det :
  (∀ stack path own files, loads_file stack path own files →
     ∀ own' files', loads_file stack path own' files' → own' = own ∧ files' = files)
  ∧ (∀ stack base rels files, loads_includes stack base rels files →
     ∀ files', loads_includes stack base rels files' → files' = files).
Proof.
  apply loads_mind.
  - intros stack path canonical own files _ Hc _ Hown _ IH own' files' H. inversion H as [???? ? _ Hc' _ Hown' ?]; subst.
    rewrite Hc in Hc'. rewrite Hown in Hown'. simp_res. auto.
  - intros stack base files' H. by inversion H.
  - intros stack base rel rest own files files1 _ IH _ IH' files' H. inversion H as [|??????? Hf Hi]; subst.
    destruct (IH _ _ Hf) as [-> ->]. by rewrite (IH' _ Hi).
Qed.

(** [load] reads the files below [stack]: it returns what they amount to, and
    an error when there is no reading of them. *)
Definition loads_result (r : Res Config) (loads : Config → list Config → Prop) : Prop :=
  match r with
  | Ok cfg => ∃ own files, loads own files ∧ cfg = assembled own files
  | Err _ => ∀ own files, ¬ loads own files
  end.

Definition loader_spec (stack : list string) (load : string → option (Res Config)) : Prop :=
  ∀ path, ∃ r, load path = Some r ∧ loads_result r (loads_file stack path).

Lemma load_includes_spec stack load base rels own files :
  loader_spec stack load →
  ∃ r, load_includes load base rels (assembled own files) = Some r
    ∧ loads_result r (λ own' all, own' = own ∧ ∃ files', loads_includes stack base rels files' ∧ all = files ++ files').
Proof.
  intros Hload. revert files. induction rels as [|rel rest IH]; intros files; simpl.
  { eexists; split; [done|]. exists own, files. split; [|done]. split; [done|].
    exists []. rewrite app_nil_r. by split; [constructor|]. }
  destruct (Hload (resolve_path base rel)) as ([extra|e] & -> & Hr); simpl in Hr.
  - destruct Hr as (own1 & files1 & Hf & ->). rewrite merge_assembled.
    destruct (IH (files ++ own1 :: files1)) as (r & -> & Hrest). eexists; split; [done|].
    destruct r as [cfg|e]; simpl in *.
    + destruct Hrest as (? & ? & (-> & files2 & Hi & ->) & ->).
      eexists own, _. split; [|done]. split; [done|]. exists (own1 :: files1 ++ files2).
      split; [by constructor|]. by rewrite <- (assoc_L (++)).
    + intros ? ? (-> & ? & H & ->). inversion H as [|??????? Hf' Hi]; subst.
      destruct (proj1 loads_det _ _ _ _ Hf _ _ Hf') as [-> ->].
      eapply Hrest; split; [done|]. eexists; split; [exact Hi|done].
  - eexists; split; [done|]. intros ? ? (-> & ? & H & ->). inversion H; subst. by eapply Hr.
Qed.

Lemma load_with_stack_spec fuel stack :
  MAX_INCLUDE_DEPTH - length stack < fuel → loader_spec stack (load_with_stack fuel stack).
Proof.
  revert stack. induction fuel as [|fuel IH]; intros stack Hf path; [lia|]. cbn [load_with_stack].
  destruct (Nat.leb_spec MAX_INCLUDE_DEPTH (length stack)).
  { eexists; split; [done|]. intros ? ? Hl. inversion Hl. lia. }
  destruct (fs_canonicalize path) as [canonical|e] eqn:Hc; simpl.
  2:{ eexists; split; [done|]. intros ? ? Hl. inversion Hl. congruence. }
  case_decide as Hin; [eexists; split; [done|]; intros ? ? Hl; inversion Hl; congruence|].
  unfold load_contents. destruct (load_own path) as [own|e] eqn:Hown.
  2:{ eexists; split; [done|]. intros ? ? Hl. inversion Hl. congruence. }
  destruct (load_includes_spec (stack ++ [canonical]) (load_with_stack fuel (stack ++ [canonical]))
              (cf_base_dir own) (cf_include own) own []) as (r & Hr & Hres).
  { apply IH. rewrite length_app. simpl. lia. }
  rewrite assembled_alone in Hr. exists r. split; [done|]. destruct r as [cfg|e]; simpl in *.
  - destruct Hres as (? & ? & (-> & files & Hi & ->) & ->). eexists own, files.
    split; [by econstructor|done].
  - intros own' files Hl. inversion Hl as [???? ? _ Hc' _ Hown' ?]; subst.
    rewrite Hc in Hc'. rewrite Hown in Hown'. simp_res. eapply Hres; eauto.
Qed.

(** Loading always returns. *)
Lemma config_load_returns path : ∃ r, config_load_file path = Some r ∧ loads_result r (loads_file [] path).
Proof. apply load_with_stack_spec. unfold MAX_INCLUDE_DEPTH; simpl; lia. Qed.
End loading.

(** C36: loading a configuration file always returns, whatever its includes
    contain, and exactly when they can be read (no file includes itself, at any
    remove, and none is more than 64 deep) it returns a configuration: the
    plugins and the servers of the file followed by those of its includes, in
    the order they are named and each with its own includes before the next,
    the first API address given in that order, and the log of the file itself.
    No server plugin is left among the plugins of an accepted configuration and
    its server entries are normalised, those of included files too. *)
Theorem config_load_file_exact {Y : Yaml} {E : ConfigEnv} (path : string) :
  ∃ r, config_load_file path = Some r
    ∧ ∀ cfg, (r = Ok cfg ↔ ∃ own files, loads_file [] path own files ∧ cfg = assembled own files)
             ∧ (r = Ok cfg → config_normal cfg).
Proof.
  destruct (config_load_returns path) as (r & -> & Hr). exists r. split; [done|]. intros cfg. split; [split|].
  - intros ->. destruct Hr as (own & files & ? & ->). eauto.
  - intros (own & files & Hl & ->). destruct r as [cfg|e]; [|by apply Hr in Hl].
    destruct Hr as (own' & files' & Hl' & ->). by destruct (proj1 loads_det _ _ _ _ Hl _ _ Hl') as [-> ->].
  - intros ->. destruct Hr as (own & files & Hl & ->). apply assembled_normal. by apply loads_normal in Hl.
Qed.

(** A file system of one rule file, for the witnesses. *)
Definition demo_file : string := "# ads" +:+ String (ascii_of_nat 10) ("domain:Ads.example" +:+ String (ascii_of_nat 10) "").
#[export] Instance DemoEnv : ConfigEnv := {|
  yaml_config _ := Err "not a mapping";
  fs_read_to_string p := if decide (p = "/etc/ads.txt") then Ok demo_file else Err "No such file or directory";
  fs_canonicalize p := Ok p;
|}.

(** A configuration of four files, one of which is included by an include, and
    a file that includes itself. *)
Definition IncludeEnv : ConfigEnv :=
  let file (includes : list string) (ty : string) (api : option string) :=
    mkConfig default_log includes
      [mkPluginConfig None ty (DMap []) ""; mkPluginConfig None "udp_server" (DMap [(DStr "entry", DStr ("$" +:+ ty))]) ""]
      [] api "" in
  {| yaml_config text :=
       if decide (text = "main") then Ok (file ["a.yaml"; "b.yaml"] "main" None)
       else if decide (text = "a") then Ok (file ["sub/c.yaml"] "a" None)
       else if decide (text = "b") then Ok (file [] "b" (Some "[::1]:80"))
       else if decide (text = "c") then Ok (file [] "c" (Some "[::1]:90"))
       else if decide (text = "loop") then Ok (file ["./loop.yaml"] "loop" None)
       else Err "not a mapping";
     fs_read_to_string path :=
       if decide (path = "/etc/main.yaml") then Ok "main"
       else if decide (path = "/etc/a.yaml") then Ok "a"
       else if decide (path = "/etc/b.yaml") then Ok "b"
       else if decide (path = "/etc/sub/c.yaml") then Ok "c"
       else if decide (path ∈ ["/etc/loop.yaml"; "/etc/./loop.yaml"]) then Ok "loop"
       else Err "No such file or directory";
     fs_canonicalize path := Ok (if decide (path = "/etc/./loop.yaml") then "/etc/loop.yaml" else path) |}.

Example includes_in_order :
  match @config_load_file _ IncludeEnv "/etc/main.yaml" with
  | Some (Ok cfg) =>
      (pc_ty <$> cf_plugins cfg) = ["main"; "a"; "c"; "b"]
      ∧ (pc_base_dir <$> cf_plugins cfg) = ["/etc"; "/etc"; "/etc/sub"; "/etc"]
      ∧ (sc_exec <$> cf_servers cfg) = ["main"; "a"; "c"; "b"]
      ∧ cf_api_http cfg = Some "[::1]:90"
  | _ => False
  end.
Proof. vm_compute. auto. Qed.

Example include_cycle :
  @config_load_file _ IncludeEnv "/etc/loop.yaml"
  = Some (Err (ErrConfig "include cycle: /etc/loop.yaml -> /etc/loop.yaml")).
Proof. vm_compute. reflexivity. Qed.
