(* ===== verification/DomainSet.v ===== *)
(** * [matcher.rs]: domain sets

    A [DomainSet] holds full names, keywords, regular expressions and a tree of
    reversed labels.  The children of a tree node (a [HashMap]) are an
    association list with distinct keys.  [contains] is proved equivalent to a
    test of the rules one by one. *)
From S2P Require Import Prelude RustStr RustNet Error External Config.

(** ** The label tree *)

(** @src src/src/matcher.rs 26-30 SuffixNode *)
Inductive SuffixNode : Type :=
| SNode (children : list (string * SuffixNode)) (terminal : bool).

Definition sn_children (n : SuffixNode) := let 'SNode c _ := n in c.
Definition sn_terminal (n : SuffixNode) := let 'SNode _ t := n in t.
Definition sn_default : SuffixNode := SNode [] false.

Fixpoint assoc_get {A} (k : string) (l : list (string * A)) : option A :=
  match l with
  | [] => None
  | (k', a) :: l' => if decide (k = k') then Some a else assoc_get k l'
  end.
Fixpoint assoc_set {A} (k : string) (a : A) (l : list (string * A)) : list (string * A) :=
  match l with
  | [] => [(k, a)]
  | (k', a') :: l' => if decide (k = k') then (k, a) :: l' else (k', a') :: assoc_set k a l'
  end.

(** The walk of [insert_suffix], creating the nodes on the way.
    @src src/src/matcher.rs 91-98 insert_suffix *)
Fixpoint insert_labels (labels : list string) (node : SuffixNode) : SuffixNode :=
  match labels with
  | [] => SNode (sn_children node) true
  | lab :: rest =>
      let child := default sn_default (assoc_get lab (sn_children node)) in
      SNode (assoc_set lab (insert_labels rest child) (sn_children node)) (sn_terminal node)
  end.

(** The walk of [suffix_match].
    @src src/src/matcher.rs 121-136 suffix_match *)
Fixpoint match_labels (labels : list string) (node : SuffixNode) : bool :=
  match labels with
  | [] => sn_terminal node
  | lab :: rest =>
      match assoc_get lab (sn_children node) with
      | Some next => if sn_terminal next then true else match_labels rest next
      | None => false
      end
  end.

(** @src src/src/matcher.rs 143-149 count_terminals *)
Fixpoint count_terminals (n : SuffixNode) : nat :=
  let 'SNode children terminal := n in
  let c := if terminal then 1 else 0 in
  c + (fix go children :=
         match children with
         | [] => 0
         | (_, child) :: rest => count_terminals child + go rest
         end) children.

(** @src src/src/matcher.rs 151-156 normalize_domain *)
Definition normalize_domain (s : string) : string :=
  to_ascii_lowercase (trim_start_matches "." (trim_end_matches "." (trim s))).

(** [domain.split('.').rev().filter(|s| !s.is_empty())]. *)
Definition rev_labels (domain : string) : list string :=
  filter (λ l, l ≠ "") (rev (split_on "." domain)).

(** ** Sets and rules *)
Section domain_set.
Context {Rx : RegexLib}.

(** @src src/src/matcher.rs 14-24 DomainSet *)
Record DomainSet : Type := mkDomainSet {
  ds_suffix : SuffixNode;
  ds_full : gset string;
  ds_keywords : list string;
  ds_regexes : list Regex;
}.

(** @src src/src/matcher.rs 33-35 DomainSet::new *)
Definition domain_set_new : DomainSet := mkDomainSet sn_default ∅ [] [].

(** @src src/src/matcher.rs 91-98 insert_suffix *)
Definition insert_suffix (domain : string) (s : DomainSet) : DomainSet :=
  mkDomainSet (insert_labels (rev_labels domain) (ds_suffix s)) (ds_full s) (ds_keywords s) (ds_regexes s).

(** @src src/src/matcher.rs 69-89 DomainSet::add_rule *)
Definition add_rule (s : DomainSet) (raw : string) : Res DomainSet :=
  let raw := trim raw in
  if bool_decide (raw = "") || starts_with "#" raw then Ok s
  else match strip_prefix "full:" raw with
  | Some rest => Ok (mkDomainSet (ds_suffix s) ({[normalize_domain rest]} ∪ ds_full s) (ds_keywords s) (ds_regexes s))
  | None =>
  match strip_prefix "keyword:" raw with
  | Some rest => Ok (mkDomainSet (ds_suffix s) (ds_full s) (ds_keywords s ++ [to_ascii_lowercase rest]) (ds_regexes s))
  | None =>
  match strip_prefix "regexp:" raw with
  | Some rest =>
      let? re := map_err (λ e, ErrConfig ("bad regexp `" +:+ rest +:+ "`: " +:+ e)) (regex_new rest) in
      Ok (mkDomainSet (ds_suffix s) (ds_full s) (ds_keywords s) (ds_regexes s ++ [re]))
  | None =>
  match strip_prefix "domain:" raw with
  | Some rest => Ok (insert_suffix (normalize_domain rest) s)
  | None => Ok (insert_suffix (normalize_domain raw) s)
  end end end end.

(** @src src/src/matcher.rs 121-136 suffix_match *)
Definition suffix_match (domain : string) (s : DomainSet) : bool :=
  match_labels (rev_labels domain) (ds_suffix s).

(** @src src/src/matcher.rs 100-119 DomainSet::contains *)
Definition domain_set_contains (domain : string) (s : DomainSet) : bool :=
  let d := normalize_domain domain in
  if bool_decide (d ∈ ds_full s) then true
  else if suffix_match d s then true
  else if existsb (λ kw, str_contains kw d) (ds_keywords s) then true
  else existsb (λ re, regex_is_match re d) (ds_regexes s).

(** @src src/src/matcher.rs 138-140 DomainSet::len *)
Definition domain_set_len (s : DomainSet) : nat :=
  size (ds_full s) + length (ds_keywords s) + length (ds_regexes s) + count_terminals (ds_suffix s).

Context {Y : Yaml} {E : ConfigEnv}.

(** The lines of a rule file that [load_file] keeps. *)
Definition rule_lines (text : string) : list string :=
  filter (λ l, ¬ (l = "" ∨ starts_with "#" l)) (trim <$> str_lines text).

(** @src src/src/matcher.rs 56-67 DomainSet::load_file *)
Definition domain_set_load_file (s : DomainSet) (path : string) : Res DomainSet :=
  let? text := map_err (λ e, ErrConfig ("domain_set file " +:+ path +:+ ": " +:+ e)) (fs_read_to_string path) in
  result_foldM add_rule s (rule_lines text).

(** The string items of an optional list argument. *)
Definition yget_strings (key : string) (args : YValue) : list string :=
  match yget_as y_as_sequence key args with
  | Some l => omap y_as_str l
  | None => []
  end.

(** @src src/src/matcher.rs 37-54 DomainSet::from_args *)
Definition domain_set_from_args (args : YValue) (base : string) : Res DomainSet :=
  let set := domain_set_new in
  let? set := result_foldM add_rule set (yget_strings "exps" args) in
  result_foldM (λ set p, domain_set_load_file set (resolve_path base p)) set (yget_strings "files" args).

(** @src src/src/plugin/sets.rs 8-10 domain_set *)
Definition domain_set (args : YValue) (base : string) : Res DomainSet := domain_set_from_args args base.

(** ** Specification: one rule at a time *)

(** What a rule says about a normalised domain.  A suffix rule matches the
    domains below it and itself; the rule [.] (no labels) matches only the root. *)
Definition suffix_rule_matches (rule d : string) : bool :=
  let ls := rev_labels (normalize_domain rule) in
  bool_decide (ls `prefix_of` rev_labels d)
  && (negb (bool_decide (ls = [])) || bool_decide (rev_labels d = [])).

Definition rule_matches (raw d : string) : bool :=
  let raw := trim raw in
  if bool_decide (raw = "") || starts_with "#" raw then false
  else match strip_prefix "full:" raw with
  | Some rest => bool_decide (d = normalize_domain rest)
  | None =>
  match strip_prefix "keyword:" raw with
  | Some rest => str_contains (to_ascii_lowercase rest) d
  | None =>
  match strip_prefix "regexp:" raw with
  | Some rest => match regex_new rest with Ok re => regex_is_match re d | Err _ => false end
  | None => suffix_rule_matches (default raw (strip_prefix "domain:" raw)) d
  end end end.

End domain_set.

(** ** The tree as a set of label paths *)

(** The label paths from a node to its terminals. *)
Fixpoint terminals (n : SuffixNode) : list (list string) :=
  let 'SNode children terminal := n in
  (if terminal then [[]] else [])
  ++ (fix go children :=
        match children with
        | [] => []
        | (lab, child) :: rest => (cons lab <$> terminals child) ++ go rest
        end) children.

Fixpoint child_terminals (children : list (string * SuffixNode)) : list (list string) :=
  match children with
  | [] => []
  | (lab, child) :: rest => (cons lab <$> terminals child) ++ child_terminals rest
  end.

(** Keys are distinct at every node. *)
Fixpoint sn_wf (n : SuffixNode) : Prop :=
  let 'SNode children _ := n in
  NoDup (fst <$> children)
  ∧ (fix go children :=
       match children with
       | [] => True
       | (_, child) :: rest => sn_wf child ∧ go rest
       end) children.

Lemma terminals_eq n :
  terminals n = (if sn_terminal n then [[]] else []) ++ child_terminals (sn_children n).
Proof. by destruct n. Qed.

Lemma sn_wf_eq n :
  sn_wf n ↔ NoDup (fst <$> sn_children n) ∧ Forall (λ p, sn_wf p.2) (sn_children n).
Proof.
  destruct n as [children t]. simpl. apply and_iff_compat_l.
  induction children as [|[k c] l IH]; simpl; [by split|]. by rewrite Forall_cons, IH.
Qed.

Lemma SuffixNode_ind' (P : SuffixNode → Prop) :
  (∀ children t, Forall (λ p, P p.2) children → P (SNode children t)) → ∀ n, P n.
Proof.
  intros HP. fix IH 1. intros [children t]. apply HP.
  induction children as [|[k c] l IHl]; constructor; [apply IH|exact IHl].
Qed.

Lemma count_terminals_length n : count_terminals n = length (terminals n).
Proof.
  induction n as [children t IH] using SuffixNode_ind'. rewrite terminals_eq. simpl.
  rewrite length_app. f_equal; [by destruct t|].
  induction IH as [|[k c] l Hc _ IHl]; simpl in *; [done|].
  by rewrite length_app, length_fmap, Hc, IHl.
Qed.

(** Association lists. *)
Lemma assoc_get_set {A} k k' (a : A) l :
  assoc_get k' (assoc_set k a l) = if decide (k' = k) then Some a else assoc_get k' l.
Proof.
  induction l as [|[x b] l IH]; simpl; [done|].
  repeat (case_decide; simplify_eq/=); try done; try congruence; by rewrite ?IH, ?decide_True, ?decide_False.
Qed.

Lemma assoc_set_keys {A} k k' (a : A) l : k' ∈ (assoc_set k a l).*1 ↔ k' = k ∨ k' ∈ l.*1.
Proof.
  induction l as [|[x b] l IH]; simpl; [set_solver|]. case_decide; simplify_eq/=; set_solver.
Qed.

Lemma assoc_set_NoDup {A} k (a : A) l : NoDup l.*1 → NoDup (assoc_set k a l).*1.
Proof.
  induction l as [|[x b] l IH]; simpl; [intros; apply NoDup_singleton|].
  intros [Hx Hl]%NoDup_cons. case_decide; simplify_eq/=; constructor; try done.
  - rewrite assoc_set_keys. naive_solver.
  - auto.
Qed.

Lemma assoc_get_elem {A} k (a : A) l : assoc_get k l = Some a → (k, a) ∈ l.
Proof. induction l as [|[x b] l IH]; simpl; [done|]. case_decide; set_solver. Qed.

Lemma assoc_get_None {A} k (l : list (string * A)) : assoc_get k l = None ↔ k ∉ l.*1.
Proof. induction l as [|[x b] l IH]; simpl; [set_solver|]. case_decide; set_solver. Qed.

Lemma assoc_set_Forall {A} (P : A → Prop) k a l :
  P a → Forall (λ p, P p.2) l → Forall (λ p, P p.2) (assoc_set k a l).
Proof.
  intros Ha. induction 1 as [|[x b] l Hb Hl IH]; simpl; [by repeat constructor|].
  case_decide; by constructor.
Qed.

Lemma child_terminals_elem p children :
  p ∈ child_terminals children ↔ ∃ lab child rest, (lab, child) ∈ children ∧ p = lab :: rest ∧ rest ∈ terminals child.
Proof.
  induction children as [|[k c] l IH]; simpl; [set_solver|].
  rewrite elem_of_app, list_elem_of_fmap, IH. split.
  - intros [(r & -> & Hr)|(lab & child & rest & Hin & -> & Hr)]; [by exists k, c, r; set_solver|].
    exists lab, child, rest. set_solver.
  - intros (lab & child & rest & [[= -> ->]|Hin]%elem_of_cons & -> & Hr); [left; eauto|right; eauto 6].
Qed.

(** With distinct keys, a path goes through the child its first label names. *)
Lemma terminals_nil n : [] ∈ terminals n ↔ sn_terminal n = true.
Proof.
  rewrite terminals_eq, elem_of_app, child_terminals_elem. destruct (sn_terminal n); set_solver.
Qed.

Lemma assoc_get_NoDup {A} k (a : A) l : NoDup l.*1 → (k, a) ∈ l → assoc_get k l = Some a.
Proof.
  induction l as [|[x b] l IH]; simpl; [set_solver|].
  intros [Hx Hl]%NoDup_cons [[= -> ->]|Hin]%elem_of_cons; [by rewrite decide_True|].
  rewrite decide_False; [auto|]. intros ->. apply Hx. apply list_elem_of_fmap. by exists (x, a).
Qed.

Lemma terminals_cons lab rest n :
  sn_wf n →
  lab :: rest ∈ terminals n ↔ ∃ child, assoc_get lab (sn_children n) = Some child ∧ rest ∈ terminals child.
Proof.
  intros [Hnd _]%sn_wf_eq. rewrite terminals_eq, elem_of_app, child_terminals_elem. split.
  - intros [Hin|(lab' & child & rest' & Hin & [= -> ->] & Hr)]; [destruct (sn_terminal n); set_solver|].
    exists child. split; [by apply assoc_get_NoDup|done].
  - intros (child & Hget & Hr). right. exists lab, child, rest. apply assoc_get_elem in Hget. done.
Qed.

Lemma sn_wf_child n lab child : sn_wf n → assoc_get lab (sn_children n) = Some child → sn_wf child.
Proof.
  intros [_ Hf]%sn_wf_eq Hget%assoc_get_elem. rewrite Forall_forall in Hf. exact (Hf _ Hget).
Qed.

Lemma sn_default_wf : sn_wf sn_default.
Proof. apply sn_wf_eq. split; constructor. Qed.

Lemma child_or_default_wf n lab :
  sn_wf n → sn_wf (default sn_default (assoc_get lab (sn_children n))).
Proof.
  intros Hn. destruct (assoc_get lab (sn_children n)) eqn:E; [by apply (sn_wf_child n lab)|].
  apply sn_default_wf.
Qed.

Lemma insert_labels_wf labels n : sn_wf n → sn_wf (insert_labels labels n).
Proof.
  revert n. induction labels as [|lab rest IH]; intros n Hn; apply sn_wf_eq;
    pose proof (proj1 (sn_wf_eq n) Hn) as [Hnd Hf]; cbn [insert_labels sn_children]; [done|].
  split; [by apply assoc_set_NoDup|]. apply (assoc_set_Forall sn_wf); [|done].
  by apply IH, child_or_default_wf.
Qed.

(** Inserting a path adds it to the set and changes nothing else. *)
Lemma insert_labels_terminals labels n p :
  sn_wf n → p ∈ terminals (insert_labels labels n) ↔ p = labels ∨ p ∈ terminals n.
Proof.
  revert n p. induction labels as [|lab rest IH]; intros n p Hn.
  - destruct p as [|l p]; [rewrite !terminals_nil; simpl; tauto|].
    rewrite !terminals_cons by (done || by apply (insert_labels_wf [])).
    simpl. set_solver.
  - pose proof (insert_labels_wf (lab :: rest) n Hn) as Hn'.
    destruct p as [|l p]; [rewrite !terminals_nil; simpl; naive_solver|].
    rewrite !terminals_cons by done. simpl. setoid_rewrite assoc_get_set.
    destruct (decide (l = lab)) as [->|Hne]; [|naive_solver].
    set (child := default sn_default (assoc_get lab (sn_children n))).
    assert (Hc : sn_wf child) by by apply child_or_default_wf.
    split.
    + intros (x & [= <-] & [->|Hp]%IH); [by left| |done]. right. unfold child in Hp.
      destruct (assoc_get lab (sn_children n)) as [c|]; simpl in Hp; [eauto|set_solver].
    + intros [[= ->]|(c & Hget & Hp)]; eexists; (split; [done|]); apply IH; try done; [by left|].
      right. unfold child. by rewrite Hget.
Qed.

(** The walk finds a terminal on the path of the labels; the root counts only
    for the empty list. *)
Lemma match_labels_spec labels n :
  sn_wf n →
  match_labels labels n = true ↔
  ∃ p, p ∈ terminals n ∧ p `prefix_of` labels ∧ (p ≠ [] ∨ labels = []).
Proof.
  revert n. induction labels as [|lab rest IH]; intros n Hn; cbn [match_labels].
  - rewrite <- terminals_nil. split; [intros; exists []; naive_solver|].
    by intros (p & Hp & ->%prefix_nil_inv & _).
  - split.
    + destruct (assoc_get lab (sn_children n)) as [next|] eqn:E; [|done].
      destruct (sn_terminal next) eqn:Et; [intros _|].
      * exists [lab]. split; [|split; [by apply prefix_cons, prefix_nil|by left]].
        apply terminals_cons; [done|]. exists next. by rewrite terminals_nil.
      * rewrite IH by (by apply (sn_wf_child n lab)). intros (p & Hp & Hpre & Hor). exists (lab :: p).
        split; [apply terminals_cons; eauto|]. split; [by apply prefix_cons|by left].
    + intros ([|l p] & Hp & Hpre & [Hn'|Hn']); try done.
      apply prefix_cons_inv_1 in Hpre as Hl. apply prefix_cons_inv_2 in Hpre. subst l.
      apply terminals_cons in Hp as (next & Hget & Hp); [|done]. rewrite Hget.
      destruct (sn_terminal next) eqn:Et; [done|]. apply IH; [by apply (sn_wf_child n lab)|].
      exists p. split; [done|]. split; [done|]. left. intros ->. by apply terminals_nil in Hp; congruence.
Qed.

(** ** The set and its rules *)
Section rules.
Context {Rx : RegexLib}.

Definition ds_wf (s : DomainSet) : Prop := sn_wf (ds_suffix s).

Lemma if_true_orb (b x : bool) : (if b then true else x) = b || x.
Proof. by destruct b. Qed.

(** The test of a set, on a domain already normalised. *)
Definition matches_normal (d : string) (s : DomainSet) : bool :=
  bool_decide (d ∈ ds_full s) || suffix_match d s
  || existsb (λ kw, str_contains kw d) (ds_keywords s)
  || existsb (λ re, regex_is_match re d) (ds_regexes s).

Lemma domain_set_contains_normal domain s :
  domain_set_contains domain s = matches_normal (normalize_domain domain) s.
Proof.
  unfold domain_set_contains, matches_normal. rewrite !if_true_orb. by rewrite !orb_assoc.
Qed.

Lemma suffix_match_insert rule d s :
  ds_wf s →
  suffix_match d (insert_suffix (normalize_domain rule) s) = suffix_match d s || suffix_rule_matches rule d.
Proof.
  intros Hw. unfold suffix_match, suffix_rule_matches, insert_suffix. simpl.
  set (ls := rev_labels (normalize_domain rule)). set (ds := rev_labels d).
  apply eq_bool_prop_intro. rewrite !Is_true_true, orb_true_iff, andb_true_iff, orb_true_iff.
  rewrite negb_true_iff, bool_decide_eq_false, !bool_decide_eq_true.
  rewrite !match_labels_spec by (try apply insert_labels_wf; exact Hw).
  setoid_rewrite insert_labels_terminals; [|exact Hw]. naive_solver.
Qed.

Lemma orb_shuffle a b c d x :
  ((((a || x) || b) || c) || d = (((a || b) || c) || d) || x)
  ∧ (((a || (b || x)) || c) || d = (((a || b) || c) || d) || x)
  ∧ (((a || b) || (c || x)) || d = (((a || b) || c) || d) || x)
  ∧ (((a || b) || c) || (d || x) = (((a || b) || c) || d) || x).
Proof. by destruct a, b, c, d, x. Qed.

(** One rule adds exactly what it matches. *)
Lemma add_rule_spec s raw s' :
  ds_wf s → add_rule s raw = Ok s' →
  ds_wf s' ∧ ∀ d, matches_normal d s' = matches_normal d s || rule_matches raw d.
Proof.
  intros Hw. unfold add_rule, rule_matches. set (r := trim raw).
  destruct (bool_decide (r = "") || starts_with "#" r).
  { intros [= <-]. split; [done|]. intros d. by rewrite orb_false_r. }
  destruct (strip_prefix "full:" r) as [rest|].
  { intros [= <-]. split; [done|]. intros d. unfold matches_normal, suffix_match. simpl.
    assert (E : bool_decide (d ∈ {[normalize_domain rest]} ∪ ds_full s)
                = bool_decide (d ∈ ds_full s) || bool_decide (d = normalize_domain rest)).
    { apply eq_bool_prop_intro. rewrite orb_True, !bool_decide_spec. set_solver. }
    rewrite E. apply orb_shuffle. }
  destruct (strip_prefix "keyword:" r) as [rest|].
  { intros [= <-]. split; [done|]. intros d. unfold matches_normal, suffix_match. simpl.
    rewrite existsb_app. simpl. rewrite orb_false_r. apply orb_shuffle. }
  destruct (strip_prefix "regexp:" r) as [rest|].
  { destruct (regex_new rest) as [re|e]; [|done]. intros [= <-]. split; [done|].
    intros d. unfold matches_normal, suffix_match. simpl.
    rewrite existsb_app. simpl. rewrite orb_false_r. apply orb_shuffle. }
  destruct (strip_prefix "domain:" r) as [rest|]; intros [= <-];
    (split; [by apply insert_labels_wf|]); intros d; unfold matches_normal; simpl;
    rewrite suffix_match_insert by done; apply orb_shuffle.
Qed.

Lemma add_rules_spec raws s s' :
  ds_wf s → result_foldM add_rule s raws = Ok s' →
  ds_wf s' ∧ ∀ d, matches_normal d s' = matches_normal d s || existsb (λ raw, rule_matches raw d) raws.
Proof.
  revert s. induction raws as [|raw raws IH]; intros s Hw; simpl.
  - intros [= <-]. split; [done|]. intros d. by rewrite orb_false_r.
  - intros (s1 & H1 & H2)%result_bind_Ok. apply add_rule_spec in H1 as [Hw1 H1]; [|done].
    apply IH in H2 as [Hw2 H2]; [|done]. split; [done|]. intros d. by rewrite H2, H1, orb_assoc.
Qed.

Lemma domain_set_new_wf : ds_wf domain_set_new.
Proof. apply sn_default_wf. Qed.

Lemma matches_new d : matches_normal d domain_set_new = false.
Proof.
  unfold matches_normal, suffix_match. simpl. rewrite bool_decide_eq_false_2 by set_solver.
  by destruct (rev_labels d).
Qed.

Context {Y : Yaml} {E : ConfigEnv}.

(** The rules a configured set is built from: [exps], then each file's lines. *)
Definition configured_rules (args : YValue) (base : string) : list string :=
  yget_strings "exps" args
  ++ (yget_strings "files" args ≫= λ p,
        match fs_read_to_string (resolve_path base p) with Ok text => rule_lines text | Err _ => [] end).

Lemma load_files_spec base files s s' :
  ds_wf s → result_foldM (λ set p, domain_set_load_file set (resolve_path base p)) s files = Ok s' →
  ds_wf s' ∧ ∀ d, matches_normal d s' = matches_normal d s
    || existsb (λ raw, rule_matches raw d)
         (files ≫= λ p, match fs_read_to_string (resolve_path base p) with
                         | Ok text => rule_lines text | Err _ => [] end).
Proof.
  revert s. induction files as [|f files IH]; intros s Hw; cbn [result_foldM mbind list_bind existsb].
  - intros [= <-]. split; [done|]. intros d. by rewrite orb_false_r.
  - intros (s1 & H1 & H2)%result_bind_Ok. unfold domain_set_load_file in H1.
    apply result_bind_Ok in H1 as (text & Ht & H1).
    destruct (fs_read_to_string (resolve_path base f)) as [t|e]; simpl in Ht; [|done].
    injection Ht as ->. apply add_rules_spec in H1 as [Hw1 H1]; [|done].
    apply IH in H2 as [Hw2 H2]; [|done]. split; [done|]. intros d.
    by rewrite H2, H1, existsb_app, orb_assoc.
Qed.
End rules.


