(* ===== verification/Matcher.v ===== *)
(** * [matcher.rs]: address sets and the matchers of a sequence step

    Nothing writes to a set after the runtime is built, so a matcher holds the
    set itself where the code holds a lock around it. *)
From S2P Require Import Prelude RustStr RustNet Error Hickory HickoryDemo External PublicIp.
From S2P Require Import DnsUtil Context Config DomainSet.

Section ip_set.
Context {N : IpNetLib}.

(** @src src/src/matcher.rs 158-162 IpSet *)
Record IpSet : Type := mkIpSet { is_nets : list IpNet }.

(** @src src/src/matcher.rs 197-209 IpSet::add *)
Definition ip_set_add (s : IpSet) (raw : string) : Res IpSet :=
  let raw := trim raw in
  let? net :=
    if str_contains "/" raw then
      map_err (λ e, ErrConfig ("bad cidr `" +:+ raw +:+ "`: " +:+ e)) (ipnet_from_str raw)
    else
      let? ip := ok_or (parse_ip_addr raw) (ErrConfig ("bad ip `" +:+ raw +:+ "`: " +:+ ip_parse_error)) in
      Ok (ipnet_from_ip ip) in
  Ok (mkIpSet (is_nets s ++ [net])).

(** @src src/src/matcher.rs 211-213 IpSet::contains *)
Definition ip_set_contains (ip : IpAddr) (s : IpSet) : bool :=
  existsb (λ n, ipnet_contains n ip) (is_nets s).

(** @src src/src/matcher.rs 215-217 IpSet::len *)
Definition ip_set_len (s : IpSet) : nat := length (is_nets s).

Context {Y : Yaml} {E : ConfigEnv}.

(** @src src/src/matcher.rs 184-195 IpSet::load_file *)
Definition ip_set_load_file (s : IpSet) (path : string) : Res IpSet :=
  let? text := map_err (λ e, ErrConfig ("ip_set file " +:+ path +:+ ": " +:+ e)) (fs_read_to_string path) in
  result_foldM ip_set_add s (rule_lines text).

(** @src src/src/matcher.rs 165-182 IpSet::from_args *)
Definition ip_set_from_args (args : YValue) (base : string) : Res IpSet :=
  let set := mkIpSet [] in
  let? set := result_foldM ip_set_add set (yget_strings "exps" args) in
  result_foldM (λ set p, ip_set_load_file set (resolve_path base p)) set (yget_strings "files" args).

(** @src src/src/plugin/sets.rs 12-14 ip_set *)
Definition ip_set (args : YValue) (base : string) : Res IpSet := ip_set_from_args args base.
End ip_set.

Section matcher.
Context {H : Hickory} {N : IpNetLib} {Rx : RegexLib}.

(** @src src/src/matcher.rs 220-231 Matcher *)
Inductive Matcher : Type :=
| MQname (set : DomainSet)
| MQtype (types : list RecordType)
| MClientIp (set : IpSet)
| MRespIp (set : IpSet)
| MHasResp
| MHasWantedAns
| MRcode (code : Z)
| MMark (m : Z)
| MHasEcs
| MNeg (inner : Matcher).

(** @src src/src/matcher.rs 234-259 Matcher::matches *)
Fixpoint matches (m : Matcher) (ctx : QueryContext) : bool :=
  match m with
  | MQname set => domain_set_contains (qname_str ctx) set
  | MQtype types => bool_decide (qtype ctx ∈ types)
  | MClientIp set => match client_addr ctx with Some ip => ip_set_contains ip set | None => false end
  | MRespIp set => existsb (λ ip, ip_set_contains ip set) (answer_ips ctx)
  | MHasResp => has_resp ctx
  | MHasWantedAns => has_wanted_ans ctx
  | MRcode code => match c_response ctx with
                   | Some r => (rcode_to_u16 (response_code r) =? code)%Z
                   | None => false
                   end
  | MMark n => has_mark n ctx
  | MHasEcs => bool_decide (is_Some (ecs_of (c_query ctx)))
  | MNeg inner => negb (matches inner ctx)
  end.
End matcher.
