(* ===== verification/Upstream.v ===== *)
(** * [upstream.rs], first half: what an upstream is

    The specification of an upstream server, the parsing of its address and
    the value [Upstream::connect] builds.  The exchange of messages with it is
    the subject of [Exchange]. *)
From S2P Require Import Prelude RustStr RustNet Error External.

(** @src src/src/upstream.rs 19-19 POOL_CAP *)
Definition POOL_CAP : nat := 8.

(** @src src/src/upstream.rs 22-30 UpstreamSpec *)
Record UpstreamSpec : Type := mkUpstreamSpec {
  us_addr : string;
  us_dial_addr : option string;
  us_bootstrap : option string;
  us_idle_timeout : Z;
  us_insecure : bool;
  us_tag : option string;
}.

(** Durations are in nanoseconds. *)
Definition secs (n : Z) : Z := (n * 1000000000)%Z.
Definition millis (n : Z) : Z := (n * 1000000)%Z.

(** [args.get(a).or_else(|| args.get(b))]. *)
Definition yget_or `{Yaml} (a b : string) (v : YValue) : option YValue :=
  match yget a v with Some x => Some x | None => yget b v end.

(** @src src/src/upstream.rs 33-69 UpstreamSpec::from_value *)
Definition upstream_spec_from_value `{Yaml} (v : YValue) : Res UpstreamSpec :=
  match y_as_str v with
  | Some s => Ok (mkUpstreamSpec s None None (secs 10) false None)
  | None =>
      let? addr := ok_or (yget_as y_as_str "addr" v) (ErrConfig "upstream missing addr") in
      Ok (mkUpstreamSpec addr
            (yget_as y_as_str "dial_addr" v)
            (yget_as y_as_str "bootstrap" v)
            (secs (default 10%Z (yget_as y_as_u64 "idle_timeout" v)))
            (default false (yget_or "insecure_skip_verify" "insecure" v ≫= y_as_bool))
            (yget_as y_as_str "tag" v))
  end.

(** ** Addresses *)

(** [s.split(c).next().unwrap_or(s)]. *)
Definition first_part (c : ascii) (s : string) : string := default s (head (split_on c s)).
#[global] Arguments first_part _%_char _ : assert.

(** [n.to_string()] of a port. *)
Definition is_u16 (s : string) : bool := bool_decide (is_Some (parse_uint u16_max s)).

(** @src src/src/upstream.rs 480-486 split_scheme *)
Definition split_scheme (addr : string) : string * string :=
  match split_once_str "://" addr with Some (scheme, rest) => (scheme, rest) | None => ("", addr) end.

(** @src src/src/upstream.rs 488-503 host_of *)
Definition host_of (rest : string) : string :=
  let rest := first_part "/" rest in
  match strip_prefix "[" rest with
  | Some inner => first_part "]" inner
  | None =>
      if bool_decide (is_Some (parse_ipv6 rest)) then rest
      else match rsplit_once ":" rest with
           | Some (h, p) => if is_u16 p then h else rest
           | None => rest
           end
  end.

(** @src src/src/upstream.rs 505-521 port_of *)
Definition port_of (hostport : string) (dflt : Z) : Z :=
  let rest := first_part "/" hostport in
  match strip_prefix "[" rest with
  | Some inner =>
      default dflt
        (s ← split_on "]" inner !! 1%nat; p ← strip_prefix ":" s; parse_uint u16_max p)
  | None =>
      if bool_decide (is_Some (parse_ipv6 rest)) then dflt
      else default dflt ('(_, p) ← rsplit_once ":" rest; parse_uint u16_max p)
  end.

(** [s.chars().filter(|x| *x == c).count()]. *)
Definition count_char (c : ascii) (s : string) : nat := pred (length (split_on c s)).
#[global] Arguments count_char _%_char _ : assert.

(** @src src/src/upstream.rs 523-538 normalize_hostport *)
Definition normalize_hostport (rest : string) (default_port : Z) : string :=
  let rest := first_part "/" rest in
  if starts_with "[" rest then
    if str_contains "]:" rest then rest else rest +:+ ":" +:+ show_Z default_port
  else if bool_decide (is_Some (parse_ipv6 rest)) then
    "[" +:+ rest +:+ "]:" +:+ show_Z default_port
  else if Nat.eqb (count_char ":" rest) 1 then rest
  else rest +:+ ":" +:+ show_Z default_port.

(** @src src/src/upstream.rs 540-547 url_host_port *)
Definition url_host_port (url : string) (default_port : Z) : Res (string * Z) :=
  let rest := match split_once_str "://" url with
              | Some (_, r) => match split_once_str "://" r with Some (m, _) => m | None => r end
              | None => url
              end in
  let authority := first_part "/" rest in
  Ok (to_ascii_lowercase (host_of authority), port_of authority default_port).

(** @src src/src/upstream.rs 397-413 parse_ip_port *)
Definition parse_ip_port (s : string) (default_port : Z) : Res SocketAddr :=
  let s := trim s in
  match parse_socket_addr s with
  | Some addr => Ok addr
  | None =>
  match parse_ip_addr s with
  | Some ip => Ok (mkSocketAddr ip default_port)
  | None =>
  match (x ← strip_prefix "[" s; inner ← strip_suffix "]" x; parse_ip_addr inner) with
  | Some ip => Ok (mkSocketAddr ip default_port)
  | None => Err (ErrConfig ("dial_addr/bootstrap must be an IP address, got `" +:+ s +:+ "`"))
  end end end.

(** @src src/src/upstream.rs 415-422 bootstrap_socket *)
Definition bootstrap_socket (s : string) : Res SocketAddr :=
  let s := trim s in
  let s := match strip_prefix "udp://" s with
           | Some r => r
           | None => match strip_prefix "tcp://" s with Some r => r | None => s end
           end in
  parse_ip_port s 53.

(** ** The upstream *)

(** The destination an upstream resolves on first use and keeps ([dest]) is part
    of the exchange, not of this value.
    @src src/src/upstream.rs 117-135 Kind *)
Inductive Kind : Type :=
| KindUdp (target : string)
| KindTcp (target : string)
| KindTls (target sni : string)
| KindDoh (url : string).

(** The pinned addresses of a DoH resolver and its bootstrap server.
    @src src/src/upstream.rs 299-304 PinResolver *)
Record PinResolver : Type := mkPinResolver {
  pr_pins : list SocketAddr;
  pr_bootstrap : option string;
}.

(** @src src/src/upstream.rs 307-317 PinResolver::new *)
Definition pin_resolver_new (spec : UpstreamSpec) (port : Z) : Res PinResolver :=
  let? pins := match us_dial_addr spec with
               | Some dial => let? sa := parse_ip_port dial port in Ok [sa]
               | None => Ok []
               end in
  Ok (mkPinResolver pins (us_bootstrap spec)).

(** [reqwest]'s client and [rustls]' connector: whether one was built. *)
Class HttpLib := { http_client_build : UpstreamSpec → result string unit }.

(** @src src/src/upstream.rs 106-115 Upstream *)
Record Upstream : Type := mkUpstream {
  up_spec : UpstreamSpec;
  up_kind : Kind;
  up_http : bool;
  up_resolver : option PinResolver;
  up_tls : bool;
  up_tcp_pool : bool;
  up_tls_pool : bool;
}.

(** @src src/src/upstream.rs 270-297 build_http_client *)
Definition build_http_client `{HttpLib} (spec : UpstreamSpec) (url : string)
    : Res (option PinResolver) :=
  let? resolver :=
    if bool_decide (is_Some (us_dial_addr spec)) || bool_decide (is_Some (us_bootstrap spec)) then
      let? (host, port) := url_host_port url (if starts_with "http://" url then 80 else 443)%Z in
      let? resolver := pin_resolver_new spec port in
      Ok (Some resolver)
    else Ok None in
  let? _ := map_err (ErrUpstream (us_addr spec)) (http_client_build spec) in
  Ok resolver.

(** The [match scheme] of [connect].
    @src src/src/upstream.rs 138-181 Upstream::connect *)
Definition connect_kind (spec : UpstreamSpec) : Res Kind :=
  let addr := trim (us_addr spec) in
  let '(scheme, rest) := split_scheme addr in
  if decide (scheme = "udp" ∨ scheme = "") then Ok (KindUdp (normalize_hostport rest 53))
  else if decide (scheme = "tcp") then Ok (KindTcp (normalize_hostport rest 53))
  else if decide (scheme = "tls" ∨ scheme = "dot") then
    let host := host_of rest in
    Ok (KindTls (match us_dial_addr spec with
                 | Some d => normalize_hostport d 853
                 | None => normalize_hostport rest 853
                 end) host)
  else if decide (scheme = "https" ∨ scheme = "h2" ∨ scheme = "doh") then
    Ok (KindDoh (if starts_with "https://" addr then addr else "https://" +:+ rest))
  else if decide (scheme = "http") then
    Ok (KindDoh (if starts_with "http" addr then addr else "http://" +:+ rest))
  else Err (ErrConfig ("unsupported upstream scheme `" +:+ scheme +:+ "` in " +:+ addr)).

(** @src src/src/upstream.rs 138-217 Upstream::connect *)
Definition upstream_connect `{HttpLib} (spec : UpstreamSpec) : Res Upstream :=
  let? kind := connect_kind spec in
  let? (http, resolver) :=
    match kind with
    | KindDoh url => let? resolver := build_http_client spec url in Ok (true, resolver)
    | _ => Ok (false, None)
    end in
  let tls := match kind with KindTls _ _ => true | _ => false end in
  let tcp_pool := match kind with KindTcp _ => true | _ => false end in
  let tls_pool := match kind with KindTls _ _ => true | _ => false end in
  Ok (mkUpstream spec kind http resolver tls tcp_pool tls_pool).

(** @src src/src/upstream.rs 219-221 Upstream::label *)
Definition up_label (u : Upstream) : string := default (us_addr (up_spec u)) (us_tag (up_spec u)).

(** A client that always builds, for the witnesses. *)
#[export] Instance DemoHttp : HttpLib := {| http_client_build _ := Ok tt |}.
