(* ===== verification/Shard.v ===== *)
(** * One shard of the cache: an LRU map

    [Shard] of [plugin/cache.rs] is a hash map next to a queue of its keys, the
    oldest in front.  The invariant ties the two together, and the refinement
    theorems show that the pair behaves as one list of entries in order of last
    use. *)
From S2P Require Import Prelude RustStr.

(** @src src/src/plugin/cache.rs 17-22 Entry *)
Record Entry : Type := mkEntry {
  e_wire : list Z;
  e_stored : Z;
  e_ttl_deadline : Z;
  e_expire : Z;
}.

(** @src src/src/plugin/cache.rs 24-28 Shard *)
Record Shard : Type := mkShard {
  s_map : gmap string Entry;
  s_lru : list string;
  s_cap : nat;
}.

(** @src src/src/plugin/cache.rs 31-37 Shard::new *)
Definition shard_new (cap : nat) : Shard := mkShard ∅ [] (Nat.max cap 1).

(** [lru.iter().position(|k| k == key)]. *)
Definition lru_position (key : string) (lru : list string) : option nat :=
  fst <$> list_find (λ k, k = key) lru.

(** @src src/src/plugin/cache.rs 39-50 Shard::get *)
Definition shard_get (key : string) (s : Shard) : Shard * option Entry :=
  match s_map s !! key with
  | Some e =>
      let lru :=
        match lru_position key (s_lru s) with
        | Some pos =>
            match s_lru s !! pos with
            | Some k => delete pos (s_lru s) ++ [k]
            | None => s_lru s
            end
        | None => s_lru s
        end in
      (mkShard (s_map s) lru (s_cap s), Some e)
  | None => (s, None)
  end.

(** The eviction loop of [insert].
    @src src/src/plugin/cache.rs 62-68 Shard::insert *)
Fixpoint evict (cap : nat) (map : gmap string Entry) (lru : list string)
    : gmap string Entry * list string :=
  if Nat.leb cap (size map) then
    match lru with
    | old :: lru' => evict cap (delete old map) lru'
    | [] => (map, [])
    end
  else (map, lru).

(** @src src/src/plugin/cache.rs 52-70 Shard::insert *)
Definition shard_insert (key : string) (entry : Entry) (s : Shard) : Shard :=
  match s_map s !! key with
  | Some _ =>
      let map := <[key := entry]> (s_map s) in
      let lru := match lru_position key (s_lru s) with
                 | Some pos => delete pos (s_lru s)
                 | None => s_lru s
                 end in
      mkShard map (lru ++ [key]) (s_cap s)
  | None =>
      let '(map, lru) := evict (s_cap s) (s_map s) (s_lru s) in
      mkShard (<[key := entry]> map) (lru ++ [key]) (s_cap s)
  end.

(** @src src/src/plugin/cache.rs 72-75 Shard::flush *)
Definition shard_flush (s : Shard) : Shard := mkShard ∅ [] (s_cap s).

(** @src src/src/plugin/cache.rs 77-79 Shard::len *)
Definition shard_len (s : Shard) : nat := size (s_map s).

(** ** Invariant *)

(** The queue lists each key of the map once, and the map is within its bound. *)
Record shard_inv (s : Shard) : Prop := mkShardInv {
  si_nodup : NoDup (s_lru s);
  si_keys : ∀ k, k ∈ s_lru s ↔ is_Some (s_map s !! k);
  si_size : size (s_map s) ≤ s_cap s;
  si_cap : 1 ≤ s_cap s;
}.

Lemma lru_size (map : gmap string Entry) lru :
  NoDup lru → (∀ k, k ∈ lru ↔ is_Some (map !! k)) → size map = length lru.
Proof.
  intros Hnd Hk. rewrite <- size_dom, <- (size_list_to_set (C := gset string) lru) by done.
  f_equal. apply set_eq. intros k. by rewrite elem_of_dom, elem_of_list_to_set, Hk.
Qed.

(** Moving a key to the back of the queue. *)
Definition without (key : string) (l : list string) : list string := filter (λ k, k ≠ key) l.

Lemma without_notin key l : key ∉ l → without key l = l.
Proof.
  unfold without. induction l as [|x l IH]; [done|]. intros Hn.
  rewrite filter_cons_True by set_solver. f_equal. set_solver.
Qed.

Lemma lru_position_delete key l :
  NoDup l → key ∈ l →
  ∃ pos, lru_position key l = Some pos ∧ l !! pos = Some key ∧ delete pos l = without key l.
Proof.
  unfold lru_position. intros Hnd Hin.
  destruct (list_find_elem_of (λ k, k = key) l key Hin eq_refl) as [[pos k] E].
  rewrite E. apply list_find_Some in E as (Hpos & -> & Hfirst). exists pos.
  split; [done|]. split; [done|].
  rewrite <- (take_drop_middle l pos key Hpos) in Hnd |- *.
  assert (Hlen : length (take pos l) = pos) by (apply lookup_lt_Some in Hpos; rewrite length_take; lia).
  apply NoDup_app in Hnd as (_ & Hd & Hnd). apply NoDup_cons in Hnd as [Hnk _].
  rewrite <- Hlen at 1. rewrite delete_middle. unfold without.
  rewrite list.filter_app, filter_cons_False by naive_solver.
  fold (without key (take pos l)) (without key (drop (S pos) l)).
  rewrite !without_notin; [done|set_solver..].
Qed.

Lemma without_NoDup key l : NoDup l → NoDup (without key l).
Proof. apply NoDup_filter. Qed.

Lemma elem_of_without key l k : k ∈ without key l ↔ k ≠ key ∧ k ∈ l.
Proof. unfold without. by rewrite list_elem_of_filter. Qed.

Lemma requeue_NoDup key l : NoDup l → NoDup (without key l ++ [key]).
Proof.
  intros Hnd. apply NoDup_app. split; [by apply without_NoDup|].
  split; [|apply NoDup_singleton]. intros k [Hk _]%elem_of_without. set_solver.
Qed.

(** The two branches of [get] and [insert] in terms of [without]. *)
Lemma shard_get_present key e s :
  shard_inv s → s_map s !! key = Some e →
  shard_get key s = (mkShard (s_map s) (without key (s_lru s) ++ [key]) (s_cap s), Some e).
Proof.
  intros [Hnd Hk _ _] He. unfold shard_get. rewrite He.
  destruct (lru_position_delete key (s_lru s)) as (pos & -> & -> & ->); [done|by apply Hk; rewrite He|done].
Qed.

Lemma shard_insert_present key e e' s :
  shard_inv s → s_map s !! key = Some e' →
  shard_insert key e s = mkShard (<[key := e]> (s_map s)) (without key (s_lru s) ++ [key]) (s_cap s).
Proof.
  intros [Hnd Hk _ _] He. unfold shard_insert. rewrite He.
  destruct (lru_position_delete key (s_lru s)) as (pos & -> & _ & ->); [done|by apply Hk; rewrite He|done].
Qed.

(** Eviction drops a prefix of the queue, exactly those keys of the map, and
    leaves room for one entry. *)
Lemma evict_spec cap map lru :
  1 ≤ cap → NoDup lru → (∀ k, k ∈ lru ↔ is_Some (map !! k)) →
  ∃ n, let '(map', lru') := evict cap map lru in
       lru' = drop n lru ∧ n = length lru - (cap - 1)
       ∧ (∀ k, map' !! k = if decide (k ∈ lru') then map !! k else None)
       ∧ size map' < cap.
Proof.
  intros Hcap. revert map. induction lru as [|old lru IH]; intros map Hnd Hk.
  - assert (map = ∅) as ->.
    { apply map_eq. intros k. rewrite lookup_empty. destruct (map !! k) eqn:E; [|done].
      exfalso. assert (k ∈ []) by (apply Hk; eauto). set_solver. }
    exists 0. simpl. rewrite map_size_empty. destruct cap; [lia|]. simpl.
    split; [done|]. split; [done|]. split; [|rewrite map_size_empty; lia].
    intros k. apply lookup_empty.
  - pose proof (lru_size map (old :: lru) Hnd Hk) as Hs. simpl in Hs. simpl.
    destruct (Nat.leb_spec cap (size map)) as [Hle|Hlt].
    + apply NoDup_cons in Hnd as [Hno Hnd].
      assert (Hk' : ∀ k, k ∈ lru ↔ is_Some (delete old map !! k)).
      { intros k. destruct (decide (k = old)) as [->|Hne].
        - rewrite lookup_delete_eq. split; [done|by intros [? ?]].
        - rewrite lookup_delete_ne by done. rewrite <- Hk. set_solver. }
      destruct (IH (delete old map) Hnd Hk') as [n Hn]. exists (S n).
      destruct (evict cap (delete old map) lru) as [map' lru'] eqn:E.
      destruct Hn as (-> & -> & Hm & Hsz). simpl.
      split; [done|]. split; [lia|]. split; [|done].
      intros k. rewrite Hm. case_decide as Hd; [|done].
      rewrite lookup_delete_ne; [done|]. intros ->. apply Hno. by apply subseteq_drop in Hd.
    + exists 0. simpl. split; [done|]. split; [lia|]. split; [|lia].
      intros k. case_decide as Hd; [done|]. rewrite Hk in Hd. by apply eq_None_not_Some.
Qed.

Lemma shard_new_inv cap : shard_inv (shard_new cap).
Proof.
  split; simpl; [constructor| |rewrite map_size_empty; lia|lia].
  intros k. rewrite lookup_empty. split; [set_solver|by intros [? ?]].
Qed.

Lemma shard_flush_inv s : shard_inv s → shard_inv (shard_flush s).
Proof.
  intros []. split; simpl; [constructor| |rewrite map_size_empty; lia|lia].
  intros k. rewrite lookup_empty. split; [set_solver|by intros [? ?]].
Qed.

Lemma shard_get_inv key s : shard_inv s → shard_inv (shard_get key s).1.
Proof.
  intros Hi. destruct (s_map s !! key) as [e|] eqn:E.
  - rewrite (shard_get_present key e s) by done. destruct Hi as [Hnd Hk Hs Hc].
    split; simpl; [by apply requeue_NoDup| |done..].
    intros k. rewrite elem_of_app, elem_of_without, <- Hk, list_elem_of_singleton.
    destruct (decide (k = key)) as [->|]; [|tauto].
    split; [|tauto]. intros _. apply Hk. rewrite E. eauto.
  - unfold shard_get. by rewrite E.
Qed.

Lemma shard_insert_inv key e s : shard_inv s → shard_inv (shard_insert key e s).
Proof.
  intros Hi. destruct (s_map s !! key) as [e'|] eqn:E.
  - rewrite (shard_insert_present key e e') by done. destruct Hi as [Hnd Hk Hs Hc].
    split; simpl; [by apply requeue_NoDup| | |done].
    + intros k. rewrite elem_of_app, elem_of_without, list_elem_of_singleton.
      destruct (decide (k = key)) as [->|].
      * rewrite lookup_insert_eq. split; [eauto|tauto].
      * rewrite lookup_insert_ne, <- Hk by done. tauto.
    + by rewrite map_size_insert, E.
  - destruct Hi as [Hnd Hk Hs Hc]. unfold shard_insert. rewrite E.
    destruct (evict_spec (s_cap s) (s_map s) (s_lru s)) as [n Hn]; [done..|].
    destruct (evict _ _ _) as [map' lru']. destruct Hn as (-> & _ & Hm & Hsz).
    assert (Hkn : key ∉ drop n (s_lru s)).
    { intros Hd%subseteq_drop. apply Hk in Hd as [? ?]. congruence. }
    assert (Hm' : map' !! key = None) by (rewrite Hm; by case_decide).
    split; simpl; [| | |done].
    + apply NoDup_app. split; [by eapply sublist_NoDup, sublist_drop|].
      split; [set_solver|apply NoDup_singleton].
    + intros k. rewrite elem_of_app, list_elem_of_singleton.
      destruct (decide (k = key)) as [->|].
      * rewrite lookup_insert_eq. split; [eauto|tauto].
      * rewrite lookup_insert_ne, Hm by done. case_decide as Hd.
        -- apply subseteq_drop in Hd as Hd'. apply Hk in Hd'. tauto.
        -- split; [tauto|by intros [? ?]].
    + rewrite map_size_insert, Hm'. simpl. lia.
Qed.

(** ** Refinement: a list of entries in order of last use *)

(** The abstract value of a shard, the least recently used entry first. *)
Fixpoint lru_list (map : gmap string Entry) (lru : list string) : list (string * Entry) :=
  match lru with
  | [] => []
  | k :: lru' =>
      match map !! k with
      | Some e => (k, e) :: lru_list map lru'
      | None => lru_list map lru'
      end
  end.
Definition shard_abs (s : Shard) : list (string * Entry) := lru_list (s_map s) (s_lru s).

(** The abstract cache: a lookup moves the entry to the back; an insertion drops
    the old entry of the key, then the oldest entries until there is room. *)
Definition abs_remove (key : string) (l : list (string * Entry)) : list (string * Entry) :=
  filter (λ p, p.1 ≠ key) l.
Definition abs_lookup (key : string) (l : list (string * Entry)) : option Entry :=
  snd <$> find_first (λ p, bool_decide (p.1 = key)) l.
Definition abs_get (key : string) (l : list (string * Entry)) : list (string * Entry) * option Entry :=
  match abs_lookup key l with
  | Some e => (abs_remove key l ++ [(key, e)], Some e)
  | None => (l, None)
  end.
Definition abs_insert (cap : nat) (key : string) (e : Entry) (l : list (string * Entry))
    : list (string * Entry) :=
  let l := abs_remove key l in
  drop (length l - (cap - 1)) l ++ [(key, e)].

Lemma lru_list_ext map1 map2 lru :
  (∀ k, k ∈ lru → map1 !! k = map2 !! k) → lru_list map1 lru = lru_list map2 lru.
Proof.
  induction lru as [|k lru IH]; intros Hk; simpl; [done|].
  rewrite Hk, IH by set_solver. done.
Qed.

Lemma lru_list_without map key lru :
  lru_list map (without key lru) = abs_remove key (lru_list map lru).
Proof.
  unfold without, abs_remove. induction lru as [|k lru IH]; [done|].
  destruct (decide (k = key)) as [->|Hne].
  - rewrite filter_cons_False by naive_solver. simpl. destruct (map !! key); [|done].
    rewrite filter_cons_False by naive_solver. done.
  - rewrite filter_cons_True by done. simpl. destruct (map !! k); [|done].
    rewrite filter_cons_True by done. by rewrite IH.
Qed.

Lemma lru_list_app map l1 l2 : lru_list map (l1 ++ l2) = lru_list map l1 ++ lru_list map l2.
Proof. induction l1 as [|k l1 IH]; simpl; [done|]. rewrite IH. by destruct (map !! k). Qed.

Lemma lru_list_length map lru :
  (∀ k, k ∈ lru → is_Some (map !! k)) → length (lru_list map lru) = length lru.
Proof.
  induction lru as [|k lru IH]; intros Hk; [done|]. simpl.
  destruct (Hk k) as [e ->]; [set_solver|]. simpl. rewrite IH; [done|set_solver].
Qed.

Lemma lru_list_drop map n lru :
  (∀ k, k ∈ lru → is_Some (map !! k)) → lru_list map (drop n lru) = drop n (lru_list map lru).
Proof.
  revert n. induction lru as [|k lru IH]; intros n Hk; [by destruct n|].
  destruct n; [done|]. simpl. destruct (Hk k) as [e ->]; [set_solver|]. simpl. apply IH. set_solver.
Qed.

Lemma lru_list_elem map lru k e : (k, e) ∈ lru_list map lru ↔ k ∈ lru ∧ map !! k = Some e.
Proof.
  induction lru as [|x lru IH]; simpl; [set_solver|].
  destruct (map !! x) eqn:E; rewrite ?elem_of_cons, IH; split; intros; destruct_and?; destruct_or?;
    simplify_eq; naive_solver.
Qed.

Lemma abs_lookup_list map key lru :
  (∀ k, k ∈ lru ↔ is_Some (map !! k)) → abs_lookup key (lru_list map lru) = map !! key.
Proof.
  intros Hk. unfold abs_lookup. destruct (find_first _ _) as [[k e]|] eqn:F; simpl.
  - apply find_first_Some in F as (l1 & l2 & Hl & ?%bool_decide_eq_true & _). simpl in *. subst k.
    symmetry. apply (lru_list_elem map lru key e). rewrite Hl. set_solver.
  - destruct (map !! key) as [e|] eqn:E; [|done]. exfalso.
    rewrite find_first_None, Forall_forall in F.
    assert (Hin : (key, e) ∈ lru_list map lru) by (apply lru_list_elem; naive_solver).
    apply F in Hin. by apply bool_decide_eq_false in Hin.
Qed.

Lemma abs_remove_notin map key lru :
  key ∉ lru → abs_remove key (lru_list map lru) = lru_list map lru.
Proof. intros Hn. by rewrite <- lru_list_without, without_notin. Qed.

Lemma lru_list_insert_back map key e lru :
  key ∉ lru → lru_list (<[key := e]> map) (lru ++ [key]) = lru_list map lru ++ [(key, e)].
Proof.
  intros Hn. rewrite lru_list_app. f_equal.
  - apply lru_list_ext. intros k Hk. rewrite lookup_insert_ne; set_solver.
  - simpl. by rewrite lookup_insert_eq.
Qed.

(** C18: a shard refines a bounded LRU list: [get] returns the entry of the key
    and makes it the most recently used, [insert] replaces the key's entry or,
    when the shard is full, evicts the least recently used ones, and puts the
    new entry last; [flush] empties it; a new shard is empty; the invariant
    (each key queued once, queue and map over the same keys, at most [cap]
    entries) holds again after each operation. *)
Theorem shard_refines_lru (s : Shard) (key : string) (e : Entry) :
  shard_inv s →
  (shard_inv (shard_get key s).1
   ∧ abs_get key (shard_abs s) = (shard_abs (shard_get key s).1, (shard_get key s).2)
   ∧ (shard_get key s).2 = s_map s !! key)
  ∧ (shard_inv (shard_insert key e s)
     ∧ shard_abs (shard_insert key e s) = abs_insert (s_cap s) key e (shard_abs s)
     ∧ s_map (shard_insert key e s) !! key = Some e
     ∧ shard_len (shard_insert key e s) ≤ s_cap s)
  ∧ (shard_inv (shard_flush s) ∧ shard_abs (shard_flush s) = [])
  ∧ shard_abs (shard_new (s_cap s)) = [] ∧ shard_inv (shard_new (s_cap s)).
Proof.
  intros Hi. pose proof Hi as [Hnd Hk Hs Hc].
  split; [|split; [|split; [|split; [done|apply shard_new_inv]]]].
  - split; [by apply shard_get_inv|]. unfold abs_get, shard_abs. rewrite abs_lookup_list by done.
    destruct (s_map s !! key) as [x|] eqn:E.
    + rewrite (shard_get_present key x s) by done. simpl. split; [|done].
      rewrite lru_list_app, lru_list_without. simpl. by rewrite E.
    + unfold shard_get. by rewrite E.
  - assert (Hi' : shard_inv (shard_insert key e s)) by by apply shard_insert_inv.
    split; [done|]. unfold shard_len. assert (Hcap : s_cap (shard_insert key e s) = s_cap s).
    { unfold shard_insert. case_match; [done|]. by destruct (evict _ _ _). }
    split; [|split; [|by rewrite <- Hcap; apply Hi']].
    + unfold abs_insert, shard_abs. destruct (s_map s !! key) as [x|] eqn:E.
      * rewrite (shard_insert_present key e x) by done. simpl.
        rewrite lru_list_insert_back by (rewrite elem_of_without; naive_solver).
        rewrite <- lru_list_without.
        assert (Hl : length (without key (s_lru s)) < length (s_lru s)).
        { apply length_filter_lt with key; [apply Hk; by rewrite E|naive_solver]. }
        rewrite lru_list_length by (intros k [_ ?]%elem_of_without; by apply Hk).
        rewrite (lru_size (s_map s) (s_lru s)) in Hs by done.
        replace (_ - _) with 0 by lia. done.
      * assert (Hn : key ∉ s_lru s) by (rewrite Hk, E; by intros [? ?]).
        unfold shard_insert. rewrite E, abs_remove_notin by done.
        destruct (evict_spec (s_cap s) (s_map s) (s_lru s)) as [n Hn']; [done..|].
        destruct (evict _ _ _) as [map' lru']. destruct Hn' as (-> & -> & Hm & _). simpl.
        rewrite lru_list_insert_back by (intros ?%subseteq_drop; done).
        rewrite lru_list_length, <- lru_list_drop by (intros; by apply Hk).
        f_equal. apply lru_list_ext. intros k Hkd. rewrite Hm. by case_decide.
    + unfold shard_insert. case_match; [by simpl; rewrite lookup_insert_eq|].
      destruct (evict _ _ _). simpl. by rewrite lookup_insert_eq.
  - split; [by apply shard_flush_inv|done].
Qed.

(** A full shard of two entries: using [a] makes [b] the one that is evicted. *)
Lemma shard_refines_lru_witness :
  let en n := mkEntry [n] 0 10 10 in
  let s := shard_insert "b" (en 2%Z) (shard_insert "a" (en 1%Z) (shard_new 2)) in
  let s := (shard_get "a" s).1 in
  s_lru (shard_insert "c" (en 3%Z) s) = ["a"; "c"]
  ∧ shard_abs (shard_insert "c" (en 3%Z) s) = abs_insert 2 "c" (en 3%Z) (shard_abs s).
Proof.
  intros en s0 s. split; [by vm_compute|].
  apply (shard_refines_lru s "c" (en 3%Z)).
  apply shard_get_inv, shard_insert_inv, shard_insert_inv, shard_new_inv.
Defined.
