(* ===== verification/Net.v ===== *)
(** * Sockets, connections and what the exchanges of an upstream share

    The network operations the code awaits, as data: [net_op] with the type of
    each reply, and [net_ok], the documented behaviour of the runtime's I/O
    functions ([read_exact] fills its buffer, [recv] stays within it).  A socket,
    connection or HTTP response is a number the environment chooses.

    [StreamPool] of [upstream.rs] is here with its two critical sections, and
    [net_access] lists the accesses to the cells that the clones of an upstream
    share: its pool, its resolved destination, its resolver's cache. *)
From S2P Require Import Prelude RustStr RustNet Error.

(** The errors of an I/O operation: the end of the stream, or another one. *)
Inductive IoError : Type := IoEof | IoOther (msg : string).

(** [Error::Io(e)], with the text of [e]. *)
Definition io_error (e : IoError) : Error :=
  ErrIo (match e with IoEof => "early eof" | IoOther msg => msg end).

(** [u16::to_be_bytes] and [u16::from_be_bytes]. *)
Definition to_be_bytes (n : Z) : list Z := [(n / 256 mod 256)%Z; (n mod 256)%Z].
Definition from_be_bytes (hdr : list Z) : Z :=
  match hdr with [a; b] => (a * 256 + b)%Z | _ => 0%Z end.

Lemma from_to_be_bytes n : (0 ≤ n ≤ u16_max)%Z → from_be_bytes (to_be_bytes n) = n.
Proof.
  unfold to_be_bytes, from_be_bytes, u16_max. intros Hn. pose proof (Z.div_mod n 256).
  rewrite (Z.mod_small (n / 256)); [lia|]. split; [apply Z.div_pos; lia|]. apply Z.div_lt_upper_bound; lia.
Qed.

(** ** Operations *)
Notation Conn := nat (only parsing).

(** What is known of an HTTP response before its body: the status code, how it
    prints, and the response to read the body from. *)
Record HttpResponse : Type := mkHttpResponse { hr_status : Z; hr_text : string; hr_body : Conn }.

Inductive net_op : Type :=
| NUdpBind (addr : string)
| NUdpConnect (s : Conn) (dest : SocketAddr)
| NUdpSend (s : Conn) (bytes : list Z)
| NUdpRecv (s : Conn) (buf : nat)
| NTcpConnect (dest : SocketAddr)
| NTlsConnect (name : string) (c : Conn)
| NWriteAll (c : Conn) (bytes : list Z)
| NFlush (c : Conn)
| NReadExact (c : Conn) (n : nat)
| NLookupHost (target : string)
| NLookupPair (host : string) (port : Z)
| NHttpSend (url : string) (headers : list (string * string)) (body : list Z)
| NHttpBody (resp : Conn).

Definition net_reply (op : net_op) : Type :=
  match op with
  | NUdpBind _ | NTcpConnect _ => result IoError Conn
  | NUdpConnect _ _ | NUdpSend _ _ | NWriteAll _ _ | NFlush _ => result IoError unit
  | NUdpRecv _ _ | NReadExact _ _ => result IoError (list Z)
  | NTlsConnect _ _ => result string Conn
  | NLookupHost _ | NLookupPair _ _ => result IoError (list SocketAddr)
  | NHttpSend _ _ _ => result string HttpResponse
  | NHttpBody _ => result string (list Z)
  end.

Definition net_ok (op : net_op) : net_reply op → Prop :=
  match op with
  | NReadExact _ n => λ r, match r with Ok bytes => length bytes = n | Err _ => True end
  | NUdpRecv _ n => λ r, match r with Ok bytes => length bytes ≤ n | Err _ => True end
  | _ => λ _, True
  end.

(** The sockets and connections an operation works on, and the new one its reply
    brings.  A TLS connection takes over the one it was made on. *)
Definition op_conns (op : net_op) : list Conn :=
  match op with
  | NUdpConnect s _ | NUdpSend s _ | NUdpRecv s _ => [s]
  | NTlsConnect _ c | NWriteAll c _ | NFlush c | NReadExact c _ => [c]
  | _ => []
  end.
Definition op_opens (op : net_op) : net_reply op → option Conn :=
  match op return net_reply op → option Conn with
  | NUdpBind _ | NTcpConnect _ => λ r, match r with Ok s => Some s | Err _ => None end
  | NTlsConnect _ _ => λ r, match r with Ok s => Some s | Err _ => None end
  | _ => λ _, None
  end.

(** ** The connection pool *)

(** The bounds of a pool.  Its slots are shared state: connections with the time
    each was put back, the last one first.
    @src src/src/upstream.rs 72-76 StreamPool *)
Record StreamPool : Type := mkStreamPool { sp_cap : nat; sp_idle : Z }.
Notation Slots := (list (Conn * Z)) (only parsing).

(** @src src/src/upstream.rs 79-85 StreamPool::new *)
Definition stream_pool_new (cap : nat) (idle : Z) : StreamPool := mkStreamPool (Nat.max cap 1) idle.

(** The critical section of [take], [now] having been read before it.
    @src src/src/upstream.rs 87-96 StreamPool::take *)
Fixpoint pool_take_locked (idle now : Z) (slots : Slots) : Slots * option Conn :=
  match slots with
  | [] => ([], None)
  | (s, t) :: rest =>
      if (saturating_sub now t <? idle)%Z then (rest, Some s) else pool_take_locked idle now rest
  end.

(** The critical section of [put], at time [now].
    @src src/src/upstream.rs 98-103 StreamPool::put *)
Definition pool_put_locked (p : StreamPool) (s : Conn) (now : Z) (slots : Slots) : Slots :=
  if Nat.ltb (length slots) (sp_cap p) then (s, now) :: slots else slots.

(** ** Accesses *)

(** The name of the cells an upstream's clones share: the tag of the plugin that
    built the upstream and its index there. *)
Notation Cells := (string * nat)%type (only parsing).

(** [NPoolTake u p now] and [NPoolPut u p s] are the critical sections of the pool
    of [u]; [NDestGet] and [NDestInit] the accesses to its [OnceLock] of a
    destination, [NPinGet] and [NPinSet] to its resolver's map; [NRandomId] draws a
    [u16]. *)
Inductive net_access : Type :=
| NRandomId
| NSetNoDelay (c : Conn)
| NPoolTake (u : Cells) (p : StreamPool) (now : Z)
| NPoolPut (u : Cells) (p : StreamPool) (s : Conn)
| NDestGet (u : Cells)
| NDestInit (u : Cells) (addr : SocketAddr)
| NPinGet (u : Cells) (host : string)
| NPinSet (u : Cells) (host : string) (addrs : list SocketAddr).

Definition net_access_reply (a : net_access) : Type :=
  match a with
  | NRandomId => Z
  | NSetNoDelay _ => result IoError unit
  | NPoolTake _ _ _ => option Conn
  | NPoolPut _ _ _ => unit
  | NDestGet _ => option SocketAddr
  | NDestInit _ _ => SocketAddr
  | NPinGet _ _ => option (list SocketAddr)
  | NPinSet _ _ _ => unit
  end.

(** The cells of all the upstreams of a runtime; what is not there is empty. *)
Record NetState : Type := mkNetState {
  ns_pools : gmap Cells Slots;
  ns_dests : gmap Cells SocketAddr;
  ns_pins : gmap (Cells * string) (list SocketAddr);
}.
Definition net_empty : NetState := mkNetState ∅ ∅ ∅.
Definition pool_of (u : Cells) (ns : NetState) : Slots := default [] (ns_pools ns !! u).
Definition with_pool (u : Cells) (slots : Slots) (ns : NetState) : NetState :=
  mkNetState (<[u := slots]> (ns_pools ns)) (ns_dests ns) (ns_pins ns).
Definition with_dest (u : Cells) (d : SocketAddr) (ns : NetState) : NetState :=
  mkNetState (ns_pools ns) (<[u := d]> (ns_dests ns)) (ns_pins ns).
Definition with_pins (u : Cells) (host : string) (addrs : list SocketAddr) (ns : NetState) : NetState :=
  mkNetState (ns_pools ns) (ns_dests ns) (<[(u, host) := addrs]> (ns_pins ns)).

(** One access at time [now]: the reply and the state it leaves.
    [OnceLock::get_or_init] keeps the first value. *)
Definition net_step (now : Z) (a : net_access) (ns : NetState) (r : net_access_reply a) (ns' : NetState) : Prop :=
  match a return net_access_reply a → Prop with
  | NRandomId => λ id, (0 ≤ id ≤ u16_max)%Z ∧ ns' = ns
  | NSetNoDelay _ => λ _, ns' = ns
  | NPoolTake u p t => λ o, o = (pool_take_locked (sp_idle p) t (pool_of u ns)).2
      ∧ ns' = with_pool u (pool_take_locked (sp_idle p) t (pool_of u ns)).1 ns
  | NPoolPut u p s => λ _, ns' = with_pool u (pool_put_locked p s now (pool_of u ns)) ns
  | NDestGet u => λ o, o = ns_dests ns !! u ∧ ns' = ns
  | NDestInit u d => λ d', d' = default d (ns_dests ns !! u) ∧ ns' = with_dest u d' ns
  | NPinGet u host => λ o, o = ns_pins ns !! (u, host) ∧ ns' = ns
  | NPinSet u host addrs => λ _, ns' = with_pins u host addrs ns
  end r.

(** An access is always possible; one way it can go. *)
Definition net_pick (now : Z) (a : net_access) (ns : NetState) : net_access_reply a * NetState :=
  match a return net_access_reply a * NetState with
  | NRandomId => (0%Z, ns)
  | NSetNoDelay _ => (Ok tt, ns)
  | NPoolTake u p t => let taken := pool_take_locked (sp_idle p) t (pool_of u ns) in (taken.2, with_pool u taken.1 ns)
  | NPoolPut u p s => (tt, with_pool u (pool_put_locked p s now (pool_of u ns)) ns)
  | NDestGet u => (ns_dests ns !! u, ns)
  | NDestInit u d => let d' := default d (ns_dests ns !! u) in (d', with_dest u d' ns)
  | NPinGet u host => (ns_pins ns !! (u, host), ns)
  | NPinSet u host addrs => (tt, with_pins u host addrs ns)
  end.
Lemma net_pick_step now a ns : net_step now a ns (net_pick now a ns).1 (net_pick now a ns).2.
Proof. destruct a; cbn; repeat split; unfold u16_max; lia. Qed.
Lemma net_step_total now a ns : ∃ r ns', net_step now a ns r ns'.
Proof. eexists _, _. apply net_pick_step. Qed.

(** ** The pool as a bounded stack *)

(** The slots are within the capacity and each connection is there once. *)
Record pool_inv (p : StreamPool) (slots : Slots) : Prop := mkPoolInv {
  pi_len : length slots ≤ sp_cap p;
  pi_nodup : NoDup slots.*1;
}.

(** What [take] returns: the most recent connection that is not too old; it and
    every older-than-[idle] connection above it are gone. *)
Lemma pool_take_spec idle now slots :
  match pool_take_locked idle now slots with
  | (rest, Some s) => ∃ stale t, slots = stale ++ (s, t) :: rest
      ∧ Forall (λ x, (idle ≤ saturating_sub now x.2)%Z) stale ∧ (saturating_sub now t < idle)%Z
  | (rest, None) => rest = [] ∧ Forall (λ x, (idle ≤ saturating_sub now x.2)%Z) slots
  end.
Proof.
  induction slots as [|[s t] slots IH]; simpl; [done|].
  destruct (Z.ltb_spec (saturating_sub now t) idle); [by exists [], t|].
  destruct (pool_take_locked idle now slots) as [rest [s'|]].
  - destruct IH as (stale & t' & -> & ? & ?). exists ((s, t) :: stale), t'. split; [done|]. split; [|done].
    by constructor.
  - destruct IH as [-> ?]. split; [done|]. by constructor.
Qed.

Lemma pool_inv_new cap idle : pool_inv (stream_pool_new cap idle) [].
Proof. split; simpl; [lia|constructor]. Qed.

Lemma pool_inv_suffix p slots1 slots2 : pool_inv p (slots1 ++ slots2) → pool_inv p slots2.
Proof.
  intros [Hl Hn]. rewrite length_app in Hl. rewrite fmap_app, NoDup_app in Hn. split; [lia|naive_solver].
Qed.

Lemma pool_take_inv p idle now slots :
  pool_inv p slots →
  pool_inv p (pool_take_locked idle now slots).1
  ∧ ∀ s, (pool_take_locked idle now slots).2 = Some s → s ∉ (pool_take_locked idle now slots).1.*1.
Proof.
  intros Hp. pose proof (pool_take_spec idle now slots) as Ht.
  destruct (pool_take_locked idle now slots) as [rest [s|]]; simpl.
  - destruct Ht as (stale & t & -> & _). pose proof (pool_inv_suffix _ _ _ Hp) as Hr. split.
    + by apply (pool_inv_suffix p [(s, t)]).
    + intros ? [= <-]. destruct Hr as [_ Hn]. by apply NoDup_cons in Hn as [? _].
  - destruct Ht as [-> _]. split; [|done]. split; simpl; [lia|constructor].
Qed.

Lemma pool_put_inv p s now slots :
  pool_inv p slots → s ∉ slots.*1 → pool_inv p (pool_put_locked p s now slots).
Proof.
  intros [Hl Hn] Hs. unfold pool_put_locked. destruct (Nat.ltb_spec (length slots) (sp_cap p)); simpl; [|done].
  split; simpl; [lia|]. by constructor.
Qed.
