(* ===== verification/Task.v ===== *)
(** * Asynchronous tasks

    An [async fn] of the program that works on a [&mut] state of type [L] is a
    function from that state to a [task].  A task is a tree of interactions:

    - [Sync l e k]: one atomic access to something shared with other tasks (the
      clock, a counter, the critical section of a lock), or the spawning of a
      task; other tasks may run in parallel before and after it;
    - [Await l a k]: the task is suspended in [.await]; [l] is the state it
      borrows, which is what its owner finds there if the task is dropped;
    - [Ret l a]: the task returns; [Panic]: it panics; [OutOfFuel]: the model's
      recursion bound ran out (theorems exclude both).

    [wp] is the logic of tasks: a postcondition for every reply the environment
    may give, an invariant of the borrowed state at each suspension, and a
    protocol of what the shared accesses give and must respect.  It holds of no
    task that can panic or run out of fuel, so it includes termination.

    Time is an event like others: [timeout] reads the clock, and [until] puts every
    suspension of a task under a timer with the instant that follows from it. *)
From S2P Require Import Prelude RustStr RustNet Error Hickory HickoryDemo External PublicIp.
From S2P Require Import DnsUtil Context Upstream Shard Net.

(** ** Instants

    An [Instant] is a number of nanoseconds, up to a largest one; adding a duration
    past it panics. *)
Definition instant_max : Z := (9223372036854775807 * 1000000000 + 999999999)%Z.
Definition instant_add (now d : Z) : option Z :=
  if (now + d <=? instant_max)%Z then Some (now + d)%Z else None.

(** When a timer of [tokio] that is set at [now] for [d] fires: one that cannot be an
    [Instant] is put thirty years away. *)
Definition timer_at (now d : Z) : Z := default (now + secs (86400 * 365 * 30))%Z (instant_add now d).

(** ** Metrics *)

(** The counters of [Metrics].
    @src src/src/metrics.rs 5-16 Metrics *)
Inductive Counter : Type :=
| Queries | Responses | CacheHits | CacheMisses | CacheLazyHits
| UpstreamOk | UpstreamErr | Dropped | LatencyUsSum.
#[export] Instance Counter_eq_dec : EqDecision Counter.
Proof. solve_decision. Defined.

Section task.
Context {H : Hickory}.

(** The background refresh a lazy cache hit starts: the context it runs, the
    cache and key whose in-flight mark it owns, and the entry it calls. *)
Record Refresh : Type := mkRefresh {
  rf_ctx : QueryContext;
  rf_tag : string;
  rf_key : string;
  rf_entry : string;
}.

(** Atomic accesses.  [EShard tag i f] runs [f] on shard [i] of cache [tag] under
    its lock, at the time the lock is held.  [EMark tag key] inserts [key] in the
    set of keys cache [tag] is refreshing and tells whether it was absent;
    [EUnmark tag key] removes it.  [EUpgrade] asks whether the runtime of a [Weak]
    is still there; [ELive] reads which runtime is live, by its number. *)
Inductive event : Type :=
| ENow
| ENextId
| EMetric (c : Counter) (n : Z)
| EShard (tag : string) (i : nat) (R : Set) (f : Z → Shard → Shard * R)
| EMark (tag key : string)
| EUnmark (tag key : string)
| ESpawn (r : Refresh)
| EUpgrade
| ELive
| ENet (a : net_access).

Definition reply (e : event) : Type :=
  match e with
  | ENow | ENextId => Z
  | EMetric _ _ => unit
  | EShard _ _ R _ => R
  | EMark _ _ => bool
  | EUnmark _ _ => unit
  | ESpawn _ => unit
  | EUpgrade => bool
  | ELive => nat
  | ENet a => net_access_reply a
  end.

(** Suspensions.  [AReadExact], [AWriteAll] and [ASendTo] are those of a client's
    connection; [ANet op] is an operation of an exchange with an upstream;
    [ATimer d a] waits for [a] or the instant [d];
    [APar a b] waits for whichever of the two comes first. *)
Inductive await : Type :=
| AReadExact (n : nat)
| AWriteAll (bytes : list Z)
| ASendTo (bytes : list Z)
| ANet (op : net_op)
| ATimer (d : Z) (a : await)
| APar (a b : await).

Fixpoint areply (a : await) : Type :=
  match a with
  | AReadExact _ => result IoError (list Z)
  | AWriteAll _ | ASendTo _ => result IoError unit
  | ANet op => net_reply op
  | ATimer _ a => option (areply a)
  | APar a b => areply a + areply b
  end.

Inductive task (L A : Type) : Type :=
| Ret (l : L) (a : A)
| Sync (l : L) (e : event) (k : reply e → task L A)
| Await (l : L) (a : await) (k : areply a → task L A)
| Panic (msg : string)
| OutOfFuel.
#[global] Arguments Ret {L A}.
#[global] Arguments Sync {L A}.
#[global] Arguments Await {L A}.
#[global] Arguments Panic {L A}.
#[global] Arguments OutOfFuel {L A}.

(** A computation with a mutable state of type [L]. *)
Definition M (L A : Type) : Type := L → task L A.

Fixpoint task_bind {L L' A B} (t : task L A) (f : L → A → task L' B) (up : L → L') : task L' B :=
  match t with
  | Ret l a => f l a
  | Sync l e k => Sync (up l) e (λ r, task_bind (k r) f up)
  | Await l a k => Await (up l) a (λ r, task_bind (k r) f up)
  | Panic msg => Panic msg
  | OutOfFuel => OutOfFuel
  end.

Definition ret {L A} (a : A) : M L A := λ l, Ret l a.
Definition bind {L A B} (m : M L A) (f : A → M L B) : M L B :=
  λ l, task_bind (m l) (λ l a, f a l) id.
(** [m?]: an error leaves the function. *)
Definition bind_res {L A B} (m : M L (Res A)) (f : A → M L (Res B)) : M L (Res B) :=
  bind m (λ r, match r with Ok a => f a | Err e => ret (Err e) end).

Definition get {L} : M L L := λ l, Ret l l.
Definition modify {L} (f : L → L) : M L unit := λ l, Ret (f l) tt.
Definition sync {L} (e : event) : M L (reply e) := λ l, Sync l e (λ r, Ret l r).
Definition suspend {L} (a : await) : M L (areply a) := λ l, Await l a (λ r, Ret l r).

(** A task with a state of its own inside one whose state is [l]. *)
Definition enclose {L L' A} (l : L) (t : task L' A) : task L (L' * A) :=
  task_bind t (λ l' a, Ret l (l', a)) (λ _, l).
Definition within {L L' A} (m : M L' A) (l' : L') : M L (L' * A) := λ l, enclose l (m l').

(** A task under a timer that fires at [d]: the task is polled first; when the timer
    fires first the task is dropped where it was suspended. *)
Fixpoint until {L A} (d : Z) (t : task L A) : task L (option A) :=
  match t with
  | Ret l a => Ret l (Some a)
  | Sync l e k => Sync l e (λ r, until d (k r))
  | Await l a k =>
      Await l (ATimer d a)
        (λ r : option (areply a), match r with
              | Some r => until d (k r)
              | None => Ret l None
              end)
  | Panic msg => Panic msg
  | OutOfFuel => OutOfFuel
  end.

(** [tokio::time::timeout]: the timer is set when the future is made. *)
Definition timeout {L A} (d : Z) (m : M L A) : M L (option A) :=
  bind (sync ENow) (λ now l, until (timer_at now d) (m l)).

(** [futures::future::select]: both tasks are polled, the left one first; the
    result is that of the first to finish, with what remains of the other. *)
Definition selected (L1 A1 L2 A2 : Type) : Type :=
  (L1 * A1 * task L2 A2) + (L2 * A2 * task L1 A1).

Fixpoint select {L L1 A1 L2 A2} (l : L) (t1 : task L1 A1) {struct t1}
    : task L2 A2 → task L (selected L1 A1 L2 A2) :=
  match t1 with
  | Ret l1 a1 => λ t2, Ret l (inl (l1, a1, t2))
  | Sync l1 e k1 => λ t2, Sync l e (λ r, select l (k1 r) t2)
  | Await l1 a1 k1 =>
      fix right t2 :=
        match t2 with
        | Ret l2 a2 => Ret l (inr (l2, a2, Await l1 a1 k1))
        | Sync l2 e k2 => Sync l e (λ r, right (k2 r))
        | Await l2 a2 k2 =>
            Await l (APar a1 a2)
              (λ r : areply a1 + areply a2,
                 match r with
                 | inl r1 => select l (k1 r1) (Await l2 a2 k2)
                 | inr r2 => right (k2 r2)
                 end)
        | Panic msg => Panic msg
        | OutOfFuel => OutOfFuel
        end
  | Panic msg => λ _, Panic msg
  | OutOfFuel => λ _, OutOfFuel
  end.

(** [FuturesUnordered], with [n] tasks pending: the first to finish gives its value,
    and what remains of the others. *)
Fixpoint racing (A : Type) (n : nat) : Type :=
  match n with O => unit | S n => task unit (A * racing A n) end.

(** A task put before the pending ones; it is polled first. *)
Fixpoint race_push {A n} (t : task unit A) : racing A n → racing A (S n) :=
  match n return racing A n → racing A (S n) with
  | O => λ _, task_bind t (λ _ a, Ret tt (a, tt)) id
  | S n => λ pending,
      task_bind (select tt t pending)
        (λ _ first, match first with
                    | inl (_, a, rest) => Ret tt (a, rest)
                    | inr (_, (a, rest), t) => Ret tt (a, race_push t rest)
                    end) id
  end.

(** The tasks of a list, polled in its order. *)
Fixpoint race {A} (ts : list (task unit A)) : racing A (length ts) :=
  match ts with [] => tt | t :: ts => race_push t (race ts) end.

(** [pending.next().await], some tasks being pending. *)
Definition race_next {L A n} (pending : racing A (S n)) : M L (A * racing A n) :=
  bind (λ l, enclose l (pending : task unit (A * racing A n))) (λ p, ret p.2).

(** ** The logic *)

(** What the environment promises, what the task must respect in its accesses and in
    what it waits for, under a timer or not, and the contexts of the requests it is
    about. *)
Record Protocol : Type := mkProtocol {
  p_reply : ∀ e, reply e → Prop;
  p_event : event → Prop;
  p_await : bool → await → Prop;
  p_ctx : QueryContext → Prop;
}.

(** All that a task waits for at once is allowed; [timed]: a timer is running. *)
Fixpoint awaits_all (R : bool → await → Prop) (timed : bool) (a : await) : Prop :=
  match a with
  | ATimer _ a => awaits_all R true a
  | APar a b => awaits_all R timed a ∧ awaits_all R timed b
  | a => R timed a
  end.

(** The protocol of what runs under a timer. *)
Definition timed (P : Protocol) : Protocol := mkProtocol (p_reply P) (p_event P) (λ _, p_await P true) (p_ctx P).

Fixpoint areply_ok (a : await) : areply a → Prop :=
  match a with
  | AReadExact n => λ r, match r with Ok bytes => length bytes = n | Err _ => True end
  | AWriteAll _ | ASendTo _ => λ _, True
  | ANet op => net_ok op
  | ATimer _ a => λ r, match r with Some r => areply_ok a r | None => True end
  | APar a b => λ r, match r with inl r => areply_ok a r | inr r => areply_ok b r end
  end.

Fixpoint wp {L A} (P : Protocol) (I : L → Prop) (t : task L A) (Q : L → A → Prop) : Prop :=
  match t with
  | Ret l a => Q l a
  | Sync l e k => p_event P e ∧ ∀ r, p_reply P e r → wp P I (k r) Q
  | Await l a k => I l ∧ awaits_all (p_await P) false a ∧ ∀ r, areply_ok a r → wp P I (k r) Q
  | Panic _ | OutOfFuel => False
  end.
End task.

#[export] Hint Unfold ret get modify : core.

Notation "'let!' x := m 'in' k" := (bind m (λ x, k))
  (at level 10, x pattern, m at level 100, k at level 200) : ferrum_scope.
Notation "'let!?' x := m 'in' k" := (bind_res m (λ x, k))
  (at level 10, x pattern, m at level 100, k at level 200) : ferrum_scope.
Notation "'do!' m 'in' k" := (bind m (λ _, k))
  (at level 10, m at level 100, k at level 200) : ferrum_scope.

(** ** Rules *)
Section wp_rules.
Context {H : Hickory}.
Implicit Types (P : Protocol).

Lemma wp_mono {L A} P (I I' : L → Prop) (t : task L A) (Q Q' : L → A → Prop) :
  wp P I t Q → (∀ l, I l → I' l) → (∀ l a, Q l a → Q' l a) → wp P I' t Q'.
Proof. intros Ht HI HQ. induction t; simpl in *; naive_solver. Qed.

Lemma wp_and {L A} P (I1 I2 : L → Prop) (t : task L A) (Q1 Q2 : L → A → Prop) :
  wp P I1 t Q1 → wp P I2 t Q2 → wp P (λ l, I1 l ∧ I2 l) t (λ l a, Q1 l a ∧ Q2 l a).
Proof. intros H1 H2. induction t; simpl in *; naive_solver. Qed.

Lemma wp_task_bind {L L' A B} P (I : L → Prop) (I' : L' → Prop) (t : task L A)
    (f : L → A → task L' B) (up : L → L') Q :
  wp P I t (λ l a, wp P I' (f l a) Q) → (∀ l, I l → I' (up l)) → wp P I' (task_bind t f up) Q.
Proof. intros Ht HI. induction t; simpl in *; naive_solver. Qed.

Lemma wp_bind {L A B} P (I : L → Prop) (m : M L A) (f : A → M L B) l Q :
  wp P I (m l) (λ l a, wp P I (f a l) Q) → wp P I (bind m f l) Q.
Proof. intros Hm. unfold bind. by apply (wp_task_bind P I). Qed.

Lemma wp_bind_res {L A B} P (I : L → Prop) (m : M L (Res A)) (f : A → M L (Res B)) l Q :
  wp P I (m l) (λ l r, match r with Ok a => wp P I (f a l) Q | Err e => Q l (Err e) end) →
  wp P I (bind_res m f l) Q.
Proof.
  intros Hm. apply wp_bind. eapply wp_mono; [exact Hm|done|]. intros l' [a|e] HQ; exact HQ.
Qed.

Lemma wp_ret {L A} P (I : L → Prop) (a : A) l (Q : L → A → Prop) : Q l a → wp P I (ret a l) Q.
Proof. done. Qed.

Lemma wp_modify {L} P (I : L → Prop) (f : L → L) l (Q : L → unit → Prop) :
  Q (f l) tt → wp P I (modify f l) Q.
Proof. done. Qed.

Lemma wp_get {L} P (I : L → Prop) l (Q : L → L → Prop) : Q l l → wp P I (get l) Q.
Proof. done. Qed.

Lemma wp_sync {L} P (I : L → Prop) e l (Q : L → reply e → Prop) :
  p_event P e → (∀ r, p_reply P e r → Q l r) → wp P I (sync e l) Q.
Proof. done. Qed.

Lemma wp_suspend {L} P (I : L → Prop) a l (Q : L → areply a → Prop) :
  I l → awaits_all (p_await P) false a → (∀ r, areply_ok a r → Q l r) → wp P I (suspend a l) Q.
Proof. done. Qed.

Lemma wp_enclose {L L' A} P (I : L → Prop) (I' : L' → Prop) l (t : task L' A) Q (Q' : L → L' * A → Prop) :
  wp P I' t Q → I l → (∀ l' a, Q l' a → Q' l (l', a)) → wp P I (enclose l t) Q'.
Proof.
  intros Ht Hl HQ. apply (wp_task_bind P I'); [|done].
  eapply wp_mono; [exact Ht|done|]. simpl. auto.
Qed.

Lemma awaits_all_mono (R R' : bool → await → Prop) b b' a :
  (∀ a, R b a → R' b' a) → (∀ a, R true a → R' true a) → awaits_all R b a → awaits_all R' b' a.
Proof.
  intros Hb Ht. revert b b' Hb. induction a as [n|bytes|bytes|op|d a IH|a IHa c IHc]; intros b b' Hb; cbn; [apply Hb..| |].
  - by apply IH.
  - intros [? ?]. eauto.
Qed.

(** What a task promises of its waits, it promises under a timer too. *)
Lemma wp_awaits {L A} (P P' : Protocol) (I : L → Prop) (t : task L A) (Q : L → A → Prop) :
  p_reply P' = p_reply P → p_event P' = p_event P → (∀ b a, p_await P b a → p_await P' b a) →
  wp P I t Q → wp P' I t Q.
Proof.
  destruct P as [pr pe pa pc], P' as [pr' pe' pa' pc']. cbn. intros -> -> Ha Ht.
  induction t as [| |l a k IH| |]; simpl in *; [naive_solver..| |done|done].
  destruct Ht as (Hl & Hw & Ht). split; [done|]. split; [by eapply awaits_all_mono; [apply Ha|apply Ha|]|]. auto.
Qed.

Lemma wp_until {L A} P (I : L → Prop) d (t : task L A) (Q : L → A → Prop) Q' :
  wp (timed P) I t Q → (∀ l a, Q l a → Q' l (Some a)) → (∀ l, I l → Q' l None) →
  wp P I (until d t) Q'.
Proof.
  intros Ht HQ HI.
  induction t as [| |l a k IH| |]; simpl in *; [naive_solver..| |done|done].
  destruct Ht as (Hl & Ha & Ht). split; [done|]. split; [by eapply awaits_all_mono; [| |exact Ha]|].
  intros [r|] Hr; [by apply IH, Ht|by apply HI].
Qed.

Lemma wp_timeout {L A} P (I : L → Prop) d (m : M L A) l (Q : L → A → Prop) (Q' : L → option A → Prop) :
  p_event P ENow → wp (timed P) I (m l) Q → (∀ l a, Q l a → Q' l (Some a)) → (∀ l, I l → Q' l None) →
  wp P I (timeout d m l) Q'.
Proof. intros He Hm HQ HI. split; [done|]. intros now _. by eapply wp_until. Qed.

(** What [select] returns: the result of one task, and a rest of the other that
    still satisfies the other's specification. *)
Definition select_post {L1 A1 L2 A2} P (I1 : L1 → Prop) (I2 : L2 → Prop)
    (Q1 : L1 → A1 → Prop) (Q2 : L2 → A2 → Prop) (r : selected L1 A1 L2 A2) : Prop :=
  match r with
  | inl (l1, a1, t2) => Q1 l1 a1 ∧ wp P I2 t2 Q2
  | inr (l2, a2, t1) => Q2 l2 a2 ∧ wp P I1 t1 Q1
  end.

Lemma wp_select {L L1 A1 L2 A2} P (I : L → Prop) (I1 : L1 → Prop) (I2 : L2 → Prop) l
    (t1 : task L1 A1) (t2 : task L2 A2) Q1 Q2 (Q : L → selected L1 A1 L2 A2 → Prop) :
  wp P I1 t1 Q1 → wp P I2 t2 Q2 → I l →
  (∀ r, select_post P I1 I2 Q1 Q2 r → Q l r) →
  wp P I (select l t1 t2) Q.
Proof.
  intros H1 H2 Hl HQ. revert t2 H2.
  induction t1 as [l1 a1|l1 e k1 IH1|l1 a1 k1 IH1| |]; intros t2 H2; simpl in *; [|naive_solver| |done|done].
  - by apply HQ.
  - induction t2 as [l2 a2|l2 e k2 IH2|l2 a2 k2 IH2| |]; simpl in *; [by apply HQ|naive_solver| |done|done].
    destruct H1 as (HI1 & Ha1 & H1). split; [done|]. split; [naive_solver|].
    intros [r|r] Hr; [|naive_solver]. apply IH1; [by apply H1|]. done.
Qed.
End wp_rules.

(** The logic of pending tasks: each result satisfies [R], and their labels are
    those of [ls], each task giving one result. *)
Section wp_race.
Context {H : Hickory} {A B : Type}.
Context (P : Protocol) (lab : A → B) (R : A → Prop).

Fixpoint race_wp (n : nat) : racing A n → list B → Prop :=
  match n return racing A n → list B → Prop with
  | O => λ _ ls, ls = []
  | S n => λ pending ls, wp P (λ _, True) pending
      (λ _ x, R x.1 ∧ ∃ ls', ls ≡ₚ lab x.1 :: ls' ∧ race_wp n x.2 ls')
  end.

Lemma race_wp_push n (t : task unit A) (pending : racing A n) b ls :
  wp P (λ _, True) t (λ _ a, R a ∧ lab a = b) → race_wp n pending ls →
  race_wp (S n) (race_push t pending) (b :: ls).
Proof.
  revert t pending b ls. induction n as [|n IH]; intros t pending b ls Ht Hp.
  - apply (wp_task_bind P (λ _, True)); [|done]. eapply wp_mono; [exact Ht|done|].
    intros l a [Ha <-]. split; [done|]. cbn in Hp. subst ls. by exists [].
  - apply (wp_task_bind P (λ _, True)); [|done]. eapply wp_select; [exact Ht|exact Hp|done|].
    intros [[[l1 a] rest]|[[l2 [a rest]] t']]; cbn.
    + intros [[Ha <-] Hrest]. split; [done|]. by exists ls.
    + intros [[Ha (ls' & Hls & Hrest)] Ht']. split; [done|]. exists (b :: ls'). split; [|by apply IH].
      rewrite Hls. constructor.
Qed.

Lemma race_wp_list (ts : list (task unit A)) (ls : list B) :
  Forall2 (λ t b, wp P (λ _, True) t (λ _ a, R a ∧ lab a = b)) ts ls → race_wp (length ts) (race ts) ls.
Proof. induction 1 as [|t b ts ls Ht Hts IH]; [done|]. by apply race_wp_push. Qed.

Lemma wp_race_next {L} n (pending : racing A (S n)) ls (I : L → Prop) l (Q : L → A * racing A n → Prop) :
  race_wp (S n) pending ls → I l →
  (∀ a rest ls', R a → ls ≡ₚ lab a :: ls' → race_wp n rest ls' → Q l (a, rest)) →
  wp P I (race_next pending l) Q.
Proof.
  intros Hp Hl HQ. apply wp_bind. eapply wp_enclose; [exact Hp|done|].
  intros l' [a rest] [Ha (ls' & Hls & Hr)]. apply wp_ret. by eapply HQ.
Qed.
End wp_race.

Lemma race_wp_mono {H : Hickory} {A B} (P : Protocol) (lab : A → B) (R R' : A → Prop) n (pending : racing A n) ls :
  race_wp P lab R n pending ls → (∀ a, R a → R' a) → race_wp P lab R' n pending ls.
Proof.
  intros Hp HR. revert pending ls Hp. induction n as [|n IH]; intros pending ls Hp; [exact Hp|].
  cbn in *. eapply wp_mono; [exact Hp|done|]. intros l x (Hx & ls' & Hls & Hrest). eauto 6.
Qed.

(** Every value a task can return, whatever the environment replies. *)
Fixpoint returns {H : Hickory} {L A} (R : A → Prop) (t : task L A) : Prop :=
  match t with
  | Ret _ a => R a
  | Sync _ _ k => ∀ r, returns R (k r)
  | Await _ _ k => ∀ r, returns R (k r)
  | Panic _ | OutOfFuel => True
  end.

Section returns.
Context {H : Hickory}.

Lemma wp_returns {L A} P (I : L → Prop) (t : task L A) Q (R : A → Prop) :
  wp P I t Q → returns R t → wp P I t (λ l a, Q l a ∧ R a).
Proof. intros Ht HR. induction t; simpl in *; naive_solver. Qed.

Lemma returns_task_bind {L L' A B} (t : task L A) (f : L → A → task L' B) up (R : B → Prop) :
  (∀ l a, returns R (f l a)) → returns R (task_bind t f up).
Proof. intros Hf. induction t; simpl; naive_solver. Qed.

Lemma returns_task_bind_strong {L L' A B} (t : task L A) (f : L → A → task L' B) up (R1 : A → Prop) (R : B → Prop) :
  returns R1 t → (∀ l a, R1 a → returns R (f l a)) → returns R (task_bind t f up).
Proof. intros Ht Hf. induction t; simpl in *; naive_solver. Qed.

Lemma returns_bind {L A B} (m : M L A) (f : A → M L B) l (R : B → Prop) :
  (∀ a l, returns R (f a l)) → returns R (bind m f l).
Proof. intros Hf. by apply returns_task_bind. Qed.

Lemma returns_bind_res {L A B} (m : M L (Res A)) (f : A → M L (Res B)) l (R : Res B → Prop) :
  (∀ a l, returns R (f a l)) → (∀ e, R (Err e)) → returns R (bind_res m f l).
Proof. intros Hf He. apply returns_bind. intros [a|e] l'; [apply Hf|apply He]. Qed.
End returns.

(** Split a goal [wp] at the head of a monadic program. *)
Ltac wp_step :=
  lazymatch goal with
  | |- wp _ _ (bind_res _ _ _) _ => apply wp_bind_res
  | |- wp _ _ (bind _ _ _) _ => apply wp_bind
  | |- wp _ _ (ret _ _) _ => apply wp_ret
  | |- wp _ _ (modify _ _) _ => apply wp_modify
  | |- wp _ _ (get _) _ => apply wp_get
  | |- wp _ _ (sync _ _) _ => apply wp_sync; [|intros ? ?]
  end.
Ltac wp_steps := repeat (wp_step; cbv beta).

(** ** The ambient operations of a query *)
Section ambient.
Context {H : Hickory}.

(** [counter.fetch_add(1)]. *)
Definition count {L} (c : Counter) : M L unit := sync (EMetric c 1).

(** @src src/src/context.rs 246-261 QueryContext::push_trace *)
Definition push_trace (plugin event detail : string) : M QueryContext unit := λ c,
  if negb (trace_enabled c) then Ret c tt
  else Sync c ENow (λ now : Z, Ret (push_trace_at now plugin event detail c) tt).

(** [QueryContext::new] with its two ambient reads.
    @src src/src/context.rs 68-88 QueryContext::new *)
Definition new_ctx {L} (query : Message) (addr : option IpAddr) (proto : ClientProto)
    : M L QueryContext :=
  let! id := sync ENextId in
  let! now := sync ENow in
  ret (ctx_new id now query addr proto).

(** [ctx.fork()].
    @src src/src/context.rs 286-305 QueryContext::fork *)
Definition fork_ctx : M QueryContext QueryContext :=
  let! id := sync ENextId in
  let! now := sync ENow in
  let! c := get in
  ret (fork id now c).

(** [ctx.clone_for_lazy()].
    @src src/src/context.rs 271-282 QueryContext::clone_for_lazy *)
Definition clone_ctx_for_lazy : M QueryContext QueryContext :=
  let! id := sync ENextId in
  let! now := sync ENow in
  let! c := get in
  ret (clone_for_lazy id now c).

(** A protocol that lets a task read the clock, access the cells of the upstreams and
    use the network under a timer: what an exchange does. *)
Record networked (P : Protocol) : Prop := mkNetworked {
  nw_now : p_event P ENow;
  nw_net : ∀ a, p_event P (ENet a);
  nw_op : ∀ op, p_await P true (ANet op);
}.

(** A protocol that lets a task read the clock, take ids, count, access the cells of
    the upstreams and use the network under a timer; that a timer is running never
    forbids to wait. *)
Record ambient (P : Protocol) : Prop := mkAmbient {
  amb_now : p_event P ENow;
  amb_id : p_event P ENextId;
  amb_metric : ∀ c n, p_event P (EMetric c n);
  amb_net : ∀ a, p_event P (ENet a);
  amb_op : ∀ op, p_await P true (ANet op);
  amb_timed : ∀ a, p_await P false a → p_await P true a;
  amb_ctx : ∀ c c', p_ctx P c → ctx_step c c' → p_ctx P c';
}.

Lemma ambient_networked P : ambient P → networked P.
Proof. intros []. by split. Qed.
Lemma networked_timed P : networked P → networked (timed P).
Proof. intros []. by split. Qed.
Lemma wp_timed {L A} P (I : L → Prop) (t : task L A) (Q : L → A → Prop) :
  ambient P → wp P I t Q → wp (timed P) I t Q.
Proof. intros HP. apply wp_awaits; [done|done|]. intros [] a; [done|apply HP]. Qed.

Lemma with_trace_id (c : QueryContext) : with_trace (c_trace c) c = c.
Proof. by destruct c. Qed.

Lemma wp_push_trace (P : Protocol) (I : QueryContext → Prop) plugin event detail c
    (Q : QueryContext → unit → Prop) :
  ambient P → (∀ t, Q (with_trace t c) tt) → wp P I (push_trace plugin event detail c) Q.
Proof.
  intros Ha HQ. unfold push_trace. destruct (negb (trace_enabled c)); simpl.
  - rewrite <- (with_trace_id c) at 1. apply HQ.
  - split; [apply Ha|]. intros now _. apply HQ.
Qed.

Lemma wp_count {L} (P : Protocol) (I : L → Prop) m l (Q : L → unit → Prop) :
  ambient P → Q l tt → wp P I (count m l) Q.
Proof. intros Ha HQ. split; [apply Ha|]. by intros []. Qed.

Lemma wp_new_ctx {L} (P : Protocol) (I : L → Prop) q addr proto l (Q : L → QueryContext → Prop) :
  ambient P → (∀ id now, Q l (ctx_new id now q addr proto)) → wp P I (new_ctx q addr proto l) Q.
Proof.
  intros Ha HQ. split; [apply Ha|]. intros id _. split; [apply Ha|]. intros now _. apply HQ.
Qed.

Lemma wp_fork_ctx (P : Protocol) (I : QueryContext → Prop) c (Q : QueryContext → QueryContext → Prop) :
  ambient P → (∀ id now, Q c (fork id now c)) → wp P I (fork_ctx c) Q.
Proof.
  intros Ha HQ. split; [apply Ha|]. intros id _. split; [apply Ha|]. intros now _. apply HQ.
Qed.

Lemma wp_clone_ctx_for_lazy (P : Protocol) (I : QueryContext → Prop) c
    (Q : QueryContext → QueryContext → Prop) :
  ambient P → (∀ id now, Q c (clone_for_lazy id now c)) → wp P I (clone_ctx_for_lazy c) Q.
Proof.
  intros Ha HQ. split; [apply Ha|]. intros id _. split; [apply Ha|]. intros now _. apply HQ.
Qed.
End ambient.

(** ** Operations of a pipeline

    [steps P m]: under protocol [P], [m] returns, does not panic, and takes the
    context of any request [P] is about to one of the same request; so does
    every state in which it is suspended. *)
Definition steps `{Hickory} {A} (P : Protocol) (m : M QueryContext A) : Prop :=
  ∀ c, p_ctx P c → wp P (ctx_step c) (m c) (λ c' _, ctx_step c c').

Section steps.
Context {H : Hickory} {HL : HickoryLaws H}.
Context (P : Protocol) (HP : ambient P).

Lemma steps_ret {A} (a : A) : steps P (ret a).
Proof. intros c _. by apply wp_ret. Qed.

(** A computation that steps, from any state the request has reached. *)
Lemma steps_from {A} (m : M QueryContext A) c c0 :
  steps P m → ctx_step c0 c → p_ctx P c0 → wp P (ctx_step c0) (m c) (λ c' _, ctx_step c0 c').
Proof.
  intros Hm Hc H0. eapply wp_mono; [apply Hm; by eapply amb_ctx|..]; intros c' *; by transitivity c.
Qed.

Lemma steps_bind {A B} (m : M QueryContext A) (f : A → M QueryContext B) :
  steps P m → (∀ a, steps P (f a)) → steps P (bind m f).
Proof.
  intros Hm Hf c H0. apply wp_bind. eapply wp_mono; [by apply Hm|done|].
  intros c' a Hc. by apply steps_from.
Qed.

Lemma steps_modify f : (∀ c, ctx_step c (f c)) → steps P (modify f).
Proof. intros Hf c _. apply wp_modify, Hf. Qed.

Lemma steps_push_trace plugin event detail : steps P (push_trace plugin event detail).
Proof. intros c _. apply wp_push_trace; [done|]. intros t. apply ctx_step_with_trace. Qed.

Lemma steps_count m : steps P (count m).
Proof. intros c _. by apply wp_count. Qed.

Lemma steps_sync e : p_event P e → steps P (sync e).
Proof. intros He c _. split; [done|]. by intros. Qed.

End steps.

#[export] Hint Resolve ctx_step_with_trace ctx_step_set_response ctx_step_reject
  ctx_step_rewrite_name ctx_step_apply_ttl_clamp ctx_step_filter_answers ctx_step_fork : ferrum.
#[export] Hint Resolve steps_ret steps_push_trace steps_count : ferrum.
#[export] Hint Extern 1 (ctx_step ?c ?c) => reflexivity : ferrum.

(** Decompose a goal [steps P m] along the monadic structure of [m]. *)
Ltac steps_auto :=
  repeat match goal with
  | |- steps _ (bind _ _) => apply steps_bind; [assumption| |intros ?]
  | |- steps _ (modify _) => apply steps_modify; intros ?
  | |- steps _ _ => solve [eauto with ferrum]
  end.

(** ** Runs

    [run t tr l a]: the task returns [a] in state [l] when the environment gives
    the replies recorded in [tr], which lists the accesses and suspensions in
    the order they happened. *)
Section runs.
Context {H : Hickory}.

Inductive item : Type :=
| ISync (e : event) (r : reply e)
| IAwait (a : await) (r : areply a).

Fixpoint run {L A} (t : task L A) (tr : list item) (l : L) (a : A) : Prop :=
  match t with
  | Ret l0 a0 => tr = [] ∧ l = l0 ∧ a = a0
  | Sync _ e k => ∃ r tr', tr = ISync e r :: tr' ∧ run (k r) tr' l a
  | Await _ w k => ∃ r tr', tr = IAwait w r :: tr' ∧ run (k r) tr' l a
  | Panic _ | OutOfFuel => False
  end.

(** How often a run counted. *)
Definition counted1 (m : Counter) (i : item) : Z :=
  match i with ISync (EMetric m' n) _ => if decide (m' = m) then n else 0 | _ => 0 end%Z.
Definition counted (m : Counter) (tr : list item) : Z := foldr (λ i n, counted1 m i + n)%Z 0%Z tr.

Lemma run_task_bind {L L' A B} (t : task L A) (f : L → A → task L' B) up tr l' b :
  run (task_bind t f up) tr l' b ↔
  ∃ tr1 tr2 l1 a, tr = tr1 ++ tr2 ∧ run t tr1 l1 a ∧ run (f l1 a) tr2 l' b.
Proof.
  revert tr. induction t as [l0 a|l0 e k IH|l0 w k IH| |]; intros tr; simpl; [|..|naive_solver|naive_solver].
  - split; [intros Hr; by exists [], tr, l0, a|].
    intros (tr1 & tr2 & l1 & a1 & -> & (-> & -> & ->) & Hr). exact Hr.
  - setoid_rewrite IH. split.
    + intros (r & tr' & -> & tr1 & tr2 & l1 & a & -> & H1 & H2). exists (ISync e r :: tr1), tr2, l1, a. eauto 6.
    + intros (tr1 & tr2 & l1 & a & -> & (r & tr' & -> & H1) & H2). exists r, (tr' ++ tr2). eauto 8.
  - setoid_rewrite IH. split.
    + intros (r & tr' & -> & tr1 & tr2 & l1 & a & -> & H1 & H2). exists (IAwait w r :: tr1), tr2, l1, a. eauto 6.
    + intros (tr1 & tr2 & l1 & a & -> & (r & tr' & -> & H1) & H2). exists r, (tr' ++ tr2). eauto 8.
Qed.

Lemma run_bind {L A B} (m : M L A) (f : A → M L B) l tr l' b :
  run (bind m f l) tr l' b ↔
  ∃ tr1 tr2 l1 a, tr = tr1 ++ tr2 ∧ run (m l) tr1 l1 a ∧ run (f a l1) tr2 l' b.
Proof. apply run_task_bind. Qed.

Lemma run_bind_res_iff {L A B} (m : M L (Res A)) (f : A → M L (Res B)) l tr l' r :
  run (bind_res m f l) tr l' r ↔
  ∃ tr1 tr2 l1 x, tr = tr1 ++ tr2 ∧ run (m l) tr1 l1 x
    ∧ match x with Ok a => run (f a l1) tr2 l' r | Err e => tr2 = [] ∧ l' = l1 ∧ r = Err e end.
Proof.
  unfold bind_res. rewrite run_bind. split; intros (tr1 & tr2 & l1 & [a|e] & -> & Hm & Hr); exists tr1, tr2, l1; eexists;
    (split; [done|]; split; [exact Hm|exact Hr]).
Qed.

Lemma run_push_trace plugin ev detail (c : QueryContext) tr c' u :
  run (push_trace plugin ev detail c) tr c' u →
  (∃ t, c' = with_trace t c) ∧ ∀ m, counted m tr = 0%Z.
Proof.
  unfold push_trace. destruct (negb (trace_enabled c)); simpl.
  - intros (-> & -> & _). split; [exists (c_trace c); by rewrite with_trace_id|done].
  - intros (now & tr' & -> & -> & -> & _). split; [by eexists|done].
Qed.

Lemma run_count {L} m (l : L) tr l' u :
  run (count m l) tr l' u → tr = [ISync (EMetric m 1) tt] ∧ l' = l.
Proof. simpl. intros ([] & tr' & -> & -> & -> & _). done. Qed.

Lemma counted_app m tr1 tr2 : counted m (tr1 ++ tr2) = (counted m tr1 + counted m tr2)%Z.
Proof. unfold counted. induction tr1 as [|i tr1 IH]; cbn [app foldr]; [done|]. rewrite IH. lia. Qed.

(** A wait under a timer of its own. *)
Lemma run_timeout_suspend {L} d a (l : L) tr l' (r : option (areply a)) :
  run (timeout d (suspend a) l) tr l' r ↔
  l' = l ∧ ∃ now, tr = [ISync ENow now; IAwait (ATimer (timer_at now d) a) r].
Proof.
  split.
  - intros (now & t & -> & x & t' & -> & Hr). destruct x as [x|]; destruct Hr as (-> & -> & ->); eauto.
  - intros (-> & now & ->). exists now. eexists. split; [reflexivity|]. exists r, []. by destruct r.
Qed.

(** Every task that satisfies [wp] ends, on every run, in its postcondition. *)
Definition item_ok (P : Protocol) (i : item) : Prop :=
  match i with ISync e r => p_reply P e r | IAwait w r => areply_ok w r end.
Definition item_event (P : Protocol) (i : item) : Prop :=
  match i with ISync e _ => p_event P e | IAwait w _ => awaits_all (p_await P) false w end.

Lemma wp_run {L A} (P : Protocol) (I : L → Prop) (t : task L A) Q tr l a :
  wp P I t Q → run t tr l a → Forall (item_ok P) tr → Q l a ∧ Forall (item_event P) tr.
Proof.
  revert tr. induction t as [l0 a0|l0 e k IH|l0 w k IH| |]; intros tr Ht Hr Htr; simpl in *; [| | |done|done].
  - destruct Hr as (-> & -> & ->). by split; [|constructor].
  - destruct Hr as (r & tr' & -> & Hr). apply Forall_cons in Htr as [Hi Htr].
    destruct Ht as [He Ht]. destruct (IH r tr' (Ht r Hi) Hr Htr). split; [done|]. by constructor.
  - destruct Hr as (r & tr' & -> & Hr). apply Forall_cons in Htr as [Hi Htr].
    destruct Ht as (Hl & Hw & Ht). destruct (IH r tr' (Ht r Hi) Hr Htr). split; [done|]. by constructor.
Qed.

(** What a run does between two awaited results: it counts. *)
Definition counting (i : item) : Prop := match i with ISync (EMetric _ _) _ => True | _ => False end.

(** In [tr] the pending tasks have completed with the results [xs], in this order. *)
Fixpoint completes {A n} (pending : racing A n) (tr : list item) (xs : list A) {struct xs} : Prop :=
  match xs with
  | [] => True
  | x :: xs =>
      match n return racing A n → Prop with
      | O => λ _, False
      | S n => λ pending, ∃ tr1 skip tr2 rest, tr = tr1 ++ skip ++ tr2 ∧ run pending tr1 tt (x, rest)
          ∧ Forall counting skip ∧ completes (rest : racing A n) tr2 xs
      end pending
  end.

Lemma completes_race_wp {A B} (P : Protocol) (lab : A → B) (R : A → Prop) n (pending : racing A n) tr xs ls :
  completes pending tr xs → Forall (item_ok P) tr → race_wp P lab R n pending ls →
  Forall R xs ∧ lab <$> xs ⊆+ ls.
Proof.
  revert n pending tr ls. induction xs as [|x xs IH]; intros n pending tr ls Hc Htr Hp; [split; [done|apply submseteq_nil_l]|].
  destruct n as [|n]; [done|]. cbn in Hc. destruct Hc as (tr1 & skip & tr2 & rest & -> & Hr & _ & Hc).
  rewrite !Forall_app in Htr. destruct Htr as (Htr1 & _ & Htr2).
  destruct (wp_run _ _ _ _ _ _ _ Hp Hr Htr1) as [[Hx (ls' & Hls & Hrest)] _]. cbn in *.
  destruct (IH _ _ _ _ Hc Htr2 Hrest) as [Hxs Hsub]. split; [by constructor|]. rewrite Hls. by constructor.
Qed.

Lemma run_race_next {L A n} (pending : racing A (S n)) (l : L) tr l' x :
  run (race_next pending l) tr l' x → l' = l ∧ run (pending : task unit (A * racing A n)) tr tt x.
Proof.
  unfold race_next. intros (t1 & t2 & l1 & [u y] & -> & Hp & Hr)%run_bind. destruct Hr as (-> & -> & ->). rewrite app_nil_r.
  apply run_task_bind in Hp as (t3 & t4 & [] & a & -> & Ha & Hr). destruct Hr as (-> & -> & [= -> ->]). by rewrite app_nil_r.
Qed.
End runs.
