(* ===== verification/Metrics.v ===== *)
(** * [metrics.rs]: the counters as a state

    The events [EMetric] of a task are the [fetch_add]s on these counters.  A
    [Metrics] value is the state of the nine atomics; the start time is fixed. *)
From S2P Require Import Prelude RustStr RustNet Error Hickory HickoryDemo External PublicIp.
From S2P Require Import DnsUtil Context Upstream Shard Task.

(** @src src/src/metrics.rs 5-16 Metrics *)
Record Metrics : Type := mkMetrics { counter : Counter → Z; started : Z }.

(** @src src/src/metrics.rs 19-32 Metrics::new *)
Definition metrics_new (now : Z) : Metrics := mkMetrics (λ _, 0%Z) now.

(** [AtomicU64::fetch_add] wraps. *)
Definition fetch_add (c : Counter) (n : Z) (m : Metrics) : Metrics :=
  mkMetrics (λ c', if decide (c' = c) then wrap_u64 (counter m c + n) else counter m c') (started m).

(** @src src/src/metrics.rs 34-37 Metrics::observe_query *)
Definition observe (latency_us : Z) (m : Metrics) : Metrics :=
  fetch_add LatencyUsSum latency_us (fetch_add Queries 1 m).

(** @src src/src/metrics.rs 90-102 Snapshot *)
Record Snapshot : Type := mkSnapshot {
  sn_queries : Z;
  sn_responses : Z;
  sn_cache_hits : Z;
  sn_cache_misses : Z;
  sn_cache_lazy_hits : Z;
  sn_upstream_ok : Z;
  sn_upstream_err : Z;
  sn_dropped : Z;
  sn_avg_latency_us : Z;
  sn_uptime_secs : Z;
}.

(** The loads see one state here; [now] is the clock.
    @src src/src/metrics.rs 39-54 Metrics::snapshot *)
Definition snapshot (now : Z) (m : Metrics) : Snapshot :=
  let q := counter m Queries in
  let sum := counter m LatencyUsSum in
  mkSnapshot q (counter m Responses) (counter m CacheHits) (counter m CacheMisses) (counter m CacheLazyHits)
    (counter m UpstreamOk) (counter m UpstreamErr) (counter m Dropped)
    (if (q =? 0)%Z then 0 else sum / q)%Z (saturating_sub now (started m) / 1000000000)%Z.

Definition nl : string := String (ascii_of_nat 10) "".

(** The three lines of one metric. *)
Definition metric_line (name value : string) : string := name +:+ " " +:+ value +:+ nl.
Definition type_line (name kind : string) : string := "# TYPE " +:+ name +:+ " " +:+ kind +:+ nl.

(** @src src/src/metrics.rs 56-87 Metrics::prometheus *)
Definition prometheus (now : Z) (m : Metrics) : string :=
  let s := snapshot now m in
  let metric name kind v := type_line name kind +:+ metric_line name (show_Z v) in
  "# HELP ferrumdns_queries_total Total DNS queries" +:+ nl
  +:+ metric "ferrumdns_queries_total" "counter" (sn_queries s)
  +:+ metric "ferrumdns_responses_total" "counter" (sn_responses s)
  +:+ metric "ferrumdns_cache_hits_total" "counter" (sn_cache_hits s)
  +:+ metric "ferrumdns_cache_misses_total" "counter" (sn_cache_misses s)
  +:+ metric "ferrumdns_upstream_ok_total" "counter" (sn_upstream_ok s)
  +:+ metric "ferrumdns_upstream_err_total" "counter" (sn_upstream_err s)
  +:+ metric "ferrumdns_avg_latency_microseconds" "gauge" (sn_avg_latency_us s)
  +:+ metric "ferrumdns_uptime_seconds" "gauge" (sn_uptime_secs s).

(** ** Runs and counters *)

(** The counters after the accesses of a run. *)
Fixpoint metrics_after `{Hickory} (tr : list item) (m : Metrics) : Metrics :=
  match tr with
  | [] => m
  | ISync (EMetric c n) _ :: tr => metrics_after tr (fetch_add c n m)
  | _ :: tr => metrics_after tr m
  end.

Lemma fetch_add_counter c n m c' :
  (0 ≤ counter m c' ≤ u64_max)%Z →
  counter (fetch_add c n m) c' = wrap_u64 (counter m c' + if decide (c = c') then n else 0)%Z
  ∧ (0 ≤ counter (fetch_add c n m) c' ≤ u64_max)%Z.
Proof.
  intros Hr. unfold fetch_add. cbn. destruct (decide (c' = c)) as [->|Hne].
  - rewrite decide_True by done. split; [done|apply wrap_u64_range].
  - rewrite decide_False by congruence. rewrite Z.add_0_r. split; [|done].
    unfold wrap_u64, u64_max in *. rewrite Z.mod_small; lia.
Qed.

Lemma wrap_u64_add a b : wrap_u64 (wrap_u64 a + b) = wrap_u64 (a + b).
Proof. unfold wrap_u64. apply Zplus_mod_idemp_l. Qed.

Lemma metrics_after_counted `{Hickory} tr m c :
  (0 ≤ counter m c ≤ u64_max)%Z → counter (metrics_after tr m) c = wrap_u64 (counter m c + counted c tr).
Proof.
  revert m. induction tr as [|i tr IH]; intros m Hm.
  { cbn. rewrite Z.add_0_r. unfold wrap_u64, u64_max in *. rewrite Z.mod_small; lia. }
  destruct i as [e r|w r]; [|by apply IH].
  destruct e as [| |c' n| | | | | | |]; try (by apply IH).
  cbn [metrics_after]. destruct (fetch_add_counter c' n m c Hm) as [Hc Hr]. rewrite IH by done.
  rewrite Hc, wrap_u64_add. f_equal. unfold counted. cbn [foldr counted1]. lia.
Qed.

(** After the accesses of any runs, in any order, every counter is the sum of
    what the runs added to it, modulo 2^64; the snapshot never divides by zero,
    and its average latency is at most the sum of the latencies. *)
Theorem metrics_snapshot `{Hickory} (tr : list item) (m : Metrics) (now : Z) :
  (∀ c, (0 ≤ counter m c ≤ u64_max)%Z) →
  let m' := metrics_after tr m in
  (∀ c, counter m' c = wrap_u64 (counter m c + counted c tr))
  ∧ (0 ≤ sn_avg_latency_us (snapshot now m') ≤ counter m' LatencyUsSum)%Z
  ∧ (counter m' Queries = 0%Z → sn_avg_latency_us (snapshot now m') = 0%Z)
  ∧ sn_responses (snapshot now m') = wrap_u64 (counter m Responses + counted Responses tr)
  ∧ sn_dropped (snapshot now m') = wrap_u64 (counter m Dropped + counted Dropped tr).
Proof.
  intros Hm m'. assert (Hc : ∀ c, counter m' c = wrap_u64 (counter m c + counted c tr)).
  { intros c. by apply metrics_after_counted. }
  assert (Hr : ∀ c, (0 ≤ counter m' c ≤ u64_max)%Z) by (intros c; rewrite Hc; apply wrap_u64_range).
  split; [done|]. cbn. pose proof (Hr LatencyUsSum). pose proof (Hr Queries).
  split; [|split; [|by rewrite !Hc]].
  - destruct (Z.eqb_spec (counter m' Queries) 0); [lia|]. split; [apply Z.div_pos; lia|].
    apply Z.div_le_upper_bound; [lia|]. nia.
  - intros ->. done.
Qed.

(** Two queries, one answered and one dropped. *)
Lemma metrics_snapshot_witness :
  let tr := [ISync (EMetric Responses 1) tt; ISync (EMetric Queries 1) tt; ISync (EMetric LatencyUsSum 300) tt;
             ISync (EMetric Dropped 1) tt; ISync (EMetric Queries 1) tt; ISync (EMetric LatencyUsSum 500) tt] in
  let m := metrics_after tr (metrics_new 0) in
  sn_avg_latency_us (snapshot 0 m) = 400%Z ∧ (∀ c, counter m c = wrap_u64 (0 + counted c tr)).
Proof.
  intros tr m. split; [by vm_compute|]. apply (metrics_snapshot tr (metrics_new 0) 0). intros c. vm_compute. by split.
Defined.
