(* ===== verification/Actions.v ===== *)
(** * [plugin/actions.rs]: built-in steps, [black_hole] and [redirect]

    A built-in step is parsed from the text of a sequence and applied to the
    context without suspending. *)
From S2P Require Import Prelude RustStr RustNet Error Hickory HickoryDemo External PublicIp.
From S2P Require Import DnsUtil Context Upstream Shard Task.

(** @src src/src/plugin/mod.rs 21-28 Action *)
Inductive Action : Type := ActContinue | ActAccept | ActReturn | ActGoto (tag : string).
#[export] Instance Action_eq_dec : EqDecision Action.
Proof. solve_decision. Defined.

Section actions.
Context {H : Hickory}.

(** @src src/src/plugin/actions.rs 8-20 Builtin *)
Inductive Builtin : Type :=
| BAccept
| BReturn
| BReject (rcode : ResponseCode)
| BDropResp
| BTtl (min max : Z)
| BPreferV4
| BPreferV6
| BMark (m : Z)
| BGoto (tag : string)
| BNoEcs.

(** @src src/src/plugin/actions.rs 123-141 parse_ttl_range *)
Definition parse_ttl_range (spec : string) : Res (Z * Z) :=
  match split_once "-" spec with
  | Some (a, b) =>
      let? min := ok_or (parse_uint u32_max (trim a)) (ErrConfig "bad ttl minimum") in
      let? max := ok_or (parse_uint u32_max (trim b)) (ErrConfig "bad ttl maximum") in
      if (max <? min)%Z then Err (ErrConfig "ttl minimum must not exceed maximum")
      else Ok (min, max)
  | None =>
      let? v := ok_or (parse_uint u32_max spec) (ErrConfig "bad ttl") in
      Ok (v, v)
  end.

(** @src src/src/plugin/actions.rs 23-65 Builtin::parse *)
Definition builtin_parse (s : string) : Res Builtin :=
  let s := trim s in
  let parts := split_whitespace s in
  let head := default "" (parts !! 0%nat) in
  let next := parts !! 1%nat in
  if decide (head = "accept") then Ok BAccept
  else if decide (head = "return") then Ok BReturn
  else if decide (head = "drop_resp" ∨ head = "drop") then Ok BDropResp
  else if decide (head = "prefer_ipv4") then Ok BPreferV4
  else if decide (head = "prefer_ipv6") then Ok BPreferV6
  else if decide (head = "reject") then Ok (BReject (rcode_from_str (default "REFUSED" next)))
  else if decide (head = "ttl") then
    let? spec := ok_or next (ErrConfig "ttl needs a value or range") in
    let? (min, max) := parse_ttl_range spec in
    Ok (BTtl min max)
  else if decide (head = "mark") then
    let? n := ok_or (parse_uint u32_max (default "0" next)) (ErrConfig "bad mark") in
    Ok (BMark n)
  else if decide (head = "goto" ∨ head = "jump") then
    let? tag := ok_or next (ErrConfig "goto needs a tag") in
    Ok (BGoto (trim_start_matches "$" tag))
  else if decide (head = "no_ecs" ∨ head = "_no_ecs") then Ok BNoEcs
  else Err (ErrConfig ("unknown builtin exec `" +:+ head
                       +:+ "` (did you forget `$` for a plugin tag?)")).

(** @src src/src/plugin/actions.rs 67-80 Builtin::label *)
Definition builtin_label (b : Builtin) : string :=
  match b with
  | BAccept => "accept"
  | BReturn => "return"
  | BReject c => "reject " +:+ rcode_display c
  | BDropResp => "drop_resp"
  | BTtl min max => "ttl " +:+ show_Z min +:+ "-" +:+ show_Z max
  | BPreferV4 => "prefer_ipv4"
  | BPreferV6 => "prefer_ipv6"
  | BMark m => "mark " +:+ show_Z m
  | BGoto t => "goto " +:+ t
  | BNoEcs => "no_ecs"
  end.

(** @src src/src/plugin/actions.rs 82-120 Builtin::apply *)
Definition builtin_apply (b : Builtin) : M QueryContext (Res Action) := λ ctx,
  match b with
  | BAccept => Ret ctx (Ok ActAccept)
  | BReturn => Ret ctx (Ok ActReturn)
  | BReject c => Ret (reject c ctx) (Ok ActAccept)
  | BDropResp => Ret (drop_response ctx) (Ok ActContinue)
  | BTtl min max =>
      if (max <? min)%Z then Ret ctx (Err (ErrConfig "ttl minimum must not exceed maximum"))
      else match apply_ttl_clamp min max ctx with
           | Some ctx => Ret ctx (Ok ActContinue)
           | None => Panic "assertion failed: min <= max"
           end
  | BPreferV4 => Ret (prefer_ipv4 ctx) (Ok ActContinue)
  | BPreferV6 => Ret (prefer_ipv6 ctx) (Ok ActContinue)
  | BMark m => Ret (add_mark m ctx) (Ok ActContinue)
  | BGoto t => Ret ctx (Ok (ActGoto t))
  | BNoEcs =>
      let ctx := with_query (remove_ecs (c_query ctx)) ctx in
      Ret (with_strip_ecs_on_reply true ctx) (Ok ActContinue)
  end.

(** ** [black_hole] *)

(** @src src/src/plugin/actions.rs 146-148 Blackhole *)
Record Blackhole : Type := mkBlackhole { bh_rcode : ResponseCode }.

(** ** [redirect] *)

(** @src src/src/plugin/actions.rs 169-171 Redirect *)
Record Redirect : Type := mkRedirect { rd_rules : list (string * Name) }.

Context {Y : Yaml}.

(** @src src/src/plugin/actions.rs 151-158 Blackhole::from_args *)
Definition blackhole_from_args (args : YValue) : Blackhole :=
  mkBlackhole (match yget_as y_as_str "rcode" args with
               | Some s => rcode_from_str s
               | None => rc_NXDomain
               end).

(** @src src/src/plugin/actions.rs 163-166 Blackhole::exec *)
Definition blackhole_exec (b : Blackhole) : M QueryContext (Res Action) := λ ctx,
  Ret (reject (bh_rcode b) ctx) (Ok ActContinue).

(** The closure [add].
    @src src/src/plugin/actions.rs 174-215 Redirect::from_args *)
Definition redirect_add (rules : list (string * Name)) (from to : string) : Res (list (string * Name)) :=
  let? from_name := map_err (λ e, ErrConfig ("bad redirect source `" +:+ from +:+ "`: " +:+ e))
                      (name_from_ascii from) in
  let? to_name := map_err (λ e, ErrConfig ("bad redirect target `" +:+ to +:+ "`: " +:+ e))
                    (name_from_ascii to) in
  Ok (rules ++ [(to_ascii_lowercase (trim_end_matches "." (name_to_ascii from_name)), to_name)]).

(** @src src/src/plugin/actions.rs 174-215 Redirect::from_args *)
Definition redirect_from_args (args : YValue) : Res Redirect :=
  let? rules :=
    match yget "rules" args with
    | None => Ok []
    | Some rules =>
        match yview rules with
        | YMapping map =>
            result_foldM (λ rules '(k, v),
              let? from := ok_or (y_as_str k) (ErrConfig "redirect source must be a string") in
              let? to := ok_or (y_as_str v) (ErrConfig "redirect target must be a string") in
              redirect_add rules from to) [] map
        | YSequence seq =>
            result_foldM (λ rules item,
              let? s := ok_or (y_as_str item) (ErrConfig "redirect rule must be a string") in
              match split_whitespace s with
              | [from; to] => redirect_add rules from to
              | _ => Err (ErrConfig "redirect rule needs source and target")
              end) [] seq
        | _ => Err (ErrConfig "redirect rules must be a map or list")
        end
    end in
  Ok (mkRedirect rules).

(** The test of one rule against a lower-cased name without final dot. *)
Definition redirect_matches (qn from : string) : bool :=
  let from := trim_end_matches "." from in
  bool_decide (qn = from) || ends_with ("." +:+ from) qn.

(** @src src/src/plugin/actions.rs 220-231 Redirect::exec *)
Definition redirect_exec (r : Redirect) : M QueryContext (Res Action) := λ ctx,
  let qn := to_ascii_lowercase (trim_end_matches "." (qname_str ctx)) in
  match find_first (λ '(from, _), redirect_matches qn from) (rd_rules r) with
  | Some (_, to) =>
      (do! modify (rewrite_name to) in
       do! push_trace "redirect" "rewrite" (qn +:+ " -> " +:+ name_display to) in
       ret (Ok ActContinue)) ctx
  | None => Ret ctx (Ok ActContinue)
  end.
End actions.

(** ** No plugin returns [Goto]

    Only a built-in step does, and the sequence that holds it acts on it. *)
Definition no_goto (r : Res Action) : Prop := ∀ t, r ≠ Ok (ActGoto t).
Definition never_goto `{Hickory} (m : M QueryContext (Res Action)) : Prop :=
  ∀ c, returns no_goto (m c).

Ltac goto_auto :=
  repeat first
    [ progress intros | done | progress cbv zeta beta
    | progress cbn [returns ret modify get sync]
    | apply returns_bind | apply returns_bind_res | apply returns_task_bind | case_match ].

(** ** The actions keep to the request *)
Section actions_steps.
Context {H : Hickory} {HL : HickoryLaws H}.
Context (P : Protocol) (HP : ambient P).

Lemma steps_builtin_apply b : steps P (builtin_apply b).
Proof.
  intros c _. destruct b; simpl; try reflexivity; try (by apply ctx_step_same).
  - destruct (Z.ltb_spec max min) as [Hlt|Hle]; [simpl; reflexivity|].
    destruct (apply_ttl_clamp_Some min max c Hle) as [c' Hc]. rewrite Hc. simpl. eauto with ferrum.
  - apply ctx_step_filter_answers.
  - apply ctx_step_filter_answers.
  - apply ctx_step_same; simpl; [done|apply queries_remove_ecs|done..].
Qed.

Lemma steps_blackhole_exec b : steps P (blackhole_exec b).
Proof. intros c _. apply ctx_step_reject. Qed.

Lemma steps_redirect_exec r : steps P (redirect_exec r).
Proof.
  unfold redirect_exec. intros c Hc. destruct (find_first _ _) as [[from to]|]; [|simpl; reflexivity].
  eapply (steps_from P HP); [steps_auto; apply ctx_step_rewrite_name|reflexivity|done].
Qed.

Lemma never_goto_blackhole_exec b : never_goto (blackhole_exec b).
Proof. unfold never_goto, blackhole_exec. goto_auto. Qed.

Lemma never_goto_redirect_exec r : never_goto (redirect_exec r).
Proof. unfold never_goto, redirect_exec. goto_auto. Qed.
End actions_steps.

#[export] Hint Resolve steps_builtin_apply steps_blackhole_exec steps_redirect_exec : ferrum.
