(* ===== verification/Ecs.v ===== *)
(** * [plugin/ecs.rs]: attaching and removing the client subnet *)
From S2P Require Import Prelude RustStr RustNet Error Hickory HickoryDemo External PublicIp.
From S2P Require Import DnsUtil Context Upstream Shard Task Actions.

Section ecs.
Context {H : Hickory} {N : IpNetLib}.

(** @src src/src/plugin/ecs.rs 13-22 Ecs *)
Record Ecs : Type := mkEcs {
  ecs_tag : string;
  ecs_auto : bool;
  ecs_ipv4 : option Ipv4Addr;
  ecs_ipv6 : option Ipv6Addr;
  ecs_force_overwrite : bool;
  ecs_mask4 : Z;
  ecs_mask6 : Z;
}.

(** @src src/src/plugin/ecs.rs 60-86 Ecs::pick *)
Definition ecs_pick (e : Ecs) (ctx : QueryContext) : option (IpAddr * Z) :=
  if ecs_auto e then
    match client_addr ctx with
    | None => None
    | Some ip =>
        if negb (is_public_ip ip) then None
        else Some (ip, if is_ipv4 ip then ecs_mask4 e else ecs_mask6 e)
    end
  else
    let prefer_v4 := bool_decide (qtype ctx ≠ rt_AAAA) in
    let v4 := (λ ip, (V4 ip, ecs_mask4 e)) <$> ecs_ipv4 e in
    let v6 := (λ ip, (V6 ip, ecs_mask6 e)) <$> ecs_ipv6 e in
    if prefer_v4 then match v4 with Some r => Some r | None => v6 end
    else match v6 with Some r => Some r | None => v4 end.

(** @src src/src/plugin/ecs.rs 91-108 Ecs::exec *)
Definition ecs_exec (e : Ecs) : M QueryContext (Res Action) := λ ctx,
  let existing := ecs_of (c_query ctx) in
  if bool_decide (is_Some existing) && negb (ecs_force_overwrite e) then
    (do! push_trace (ecs_tag e) "keep" (ecs_label existing) in ret (Ok ActContinue)) ctx
  else
    match ecs_pick e ctx with
    | None => (do! push_trace (ecs_tag e) "skip" "no public address" in ret (Ok ActContinue)) ctx
    | Some (ip, mask) =>
        let '(net, mask) := masked ip mask in
        (do! modify (λ ctx, if bool_decide (existing = None) then with_strip_ecs_on_reply true ctx else ctx) in
         do! modify (λ ctx, with_query (set_ecs (c_query ctx) (cs_new net mask 0)) ctx) in
         do! push_trace (ecs_tag e) "attach" (show_ip net +:+ "/" +:+ show_Z mask) in
         ret (Ok ActContinue)) ctx
    end.

(** @src src/src/plugin/ecs.rs 111-114 NoEcs *)
Record NoEcs : Type := mkNoEcs { ne_tag : string }.

(** @src src/src/plugin/ecs.rs 124-129 NoEcs::exec *)
Definition no_ecs_exec (n : NoEcs) : M QueryContext (Res Action) :=
  do! modify (λ ctx, with_query (remove_ecs (c_query ctx)) ctx) in
  do! modify (with_strip_ecs_on_reply true) in
  do! push_trace (ne_tag n) "strip" "query" in
  ret (Ok ActContinue).

Context {Y : Yaml}.

(** @src src/src/plugin/ecs.rs 132-142 parse_mask *)
Definition parse_mask (args : YValue) (key : string) (dflt maximum : Z) : Res Z :=
  let err := ErrConfig ("ecs " +:+ key +:+ " must be an integer in 0..=" +:+ show_Z maximum) in
  match yget key args with
  | None => Ok dflt
  | Some value =>
      match y_as_u64 value with
      | Some n => if (n <=? maximum)%Z then Ok n else Err err
      | None => Err err
      end
  end.

(** [args.get(key).and_then(as_str).map(parse).transpose()] with its error. *)
Definition parse_opt {A} (parse : string → option A) (err : string) (o : option string) : Res (option A) :=
  match o with
  | None => Ok None
  | Some s => let? a := ok_or (parse s) (ErrConfig err) in Ok (Some a)
  end.

(** @src src/src/plugin/ecs.rs 25-58 Ecs::from_args *)
Definition ecs_from_args (tag : string) (args : YValue) : Res Ecs :=
  let auto := default false (yget_as y_as_bool "auto" args) in
  let? ipv4 := parse_opt parse_ipv4 ("ecs ipv4: " +:+ ipv4_parse_error) (yget_as y_as_str "ipv4" args) in
  let? ipv6 := parse_opt parse_ipv6 ("ecs ipv6: " +:+ ipv6_parse_error) (yget_as y_as_str "ipv6" args) in
  if negb auto && bool_decide (ipv4 = None) && bool_decide (ipv6 = None) then
    Err (ErrConfig "ecs plugin needs `ipv4`/`ipv6` or `auto: true`")
  else
    let? mask4 := parse_mask args "mask4" 24 32 in
    let? mask6 := parse_mask args "mask6" 48 128 in
    Ok (mkEcs tag auto ipv4 ipv6 (default false (yget_as y_as_bool "force_overwrite" args)) mask4 mask6).
End ecs.

(** ** Properties *)
Section ecs_properties.
Context {H : Hickory} {HL : HickoryLaws H} {N : IpNetLib}.
Context (P : Protocol) (HP : ambient P).

Lemma steps_ecs_exec e : steps P (ecs_exec e).
Proof.
  unfold ecs_exec. intros c Hc. destruct (_ && _).
  { eapply (steps_from P HP); [steps_auto|reflexivity|done]. }
  destruct (ecs_pick e c) as [[ip mask]|]; [|eapply (steps_from P HP); [steps_auto|reflexivity|done]].
  destruct (masked ip mask) as [net mask']. eapply (steps_from P HP); [|reflexivity|done].
  steps_auto; [by case_bool_decide; apply ctx_step_same|].
  apply ctx_step_with_query, queries_set_ecs.
Qed.

Lemma steps_no_ecs_exec n : steps P (no_ecs_exec n).
Proof.
  unfold no_ecs_exec. steps_auto; [|by apply ctx_step_same].
  apply ctx_step_with_query, queries_remove_ecs.
Qed.

Lemma never_goto_ecs_exec e : never_goto (ecs_exec e).
Proof. unfold never_goto, ecs_exec. goto_auto. Qed.

Lemma never_goto_no_ecs_exec n : never_goto (no_ecs_exec n).
Proof. unfold never_goto, no_ecs_exec. goto_auto. Qed.
End ecs_properties.

#[export] Hint Resolve steps_ecs_exec steps_no_ecs_exec : ferrum.

(** What an [ecs] step may attach: nothing, or a network address of at most the
    configured length. *)
Section ecs_privacy.
Context {H : Hickory} {HL : HickoryLaws H} {N : IpNetLib} {NL : IpNetLaws N}.

(** The network an [ecs] step puts in the query. *)
Definition attached (e : Ecs) (c : QueryContext) (cs : ClientSubnet) : Prop :=
  ∃ ip mask, ecs_pick e c = Some (ip, mask)
    ∧ cs_source_prefix cs = Z.min mask (ip_bits ip)
    ∧ cs_scope_prefix cs = 0%Z
    ∧ cs_addr cs = mask_ip (Z.min mask (ip_bits ip)) ip
    ∧ (ecs_auto e = true → client_addr c = Some ip ∧ is_public_ip ip = true).
End ecs_privacy.


