(* ===== verification/Hosts.v ===== *)
(** * [plugin/hosts.rs]: local names

    The table of a [hosts] plugin is fixed once it is built, so the lock around
    it is left out. *)
From S2P Require Import Prelude RustStr RustNet Error Hickory HickoryDemo External PublicIp.
From S2P Require Import DnsUtil Context Upstream Shard Task Actions Config DomainSet.

(** @src src/src/plugin/hosts.rs 21-24 HostRec *)
Record HostRec : Type := mkHostRec { hr_ip : IpAddr }.

(** @src src/src/plugin/hosts.rs 15-19 HostTable *)
Definition HostTable : Type := gmap string (list HostRec).

(** @src src/src/plugin/hosts.rs 26-30 Hosts *)
Record Hosts : Type := mkHosts {
  ho_tag : string;
  ho_table : HostTable;
  ho_ttl : Z;
}.

(** [name.trim_end_matches('.').to_ascii_lowercase()]. *)
Definition host_key (name : string) : string := to_ascii_lowercase (trim_end_matches "." name).

Section hosts.
Context {H : Hickory}.

(** One name of a line: [table.by_name.entry(key).or_default().push(HostRec { ip })]. *)
Definition add_host (ip : IpAddr) (table : HostTable) (n : string) : Res HostTable :=
  let? _ := map_err (λ e, ErrConfig ("bad hostname in hosts `" +:+ n +:+ "`: " +:+ e)) (name_from_ascii n) in
  let key := host_key n in
  Ok (<[key := default [] (table !! key) ++ [mkHostRec ip]]> table).

(** @src src/src/plugin/hosts.rs 107-140 parse_hosts_line *)
Definition parse_hosts_line (table : HostTable) (line : string) : Res HostTable :=
  let line := trim (default "" (head (split_on "#" line))) in
  if bool_decide (line = "") || starts_with "#" line then Ok table
  else
    let parts := split_whitespace line in
    let first := default "" (head parts) in
    let rest := tail parts in
    let? (ip_s, names) :=
      if bool_decide (is_Some (parse_ip first)) then Ok (first, rest)
      else match rest with
           | [r] => if bool_decide (is_Some (parse_ip r)) then Ok (r, [first])
                    else Err (ErrConfig ("bad hosts line: " +:+ line))
           | _ => Err (ErrConfig ("bad hosts line: " +:+ line))
           end in
    let? ip := ok_or (parse_ip_addr ip_s)
                 (ErrConfig ("bad ip in hosts `" +:+ ip_s +:+ "`: " +:+ ip_parse_error)) in
    match names with
    | [] => Err (ErrConfig ("hosts line needs a hostname: " +:+ line))
    | _ => result_foldM (add_host ip) table names
    end.

(** The record of one address for a question of type [qtype]. *)
Definition host_record (n : Name) (ttl : Z) (qtype : RecordType) (r : HostRec) : option Record_ :=
  match hr_ip r with
  | V4 ip => if decide (qtype = rt_A) then Some (record_a n ttl ip)
             else if decide (qtype = rt_AAAA) then None
             else if decide (qtype = rt_ANY) then Some (record_a n ttl ip) else None
  | V6 ip => if decide (qtype = rt_AAAA) then Some (record_aaaa n ttl ip)
             else if decide (qtype = rt_A) then None
             else if decide (qtype = rt_ANY) then Some (record_aaaa n ttl ip) else None
  end.

(** @src src/src/plugin/hosts.rs 65-91 Hosts::lookup *)
Definition hosts_lookup (h : Hosts) (name : string) (qtype : RecordType) : list Record_ :=
  let key := host_key name in
  match ho_table h !! key with
  | None => []
  | Some recs =>
      match name_from_str (key +:+ ".") with
      | Err _ => []
      | Ok n => omap (host_record n (ho_ttl h) qtype) recs
      end
  end.

(** @src src/src/plugin/hosts.rs 92-95 Hosts::known_name *)
Definition hosts_known_name (h : Hosts) (name : string) : bool :=
  bool_decide (is_Some (ho_table h !! host_key name)).

(** @src src/src/plugin/hosts.rs 144-156 Hosts::exec *)
Definition hosts_exec (h : Hosts) : M QueryContext (Res Action) := λ ctx,
  let name := qname_str ctx in
  let recs := hosts_lookup h name (qtype ctx) in
  match recs with
  | _ :: _ =>
      (do! push_trace (ho_tag h) "hit" name in
       do! modify (λ ctx, set_response (build_hosts_response (c_query ctx) recs) ctx) in
       ret (Ok ActContinue)) ctx
  | [] =>
      if hosts_known_name h name then
        (do! push_trace (ho_tag h) "nodata" name in
         do! modify (λ ctx, set_response (build_hosts_response (c_query ctx) []) ctx) in
         ret (Ok ActContinue)) ctx
      else Ret ctx (Ok ActContinue)
  end.

Context {Y : Yaml} {E : ConfigEnv}.

(** @src src/src/plugin/hosts.rs 98-105 load_file *)
Definition hosts_load_file (table : HostTable) (path : string) : Res HostTable :=
  let? text := map_err (λ e, ErrConfig ("hosts file " +:+ path +:+ ": " +:+ e)) (fs_read_to_string path) in
  result_foldM parse_hosts_line table (str_lines text).

(** @src src/src/plugin/hosts.rs 33-63 Hosts::from_args *)
Definition hosts_from_args (tag : string) (args : YValue) (base : string) : Res Hosts :=
  let table := ∅ in
  let ttl := wrap_u32 (default 60%Z (yget_as y_as_u64 "ttl" args)) in
  let? table := result_foldM parse_hosts_line table (yget_strings "entries" args) in
  let? table := result_foldM (λ table p, hosts_load_file table (resolve_path base p)) table
                  (yget_strings "files" args) in
  let? table :=
    match yget_as y_as_mapping "hosts" args with
    | Some map =>
        result_foldM (λ table '(k, v),
          match y_as_str k, y_as_str v with
          | Some name, Some ip => parse_hosts_line table (ip +:+ " " +:+ name)
          | _, _ => Ok table
          end) table map
    | None => Ok table
    end in
  Ok (mkHosts tag table ttl).
End hosts.

(** ** Properties *)
Section hosts_steps.
Context {H : Hickory} {HL : HickoryLaws H}.
Context (P : Protocol) (HP : ambient P).

Lemma steps_hosts_exec h : steps P (hosts_exec h).
Proof.
  intros c Hc. unfold hosts_exec. destruct (hosts_lookup h (qname_str c) (qtype c)) as [|r rs].
  - destruct (hosts_known_name h (qname_str c)); [|simpl; reflexivity].
    eapply (steps_from P HP); [steps_auto; apply ctx_step_set_response|reflexivity|done].
  - eapply (steps_from P HP); [steps_auto; apply ctx_step_set_response|reflexivity|done].
Qed.

Lemma never_goto_hosts_exec h : never_goto (hosts_exec h).
Proof. unfold never_goto, hosts_exec. goto_auto. Qed.
End hosts_steps.

#[export] Hint Resolve steps_hosts_exec : ferrum.

(** A record of the table: an address of the queried family, under the name. *)
Definition host_answer `{Hickory} (h : Hosts) (key : string) (qt : RecordType) (r : Record_) : Prop :=
  ∃ n recs ip, name_from_str (key +:+ ".") = Ok n ∧ ho_table h !! key = Some recs ∧ mkHostRec ip ∈ recs
    ∧ rec_name r = n ∧ rec_ttl r = wrap_u32 (ho_ttl h)
    ∧ match ip with
      | V4 a => record_type r = rt_A ∧ rdata_view (rec_data r) = RDataA a ∧ (qt = rt_A ∨ qt = rt_ANY)
      | V6 a => record_type r = rt_AAAA ∧ rdata_view (rec_data r) = RDataAAAA a ∧ (qt = rt_AAAA ∨ qt = rt_ANY)
      end.

Section hosts_local.
Context {H : Hickory} {HL : HickoryLaws H}.

Lemma foldl_add_answer msg l : answers (foldl (λ msg r, add_answer r msg) msg l) = answers msg ++ l.
Proof.
  revert msg. induction l as [|r l IH]; intros msg; simpl; [by rewrite app_nil_r|].
  rewrite IH. dns. by rewrite <- app_assoc.
Qed.

Lemma foldl_add_answer_rcode msg l :
  response_code (foldl (λ msg r, add_answer r msg) msg l) = response_code msg.
Proof. revert msg. induction l as [|r l IH]; intros msg; simpl; [done|]. rewrite IH. dns. done. Qed.

Lemma foldl_add_query msg l :
  answers (foldl (λ msg q, add_query q msg) msg l) = answers msg
  ∧ response_code (foldl (λ msg q, add_query q msg) msg l) = response_code msg
  ∧ message_type (foldl (λ msg q, add_query q msg) msg l) = message_type msg.
Proof.
  revert msg. induction l as [|q l IH]; intros msg; simpl; [done|].
  destruct (IH (add_query q msg)) as (-> & -> & ->). dns. done.
Qed.

Lemma reply_skeleton_spec q rc :
  answers (reply_skeleton q rc) = [] ∧ response_code (reply_skeleton q rc) = rc
  ∧ message_type (reply_skeleton q rc) = mt_Response.
Proof.
  unfold reply_skeleton. set (m0 := set_response_code rc _).
  destruct (foldl_add_query m0 (queries q)) as (Ha & Hr & Ht).
  destruct message_new_lists as (_ & Hn & _).
  assert (Hm0 : answers m0 = [] ∧ response_code m0 = rc ∧ message_type m0 = mt_Response).
  { unfold m0. dns. revert Hn. dns. done. }
  destruct Hm0 as (H1 & H2 & H3). rewrite H1 in Ha. rewrite H2 in Hr. rewrite H3 in Ht.
  destruct (extensions q); [|done]. revert Ha Hr Ht. dns. done.
Qed.

Lemma foldl_add_query_fields msg l :
  op_code (foldl (λ msg q, add_query q msg) msg l) = op_code msg
  ∧ queries (foldl (λ msg q, add_query q msg) msg l) = queries msg ++ l.
Proof.
  revert msg. induction l as [|q l IH]; intros msg; simpl; [by rewrite app_nil_r|].
  destruct (IH (add_query q msg)) as [-> ->]. dns. by rewrite <- app_assoc.
Qed.

Lemma reply_skeleton_fields q rc :
  op_code (reply_skeleton q rc) = op_code q ∧ queries (reply_skeleton q rc) = queries q.
Proof.
  unfold reply_skeleton. set (m0 := set_response_code rc _).
  destruct (foldl_add_query_fields m0 (queries q)) as [Ho Hq].
  destruct message_new_lists as (Hn & _).
  assert (Hm0 : op_code m0 = op_code q ∧ queries m0 = []) by (unfold m0; revert Hn; dns; done).
  destruct Hm0 as [H1 H2]. rewrite H1 in Ho. rewrite H2 in Hq.
  destruct (extensions q); [|done]. revert Ho Hq. dns. done.
Qed.

Lemma build_hosts_response_spec q l :
  answers (build_hosts_response q l) = l ∧ response_code (build_hosts_response q l) = rc_NoError.
Proof.
  unfold build_hosts_response. rewrite foldl_add_answer, foldl_add_answer_rcode.
  destruct (reply_skeleton_spec q rc_NoError) as (Ha & Hr & _). revert Ha Hr. dns.
  intros -> ->. done.
Qed.

Lemma hosts_lookup_answer h name qt r :
  r ∈ hosts_lookup h name qt → host_answer h (host_key name) qt r.
Proof.
  unfold hosts_lookup. destruct (ho_table h !! host_key name) as [recs|] eqn:Et; [|set_solver].
  destruct (name_from_str _) as [n|e] eqn:En; [|set_solver].
  intros ([ip] & Hin & Hr)%list_elem_of_omap. exists n, recs, ip.
  pose proof rt_distinct as Hd. rewrite !NoDup_cons in Hd.
  split; [done|]. split; [done|]. split; [done|].
  unfold host_record in Hr. simpl in Hr. unfold record_a, record_aaaa in Hr.
  destruct ip; repeat case_decide; simplify_eq; dns;
    rewrite ?rdata_view_A, ?rdata_view_AAAA; naive_solver.
Qed.
End hosts_local.


