(* ===== verification/Cache.v ===== *)
(** * [plugin/cache.rs]: the response cache

    The value of a [Cache] is its fixed configuration; its shards and its set of
    in-flight refreshes are shared state, accessed by [EShard], [EMark] and [EUnmark]
    events, one per critical section of the code. *)
From S2P Require Import Prelude RustStr RustNet Error Hickory HickoryDemo External PublicIp.
From S2P Require Import DnsUtil Context Upstream Shard Task Actions.

(** @src src/src/plugin/cache.rs 82-91 Cache *)
Record Cache : Type := mkCache {
  ca_tag : string;
  ca_n_shards : nat;
  ca_shard_cap : nat;
  ca_lazy_ttl : Z;
  ca_lazy_reply_ttl : Z;
  ca_everything : bool;
  ca_refresh : option string;
}.

(** The hash of [shard]: [wrapping_mul] and [^] on 64 bits. *)
Definition hash_step (h : Z) (b : ascii) : Z :=
  Z.lxor (wrap_u64 (h * 16777619)) (Z.of_N (byte_of b)).
Fixpoint hash_key (h : Z) (key : string) : Z :=
  match key with "" => h | String b key' => hash_key (hash_step h b) key' end.

(** The index [shard] selects.
    @src src/src/plugin/cache.rs 141-147 Cache::shard *)
Definition shard_index (c : Cache) (key : string) : nat :=
  Z.to_nat (hash_key 0 key mod Z.of_nat (ca_n_shards c)).

(** [{}] and [{:?}] of a [bool]. *)
Definition show_bool (b : bool) : string := if b then "true" else "false".

Section cache.
Context {H : Hickory}.

(** @src src/src/plugin/cache.rs 93-98 CacheLookup *)
Record CacheLookup : Type := mkCacheLookup {
  cl_key : string;
  cl_query : Message;
  cl_rewrite_start : nat;
}.

(** @src src/src/plugin/cache.rs 186-193 Cache::cacheable_edns *)
Definition cacheable_edns (message : Message) : bool :=
  match extensions message with
  | None => true
  | Some edns => forallb (λ '(code, _), bool_decide (code = code_Subnet)) (edns_options edns)
  end.

(** [format!("{:?}", edns.map(|e| (e.version(), e.flags().dnssec_ok)))]. *)
Definition debug_edns (edns : option Edns) : string :=
  match edns with
  | Some e => "Some((" +:+ show_Z (edns_version e) +:+ ", " +:+ show_bool (dnssec_ok e) +:+ "))"
  | None => "None"
  end.

(** The lower-cased name of the first question, without final dots. *)
Definition key_name (q0 : Query) : string :=
  to_ascii_lowercase (trim_end_matches "." (name_ascii (query_name q0))).

(** @src src/src/plugin/cache.rs 149-184 Cache::key_of *)
Definition key_of (q : Message) (everything : bool) : option string :=
  if negb (cacheable_edns q) then None
  else
    let simple := Nat.eqb (length (queries q)) 1 && bool_decide (length (answers q) = 0)
                  && bool_decide (length (name_servers q) = 0) && bool_decide (length (additionals q) = 0) in
    if negb simple && negb everything then None
    else if negb simple then
      let normalized := set_id 0 q in
      match encode_msg normalized with
      | Ok wire => Some ("wire:" +:+ debug_hex_bytes wire)
      | Err _ => None
      end
    else
      match queries q with
      | [] => None
      | q0 :: _ =>
          Some (key_name q0
                +:+ "|" +:+ rt_debug (query_type q0)
                +:+ "|" +:+ class_debug (query_class q0)
                +:+ "|" +:+ ecs_cache_key q
                +:+ "|rd=" +:+ show_bool (recursion_desired q)
                +:+ "|cd=" +:+ show_bool (checking_disabled q)
                +:+ "|ad=" +:+ show_bool (authentic_data q)
                +:+ "|edns=" +:+ debug_edns (extensions q))
      end.

(** @src src/src/plugin/cache.rs 195-201 Cache::snapshot *)
Definition cache_snapshot (c : Cache) (ctx : QueryContext) : option CacheLookup :=
  match key_of (c_query ctx) (ca_everything c) with
  | Some key => Some (mkCacheLookup key (c_query ctx) (rewrite_count ctx))
  | None => None
  end.

(** The critical section of [lookup], at time [now]: the wire, whether the hit is
    lazy, and the time of storing.
    @src src/src/plugin/cache.rs 203-212 Cache::lookup *)
Definition lookup_locked (c : Cache) (key : string) (now : Z) (s : Shard)
    : Shard * option (list Z * bool * Z) :=
  let '(s, e) := shard_get key s in
  match e with
  | None => (s, None)
  | Some e =>
      if (e_expire e <=? now)%Z then (s, None)
      else
        let lazy := (e_ttl_deadline e <=? now)%Z && (0 <? ca_lazy_ttl c)%Z in
        (s, Some (e_wire e, lazy, e_stored e))
  end.

(** @src src/src/plugin/cache.rs 203-212 Cache::lookup *)
Definition cache_lookup {L} (c : Cache) (key : string) : M L (option (list Z * bool * Z)) :=
  sync (EShard (ca_tag c) (shard_index c key) _ (lookup_locked c key)).

(** The critical section of [store]. *)
Definition insert_locked (key : string) (e : Entry) (now : Z) (s : Shard) : Shard * unit :=
  (shard_insert key e s, tt).

(** The entry [store] builds at time [now]; [None] when an addition to an
    [Instant] overflows and panics.
    @src src/src/plugin/cache.rs 228-235 Cache::store *)
Definition make_entry (c : Cache) (wire : list Z) (min now : Z) : option Entry :=
  ttl_deadline ← instant_add now (secs min);
  expire ← (if (0 <? ca_lazy_ttl c)%Z then
              lazy ← instant_add now (ca_lazy_ttl c); Some (Z.max ttl_deadline lazy)
            else Some ttl_deadline);
  Some (mkEntry wire now ttl_deadline expire).

(** @src src/src/plugin/cache.rs 214-244 Cache::store *)
Definition cache_store {L} (c : Cache) (key : string) (resp : Message) : M L unit :=
  if bool_decide (response_code resp ≠ rc_NoError) || truncated resp || negb (cacheable_edns resp)
  then ret tt
  else match encode_msg resp with
  | Err _ => ret tt
  | Ok wire =>
      let min := min_ttl resp in
      if (min =? 0)%Z then ret tt
      else
        let! now := sync ENow in
        match make_entry c wire min now with
        | None => λ _, Panic "overflow when adding duration to instant"
        | Some entry => sync (EShard (ca_tag c) (shard_index c key) _ (insert_locked key entry))
        end
  end.

(** @src src/src/plugin/cache.rs 246-250 Cache::flush *)
Definition cache_flush {L} (c : Cache) : M L unit :=
  foldr (λ i m, do! sync (EShard (ca_tag c) i _ (λ _ s, (shard_flush s, tt))) in m) (ret tt)
    (seq 0 (ca_n_shards c)).

(** @src src/src/plugin/cache.rs 252-254 Cache::len *)
Definition cache_len {L} (c : Cache) : M L nat :=
  foldr (λ i m, let! n := sync (EShard (ca_tag c) i nat (λ _ s, (s, shard_len s))) in
                let! rest := m in ret (n + rest)) (ret 0) (seq 0 (ca_n_shards c)).

(** @src src/src/plugin/cache.rs 262-269 Cache::store_lookup *)
Definition store_lookup {L} (c : Cache) (ctx : QueryContext) (lookup : CacheLookup) : M L unit :=
  if served_from_cache ctx
     || match c_response ctx with Some r => negb (cacheable_edns r) | None => false end
  then ret tt
  else match response_for_query (cl_query lookup) (cl_rewrite_start lookup) ctx with
       | Some response => cache_store c (cl_key lookup) response
       | None => ret tt
       end.

(** @src src/src/plugin/cache.rs 256-260 Cache::maybe_store *)
Definition maybe_store {L} (c : Cache) (ctx : QueryContext) : M L unit :=
  match cache_snapshot c ctx with
  | Some lookup => store_lookup c ctx lookup
  | None => ret tt
  end.

(** @src src/src/plugin/cache.rs 275-298 Cache::kick_refresh *)
Definition kick_refresh (c : Cache) (key : string) : M QueryContext unit := λ ctx,
  if skip_cache ctx then Ret ctx tt
  else match ca_refresh c with
  | None => Ret ctx tt
  | Some entry =>
      (let! fresh := sync (EMark (ca_tag c) key) in
       if negb fresh then ret tt
       else
         let! bg := clone_ctx_for_lazy in
         let entry := default entry (pipeline_entry ctx) in
         sync (ESpawn (mkRefresh bg (ca_tag c) key entry))) ctx
  end.

(** [Instant::now().saturating_duration_since(stored).as_secs() as u32]. *)
Definition elapsed_secs (now stored : Z) : Z := wrap_u32 (saturating_sub now stored / 1000000000).

(** The part of [exec] after a lookup that missed or whose wire did not decode. *)
Definition cache_miss (c : Cache) (detail : string) : M QueryContext (Res Action) :=
  do! count CacheMisses in
  do! push_trace (ca_tag c) "miss" detail in
  ret (Ok ActContinue).

(** The part of [exec] for a hit, [msg] being the decoded wire.
    @src src/src/plugin/cache.rs 303-337 Cache::exec *)
Definition cache_hit (c : Cache) (key : string) (msg : Message) (lazy : bool) (stored : Z)
    : M QueryContext (Res Action) :=
  let! now := sync ENow in
  let elapsed := elapsed_secs now stored in
  let! msg :=
    (if lazy then
       let msg := set_all_ttl msg (ca_lazy_reply_ttl c) in
       do! count CacheLazyHits in
       do! push_trace (ca_tag c) "lazy_hit" key in
       do! kick_refresh c key in
       ret msg
     else
       let msg := subtract_ttl msg elapsed in
       do! push_trace (ca_tag c) "hit" key in
       ret msg) in
  do! count CacheHits in
  do! modify (λ ctx, set_response (rebind_response msg (c_query ctx)) ctx) in
  do! modify (with_served_from_cache true) in
  ret (Ok ActContinue).

(** @src src/src/plugin/cache.rs 303-337 Cache::exec *)
Definition cache_exec (c : Cache) : M QueryContext (Res Action) := λ ctx,
  match key_of (c_query ctx) (ca_everything c) with
  | None => Ret ctx (Ok ActContinue)
  | Some key =>
      if skip_cache ctx then cache_miss c "refresh" ctx
      else
        (let! hit := cache_lookup c key in
         match hit with
         | Some (wire, lazy, stored) =>
             match decode_msg wire with
             | Ok msg => cache_hit c key msg lazy stored
             | Err _ => cache_miss c key
             end
         | None => cache_miss c key
         end) ctx
  end.

Context {Y : Yaml}.

(** [refresh] is bound later, by [bind_cache_refresh].
    @src src/src/plugin/cache.rs 112-139 Cache::from_args *)
Definition cache_from_args (tag : string) (args : YValue) : Cache :=
  let size := default 8192%Z (yget_as y_as_u64 "size" args) in
  let n_shards := 16%nat in
  let per := Z.to_nat (Z.max (size / Z.of_nat n_shards) 32) in
  let lazy := default 0%Z (yget_or "lazy_cache_ttl" "lazy_ttl" args ≫= y_as_u64) in
  let lazy_reply := wrap_u32 (default 5%Z (yget_as y_as_u64 "lazy_cache_reply_ttl" args)) in
  mkCache tag n_shards per (secs lazy) (Z.max lazy_reply 1)
    (default false (yget_as y_as_bool "cache_everything" args)) None.

(** [OnceLock::set]: only the first call has an effect.
    @src src/src/plugin/cache.rs 271-273 Cache::bind_refresh *)
Definition bind_refresh (entry : string) (c : Cache) : Cache :=
  mkCache (ca_tag c) (ca_n_shards c) (ca_shard_cap c) (ca_lazy_ttl c) (ca_lazy_reply_ttl c)
    (ca_everything c) (match ca_refresh c with Some e => Some e | None => Some entry end).

(** The shards of a new cache. *)
Definition new_shards (c : Cache) : list Shard := replicate (ca_n_shards c) (shard_new (ca_shard_cap c)).
End cache.

(** ** The cache keeps to the request *)
Section cache_steps.
Context {H : Hickory} {HL : HickoryLaws H}.
Context (P : Protocol) (HP : ambient P).

Lemma never_goto_cache_exec c : never_goto (cache_exec c).
Proof. unfold never_goto, cache_exec, cache_miss, cache_hit. goto_auto. Qed.

(** What makes a message worth an entry under [key]: the conditions [store]
    tests, and the question it answers. *)
Record storable (c : Cache) (key : string) (resp : Message) (wire : list Z) : Prop := mkStorable {
  sto_rcode : response_code resp = rc_NoError;
  sto_truncated : truncated resp = false;
  sto_edns : cacheable_edns resp = true;
  sto_wire : encode_msg resp = Ok wire;
  sto_min : (0 < min_ttl resp ≤ u32_max)%Z;
  sto_key : ∃ q, key_of q (ca_everything c) = Some key ∧ bound_to q resp;
}.

(** What a protocol must allow for a cache to be used: its critical sections,
    on the cache's own shards and in-flight set, and its refreshes; and the clock
    must stay away from the end of time. *)
Record cache_allowed (c : Cache) : Prop := mkCacheAllowed {
  cap_lookup : ∀ key, p_event P (EShard (ca_tag c) (shard_index c key) _ (lookup_locked c key));
  cap_store : ∀ key resp wire now e, storable c key resp wire → p_reply P ENow now →
    make_entry c wire (min_ttl resp) now = Some e →
    p_event P (EShard (ca_tag c) (shard_index c key) _ (insert_locked key e));
  cap_time : ∀ wire min now, p_reply P ENow now → (0 ≤ min ≤ u32_max)%Z →
    is_Some (make_entry c wire min now);
  cap_inflight : ∀ key, p_event P (EMark (ca_tag c) key);
  cap_spawn : ∀ ctx id now key entry, p_ctx P ctx → skip_cache ctx = false →
    p_event P (ESpawn (mkRefresh (clone_for_lazy id now ctx) (ca_tag c) key entry));
}.

Lemma steps_cache_miss c detail : steps P (cache_miss c detail).
Proof. unfold cache_miss. steps_auto. Qed.

Lemma steps_kick_refresh c key : cache_allowed c → steps P (kick_refresh c key).
Proof.
  intros [_ _ _ Hi Hs] ctx Hctx. unfold kick_refresh. destruct (skip_cache ctx) eqn:Esk; [simpl; reflexivity|].
  destruct (ca_refresh c) as [entry|]; [|simpl; reflexivity].
  apply wp_bind, wp_sync; [apply Hi|]. intros [|] _; simpl negb; cbv iota; [|apply wp_ret; reflexivity].
  apply wp_bind, wp_clone_ctx_for_lazy; [done|]. intros id now.
  apply wp_sync; [by apply Hs|]. reflexivity.
Qed.

Lemma steps_cache_hit c key msg lazy stored : cache_allowed c → steps P (cache_hit c key msg lazy stored).
Proof.
  intros Hc. unfold cache_hit. apply (steps_bind P HP); [by apply steps_sync, HP|]. intros now.
  apply (steps_bind P HP); [destruct lazy; steps_auto; by apply steps_kick_refresh|]. intros m.
  steps_auto; [apply ctx_step_set_response|by apply ctx_step_same].
Qed.

Lemma steps_cache_exec c : cache_allowed c → steps P (cache_exec c).
Proof.
  intros Hc ctx Hctx. unfold cache_exec. destruct (key_of _ _) as [key|]; [|simpl; reflexivity].
  destruct (skip_cache ctx); [by apply steps_cache_miss|].
  eapply (steps_from P HP); [|reflexivity|done]. apply (steps_bind P HP); [apply steps_sync, Hc|].
  intros [[[wire lazy] stored]|]; [|apply steps_cache_miss].
  destruct (decode_msg wire); [by apply steps_cache_hit|apply steps_cache_miss].
Qed.

Lemma min_ttl_range m : (0 ≤ min_ttl m ≤ u32_max)%Z.
Proof.
  destruct (decide (min_ttl m = 0%Z)) as [->|Hn]; [unfold u32_max; lia|].
  destruct (min_ttl_attained m Hn) as (r & _ & <-). apply rec_ttl_range.
Qed.

(** The lookup was taken from a query with that key. *)
Definition lookup_of (c : Cache) (lookup : CacheLookup) : Prop :=
  key_of (cl_query lookup) (ca_everything c) = Some (cl_key lookup).

Lemma cache_snapshot_of c ctx lookup : cache_snapshot c ctx = Some lookup → lookup_of c lookup.
Proof. unfold cache_snapshot, lookup_of. destruct (key_of _ _) eqn:E; [|done]. by intros [= <-]. Qed.

Lemma wp_cache_store {L} (I : L → Prop) c key resp q l (Q : L → unit → Prop) :
  cache_allowed c → key_of q (ca_everything c) = Some key → bound_to q resp →
  Q l tt → wp P I (cache_store c key resp l) Q.
Proof.
  intros Hc Hk Hb HQ. unfold cache_store. destruct (_ || _) eqn:E; [exact HQ|].
  rewrite !orb_false_iff, negb_false_iff in E. destruct E as ((E1 & E2) & E3).
  apply bool_decide_eq_false, dec_stable in E1.
  destruct (encode_msg resp) as [wire|e] eqn:Ew; [|exact HQ].
  pose proof (min_ttl_range resp) as Hm. destruct (Z.eqb_spec (min_ttl resp) 0); [exact HQ|].
  apply wp_bind, wp_sync; [apply HP|]. intros now Hnow.
  destruct (cap_time c Hc wire (min_ttl resp) now Hnow Hm) as [entry He]. rewrite He.
  apply wp_sync; [|by intros []]. eapply cap_store; [done| |done|done].
  split; try done; [lia|eauto].
Qed.

Lemma wp_store_lookup {L} (I : L → Prop) c ctx lookup l (Q : L → unit → Prop) :
  cache_allowed c → lookup_of c lookup → Q l tt → wp P I (store_lookup c ctx lookup l) Q.
Proof.
  intros Hc Hl HQ. unfold store_lookup. destruct (_ || _); [exact HQ|].
  destruct (response_for_query _ _ _) as [resp|] eqn:Er; [|exact HQ].
  apply wp_cache_store with (cl_query lookup); [done|done| |done]. by eapply response_for_query_bound.
Qed.
End cache_steps.
