(* ===== verification/CacheKey.v ===== *)
(** * The key of a cached response

    [key_of] of [plugin/cache.rs] prints the parts of a query that may change its
    answer.  Two queries share an entry exactly when these parts agree: the
    printed fields are free of the separator, so a key can be read back from its
    right end whatever the name contains. *)
From stdpp Require Import pretty.
From S2P Require Import Prelude RustStr RustNet Error Hickory HickoryDemo External PublicIp.
From S2P Require Import DnsUtil Context Upstream Shard Net Task Actions Cache.

(** ** Strings without a character *)
Fixpoint free_of (c : ascii) (s : string) : Prop :=
  match s with "" => True | String a s' => a ≠ c ∧ free_of c s' end.

#[export] Instance free_of_dec c s : Decision (free_of c s).
Proof. induction s as [|a s IH]; simpl; apply _. Defined.

Lemma append_nil_r s : s +:+ "" = s.
Proof. induction s as [|a s IH]; [done|]. change (String a (s +:+ "") = String a s). by rewrite IH. Qed.

Lemma app_cons_str a s1 s2 : String a s1 +:+ s2 = String a (s1 +:+ s2).
Proof. done. Qed.

Lemma append_assoc_str s1 s2 s3 : s1 +:+ (s2 +:+ s3) = (s1 +:+ s2) +:+ s3.
Proof. induction s1 as [|a s1 IH]; [done|]. rewrite !app_cons_str. by rewrite IH. Qed.

Lemma free_of_app c s1 s2 : free_of c (s1 +:+ s2) ↔ free_of c s1 ∧ free_of c s2.
Proof. induction s1 as [|a s1 IH]; [simpl; tauto|]. rewrite app_cons_str. simpl. rewrite IH. tauto. Qed.

(** The last occurrence of a separator determines the split. *)
Lemma split_last c s1 s2 t1 t2 :
  free_of c t1 → free_of c t2 → s1 +:+ String c t1 = s2 +:+ String c t2 → s1 = s2 ∧ t1 = t2.
Proof.
  intros H1 H2. revert s2. induction s1 as [|a s1 IH]; intros [|b s2]; rewrite ?app_cons_str; intros E; injection E.
  - intros ->. done.
  - intros -> <-. rewrite free_of_app in H1. simpl in H1. tauto.
  - intros <- ->. rewrite free_of_app in H2. simpl in H2. tauto.
  - intros E' ->. destruct (IH s2 E') as [-> ->]. done.
Qed.

(** A name followed by fields, each after a separator. *)
Fixpoint fields (c : ascii) (l : list string) : string :=
  match l with [] => "" | x :: l => String c x +:+ fields c l end.

Lemma fields_app c l1 l2 : fields c (l1 ++ l2) = fields c l1 +:+ fields c l2.
Proof. induction l1 as [|x l1 IH]; [done|]. cbn [fields app]. by rewrite IH, append_assoc_str. Qed.

Lemma fields_inj c n1 n2 l1 l2 :
  length l1 = length l2 → Forall (free_of c) l1 → Forall (free_of c) l2 →
  n1 +:+ fields c l1 = n2 +:+ fields c l2 → n1 = n2 ∧ l1 = l2.
Proof.
  revert l2. induction l1 as [|x l1 IH] using rev_ind; intros l2; destruct l2 as [|y l2 _] using rev_ind;
    rewrite ?length_app; simpl; [|intros; lia..|].
  { intros _ _ _. by rewrite !append_nil_r. }
  intros Hl [H1 Hx]%Forall_app [H2 Hy]%Forall_app. rewrite Forall_singleton in Hx, Hy.
  rewrite !fields_app. cbn [fields]. rewrite !append_nil_r, !append_assoc_str.
  intros E. apply split_last in E as [E ->]; [|auto..].
  destruct (IH l2) as [-> ->]; [lia|done|done|done|done].
Qed.

(** ** What is printed *)
Lemma free_of_pretty_N c (n : N) : is_digit c = false → free_of c (pretty n).
Proof.
  intros Hc.
  assert (Hd : ∀ d, pretty_N_char d ≠ c).
  { intros d <-. revert Hc. unfold pretty_N_char. repeat case_match; discriminate. }
  assert (Hgo : ∀ n s, free_of c s → free_of c (pretty_N_go n s)).
  { clear n. intros n. induction (N.lt_wf_0 n) as [n _ IH]. intros s Hs.
    destruct (decide (n = 0)%N) as [->|Hn]; [by rewrite pretty_N_go_0|].
    rewrite pretty_N_go_step by lia. apply IH; [apply N.div_lt; lia|]. by split. }
  unfold pretty, pretty_N. case_decide; [split; [apply (Hd 0%N)|done]|]. by apply Hgo.
Qed.

Lemma free_of_show_Z c z : is_digit c = false → c ≠ "-"%char → free_of c (show_Z z).
Proof.
  intros Hc Hm. unfold show_Z, pretty, pretty_Z. destruct z; [by apply (free_of_pretty_N c 0)|..].
  - by apply free_of_pretty_N.
  - split; [congruence|]. by apply free_of_pretty_N.
Qed.

Lemma hex_char_free c n : (0 ≤ n < 16)%Z → c ∈ ["|"%char; "/"%char] → hex_char n ≠ c.
Proof.
  intros Hn Hc.
  assert (n = 0 ∨ n = 1 ∨ n = 2 ∨ n = 3 ∨ n = 4 ∨ n = 5 ∨ n = 6 ∨ n = 7 ∨ n = 8 ∨ n = 9 ∨ n = 10
    ∨ n = 11 ∨ n = 12 ∨ n = 13 ∨ n = 14 ∨ n = 15)%Z as Hcases by lia.
  rewrite !elem_of_cons in Hc. destruct Hc as [->|[->|Hc]]; [| |by apply elem_of_nil in Hc];
    destruct_or! Hcases; subst; discriminate.
Qed.

Lemma free_of_join c sep l : free_of c sep → Forall (free_of c) l → free_of c (join sep l).
Proof.
  intros Hsep. unfold join. induction 1 as [|x l Hx Hl IH]; [done|]. simpl. destruct l; [done|].
  rewrite !free_of_app. done.
Qed.

Lemma show_hex16_free c n : c ∈ ["|"%char; "/"%char] → free_of c (show_hex16 n).
Proof.
  intros Hc. assert (Hd : ∀ m, hex_char (m mod 16) ≠ c).
  { intros m. apply hex_char_free; [|done]. by apply Z.mod_pos_bound. }
  unfold show_hex16. repeat case_match; simpl; auto 10.
Qed.

Lemma show_ip_free c ip : c ∈ ["|"%char; "/"%char] → free_of c (show_ip ip).
Proof.
  intros Hc. assert (Hk : is_digit c = false ∧ c ≠ "-"%char ∧ free_of c "." ∧ free_of c ":"
                          ∧ free_of c "::" ∧ free_of c "::ffff:").
  { rewrite !elem_of_cons in Hc. destruct Hc as [->|[->|Hc]]; [| |by apply elem_of_nil in Hc];
      (repeat split; discriminate). }
  destruct Hk as (Hk1 & Hk2 & Hk3 & Hk4 & Hk5 & Hk6).
  assert (H4 : ∀ a, free_of c (show_ipv4 a)).
  { intros a. apply free_of_join; [done|]. apply Forall_fmap, Forall_forall. intros z _.
    by apply free_of_show_Z. }
  assert (Hs : ∀ l, free_of c (fmt_subslice l)).
  { intros l. apply free_of_join; [done|]. apply Forall_fmap, Forall_forall. intros z _.
    by apply show_hex16_free. }
  destruct ip as [a|a]; [apply H4|]. unfold show_ip, show_ipv6.
  destruct (to_ipv4_mapped a); [by apply free_of_app|].
  destruct (longest_zeros _ _ _ _) as [start len]. case_match; [|done]. by rewrite !free_of_app.
Qed.

Lemma show_Z_inj z1 z2 : show_Z z1 = show_Z z2 → z1 = z2.
Proof. apply pretty_Z_inj. Qed.

Lemma show_bool_inj b1 b2 : show_bool b1 = show_bool b2 → b1 = b2.
Proof. by destruct b1, b2. Qed.

Lemma hex_char_inj a b : (0 ≤ a < 16)%Z → (0 ≤ b < 16)%Z → hex_char a = hex_char b → a = b.
Proof.
  intros Ha Hb. unfold hex_char. intros E%(f_equal N_of_ascii).
  rewrite !N_ascii_embedding in E by (repeat case_match; lia). repeat case_match; lia.
Qed.

Lemma show_hex8_inj a b : (0 ≤ a ≤ 255)%Z → (0 ≤ b ≤ 255)%Z → show_hex8 a = show_hex8 b → a = b.
Proof.
  intros Ha Hb [= E1%hex_char_inj E2%hex_char_inj]; try by apply Z.mod_pos_bound.
  pose proof (Z.div_mod a 16). pose proof (Z.div_mod b 16).
  rewrite !(Z.mod_small (_ / 16)) in E1; lia || (split; [apply Z.div_pos|apply Z.div_lt_upper_bound]; lia).
Qed.

Lemma show_hex8_length n : String.length (show_hex8 n) = 2.
Proof. done. Qed.

(** The hexadecimal list of bytes determines them. *)
Fixpoint hex_tail (l : list Z) : string :=
  match l with
  | [] => "]"
  | b :: l => String "," (String " " (show_hex8 b +:+ hex_tail l))
  end.

Lemma hex_tail_inj l1 l2 :
  Forall (λ b, (0 ≤ b ≤ 255)%Z) l1 → Forall (λ b, (0 ≤ b ≤ 255)%Z) l2 →
  hex_tail l1 = hex_tail l2 → l1 = l2.
Proof.
  intros H1. revert l2. induction H1 as [|a l1 Ha _ IH]; intros l2 H2; destruct H2 as [|b l2 Hb H2];
    try discriminate; [done|]. intros [= E1 E2 E]. f_equal; [|by apply IH].
  apply show_hex8_inj; [done..|]. unfold show_hex8. by rewrite E1, E2.
Qed.

Lemma debug_hex_bytes_cons b l : debug_hex_bytes (b :: l) = "[" +:+ show_hex8 b +:+ hex_tail l.
Proof.
  unfold debug_hex_bytes. f_equal. revert b. induction l as [|b' l IH]; intros b; [done|].
  change (join ", " (show_hex8 <$> b :: b' :: l)) with (show_hex8 b +:+ ", " +:+ join ", " (show_hex8 <$> b' :: l)).
  rewrite <- !append_assoc_str, IH. done.
Qed.

Lemma debug_hex_bytes_inj l1 l2 :
  Forall (λ b, (0 ≤ b ≤ 255)%Z) l1 → Forall (λ b, (0 ≤ b ≤ 255)%Z) l2 →
  debug_hex_bytes l1 = debug_hex_bytes l2 → l1 = l2.
Proof.
  intros H1 H2. destruct H1 as [|a l1 Ha H1], H2 as [|b l2 Hb H2]; rewrite ?debug_hex_bytes_cons;
    try discriminate; [done|].
  intros [= E1 E2 E]. f_equal; [|by apply hex_tail_inj].
  apply show_hex8_inj; [done..|]. unfold show_hex8. by rewrite E1, E2.
Qed.

Lemma debug_hex_bytes_free l : free_of "|" (debug_hex_bytes l).
Proof.
  unfold debug_hex_bytes. rewrite !free_of_app. split; [|split]; [by split| |by split].
  apply free_of_join; [by repeat split|]. apply Forall_fmap, Forall_forall. intros b _.
  assert (Hd : ∀ m, hex_char (m mod 16) ≠ "|"%char).
  { intros m. apply hex_char_free; [by apply Z.mod_pos_bound|set_solver]. }
  by repeat split.
Qed.

(** ** The parts of a key *)

(** How the types and classes of questions print ([#[derive(Debug)]]): distinct
    values differently, and without a [|]; and an encoding is a vector of bytes. *)
Class HickoryText (H : Hickory) : Prop := {
  rt_debug_inj : ∀ t1 t2, rt_debug t1 = rt_debug t2 → t1 = t2;
  rt_debug_free : ∀ t, free_of "|" (rt_debug t);
  class_debug_inj : ∀ c1 c2, class_debug c1 = class_debug c2 → c1 = c2;
  class_debug_free : ∀ c, free_of "|" (class_debug c);
  to_vec_bytes : ∀ m w, message_to_vec m = Ok w → Forall (λ b, (0 ≤ b ≤ 255)%Z) w;
}.

#[export] Instance Demo_text : HickoryText Demo.
Proof.
  split; simpl.
  - intros t1 t2. apply show_Z_inj.
  - intros t. by apply free_of_show_Z.
  - intros t1 t2. apply show_Z_inj.
  - intros t. by apply free_of_show_Z.
  - intros m w [= <-]. generalize (encode m). intros p. induction p; simpl; repeat constructor; done || lia.
Qed.

Section key.
Context {H : Hickory} {HT : HickoryText H}.

(** A plain question: nothing but one question and EDNS. *)
Definition plain (q : Message) : bool :=
  Nat.eqb (length (queries q)) 1 && bool_decide (length (answers q) = 0)
  && bool_decide (length (name_servers q) = 0) && bool_decide (length (additionals q) = 0).

(** Same client subnet: the same printed address and the same source prefix. *)
Definition same_ecs (q1 q2 : Message) : Prop :=
  match ecs_of q1, ecs_of q2 with
  | None, None => True
  | Some c1, Some c2 => show_ip (cs_addr c1) = show_ip (cs_addr c2) ∧ cs_source_prefix c1 = cs_source_prefix c2
  | _, _ => False
  end.

(** Same EDNS version and DO bit, or both without EDNS. *)
Definition edns_flags (q : Message) : option (Z * bool) :=
  (λ e, (edns_version e, dnssec_ok e)) <$> extensions q.

(** The queries that may share an answer: plain questions with the same name up
    to case and final dots, type, class, subnet, RD, CD, AD, EDNS version and DO
    bit; other messages only when they are equal up to their id. *)
Definition same_asked (q1 q2 : Message) : Prop :=
  plain q1 = plain q2 ∧ cacheable_edns q2 = true ∧
  if plain q1 then
    ∃ x1 x2, queries q1 = [x1] ∧ queries q2 = [x2] ∧ key_name x1 = key_name x2
      ∧ query_type x1 = query_type x2 ∧ query_class x1 = query_class x2 ∧ same_ecs q1 q2
      ∧ recursion_desired q1 = recursion_desired q2 ∧ checking_disabled q1 = checking_disabled q2
      ∧ authentic_data q1 = authentic_data q2 ∧ edns_flags q1 = edns_flags q2
  else encode_msg (set_id 0 q1) = encode_msg (set_id 0 q2).

(** The fields of the key of a plain question. *)
Definition key_fields (q : Message) (x : Query) : list string :=
  [rt_debug (query_type x); class_debug (query_class x); ecs_cache_key q;
   "rd=" +:+ show_bool (recursion_desired q); "cd=" +:+ show_bool (checking_disabled q);
   "ad=" +:+ show_bool (authentic_data q); "edns=" +:+ debug_edns (extensions q)].

Lemma key_of_plain q e k :
  plain q = true →
  key_of q e = Some k ↔
  cacheable_edns q = true ∧ ∃ x, queries q = [x] ∧ k = key_name x +:+ fields "|" (key_fields q x).
Proof.
  intros Hp. unfold key_of. fold (plain q). rewrite Hp. cbn [negb andb].
  destruct (cacheable_edns q); simpl; [|naive_solver].
  destruct (queries q) as [|x [|y l]] eqn:Eq; [|..|];
    try (unfold plain in Hp; rewrite Eq in Hp; discriminate).
  unfold key_fields. cbn [fields]. rewrite append_nil_r.
  split; [intros [= <-]; split; [done|by exists x]|]. by intros (_ & x' & [= <-] & ->).
Qed.

Lemma key_of_wire q k :
  plain q = false →
  key_of q true = Some k ↔
  cacheable_edns q = true ∧ ∃ w, encode_msg (set_id 0 q) = Ok w ∧ k = "wire:" +:+ debug_hex_bytes w.
Proof.
  intros Hp. unfold key_of. fold (plain q). rewrite Hp. cbn [negb andb].
  destruct (cacheable_edns q); simpl; [|naive_solver].
  destruct (encode_msg _) as [w|]; naive_solver.
Qed.

Lemma key_of_wire_only q k : plain q = false → key_of q false = Some k → False.
Proof. intros Hp. unfold key_of. fold (plain q). rewrite Hp. by case_match. Qed.

Lemma ecs_cache_key_free q : free_of "|" (ecs_cache_key q).
Proof.
  unfold ecs_cache_key. destruct (ecs_of q) as [cs|]; [|by repeat split].
  rewrite !free_of_app. split; [by repeat split|]. split; [apply show_ip_free; set_solver|].
  split; [by repeat split|]. by apply free_of_show_Z.
Qed.

Lemma ecs_cache_key_eq q1 q2 : ecs_cache_key q1 = ecs_cache_key q2 ↔ same_ecs q1 q2.
Proof.
  assert (Hsome : ∀ c, "ecs=" +:+ show_ip (cs_addr c) +:+ "/" +:+ show_Z (cs_source_prefix c) ≠ "ecs=-").
  { intros c E. assert (free_of "/" "ecs=-") as Hf by by repeat split. rewrite <- E in Hf.
    rewrite !free_of_app in Hf. simpl in Hf. tauto. }
  unfold ecs_cache_key, same_ecs.
  destruct (ecs_of q1) as [c1|], (ecs_of q2) as [c2|]; try (split; [|done]).
  - split; [|by intros [-> ->]]. intros E.
    assert (("ecs=" +:+ show_ip (cs_addr c1)) +:+ String "/" (show_Z (cs_source_prefix c1))
            = ("ecs=" +:+ show_ip (cs_addr c2)) +:+ String "/" (show_Z (cs_source_prefix c2))) as E'
      by (etransitivity; [symmetry; apply append_assoc_str|]; etransitivity; [exact E|apply append_assoc_str]).
    apply split_last in E' as [E' Ez%show_Z_inj]; [|by apply free_of_show_Z..].
    injection E' as E'. done.
  - intros E. by destruct (Hsome c1).
  - intros E. by destruct (Hsome c2).
  - done.
Qed.

Lemma show_bool_free b : free_of "|" (show_bool b).
Proof. by destruct b; repeat split. Qed.

Lemma debug_edns_free o : free_of "|" (debug_edns o).
Proof.
  unfold debug_edns. destruct o as [e|]; [|by repeat split]. rewrite !free_of_app.
  repeat split; try done; [by apply free_of_show_Z|apply show_bool_free].
Qed.

Lemma debug_edns_eq q1 q2 : debug_edns (extensions q1) = debug_edns (extensions q2) ↔ edns_flags q1 = edns_flags q2.
Proof.
  assert (Hb : ∀ b, free_of "," (" " +:+ show_bool b +:+ "))")) by (by intros []; repeat split).
  unfold edns_flags, debug_edns. destruct (extensions q1) as [e1|], (extensions q2) as [e2|]; simpl;
    [|by split..|done]. split; [|by intros [= -> ->]].
  intros [= E]. apply (split_last ",") in E as [Ez E];
    [|apply Hb..].
  apply show_Z_inj in Ez as ->.
  destruct (dnssec_ok e1), (dnssec_ok e2); done || discriminate.
Qed.

Lemma key_fields_free q x : Forall (free_of "|") (key_fields q x).
Proof.
  unfold key_fields. rewrite !Forall_cons, Forall_nil, !free_of_app.
  pose proof (rt_debug_free (query_type x)). pose proof (class_debug_free (query_class x)).
  pose proof (ecs_cache_key_free q). pose proof (debug_edns_free (extensions q)).
  repeat split; done || apply show_bool_free.
Qed.

Lemma key_fields_eq q1 x1 q2 x2 :
  key_fields q1 x1 = key_fields q2 x2 ↔
  query_type x1 = query_type x2 ∧ query_class x1 = query_class x2 ∧ same_ecs q1 q2
  ∧ recursion_desired q1 = recursion_desired q2 ∧ checking_disabled q1 = checking_disabled q2
  ∧ authentic_data q1 = authentic_data q2 ∧ edns_flags q1 = edns_flags q2.
Proof.
  rewrite <- ecs_cache_key_eq, <- debug_edns_eq. unfold key_fields. split.
  - intros [= E1 E2 E3 E4 E5 E6 E7]. auto 10 using rt_debug_inj, class_debug_inj, show_bool_inj.
  - intros (-> & -> & -> & -> & -> & -> & ->). done.
Qed.

Lemma encode_msg_bytes m w : encode_msg m = Ok w → Forall (λ b, (0 ≤ b ≤ 255)%Z) w.
Proof.
  unfold encode_msg, map_err. destruct (message_to_vec m) eqn:E; [|done]. intros [= <-]. by eapply to_vec_bytes.
Qed.

Lemma key_fields_not_wire q x w : key_name x +:+ fields "|" (key_fields q x) ≠ "wire:" +:+ debug_hex_bytes w.
Proof.
  intros E. assert (free_of "|" ("wire:" +:+ debug_hex_bytes w)) as Hf
    by (apply free_of_app; split; [by repeat split|apply debug_hex_bytes_free]).
  rewrite <- E, free_of_app in Hf. destruct Hf as [_ [Hf _]]. done.
Qed.
End key.

(** C19: two queries share a cache entry exactly when they ask the same: for plain
    questions the same name up to case, type, class, client subnet, RD, CD and AD
    bits, EDNS version and DO bit; for any other message the same wire up to the
    id.  In particular an answer for one subnet, or with DNSSEC records, is never
    found under the key of a query without; and a query with another EDNS option
    has no key. *)
Theorem cache_key_exact {H : Hickory} {HT : HickoryText H} (q1 q2 : Message) (everything : bool) (key : string) :
  key_of q1 everything = Some key →
  key_of q2 everything = Some key ↔ same_asked q1 q2.
Proof.
  unfold same_asked. intros H1. destruct (plain q1) eqn:P1, (plain q2) eqn:P2.
  - apply key_of_plain in H1 as (_ & x1 & Hx1 & ->); [|done]. rewrite key_of_plain by done. split.
    + intros (Hc & x2 & Hx2 & [Hn Hf]%fields_inj); [|done|apply key_fields_free..].
      apply key_fields_eq in Hf. split; [done|]. split; [done|]. exists x1, x2. auto.
    + intros (_ & Hc & x1' & x2 & Hx1' & Hx2 & Hn & Hf%key_fields_eq). rewrite Hx1 in Hx1'.
      injection Hx1' as <-. split; [done|]. exists x2. split; [done|]. by rewrite Hn, Hf.
  - split; [|by intros [? _]]. intros H2. exfalso.
    apply key_of_plain in H1 as (_ & x & _ & ->); [|done].
    destruct everything; [|by eapply key_of_wire_only].
    apply key_of_wire in H2 as (_ & w & _ & E); [|done]. by eapply key_fields_not_wire.
  - split; [|by intros [? _]]. intros H2. exfalso.
    apply key_of_plain in H2 as (_ & x & _ & E); [|done].
    destruct everything; [|by eapply key_of_wire_only].
    apply key_of_wire in H1 as (_ & w & _ & ->); [|done]. symmetry in E. by eapply key_fields_not_wire.
  - destruct everything; [|by destruct (key_of_wire_only q1 key)].
    apply key_of_wire in H1 as (_ & w & Hw & ->); [|done]. rewrite key_of_wire by done. split.
    + intros (Hc & w2 & Hw2 & [= E]). rewrite Hw, Hw2. split; [done|]. split; [done|]. f_equal.
      apply debug_hex_bytes_inj; eauto using encode_msg_bytes. exact (f_equal (String "[") E).
    + intros (_ & Hc & Hw2). split; [done|]. exists w. by rewrite <- Hw2.
Qed.

(** [www.Example.] and [WWW.example.] share an entry. *)
Definition d_key_query (name : string) : Message := d_query 7 name rt_A.

Lemma cache_key_exact_witness :
  key_of (d_key_query "www.Example") false
    = Some "www.example|1|1|ecs=-|rd=true|cd=false|ad=false|edns=None"
  ∧ (key_of (d_key_query "WWW.example") false
       = Some "www.example|1|1|ecs=-|rd=true|cd=false|ad=false|edns=None"
     ↔ same_asked (d_key_query "www.Example") (d_key_query "WWW.example")).
Proof.
  assert (key_of (d_key_query "www.Example") false
          = Some "www.example|1|1|ecs=-|rd=true|cd=false|ad=false|edns=None") as Hk by by vm_compute.
  split; [exact Hk|]. exact (cache_key_exact _ _ _ _ Hk).
Defined.
