(* ===== verification/CacheHits.v ===== *)
(** * What the cache holds and what it serves

    The entries of a shard are well formed when each was built by [store] from a
    response worth caching and filed under the key of the query it answers
    ([entry_good]); every critical section of [plugin/cache.rs] keeps them so
    ([shard_good]).  On top of this invariant: exactly what [store] stores, when a
    lookup hits, and what a hit sends. *)
From S2P Require Import Prelude RustStr RustNet Error Hickory HickoryDemo External PublicIp.
From S2P Require Import DnsUtil Context Upstream Shard Net Task Actions Cache CacheKey.

(** The codec: a message read back from its own encoding shows the same fields. *)
Class HickoryCodec (H : Hickory) : Prop := {
  decode_encode : ∀ m w, message_to_vec m = Ok w →
    ∃ m', message_from_vec w = Ok m' ∧ mview m' = mview m;
}.
#[export] Instance Demo_codec : HickoryCodec Demo.
Proof. split. intros m w Hw. exists m. split; [by apply demo_codec|done]. Qed.

Section good.
Context {H : Hickory}.

(** An entry of cache [c] under [key]: [store] built it at the time it records. *)
Definition entry_good (c : Cache) (key : string) (e : Entry) : Prop :=
  ∃ resp, storable c key resp (e_wire e)
    ∧ make_entry c (e_wire e) (min_ttl resp) (e_stored e) = Some e.

(** Shard [i] of cache [c]: the map and its queue agree, within the capacity, and
    the entries are good and filed in the right shard. *)
Record shard_good (c : Cache) (i : nat) (s : Shard) : Prop := mkShardGood {
  sg_inv : shard_inv s;
  sg_cap : s_cap s = Nat.max (ca_shard_cap c) 1;
  sg_index : ∀ key e, s_map s !! key = Some e → shard_index c key = i;
  sg_entry : ∀ key e, s_map s !! key = Some e → entry_good c key e;
}.

Lemma shard_good_new c i : shard_good c i (shard_new (ca_shard_cap c)).
Proof. split; [apply shard_new_inv|done|..]; intros key e He; simpl in He; by rewrite lookup_empty in He. Qed.

Lemma shard_good_flush c i s : shard_good c i s → shard_good c i (shard_flush s).
Proof. intros []. split; [by apply shard_flush_inv|done|..]; intros key e He; simpl in He; by rewrite lookup_empty in He. Qed.

Lemma shard_get_map key s : s_map (shard_get key s).1 = s_map s ∧ s_cap (shard_get key s).1 = s_cap s
  ∧ (shard_get key s).2 = s_map s !! key.
Proof. unfold shard_get. by destruct (s_map s !! key) eqn:E. Qed.

Lemma shard_good_get c i key s : shard_good c i s → shard_good c i (shard_get key s).1.
Proof.
  intros []. destruct (shard_get_map key s) as (Hm & Hc & _).
  split; [by apply shard_get_inv|congruence|..]; rewrite Hm; done.
Qed.

Lemma evict_sub cap map lru k e : (evict cap map lru).1 !! k = Some e → map !! k = Some e.
Proof.
  revert map. induction lru as [|old lru IH]; intros map; simpl; case_match; try done.
  intros Hk%IH. destruct (decide (k = old)) as [->|]; [by rewrite lookup_delete_eq in Hk|].
  by rewrite lookup_delete_ne in Hk.
Qed.

(** An insertion leaves only old entries and the new one. *)
Lemma shard_insert_map key e s k e' :
  s_map (shard_insert key e s) !! k = Some e' → (k = key ∧ e' = e) ∨ s_map s !! k = Some e'.
Proof.
  unfold shard_insert. destruct (s_map s !! key) as [old|].
  - simpl. destruct (decide (k = key)) as [->|]; [rewrite lookup_insert_eq|rewrite lookup_insert_ne by done];
      naive_solver.
  - pose proof (evict_sub (s_cap s) (s_map s) (s_lru s) k e') as He.
    destruct (evict _ _ _) as [map lru]. simpl in *.
    destruct (decide (k = key)) as [->|]; [rewrite lookup_insert_eq|rewrite lookup_insert_ne by done];
      naive_solver.
Qed.

Lemma shard_insert_cap key e s : s_cap (shard_insert key e s) = s_cap s.
Proof. unfold shard_insert. destruct (_ !! _); [done|]. by destruct (evict _ _ _). Qed.

Lemma shard_good_insert c key e s :
  entry_good c key e → shard_good c (shard_index c key) s →
  shard_good c (shard_index c key) (shard_insert key e s).
Proof.
  intros He []. split; [by apply shard_insert_inv|by rewrite shard_insert_cap|..];
    intros k e' [[-> ->]|Hk]%shard_insert_map; eauto.
Qed.

Lemma lookup_locked_map c key now s : s_map (lookup_locked c key now s).1 = s_map s
  ∧ (lookup_locked c key now s).1 = (shard_get key s).1.
Proof.
  unfold lookup_locked. destruct (shard_get_map key s) as (Hm & _). destruct (shard_get key s) as [s' [e|]]; [|done].
  by destruct (_ <=? _)%Z.
Qed.

Lemma shard_good_lookup c i key now s : shard_good c i s → shard_good c i (lookup_locked c key now s).1.
Proof. intros Hs. destruct (lookup_locked_map c key now s) as [_ ->]. by apply shard_good_get. Qed.

(** ** Times *)
Lemma make_entry_spec c wire min now e :
  (0 ≤ min)%Z → (0 ≤ ca_lazy_ttl c)%Z → make_entry c wire min now = Some e →
  e = mkEntry wire now (now + secs min) (now + Z.max (secs min) (ca_lazy_ttl c)).
Proof.
  intros Hm Hl. unfold make_entry, instant_add. destruct (Z.leb_spec (now + secs min) instant_max); [|done]. simpl.
  assert (0 ≤ secs min)%Z by (unfold secs; lia).
  destruct (Z.ltb_spec 0 (ca_lazy_ttl c)).
  - destruct (Z.leb_spec (now + ca_lazy_ttl c) instant_max); [|done]. simpl. intros [= <-]. f_equal. lia.
  - intros [= <-]. f_equal. lia.
Qed.

Lemma make_entry_Some c wire min now :
  (0 ≤ min)%Z → (0 ≤ ca_lazy_ttl c)%Z → (now + Z.max (secs min) (ca_lazy_ttl c) ≤ instant_max)%Z →
  is_Some (make_entry c wire min now).
Proof.
  intros Hm Hl Hn. unfold make_entry, instant_add.
  destruct (Z.leb_spec (now + secs min) instant_max); [|lia]. simpl.
  destruct (Z.ltb_spec 0 (ca_lazy_ttl c)); [|by eexists].
  destruct (Z.leb_spec (now + ca_lazy_ttl c) instant_max); [by eexists|lia].
Qed.

(** The window of an entry: fresh for the smallest TTL of its records, then, with
    lazy caching, stale until the lazy TTL has passed since it was stored, then
    gone. *)
Inductive freshness := Fresh | Stale | Gone.
#[export] Instance freshness_eq_dec : EqDecision freshness.
Proof. solve_decision. Defined.
Definition entry_age (c : Cache) (min age : Z) : freshness :=
  if (age <? secs min)%Z then Fresh
  else if (age <? ca_lazy_ttl c)%Z then Stale else Gone.

Lemma lookup_locked_entry c key now s e resp :
  s_map s !! key = Some e → (0 ≤ ca_lazy_ttl c)%Z → (0 ≤ min_ttl resp)%Z →
  make_entry c (e_wire e) (min_ttl resp) (e_stored e) = Some e →
  (lookup_locked c key now s).2
  = match entry_age c (min_ttl resp) (now - e_stored e) with
    | Gone => None
    | age => Some (e_wire e, bool_decide (age = Stale), e_stored e)
    end.
Proof.
  intros He Hl Hm Hme. apply make_entry_spec in Hme; [|done..].
  unfold lookup_locked. destruct (shard_get_map key s) as (_ & _ & Hg). destruct (shard_get key s) as [s' o].
  simpl in Hg. subst o. rewrite He. rewrite Hme. cbn [e_expire e_ttl_deadline e_wire e_stored].
  set (d := Z.max (secs (min_ttl resp)) (ca_lazy_ttl c)). set (t := e_stored e).
  unfold entry_age. assert (0 ≤ secs (min_ttl resp))%Z by (unfold secs; lia).
  destruct (Z.ltb_spec (now - t) (secs (min_ttl resp))).
  - destruct (Z.leb_spec (t + d) now); [lia|]. destruct (Z.leb_spec (t + secs (min_ttl resp)) now); [lia|done].
  - destruct (Z.ltb_spec (now - t) (ca_lazy_ttl c)), (Z.leb_spec (t + d) now); try lia; [|done].
    destruct (Z.leb_spec (t + secs (min_ttl resp)) now); [|lia]. destruct (Z.ltb_spec 0 (ca_lazy_ttl c)); [done|lia].
Qed.
End good.

(** ** What [store] stores *)
Section store.
Context {H : Hickory}.

(** The tests of [store], in its order. *)
Definition worth_storing (resp : Message) : option (list Z) :=
  if bool_decide (response_code resp = rc_NoError) && negb (truncated resp) && cacheable_edns resp then
    match encode_msg resp with
    | Ok wire => if (min_ttl resp =? 0)%Z then None else Some wire
    | Err _ => None
    end
  else None.

Lemma cache_store_worth {L} c key resp (l : L) :
  cache_store c key resp l =
  match worth_storing resp with
  | Some wire =>
      (let! now := sync ENow in
       match make_entry c wire (min_ttl resp) now with
       | None => λ _, Panic "overflow when adding duration to instant"
       | Some entry => sync (EShard (ca_tag c) (shard_index c key) _ (insert_locked key entry))
       end) l
  | None => Ret l tt
  end.
Proof.
  unfold cache_store, worth_storing. destruct (decide (response_code resp = rc_NoError)) as [Hr|Hr].
  - rewrite (bool_decide_eq_false_2 (_ ≠ _)), bool_decide_eq_true_2 by naive_solver.
    destruct (truncated resp), (cacheable_edns resp); simpl; try done.
    destruct (encode_msg resp); [|done]. by destruct (_ =? _)%Z.
  - by rewrite (bool_decide_eq_true_2 (_ ≠ _)), (bool_decide_eq_false_2 (_ = _)) by done.
Qed.
End store.


(** ** The critical sections at one entry *)

(** C23: in a well-formed shard, a lookup hits exactly when the key has an entry
    whose age has not passed its window: fresh below the smallest TTL of the stored
    response, stale below the lazy TTL, gone after both; what it returns is the
    encoding of a response that was worth storing for a query with this key, and
    the shard stays well formed with the same entries. *)
Theorem cache_lookup_window {H : Hickory} {HL : HickoryLaws H} (c : Cache) (key : string) (now : Z) (s : Shard) :
  (0 ≤ ca_lazy_ttl c)%Z → shard_good c (shard_index c key) s →
  shard_good c (shard_index c key) (lookup_locked c key now s).1
  ∧ s_map (lookup_locked c key now s).1 = s_map s
  ∧ match s_map s !! key with
    | None => (lookup_locked c key now s).2 = None
    | Some e => ∃ resp, storable c key resp (e_wire e)
        ∧ (lookup_locked c key now s).2
          = match entry_age c (min_ttl resp) (now - e_stored e) with
            | Gone => None
            | age => Some (e_wire e, bool_decide (age = Stale), e_stored e)
            end
    end.
Proof.
  intros Hl Hs. split; [by apply shard_good_lookup|]. split; [by apply lookup_locked_map|].
  destruct (s_map s !! key) as [e|] eqn:E.
  - destruct (sg_entry _ _ _ Hs _ _ E) as (resp & Hst & Hme). exists resp. split; [done|].
    apply lookup_locked_entry; [done..| |done]. pose proof (min_ttl_range resp). lia.
  - unfold lookup_locked. destruct (shard_get_map key s) as (_ & _ & Hg).
    destruct (shard_get key s) as [s' o]. simpl in Hg. by rewrite Hg, E.
Qed.

(** ** What a hit serves *)

(** [r'] is [r] with TTL [ttl]. *)
Definition retimed `{Hickory} (ttl : Z) (r r' : Record_) : Prop :=
  rec_name r' = rec_name r ∧ record_type r' = record_type r ∧ rec_class r' = rec_class r
  ∧ rec_data r' = rec_data r ∧ rec_ttl r' = ttl.

(** The settings [from_args] gives. *)
Record cache_wf (c : Cache) : Prop := mkCacheWf {
  cw_lazy : (0 ≤ ca_lazy_ttl c)%Z;
  cw_reply : (1 ≤ ca_lazy_reply_ttl c ≤ u32_max)%Z;
  cw_shards : 0 < ca_n_shards c;
}.

Lemma cache_from_args_wf `{Yaml} tag args :
  (∀ v n, y_as_u64 v = Some n → (0 ≤ n ≤ u64_max)%Z) → cache_wf (cache_from_args tag args).
Proof.
  intros Hu. split; simpl; [|pose proof (wrap_u32_range (default 5%Z (yget_as y_as_u64 "lazy_cache_reply_ttl" args))); unfold u32_max in *; lia|lia].
  destruct (yget_or "lazy_cache_ttl" "lazy_ttl" args) as [v|]; simpl; [|unfold secs; lia].
  destruct (y_as_u64 v) as [n|] eqn:E; simpl; [|unfold secs; lia]. apply Hu in E. unfold secs. lia.
Qed.

Section serve.
Context {H : Hickory} {HL : HickoryLaws H} {HC : HickoryCodec H}.

(** [m] is served to [q] from cache [c]: it answers [q], and its records are those
    of a response stored for a query with the same key, at their age if the entry
    is fresh, with the lazy reply TTL if it is stale. *)
Definition served (c : Cache) (q m : Message) : Prop :=
  bound_to q m ∧ response_code m = rc_NoError ∧ truncated m = false
  ∧ ∃ q0 resp stored looked_up now,
      is_Some (key_of q (ca_everything c)) ∧ key_of q0 (ca_everything c) = key_of q (ca_everything c)
      ∧ bound_to q0 resp
      ∧ match entry_age c (min_ttl resp) (looked_up - stored) with
        | Fresh => Forall2 (aged (elapsed_secs now stored)) (answers resp) (answers m)
                   ∧ Forall2 (aged (elapsed_secs now stored)) (name_servers resp) (name_servers m)
        | Stale => Forall2 (retimed (ca_lazy_reply_ttl c)) (answers resp) (answers m)
                   ∧ Forall2 (retimed (ca_lazy_reply_ttl c)) (name_servers resp) (name_servers m)
        | Gone => False
        end.

Lemma Forall2_retimed ttl l : (0 ≤ ttl ≤ u32_max)%Z → Forall2 (retimed ttl) l (record_set_ttl ttl <$> l).
Proof.
  intros Ht. apply fmap_Forall2. intros r. unfold retimed. rewrite rec_ttl_set by done. dns. done.
Qed.

Lemma elapsed_secs_range now stored : (0 ≤ elapsed_secs now stored)%Z.
Proof. apply wrap_u32_range. Qed.

Lemma served_hit c q q0 resp msg stored looked_up now age :
  cache_wf c → key_of q0 (ca_everything c) = key_of q (ca_everything c) →
  is_Some (key_of q (ca_everything c)) → bound_to q0 resp →
  response_code resp = rc_NoError → truncated resp = false → mview msg = mview resp →
  entry_age c (min_ttl resp) (looked_up - stored) = age → age ≠ Gone →
  served c q (rebind_response
    (if bool_decide (age = Stale) then set_all_ttl msg (ca_lazy_reply_ttl c)
     else subtract_ttl msg (elapsed_secs now stored)) q).
Proof.
  intros Hwf Hk Hq Hb Hr Ht Hv Hage Hne. set (m1 := if bool_decide _ then _ else _).
  assert (Hm1 : response_code m1 = rc_NoError ∧ truncated m1 = false
    ∧ match age with
      | Fresh => Forall2 (aged (elapsed_secs now stored)) (answers resp) (answers m1)
                 ∧ Forall2 (aged (elapsed_secs now stored)) (name_servers resp) (name_servers m1)
      | Stale => Forall2 (retimed (ca_lazy_reply_ttl c)) (answers resp) (answers m1)
                 ∧ Forall2 (retimed (ca_lazy_reply_ttl c)) (name_servers resp) (name_servers m1)
      | Gone => False
      end).
  { assert (answers msg = answers resp ∧ name_servers msg = name_servers resp
            ∧ response_code msg = response_code resp ∧ truncated msg = truncated resp) as (Ha & Hn & Hc & Htr)
      by (unfold answers, name_servers, response_code, truncated; by rewrite Hv).
    unfold m1. destruct age; [..|done].
    - rewrite bool_decide_eq_false_2 by done. unfold subtract_ttl. rewrite <- Ha, <- Hn, <- Hr, <- Hc.
      dns. split_and!; [done|congruence|..]; apply fmap_Forall2; intros r; apply bump_ttl_aged, elapsed_secs_range.
    - rewrite bool_decide_eq_true_2 by done. unfold set_all_ttl. rewrite <- Ha, <- Hn, <- Hr, <- Hc.
      pose proof (cw_reply c Hwf). dns. split_and!; [done|congruence|..]; apply Forall2_retimed; lia. }
  destruct Hm1 as (Hr1 & Ht1 & Hs1). destruct (rebind_response_keeps m1 q) as (Ea & En & _ & Er & Et & _).
  split; [apply rebind_response_bound|]. split; [congruence|]. split; [congruence|].
  exists q0, resp, stored, looked_up, now. rewrite Ea, En, Hage. auto.
Qed.

(** The id and type [set_response] writes are there already. *)
Lemma served_stamped c q m :
  served c q m → served c q (set_message_type mt_Response (set_id (msg_id q) m)).
Proof.
  intros ([] & Hr & Ht & Hs). split; [split; dns; done|]. unfold answers, name_servers in *. by dns.
Qed.
End serve.

(** An environment whose shard replies come from well-formed shards. *)
Record cache_env `{Hickory} (P : Protocol) (c : Cache) : Prop := mkCacheEnv {
  ce_allowed : cache_allowed P c;
  ce_shard : ∀ key (R : Set) f (r : R), p_reply P (EShard (ca_tag c) (shard_index c key) R f) r →
    ∃ now s, shard_good c (shard_index c key) s ∧ r = (f now s).2;
}.

Section exec.
Context {H : Hickory} {HL : HickoryLaws H} {HC : HickoryCodec H}.
Context (P : Protocol) (HP : ambient P).

(** What [exec] leaves: the response as it was, or one served from the cache. *)
Definition exec_outcome (c : Cache) (ctx ctx' : QueryContext) (r : Res Action) : Prop :=
  r = Ok ActContinue
  ∧ ((c_response ctx' = c_response ctx ∧ served_from_cache ctx' = served_from_cache ctx)
     ∨ ∃ m, c_response ctx' = Some m ∧ served c (c_query ctx) m ∧ served_from_cache ctx' = true).

Lemma wp_kick_refresh (I : QueryContext → Prop) c key ctx (Q : QueryContext → unit → Prop) :
  cache_allowed P c → p_ctx P ctx → Q ctx tt → wp P I (kick_refresh c key ctx) Q.
Proof.
  intros Hc Hctx HQ. unfold kick_refresh. destruct (skip_cache ctx) eqn:Esk; [exact HQ|].
  destruct (ca_refresh c) as [entry|]; [|exact HQ].
  apply wp_bind, wp_sync; [apply Hc|]. intros [|] _; simpl negb; cbv iota; [|exact HQ].
  apply wp_bind, wp_clone_ctx_for_lazy; [done|]. intros id now.
  apply wp_sync; [by apply (cap_spawn P c Hc)|]. by intros [].
Qed.

Lemma wp_cache_miss (I : QueryContext → Prop) c detail ctx :
  wp P I (cache_miss c detail ctx) (exec_outcome c ctx).
Proof.
  unfold cache_miss. apply wp_bind, wp_count; [done|]. apply wp_bind, wp_push_trace; [done|]. intros t.
  apply wp_ret. split; [done|]. by left.
Qed.

Lemma wp_cache_hit (I : QueryContext → Prop) c key msg age stored looked_up q0 resp ctx :
  cache_allowed P c → cache_wf c → p_ctx P ctx →
  key_of (c_query ctx) (ca_everything c) = Some key →
  key_of q0 (ca_everything c) = Some key → bound_to q0 resp →
  response_code resp = rc_NoError → truncated resp = false → mview msg = mview resp →
  entry_age c (min_ttl resp) (looked_up - stored) = age → age ≠ Gone →
  wp P I (cache_hit c key msg (bool_decide (age = Stale)) stored ctx) (exec_outcome c ctx).
Proof.
  intros Hc Hwf Hctx Hk Hk0 Hb Hr Ht Hv Hage Hne. unfold cache_hit.
  apply wp_bind, wp_sync; [apply HP|]. intros now _.
  set (m := if bool_decide (age = Stale) then set_all_ttl msg (ca_lazy_reply_ttl c)
            else subtract_ttl msg (elapsed_secs now stored)).
  assert (Hserved : served c (c_query ctx) (rebind_response m (c_query ctx))).
  { apply (served_hit c (c_query ctx) q0 resp msg stored looked_up now age); try done; by rewrite ?Hk, ?Hk0. }
  apply wp_bind. apply (wp_mono P I I _ (λ ctx' m', m' = m ∧ ∃ t, ctx' = with_trace t ctx)); [|done|].
  - destruct (bool_decide (age = Stale)) eqn:E.
    + apply wp_bind, wp_count; [done|]. apply wp_bind, wp_push_trace; [done|]. intros t.
      apply wp_bind, wp_kick_refresh; [done|by eapply amb_ctx; [done|done|apply ctx_step_with_trace]|].
      apply wp_ret. eauto.
    + apply wp_bind, wp_push_trace; [done|]. intros t. apply wp_ret. eauto.
  - intros ctx' m' [-> [t ->]]. apply wp_bind, wp_count; [done|].
    apply wp_bind, wp_modify, wp_bind, wp_modify, wp_ret. split; [done|]. right.
    eexists. split; [reflexivity|]. split; [|done]. by apply served_stamped.
Qed.
End exec.


(** ** The protocol of shared caches

    The replies and the guarantees of a system in which every shard of every cache
    is well formed at every moment and the clock has not passed [horizon].  The
    caches are those of one runtime, which the task stays with; it waits for nothing
    but the network of the upstreams, and that under a timer.  The refreshes a task
    spawns skip the caches, and a task that skips the caches spawns none ([spawns] is
    [false]). *)
Section protocol.
Context {H : Hickory} {HL : HickoryLaws H}.
Context (caches : gmap string Cache) (horizon : Z) (spawns : bool).

Definition shared_protocol : Protocol := {|
  p_reply e :=
    match e return reply e → Prop with
    | ENow => λ now, (0 ≤ now ≤ horizon)%Z
    | EShard tag i R f => λ r, ∀ c, caches !! tag = Some c → i < ca_n_shards c →
        ∃ now s, (0 ≤ now ≤ horizon)%Z ∧ shard_good c i s ∧ r = (f now s).2
    | _ => λ _, True
    end;
  p_event e :=
    match e with
    | EShard tag i R f => ∃ c, caches !! tag = Some c ∧ i < ca_n_shards c
        ∧ ∀ now s, (0 ≤ now ≤ horizon)%Z → shard_good c i s → shard_good c i (f now s).1
    | ESpawn r => spawns = true ∧ skip_cache (rf_ctx r) = true
    | ELive => False
    | _ => True
    end;
  p_await timed a := match a with ANet _ => timed = true | _ => False end;
  p_ctx c := spawns = true ∨ skip_cache c = true;
|}.

(** Caches filed under their tags, whose windows end before the end of time. *)
Record caches_wf : Prop := mkCachesWf {
  csw_tag : map_Forall (λ tag c, ca_tag c = tag ∧ cache_wf c) caches;
  csw_time : map_Forall (λ _ c, (horizon + Z.max (secs u32_max) (ca_lazy_ttl c) ≤ instant_max)%Z) caches;
}.

Lemma shared_ambient : ambient shared_protocol.
Proof. split; try done; [by intros []|]. intros c c' Hc Hs. cbn. by rewrite (cs_skip _ _ Hs). Qed.

Lemma shard_index_lt c key : 0 < ca_n_shards c → shard_index c key < ca_n_shards c.
Proof.
  intros Hn. unfold shard_index. pose proof (Z.mod_pos_bound (hash_key 0 key) (Z.of_nat (ca_n_shards c))). lia.
Qed.

Lemma shared_cache_allowed tag c : caches_wf → caches !! tag = Some c → cache_allowed shared_protocol c.
Proof.
  intros [Hw Ht] Hc. destruct (Hw _ _ Hc) as [Htag [Hl Hr Hn]]. 
  assert (horizon + Z.max (secs u32_max) (ca_lazy_ttl c) ≤ instant_max)%Z as Hmax by exact (Ht _ _ Hc).
  split; try done.
  - intros key. exists c. rewrite Htag. split; [done|]. split; [by apply shard_index_lt|].
    intros now s _ Hs. by apply shard_good_lookup.
  - intros key resp wire now e Hsto Hnow He. exists c. rewrite Htag. split; [done|].
    split; [by apply shard_index_lt|]. intros now' s _ Hs. apply shard_good_insert; [|done]. exists resp. pose proof (sto_min _ _ _ _ Hsto) as Hm.
    rewrite (make_entry_spec c wire (min_ttl resp) now e) by (done || lia). cbn [e_wire e_stored].
    split; [done|]. rewrite He. f_equal. apply make_entry_spec; [lia|done|done].
  - intros wire min now Hnow Hm. apply make_entry_Some; [lia|done|].
    assert (0 ≤ now ≤ horizon)%Z by exact Hnow. unfold secs in *. lia.
  - intros ctx id now key entry [Hsp|Hsk] Hs; [by split|by rewrite Hsk in Hs].
Qed.

Lemma wp_shared_flush {L} tag c (I : L → Prop) l (Q : L → unit → Prop) :
  caches_wf → caches !! tag = Some c → Q l tt → wp shared_protocol I (cache_flush c l) Q.
Proof.
  intros Hwf Hc HQ. destruct (csw_tag Hwf _ _ Hc) as [Htag _]. unfold cache_flush.
  assert (Forall (λ i, i < ca_n_shards c) (seq 0 (ca_n_shards c))) as Hall
    by (apply Forall_seq; lia).
  induction Hall as [|i rest Hi _ IH]; [exact HQ|]. apply wp_bind, wp_sync; [|intros ? ?; exact IH].
  exists c. rewrite Htag. split; [done|]. split; [done|]. intros now s _ Hs. by apply shard_good_flush.
Qed.

Lemma wp_shared_len {L} tag c (I : L → Prop) l (Q : L → nat → Prop) :
  caches_wf → caches !! tag = Some c → (∀ n, Q l n) → wp shared_protocol I (cache_len c l) Q.
Proof.
  intros Hwf Hc. destruct (csw_tag Hwf _ _ Hc) as [Htag _]. unfold cache_len.
  assert (Forall (λ i, i < ca_n_shards c) (seq 0 (ca_n_shards c))) as Hall
    by (apply Forall_seq; lia).
  revert Q. induction Hall as [|i rest Hi _ IH]; intros Q HQ; [apply HQ|]. apply wp_bind, wp_sync.
  - exists c. rewrite Htag. split; [done|]. split; [done|]. by intros now s _ Hs.
  - intros n _. apply wp_bind, IH. intros m. apply HQ.
Qed.

Lemma shared_cache_env tag c : caches_wf → caches !! tag = Some c → cache_env shared_protocol c.
Proof.
  intros Hwf Hc. split; [by eapply shared_cache_allowed|].
  destruct (csw_tag Hwf _ _ Hc) as [Htag [_ _ Hn]]. intros key R f r Hr.
  destruct (Hr c) as (now & s & _ & Hs & ->); [by rewrite Htag|by apply shard_index_lt|]. eauto.
Qed.
End protocol.

(** The largest [lazy_cache_ttl] a configuration can give, a [u64] of seconds, has no
    entries: the first reply worth storing overflows the clock. *)
Lemma lazy_ttl_overflows (c : Cache) (wire : list Z) (min now : Z) :
  ca_lazy_ttl c = secs u64_max → (0 ≤ now)%Z → make_entry c wire min now = None.
Proof.
  intros Hl Hn. unfold make_entry, instant_add. rewrite Hl. unfold secs, u64_max, instant_max.
  destruct (now + min * 1000000000 <=? _)%Z; [|done]. cbn -[Z.leb Z.add Z.mul].
  destruct (Z.leb_spec (now + 18446744073709551615 * 1000000000) (9223372036854775807 * 1000000000 + 999999999)); [lia|done].
Qed.

(** ** A cache for the witnesses *)
Definition d_cache : Cache := mkCache "c" 16 32 (secs 600) 5 false (Some "main").
Definition d_horizon : Z := secs (2 ^ 32).
Definition d_hit_response : Message := d_response 7 "a.test" rt_A [d_a "a.test" 60 1%Z].

Lemma d_cache_wf : cache_wf d_cache.
Proof. split; cbn; unfold secs, u32_max; lia. Qed.

Lemma d_caches_wf : caches_wf {["c" := d_cache]} d_horizon.
Proof.
  split; apply map_Forall_singleton; [split; [done|apply d_cache_wf]|].
  by apply Z.leb_le.
Qed.


(** The encoding of the sample response, and an entry stored at time 0. *)
Lemma d_entry_exists : ∃ wire, worth_storing d_hit_response = Some wire ∧ encode_msg d_hit_response = Ok wire
  ∧ min_ttl d_hit_response = 60%Z.
Proof.
  assert (match worth_storing d_hit_response with Some _ => true | None => false end = true) as Hw by by vm_compute.
  destruct (worth_storing d_hit_response) as [wire|] eqn:E; [|done]. exists wire. split; [done|].
  split; [|by vm_compute]. unfold worth_storing in E. destruct (_ && _); [|done].
  destruct (encode_msg d_hit_response); [|done]. by destruct (_ =? _)%Z; simplify_eq.
Qed.


Definition d_hit_query : Message := d_query 7 "a.test" rt_A.
Definition d_hit_key : string := "a.test|1|1|ecs=-|rd=true|cd=false|ad=false|edns=None".

Lemma d_hit_shard : ∃ e, shard_good d_cache (shard_index d_cache d_hit_key)
    (shard_insert d_hit_key e (shard_new 32)) ∧ e_stored e = 0%Z
  ∧ s_map (shard_insert d_hit_key e (shard_new 32)) !! d_hit_key = Some e.
Proof.
  destruct d_entry_exists as (wire & _ & He & Hm).
  exists (mkEntry wire 0 (0 + secs 60) (0 + secs 600)). split; [|split; [done|]].
  - apply shard_good_insert; [|apply (shard_good_new d_cache)]. exists d_hit_response. cbn [e_wire e_stored].
    split; [|by rewrite Hm]. split; [done|done|done|done|by rewrite Hm|].
    exists d_hit_query. split; [by vm_compute|]. split; try reflexivity. by intros e [=].
  - by vm_compute.
Qed.

Lemma cache_lookup_window_witness :
  ∃ s, (lookup_locked d_cache d_hit_key (secs 100) s).2 ≠ None ∧ shard_good d_cache (shard_index d_cache d_hit_key) s.
Proof.
  destruct d_hit_shard as (e & Hs & Hst & He). exists (shard_insert d_hit_key e (shard_new 32)).
  destruct (cache_lookup_window d_cache d_hit_key (secs 100) _ ltac:(by apply Z.leb_le) Hs) as (_ & _ & Hl).
  rewrite He in Hl. destruct Hl as (resp & _ & ->). split; [|exact Hs]. rewrite Hst.
  assert (entry_age d_cache (min_ttl resp) (secs 100 - 0) ≠ Gone) as Hage.
  { unfold entry_age. destruct (_ <? secs _)%Z; [done|]. by vm_compute. }
  by destruct (entry_age _ _ _).
Defined.

