(* ===== verification/Exchange.v ===== *)
(** * [upstream.rs], second half: one exchange with an upstream

    Resolving the address of an upstream, directly or through its bootstrap server,
    and asking it over UDP, TCP, TLS or HTTPS, with pooled connections: the task
    [forward] starts for each upstream it asks.  The cells an upstream's clones
    share (pool, destination, resolver cache) are named by [u], the tag of the plugin
    and the upstream's index in it; sockets and connections are numbers the
    environment gives out.

    The theorems state what [forward] relies on: an exchange ends, and a message it
    returns answers the query; and what the pool relies on: a connection is put
    back only when the stream stands between two messages. *)
From S2P Require Import Prelude RustStr RustNet Error Hickory HickoryDemo External PublicIp.
From S2P Require Import DnsUtil Context Upstream Shard Net Task.

(** @src src/src/upstream.rs 20-20 BOOTSTRAP_QUERY_TIMEOUT *)
Definition BOOTSTRAP_QUERY_TIMEOUT : Z := secs 2.

(** [rustls::pki_types::ServerName::try_from]. *)
Class TlsLib := { server_name_try_from : string → result string string }.

Section exchange.
Context {H : Hickory} {T : TlsLib}.

(** An I/O operation or access, its error as [Error::Io]. *)
Definition io {L A} (m : M L (result IoError A)) : M L (Res A) :=
  let! r := m in ret (map_err io_error r).
Definition net {L} (op : net_op) : M L (net_reply op) := suspend (ANet op).
Definition cell {L} (a : net_access) : M L (net_access_reply a) := sync (ENet a).

(** ** Framing *)

(** @src src/src/upstream.rs 672-682 write_framed *)
Definition write_framed {L} (s : nat) (q : Message) : M L (Res unit) :=
  match encode_msg q with
  | Err e => ret (Err e)
  | Ok bytes =>
      let n := Z.of_nat (length bytes) in
      if (u16_max <? n)%Z then ret (Err (ErrProtocol "tcp payload too large"))
      else
        let!? _ := io (net (NWriteAll s (to_be_bytes n))) in
        let!? _ := io (net (NWriteAll s bytes)) in
        let!? _ := io (net (NFlush s)) in
        ret (Ok tt)
  end.

(** @src src/src/upstream.rs 684-694 read_framed *)
Definition read_framed {L} (s : nat) : M L (Res Message) :=
  let!? hdr := io (net (NReadExact s 2)) in
  let len := from_be_bytes hdr in
  if (len =? 0)%Z || (65535 <? len)%Z then ret (Err (ErrProtocol "bad tcp length"))
  else
    let!? buf := io (net (NReadExact s (Z.to_nat len))) in
    ret (decode_msg buf).

(** @src src/src/upstream.rs 593-600 framed_exchange *)
Definition framed_exchange {L} (s : nat) (q : Message) : M L (Res Message) :=
  let!? _ := write_framed s q in
  let!? resp := read_framed s in
  ret (take_response q resp).

(** ** UDP *)

(** The four receptions; [n] are left.  A truncated answer is asked again over
    TCP.
    @src src/src/upstream.rs 569-590 udp_exchange_addr *)
Fixpoint udp_receive {L} (n : nat) (sock : nat) (dest : SocketAddr) (q : Message) : M L (Res Message) :=
  match n with
  | O => ret (Err (ErrProtocol "no matching udp response"))
  | S n =>
      let!? buf := io (net (NUdpRecv sock (Z.to_nat 65535))) in
      match decode_msg buf with
      | Err _ => udp_receive n sock dest q
      | Ok resp =>
          match take_response q resp with
          | Err _ => udp_receive n sock dest q
          | Ok ok =>
              if truncated ok then
                let!? stream := io (net (NTcpConnect dest)) in
                let!? _ := io (cell (NSetNoDelay stream)) in
                let!? full := framed_exchange stream q in
                if truncated full then ret (Err (ErrProtocol "truncated tcp response"))
                else ret (Ok full)
              else ret (Ok ok)
          end
      end
  end.

(** @src src/src/upstream.rs 558-591 udp_exchange_addr *)
Definition udp_exchange_addr {L} (dest : SocketAddr) (q : Message) : M L (Res Message) :=
  let bind := if is_ipv4 (sa_ip dest) then "0.0.0.0:0" else "[::]:0" in
  let!? sock := io (net (NUdpBind bind)) in
  let!? _ := io (net (NUdpConnect sock dest)) in
  let!? bytes := ret (encode_msg q) in
  let!? _ := io (net (NUdpSend sock bytes)) in
  udp_receive 4 sock dest q.

(** ** Resolving *)

(** [Vec::dedup]: of equal neighbours, the first stays. *)
Fixpoint dedup_from (x : IpAddr) (l : list IpAddr) : list IpAddr :=
  match l with
  | [] => [x]
  | y :: l => if decide (x = y) then dedup_from x l else x :: dedup_from y l
  end.
Definition dedup (l : list IpAddr) : list IpAddr :=
  match l with [] => [] | x :: l => dedup_from x l end.

(** [sort_by_key(|ip| !ip.is_ipv4())]: stable, [false] before [true]. *)
Definition ipv4_first (l : list IpAddr) : list IpAddr :=
  filter (λ ip, is_ipv4 ip = true) l ++ filter (λ ip, is_ipv4 ip = false) l.

(** The addresses a response carries.
    @src src/src/upstream.rs 469-477 bootstrap_query *)
Definition response_ips (resp : Message) : list IpAddr :=
  omap (λ r, match rdata_view (rec_data r) with
             | RDataA a => Some (V4 a)
             | RDataAAAA a => Some (V6 a)
             | _ => None
             end) (answers resp).

(** @src src/src/upstream.rs 460-478 bootstrap_query *)
Definition bootstrap_query {L} (boot : SocketAddr) (name : string) (qtype : RecordType) : M L (Res (list IpAddr)) :=
  let fqdn := if ends_with "." name then name else name +:+ "." in
  let! id := cell NRandomId in
  let!? q := ret (map_err ErrProtocol (build_query id fqdn qtype)) in
  let!? resp := udp_exchange_addr boot q in
  ret (Ok (response_ips resp)).

(** What one lookup adds to the addresses. *)
Definition lookup_ips (r : option (Res (list IpAddr))) : list IpAddr :=
  match r with Some (Ok l) => l | _ => [] end.

(** Both families are asked at once, each with the time limit; their answers are
    collected in the order in which they end.
    @src src/src/upstream.rs 424-458 bootstrap_ips *)
Definition bootstrap_ips {L} (bootstrap hostname : string) (budget : Z) : M L (Res (list IpAddr)) :=
  let!? boot := ret (bootstrap_socket bootstrap) in
  let host := trim_end_matches "." hostname in
  let lookup qtype : task unit (option (Res (list IpAddr))) :=
    timeout (Z.min budget BOOTSTRAP_QUERY_TIMEOUT) (bootstrap_query boot host qtype) tt in
  let! first := (λ l, select l (lookup rt_A) (lookup rt_AAAA)) in
  let! ips :=
    (match first with
     | inl (_, r1, rest) | inr (_, r1, rest) =>
         let! (_, r2) := (λ l, enclose l rest) in
         ret (lookup_ips r1 ++ lookup_ips r2)
     end) in
  match ips with
  | [] => ret (Err (ErrConfig ("bootstrap " +:+ bootstrap +:+ " could not resolve " +:+ hostname)))
  | _ => ret (Ok (dedup (ipv4_first ips)))
  end.

(** @src src/src/upstream.rs 549-556 resolve_target *)
Definition resolve_target {L} (target : string) : M L (Res SocketAddr) :=
  let! r := net (NLookupHost target) in
  ret (match r with
       | Ok (a :: _) => Ok a
       | Ok [] => Err (ErrConfig ("no addr for " +:+ target))
       | Err e => Err (io_error e)
       end).

(** @src src/src/upstream.rs 369-395 resolve_spec *)
Definition resolve_spec {L} (spec : UpstreamSpec) (target : string) (budget : Z) : M L (Res SocketAddr) :=
  match us_dial_addr spec with
  | Some dial => ret (parse_ip_port dial (port_of target 53))
  | None =>
      let host := host_of target in
      let port := port_of target 53 in
      match parse_ip_addr host with
      | Some ip => ret (Ok (mkSocketAddr ip port))
      | None =>
          match parse_socket_addr target with
          | Some sa => ret (Ok sa)
          | None =>
              match us_bootstrap spec with
              | Some boot =>
                  let!? ips := bootstrap_ips boot host budget in
                  ret (match ips with
                       | ip :: _ => Ok (mkSocketAddr ip port)
                       | [] => Err (ErrConfig ("bootstrap " +:+ boot +:+ " returned no addresses for " +:+ host))
                       end)
              | None => resolve_target target
              end
          end
      end
  end.

(** @src src/src/upstream.rs 356-367 cached_dest *)
Definition cached_dest {L} (u : Cells) (spec : UpstreamSpec) (target : string) (budget : Z) : M L (Res SocketAddr) :=
  let! known := cell (NDestGet u) in
  match (known : option SocketAddr) with
  | Some d => ret (Ok d)
  | None =>
      let!? d := resolve_spec spec target budget in
      let! d := cell (NDestInit u d) in
      ret (Ok d)
  end.

(** @src src/src/upstream.rs 319-338 PinResolver::resolve_host *)
Definition resolve_host {L} (u : Cells) (p : PinResolver) (host : string) (budget : Z) : M L (Res (list SocketAddr)) :=
  match pr_pins p with
  | _ :: _ => ret (Ok (pr_pins p))
  | [] =>
      match parse_ip_addr host with
      | Some ip => ret (Ok [mkSocketAddr ip 0])
      | None =>
          let! known := cell (NPinGet u host) in
          match (known : option (list SocketAddr)) with
          | Some addrs => ret (Ok addrs)
          | None =>
              let!? addrs :=
                (match pr_bootstrap p with
                 | Some boot =>
                     let!? ips := bootstrap_ips boot host budget in
                     ret (Ok ((λ ip, mkSocketAddr ip 0) <$> ips))
                 | None => io (net (NLookupPair host 0))
                 end) in
              do! cell (NPinSet u host addrs) in
              ret (Ok addrs)
          end
      end
  end.

(** ** Pooled connections *)

(** @src src/src/upstream.rs 87-96 StreamPool::take *)
Definition pool_take {L} (u : Cells) (p : StreamPool) : M L (option nat) :=
  let! now := sync ENow in
  cell (NPoolTake u p now).

(** @src src/src/upstream.rs 98-103 StreamPool::put *)
Definition pool_put {L} (u : Cells) (p : StreamPool) (s : nat) : M L unit :=
  cell (NPoolPut u p s).

(** The attempt on a connection of the pool; [None]: there was none, or it failed
    and is dropped.
    @src src/src/upstream.rs 607-615 tcp_exchange_pooled *)
Definition reused_exchange {L} (u : Cells) (p : StreamPool) (q : Message) : M L (option Message) :=
  let! reused := pool_take u p in
  match reused with
  | Some stream =>
      let! r := framed_exchange stream q in
      match r with
      | Ok msg => do! pool_put u p stream in ret (Some msg)
      | Err _ => ret None
      end
  | None => ret None
  end.

(** The exchange on a new connection.
    @src src/src/upstream.rs 616-620 tcp_exchange_pooled *)
Definition fresh_exchange {L} (u : Cells) (p : StreamPool) (connect : M L (Res nat)) (q : Message) : M L (Res Message) :=
  let!? stream := connect in
  let!? msg := framed_exchange stream q in
  do! pool_put u p stream in
  ret (Ok msg).

(** @src src/src/upstream.rs 616-617 tcp_exchange_pooled *)
Definition tcp_connect {L} (dest : SocketAddr) : M L (Res nat) :=
  let!? stream := io (net (NTcpConnect dest)) in
  let!? _ := io (cell (NSetNoDelay stream)) in
  ret (Ok stream).

(** @src src/src/upstream.rs 639-646 tls_exchange_pooled *)
Definition tls_connect {L} (dest : SocketAddr) (sni : string) : M L (Res nat) :=
  let!? stream := tcp_connect dest in
  let!? name := ret (map_err (λ e, ErrProtocol ("sni " +:+ sni +:+ ": " +:+ e)) (server_name_try_from sni)) in
  let! tls := net (NTlsConnect name stream) in
  ret (map_err ErrProtocol (tls : result string nat)).

(** @src src/src/upstream.rs 602-621 tcp_exchange_pooled *)
Definition tcp_exchange_pooled {L} (u : Cells) (p : StreamPool) (dest : SocketAddr) (q : Message) : M L (Res Message) :=
  let! reused := reused_exchange u p q in
  match reused with
  | Some msg => ret (Ok msg)
  | None => fresh_exchange u p (tcp_connect dest) q
  end.

(** @src src/src/upstream.rs 623-650 tls_exchange_pooled *)
Definition tls_exchange_pooled {L} (u : Cells) (p : StreamPool) (dest : SocketAddr) (sni : string) (q : Message)
    : M L (Res Message) :=
  let! reused := reused_exchange u p q in
  match reused with
  | Some msg => ret (Ok msg)
  | None => fresh_exchange u p (tls_connect dest sni) q
  end.

(** ** HTTPS *)

(** [StatusCode::is_success]. *)
Definition http_success (status : Z) : bool := (200 <=? status)%Z && (status <? 300)%Z.

(** @src src/src/upstream.rs 652-670 doh_exchange *)
Definition doh_exchange {L} (url : string) (q : Message) : M L (Res Message) :=
  let!? bytes := ret (encode_msg q) in
  let! sent := net (NHttpSend url [("content-type", "application/dns-message"); ("accept", "application/dns-message")] bytes) in
  let!? resp := ret (map_err ErrProtocol (sent : result string HttpResponse)) in
  if negb (http_success (hr_status resp)) then ret (Err (ErrProtocol ("doh http " +:+ hr_text resp)))
  else
    let! read := net (NHttpBody (hr_body resp)) in
    let!? body := ret (map_err ErrProtocol (read : result string (list Z))) in
    ret (let? m := decode_msg body in take_response q m).

(** ** The exchange *)

(** [.map_err(|e| Error::Upstream { .. })]. *)
Definition upstream_err {L A} (up : Upstream) (m : M L (Res A)) : M L (Res A) :=
  let! r := m in ret (map_err (λ e, ErrUpstream (us_addr (up_spec up)) (error_display e)) r).

(** The pools of an upstream are made with its idle time-out. *)
Definition upstream_pool (up : Upstream) : StreamPool :=
  stream_pool_new POOL_CAP (us_idle_timeout (up_spec up)).

(** The [?] of an address that does not resolve leaves the function; only the
    errors of the exchange proper are wrapped.
    @src src/src/upstream.rs 232-267 Upstream::exchange_inner *)
Definition exchange_inner {L} (u : Cells) (up : Upstream) (q : Message) (limit : Z) : M L (Res Message) :=
  let budget := Z.min (limit / 2) BOOTSTRAP_QUERY_TIMEOUT in
  match up_kind up with
  | KindUdp target =>
      let!? dest := cached_dest u (up_spec up) target budget in
      upstream_err up (udp_exchange_addr dest q)
  | KindTcp target =>
      let!? dest := cached_dest u (up_spec up) target budget in
      if up_tcp_pool up then upstream_err up (tcp_exchange_pooled u (upstream_pool up) dest q)
      else λ _, Panic "tcp pool"
  | KindTls target sni =>
      let!? dest := cached_dest u (up_spec up) target budget in
      if negb (up_tls up) then λ _, Panic "tls connector"
      else if up_tls_pool up then upstream_err up (tls_exchange_pooled u (upstream_pool up) dest sni q)
      else λ _, Panic "tls pool"
  | KindDoh url =>
      let!? _ :=
        (match up_resolver up with
         | Some resolver =>
             let!? (host, _) := ret (url_host_port url 443) in
             let!? _ := resolve_host u resolver host budget in
             ret (Ok tt)
         | None => ret (Ok tt)
         end) in
      if up_http up then upstream_err up (doh_exchange url q) else λ _, Panic "http client"
  end.

(** @src src/src/upstream.rs 223-230 Upstream::exchange *)
Definition exchange {L} (u : Cells) (up : Upstream) (q : Message) (limit : Z) : M L (Res Message) :=
  let! r := timeout limit (exchange_inner u up q limit) in
  ret (match r with
       | Some r => r
       | None => Err (ErrUpstream (us_addr (up_spec up)) "timeout")
       end).

(** The callback of the HTTP client's resolver.
    @src src/src/upstream.rs 342-353 PinResolver::resolve *)
Definition resolver_resolve {L} (u : Cells) (p : PinResolver) (name : string) : M L (Res (list SocketAddr)) :=
  resolve_host u p name BOOTSTRAP_QUERY_TIMEOUT.
End exchange.

(** ** What an exchange returns *)
Section yields.
Context {H : Hickory} {HL : HickoryLaws H} {T : TlsLib}.
Context (P : Protocol) (Hnet : networked P).
(** A timer is running: that of the exchange. *)
Context (Htimed : p_await P false = p_await P true).

Lemma net_awaits op : awaits_all (p_await P) false (ANet op).
Proof. cbn. rewrite Htimed. apply Hnet. Qed.
#[local] Hint Resolve net_awaits : core.
Lemma wp_under_timer {L A} (I : L → Prop) (t : task L A) Q : wp P I t Q → wp (timed P) I t Q.
Proof. apply wp_awaits; [done|done|]. intros [] a; cbn; by rewrite ?Htimed. Qed.

(** [m] ends, does not panic, and a value it returns satisfies [R]. *)
Definition yields {L A} (m : M L (Res A)) (R : A → Prop) : Prop :=
  ∀ l, wp P (λ _, True) (m l) (λ _ r, match r with Ok a => R a | Err _ => True end).

Lemma yields_mono {L A} (m : M L (Res A)) (R R' : A → Prop) : yields m R → (∀ a, R a → R' a) → yields m R'.
Proof. intros Hm HR l. eapply wp_mono; [apply Hm|done|]. intros l' [a|e]; auto. Qed.

Lemma yields_ret {L A} (r : Res A) (R : A → Prop) :
  match r with Ok a => R a | Err _ => True end → yields (L := L) (ret r) R.
Proof. by intros Hr l. Qed.

Lemma yields_ret_ok {L A} (a : A) (R : A → Prop) : R a → yields (L := L) (ret (Ok a)) R.
Proof. by intros Hr l. Qed.
Lemma yields_ret_err {L A} (e : Error) (R : A → Prop) : yields (L := L) (ret (Err e)) R.
Proof. by intros l. Qed.

Lemma yields_bind_res {L A B} (m : M L (Res A)) (f : A → M L (Res B)) (R1 : A → Prop) (R : B → Prop) :
  yields m R1 → (∀ a, R1 a → yields (f a) R) → yields (bind_res m f) R.
Proof.
  intros Hm Hf l. apply wp_bind_res. eapply wp_mono; [apply Hm|done|]. intros l' [a|e]; [|done]. intros Ha. by apply Hf.
Qed.

(** When nothing is to be known of the first result. *)
Lemma yields_then {L A B} (m : M L (Res A)) (f : A → M L (Res B)) (R : B → Prop) :
  yields m (λ _, True) → (∀ a, yields (f a) R) → yields (bind_res m f) R.
Proof. intros Hm Hf. eapply yields_bind_res; [done|]. auto. Qed.

Lemma yields_net {L A} op (f : net_reply op → M L (Res A)) (R : A → Prop) :
  (∀ r, net_ok op r → yields (f r) R) → yields (bind (net op) f) R.
Proof. intros Hf l. apply wp_bind, wp_suspend; [done..|]. intros r Hr. by apply Hf. Qed.

Lemma yields_cell {L A} a (f : net_access_reply a → M L (Res A)) (R : A → Prop) :
  (∀ r, yields (f r) R) → yields (bind (cell a) f) R.
Proof. intros Hf l. apply wp_bind, wp_sync; [apply Hnet|]. intros r _. apply Hf. Qed.

Lemma yields_io_net {L A} (m : M L (result IoError A)) : (∀ l, wp P (λ _, True) (m l) (λ _ _, True)) → yields (io m) (λ _, True).
Proof. intros Hm l. apply wp_bind. eapply wp_mono; [apply Hm|done|]. by intros l' [a|e]. Qed.

Lemma wp_net {L} op (l : L) : wp P (λ _, True) (net op l) (λ _ _, True).
Proof. by split. Qed.
Lemma wp_cell {L} a (l : L) : wp P (λ _, True) (cell a l) (λ _ _, True).
Proof. split; [apply Hnet|done]. Qed.

Lemma yields_wp {L A} (m : M L (Res A)) R l : yields m R → wp P (λ _, True) (m l) (λ _ _, True).
Proof. intros Hm. by eapply wp_mono; [apply Hm|..]. Qed.

Hint Resolve yields_ret_ok yields_ret_err yields_io_net wp_net wp_cell : ferrum.

Ltac yields_auto :=
  repeat match goal with
  | |- _ → _ => intro
  | |- ∀ _, _ => intro
  | |- yields (bind_res _ _) _ => apply yields_then
  | |- yields (bind (net _) _) _ => apply yields_net
  | |- yields (bind (cell _) _) _ => apply yields_cell
  | |- yields (io _) _ => apply yields_io_net
  | |- yields (ret (Ok _)) _ => apply yields_ret_ok
  | |- yields (ret (Err _)) _ => apply yields_ret_err
  | |- yields (ret ?r) (λ _, True) => apply yields_ret; by destruct r
  | |- yields (match ?x with _ => _ end) _ => destruct x eqn:?
  | |- wp _ _ (net _ _) _ => apply wp_net
  | |- wp _ _ (cell _ _) _ => apply wp_cell
  | |- True => exact I
  | |- _ => solve [auto with ferrum nocore]
  end.

(** [m] answers [q]. *)
Record answers_to (q m : Message) : Prop := mkAnswersTo {
  an_type : message_type m = mt_Response;
  an_id : msg_id m = msg_id q;
  an_opcode : op_code m = op_code q;
  an_queries : Forall2 same_question (queries m) (queries q);
}.

Lemma take_response_answers q resp m : take_response q resp = Ok m → answers_to q m.
Proof.
  unfold take_response. repeat case_decide; [done..|]. destruct (queries_eqb _ _) eqn:E; simpl; [|done].
  intros [= <-]. apply queries_eqb_iff in E. split; done || by apply dec_stable.
Qed.

Lemma yields_take_response {L} q resp : yields (L := L) (ret (take_response q resp)) (answers_to q).
Proof. apply yields_ret. destruct (take_response q resp) eqn:E; [|done]. by eapply take_response_answers. Qed.
Hint Resolve yields_take_response : ferrum.

Lemma yields_framed_exchange {L} s q : yields (L := L) (framed_exchange s q) (answers_to q).
Proof. unfold framed_exchange, write_framed, read_framed. yields_auto. Qed.

(** Over UDP a truncated answer is not returned. *)
Lemma yields_udp_exchange {L} dest q :
  yields (L := L) (udp_exchange_addr dest q) (λ m, answers_to q m ∧ truncated m = false).
Proof.
  assert (Hrecv : ∀ n sock, yields (L := L) (udp_receive n sock dest q) (λ m, answers_to q m ∧ truncated m = false)).
  { induction n as [|n IH]; intros sock; cbn [udp_receive]; [auto with ferrum|].
    apply yields_then; [apply yields_io_net, wp_net|]. intros buf. destruct (decode_msg buf) as [resp|]; [|apply IH].
    destruct (take_response q resp) as [ok|] eqn:Eok; [|apply IH]. apply take_response_answers in Eok.
    destruct (truncated ok) eqn:Et; [|by apply yields_ret_ok].
    apply yields_then; [apply yields_io_net, wp_net|]. intros stream. apply yields_then; [apply yields_io_net, wp_cell|]. intros _.
    eapply yields_bind_res; [apply yields_framed_exchange|]. intros full Hf.
    destruct (truncated full) eqn:Etf; [apply yields_ret_err|by apply yields_ret_ok]. }
  unfold udp_exchange_addr. yields_auto; apply Hrecv.
Qed.

Lemma yields_bootstrap_query {L} boot name qtype : yields (L := L) (bootstrap_query boot name qtype) (λ _, True).
Proof.
  unfold bootstrap_query. yields_auto. eapply yields_mono; [apply yields_udp_exchange|done].
Qed.

(** The addresses of a host: at least one. *)
Lemma dedup_nonempty l : dedup l = [] → l = [].
Proof.
  destruct l as [|x l]; [done|]. simpl. intros E. exfalso. revert x E. induction l as [|y l IH]; intros x; simpl; [done|].
  destruct (decide (x = y)); [apply IH|done].
Qed.

Lemma ipv4_first_nonempty l : ipv4_first l = [] → l = [].
Proof.
  unfold ipv4_first. intros [H4 H6]%app_nil. destruct l as [|ip l]; [done|]. exfalso.
  destruct (is_ipv4 ip) eqn:E; [by rewrite filter_cons_True in H4|by rewrite filter_cons_True in H6].
Qed.

Lemma yields_bootstrap_ips {L} bootstrap hostname budget :
  yields (L := L) (bootstrap_ips bootstrap hostname budget) (λ ips, ips ≠ []).
Proof.
  unfold bootstrap_ips. apply yields_then; [yields_auto|]. intros boot l.
  assert (Hq : ∀ qtype d host, wp P (λ _, True) (timeout d (bootstrap_query boot host qtype) tt) (λ _ _, True)).
  { intros qtype d host. eapply wp_timeout; [apply Hnet|eapply wp_under_timer, yields_wp, yields_bootstrap_query|done..]. }
  apply wp_bind. eapply wp_select; [apply Hq|apply Hq|done|]. intros r Hr.
  apply wp_bind. apply (wp_mono P (λ _, True) _ _ (λ _ _, True)); [|done|].
  - destruct r as [[[l1 r1] rest]|[[l1 r1] rest]]; destruct Hr as [_ Hrest];
      (apply wp_bind; eapply wp_enclose; [exact Hrest|done|]; by intros).
  - intros l' [|ip ips] _; [apply wp_ret; done|]. apply wp_ret. intros E.
    by apply dedup_nonempty, ipv4_first_nonempty in E.
Qed.

Lemma yields_resolve_spec {L} spec target budget : yields (L := L) (resolve_spec spec target budget) (λ _, True).
Proof.
  unfold resolve_spec, resolve_target. yields_auto. eapply yields_mono; [apply yields_bootstrap_ips|done].
Qed.

Lemma yields_cached_dest {L} u spec target budget : yields (L := L) (cached_dest u spec target budget) (λ _, True).
Proof. unfold cached_dest. pose proof (@yields_resolve_spec L spec target budget). yields_auto. Qed.

Lemma yields_resolve_host {L} u p host budget : yields (L := L) (resolve_host u p host budget) (λ _, True).
Proof.
  unfold resolve_host. yields_auto. eapply yields_mono; [apply yields_bootstrap_ips|done].
Qed.

Lemma wp_pool_take {L} u p (l : L) : wp P (λ _, True) (pool_take u p l) (λ _ _, True).
Proof. unfold pool_take. apply wp_bind, wp_sync; [apply Hnet|]. intros now _. apply wp_cell. Qed.

Lemma wp_reused_exchange {L} u p q (l : L) :
  wp P (λ _, True) (reused_exchange u p q l) (λ _ r, match r with Some m => answers_to q m | None => True end).
Proof.
  unfold reused_exchange. apply wp_bind. eapply wp_mono; [apply wp_pool_take|done|]. intros l' [stream|] _; [|done].
  apply wp_bind. eapply wp_mono; [apply yields_framed_exchange|done|]. intros l2 [msg|e] Hm; [|done].
  apply wp_bind. eapply wp_mono; [apply wp_cell|done|]. intros l3 u' _. exact Hm.
Qed.

Lemma yields_fresh_exchange {L} u p connect q :
  yields (L := L) connect (λ _, True) → yields (L := L) (fresh_exchange u p connect q) (answers_to q).
Proof.
  intros Hc. unfold fresh_exchange. apply yields_then; [done|]. intros stream.
  eapply yields_bind_res; [apply yields_framed_exchange|]. intros m Hm. unfold pool_put. apply yields_cell.
  intros _. by apply yields_ret_ok.
Qed.

Lemma yields_tcp_connect {L} dest : yields (L := L) (tcp_connect dest) (λ _, True).
Proof. unfold tcp_connect. yields_auto. Qed.

Lemma yields_tls_connect {L} dest sni : yields (L := L) (tls_connect dest sni) (λ _, True).
Proof. unfold tls_connect. pose proof (@yields_tcp_connect L dest). yields_auto. Qed.

Lemma yields_pooled {L} u p connect q :
  yields (L := L) connect (λ _, True) →
  yields (L := L) (let! reused := reused_exchange u p q in
    match reused with Some msg => ret (Ok msg) | None => fresh_exchange u p connect q end) (answers_to q).
Proof.
  intros Hc l. apply wp_bind. eapply wp_mono; [apply wp_reused_exchange|done|]. intros l' [msg|] Hm; [done|].
  by apply yields_fresh_exchange.
Qed.

Lemma yields_doh_exchange {L} url q : yields (L := L) (doh_exchange url q) (answers_to q).
Proof.
  unfold doh_exchange. yields_auto. apply yields_ret. destruct (decode_msg _) as [m|]; [|done]. simpl.
  destruct (take_response q m) eqn:E; [|done]. by eapply take_response_answers.
Qed.

Lemma yields_upstream_err {L A} up (m : M L (Res A)) R : yields m R → yields (upstream_err up m) R.
Proof. intros Hm l. apply wp_bind. eapply wp_mono; [apply Hm|done|]. by intros l' [a|e]. Qed.

(** What an exchange with an upstream returns: over UDP, never a truncated answer. *)
Definition exchanged_with (up : Upstream) (q m : Message) : Prop :=
  answers_to q m ∧ match up_kind up with KindUdp _ => truncated m = false | _ => True end.

(** The parts an upstream of each kind has. *)
Definition upstream_wf (up : Upstream) : Prop :=
  match up_kind up with
  | KindUdp _ => True
  | KindTcp _ => up_tcp_pool up = true
  | KindTls _ _ => up_tls up = true ∧ up_tls_pool up = true
  | KindDoh _ => up_http up = true
  end.

Lemma yields_exchange_inner {L} u up q limit :
  upstream_wf up → yields (L := L) (exchange_inner u up q limit) (exchanged_with up q).
Proof.
  unfold upstream_wf, exchange_inner, exchanged_with. intros Hwf. destruct (up_kind up) as [target|target|target sni|url].
  - apply yields_then; [apply yields_cached_dest|]. intros dest. apply yields_upstream_err, yields_udp_exchange.
  - apply yields_then; [apply yields_cached_dest|]. intros dest. rewrite Hwf. apply yields_upstream_err.
    eapply yields_mono; [apply yields_pooled, yields_tcp_connect|done].
  - apply yields_then; [apply yields_cached_dest|]. intros dest. destruct Hwf as [-> ->]. apply yields_upstream_err.
    eapply yields_mono; [apply yields_pooled, yields_tls_connect|done].
  - apply yields_then.
    + destruct (up_resolver up) as [resolver|]; [|yields_auto]. apply yields_then; [yields_auto|]. intros [host port].
      apply yields_then; [apply yields_resolve_host|]. yields_auto.
    + intros _. rewrite Hwf. apply yields_upstream_err. eapply yields_mono; [apply yields_doh_exchange|done].
Qed.
End yields.

(** All that an exchange waits for, it waits for under its timer. *)
Lemma yields_exchange {H : Hickory} {HL : HickoryLaws H} {T : TlsLib} {L} P u up q limit :
  networked P → upstream_wf up → yields P (L := L) (exchange u up q limit) (exchanged_with up q).
Proof.
  intros HP Hwf l. unfold exchange. apply wp_bind.
  eapply wp_timeout; [apply HP|by apply (yields_exchange_inner (timed P) (networked_timed P HP) eq_refl u up q limit)| |done].
  intros l' [m|e] Hm; [exact Hm|done].
Qed.

Lemma upstream_connect_wf `{HttpLib} spec up : upstream_connect spec = Ok up → upstream_wf up.
Proof.
  unfold upstream_connect. intros (kind & _ & Hup)%result_bind_Ok. unfold upstream_wf.
  apply result_bind_Ok in Hup as ([http resolver] & Hk & [= <-]). cbn.
  destruct kind; simplify_eq; try done. by apply result_bind_Ok in Hk as (r & _ & [= <- <-]).
Qed.

(** C13: an exchange with an upstream that [connect] built always ends, whatever the
    network does, and never panics; a message it returns answers the query (a
    response with its id, opcode and questions), and over UDP it is never a
    truncated one: a truncated datagram is asked again over TCP.  So whatever
    arrives on a socket, nothing but such a message reaches a [forward] step. *)
Theorem exchange_answers {H : Hickory} {HL : HickoryLaws H} {T : TlsLib} {HT : HttpLib} {L} (P : Protocol)
    (spec : UpstreamSpec) (up : Upstream) (u : Cells) (q : Message) (limit : Z) (l : L) :
  networked P → upstream_connect spec = Ok up →
  wp P (λ _, True) (exchange u up q limit l)
    (λ _ r, match r with Ok m => exchanged_with up q m | Err _ => True end).
Proof. intros Hnet Hup. apply yields_exchange; [done..|]. by eapply upstream_connect_wf. Qed.

(** ** Connections of the pool *)
Section aligned.
Context {H : Hickory} {T : TlsLib}.

(** One whole exchange on connection [s]: the query is written and flushed, and
    one frame is read to its end, which is the answer [m]. *)
Record whole_exchange (s : nat) (q m : Message) (tr : list item) : Prop := mkWhole {
  we_trace : ∃ bytes hdr body, encode_msg q = Ok bytes ∧ (Z.of_nat (length bytes) ≤ u16_max)%Z
    ∧ tr = [IAwait (ANet (NWriteAll s (to_be_bytes (Z.of_nat (length bytes))))) (Ok tt);
            IAwait (ANet (NWriteAll s bytes)) (Ok tt); IAwait (ANet (NFlush s)) (Ok tt);
            IAwait (ANet (NReadExact s 2)) (Ok hdr);
            IAwait (ANet (NReadExact s (Z.to_nat (from_be_bytes hdr)))) (Ok body)]
    ∧ ∃ resp, decode_msg body = Ok resp ∧ take_response q resp = Ok m;
}.

(** How a task comes by a connection: from the pool, or a new one. *)
Inductive acquired (u : Cells) (s : nat) : list item → Prop :=
| acquired_pooled tr p now : acquired u s (tr ++ [ISync (ENet (NPoolTake u p now)) (Some s)])
| acquired_tcp tr dest :
    acquired u s (tr ++ [IAwait (ANet (NTcpConnect dest)) (Ok s); ISync (ENet (NSetNoDelay s)) (Ok tt)])
| acquired_tls tr name c : acquired u s (tr ++ [IAwait (ANet (NTlsConnect name c)) (Ok s)]).

(** The connections a run gives to a pool. *)
Definition put1 (i : item) : list nat := match i with ISync (ENet (NPoolPut _ _ s)) _ => [s] | _ => [] end.
Definition puts (tr : list item) : list nat := i ← tr; put1 i.

Lemma puts_app tr1 tr2 : puts (tr1 ++ tr2) = puts tr1 ++ puts tr2.
Proof. apply bind_app. Qed.

Lemma run_bind_res {L A B} (m : M L (Res A)) (f : A → M L (Res B)) l tr l' r :
  run (bind_res m f l) tr l' r →
  (∃ e, r = Err e ∧ run (m l) tr l' (Err e))
  ∨ ∃ tr1 tr2 l1 a, tr = tr1 ++ tr2 ∧ run (m l) tr1 l1 (Ok a) ∧ run (f a l1) tr2 l' r.
Proof.
  intros (tr1 & tr2 & l1 & [a|e] & -> & Hm & Hf)%run_bind; [right; by exists tr1, tr2, l1, a|left].
  destruct Hf as (-> & -> & ->). exists e. by rewrite app_nil_r.
Qed.

(** The trace of one I/O operation. *)
Ltac run_io H x :=
  let t := fresh "t" in let E := fresh "E" in
  simpl in H; destruct H as (x & t & -> & -> & -> & E);
  destruct x as [x|?]; simpl in E; [injection E as ?; subst|discriminate E].

Lemma run_framed_ok {L} s q m (l : L) tr l' : run (framed_exchange s q l) tr l' (Ok m) → whole_exchange s q m tr.
Proof.
  unfold framed_exchange, write_framed, read_framed. intros Hr.
  apply run_bind_res in Hr as [(e & [=] & _)|(t1 & t2 & l1 & [] & -> & Hw & Hr)].
  apply run_bind_res in Hr as [(e & [=] & _)|(t3 & t4 & l2 & resp & -> & Hrd & Hr)].
  destruct Hr as (-> & -> & Hr). symmetry in Hr. rewrite app_nil_r.
  destruct (encode_msg q) as [bytes|e] eqn:Eq; [|by destruct Hw as (_ & _ & [=])].
  destruct (Z.ltb_spec u16_max (Z.of_nat (length bytes))); [by destruct Hw as (_ & _ & [=])|].
  apply run_bind_res in Hw as [(e & [=] & _)|(w1 & w2 & l3 & [] & -> & Hw1 & Hw)]. run_io Hw1 x1.
  apply run_bind_res in Hw as [(e & [=] & _)|(w3 & w4 & l4 & [] & -> & Hw2 & Hw)]. run_io Hw2 x2.
  apply run_bind_res in Hw as [(e & [=] & _)|(w5 & w6 & l5 & [] & -> & Hw3 & Hw)]. run_io Hw3 x3.
  destruct Hw as (-> & -> & _).
  apply run_bind_res in Hrd as [(e & [=] & _)|(r1 & r2 & l6 & hdr & -> & Hr1 & Hrd)]. run_io Hr1 hdr'.
  destruct (_ || _); [by destruct Hrd as (_ & _ & [=])|].
  apply run_bind_res in Hrd as [(e & [=] & _)|(r3 & r4 & l7 & body & -> & Hr2 & Hrd)]. run_io Hr2 body'.
  destruct Hrd as (-> & -> & Hd). symmetry in Hd.
  split. eexists bytes, _, _. split; [done|]. split; [lia|]. split; [reflexivity|]. by exists resp.
Qed.

(** Conversely, the run in which every operation succeeds. *)
Lemma framed_run {L} s q qb hdr body resp m (l : L) :
  encode_msg q = Ok qb → (Z.of_nat (length qb) ≤ u16_max)%Z → (0 < from_be_bytes hdr ≤ 65535)%Z →
  decode_msg body = Ok resp → take_response q resp = Ok m →
  run (framed_exchange s q l)
    [IAwait (ANet (NWriteAll s (to_be_bytes (Z.of_nat (length qb))))) (Ok tt);
     IAwait (ANet (NWriteAll s qb)) (Ok tt); IAwait (ANet (NFlush s)) (Ok tt);
     IAwait (ANet (NReadExact s 2)) (Ok hdr);
     IAwait (ANet (NReadExact s (Z.to_nat (from_be_bytes hdr)))) (Ok body)] l (Ok m).
Proof.
  intros Hq Hlen Hh Hd Ht. unfold framed_exchange, write_framed. rewrite Hq. cbv zeta.
  rewrite (proj2 (Z.ltb_ge u16_max _) Hlen). do 4 (eexists _, _; split; [reflexivity|]). cbn [map_err bind_res].
  unfold read_framed. cbn -[from_be_bytes decode_msg take_response run].
  rewrite (proj2 (Z.eqb_neq _ _)), (proj2 (Z.ltb_ge 65535 _)) by lia. cbn [orb].
  eexists _, _. split; [reflexivity|]. cbn -[decode_msg take_response]. by rewrite Hd, Ht.
Qed.

(** A run over UDP, begun at [now], in which every operation succeeds and one datagram
    answers. *)
Definition udp_items (u : Cells) (now limit : Z) (dest : SocketAddr) (s : nat) (qb wire : list Z) : list item :=
  let d := timer_at now limit in
  [ISync ENow now; ISync (ENet (NDestGet u)) (Some dest);
   IAwait (ATimer d (ANet (NUdpBind (if is_ipv4 (sa_ip dest) then "0.0.0.0:0" else "[::]:0")))) (Some (Ok s));
   IAwait (ATimer d (ANet (NUdpConnect s dest))) (Some (Ok tt));
   IAwait (ATimer d (ANet (NUdpSend s qb))) (Some (Ok tt));
   IAwait (ATimer d (ANet (NUdpRecv s (Z.to_nat 65535)))) (Some (Ok wire))].

Lemma run_exchange_udp u up target q now limit dest s qb wire resp m :
  up_kind up = KindUdp target → encode_msg q = Ok qb → decode_msg wire = Ok resp → take_response q resp = Ok m →
  truncated m = false → run (exchange u up q limit tt) (udp_items u now limit dest s qb wire) tt (Ok m).
Proof.
  intros Hk Hq Hd Ht Hm. unfold exchange, exchange_inner, udp_items. rewrite Hk. unfold udp_exchange_addr.
  do 3 (eexists _, _; split; [reflexivity|]). cbn [map_err bind_res].
  eexists _, _. split; [reflexivity|]. rewrite Hq.
  eexists _, _. split; [reflexivity|].
  eexists _, _. split; [reflexivity|].
  cbn -[decode_msg take_response truncated]. rewrite Hd. rewrite Ht. rewrite Hm. done.
Qed.
(** Tasks that only wait for the network put nothing. *)
Fixpoint only_waits {L A} (t : task L A) : Prop :=
  match t with
  | Sync _ _ _ => False
  | Await _ _ k => ∀ r, only_waits (k r)
  | _ => True
  end.

Lemma only_waits_puts {L A} (t : task L A) tr l a : only_waits t → run t tr l a → puts tr = [].
Proof.
  revert tr. induction t as [| |l0 w k IH| |]; intros tr Ht Hr; simpl in *; [by destruct Hr as [-> _]|done| |done|done].
  destruct Hr as (r & tr' & -> & Hr). by apply (IH r tr').
Qed.

Lemma only_waits_bind {L A B} (m : M L A) (f : A → M L B) l :
  only_waits (m l) → (∀ a l, only_waits (f a l)) → only_waits (bind m f l).
Proof.
  intros Hm Hf. unfold bind. generalize dependent (m l). intros t Ht.
  induction t as [| |l0 w k IH| |]; simpl in *; auto.
Qed.

Lemma only_waits_bind_res {L A B} (m : M L (Res A)) (f : A → M L (Res B)) l :
  only_waits (m l) → (∀ a l, only_waits (f a l)) → only_waits (bind_res m f l).
Proof. intros Hm Hf. apply only_waits_bind; [done|]. intros [a|e] l'; [apply Hf|done]. Qed.

Lemma only_waits_framed {L} s q (l : L) : only_waits (framed_exchange s q l).
Proof.
  unfold framed_exchange, write_framed, read_framed.
  repeat first [progress intros|done|progress cbn [io net bind suspend ret task_bind only_waits]
    |apply only_waits_bind_res|case_match].
Qed.

Definition put_item u p s : item := ISync (ENet (NPoolPut u p s)) tt.

(** How a connection comes back to the pool in a run [tr]. *)
Definition put_back (u : Cells) (p : StreamPool) (q : Message) (tr : list item) (m : Message) : Prop :=
  ∃ s tr0 trx, tr = tr0 ++ trx ++ [put_item u p s] ∧ acquired u s tr0 ∧ whole_exchange s q m trx
    ∧ puts tr0 = [] ∧ puts trx = [].

Lemma run_pool_put {L} u p s (l : L) tr l' x : run (pool_put u p s l) tr l' x → tr = [put_item u p s] ∧ l' = l.
Proof. intros ([] & t & -> & -> & -> & _). done. Qed.

Lemma run_pool_take {L} u p (l : L) tr l' o :
  run (pool_take u p l) tr l' o → l' = l ∧ puts tr = [] ∧ ∀ s, o = Some s → acquired u s tr.
Proof.
  unfold pool_take. intros (t1 & t2 & l1 & now & -> & Hn & Hr)%run_bind.
  destruct Hn as (n & t & -> & -> & -> & ->). destruct Hr as (r & t & -> & -> & -> & ->). split; [done|]. split; [done|].
  intros s ->. by apply (acquired_pooled u s [ISync ENow n]).
Qed.

Lemma run_reused {L} u p q (l : L) tr l' o :
  run (reused_exchange u p q l) tr l' o →
  match o with Some m => put_back u p q tr m | None => puts tr = [] end.
Proof.
  unfold reused_exchange. intros (t1 & t2 & l1 & [s|] & -> & (-> & Hp & Ha)%run_pool_take & Hr)%run_bind.
  - apply run_bind in Hr as (t3 & t4 & l2 & r & -> & Hx & Hr). pose proof (only_waits_puts _ _ _ _ (only_waits_framed s q l) Hx) as Hpx.
    destruct r as [m|e].
    + apply run_bind in Hr as (t5 & t6 & l3 & [] & -> & [-> ->]%run_pool_put & Hr). destruct Hr as (-> & _ & ->).
      exists s, t1, t3. rewrite app_nil_r. split; [done|]. split; [by apply Ha|].
      split; [by eapply run_framed_ok|done].
    + destruct Hr as (-> & _ & ->). by rewrite !puts_app, Hp, Hpx.
  - destruct Hr as (-> & _ & ->). by rewrite app_nil_r.
Qed.

Lemma run_fresh {L} u p connect q (l : L) tr l' r :
  (∀ tr1 l1 c, run (connect l) tr1 l1 c → puts tr1 = [] ∧ ∀ s, c = Ok s → acquired u s tr1) →
  run (fresh_exchange u p connect q l) tr l' r →
  match r with Ok m => put_back u p q tr m | Err _ => puts tr = [] end.
Proof.
  intros Hc Hr. unfold fresh_exchange in Hr.
  apply run_bind_res in Hr as [(e & -> & Hr)|(t1 & t2 & l1 & s & -> & Hcon & Hr)]; [by eapply Hc|].
  apply Hc in Hcon as [Hp Ha]. specialize (Ha s eq_refl).
  apply run_bind_res in Hr as [(e & -> & Hr)|(t3 & t4 & l2 & m & -> & Hx & Hr)].
  - rewrite puts_app, Hp. by apply (only_waits_puts _ _ _ _ (only_waits_framed s q l1) Hr).
  - pose proof (only_waits_puts _ _ _ _ (only_waits_framed s q l1) Hx) as Hpx.
    apply run_bind in Hr as (t5 & t6 & l3 & [] & -> & [-> ->]%run_pool_put & Hr). destruct Hr as (-> & _ & ->).
    exists s, t1, t3. rewrite app_nil_r. split; [done|]. split; [done|]. split; [by eapply run_framed_ok|done].
Qed.

Lemma run_tcp_connect {L} u dest (l : L) tr l' c :
  run (tcp_connect dest l) tr l' c → puts tr = [] ∧ ∀ s, c = Ok s → acquired u s tr.
Proof.
  unfold tcp_connect. intros [(e & -> & Hr)|(t1 & t2 & l1 & s & -> & H1 & Hr)]%run_bind_res.
  { simpl in Hr. destruct Hr as (x & t & -> & -> & _). done. }
  run_io H1 x. apply run_bind_res in Hr as [(e & -> & Hr)|(t3 & t4 & l2 & [] & -> & H2 & Hr)].
  { simpl in Hr. destruct Hr as (y & t & -> & -> & _). done. }
  run_io H2 y. destruct Hr as (-> & _ & ->). split; [done|]. intros s' [= <-].
  by apply (acquired_tcp u x []).
Qed.

Lemma run_tls_connect {L} u dest sni (l : L) tr l' c :
  run (tls_connect dest sni l) tr l' c → puts tr = [] ∧ ∀ s, c = Ok s → acquired u s tr.
Proof.
  unfold tls_connect. intros [(e & -> & Hr)|(t1 & t2 & l1 & s & -> & H1 & Hr)]%run_bind_res.
  { split; [|done]. by apply (run_tcp_connect u) in Hr as [? _]. }
  apply (run_tcp_connect u) in H1 as [Hp _].
  apply run_bind_res in Hr as [(e & -> & Hr)|(t3 & t4 & l2 & name & -> & Hn & Hr)].
  { destruct Hr as (-> & _ & _). by rewrite app_nil_r. }
  destruct Hn as (-> & _ & _). apply run_bind in Hr as (t5 & t6 & l3 & tls & -> & Ht & Hr).
  simpl in Ht. destruct Ht as (x & t & -> & -> & -> & ->). destruct Hr as (-> & _ & ->).
  split; [by rewrite puts_app, Hp|]. intros s' Hs. destruct x as [c'|e]; [|done]. injection Hs as <-.
  apply acquired_tls.
Qed.
End aligned.

(** C21: a pooled connection always stands between two messages.  In every run of an
    exchange over TCP or TLS, a connection is put into the pool at most once, as
    the last thing done, and only after one whole exchange on it in this run: the
    query was written and flushed, one frame was read to its end, and that frame
    was the answer returned.  Of an exchange that failed nothing is put back. *)
Theorem pooled_between_messages {H : Hickory} {T : TlsLib} {L} (u : Cells) (p : StreamPool) (dest : SocketAddr)
    (sni : string) (q : Message) (l l' : L) (tr : list item) (r : Res Message) :
  run (tcp_exchange_pooled u p dest q l) tr l' r ∨ run (tls_exchange_pooled u p dest sni q l) tr l' r →
  match r with Ok m => ∃ tr1 tr2, tr = tr1 ++ tr2 ∧ puts tr1 = [] ∧ put_back u p q tr2 m | Err _ => puts tr = [] end.
Proof.
  assert (Hgen : ∀ connect : M L (Res nat),
    (∀ l tr1 l1 c, run (connect l) tr1 l1 c → puts tr1 = [] ∧ ∀ s, c = Ok s → acquired u s tr1) →
    run ((let! reused := reused_exchange u p q in
          match reused with Some msg => ret (Ok msg) | None => fresh_exchange u p connect q end) l) tr l' r →
    match r with Ok m => ∃ tr1 tr2, tr = tr1 ++ tr2 ∧ puts tr1 = [] ∧ put_back u p q tr2 m | Err _ => puts tr = [] end).
  { intros connect Hc (t1 & t2 & l1 & [m|] & -> & Hre%run_reused & Hr)%run_bind.
    - destruct Hr as (-> & _ & ->). rewrite app_nil_r. by exists [], t1.
    - apply run_fresh in Hr; [|apply Hc]. destruct r as [m|e]; [by exists t1, t2|]. by rewrite puts_app, Hre, Hr. }
  intros [Hr|Hr]; (eapply Hgen; [|exact Hr]).
  - intros *. apply run_tcp_connect.
  - intros *. apply run_tls_connect.
Qed.

(** ** On the sample messages *)
#[export] Instance DemoTls : TlsLib := {| server_name_try_from s := if decide (s = "") then Err "invalid dns name" else Ok s |}.
Definition d_asked : Message := d_query 7 "a" rt_A.
Definition d_answer : Message := d_response 7 "a" rt_A [d_a "a" 60 1%Z].
Definition d_encoded (m : Message) : list Z := match encode_msg m with Ok w => w | Err _ => [] end.
Definition d_pool : StreamPool := stream_pool_new POOL_CAP (secs 10).
Definition d_dest : SocketAddr := mkSocketAddr (V4 16843009%Z) 853.
Definition d_net_protocol : Protocol := mkProtocol (λ _ _, True) (λ _, True) (λ _ _, True) (λ _, True).

Definition d_upstream_of (spec : UpstreamSpec) : Upstream :=
  mkUpstream spec (KindUdp (normalize_hostport (us_addr spec) 53)) false None false false false.

(** The exchange on connection 3. *)
Definition d_framed_items : list item :=
  [IAwait (ANet (NWriteAll 3 (to_be_bytes (Z.of_nat (length (d_encoded d_asked)))))) (Ok tt);
   IAwait (ANet (NWriteAll 3 (d_encoded d_asked))) (Ok tt); IAwait (ANet (NFlush 3)) (Ok tt);
   IAwait (ANet (NReadExact 3 2)) (Ok (to_be_bytes (Z.of_nat (length (d_encoded d_answer)))));
   IAwait (ANet (NReadExact 3 (Z.to_nat (from_be_bytes (to_be_bytes (Z.of_nat (length (d_encoded d_answer))))))))
     (Ok (d_encoded d_answer))].
Definition d_take_items : list item :=
  [ISync ENow 0%Z; ISync (ENet (NPoolTake ("fwd", 0) d_pool 0%Z)) (Some 3)].

(** A run on that connection, taken from the pool. *)
Definition d_reused_run : list item := d_take_items ++ d_framed_items ++ [put_item ("fwd", 0) d_pool 3].

Lemma d_encoded_ok m : encode_msg m = Ok (d_encoded m).
Proof. reflexivity. Qed.
Lemma d_encoded_decode m : decode_msg (d_encoded m) = Ok m.
Proof. unfold decode_msg. by rewrite (demo_codec m (d_encoded m) eq_refl). Qed.

Lemma d_framed_run :
  run (framed_exchange 3 d_asked tt) d_framed_items tt (Ok d_answer).
Proof.
  apply (framed_run 3 d_asked (d_encoded d_asked) _ (d_encoded d_answer) d_answer d_answer).
  - apply d_encoded_ok.
  - apply Z.leb_le. by vm_compute.
  - split; [apply Z.ltb_lt|apply Z.leb_le]; by vm_compute.
  - apply d_encoded_decode.
  - by vm_compute.
Qed.

Lemma exchange_answers_witness :
  let spec := mkUpstreamSpec "1.1.1.1" None None (secs 10) false None in
  upstream_connect spec = Ok (d_upstream_of spec)
  ∧ wp d_net_protocol (λ _, True) (exchange ("fwd", 0) (d_upstream_of spec) d_asked (secs 5) tt)
      (λ _ r, match r with Ok m => exchanged_with (d_upstream_of spec) d_asked m | Err _ => True end).
Proof.
  intros spec. assert (upstream_connect spec = Ok (d_upstream_of spec)) as E by by vm_compute.
  split; [exact E|]. by apply (exchange_answers d_net_protocol spec).
Defined.

Lemma pooled_between_messages_witness :
  run (tcp_exchange_pooled ("fwd", 0) d_pool d_dest d_asked tt) d_reused_run tt (Ok d_answer)
  ∧ ∃ tr1 tr2, d_reused_run = tr1 ++ tr2 ∧ puts tr1 = [] ∧ put_back ("fwd", 0) d_pool d_asked tr2 d_answer.
Proof.
  assert (Hr : run (tcp_exchange_pooled ("fwd", 0) d_pool d_dest d_asked tt) d_reused_run tt (Ok d_answer)).
  { apply run_bind. exists d_reused_run, [], tt, (Some d_answer). split; [by rewrite app_nil_r|]. split; [|done].
    apply run_bind. exists d_take_items, (d_framed_items ++ [put_item ("fwd", 0) d_pool 3]), tt, (Some 3). split; [done|]. split.
    { by do 2 (eexists _, _; split; [reflexivity|]). }
    apply run_bind. exists d_framed_items, [put_item ("fwd", 0) d_pool 3], tt, (Ok d_answer). split; [done|].
    split; [apply d_framed_run|]. by eexists tt, []. }
  split; [exact Hr|]. exact (pooled_between_messages ("fwd", 0) d_pool d_dest "" d_asked _ _ _ _ (or_introl Hr)).
Defined.
