(* ===== verification/Forward.v ===== *)
(** * [plugin/forward.rs]: asking the upstreams

    The concurrent exchanges are those of [Exchange], in the pending set [racing]
    of [Task], which is [FuturesUnordered]: each round of the loop waits for the
    first to finish and keeps what remains of the others. *)
From S2P Require Import Prelude RustStr RustNet Error Hickory HickoryDemo External PublicIp.
From S2P Require Import DnsUtil Context Upstream Shard Net Task Actions Exchange.

(** @src src/src/plugin/forward.rs 14-20 Forward *)
Record Forward : Type := mkForward {
  fw_tag : string;
  fw_upstreams : list Upstream;
  fw_concurrent : Z;
  fw_timeout : Z;
}.

Section forward.
Context {H : Hickory} {T : TlsLib}.

(** The exchange with the upstream of index [i]; it borrows nothing. *)
Definition forward_exchange (f : Forward) (q : Message) (i : nat) (up : Upstream) : task unit (Res Message) :=
  exchange (fw_tag f, i) up q (fw_timeout f) tt.

(** The path of [exec] for one upstream.
    @src src/src/plugin/forward.rs 76-95 Forward::exec *)
Definition forward_single (f : Forward) (q : Message) : M QueryContext (Res Action) :=
  match fw_upstreams f with
  | [] => λ _, Panic "index out of bounds: the len is 0 but the index is 0"
  | up :: _ =>
      let! (_, r) := (λ ctx, enclose ctx (forward_exchange f q 0 up)) in
      match r with
      | Ok msg =>
          if is_usable_response msg then
            do! count UpstreamOk in
            do! push_trace (fw_tag f) "ok" (up_label up) in
            do! modify (set_response msg) in
            ret (Ok ActContinue)
          else
            do! count UpstreamErr in
            do! push_trace (fw_tag f) "err" "unusable rcode" in
            do! modify (set_response msg) in
            ret (Ok ActContinue)
      | Err e =>
          do! count UpstreamErr in
          do! push_trace (fw_tag f) "err" (error_display e) in
          ret (Ok ActContinue)
      end
  end.

(** The futures of the first [n] upstreams, each with its index.
    @src src/src/plugin/forward.rs 99-105 Forward::exec *)
Definition forward_pending (f : Forward) (q : Message) (n : nat) : list (task unit (nat * Res Message)) :=
  imap (λ i up, task_bind (forward_exchange f q i up) (λ _ r, Ret tt (i, r)) id) (take n (fw_upstreams f)).

(** After the loop: the last unusable reply, if any, is the response.
    @src src/src/plugin/forward.rs 128-136 Forward::exec *)
Definition forward_finish (f : Forward) (last_err : option string) (last_unusable : option Message)
    : M QueryContext (Res Action) :=
  do! (match last_unusable with Some msg => modify (set_response msg) | None => ret tt end) in
  do! push_trace (fw_tag f) "err" (default "all upstreams failed" last_err) in
  ret (Ok ActContinue).

(** [self.upstreams[i].label()], in the rest of a round. *)
Definition with_label (f : Forward) (i : nat) (k : string → M QueryContext (Res Action)) : M QueryContext (Res Action) :=
  match fw_upstreams f !! i with
  | Some up => k (up_label up)
  | None => λ _, Panic "index out of bounds"
  end.

(** The loop over the pending exchanges; returning drops those that remain.
    @src src/src/plugin/forward.rs 107-127 Forward::exec *)
Fixpoint forward_loop (f : Forward) {n : nat}
    : racing (nat * Res Message) n → option string → option Message → M QueryContext (Res Action) :=
  match n return racing (nat * Res Message) n → _ with
  | O => λ _ last_err last_unusable, forward_finish f last_err last_unusable
  | S n => λ pending last_err last_unusable,
      let! ((i, r), rest) := race_next pending in
      match r with
      | Ok msg =>
          if is_usable_response msg then
            do! count UpstreamOk in
            with_label f i (λ label,
            do! push_trace (fw_tag f) "ok" label in
            do! modify (set_response msg) in
            ret (Ok ActContinue))
          else
            do! count UpstreamErr in
            with_label f i (λ label,
            forward_loop f rest (Some (label +:+ " unusable rcode")) (Some msg))
      | Err e =>
          do! count UpstreamErr in
          forward_loop f rest (Some (error_display e)) last_unusable
      end
  end.

(** How many exchanges [exec] starts. *)
Definition fan_out (f : Forward) : Z :=
  Z.max (Z.min (fw_concurrent f) (Z.of_nat (length (fw_upstreams f)))) 1.

(** @src src/src/plugin/forward.rs 72-137 Forward::exec *)
Definition forward_exec (f : Forward) : M QueryContext (Res Action) := λ ctx,
  let q := c_query ctx in
  let n := fan_out f in
  if (n =? 1)%Z then forward_single f q ctx
  else forward_loop f (race (forward_pending f q (Z.to_nat n))) None None ctx.

Context {Y : Yaml} {L : HttpLib}.

(** @src src/src/plugin/forward.rs 23-67 Forward::from_args *)
Definition forward_from_args (tag : string) (args : YValue) : Res Forward :=
  let? list := ok_or (yget_or "upstreams" "upstream" args)
                 (ErrConfig ("forward `" +:+ tag +:+ "` has no upstreams")) in
  let items := match yview list with YSequence s => s | _ => [list] end in
  match items with
  | [] => Err (ErrConfig ("forward `" +:+ tag +:+ "` has empty upstreams"))
  | _ =>
      let? upstreams := result_mapM (λ item,
        let? spec := upstream_spec_from_value item in upstream_connect spec) items in
      let concurrent := Z.max (default 1%Z (yget_as y_as_u64 "concurrent" args)) 1 in
      let timeout_raw := default 5000%Z (yget_as y_as_u64 "timeout" args) in
      let timeout := millis (Z.max timeout_raw 1) in
      Ok (mkForward tag upstreams concurrent timeout)
  end.

(** What [from_args] guarantees: at least one upstream, each one [connect] built. *)
Definition forward_wf (f : Forward) : Prop := fw_upstreams f ≠ [] ∧ Forall upstream_wf (fw_upstreams f).

Lemma forward_from_args_wf tag args f : forward_from_args tag args = Ok f → forward_wf f.
Proof.
  unfold forward_from_args. intros (l & _ & Hf)%result_bind_Ok.
  destruct (match yview l with YSequence s => s | _ => [l] end) as [|x xs]; [done|].
  apply result_bind_Ok in Hf as (ups & Hups & [= <-]). apply result_mapM_Ok in Hups. split; cbn.
  - by inversion Hups.
  - eapply Forall2_Forall_r; [exact Hups|]. apply Forall_true. intros item up (spec & _ & Hup)%result_bind_Ok.
    by eapply upstream_connect_wf.
Qed.
End forward.

(** ** Properties *)
Section forward_wp.
Context {H : Hickory} {HL : HickoryLaws H} {T : TlsLib}.
Context (f : Forward) (Hf : forward_wf f) (q : Message).

(** What the exchange of index [i] gives: an error, or an answer to the query. *)
Definition exchange_gives (x : nat * Res Message) : Prop :=
  ∃ up, fw_upstreams f !! x.1 = Some up
    ∧ match x.2 with Ok m => exchanged_with up q m | Err _ => True end.

Lemma wp_forward_exchange P i up :
  networked P → fw_upstreams f !! i = Some up →
  wp P (λ _, True) (forward_exchange f q i up) (λ _ r, match r with Ok m => exchanged_with up q m | Err _ => True end).
Proof.
  intros Hnet Hi. apply yields_exchange; [done..|]. destruct Hf as [_ Hall]. by eapply Forall_lookup_1.
Qed.

(** The pending exchanges: the first [n], each once. *)
Lemma race_wp_pending P n :
  networked P → n ≤ length (fw_upstreams f) →
  race_wp P fst exchange_gives _ (race (forward_pending f q n)) (seq 0 n).
Proof.
  intros Hnet Hn. apply race_wp_list. apply Forall2_same_length_lookup_2; [unfold forward_pending; rewrite length_imap, length_take, length_seq; lia|].
  intros j t b Hj [-> Hlt]%lookup_seq. unfold forward_pending in Hj. rewrite list_lookup_imap in Hj.
  apply fmap_Some in Hj as (up & Hup & ->). apply lookup_take_Some in Hup as [Hup _].
  apply (wp_task_bind P (λ _, True)); [|done]. eapply wp_mono; [by apply wp_forward_exchange|done|].
  intros l r Hr. split; [|done]. by exists up.
Qed.

(** The message as [set_response] stores it. *)
Definition reply_to (c : QueryContext) (m : Message) : Message :=
  set_message_type mt_Response (set_id (msg_id (c_query c)) m).

(** The response of [c'] is that of [c], or an answer to the query from one of the
    upstreams. *)
Definition answered_by (c c' : QueryContext) : Prop :=
  c_response c' = c_response c
  ∨ ∃ i up m, fw_upstreams f !! i = Some up ∧ exchanged_with up q m ∧ c_response c' = Some (reply_to c m).

Context (P : Protocol) (HP : ambient P).

(** What a [forward] step does to the context [c0]. *)
Definition forward_post (c0 c' : QueryContext) (r : Res Action) : Prop :=
  ctx_step c0 c' ∧ r = Ok ActContinue ∧ answered_by c0 c'.

(** Its ending with a message. *)
Lemma wp_respond ev detail i msg c0 :
  exchange_gives (i, Ok msg) →
  wp P (ctx_step c0) ((do! push_trace (fw_tag f) ev detail in do! modify (set_response msg) in
    ret (Ok ActContinue)) c0) (forward_post c0).
Proof.
  intros (up & Hup & Hm). apply wp_bind, wp_push_trace; [done|]. intros t. apply wp_bind, wp_modify, wp_ret.
  split; [|split; [done|right; by exists i, up, msg]].
  transitivity (with_trace t c0); [apply ctx_step_with_trace|apply ctx_step_set_response].
Qed.

Lemma wp_forward_finish le lu c0 :
  (∀ m, lu = Some m → ∃ i, exchange_gives (i, Ok m)) →
  wp P (ctx_step c0) (forward_finish f le lu c0) (forward_post c0).
Proof.
  intros Hlu. unfold forward_finish. apply wp_bind. destruct lu as [m|].
  - destruct (Hlu m eq_refl) as (i & up & Hup & Hm). apply wp_modify. apply wp_bind, wp_push_trace; [done|].
    intros t. apply wp_ret. split; [|split; [done|right; by exists i, up, m]].
    transitivity (set_response m c0); [apply ctx_step_set_response|apply ctx_step_with_trace].
  - apply wp_ret. apply wp_bind, wp_push_trace; [done|]. intros t. apply wp_ret.
    split; [apply ctx_step_with_trace|]. split; [done|by left].
Qed.

Lemma wp_with_label i k c (I : QueryContext → Prop) Q :
  (∃ r, exchange_gives (i, r)) → (∀ label, wp P I (k label c) Q) → wp P I (with_label f i k c) Q.
Proof. intros (r & up & Hup & _) Hk. unfold with_label. cbn in Hup. rewrite Hup. apply Hk. Qed.

Lemma wp_forward_loop n (pending : racing (nat * Res Message) n) ls le lu c0 :
  race_wp P fst exchange_gives n pending ls → (∀ m, lu = Some m → ∃ i, exchange_gives (i, Ok m)) →
  wp P (ctx_step c0) (forward_loop f pending le lu c0) (forward_post c0).
Proof.
  revert pending ls le lu. induction n as [|n IH]; intros pending ls le lu Hp Hlu; cbn [forward_loop];
    [by apply wp_forward_finish|].
  apply wp_bind. eapply wp_race_next; [exact Hp|reflexivity|]. intros [i r] rest ls' Hx _ Hrest.
  destruct r as [msg|e]; [destruct (is_usable_response msg)|].
  - apply wp_bind, wp_count; [done|]. apply wp_with_label; [by eexists|]. intros label.
    by eapply wp_respond.
  - apply wp_bind, wp_count; [done|]. apply wp_with_label; [by eexists|]. intros label.
    eapply IH; [exact Hrest|]. intros ? [= <-]. by exists i.
  - apply wp_bind, wp_count; [done|]. by eapply IH.
Qed.

Lemma fan_out_bounds : (1 ≤ fan_out f ≤ Z.of_nat (length (fw_upstreams f)))%Z.
Proof. destruct Hf as [Hne _]. unfold fan_out. destruct (fw_upstreams f); [done|simpl; lia]. Qed.
End forward_wp.

Lemma wp_forward_single {H : Hickory} {HL : HickoryLaws H} {T : TlsLib} (P : Protocol) (f : Forward) (q : Message)
    (c0 : QueryContext) :
  ambient P → forward_wf f → wp P (ctx_step c0) (forward_single f q c0) (forward_post f q c0).
Proof.
  intros HP Hf. unfold forward_single. destruct (fw_upstreams f) as [|up ups] eqn:E; [by destruct Hf|].
  assert (Hup : fw_upstreams f !! 0 = Some up) by (by rewrite E).
  apply wp_bind. eapply wp_enclose; [apply (wp_forward_exchange f Hf q P 0 up); [by apply ambient_networked|done]|reflexivity|].
  intros _ [msg|e] Hm.
  - assert (Hx : exchange_gives f q (0, Ok msg)) by (by exists up).
    destruct (is_usable_response msg); (apply wp_bind, wp_count; [done|]); by eapply wp_respond.
  - apply wp_bind, wp_count; [done|]. apply wp_bind, wp_push_trace; [done|]. intros t. apply wp_ret.
    split; [apply ctx_step_with_trace|]. split; [done|by left].
Qed.

Lemma wp_forward_exec {H : Hickory} {HL : HickoryLaws H} {T : TlsLib} (P : Protocol) (f : Forward) (c : QueryContext) :
  ambient P → forward_wf f → wp P (ctx_step c) (forward_exec f c) (forward_post f (c_query c) c).
Proof.
  intros HP Hf. unfold forward_exec. destruct (_ =? 1)%Z; [by apply wp_forward_single|].
  eapply wp_forward_loop; [done| |done]. apply race_wp_pending; [done|by apply ambient_networked|]. pose proof (fan_out_bounds f Hf). lia.
Qed.

Lemma steps_forward_exec {H : Hickory} {HL : HickoryLaws H} {T : TlsLib} (P : Protocol) (f : Forward) :
  ambient P → forward_wf f → steps P (forward_exec f).
Proof.
  intros HP Hf c _. eapply wp_mono; [by apply wp_forward_exec|done|]. by intros c' r [? _].
Qed.

(** ** The choice among the upstreams *)
Section forward_choice.
Context {H : Hickory} {HL : HickoryLaws H} {T : TlsLib}.

Definition usable (r : Res Message) : bool :=
  match r with Ok m => is_usable_response m | Err _ => false end.

(** The last message among some results. *)
Definition last_message (rs : list (Res Message)) : option Message := list.last (omap result_ok rs).

(** The specification of a run that saw the results [rs], in that order, out of
    [n] exchanges, the message kept from before being [lu]. *)
Definition chosen (c : QueryContext) (n : nat) (lu : option Message) (rs : list (Res Message))
    (tr : list item) (c' : QueryContext) : Prop :=
  (∃ m rs0, rs = rs0 ++ [Ok m] ∧ usable (Ok m) = true ∧ Forall (λ r, usable r = false) rs0
     ∧ c_response c' = Some (reply_to c m)
     ∧ counted UpstreamOk tr = 1%Z ∧ counted UpstreamErr tr = Z.of_nat (length rs0))
  ∨ (length rs = n ∧ Forall (λ r, usable r = false) rs
     ∧ c_response c' = match last_message rs with
                       | Some m => Some (reply_to c m)
                       | None => match lu with Some m => Some (reply_to c m) | None => c_response c end
                       end
     ∧ counted UpstreamOk tr = 0%Z ∧ counted UpstreamErr tr = Z.of_nat n).

Lemma last_message_cons r rs lu :
  match last_message (r :: rs) with Some m => Some m | None => lu end
  = match last_message rs with
    | Some m => Some m
    | None => match r with Ok m => Some m | Err _ => lu end
    end.
Proof.
  unfold last_message. destruct r as [m|e]; [|done].
  change (omap result_ok (Ok m :: rs)) with (m :: omap result_ok rs).
  rewrite last_cons. by destruct (list.last (omap result_ok rs)).
Qed.

(** An exchange counts nothing. *)
Definition uncounted : Protocol :=
  mkProtocol (λ _ _, True) (λ e, match e with EMetric _ _ => False | _ => True end) (λ _ _, True) (λ _, True).

Lemma counted_none m tr : Forall (item_event uncounted) tr → counted m tr = 0%Z.
Proof. induction 1 as [|[e r|w r] tr Hi _ IH]; [done| |exact IH]. destruct e; try exact IH. done. Qed.

Lemma item_ok_uncounted P tr : Forall (item_ok P) tr → Forall (item_ok uncounted) tr.
Proof.
  intros Htr. eapply Forall_impl; [exact Htr|]. intros [e r|w r]; [done|]. cbn. clear Htr.
  revert r. induction w; intros r; cbn; try done; destruct r; auto.
Qed.

(** The ending with a message. *)
Lemma run_respond tag ev detail msg (c : QueryContext) tr c' (r : Res Action) :
  run ((do! push_trace tag ev detail in do! modify (set_response msg) in ret (Ok ActContinue)) c) tr c' r →
  r = Ok ActContinue ∧ c_response c' = Some (reply_to c msg) ∧ ∀ m, counted m tr = 0%Z.
Proof.
  intros (t3 & t4 & c2 & u2 & -> & ((t & ->) & Hc)%run_push_trace & Hr)%run_bind.
  apply run_bind in Hr as (t5 & t6 & c3 & u3 & -> & (-> & -> & ->) & (-> & -> & ->)).
  split; [done|]. split; [done|]. intros m. by rewrite !counted_app, Hc.
Qed.

Lemma run_forward_finish f le lu c tr c' r :
  run (forward_finish f le lu c) tr c' r →
  r = Ok ActContinue ∧ (∀ m, counted m tr = 0%Z)
  ∧ c_response c' = match lu with Some m => Some (reply_to c m) | None => c_response c end.
Proof.
  unfold forward_finish. intros (t1 & t2 & c1 & u & -> & H1 & Hr)%run_bind.
  assert (t1 = [] ∧ c_response c1 = match lu with Some m => Some (reply_to c m) | None => c_response c end)
    as [-> Hc1] by (destruct lu; destruct H1 as (-> & -> & _); split; reflexivity).
  apply run_bind in Hr as (t3 & t4 & c2 & u2 & -> & ((t & ->) & Hc)%run_push_trace & (-> & -> & ->)).
  split; [done|]. split; [|done]. intros m. rewrite !counted_app, Hc. done.
Qed.

Lemma run_with_label f i k (c : QueryContext) tr c' r :
  run (with_label f i k c) tr c' r → ∃ label, run (k label c) tr c' r.
Proof. unfold with_label. destruct (fw_upstreams f !! i); [eauto|done]. Qed.

(** A round with an unusable result, then the rest. *)
Lemma chosen_cons c n lu x rs tr1 tr2 c' :
  usable x = false → (∀ m, counted m tr1 = 0%Z) →
  chosen c n (match x with Ok m => Some m | Err _ => lu end) rs tr2 c' →
  chosen c (S n) lu (x :: rs) (tr1 ++ ISync (EMetric UpstreamErr 1) tt :: tr2) c'.
Proof.
  intros Hx H1 Hch. unfold chosen. rewrite !counted_app, !H1. cbn [counted foldr counted1].
  destruct Hch as [(m & rs0 & -> & Hm & Hrs & Hc & Hok & Herr)|(Hn & Hrs & Hc & Hok & Herr)].
  - left. exists m, (x :: rs0). fold (counted UpstreamOk tr2). fold (counted UpstreamErr tr2). rewrite Hok, Herr.
    repeat split; try done; [by constructor|]. simpl. lia.
  - right. fold (counted UpstreamOk tr2). fold (counted UpstreamErr tr2). rewrite Hok, Herr.
    split; [by simpl; rewrite Hn|]. split; [by constructor|]. split; [|split; [done|simpl; lia]].
    rewrite Hc. pose proof (last_message_cons x rs lu) as Hl.
    destruct (last_message (x :: rs)), (last_message rs), x, lu; naive_solver.
Qed.

Lemma run_forward_loop f n (pending : racing (nat * Res Message) n) ls le lu c tr c' r :
  race_wp uncounted fst (λ _, True) n pending ls → Forall (item_ok uncounted) tr →
  run (forward_loop f pending le lu c) tr c' r →
  r = Ok ActContinue ∧ ∃ xs, completes pending tr xs ∧ chosen c n lu xs.*2 tr c'.
Proof.
  revert pending ls le lu tr. induction n as [|n IH]; intros pending ls le lu tr Hp Htr; cbn [forward_loop].
  { intros (-> & Hn & Hc)%run_forward_finish. split; [done|]. exists []. split; [done|]. right. by rewrite !Hn. }
  intros (t1 & t2 & c1 & [[i x] rest] & -> & [-> Hr1]%run_race_next & Hr)%run_bind.
  apply Forall_app in Htr as [Ht1 Ht2]. cbn in Hp.
  destruct (wp_run _ _ _ _ _ _ _ Hp Hr1 Ht1) as [[_ (ls' & _ & Hrest)] Hev]. cbn in Hrest.
  assert (H1 : ∀ m, counted m t1 = 0%Z) by (intros m; by apply counted_none).
  assert (Hgo : ∀ le' tr2, Forall (item_ok uncounted) tr2 → usable x = false →
    run (forward_loop f rest le' (match x with Ok m => Some m | Err _ => lu end) c) tr2 c' r →
    r = Ok ActContinue ∧ ∃ xs, completes pending (t1 ++ ISync (EMetric UpstreamErr 1) tt :: tr2) xs
      ∧ chosen c (S n) lu xs.*2 (t1 ++ ISync (EMetric UpstreamErr 1) tt :: tr2) c').
  { intros le' tr2 Htr2 Hx Hrun. destruct (IH _ _ _ _ _ Hrest Htr2 Hrun) as (-> & xs & Hxs & Hch). split; [done|].
    exists ((i, x) :: xs). split; [|by apply chosen_cons].
    exists t1, [ISync (EMetric UpstreamErr 1) tt], tr2, rest. split; [done|]. split; [done|]. split; [by repeat constructor|done]. }
  destruct x as [msg|e]; [destruct (is_usable_response msg) eqn:Eu|];
    apply run_bind in Hr as (t3 & t4 & c2 & u & -> & [-> ->]%run_count & Hr).
  - apply run_with_label in Hr as (label & (-> & Hc & Hn)%run_respond). split; [done|]. exists [(i, Ok msg)]. split.
    + exists t1, [], ([ISync (EMetric UpstreamOk 1) tt] ++ t4), rest. by repeat split.
    + left. exists msg, []. rewrite !counted_app, !H1, !Hn. by repeat split.
  - apply run_with_label in Hr as (label & Hr). cbn [app] in *. apply Forall_cons in Ht2 as [_ Ht2]. by eapply Hgo.
  - cbn [app] in *. apply Forall_cons in Ht2 as [_ Ht2]. by eapply Hgo.
Qed.

(** The path for one upstream is the loop over one exchange. *)
Lemma run_forward_single f q up ups c tr c' r :
  fw_upstreams f = up :: ups → race_wp uncounted fst (λ _, True) _ (race (forward_pending f q 1)) [0] →
  Forall (item_ok uncounted) tr → run (forward_single f q c) tr c' r →
  r = Ok ActContinue ∧ ∃ xs, completes (race (forward_pending f q 1)) tr xs ∧ chosen c 1 None xs.*2 tr c'.
Proof.
  unfold forward_single, forward_pending. intros ->. cbn [take imap length race race_push].
  intros Hp Htr (t1 & t2 & c1 & [u x] & -> & Hx & Hr)%run_bind.
  unfold enclose in Hx. apply run_task_bind in Hx as (t3 & t4 & [] & x' & -> & Hx & (-> & -> & [= -> ->])).
  rewrite app_nil_r in *.
  assert (Hrun : run (task_bind (task_bind (forward_exchange f q 0 up) (λ _ r, Ret tt (0, r)) id)
            (λ _ a, Ret tt (a, tt)) id) t3 tt ((0, x'), tt)).
  { apply run_task_bind. exists t3, [], tt, (0, x'). split; [by rewrite app_nil_r|]. split; [|done].
    apply run_task_bind. exists t3, [], tt, x'. split; [by rewrite app_nil_r|done]. }
  apply Forall_app in Htr as [Ht1 Ht2]. destruct (wp_run _ _ _ _ _ _ _ Hp Hrun Ht1) as [_ Hev].
  assert (H1 : ∀ m, counted m t3 = 0%Z) by (intros m; by apply counted_none).
  assert (Hc : ∀ tr2, completes (n := 1) (task_bind (task_bind (forward_exchange f q 0 up) (λ _ r, Ret tt (0, r)) id)
            (λ _ a, Ret tt (a, tt)) id) (t3 ++ tr2) [(0, x')]).
  { intros tr2. exists t3, [], tr2, tt. by repeat split. }
  assert (Hch : ∀ tr2 c'', usable x' = false → counted UpstreamOk tr2 = 0%Z → counted UpstreamErr tr2 = 1%Z →
    c_response c'' = match last_message [x'] with Some m => Some (reply_to c m) | None => c_response c end →
    chosen c 1 None [x'] (t3 ++ tr2) c'').
  { intros tr2 c'' Hu Hok Herr Hresp. right. rewrite !counted_app, !H1, Hok, Herr. by repeat split; [constructor|]. }
  destruct x' as [msg|e]; [destruct (is_usable_response msg) eqn:Eu|];
    apply run_bind in Hr as (t5 & t6 & c2 & u' & -> & [-> ->]%run_count & Hr).
  - apply run_respond in Hr as (-> & Hresp & Hn). split; [done|]. exists [(0, Ok msg)]. split; [apply Hc|].
    left. exists msg, []. rewrite !counted_app, !H1, !Hn. by repeat split.
  - apply run_respond in Hr as (-> & Hresp & Hn). split; [done|]. exists [(0, Ok msg)]. split; [apply Hc|].
    apply Hch; [done|by rewrite counted_app, Hn..|done].
  - apply run_bind in Hr as (t7 & t8 & c3 & u3 & -> & ((t & ->) & Hn)%run_push_trace & (-> & -> & ->)).
    split; [done|]. exists [(0, Err e)]. split; [apply Hc|]. apply Hch; [done|by rewrite !counted_app, Hn..|done].
Qed.

Lemma run_forward_exec P f c tr c' r :
  ambient P → forward_wf f → run (forward_exec f c) tr c' r → Forall (item_ok P) tr →
  r = Ok ActContinue ∧ ∃ xs, completes (race (forward_pending f (c_query c) (Z.to_nat (fan_out f)))) tr xs
    ∧ NoDup xs.*1 ∧ Forall (exchange_gives f (c_query c)) xs
    ∧ chosen c (Z.to_nat (fan_out f)) None xs.*2 tr c'.
Proof.
  intros HP Hf Hr Htr. pose proof (fan_out_bounds f Hf) as Hn. pose proof (item_ok_uncounted _ _ Htr) as Htr'.
  assert (Hp : ∀ Q, networked Q → race_wp Q fst (exchange_gives f (c_query c)) _
            (race (forward_pending f (c_query c) (Z.to_nat (fan_out f)))) (seq 0 (Z.to_nat (fan_out f)))).
  { intros Q Hnet. apply race_wp_pending; [done..|lia]. }
  assert (Hlen : length (forward_pending f (c_query c) (Z.to_nat (fan_out f))) = Z.to_nat (fan_out f)).
  { unfold forward_pending. rewrite length_imap, length_take. lia. }
  assert (r = Ok ActContinue ∧ ∃ xs, completes (race (forward_pending f (c_query c) (Z.to_nat (fan_out f)))) tr xs
    ∧ chosen c (Z.to_nat (fan_out f)) None xs.*2 tr c') as (-> & xs & Hxs & Hch).
  { assert (Hu : race_wp uncounted fst (λ _, True) _ (race (forward_pending f (c_query c) (Z.to_nat (fan_out f))))
              (seq 0 (Z.to_nat (fan_out f)))) by (eapply race_wp_mono; [by apply Hp|done]).
    unfold forward_exec in Hr. destruct (Z.eqb_spec (fan_out f) 1) as [E|E].
    - rewrite E in *. destruct (fw_upstreams f) as [|up ups] eqn:Eup; [by destruct Hf|].
      by eapply run_forward_single.
    - eapply run_forward_loop in Hr as (-> & xs & Hxs & Hch); [|exact Hu|done]. rewrite Hlen in Hch.
      split; [done|]. by exists xs. }
  split; [done|]. exists xs. split; [done|].
  destruct (completes_race_wp P fst (exchange_gives f (c_query c)) _ _ _ _ _ Hxs Htr (Hp P (ambient_networked P HP)))
    as [Hall Hsub]. split; [|done].
  apply submseteq_Permutation in Hsub as (k & Hk). pose proof (NoDup_seq 0 (Z.to_nat (fan_out f))) as Hnd.
  rewrite Hk in Hnd. by apply NoDup_app in Hnd as [? _].
Qed.
End forward_choice.

(** C16: a [forward] step starts as many exchanges as configured (at least one, at
    most one per upstream) and always returns, whatever the network does; the
    response it leaves is the one it found, or an answer to the query from one of
    its upstreams.  On every run, with the results in the order in which the
    exchanges ended (each at most once), the response is the first usable one, the
    remaining exchanges being dropped at that point; if none is usable it has
    waited for all of them and the response is the last message received, or what
    it was before when every exchange failed.  Each result is counted once, as
    [upstream_ok] or [upstream_err]. *)
Theorem forward_first_usable {H : Hickory} {HL : HickoryLaws H} {T : TlsLib} (P : Protocol) (f : Forward)
    (c : QueryContext) :
  ambient P → forward_wf f →
  (1 ≤ fan_out f ≤ Z.of_nat (length (fw_upstreams f)))%Z
  ∧ wp P (ctx_step c) (forward_exec f c) (forward_post f (c_query c) c)
  ∧ ∀ tr c' r, run (forward_exec f c) tr c' r → Forall (item_ok P) tr →
      r = Ok ActContinue ∧ ∃ xs, completes (race (forward_pending f (c_query c) (Z.to_nat (fan_out f)))) tr xs
        ∧ NoDup xs.*1 ∧ Forall (exchange_gives f (c_query c)) xs
        ∧ chosen c (Z.to_nat (fan_out f)) None xs.*2 tr c'.
Proof.
  intros HP Hf. split; [by apply fan_out_bounds|]. split; [by apply wp_forward_exec|].
  intros tr c' r Hr Htr. by eapply run_forward_exec.
Qed.

Lemma never_goto_forward_loop {H : Hickory} f n (pending : racing (nat * Res Message) n) le lu :
  never_goto (forward_loop f pending le lu).
Proof.
  revert pending le lu. unfold never_goto. induction n as [|n IH]; intros pending le lu c; cbn [forward_loop].
  - unfold forward_finish. goto_auto.
  - apply returns_bind. intros [[i [msg|e]] rest] c'; [case_match|]; unfold with_label; goto_auto; apply IH.
Qed.

Lemma never_goto_forward_exec {H : Hickory} {T : TlsLib} f : never_goto (forward_exec f).
Proof.
  unfold never_goto, forward_exec, forward_single. intros c. case_match; [|apply never_goto_forward_loop]. goto_auto.
Qed.

#[export] Hint Resolve steps_forward_exec : ferrum.

(** Two upstreams: the address of the first does not parse, the second answers. *)
Definition d_upstream (addr : string) (dial : option string) : Upstream :=
  mkUpstream (mkUpstreamSpec addr dial None (secs 10) false None) (KindUdp (normalize_hostport addr 53))
    false None false false false.
Definition d_forward : Forward :=
  mkForward "fwd" [d_upstream "dns.test" (Some "nowhere"); d_upstream "9.9.9.9" None] 2 (secs 5).
Definition d_protocol : Protocol := mkProtocol (λ _ _, True) (λ _, True) (λ _ _, True) (λ _, True).
Lemma d_protocol_ambient : ambient d_protocol.
Proof. by split. Qed.

Definition d_forward_items : list item :=
  ISync ENow 0%Z :: ISync (ENet (NDestGet ("fwd", 0))) None :: ISync (EMetric UpstreamErr 1) tt
  :: udp_items ("fwd", 1) 0 (secs 5) d_dest 3 (d_encoded d_asked) (d_encoded d_answer)
  ++ [ISync (EMetric UpstreamOk 1) tt].

Lemma d_forward_wf : forward_wf d_forward.
Proof. split; [done|]. by repeat constructor. Qed.

Lemma d_forward_items_ok : Forall (item_ok d_protocol) d_forward_items.
Proof.
  assert (length (d_encoded d_answer) ≤ Z.to_nat 65535) as Hlen.
  { apply Nat2Z.inj_le. rewrite Z2Nat.id by done. apply Z.leb_le. by vm_compute. }
  do 8 (apply Forall_cons; split; [exact I|]). apply Forall_cons. split; [exact Hlen|]. by repeat constructor.
Qed.

Lemma forward_first_usable_witness :
  run (forward_exec d_forward (d_ctx d_asked)) d_forward_items (set_response d_answer (d_ctx d_asked)) (Ok ActContinue)
  ∧ ∃ xs, completes (race (forward_pending d_forward d_asked 2)) d_forward_items xs
      ∧ chosen (d_ctx d_asked) 2 None xs.*2 d_forward_items (set_response d_answer (d_ctx d_asked)).
Proof.
  assert (Hr : run (forward_exec d_forward (d_ctx d_asked)) d_forward_items (set_response d_answer (d_ctx d_asked))
            (Ok ActContinue)).
  { do 3 (eexists _, _; split; [reflexivity|]).
    apply run_bind. eexists _, _, (d_ctx d_asked), ((1, Ok d_answer), tt). split; [reflexivity|]. split.
    - apply run_bind. eexists _, [], (d_ctx d_asked), (tt, ((1, Ok d_answer), tt)). split; [by rewrite app_nil_r|].
      split; [|done]. apply run_task_bind. eexists _, [], tt, _. split; [by rewrite app_nil_r|]. split; [|done].
      apply run_task_bind. eexists _, [], tt, (1, Ok d_answer). split; [by rewrite app_nil_r|]. split; [|done].
      apply run_task_bind. eexists _, [], tt, (Ok d_answer). split; [by rewrite app_nil_r|]. split; [|done].
      apply (run_exchange_udp ("fwd", 1) (d_upstream "9.9.9.9" None) "9.9.9.9:53" d_asked 0 (secs 5) d_dest 3
        (d_encoded d_asked) (d_encoded d_answer) d_answer d_answer);
        [done|apply d_encoded_ok|apply d_encoded_decode|by vm_compute..].
    - by eexists tt, []. }
  split; [exact Hr|].
  destruct (forward_first_usable d_protocol d_forward (d_ctx d_asked) d_protocol_ambient d_forward_wf) as (_ & _ & Hch).
  destruct (Hch _ _ _ Hr) as (_ & xs & Hxs & _ & _ & Hc); [|by exists xs].
  exact d_forward_items_ok.
Defined.
