(* ===== verification/Fallback.v ===== *)
(** * [plugin/fallback.rs]: a primary and a secondary pipeline

    Both run on forks of the context; the context of the one that is chosen is
    absorbed, the other is dropped.  The executables are found through
    [get_exec], the registry lookup, which [Runtime] supplies. *)
From S2P Require Import Prelude RustStr RustNet Error Hickory HickoryDemo External PublicIp.
From S2P Require Import DnsUtil Context Upstream Shard Task Actions.

(** @src src/src/plugin/fallback.rs 11-18 Fallback *)
Record Fallback : Type := mkFallback {
  fb_tag : string;
  fb_primary : string;
  fb_secondary : string;
  fb_threshold : Z;
  fb_always_standby : bool;
}.

(** @src src/src/plugin/fallback.rs 21-49 Fallback::from_args *)
Definition fallback_from_args `{Yaml} (tag : string) (args : YValue) : Res Fallback :=
  let? primary := ok_or (yget_as y_as_str "primary" args) (ErrConfig "fallback needs `primary`") in
  let? secondary := ok_or (yget_as y_as_str "secondary" args) (ErrConfig "fallback needs `secondary`") in
  Ok (mkFallback tag (trim_start_matches "$" primary) (trim_start_matches "$" secondary)
        (millis (default 500%Z (yget_as y_as_u64 "threshold" args)))
        (default false (yget_as y_as_bool "always_standby" args))).

Section fallback.
Context {H : Hickory}.

(** A plugin as the callers see it. *)
Definition Exec : Type := M QueryContext (Res Action).

(** The primary returned in time, without an error, with an answer. *)
Definition primary_ok (r : option (Res Action)) (pctx : QueryContext) : bool :=
  match r with Some (Ok _) => has_wanted_ans pctx | _ => false end.

(** The two endings of [exec]. *)
Definition use_primary (f : Fallback) (pctx : QueryContext) : Exec :=
  do! push_trace (fb_tag f) "primary" "ok" in
  do! modify (absorb pctx) in
  ret (Ok ActContinue).
Definition use_secondary (sctx : QueryContext) (result : Res Action) : Exec :=
  do! modify (absorb sctx) in
  ret (match result with Ok _ => Ok ActContinue | Err e => Err e end).

(** The branch [always_standby]: both run at once.
    @src src/src/plugin/fallback.rs 71-112 BoundFallback::exec *)
Definition fallback_standby (f : Fallback) (primary secondary : Exec) : Exec :=
  let! pctx := fork_ctx in
  let! sctx := fork_ctx in
  let! first := (λ ctx, select ctx (timeout (fb_threshold f) primary pctx) (secondary sctx)) in
  match first with
  | inl (pctx, primary_result, secondary_run) =>
      if primary_ok primary_result pctx then use_primary f pctx
      else
        let! (sctx, result) := (λ ctx, enclose ctx secondary_run) in
        do! push_trace (fb_tag f) "secondary" "used" in
        use_secondary sctx result
  | inr (sctx, result, primary_run) =>
      let! (pctx, primary_result) := (λ ctx, enclose ctx primary_run) in
      if primary_ok primary_result pctx then use_primary f pctx
      else
        do! push_trace (fb_tag f) "secondary" "used" in
        use_secondary sctx result
  end.

(** The other branch: the secondary starts when the primary has not delivered.
    @src src/src/plugin/fallback.rs 114-128 BoundFallback::exec *)
Definition fallback_sequential (f : Fallback) (primary secondary : Exec) : Exec :=
  let! pctx := fork_ctx in
  let! (pctx, primary_result) := (λ ctx, enclose ctx (timeout (fb_threshold f) primary pctx)) in
  if primary_ok primary_result pctx then use_primary f pctx
  else
    do! push_trace (fb_tag f) "secondary" "fallback" in
    let! sctx := fork_ctx in
    let! (sctx, result) := (λ ctx, enclose ctx (secondary sctx)) in
    use_secondary sctx result.

(** @src src/src/plugin/fallback.rs 65-129 BoundFallback::exec *)
Definition fallback_exec (get_exec : string → Res Exec) (f : Fallback) : Exec := λ ctx,
  match get_exec (fb_primary f) with
  | Err e => Ret ctx (Err e)
  | Ok primary =>
      match get_exec (fb_secondary f) with
      | Err e => Ret ctx (Err e)
      | Ok secondary =>
          if fb_always_standby f then fallback_standby f primary secondary ctx
          else fallback_sequential f primary secondary ctx
      end
  end.

(** ** Which pipeline is used *)
Context {HL : HickoryLaws H}.
Context (P : Protocol) (HP : ambient P).

(** The result of a fallback on [c], in terms of what is known of the two
    pipelines: [Q1], [Q2] of their results, [I1] of a primary cut off by the
    threshold. *)
Definition fallback_post (c : QueryContext) (I1 : QueryContext → Prop)
    (Q1 Q2 : QueryContext → Res Action → Prop) (c' : QueryContext) (r : Res Action) : Prop :=
  (∃ w a t, Q1 w (Ok a) ∧ has_wanted_ans w = true ∧ c' = absorb w (with_trace t c) ∧ r = Ok ActContinue)
  ∨ (∃ w r2 t, Q2 w r2 ∧ c' = absorb w (with_trace t c)
       ∧ r = match r2 with Ok _ => Ok ActContinue | Err e => Err e end
       ∧ ((∃ p, I1 p) ∨ ∃ p r1, Q1 p r1 ∧ primary_ok (Some r1) p = false)).

Lemma wp_use_primary (I : QueryContext → Prop) f w c (Q : QueryContext → Res Action → Prop) :
  (∀ t, Q (absorb w (with_trace t c)) (Ok ActContinue)) → wp P I (use_primary f w c) Q.
Proof. intros HQ. apply wp_bind, wp_push_trace; [done|]. intros t. apply HQ. Qed.

Context (f : Fallback) (primary secondary : Exec) (c : QueryContext).
Context (I I1 I2 : QueryContext → Prop) (Q1 Q2 : QueryContext → Res Action → Prop).
Context (H1 : ∀ id now, wp P I1 (primary (fork id now c)) Q1).
Context (H2 : ∀ id now, wp P I2 (secondary (fork id now c)) Q2).
Context (HI : ∀ t, I (with_trace t c)).

(** What is known when the primary's time-limited run has ended. *)
Definition primary_end (p : QueryContext) (r : option (Res Action)) : Prop :=
  match r with Some r => Q1 p r | None => I1 p end.

Lemma wp_primary id now : wp P I1 (timeout (fb_threshold f) primary (fork id now c)) primary_end.
Proof. eapply wp_timeout; [apply HP|by apply wp_timed, H1|done..]. Qed.

Lemma primary_used p r : primary_ok r p = true → primary_end p r →
  ∃ a, Q1 p (Ok a) ∧ has_wanted_ans p = true.
Proof. destruct r as [[a|e]|]; simpl; [eauto|done..]. Qed.

Lemma secondary_used p r : primary_ok r p = false → primary_end p r →
  (∃ p, I1 p) ∨ ∃ p r1, Q1 p r1 ∧ primary_ok (Some r1) p = false.
Proof. destruct r as [r|]; simpl; eauto. Qed.

Lemma wp_end_primary p r t : primary_ok r p = true → primary_end p r →
  wp P I (use_primary f p (with_trace t c)) (fallback_post c I1 Q1 Q2).
Proof.
  intros Hok He. destruct (primary_used p r Hok He) as (a & Ha & Hw).
  apply wp_use_primary. intros t'. left. exists p, a, t'. done.
Qed.

Lemma wp_end_secondary p r s r2 t : primary_ok r p = false → primary_end p r → Q2 s r2 →
  wp P I (use_secondary s r2 (with_trace t c)) (fallback_post c I1 Q1 Q2).
Proof.
  intros Hok He Hs. apply wp_bind, wp_modify, wp_ret. right. exists s, r2, t.
  repeat split; try done. by eapply secondary_used.
Qed.

Lemma wp_fallback_sequential :
  wp P I (fallback_sequential f primary secondary c) (fallback_post c I1 Q1 Q2).
Proof.
  apply wp_bind, wp_fork_ctx; [done|]. intros id now. apply wp_bind.
  eapply wp_enclose; [apply wp_primary|rewrite <- (with_trace_id c); apply HI|].
  intros p r He. cbv beta iota. destruct (primary_ok r p) eqn:Hok.
  - rewrite <- (with_trace_id c) at 1. by eapply wp_end_primary.
  - apply wp_bind, wp_push_trace; [done|]. intros t.
    apply wp_bind, wp_fork_ctx; [done|]. intros id' now'. apply wp_bind.
    eapply wp_enclose; [apply H2|apply HI|]. intros s r2 Hs. by eapply wp_end_secondary.
Qed.

Lemma wp_fallback_standby :
  wp P I (fallback_standby f primary secondary c) (fallback_post c I1 Q1 Q2).
Proof.
  apply wp_bind, wp_fork_ctx; [done|]. intros id now.
  apply wp_bind, wp_fork_ctx; [done|]. intros id' now'. apply wp_bind.
  assert (Hc : I c) by (rewrite <- (with_trace_id c); apply HI).
  eapply wp_select; [apply wp_primary|apply H2|done|].
  intros [[[p r] t2]|[[s r2] t1]] [He Hrest]; cbv beta iota.
  - destruct (primary_ok r p) eqn:Hok.
    + rewrite <- (with_trace_id c) at 1. by eapply wp_end_primary.
    + apply wp_bind. eapply wp_enclose; [apply Hrest|done|]. intros s r2 Hs. cbv beta iota.
      apply wp_bind, wp_push_trace; [done|]. intros t. by eapply wp_end_secondary.
  - apply wp_bind. eapply wp_enclose; [apply Hrest|done|]. intros p r Hp. cbv beta iota.
    destruct (primary_ok r p) eqn:Hok.
    + rewrite <- (with_trace_id c) at 1. by eapply wp_end_primary.
    + apply wp_bind, wp_push_trace; [done|]. intros t. by eapply wp_end_secondary.
Qed.
End fallback.


Section fallback_steps.
Context {H : Hickory} {HL : HickoryLaws H}.
Context (P : Protocol) (HP : ambient P).

Lemma steps_fallback_exec get_exec f :
  (∀ tag m, tag = fb_primary f ∨ tag = fb_secondary f → get_exec tag = Ok m → steps P m) →
  steps P (fallback_exec get_exec f).
Proof.
  intros Hg c Hc. unfold fallback_exec.
  destruct (get_exec (fb_primary f)) as [primary|e] eqn:E1; [|simpl; reflexivity].
  destruct (get_exec (fb_secondary f)) as [secondary|e] eqn:E2; [|simpl; reflexivity].
  set (Q := λ (w : QueryContext) (_ : Res Action), ctx_step c w).
  assert (Hrun : ∀ m, steps P m → ∀ id now, wp P (ctx_step c) (m (fork id now c)) Q).
  { intros m Hm id now. apply (steps_from P HP); [|apply ctx_step_fork|done]. done. }
  assert (Hpost : ∀ c' r, fallback_post c (ctx_step c) Q Q c' r → ctx_step c c').
  { intros c' r Hpost.
    assert (∃ w t, ctx_step c w ∧ c' = absorb w (with_trace t c)) as (w & t & [Hs Ha Hk] & ->).
    { destruct Hpost as [(w & a & t & ? & _ & -> & _)|(w & r2 & t & ? & -> & _)]; eauto. }
    transitivity (with_trace t c); [apply ctx_step_with_trace|].
    by apply ctx_step_absorb; [rewrite (sr_original _ _ Hs)|..]. }
  destruct (fb_always_standby f).
  - eapply wp_mono; [|done|exact Hpost].
    apply (wp_fallback_standby P HP f primary secondary c (ctx_step c) (ctx_step c) (ctx_step c) Q Q);
      [apply Hrun, (Hg (fb_primary f)); auto|apply Hrun, (Hg (fb_secondary f)); auto|].
    intros t. apply ctx_step_with_trace.
  - eapply wp_mono; [|done|exact Hpost].
    apply (wp_fallback_sequential P HP f primary secondary c (ctx_step c) (ctx_step c) (ctx_step c) Q Q);
      [apply Hrun, (Hg (fb_primary f)); auto|apply Hrun, (Hg (fb_secondary f)); auto|].
    intros t. apply ctx_step_with_trace.
Qed.

Lemma never_goto_use_secondary s (r : Res Action) : never_goto (use_secondary s r).
Proof. unfold never_goto, use_secondary. goto_auto. Qed.

Lemma never_goto_fallback_exec get_exec f : never_goto (fallback_exec get_exec f).
Proof.
  unfold never_goto, fallback_exec, fallback_standby, fallback_sequential, use_primary. goto_auto;
    apply never_goto_use_secondary.
Qed.
End fallback_steps.

