(* ===== verification/Sequence.v ===== *)
(** * [plugin/sequence.rs]: the sequence interpreter

    A sequence is a list of steps, each guarded by matchers.  [run] walks it,
    remembers a snapshot for every cache step it executes, and writes to those
    caches when it leaves.  The registry is seen through [Lookups]. *)
From S2P Require Import Prelude RustStr RustNet Error Hickory HickoryDemo External PublicIp.
From S2P Require Import DnsUtil Context Upstream Shard Task Actions Config DomainSet Matcher.
From S2P Require Import Cache Fallback.

(** @src src/src/plugin/sequence.rs 28-32 RawStep *)
Record RawStep : Type := mkRawStep { rs_matches : list string; rs_exec : string }.

Section parsing.
Context {Y : Yaml}.

(** @src src/src/plugin/sequence.rs 35-70 RawStep::from_value *)
Definition raw_step_from_value (item : YValue) : Res RawStep :=
  match yview item with
  | YString s => Ok (mkRawStep [] s)
  | YMapping m =>
      let? exec := ok_or (v ← y_mapping_get "exec" m; y_as_str v)
                     (ErrConfig "sequence step missing exec") in
      let? matches :=
        match y_mapping_get "matches" m with
        | None => Ok []
        | Some v =>
            match yview v with
            | YString s => Ok [s]
            | YSequence seq =>
                result_mapM (λ v, ok_or (y_as_str v)
                  (ErrConfig "sequence `matches` entries must be strings")) seq
            | _ => Err (ErrConfig "sequence `matches` must be a string or a list of strings")
            end
        end in
      Ok (mkRawStep matches exec)
  | _ => Err (ErrConfig "invalid sequence step")
  end.

(** @src src/src/plugin/sequence.rs 73-79 parse_steps *)
Definition parse_steps (args : YValue) : Res (list RawStep) :=
  let seq := match yview args with YSequence s => s | _ => [args] end in
  result_mapM raw_step_from_value seq.
End parsing.

Section sequence.
Context {H : Hickory} {N : IpNetLib} {Rx : RegexLib}.

(** @src src/src/plugin/sequence.rs 23-26 Exec *)
Inductive StepExec : Type := StepPlugin (tag : string) | StepBuiltin (b : Builtin).

(** @src src/src/plugin/sequence.rs 18-21 Step *)
Record Step : Type := mkStep { st_matchers : list Matcher; st_exec : StepExec }.

(** @src src/src/plugin/sequence.rs 13-16 Sequence *)
Record Sequence : Type := mkSequence { sq_tag : string; sq_steps : list Step }.

(** @src src/src/plugin/sequence.rs 81-87 parse_exec *)
Definition parse_exec (s : string) : Res StepExec :=
  let s := trim s in
  match strip_prefix "$" s with
  | Some tag => Ok (StepPlugin tag)
  | None => let? b := builtin_parse s in Ok (StepBuiltin b)
  end.

(** The loop that strips [!]; each round shortens the text, so its length bounds
    the rounds. *)
Fixpoint strip_bangs (fuel : nat) (negate : bool) (expr : string) : bool * string :=
  match strip_prefix "!" expr, fuel with
  | Some rest, S fuel => strip_bangs fuel (negb negate) (trim_start rest)
  | _, _ => (negate, expr)
  end.

(** The sets a matcher may name. *)
Record Sets : Type := mkSets {
  set_domains : gmap string DomainSet;
  set_ips : gmap string IpSet;
}.

Definition find_set {A} (sets : gmap string A) (tag : string) : Res A :=
  ok_or (sets !! tag) (ErrUnknownTag tag).

(** A matcher without its [!].
    @src src/src/plugin/sequence.rs 96-153 bind_matcher *)
Definition bind_positive (expr : string) (reg : Sets) : Res Matcher :=
  let parts := split_whitespace expr in
  let head := default "" (parts !! 0%nat) in
  let args := tail parts in
  let next := args !! 0%nat in
  let set_tag what := (let? t := ok_or next (ErrConfig what) in Ok (trim_start_matches "$" t)) in
  if decide (head = "has_resp") then Ok MHasResp
  else if decide (head = "has_wanted_ans") then Ok MHasWantedAns
  else if decide (head = "qname") then
    let? tag := set_tag "qname matcher needs a domain_set tag" in
    let? set := find_set (set_domains reg) tag in
    Ok (MQname set)
  else if decide (head = "qtype") then Ok (MQtype (omap qtype_from_str args))
  else if decide (head = "client_ip") then
    let? tag := set_tag "client_ip matcher needs an ip_set tag" in
    let? set := find_set (set_ips reg) tag in
    Ok (MClientIp set)
  else if decide (head = "resp_ip") then
    let? tag := set_tag "resp_ip matcher needs an ip_set tag" in
    let? set := find_set (set_ips reg) tag in
    Ok (MRespIp set)
  else if decide (head = "rcode") then
    Ok (MRcode (rcode_to_u16 (rcode_from_str (default "NOERROR" next))))
  else if decide (head = "mark") then
    Ok (MMark (default 0%Z (parse_uint u32_max (default "0" next))))
  else if decide (head = "ecs" ∨ head = "has_ecs") then Ok MHasEcs
  else Err (ErrConfig ("unknown matcher `" +:+ head +:+ "`")).

(** @src src/src/plugin/sequence.rs 89-159 bind_matcher *)
Definition bind_matcher (expr : string) (reg : Sets) : Res Matcher :=
  let expr := trim expr in
  let '(negate, expr) := strip_bangs (String.length expr) false expr in
  let? matcher := bind_positive expr reg in
  Ok (if negate then MNeg matcher else matcher).

(** @src src/src/plugin/sequence.rs 161-176 compile_steps *)
Definition compile_steps (tag : string) (raw : list RawStep) (reg : Sets) : Res Sequence :=
  let? steps := result_mapM (λ r,
    let? matchers := result_mapM (λ s, bind_matcher s reg) (rs_matches r) in
    let? exec := parse_exec (rs_exec r) in
    Ok (mkStep matchers exec)) raw in
  Ok (mkSequence tag steps).

(** ** Running *)

(** What [run] asks of the registry: [get_exec] and the map of caches. *)
Record Lookups : Type := mkLookups {
  lk_exec : string → Res Exec;
  lk_cache : string → option Cache;
}.

(** [cache_writes]: the caches to write to, with the snapshot of each. *)
Definition Writes : Type := list (Cache * CacheLookup).

(** The writes after executing the plugin [tag]: one more if it is a cache that
    can key the query. *)
Definition add_write (reg : Lookups) (tag : string) (writes : Writes) (ctx : QueryContext) : Writes :=
  match lk_cache reg tag with
  | Some cache =>
      match cache_snapshot cache ctx with
      | Some lookup => writes ++ [(cache, lookup)]
      | None => writes
      end
  | None => writes
  end.

(** @src src/src/plugin/sequence.rs 231-235 store *)
Definition sequence_store (writes : Writes) : M QueryContext unit := λ ctx,
  foldr (λ '(cache, lookup) m, do! store_lookup cache ctx lookup in m) (ret tt) writes ctx.

(** The execution of one step whose matchers hold: its action, and the writes.
    @src src/src/plugin/sequence.rs 188-203 run *)
Definition run_step (reg : Lookups) (tag : string) (exec : StepExec) (writes : Writes)
    : M QueryContext (Res (Action * Writes)) :=
  match exec with
  | StepPlugin t =>
      match lk_exec reg t with
      | Err e => ret (Err e)
      | Ok p =>
          let! ctx := get in
          let writes := add_write reg t writes ctx in
          do! push_trace tag "exec" t in
          let!? a := p in
          ret (Ok (a, writes))
      end
  | StepBuiltin b =>
      do! push_trace tag "builtin" (builtin_label b) in
      let!? a := builtin_apply b in
      ret (Ok (a, writes))
  end.

(** The loop of [run] over the steps that are left.
    @src src/src/plugin/sequence.rs 179-229 run *)
Fixpoint run_steps (reg : Lookups) (tag : string) (steps : list Step) (writes : Writes) : Exec :=
  match steps with
  | [] => do! sequence_store writes in ret (Ok ActContinue)
  | s :: rest => λ ctx,
      if negb (forallb (λ m, matches m ctx) (st_matchers s)) then run_steps reg tag rest writes ctx
      else
        (let!? (action, writes) := run_step reg tag (st_exec s) writes in
         match action with
         | ActContinue => run_steps reg tag rest writes
         | ActAccept => do! sequence_store writes in ret (Ok ActAccept)
         | ActReturn => do! sequence_store writes in ret (Ok ActContinue)
         | ActGoto t =>
             match lk_exec reg t with
             | Err e => ret (Err e)
             | Ok p =>
                 let! ctx := get in
                 let writes := add_write reg t writes ctx in
                 let!? a := p in
                 do! sequence_store writes in
                 ret (Ok a)
             end
         end) ctx
  end.

(** @src src/src/plugin/sequence.rs 179-229 run *)
Definition sequence_run (reg : Lookups) (s : Sequence) : Exec := run_steps reg (sq_tag s) (sq_steps s) [].
End sequence.

(** ** A sequence keeps to the request *)

(** The tags a step may call. *)
Definition step_calls `{Hickory} (e : StepExec) : list string :=
  match e with StepPlugin t | StepBuiltin (BGoto t) => [t] | StepBuiltin _ => [] end.
Definition sequence_calls `{Hickory} {N : IpNetLib} {Rx : RegexLib} (s : Sequence) : list string :=
  s ← sq_steps s; step_calls (st_exec s).

Section sequence_goto.
Context {H : Hickory} {N : IpNetLib} {Rx : RegexLib}.
Context (reg : Lookups) (Hgoto : ∀ t p, lk_exec reg t = Ok p → never_goto p).

Lemma never_goto_run_steps tag sts writes : never_goto (run_steps reg tag sts writes).
Proof.
  unfold never_goto. revert writes. induction sts as [|s sts IH]; intros writes c; cbn [run_steps]; [goto_auto|].
  destruct (negb _); [apply IH|]. apply returns_bind_res; [|done]. intros [[] w] c'; [apply IH|goto_auto..|].
  destruct (lk_exec reg tag0) as [p|e] eqn:Ep; [|done]. apply returns_bind. intros c1 c2.
  apply returns_task_bind_strong with no_goto; [by eapply Hgoto|].
  intros c3 [a|e] Ha; [|done]. by apply returns_bind.
Qed.

Lemma never_goto_sequence_run s : never_goto (sequence_run reg s).
Proof. apply never_goto_run_steps. Qed.

(** The [Goto] of a step is its own. *)
Lemma goto_of_step tag exec writes c :
  returns (λ r : Res (Action * Writes), ∀ t w, r = Ok (ActGoto t, w) → t ∈ step_calls exec)
    (run_step reg tag exec writes c).
Proof.
  unfold run_step. destruct exec as [t|b].
  - destruct (lk_exec reg t) as [p|e] eqn:Ep; [|done].
    apply returns_bind. intros c1 c2. apply returns_bind. intros [] c3.
    apply returns_task_bind_strong with no_goto; [by eapply Hgoto|].
    intros c4 [a|e] Ha; [|done]. intros t1 w [= -> _]. by destruct (Ha t1).
  - apply returns_bind. intros [] c1. apply returns_task_bind_strong with
      (λ r, ∀ t, r = Ok (ActGoto t) → t ∈ step_calls (StepBuiltin b)).
    + destruct b; simpl; repeat case_match; simpl; try done; set_solver.
    + intros c2 [a|e] Ha; [|done]. intros t1 w [= -> _]. by apply Ha.
Qed.
End sequence_goto.

Section sequence_steps.
Context {H : Hickory} {HL : HickoryLaws H} {N : IpNetLib} {Rx : RegexLib}.
Context (P : Protocol) (HP : ambient P).
Context (reg : Lookups) (calls : list string).
Context (Hexec : ∀ t p, t ∈ calls → lk_exec reg t = Ok p → steps P p).
Context (Hgoto : ∀ t p, lk_exec reg t = Ok p → never_goto p).
Context (Hcache : ∀ t c, lk_cache reg t = Some c → cache_allowed P c).

(** Every pending write goes to an allowed cache, with a snapshot it took. *)
Definition writes_ok (writes : Writes) : Prop :=
  Forall (λ '(c, l), cache_allowed P c ∧ lookup_of c l) writes.

Lemma add_write_ok t writes ctx : writes_ok writes → writes_ok (add_write reg t writes ctx).
Proof.
  intros Hw. unfold add_write. destruct (lk_cache reg t) as [c|] eqn:Ec; [|done].
  destruct (cache_snapshot c ctx) as [l|] eqn:El; [|done].
  apply Forall_app. split; [done|]. constructor; [|constructor].
  split; [by eapply Hcache|by eapply cache_snapshot_of].
Qed.

Lemma wp_sequence_store (I : QueryContext → Prop) writes c (Q : QueryContext → unit → Prop) :
  writes_ok writes → Q c tt → wp P I (sequence_store writes c) Q.
Proof.
  unfold sequence_store. intros Hw HQ. generalize c at 1. intros ctx.
  induction Hw as [|[cache lookup] writes [Hc Hl] _ IH]; simpl; [exact HQ|].
  apply wp_bind, wp_store_lookup; [done|done|done|]. exact IH.
Qed.

Lemma steps_store_then writes (r : Res Action) :
  writes_ok writes → steps P (do! sequence_store writes in ret r).
Proof. intros Hw c _. apply wp_bind, wp_sequence_store; [done|]. apply wp_ret. reflexivity. Qed.

(** The action of a step, with writes that are still in order. *)
Lemma wp_run_step tag exec writes c :
  step_calls exec ⊆ calls → writes_ok writes → p_ctx P c →
  wp P (ctx_step c) (run_step reg tag exec writes c)
    (λ c' r, (ctx_step c c' ∧ match r with Ok (_, w) => writes_ok w | Err _ => True end)
             ∧ ∀ t w, r = Ok (ActGoto t, w) → t ∈ step_calls exec).
Proof.
  intros Hsub Hw Hc. apply wp_returns; [|by apply goto_of_step].
  assert (Hgo : ∀ (p : Exec) w ev d, steps P p → writes_ok w →
    wp P (ctx_step c) ((do! push_trace tag ev d in let!? a := p in ret (Ok (a, w))) c)
      (λ c' r, ctx_step c c' ∧ match r with Ok (_, w) => writes_ok w | Err _ => True end)).
  { intros p w ev d Hp Hw'. apply wp_bind, wp_push_trace; [done|]. intros t. apply wp_bind_res.
    eapply wp_mono; [apply (steps_from P HP p (with_trace t c) c); [done|apply ctx_step_with_trace|done]|done|].
    intros c' [a|e] Hs; [|done]. by apply wp_ret. }
  unfold run_step. destruct exec as [t|b].
  - destruct (lk_exec reg t) as [p|e] eqn:Ep; [|by apply wp_ret].
    apply wp_bind, wp_get. apply Hgo; [eapply Hexec; [|done]; set_solver|by apply add_write_ok].
  - apply Hgo; [by apply steps_builtin_apply|done].
Qed.

Lemma steps_run_steps tag sts writes :
  Forall (λ s, step_calls (st_exec s) ⊆ calls) sts → writes_ok writes →
  steps P (run_steps reg tag sts writes).
Proof.
  intros Hsub. revert writes. induction Hsub as [|s sts Hs Hsub IH]; intros writes Hw; [by apply steps_store_then|].
  intros c Hc. cbn [run_steps]. destruct (negb _); [by apply IH|].
  apply wp_bind_res. eapply wp_mono; [by apply wp_run_step|done|].
  intros c' [[a w]|e] [[Hs' Hw'] Hg]; [|done]. destruct a as [| | |t].
  - apply (steps_from P HP); [by apply IH|done|done].
  - apply (steps_from P HP); [by apply steps_store_then|done|done].
  - apply (steps_from P HP); [by apply steps_store_then|done|done].
  - destruct (lk_exec reg t) as [p|e] eqn:Ep; [|done]. apply wp_bind, wp_get, wp_bind_res.
    eapply wp_mono; [apply (steps_from P HP p c' c);
      [eapply Hexec; [|done]; by eapply Hs, Hg|done|done]|done|].
    intros c2 [a|e] Hs2; [|done]. apply wp_bind, wp_sequence_store; [by apply add_write_ok|].
    by apply wp_ret.
Qed.

Lemma steps_sequence_run s : sequence_calls s ⊆ calls → steps P (sequence_run reg s).
Proof.
  intros Hsub. apply steps_run_steps; [|constructor]. apply Forall_forall. intros x Hx t Ht.
  apply Hsub, list_elem_of_bind. eauto.
Qed.
End sequence_steps.

(** ** What a sequence does *)
Section walks.
Context {H : Hickory} {N : IpNetLib} {Rx : RegexLib}.
Context (reg : Lookups) (tag : string).

(** A step whose guards hold, without its cache write. *)
Definition step_task (exec : StepExec) : Exec :=
  match exec with
  | StepPlugin t => match lk_exec reg t with Err e => ret (Err e) | Ok p => do! push_trace tag "exec" t in p end
  | StepBuiltin b => do! push_trace tag "builtin" (builtin_label b) in builtin_apply b
  end.

(** The executables a sequence called, each with the context it was called on. *)
Notation Visits := (list (string * QueryContext)) (only parsing).
Definition visits (exec : StepExec) (c : QueryContext) : Visits :=
  match exec with StepPlugin t => [(t, c)] | StepBuiltin _ => [] end.

(** The snapshots of the caches among them, taken before the calls. *)
Definition writes_of (vs : Visits) : Writes :=
  omap (λ '(t, c), cache ← lk_cache reg t; lookup ← cache_snapshot cache c; Some (cache, lookup)) vs.

(** [walk sts c tr vs c' r]: from context [c] the steps [sts] are walked with trace
    [tr] and visits [vs], to context [c'] with result [r].  A step is taken when all
    its guards hold of the context as the steps before it left it; the first step
    that does not continue ends the walk, an error too. *)
Inductive walk : list Step → QueryContext → list item → Visits → QueryContext → Res Action → Prop :=
| walk_end c : walk [] c [] [] c (Ok ActContinue)
| walk_skip s sts c tr vs c' r :
    forallb (λ m, matches m c) (st_matchers s) = false → walk sts c tr vs c' r → walk (s :: sts) c tr vs c' r
| walk_continue s sts c tr1 c1 tr2 vs c' r :
    forallb (λ m, matches m c) (st_matchers s) = true → run (step_task (st_exec s) c) tr1 c1 (Ok ActContinue) →
    walk sts c1 tr2 vs c' r → walk (s :: sts) c (tr1 ++ tr2) (visits (st_exec s) c ++ vs) c' r
| walk_accept s sts c tr c' :
    forallb (λ m, matches m c) (st_matchers s) = true → run (step_task (st_exec s) c) tr c' (Ok ActAccept) →
    walk (s :: sts) c tr (visits (st_exec s) c) c' (Ok ActAccept)
| walk_return s sts c tr c' :
    forallb (λ m, matches m c) (st_matchers s) = true → run (step_task (st_exec s) c) tr c' (Ok ActReturn) →
    walk (s :: sts) c tr (visits (st_exec s) c) c' (Ok ActContinue)
| walk_goto s sts c tr1 c1 t p tr2 c' r :
    forallb (λ m, matches m c) (st_matchers s) = true → run (step_task (st_exec s) c) tr1 c1 (Ok (ActGoto t)) →
    lk_exec reg t = Ok p → run (p c1) tr2 c' r →
    walk (s :: sts) c (tr1 ++ tr2) (visits (st_exec s) c ++ [(t, c1)]) c' r
| walk_goto_unknown s sts c tr c' t e :
    forallb (λ m, matches m c) (st_matchers s) = true → run (step_task (st_exec s) c) tr c' (Ok (ActGoto t)) →
    lk_exec reg t = Err e → walk (s :: sts) c tr (visits (st_exec s) c) c' (Err e)
| walk_error s sts c tr c' e :
    forallb (λ m, matches m c) (st_matchers s) = true → run (step_task (st_exec s) c) tr c' (Err e) →
    walk (s :: sts) c tr (visits (st_exec s) c) c' (Err e).

Lemma add_write_of t writes c : add_write reg t writes c = writes ++ writes_of [(t, c)].
Proof.
  unfold add_write, writes_of. cbn. destruct (lk_cache reg t) as [cache|]; cbn; [|by rewrite app_nil_r].
  destruct (cache_snapshot cache c); cbn; [done|by rewrite app_nil_r].
Qed.

Lemma writes_of_app vs1 vs2 : writes_of (vs1 ++ vs2) = writes_of vs1 ++ writes_of vs2.
Proof. apply omap_app. Qed.

(** Writing to the caches leaves the context alone. *)
Lemma run_store_lookup {L} cache ctx lookup (l : L) tr l' u : run (store_lookup cache ctx lookup l) tr l' u → l' = l.
Proof.
  unfold store_lookup, cache_store. intros Hs. repeat case_match; cbn in Hs; try (by destruct Hs as (_ & -> & _)).
  all: destruct Hs as (now & tr' & -> & Hs); repeat case_match; cbn in Hs; [|done].
  all: by destruct Hs as (r & tr3 & -> & _ & -> & _).
Qed.

Lemma run_sequence_store writes c tr c' u : run (sequence_store writes c) tr c' u → c' = c.
Proof.
  unfold sequence_store. generalize c at 1. intros ctx. revert c tr.
  induction writes as [|[cache lookup] writes IH]; intros c tr; cbn [foldr]; [by intros (_ & -> & _)|].
  intros (tr1 & tr2 & c1 & [] & -> & Hs%run_store_lookup & Hr)%run_bind. subst c1. by eapply IH.
Qed.

(** A step is its task and its cache write. *)
Lemma run_step_iff exec writes c tr c' r :
  run (run_step reg tag exec writes c) tr c' r ↔
  ∃ x, run (step_task exec c) tr c' x
    ∧ r = match x with Ok a => Ok (a, writes ++ writes_of (visits exec c)) | Err e => Err e end.
Proof.
  assert (Hafter : ∀ (p : Exec) ev d w, run ((do! push_trace tag ev d in let!? a := p in ret (Ok (a, w))) c) tr c' r ↔
    ∃ x, run ((do! push_trace tag ev d in p) c) tr c' x ∧ r = match x with Ok a => Ok (a, w) | Err e => Err e end).
  { intros p ev d w. setoid_rewrite run_bind. setoid_rewrite run_bind_res_iff. split.
    - intros (tr1 & tr2 & c1 & u & -> & Hp & (tr3 & tr4 & c2 & x & -> & Hx & Hr)). exists x.
      destruct x as [a|e]; [destruct Hr as (-> & -> & ->)|destruct Hr as (-> & -> & ->)]; rewrite app_nil_r; eauto 10.
    - intros (x & (tr1 & tr2 & c1 & u & -> & Hp & Hx) & ->). exists tr1, tr2, c1, u. split; [done|]. split; [done|].
      exists tr2, [], c', x. rewrite app_nil_r. split; [done|]. split; [done|]. by destruct x. }
  unfold run_step, step_task, visits. destruct exec as [t|b].
  - destruct (lk_exec reg t) as [p|e]; [|by split; [intros (-> & -> & ->); exists (Err e)|intros (x & (-> & -> & ->) & ->)]].
    change (run ((let! ctx := get in _) c) tr c' r) with
      (run ((do! push_trace tag "exec" t in let!? a := p in ret (Ok (a, add_write reg t writes c))) c) tr c' r).
    by rewrite Hafter, add_write_of.
  - rewrite Hafter. cbn. by rewrite app_nil_r.
Qed.

(** What the walk returns decides whether the caches are written to. *)
Definition leaves (writes : Writes) (tr : list item) (c : QueryContext) (r : Res Action) : Prop :=
  match r with Ok _ => run (sequence_store writes c) tr c tt | Err _ => tr = [] end.

Lemma run_store_then writes c tr c' r (x : Res Action) : is_ok x = true →
  run ((do! sequence_store writes in ret x) c) tr c' r ↔ c' = c ∧ r = x ∧ leaves writes tr c r.
Proof.
  intros Hx. rewrite run_bind. split.
  - intros (tr1 & tr2 & c1 & [] & -> & Hs & -> & -> & ->). pose proof (run_sequence_store _ _ _ _ _ Hs) as ->.
    rewrite app_nil_r. split; [done|]. split; [done|]. unfold leaves. by destruct x.
  - intros (-> & -> & Hl). exists tr, [], c, tt. rewrite app_nil_r. split; [done|]. unfold leaves in Hl. by destruct x.
Qed.

Lemma run_goto_iff (p : Exec) t writes c tr c' r :
  run ((let! ctx := get in
        let writes := add_write reg t writes ctx in
        let!? a := p in do! sequence_store writes in ret (Ok a)) c) tr c' r ↔
  ∃ tr1 tr2, tr = tr1 ++ tr2 ∧ run (p c) tr1 c' r ∧ leaves (writes ++ writes_of [(t, c)]) tr2 c' r.
Proof.
  rewrite <- add_write_of. change (run ((let! ctx := get in _) c) tr c' r) with
    (run ((let!? a := p in do! sequence_store (add_write reg t writes c) in ret (Ok a)) c) tr c' r).
  rewrite run_bind_res_iff. split.
  - intros (tr1 & tr2 & c1 & [a|e] & -> & Hp & Hr).
    + apply run_store_then in Hr as (-> & -> & Hl); [|done]. by exists tr1, tr2.
    + destruct Hr as (-> & -> & ->). by exists tr1, [].
  - intros (tr1 & tr2 & -> & Hp & Hl). exists tr1, tr2, c', r. split; [done|]. split; [done|].
    destruct r as [a|e]; [by apply run_store_then|done].
Qed.

Lemma run_steps_walks sts writes c tr c' r :
  run (run_steps reg tag sts writes c) tr c' r ↔
  ∃ tr1 tr2 vs, tr = tr1 ++ tr2 ∧ walk sts c tr1 vs c' r ∧ leaves (writes ++ writes_of vs) tr2 c' r.
Proof.
  revert writes c tr. induction sts as [|s sts IH]; intros writes c tr; cbn [run_steps].
  { rewrite run_store_then by done. split.
    - intros (-> & -> & Hl). exists [], tr, []. split; [done|]. split; [constructor|]. cbn. by rewrite app_nil_r.
    - intros (tr1 & tr2 & vs & -> & Hw & Hl). inversion Hw; subst. cbn in *. by rewrite app_nil_r in Hl. }
  destruct (forallb (λ m, matches m c) (st_matchers s)) eqn:Eg; cbn [negb].
  2: { rewrite IH. split; intros (tr1 & tr2 & vs & -> & Hw & Hl); exists tr1, tr2, vs; (split; [done|]; split; [|done]).
       - by apply walk_skip.
       - by inversion Hw; subst; [|congruence..]. }
  rewrite run_bind_res_iff. split.
  - intros (tr1 & tr2 & c1 & x & -> & (y & Hy & ->)%run_step_iff & Hr).
    destruct y as [a|e]; [|destruct Hr as (-> & -> & ->); exists tr1, [], (visits (st_exec s) c); by repeat constructor].
    destruct a as [| | |t].
    + apply IH in Hr as (tr3 & tr4 & vs & -> & Hw & Hl). exists (tr1 ++ tr3), tr4, (visits (st_exec s) c ++ vs).
      split; [by rewrite app_assoc|]. split; [by eapply walk_continue|]. by rewrite writes_of_app, app_assoc.
    + apply run_store_then in Hr as (-> & -> & Hl); [|done]. exists tr1, tr2, (visits (st_exec s) c).
      split; [done|]. split; [by apply walk_accept|done].
    + apply run_store_then in Hr as (-> & -> & Hl); [|done]. exists tr1, tr2, (visits (st_exec s) c).
      split; [done|]. split; [by apply walk_return|done].
    + destruct (lk_exec reg t) as [p|e] eqn:Ep.
      2: { destruct Hr as (-> & -> & ->). exists tr1, [], (visits (st_exec s) c). split; [done|]. split; [by eapply walk_goto_unknown|done]. }
      apply run_goto_iff in Hr as (tr3 & tr4 & -> & Hp & Hl). exists (tr1 ++ tr3), tr4, (visits (st_exec s) c ++ [(t, c1)]).
      split; [by rewrite app_assoc|]. split; [by eapply walk_goto|]. by rewrite writes_of_app, app_assoc.
  - intros (tr1 & tr2 & vs & -> & Hw & Hl).
    inversion Hw as [|? ? ? ? ? ? ? Hf|? ? ? tr3 c1 tr4 vs' ? ? _ Hs Hrest|? ? ? ? ? _ Hs|? ? ? ? ? _ Hs
      |? ? ? tr3 c1 t p tr4 ? ? _ Hs Hp Hrest|? ? ? ? ? t e _ Hs Hp|? ? ? ? ? e _ Hs]; subst; [congruence|..].
    + exists tr3, (tr4 ++ tr2), c1. eexists. rewrite app_assoc. split; [done|]. split; [by apply run_step_iff; eexists|].
      apply IH. exists tr4, tr2, vs'. split; [done|]. split; [done|]. by rewrite writes_of_app, app_assoc in Hl.
    + exists tr1, tr2, c'. eexists. split; [done|]. split; [by apply run_step_iff; eexists|]. by apply run_store_then.
    + exists tr1, tr2, c'. eexists. split; [done|]. split; [by apply run_step_iff; eexists|]. by apply run_store_then.
    + exists tr3, (tr4 ++ tr2), c1. eexists. rewrite app_assoc. split; [done|]. split; [by apply run_step_iff; eexists|].
      cbn. rewrite Hp. apply run_goto_iff. exists tr4, tr2. split; [done|]. split; [done|]. by rewrite writes_of_app, app_assoc in Hl.
    + exists tr1, tr2, c'. eexists. split; [done|]. split; [by apply run_step_iff; eexists|]. cbn. by rewrite Hp.
    + exists tr1, tr2, c'. eexists. split; [done|]. split; [by apply run_step_iff; eexists|]. done.
Qed.
End walks.

