(* ===== verification/Graph.v ===== *)
(** * [runtime.rs], the call graph of the plugins

    [edges] maps each executable tag to the tags it may call.  A [HashMap] is
    walked in an order of its own, [hash_keys].  [visit_plugin] is the
    memoising depth-first search; [None] is a panic of its index expression or
    the end of the model's fuel, and the theorem excludes both. *)
From S2P Require Import Prelude RustStr Error.

(** The order in which a [HashMap] hands out its keys. *)
Class HashOrder := { hash_keys : ∀ {A}, gmap string A → list string }.
Class HashOrderLaws (O : HashOrder) : Prop := {
  hash_keys_elem : ∀ A (m : gmap string A) k, k ∈ hash_keys m ↔ is_Some (m !! k);
}.

#[export] Instance DemoOrder : HashOrder := {| hash_keys _ m := (map_to_list m).*1 |}.
#[export] Instance DemoOrder_laws : HashOrderLaws DemoOrder.
Proof.
  split. intros A m k. simpl. rewrite list_elem_of_fmap. split.
  - intros ([k' a] & -> & Hk%elem_of_map_to_list). eauto.
  - intros [a Ha]. exists (k, a). by rewrite elem_of_map_to_list.
Qed.

(** @src src/src/runtime.rs 351-351 MAX_PIPELINE_DEPTH *)
Definition MAX_PIPELINE_DEPTH : nat := 64.

Notation Edges := (gmap string (list string)).
Notation Depths := (gmap string nat).

(** The loop over the calls of a plugin, [visit] being the recursive call.
    @src src/src/runtime.rs 371-373 visit_plugin *)
Fixpoint visit_calls (visit : string → Depths → option (Res (nat * Depths)))
    (calls : list string) (depth : nat) (depths : Depths) : option (Res (nat * Depths)) :=
  match calls with
  | [] => Some (Ok (depth, depths))
  | t :: calls =>
      match visit t depths with
      | Some (Ok (d, depths)) => visit_calls visit calls (Nat.max depth (1 + d)) depths
      | r => r
      end
  end.

Definition depth_error : Error :=
  ErrConfig ("plugin call depth exceeds " +:+ show_Z (Z.of_nat MAX_PIPELINE_DEPTH)).

(** [active] is pushed before the calls and popped after them, so the calls see
    it with [tag] at its end.
    @src src/src/runtime.rs 345-382 visit_plugin *)
Fixpoint visit_plugin (fuel : nat) (edges : Edges) (active : list string) (tag : string)
    (depths : Depths) : option (Res (nat * Depths)) :=
  match fuel with
  | O => None
  | S fuel =>
      match depths !! tag with
      | Some depth => Some (Ok (depth, depths))
      | None =>
          if decide (tag ∈ active) then
            Some (Err (ErrConfig ("plugin reference cycle: " +:+ join " -> " (active ++ [tag]))))
          else if Nat.leb MAX_PIPELINE_DEPTH (length active) then Some (Err depth_error)
          else
            match edges !! tag with
            | None => None
            | Some calls =>
                match visit_calls (visit_plugin fuel edges (active ++ [tag])) calls 1 depths with
                | Some (Ok (depth, depths)) =>
                    if Nat.ltb MAX_PIPELINE_DEPTH depth then Some (Err depth_error)
                    else Some (Ok (depth, <[tag := depth]> depths))
                | r => r
                end
            end
      end
  end.

Section validate.
Context {O : HashOrder}.

(** The first target that is not an executable.
    @src src/src/runtime.rs 329-337 validate_plugin_graph *)
Definition check_targets (edges : Edges) : Res unit :=
  result_foldM (λ _ tag,
    result_foldM (λ _ target,
      match edges !! target with
      | Some _ => Ok tt
      | None => Err (ErrConfig ("plugin `" +:+ tag +:+ "` references unknown executable `"
                                +:+ target +:+ "`"))
      end) tt (default [] (edges !! tag))) tt (hash_keys edges).

(** @src src/src/runtime.rs 338-342 validate_plugin_graph *)
Fixpoint visit_all (edges : Edges) (tags : list string) (depths : Depths) : option (Res unit) :=
  match tags with
  | [] => Some (Ok tt)
  | tag :: tags =>
      match visit_plugin (S MAX_PIPELINE_DEPTH) edges [] tag depths with
      | None => None
      | Some (Err e) => Some (Err e)
      | Some (Ok (_, depths)) => visit_all edges tags depths
      end
  end.

(** @src src/src/runtime.rs 329-342 validate_plugin_graph *)
Definition validate_edges (edges : Edges) : option (Res unit) :=
  match check_targets edges with
  | Err e => Some (Err e)
  | Ok _ => visit_all edges (hash_keys edges) ∅
  end.
End validate.

(** ** What the search computes *)

(** Every target is an executable. *)
Definition closed (edges : Edges) : Prop :=
  map_Forall (λ _ calls, Forall (λ t, is_Some (edges !! t)) calls) edges.

(** The plugins have a rank of at most 64 that goes down along every call: no
    chain of calls closes or is longer than 64. *)
Definition layered (edges : Edges) (rank : string → nat) : Prop :=
  closed edges ∧
  map_Forall (λ tag calls, 1 ≤ rank tag ≤ MAX_PIPELINE_DEPTH ∧ Forall (λ t, rank t < rank tag) calls) edges.

(** The depths found so far are such a rank. *)
Definition ranked (edges : Edges) (depths : Depths) : Prop :=
  map_Forall (λ tag d, 1 ≤ d ≤ MAX_PIPELINE_DEPTH ∧ ∃ calls, edges !! tag = Some calls
                ∧ Forall (λ t, ∃ d', depths !! t = Some d' ∧ d' < d) calls) depths.

(** How the depths change during a visit with [active] on the stack. *)
Record extends (active : list string) (depths depths' : Depths) : Prop := mkExtends {
  ext_sub : depths ⊆ depths';
  ext_active : ∀ x, x ∈ active → depths' !! x = depths !! x;
}.

#[export] Instance extends_preorder active : PreOrder (extends active).
Proof.
  split; [by intros d; split|]. intros d1 d2 d3 [S1 A1] [S2 A2].
  split; [by transitivity d2|]. intros x Hx. by rewrite A2, A1.
Qed.

Lemma extends_lookup active d d' x n : extends active d d' → d !! x = Some n → d' !! x = Some n.
Proof. intros [Hs _] Hx. by eapply lookup_weaken. Qed.

Lemma extends_shrink a b d d' : extends (a ++ b) d d' → extends a d d'.
Proof. intros [? Ha]. split; [done|]. intros x Hx. apply Ha. set_solver. Qed.

(** Recording the depth of a plugin whose calls are recorded. *)
Lemma ranked_insert edges depths tag calls d :
  ranked edges depths → depths !! tag = None → edges !! tag = Some calls → 1 ≤ d ≤ MAX_PIPELINE_DEPTH →
  Forall (λ t, ∃ d', depths !! t = Some d' ∧ d' < d) calls →
  ranked edges (<[tag := d]> depths).
Proof.
  intros Hr Hn He Hd Hc.
  assert (Hmono : ∀ l n, Forall (λ t, ∃ d', depths !! t = Some d' ∧ d' < n) l →
            Forall (λ t, ∃ d', <[tag:=d]> depths !! t = Some d' ∧ d' < n) l).
  { intros l n Hl. eapply Forall_impl; [exact Hl|]. intros t (d' & Ht & ?). exists d'.
    rewrite lookup_insert_ne by congruence. done. }
  apply map_Forall_insert_2; [split; [done|]; exists calls; auto|].
  eapply map_Forall_impl; [exact Hr|]. intros t n (Hn' & l & Hl & Hf). eauto 6.
Qed.

Section visits.
Context (edges : Edges) (Hclosed : closed edges).

(** The result of a visit: an error, or the depth recorded in larger depths. *)
Definition visited (active : list string) (tag : string) (depths : Depths)
    (r : option (Res (nat * Depths))) : Prop :=
  match r with
  | Some (Ok (d, depths')) => depths' !! tag = Some d ∧ extends active depths depths' ∧ ranked edges depths'
  | Some (Err _) => True
  | None => False
  end.

Lemma visit_calls_visited visit active calls depth depths :
  (∀ t ds, t ∈ calls → ranked edges ds → visited active t ds (visit t ds)) →
  ranked edges depths →
  match visit_calls visit calls depth depths with
  | Some (Ok (depth', depths')) =>
      depth ≤ depth' ∧ extends active depths depths' ∧ ranked edges depths'
      ∧ Forall (λ t, ∃ d', depths' !! t = Some d' ∧ d' < depth') calls
  | Some (Err _) => True
  | None => False
  end.
Proof.
  intros Hv. revert depth depths. induction calls as [|t calls IH]; intros depth depths Hr; simpl.
  { split; [lia|]. split; [reflexivity|]. split; [done|constructor]. }
  pose proof (Hv t depths (list_elem_of_here _ _) Hr) as H1.
  destruct (visit t depths) as [[[d ds]|e]|]; simpl in H1; [|done..].
  destruct H1 as (Ht & Hx & Hr'). specialize (IH (λ t' ds' Ht, Hv t' ds' (list_elem_of_further _ _ _ Ht)) (Nat.max depth (S d)) ds Hr').
  destruct (visit_calls _ _ _ _) as [[[d' ds']|e]|]; [|done..].
  destruct IH as (Hd & Hx' & Hr'' & Hall). split; [lia|]. split; [by transitivity ds|]. split; [done|].
  constructor; [|done]. exists d. split; [by eapply extends_lookup|lia].
Qed.

Lemma visit_plugin_visited fuel active tag depths :
  MAX_PIPELINE_DEPTH - length active < fuel → is_Some (edges !! tag) → ranked edges depths →
  visited active tag depths (visit_plugin fuel edges active tag depths).
Proof.
  revert active tag depths. induction fuel as [|fuel IH]; intros active tag depths Hf [calls Hc] Hr; [lia|].
  cbn [visit_plugin]. destruct (depths !! tag) as [d|] eqn:Ed; [by split; [|split; [reflexivity|]]|].
  destruct (decide (tag ∈ active)) as [|Hact]; [done|].
  destruct (Nat.leb_spec MAX_PIPELINE_DEPTH (length active)); [done|]. rewrite Hc.
  pose proof (Hclosed _ _ Hc) as Hall. rewrite Forall_forall in Hall.
  epose proof (visit_calls_visited (visit_plugin fuel edges (active ++ [tag])) (active ++ [tag]) calls 1 depths) as Hcs.
  destruct (visit_calls _ _ _ _) as [[[d ds]|e]|]; simpl in *;
    try (apply Hcs; [intros t ds' Ht Hds; apply IH; [rewrite length_app; simpl; lia|by apply Hall|done]|done]).
  destruct Hcs as (Hd & Hx & Hr' & Hf'); [intros t ds' Ht Hds; apply IH; [rewrite length_app; simpl; lia|by apply Hall|done]|done|].
  destruct (Nat.ltb_spec MAX_PIPELINE_DEPTH d); [done|].
  assert (Hn : ds !! tag = None) by (rewrite (ext_active _ _ _ Hx), Ed; set_solver).
  split; [by rewrite lookup_insert_eq|]. split; [|by eapply ranked_insert].
  apply extends_shrink in Hx. split.
  - etrans; [apply Hx|]. by apply insert_subseteq.
  - intros x Hin. rewrite lookup_insert_ne by set_solver. by apply Hx.
Qed.
End visits.

(** ** Graphs the search accepts *)
Section accepts.
Context (edges : Edges) (rank : string → nat) (Hl : layered edges rank).

(** Recorded depths stay below the rank. *)
Definition below (depths : Depths) : Prop := map_Forall (λ t d, d ≤ rank t) depths.

Definition accepted (bound : nat) (r : option (Res (nat * Depths))) : Prop :=
  ∃ d ds, r = Some (Ok (d, ds)) ∧ d ≤ bound ∧ below ds.

Lemma visit_calls_accepted visit calls bound depth depths :
  (∀ t ds, t ∈ calls → below ds → accepted (rank t) (visit t ds)) →
  Forall (λ t, rank t < bound) calls → depth ≤ bound → below depths →
  accepted bound (visit_calls visit calls depth depths).
Proof.
  intros Hv Hc. revert depth depths. induction Hc as [|t calls Ht Hc IH]; intros depth depths Hd Hb; simpl.
  { exists depth, depths. done. }
  destruct (Hv t depths (list_elem_of_here _ _) Hb) as (d & ds & -> & Hd' & Hb').
  apply IH; [|lia|done]. intros t' ds' Ht'. apply Hv, list_elem_of_further, Ht'.
Qed.

Lemma visit_plugin_accepted fuel active tag depths :
  MAX_PIPELINE_DEPTH - length active < fuel → is_Some (edges !! tag) →
  Forall (λ x, rank tag < rank x) active → length active + rank tag ≤ MAX_PIPELINE_DEPTH → below depths →
  accepted (rank tag) (visit_plugin fuel edges active tag depths).
Proof.
  revert active tag depths. induction fuel as [|fuel IH]; intros active tag depths Hf [calls Hc] Ha Hlen Hb; [lia|].
  cbn [visit_plugin]. destruct (depths !! tag) as [d|] eqn:Ed; [exists d, depths; eauto|].
  destruct Hl as [Hclosed Hrank]. destruct (Hrank _ _ Hc) as [Hr Hcalls].
  rewrite decide_False by (intros Hin; rewrite Forall_forall in Ha; specialize (Ha _ Hin); lia).
  destruct (Nat.leb_spec MAX_PIPELINE_DEPTH (length active)); [lia|]. rewrite Hc.
  destruct (visit_calls_accepted (visit_plugin fuel edges (active ++ [tag])) calls (rank tag) 1 depths)
    as (d & ds & -> & Hd & Hb'); [|done|lia|done|].
  - intros t ds Ht Hds. rewrite Forall_forall in Hcalls. specialize (Hcalls _ Ht).
    apply IH; [rewrite length_app; simpl; lia| | |rewrite length_app; simpl; lia|done].
    + specialize (Hclosed _ _ Hc). rewrite Forall_forall in Hclosed. by apply Hclosed.
    + apply Forall_app. split; [|by repeat constructor]. eapply Forall_impl; [exact Ha|]. simpl. lia.
  - destruct (Nat.ltb_spec MAX_PIPELINE_DEPTH d); [lia|]. eexists _, _. split; [done|]. split; [done|].
    by apply map_Forall_insert_2.
Qed.
End accepts.

(** ** The whole validation *)
Section validation.
Context {O : HashOrder} {OL : HashOrderLaws O}.

Lemma check_targets_closed edges : check_targets edges = Ok tt ↔ closed edges.
Proof.
  unfold check_targets, closed. split.
  - intros Hf tag calls Hc. assert (Htag : tag ∈ hash_keys edges) by (apply hash_keys_elem; eauto).
    revert Hf. generalize tt at 3. revert Htag. generalize (hash_keys edges).
    induction l as [|k l IH]; intros Hin u; [set_solver|]. simpl. intros (u' & Hk & Hl)%result_bind_Ok.
    apply elem_of_cons in Hin as [<-|Hin]; [|by eapply IH].
    rewrite Hc in Hk. simpl in Hk. revert Hk. clear. generalize tt at 2.
    induction calls as [|t calls IH]; intros u Hf; constructor; simpl in Hf.
    + destruct (edges !! t); [eauto|done].
    + destruct (edges !! t); [by eapply IH|done].
  - intros Hclosed. generalize (hash_keys edges). induction l as [|k l IH]; simpl; [done|].
    enough (Hk : result_foldM (E := Error) (λ _ target, match edges !! target with
             | Some _ => Ok tt
             | None => Err (ErrConfig ("plugin `" +:+ k +:+ "` references unknown executable `" +:+ target +:+ "`"))
             end) tt (default [] (edges !! k)) = Ok tt) by (by rewrite Hk).
    destruct (edges !! k) as [calls|] eqn:Ek; simpl; [|done].
    pose proof (Hclosed _ _ Ek) as Hc. clear Ek. induction Hc as [|t calls [n Ht] _ IHc]; simpl; [done|].
    by rewrite Ht.
Qed.

(** Visiting the rest of the tags leaves a depth for each of them. *)
Lemma visit_all_spec edges tags depths :
  closed edges → Forall (λ t, is_Some (edges !! t)) tags → ranked edges depths →
  ∃ r, visit_all edges tags depths = Some r
    ∧ (r = Ok tt → ∃ ds, ranked edges ds ∧ depths ⊆ ds ∧ Forall (λ t, is_Some (ds !! t)) tags).
Proof.
  intros Hc Ht. revert depths. induction Ht as [|t tags Ht _ IH]; intros depths Hr; cbn [visit_all].
  { eexists. split; [done|]. eauto. }
  pose proof (visit_plugin_visited edges Hc (S MAX_PIPELINE_DEPTH) [] t depths
    ltac:(unfold MAX_PIPELINE_DEPTH; simpl; lia) Ht Hr) as Hv.
  destruct (visit_plugin _ _ _ _ _) as [[[d ds]|e]|]; simpl in Hv;
    [|by eexists|done].
  destruct Hv as (Hd & Hx & Hr').
  destruct (IH ds Hr') as (r & -> & Hok). exists r. split; [done|].
  intros (ds' & Hr'' & Hsub & Hall)%Hok. exists ds'. split; [done|]. split.
  - etrans; [apply Hx|done].
  - constructor; [|done]. exists d. by eapply lookup_weaken.
Qed.

Lemma visit_all_accepts edges rank tags depths :
  layered edges rank → Forall (λ t, is_Some (edges !! t)) tags → below rank depths →
  visit_all edges tags depths = Some (Ok tt).
Proof.
  intros Hl Ht. revert depths. induction Ht as [|t tags [calls Ht] _ IH]; intros depths Hb; cbn [visit_all]; [done|].
  pose proof (proj1 (proj2 Hl _ _ Ht)) as Hrank.
  destruct (visit_plugin_accepted edges rank Hl (S MAX_PIPELINE_DEPTH) [] t depths)
    as (d & ds & -> & _ & Hb'); [unfold MAX_PIPELINE_DEPTH; simpl; lia|eauto|constructor|simpl; lia|done|]. by apply IH.
Qed.

(** The depths found for every executable are a rank. *)
Lemma ranked_layered edges ds :
  closed edges → ranked edges ds → (∀ t, is_Some (edges !! t) → is_Some (ds !! t)) →
  layered edges (λ t, default 0 (ds !! t)).
Proof.
  intros Hc Hr Hall. split; [done|]. intros tag calls Ht.
  destruct (Hall tag) as [d Hd]; [eauto|]. rewrite Hd. simpl.
  destruct (Hr _ _ Hd) as (Hrange & calls' & Hcalls & Hf). rewrite Ht in Hcalls. injection Hcalls as <-.
  split; [done|]. eapply Forall_impl; [exact Hf|]. intros t (d' & Hd' & ?). by rewrite Hd'.
Qed.

Lemma hash_keys_some {A} (edges : gmap string A) : Forall (λ t, is_Some (edges !! t)) (hash_keys edges).
Proof. apply Forall_forall. intros t. by rewrite hash_keys_elem. Qed.

Lemma validate_edges_spec edges :
  ∃ r, validate_edges edges = Some r ∧ (r = Ok tt ↔ ∃ rank, layered edges rank).
Proof.
  unfold validate_edges. destruct (check_targets edges) as [[]|e] eqn:Ec.
  - apply check_targets_closed in Ec.
    destruct (visit_all_spec edges (hash_keys edges) ∅ Ec (hash_keys_some edges)) as (r & Hr & Hok);
      [by intros ? ?|].
    exists r. split; [done|]. split.
    + intros (ds & Hds & _ & Hall)%Hok. eexists. apply ranked_layered; [done..|].
      intros t Ht. rewrite Forall_forall in Hall. by apply Hall, hash_keys_elem.
    + intros [rank Hl]. rewrite (visit_all_accepts edges rank) in Hr; [by injection Hr|done|apply hash_keys_some|].
      by intros ? ?.
  - exists (Err e). split; [done|]. split; [done|].
    intros [rank [Hc _]]. apply check_targets_closed in Hc. congruence.
Qed.
End validation.

(** C11: validating the call graph of the plugins always ends, whatever cycles it
    has and however deep it is, and never indexes a missing plugin; it accepts
    exactly the graphs whose every target exists and whose every chain of calls
    has at most 64 plugins (a rank of at most 64 goes down along each call),
    independently of the order in which the maps are walked. *)
Theorem validate_edges_exact {O : HashOrder} {OL : HashOrderLaws O} (edges : Edges) :
  ∃ r, validate_edges edges = Some r ∧ (r = Ok tt ↔ ∃ rank, layered edges rank).
Proof. apply validate_edges_spec. Qed.

(** Two plugins that call each other are refused, with the chain in the message. *)
Lemma validate_edges_exact_witness :
  let edges : Edges := {["a" := ["b"]; "b" := ["a"]]} in
  validate_edges edges = Some (Err (ErrConfig "plugin reference cycle: a -> b -> a"))
  ∧ ¬ ∃ rank, layered edges rank.
Proof.
  intros edges. destruct (validate_edges_exact edges) as (r & Hr & Hiff).
  assert (Hv : validate_edges edges = Some (Err (ErrConfig "plugin reference cycle: a -> b -> a"))) by (by vm_compute).
  split; [exact Hv|]. rewrite Hv in Hr. injection Hr as <-. intros Hl. by apply Hiff in Hl.
Defined.
