(* ===== verification/Listener.v ===== *)
(** * [server.rs], first half: listener settings

    Validation of a listener before any socket is bound, the loading of its
    certificate and key, and the number of UDP workers.  [rustls], [http::Uri]
    and the machine's parallelism are the operations of [ListenerLib]. *)
From S2P Require Import Prelude RustStr RustNet Error External Config.

(** One item of a PEM file, as [rustls_pemfile] reads them. *)
Inductive PemItem : Type :=
| Pkcs8Key (k : list Z)
| Pkcs1Key (k : list Z)
| Sec1Key (k : list Z)
| PemCert (c : list Z)
| PemOther.

Class ListenerLib := {
  (** [File::open] and what [rustls_pemfile] reads from the file. *)
  pem_open : string → result string (list (result string PemItem));
  (** [ServerConfig::builder().with_no_client_auth().with_single_cert(..)]. *)
  TlsConfig : Type;
  with_single_cert : list (list Z) → PemItem → result string TlsConfig;
  (** [s.parse::<Uri>()]: the path and the query. *)
  uri_parse : string → result string (string * option string);
  (** [std::thread::available_parallelism]. *)
  available_parallelism : option Z;
}.

Section listener.
Context {L : ListenerLib}.

(** [rustls_pemfile::certs] keeps the certificates and the errors. *)
Definition pem_certs (items : list (result string PemItem)) : list (result string (list Z)) :=
  omap (λ i, match i with
             | Ok (PemCert c) => Some (Ok c)
             | Ok _ => None
             | Err e => Some (Err e)
             end) items.

(** @src src/src/server.rs 608-613 load_certs *)
Definition load_certs (path : string) : Res (list (list Z)) :=
  let? items := map_err ErrIo (pem_open path) in
  map_err ErrConfig (result_mapM id (pem_certs items)).

(** The loop of [load_key] over the items that are left. *)
Fixpoint first_key (path : string) (items : list (result string PemItem)) : Res PemItem :=
  match items with
  | Ok (Pkcs8Key k) :: _ => Ok (Pkcs8Key k)
  | Ok (Pkcs1Key k) :: _ => Ok (Pkcs1Key k)
  | Ok (Sec1Key k) :: _ => Ok (Sec1Key k)
  | Ok _ :: rest => first_key path rest
  | [] => Err (ErrConfig ("no private key in " +:+ path))
  | Err e :: _ => Err (ErrConfig e)
  end.

(** @src src/src/server.rs 615-632 load_key *)
Definition load_key (path : string) : Res PemItem :=
  let? items := map_err ErrIo (pem_open path) in
  first_key path items.

(** The acceptor is its TLS configuration and the protocols it offers.
    @src src/src/server.rs 596-606 tls_acceptor *)
Definition tls_acceptor (cert key : string) (alpn : list string) : Res (TlsConfig * list string) :=
  let? certs := load_certs cert in
  let? key := load_key key in
  let? cfg := map_err ErrConfig (with_single_cert certs key) in
  Ok (cfg, alpn).

(** The condition [doh] listeners put on [url_path]. *)
Definition doh_path_ok (path upath : string) (uquery : option string) : bool :=
  starts_with "/" path && bool_decide (upath = path) && bool_decide (uquery = None)
  && negb (existsb (λ s, str_contains s path) ["{"; "}"; "*"; "#"])
  && negb (existsb (starts_with ":") (split_on "/" path)).

(** @src src/src/server.rs 36-84 validate_listener *)
Definition validate_listener (l : ListenerConfig) : Res unit :=
  let? _ := ok_or (parse_socket_addr (l_addr l))
              (ErrConfig ("bad listen addr " +:+ l_addr l +:+ ": " +:+ socket_parse_error)) in
  let protocol := to_ascii_lowercase (l_protocol l) in
  if decide (protocol ∈ ["udp"; ""; "tcp"]) then Ok tt
  else if decide (protocol ∈ ["tls"; "dot"]) then
    let? cert := ok_or (l_cert l) (ErrConfig "tls listener needs cert") in
    let? key := ok_or (l_key l) (ErrConfig "tls listener needs key") in
    let? _ := tls_acceptor cert key [] in
    Ok tt
  else if decide (protocol ∈ ["doh"; "https"; "http"]) then
    let path := default "/dns-query" (l_url_path l) in
    let? (upath, uquery) := map_err (λ e, ErrConfig ("bad doh path: " +:+ e)) (uri_parse path) in
    if negb (doh_path_ok path upath uquery) then
      Err (ErrConfig "doh url_path must be a fixed absolute URL path")
    else
      match l_cert l, l_key l with
      | Some cert, Some key => let? _ := tls_acceptor cert key ["h2"; "http/1.1"] in Ok tt
      | None, None => Ok tt
      | _, _ => Err (ErrConfig "doh https needs both cert and key")
      end
  else Err (ErrConfig ("unknown listener protocol `" +:+ protocol +:+ "`")).

(** @src src/src/server.rs 129-136 udp_worker_count *)
Definition udp_worker_count (l : ListenerConfig) : Z :=
  match l_workers l with
  | Some n => if (0 <? n)%Z then n
              else match available_parallelism with Some n => clamp 1 8 n | None => 2%Z end
  | None => match available_parallelism with Some n => clamp 1 8 n | None => 2%Z end
  end.

(** What [spawn_listener] starts.
    @src src/src/server.rs 86-127 spawn_listener *)
Inductive Service : Type :=
| ServeUdp (addr : string) (workers : Z)
| ServeTcp (addr : string) (idle : Z)
| ServeTls (addr : string) (idle : Z) (acceptor : TlsConfig * list string)
| ServeDoh (l : ListenerConfig).

(** Durations are in seconds here.
    @src src/src/server.rs 86-127 spawn_listener *)
Definition spawn_listener (l : ListenerConfig) : Res Service :=
  let? _ := validate_listener l in
  let proto := to_ascii_lowercase (l_protocol l) in
  let idle := Z.max (default 10%Z (l_idle_timeout l)) 1 in
  if decide (proto ∈ ["udp"; ""]) then Ok (ServeUdp (l_addr l) (udp_worker_count l))
  else if decide (proto = "tcp") then Ok (ServeTcp (l_addr l) idle)
  else if decide (proto ∈ ["tls"; "dot"]) then
    let? cert := ok_or (l_cert l) (ErrConfig "tls listener needs cert") in
    let? key := ok_or (l_key l) (ErrConfig "tls listener needs key") in
    let? acceptor := tls_acceptor cert key [] in
    Ok (ServeTls (l_addr l) idle acceptor)
  else if decide (proto ∈ ["doh"; "https"; "http"]) then Ok (ServeDoh l)
  else Err (ErrConfig ("unknown listener protocol `" +:+ proto +:+ "`")).

(** A listener that passed [validate_listener] is started: whatever [spawn_listener]
    can fail on has been found before. *)
Lemma validated_listener_starts l : validate_listener l = Ok tt → is_ok (spawn_listener l) = true.
Proof.
  intros Hv. unfold spawn_listener. rewrite Hv. simpl. unfold validate_listener in Hv.
  apply result_bind_Ok in Hv as (a & _ & Hv). revert Hv.
  generalize (to_ascii_lowercase (l_protocol l)). intros p.
  destruct (decide (p ∈ ["udp"; ""; "tcp"])) as [H1|H1].
  { intros _. case_decide; [done|]. rewrite decide_True; [done|set_solver]. }
  rewrite (decide_False (P := p ∈ ["udp"; ""])), (decide_False (P := p = "tcp")) by set_solver.
  case_decide; [|by case_decide].
  destruct (l_cert l) as [cert|], (l_key l) as [key|]; simpl; try done.
  by destruct (tls_acceptor cert key []).
Qed.

Lemma udp_worker_count_pos l : (∀ n, available_parallelism = Some n → 0 < n)%Z → (1 ≤ udp_worker_count l)%Z.
Proof.
  intros Hp. unfold udp_worker_count, clamp. destruct (l_workers l) as [n|]; [destruct (Z.ltb_spec 0 n)|];
    try lia; destruct available_parallelism; lia.
Qed.
End listener.

(** A machine with one certificate. *)
#[export] Instance DemoListener : ListenerLib := {|
  pem_open p := if decide (p = "/etc/dns.pem") then Ok [Ok (PemCert [1%Z]); Ok (Pkcs8Key [2%Z])]
                else Err "No such file or directory";
  TlsConfig := list (list Z);
  with_single_cert certs _ := if decide (certs = []) then Err "no certificates" else Ok certs;
  uri_parse s := match split_once "?" s with Some (p, q) => Ok (p, Some q) | None => Ok (s, None) end;
  available_parallelism := Some 4%Z;
|}.
