(* ===== verification/Runtime.v ===== *)
(** * [runtime.rs] and [plugin/mod.rs]: building and running the plugins

    A [Registry] is a value: the executables by tag, the sets, the caches and
    the default entry.  [rg_ready] is the state of the slot through which
    sequences and fallbacks reach it: set at the end of [build], once.  The
    mutual recursion of the executables through the registry is [exec_obj],
    whose fuel is the depth of the calls. *)
From S2P Require Import Prelude RustStr RustNet Error Hickory HickoryDemo External PublicIp.
From S2P Require Import DnsUtil Context Config DomainSet Matcher Upstream Shard Task Actions Ecs.
From S2P Require Import Hosts Cache Exchange Forward Fallback Sequence Graph Listener.

Section registry.
Context {H : Hickory} {N : IpNetLib} {Rx : RegexLib} {T : TlsLib}.

(** The implementations of [Executable]; [XSequence] and [XFallback] are the
    [SlotSequence] and [SlotFallback] of the runtime.
    @src src/src/plugin/mod.rs 30-33 Executable *)
Inductive ExecObj : Type :=
| XCache (c : Cache)
| XHosts (h : Hosts)
| XForward (f : Forward)
| XBlackhole (b : Blackhole)
| XRedirect (r : Redirect)
| XEcs (e : Ecs)
| XNoEcs (n : NoEcs)
| XSequence (s : Sequence)
| XFallback (f : Fallback).

(** @src src/src/plugin/mod.rs 35-42 Registry *)
Record Registry : Type := mkRegistry {
  rg_execs : gmap string ExecObj;
  rg_domains : gmap string DomainSet;
  rg_ips : gmap string IpSet;
  rg_caches : gmap string Cache;
  rg_default_entry : option string;
  rg_ready : bool;
}.

(** @src src/src/plugin/mod.rs 45-50 Registry::get_exec *)
Definition get_exec (reg : Registry) (tag : string) : Res ExecObj :=
  ok_or (rg_execs reg !! tag) (ErrUnknownTag tag).

Definition not_ready : Exec := ret (Err (ErrConfig "runtime not ready")).

(** [SlotSequence::exec], the registry being that of the slot.
    @src src/src/runtime.rs 401-408 SlotSequence::exec *)
Definition slot_sequence_exec (ready : bool) (reg : Lookups) (s : Sequence) : Exec :=
  if ready then sequence_run reg s else not_ready.

(** @src src/src/runtime.rs 418-427 SlotFallback::exec *)
Definition slot_fallback_exec (ready : bool) (get : string → Res Exec) (f : Fallback) : Exec :=
  if ready then fallback_exec get f else not_ready.

(** The dispatch of [Executable::exec]; each call through the registry takes one
    unit of fuel.
    @src src/src/plugin/mod.rs 31-33 Executable *)
Fixpoint exec_obj (fuel : nat) (reg : Registry) (o : ExecObj) : Exec :=
  match fuel with
  | O => λ _, OutOfFuel
  | S fuel =>
      let get t := (let? o := get_exec reg t in Ok (exec_obj fuel reg o)) in
      match o with
      | XCache c => cache_exec c
      | XHosts h => hosts_exec h
      | XForward f => forward_exec f
      | XBlackhole b => blackhole_exec b
      | XRedirect r => redirect_exec r
      | XEcs e => ecs_exec e
      | XNoEcs n => no_ecs_exec n
      | XSequence s => slot_sequence_exec (rg_ready reg) (mkLookups get (λ t, rg_caches reg !! t)) s
      | XFallback f => slot_fallback_exec (rg_ready reg) get f
      end
  end.

(** The tags an executable may call. *)
Definition obj_calls (o : ExecObj) : list string :=
  match o with
  | XSequence s => sequence_calls s
  | XFallback f => [fb_primary f; fb_secondary f]
  | _ => []
  end.

Lemma never_goto_exec_obj fuel reg o : never_goto (exec_obj fuel reg o).
Proof.
  revert o. induction fuel as [|fuel IH]; intros o; [done|]. destruct o; cbn [exec_obj].
  - apply never_goto_cache_exec.
  - apply never_goto_hosts_exec.
  - apply never_goto_forward_exec.
  - apply never_goto_blackhole_exec.
  - apply never_goto_redirect_exec.
  - apply never_goto_ecs_exec.
  - apply never_goto_no_ecs_exec.
  - unfold slot_sequence_exec. destruct (rg_ready reg); [|done]. apply never_goto_sequence_run.
    intros t p (o & _ & [= <-])%result_bind_Ok. apply IH.
  - unfold slot_fallback_exec. destruct (rg_ready reg); [|done]. apply never_goto_fallback_exec.
Qed.
End registry.

(** ** Running a registry whose calls are layered *)
Section layered_exec.
Context {H : Hickory} {HL : HickoryLaws H} {N : IpNetLib} {Rx : RegexLib} {T : TlsLib}.
Context (P : Protocol) (HP : ambient P).

(** What [build] guarantees of a registry: forwards have upstreams, the caches of
    both maps are usable under the protocol, and the calls are layered. *)
Record registry_ok (reg : Registry) (rank : string → nat) : Prop := mkRegistryOk {
  ro_obj : map_Forall (λ _ o, match o with
                              | XForward f => forward_wf f
                              | XCache c => cache_allowed P c
                              | _ => True
                              end) (rg_execs reg);
  ro_caches : map_Forall (λ _ c, cache_allowed P c) (rg_caches reg);
  ro_rank : map_Forall (λ tag o, 1 ≤ rank tag ≤ MAX_PIPELINE_DEPTH
                                ∧ Forall (λ t, rank t < rank tag) (obj_calls o)) (rg_execs reg);
}.

Lemma steps_exec_obj reg rank fuel tag o :
  registry_ok reg rank → rg_execs reg !! tag = Some o → rank tag ≤ fuel →
  steps P (exec_obj fuel reg o).
Proof.
  intros [Ho Hc Hr]. revert tag o. induction fuel as [|fuel IH]; intros tag o Htag Hf.
  { destruct (Hr _ _ Htag) as [? _]. lia. }
  destruct (Hr _ _ Htag) as [_ Hcalls]. rewrite Forall_forall in Hcalls. specialize (Ho _ _ Htag).
  assert (Hget : ∀ t p, t ∈ obj_calls o →
            (let? o := get_exec reg t in Ok (exec_obj fuel reg o)) = Ok p → steps P p).
  { intros t p Ht (o' & Ho' & [= <-])%result_bind_Ok. unfold get_exec in Ho'.
    destruct (rg_execs reg !! t) as [o''|] eqn:E; [|done]. injection Ho' as ->.
    eapply IH; [done|]. specialize (Hcalls _ Ht). lia. }
  destruct o; cbn [exec_obj]; simpl in Ho.
  - by apply steps_cache_exec.
  - by apply steps_hosts_exec.
  - by apply steps_forward_exec.
  - by apply steps_blackhole_exec.
  - by apply steps_redirect_exec.
  - by apply steps_ecs_exec.
  - by apply steps_no_ecs_exec.
  - unfold slot_sequence_exec. destruct (rg_ready reg); [|by apply steps_ret].
    eapply steps_sequence_run; [done|exact Hget| |exact Hc|done].
    intros t p (o' & _ & [= <-])%result_bind_Ok. apply never_goto_exec_obj.
  - unfold slot_fallback_exec. destruct (rg_ready reg); [|by apply steps_ret].
    apply steps_fallback_exec; [done|]. intros t p Ht. apply Hget. set_solver.
Qed.
End layered_exec.

(** ** Building *)

(** [s.parse::<tracing::level_filters::LevelFilter>()]. *)
Class LogLib := { level_filter : string → result string unit }.

Section build.
Context {H : Hickory} {N : IpNetLib} {Rx : RegexLib} {Y : Yaml} {E : ConfigEnv}.
Context {HT : HttpLib} {L : ListenerLib} {O : HashOrder} {LL : LogLib}.

Definition plugin_tag (p : PluginConfig) : string := default (pc_ty p) (pc_tag p).

(** The tag a step of a sequence names, if any.
    @src src/src/runtime.rs 312-319 validate_plugin_graph *)
Definition add_step_call (calls : list string) (step : RawStep) : Res (list string) :=
  let exec := trim (rs_exec step) in
  match strip_prefix "$" exec with
  | Some target => Ok (calls ++ [target])
  | None =>
      let? b := builtin_parse exec in
      match b with BGoto target => Ok (calls ++ [target]) | _ => Ok calls end
  end.

(** The tags a plugin's configuration names as its calls.
    @src src/src/runtime.rs 309-326 validate_plugin_graph *)
Definition plugin_calls (p : PluginConfig) : Res (list string) :=
  if decide (pc_ty p = "sequence") then
    let? steps := parse_steps (pc_args p) in
    result_foldM add_step_call [] steps
  else if decide (pc_ty p = "fallback") then
    let? fb := fallback_from_args (plugin_tag p) (pc_args p) in
    Ok [fb_primary fb; fb_secondary fb]
  else Ok [].

(** One round of the first loop of the validation.
    @src src/src/runtime.rs 298-328 validate_plugin_graph *)
Definition add_edges (st : gset string * Edges) (p : PluginConfig) : Res (gset string * Edges) :=
  let '(tags, edges) := st in
  let tag := plugin_tag p in
  if bool_decide (tag = "") || starts_with "$" tag || has_whitespace tag then
    Err (ErrConfig ("invalid plugin tag `" +:+ tag +:+ "`"))
  else if decide (tag ∈ tags) then Err (ErrConfig ("duplicate plugin tag `" +:+ tag +:+ "`"))
  else
    let tags := {[tag]} ∪ tags in
    if decide (pc_ty p ∈ ["domain_set"; "ip_set"]) then Ok (tags, edges)
    else
      let? calls := plugin_calls p in
      Ok (tags, <[tag := calls]> edges).

(** @src src/src/runtime.rs 295-343 validate_plugin_graph *)
Definition validate_plugin_graph (cfg : Config) : option (Res unit) :=
  match result_foldM add_edges (∅, ∅) (cf_plugins cfg) with
  | Err e => Some (Err e)
  | Ok (_, edges) => validate_edges edges
  end.

(** @src src/src/runtime.rs 267-291 validate_settings *)
Definition validate_settings (cfg : Config) : Res unit :=
  let? _ := map_err (λ e, ErrConfig ("bad log level: " +:+ e)) (level_filter (lc_level (cf_log cfg))) in
  if match lc_file (cf_log cfg) with Some path => bool_decide (trim path = "") | None => false end then
    Err (ErrConfig "log.file must not be empty")
  else
    let? _ := match cf_api_http cfg with
              | Some bind => ok_or (parse_socket_addr bind)
                  (ErrConfig ("bad api addr " +:+ bind +:+ ": " +:+ socket_parse_error))
              | None => Ok (mkSocketAddr (V4 0%Z) 0)
              end in
    result_foldM (λ _ srv, result_foldM (λ _ l, validate_listener l) tt (sc_listeners srv)) tt (cf_servers cfg).

(** @src src/src/runtime.rs 254-265 pick_default_entry *)
Definition pick_default_entry (cfg : Config) (pending_seq : list (string * YValue)) : option string :=
  match find_first (λ e, negb (bool_decide (e = "")))
          ((λ s, trim_start_matches "$" (sc_exec s)) <$> cf_servers cfg) with
  | Some e => Some e
  | None => fst <$> list.last pending_seq
  end.

(** The local variables of [build]. *)
Record Builder : Type := mkBuilder {
  bd_execs : gmap string ExecObj;
  bd_domains : gmap string DomainSet;
  bd_ips : gmap string IpSet;
  bd_caches : gmap string Cache;
  bd_seq : list (string * YValue);
  bd_fb : list (string * Fallback);
}.

Definition add_exec (tag : string) (o : ExecObj) (b : Builder) : Builder :=
  mkBuilder (<[tag := o]> (bd_execs b)) (bd_domains b) (bd_ips b) (bd_caches b) (bd_seq b) (bd_fb b).

(** One round of the loop of [build] over the plugins.
    @src src/src/runtime.rs 116-159 Runtime::build *)
Definition build_plugin (b : Builder) (p : PluginConfig) : Res Builder :=
  let tag := plugin_tag p in
  let ty := pc_ty p in
  let args := pc_args p in
  let base := pc_base_dir p in
  if decide (ty = "domain_set") then
    let? s := domain_set args base in
    Ok (mkBuilder (bd_execs b) (<[tag := s]> (bd_domains b)) (bd_ips b) (bd_caches b) (bd_seq b) (bd_fb b))
  else if decide (ty = "ip_set") then
    let? s := ip_set args base in
    Ok (mkBuilder (bd_execs b) (bd_domains b) (<[tag := s]> (bd_ips b)) (bd_caches b) (bd_seq b) (bd_fb b))
  else if decide (ty = "cache") then
    let c := cache_from_args tag args in
    Ok (mkBuilder (<[tag := XCache c]> (bd_execs b)) (bd_domains b) (bd_ips b) (<[tag := c]> (bd_caches b))
          (bd_seq b) (bd_fb b))
  else if decide (ty = "hosts") then
    let? h := hosts_from_args tag args base in Ok (add_exec tag (XHosts h) b)
  else if decide (ty ∈ ["forward"; "fast_forward"]) then
    let? f := forward_from_args tag args in Ok (add_exec tag (XForward f) b)
  else if decide (ty ∈ ["black_hole"; "blackhole"; "reject_any"]) then
    Ok (add_exec tag (XBlackhole (blackhole_from_args args)) b)
  else if decide (ty = "redirect") then
    let? r := redirect_from_args args in Ok (add_exec tag (XRedirect r) b)
  else if decide (ty = "ecs") then
    let? e := ecs_from_args tag args in Ok (add_exec tag (XEcs e) b)
  else if decide (ty ∈ ["no_ecs"; "_no_ecs"]) then
    Ok (add_exec tag (XNoEcs (mkNoEcs tag)) b)
  else if decide (ty = "sequence") then
    Ok (mkBuilder (bd_execs b) (bd_domains b) (bd_ips b) (bd_caches b) (bd_seq b ++ [(tag, args)]) (bd_fb b))
  else if decide (ty = "fallback") then
    let? f := fallback_from_args tag args in
    Ok (mkBuilder (bd_execs b) (bd_domains b) (bd_ips b) (bd_caches b) (bd_seq b) (bd_fb b ++ [(tag, f)]))
  else Err (ErrPlugin tag ty "unknown plugin type").

(** @src src/src/runtime.rs 21-25 Runtime *)
Record Runtime : Type := mkRuntime { rt_registry : Registry; rt_config : Config }.

(** The caches are shared: what is bound in one map is bound in the other.
    @src src/src/runtime.rs 384-392 bind_cache_refresh *)
Definition bind_cache_refresh (rt : Runtime) : Runtime :=
  let reg := rt_registry rt in
  match rg_default_entry reg with
  | None => rt
  | Some entry =>
      mkRuntime
        (mkRegistry ((λ o, match o with XCache c => XCache (bind_refresh entry c) | o => o end) <$> rg_execs reg)
           (rg_domains reg) (rg_ips reg) (bind_refresh entry <$> rg_caches reg)
           (rg_default_entry reg) (rg_ready reg))
        (rt_config rt)
  end.

(** A server without an entry gets the default one.
    @src src/src/runtime.rs 162-168 Runtime::build *)
Definition server_with_entry (default_entry : option string) (srv : ServerConfig) : Res ServerConfig :=
  if decide (sc_exec srv = "") then
    let? e := ok_or default_entry (ErrConfig "server has no exec/entry") in
    Ok (mkServerConfig e (sc_timeout srv) (sc_listeners srv))
  else Ok srv.

(** @src src/src/runtime.rs 178-185 Runtime::build *)
Definition compile_pending (b : Builder) : Res (list (string * Sequence)) :=
  result_mapM (λ '(tag, args),
    let? raw := parse_steps args in
    let? s := compile_steps tag raw (mkSets (bd_domains b) (bd_ips b)) in
    Ok (tag, s)) (bd_seq b).

(** [build] after the validations.
    @src src/src/runtime.rs 108-219 Runtime::build *)
Definition build_validated (cfg : Config) : Res Runtime :=
  let? b := result_foldM build_plugin (mkBuilder ∅ ∅ ∅ ∅ [] []) (cf_plugins cfg) in
  let default_entry := pick_default_entry cfg (bd_seq b) in
  let? servers := result_mapM (server_with_entry default_entry) (cf_servers cfg) in
  let cfg := mkConfig (cf_log cfg) (cf_include cfg) (cf_plugins cfg) servers (cf_api_http cfg) (cf_base_dir cfg) in
  let? compiled := compile_pending b in
  let execs := foldl (λ m '(tag, s), <[tag := XSequence s]> m) (bd_execs b) compiled in
  let execs := foldl (λ m '(tag, f), <[tag := XFallback f]> m) execs (bd_fb b) in
  let reg := mkRegistry execs (bd_domains b) (bd_ips b) (bd_caches b) default_entry false in
  let? _ := result_mapM (λ srv, get_exec reg (sc_exec srv)) servers in
  let reg := mkRegistry execs (bd_domains b) (bd_ips b) (bd_caches b) default_entry true in
  Ok (bind_cache_refresh (mkRuntime reg cfg)).

(** [None] is what [validate_edges_exact] excludes.
    @src src/src/runtime.rs 104-220 Runtime::build *)
Definition runtime_build (cfg : Config) : option (Res Runtime) :=
  match normalize_entries cfg with
  | Err e => Some (Err e)
  | Ok cfg =>
      match validate_plugin_graph cfg with
      | None => None
      | Some (Err e) => Some (Err e)
      | Some (Ok _) => Some (let? _ := validate_settings cfg in build_validated cfg)
      end
  end.

(** @src src/src/runtime.rs 224-237 Runtime::validate_service *)
Definition validate_service (rt : Runtime) : Res unit :=
  if bool_decide (cf_api_http (rt_config rt) = None)
     && forallb (λ s, bool_decide (sc_listeners s = [])) (cf_servers (rt_config rt))
  then Err (ErrConfig "no listeners configured — add a server or admin API")
  else Ok tt.

(** ** Reloading *)

(** [Live] holds the current runtime: [get] is its value, [swap] replaces it.  The
    result is the runtime that is live afterwards.
    @src src/src/runtime.rs 86-100 Live::reload_file *)
Definition reload_file (previous : Runtime) (path : string) : option (Runtime * Res unit) :=
  match config_load_file path with
  | None => None
  | Some (Err e) => Some (previous, Err e)
  | Some (Ok cfg) =>
      match runtime_build cfg with
      | None => None
      | Some (Err e) => Some (previous, Err e)
      | Some (Ok rt) =>
          if negb (bool_decide (cf_servers (rt_config previous) = cf_servers (rt_config rt)))
             || negb (bool_decide (cf_api_http (rt_config previous) = cf_api_http (rt_config rt)))
          then Some (previous, Err (ErrConfig "listener, entry or API changes require a process restart"))
          else if negb (bool_decide (cf_log (rt_config previous) = cf_log (rt_config rt)))
          then Some (previous, Err (ErrConfig "logging changes require a process restart"))
          else Some (rt, Ok tt)
      end
  end.
End build.

(** ** What [build] guarantees *)
Section built.
Context {H : Hickory} {N : IpNetLib} {Rx : RegexLib} {Y : Yaml} {E : ConfigEnv}.
Context {HT : HttpLib} {L : ListenerLib} {O : HashOrder} {LL : LogLib}.

(** The plugin of the configuration an executable comes from. *)
Definition comes_from (p : PluginConfig) (o : ExecObj) : Prop :=
  pc_ty p ∉ ["domain_set"; "ip_set"] ∧
  match o with
  | XSequence s => pc_ty p = "sequence" ∧ ∃ raw sets, parse_steps (pc_args p) = Ok raw
                     ∧ compile_steps (plugin_tag p) raw sets = Ok s
  | XFallback f => pc_ty p = "fallback" ∧ fallback_from_args (plugin_tag p) (pc_args p) = Ok f
  | XForward f => forward_wf f
  | XCache c => pc_ty p = "cache" ∧ c = cache_from_args (plugin_tag p) (pc_args p)
  | _ => True
  end.

Definition provided (plugins : list PluginConfig) (tag : string) (o : ExecObj) : Prop :=
  ∃ p, p ∈ plugins ∧ plugin_tag p = tag ∧ comes_from p o.

(** What the loop over the plugins keeps. *)
Record builder_ok (plugins : list PluginConfig) (b : Builder) : Prop := mkBuilderOk {
  bo_execs : map_Forall (provided plugins) (bd_execs b);
  bo_caches : map_Forall (λ tag c, bd_execs b !! tag = Some (XCache c)) (bd_caches b);
  bo_seq : Forall (λ '(tag, args), ∃ p, p ∈ plugins ∧ plugin_tag p = tag ∧ pc_ty p = "sequence" ∧ pc_args p = args) (bd_seq b);
  bo_fb : Forall (λ '(tag, f), provided plugins tag (XFallback f)) (bd_fb b);
}.

(** The parts of [bd_execs] the loop has not reached are empty. *)
Definition fresh_tag (b : Builder) (tag : string) : Prop := bd_execs b !! tag = None.

Lemma add_exec_ok plugins b p o :
  p ∈ plugins → comes_from p o → fresh_tag b (plugin_tag p) →
  builder_ok plugins b → builder_ok plugins (add_exec (plugin_tag p) o b).
Proof.
  intros Hp Ho Hf [He Hc Hs Hfb]. split; simpl; [|intros tag c Htag|done..].
  - apply map_Forall_insert_2; [by exists p|done].
  - rewrite lookup_insert_ne; [by apply Hc|]. intros <-. specialize (Hc _ _ Htag). congruence.
Qed.

Lemma build_plugin_ok plugins b p b' :
  p ∈ plugins → fresh_tag b (plugin_tag p) → builder_ok plugins b → build_plugin b p = Ok b' →
  builder_ok plugins b' ∧ ∀ tag, tag ≠ plugin_tag p → bd_execs b' !! tag = bd_execs b !! tag.
Proof.
  intros Hp Hf Hb Hbuild. unfold build_plugin in Hbuild.
  assert (Hadd : ∀ o, comes_from p o → builder_ok plugins (add_exec (plugin_tag p) o b)
            ∧ ∀ tag, tag ≠ plugin_tag p → bd_execs (add_exec (plugin_tag p) o b) !! tag = bd_execs b !! tag).
  { intros o Ho. split; [by apply add_exec_ok|]. intros tag Htag. simpl. by rewrite lookup_insert_ne. }
  repeat case_decide; simp_res; try (apply Hadd; split; [set_solver|done]).
  - destruct Hb. by split.
  - destruct Hb. by split.
  - destruct (Hadd (XCache (cache_from_args (plugin_tag p) (pc_args p)))) as [[He Hc Hs Hfb] Hx]; [by split; [set_solver|]|].
    split; [|done]. split; [done| |done..]. simpl. apply map_Forall_insert_2; [by rewrite lookup_insert_eq|].
    intros t c Ht. apply (Hc t c Ht).
  - apply Hadd. split; [set_solver|by eapply forward_from_args_wf].
  - destruct Hb as [He Hc Hs Hfb]. split; [split|]; simpl; try done. apply Forall_app. split; [done|].
    constructor; [eauto|constructor].
  - destruct Hb as [He Hc Hs Hfb]. split; [split|]; simpl; try done. apply Forall_app. split; [done|].
    constructor; [|constructor]. exists p. split; [done|]. split; [done|]. split; [set_solver|done].
Qed.

Lemma build_plugins_ok plugins ps b b' :
  ps ⊆ plugins → NoDup (plugin_tag <$> ps) → Forall (λ p, fresh_tag b (plugin_tag p)) ps →
  builder_ok plugins b → result_foldM build_plugin b ps = Ok b' → builder_ok plugins b'.
Proof.
  intros Hsub Hn. revert b. induction ps as [|p ps IH]; intros b Hf Hb; simpl; [by intros [= <-]|].
  intros (b1 & H1 & H2)%result_bind_Ok. apply Forall_cons in Hf as [Hp Hf].
  apply NoDup_cons in Hn as [Hnp Hn].
  destruct (build_plugin_ok plugins b p b1) as [Hb1 Hsame]; [set_solver|done..|].
  apply (IH ltac:(set_solver) Hn b1); [|done|done].
  apply Forall_forall. intros q Hq. rewrite Forall_forall in Hf. unfold fresh_tag. rewrite Hsame; [by apply Hf|].
  intros E'. apply Hnp. rewrite <- E'. by apply list_elem_of_fmap_2.
Qed.

(** The first loop of the validation: the tags are distinct, and every executable
    has its calls among the edges. *)
Lemma add_edges_spec plugins tags edges tags' edges' :
  result_foldM add_edges (tags, edges) plugins = Ok (tags', edges') →
  NoDup (plugin_tag <$> plugins)
  ∧ Forall (λ p, plugin_tag p ∉ tags) plugins
  ∧ (∀ t, t ∈ tags → edges' !! t = edges !! t)
  ∧ Forall (λ p, pc_ty p ∉ ["domain_set"; "ip_set"] →
        ∃ calls, edges' !! plugin_tag p = Some calls ∧ plugin_calls p = Ok calls) plugins.
Proof.
  revert tags edges. induction plugins as [|p plugins IH]; intros tags edges; cbn [result_foldM].
  { intros [= <- <-]. repeat split; constructor. }
  intros ([tags1 edges1] & H1 & H2)%result_bind_Ok. unfold add_edges in H1.
  destruct (_ || _); [done|]. case_decide as Hin; [done|].
  destruct (IH _ _ H2) as (Hn & Hfresh & Hsame & Hall).
  assert (Ht1 : tags1 = {[plugin_tag p]} ∪ tags) by (case_decide; simp_res; done).
  assert (He1 : ∀ t, t ≠ plugin_tag p → edges1 !! t = edges !! t).
  { intros t Ht. case_decide; simp_res; [done|]. by rewrite lookup_insert_ne. }
  assert (Hcalls : pc_ty p ∉ ["domain_set"; "ip_set"] →
            ∃ calls, edges1 !! plugin_tag p = Some calls ∧ plugin_calls p = Ok calls).
  { intros Hty. rewrite decide_False in H1 by done. simp_res.
    eexists. split; [by rewrite lookup_insert_eq|done]. }
  clear H1. subst tags1. rewrite Forall_forall in Hfresh. split; [|split; [|split]].
  - apply NoDup_cons. split; [|done]. intros [q [Eq Hq]]%list_elem_of_fmap. specialize (Hfresh q Hq). set_solver.
  - constructor; [done|]. apply Forall_forall. intros q Hq. specialize (Hfresh q Hq). set_solver.
  - intros t Ht. rewrite Hsame by set_solver. apply He1. by intros ->.
  - constructor; [|done]. intros (calls & Hc & ?)%Hcalls. exists calls. split; [|done].
    rewrite Hsame by set_solver. done.
Qed.

(** The calls a sequence makes are those the validation read from its text. *)
Lemma compiled_calls tag raw sets s p calls :
  pc_ty p = "sequence" → parse_steps (pc_args p) = Ok raw → compile_steps tag raw sets = Ok s →
  plugin_calls p = Ok calls → sequence_calls s = calls.
Proof.
  intros Hty Hraw Hs. unfold plugin_calls. rewrite decide_True, Hraw by done. simpl. clear Hty Hraw.
  unfold compile_steps in Hs. apply result_bind_Ok in Hs as (steps & Hs & [= <-]).
  unfold sequence_calls. cbn [sq_steps]. apply result_mapM_Ok in Hs.
  enough (Hgo : ∀ acc, result_foldM add_step_call acc raw = Ok calls →
            acc ++ (s ← steps; step_calls (st_exec s)) = calls) by apply (Hgo []).
  induction Hs as [|r st raw steps Hr _ IH]; intros acc; simpl.
  { rewrite app_nil_r. by intros [= <-]. }
  apply result_bind_Ok in Hr as (ms & _ & Hr). apply result_bind_Ok in Hr as (e & He & [= <-]).
  intros (acc' & H1 & H2)%result_bind_Ok. apply IH in H2 as <-. cbn [st_exec].
  rewrite app_assoc. f_equal. unfold parse_exec in He. unfold add_step_call in H1.
  destruct (strip_prefix "$" (trim (rs_exec r))) as [t|]; [by simp_res|].
  apply result_bind_Ok in He as (b & Hb & [= <-]). rewrite Hb in H1. simpl in H1.
  destruct b; simp_res; by rewrite ?app_nil_r.
Qed.

(** A runtime that [build] returned. *)
Record runtime_ok (rt : Runtime) (rank : string → nat) : Prop := mkRuntimeOk {
  rto_ready : rg_ready (rt_registry rt) = true;
  rto_execs : map_Forall (λ tag o, 1 ≤ rank tag ≤ MAX_PIPELINE_DEPTH
      ∧ Forall (λ t, rank t < rank tag ∧ is_Some (rg_execs (rt_registry rt) !! t)) (obj_calls o)
      ∧ match o with
        | XForward f => forward_wf f
        | XCache c => ca_tag c = tag
        | _ => True
        end) (rg_execs (rt_registry rt));
  rto_caches : map_Forall (λ tag c, rg_execs (rt_registry rt) !! tag = Some (XCache c)) (rg_caches (rt_registry rt));
  rto_entries : Forall (λ s, is_Some (rg_execs (rt_registry rt) !! sc_exec s)) (cf_servers (rt_config rt));
  rto_tags : map_Forall (λ tag _, entry_normal tag) (rg_execs (rt_registry rt));
}.

Lemma bind_cache_refresh_ok rt rank : runtime_ok rt rank → runtime_ok (bind_cache_refresh rt) rank.
Proof.
  intros [Hready He Hc Hs Ht]. unfold bind_cache_refresh.
  destruct (rg_default_entry (rt_registry rt)) as [entry|]; [|done]. split; simpl; [done|..].
  - intros tag o. rewrite lookup_fmap_Some. intros (o' & <- & Ho). destruct (He _ _ Ho) as (Hr & Hcalls & Hobj).
    split; [done|].
    assert (Hcalls' : Forall (λ t, rank t < rank tag ∧ is_Some (((λ o, match o with
              | XCache c => XCache (bind_refresh entry c) | o => o end) <$> rg_execs (rt_registry rt)) !! t))
              (obj_calls o')).
    { eapply Forall_impl; [exact Hcalls|]. intros t [? ?]. by rewrite lookup_fmap, fmap_is_Some. }
    by destruct o'.
  - intros tag c. rewrite lookup_fmap_Some. intros (c' & <- & Hc'). rewrite lookup_fmap, (Hc _ _ Hc'). done.
  - eapply Forall_impl; [exact Hs|]. intros s Hx. by rewrite lookup_fmap, fmap_is_Some.
  - intros tag o. rewrite lookup_fmap_Some. intros (o' & _ & Ho). by apply (Ht _ _ Ho).
Qed.

(** The executables that are inserted after the loop. *)
Lemma foldl_insert_Forall {A} (Q : string → ExecObj → Prop) (f : A → ExecObj) (l : list (string * A)) (m : gmap string ExecObj) :
  map_Forall Q m → Forall (λ '(tag, a), Q tag (f a)) l →
  map_Forall Q (foldl (λ m '(tag, a), <[tag := f a]> m) m l).
Proof.
  intros Hm Hl. revert m Hm. induction Hl as [|[tag a] l Ha _ IH]; intros m Hm; simpl; [done|].
  by apply IH, map_Forall_insert_2.
Qed.

Lemma foldl_insert_same {A} (f : A → ExecObj) (l : list (string * A)) (m : gmap string ExecObj) t :
  t ∉ l.*1 → foldl (λ m '(tag, a), <[tag := f a]> m) m l !! t = m !! t.
Proof.
  revert m. induction l as [|[tag a] l IH]; intros m Ht; simpl in *; [done|].
  rewrite IH by set_solver. rewrite lookup_insert_ne by set_solver. done.
Qed.

Lemma NoDup_fmap_inj {A B} (f : A → B) l x y : NoDup (f <$> l) → x ∈ l → y ∈ l → f x = f y → x = y.
Proof.
  induction l as [|a l IH]; intros Hn Hx Hy E'; [set_solver|]. apply NoDup_cons in Hn as [Ha Hn].
  apply elem_of_cons in Hx as [->|Hx]; apply elem_of_cons in Hy as [->|Hy]; [done|..|by apply IH].
  - destruct Ha. rewrite E'. by apply list_elem_of_fmap_2.
  - destruct Ha. rewrite <- E'. by apply list_elem_of_fmap_2.
Qed.

(** The compiled sequences, and the tags of what is inserted last. *)
Lemma compile_pending_spec b compiled :
  compile_pending b = Ok compiled →
  Forall (λ '(tag, s), ∃ args raw sets, (tag, args) ∈ bd_seq b ∧ parse_steps args = Ok raw
            ∧ compile_steps tag raw sets = Ok s) compiled.
Proof.
  unfold compile_pending. rewrite result_mapM_Ok. intros Hf. apply Forall_forall. intros [tag s] Hin.
  apply list_elem_of_lookup in Hin as [i Hi]. destruct (Forall2_lookup_r _ _ _ _ _ Hf Hi) as ([tag' args] & Hj & Hs).
  apply result_bind_Ok in Hs as (raw & Hraw & Hs). apply result_bind_Ok in Hs as (s' & Hs & [= <- <-]).
  exists args, raw, (mkSets (bd_domains b) (bd_ips b)). split; [|done]. by eapply list_elem_of_lookup_2.
Qed.

(** Every executable of the final map comes from a plugin, and no cache was
    overwritten. *)
Lemma final_execs plugins b compiled (execs : gmap string ExecObj) :
  NoDup (plugin_tag <$> plugins) → builder_ok plugins b → compile_pending b = Ok compiled →
  execs = foldl (λ m '(tag, f), <[tag := XFallback f]> m)
            (foldl (λ m '(tag, s), <[tag := XSequence s]> m) (bd_execs b) compiled) (bd_fb b) →
  map_Forall (provided plugins) execs
  ∧ map_Forall (λ tag c, execs !! tag = Some (XCache c)) (bd_caches b).
Proof.
  intros Hn [He Hc Hs Hfb] Hcomp%compile_pending_spec ->.
  assert (Hseq : Forall (λ '(tag, s), provided plugins tag (XSequence s)) compiled).
  { eapply Forall_impl; [exact Hcomp|]. intros [tag s] (args & raw & sets & Hin & Hraw & Hs').
    rewrite Forall_forall in Hs. destruct (Hs _ Hin) as (p & Hp & <- & Hty & <-). exists p.
    split; [done|]. split; [done|]. split; [rewrite Hty; set_solver|]. eauto 6. }
  split; [by apply foldl_insert_Forall; [apply foldl_insert_Forall|]|].
  intros tag c Htag. pose proof (Hc _ _ Htag) as Hx. destruct (He _ _ Hx) as (p & Hp & Hpt & _ & Hty & _).
  assert (Hno : ∀ o, provided plugins tag o → match o with XSequence _ | XFallback _ => False | _ => True end).
  { intros o (q & Hq & Hqt & _ & Ho).
    assert (p = q) as <- by (eapply (NoDup_fmap_inj plugin_tag); [exact Hn|done|done|congruence]).
    destruct o; try done; destruct Ho as [Ho _]; rewrite Hty in Ho; done. }
  rewrite foldl_insert_same; [rewrite foldl_insert_same; [done|]|]; intros [[t x] [-> Hin]]%list_elem_of_fmap.
  - rewrite Forall_forall in Hseq. apply (Hno _ (Hseq _ Hin)).
  - rewrite Forall_forall in Hfb. apply (Hno _ (Hfb _ Hin)).
Qed.

Lemma builder_new_ok plugins : builder_ok plugins (mkBuilder ∅ ∅ ∅ ∅ [] []).
Proof. split; simpl; try constructor; apply map_Forall_empty. Qed.

(** The calls of an executable are the edges of its plugin. *)
Lemma provided_calls plugins tags edges tag o :
  result_foldM add_edges (∅, ∅) plugins = Ok (tags, edges) → provided plugins tag o →
  ∃ calls, edges !! tag = Some calls ∧ obj_calls o ⊆ calls.
Proof.
  intros He (p & Hp & <- & Hty & Ho). apply add_edges_spec in He as (_ & _ & _ & Hall).
  rewrite Forall_forall in Hall. destruct (Hall p Hp Hty) as (calls & Hc & Hcalls).
  exists calls. split; [done|]. destruct o; simpl; try set_solver.
  - destruct Ho as (Hs & raw & sets & Hraw & Hcomp). by rewrite (compiled_calls _ _ _ _ _ _ Hs Hraw Hcomp Hcalls).
  - destruct Ho as (Hf & Hfb). unfold plugin_calls in Hcalls. rewrite decide_False in Hcalls by (by rewrite Hf).
    rewrite decide_True, Hfb in Hcalls by done. by injection Hcalls as <-.
Qed.

(** Every executable plugin of the configuration is built. *)
Definition reaches (b : Builder) (tag : string) : Prop :=
  is_Some (bd_execs b !! tag) ∨ tag ∈ (bd_seq b).*1 ∨ tag ∈ (bd_fb b).*1.

Lemma build_plugin_reaches b p b' :
  build_plugin b p = Ok b' →
  (pc_ty p ∉ ["domain_set"; "ip_set"] → reaches b' (plugin_tag p)) ∧ (∀ t, reaches b t → reaches b' t).
Proof.
  intros Hb.
  assert (Hexec : ∀ o (b1 : Builder), bd_execs b1 = <[plugin_tag p := o]> (bd_execs b) → bd_seq b1 = bd_seq b →
            bd_fb b1 = bd_fb b →
            (pc_ty p ∉ ["domain_set"; "ip_set"] → reaches b1 (plugin_tag p)) ∧ ∀ t, reaches b t → reaches b1 t).
  { intros o b1 E1 E2 E3. unfold reaches. rewrite E1, E2, E3. rewrite lookup_insert_eq. split; [by left; eauto|].
    intros t [Ht|Ht]; [|by right]. left. destruct (decide (t = plugin_tag p)) as [->|Hne].
    - rewrite lookup_insert_eq. eauto.
    - by rewrite lookup_insert_ne. }
  unfold build_plugin in Hb.
  repeat case_decide; simp_res;
    try (eapply Hexec; reflexivity);
    (split; [intros Hty|unfold reaches; simpl; intros t; rewrite ?fmap_app, ?elem_of_app; tauto]).
  - destruct Hty. set_solver.
  - destruct Hty. set_solver.
  - right. left. simpl. rewrite fmap_app. set_solver.
  - right. right. simpl. rewrite fmap_app. set_solver.
Qed.

Lemma build_plugins_reach ps b b' :
  result_foldM build_plugin b ps = Ok b' →
  (∀ p, p ∈ ps → pc_ty p ∉ ["domain_set"; "ip_set"] → reaches b' (plugin_tag p)) ∧ (∀ t, reaches b t → reaches b' t).
Proof.
  revert b. induction ps as [|p ps IH]; intros b; simpl.
  { intros [= <-]. split; [set_solver|done]. }
  intros (b1 & [H1 H2]%build_plugin_reaches & [H3 H4]%IH)%result_bind_Ok. split; [|auto].
  intros q [->|Hq]%elem_of_cons Hty; auto.
Qed.

Lemma add_edges_keys plugins tags edges tags' edges' t :
  result_foldM add_edges (tags, edges) plugins = Ok (tags', edges') → is_Some (edges' !! t) →
  is_Some (edges !! t) ∨ ∃ p, p ∈ plugins ∧ plugin_tag p = t ∧ pc_ty p ∉ ["domain_set"; "ip_set"].
Proof.
  revert tags edges. induction plugins as [|p plugins IH]; intros tags edges; cbn [result_foldM].
  { intros [= <- <-]. by left. }
  intros ([tags1 edges1] & H1 & H2)%result_bind_Ok Ht.
  destruct (IH _ _ H2 Ht) as [Ht1|(q & ? & ? & ?)]; [|right; exists q; set_solver].
  unfold add_edges in H1. destruct (_ || _); [done|]. case_decide; [done|].
  case_decide; simp_res; [by left|].
  destruct (decide (t = plugin_tag p)) as [->|Hne]; [right; exists p; set_solver|].
  left. by rewrite lookup_insert_ne in Ht1.
Qed.

(** The tags the validation lets through: no [$], no whitespace. *)
Lemma add_edges_tags plugins st st' :
  result_foldM add_edges st plugins = Ok st' → Forall (λ p, entry_normal (plugin_tag p)) plugins.
Proof.
  revert st. induction plugins as [|p plugins IH]; intros [tags edges]; cbn [result_foldM]; [constructor|].
  intros (st1 & H1 & H2)%result_bind_Ok. constructor; [|by eapply IH].
  unfold add_edges in H1. destruct (bool_decide _ || _ || _) eqn:Ek; [done|].
  apply orb_false_iff in Ek as [[_ Hd]%orb_false_iff Hw]. split; [|done].
  clear H1 H2. destruct (plugin_tag p) as [|a t]; [done|]. cbn [trim_start_matches]. case_decide as Ha; [|done].
  apply bool_decide_eq_false in Hd. destruct Hd. subst a. by exists t.
Qed.

Lemma foldl_insert_some {A} (f : A → ExecObj) (l : list (string * A)) (m : gmap string ExecObj) t :
  is_Some (m !! t) ∨ t ∈ l.*1 → is_Some (foldl (λ m '(tag, a), <[tag := f a]> m) m l !! t).
Proof.
  revert m. induction l as [|[tag a] l IH]; intros m Ht; simpl in *; [destruct Ht; [done|set_solver]|].
  apply IH. destruct (decide (t = tag)) as [->|Hne]; [left; rewrite lookup_insert_eq; eauto|].
  destruct Ht as [Ht|[Ht|Ht]%elem_of_cons]; [left|done|by right]. by rewrite lookup_insert_ne.
Qed.

Lemma compile_pending_tags b compiled : compile_pending b = Ok compiled → compiled.*1 = (bd_seq b).*1.
Proof.
  unfold compile_pending. rewrite result_mapM_Ok. induction 1 as [|[t a] [t' s] l k Hs _ IH]; [done|].
  rewrite !fmap_cons, IH. f_equal. apply result_bind_Ok in Hs as (raw & _ & Hs).
  by apply result_bind_Ok in Hs as (s' & _ & [= -> _]).
Qed.

Lemma result_mapM_Forall {A B} (f : A → Res B) (Q : A → Prop) l k :
  result_mapM f l = Ok k → (∀ x y, f x = Ok y → Q x) → Forall Q l.
Proof. rewrite result_mapM_Ok. intros Hf HQ. induction Hf; constructor; eauto. Qed.

Context {OL : HashOrderLaws O}.

Lemma build_validated_ok cfg rt tags edges rank :
  result_foldM add_edges (∅, ∅) (cf_plugins cfg) = Ok (tags, edges) → layered edges rank →
  build_validated cfg = Ok rt → runtime_ok rt rank.
Proof.
  intros Hedges [Hclosed Hrank] Hb. unfold build_validated in Hb.
  apply result_bind_Ok in Hb as (b & Hbd & Hb). apply result_bind_Ok in Hb as (servers & Hsv & Hb).
  apply result_bind_Ok in Hb as (compiled & Hcomp & Hb). apply result_bind_Ok in Hb as (xs & Hentries & [= <-]).
  pose proof (add_edges_spec _ _ _ _ _ Hedges) as (Hn & _).
  assert (Hbo : builder_ok (cf_plugins cfg) b).
  { eapply build_plugins_ok; [reflexivity|done| |apply builder_new_ok|exact Hbd]. apply Forall_forall. by intros. }
  destruct (build_plugins_reach _ _ _ Hbd) as [Hreach _].
  match type of Hentries with context [mkRegistry ?m] => set (execs := m) in * end.
  destruct (final_execs _ b compiled execs Hn Hbo Hcomp eq_refl) as [Hprov Hcaches].
  assert (Hin : ∀ t, is_Some (edges !! t) → is_Some (execs !! t)).
  { intros t Ht. destruct (add_edges_keys _ _ _ _ _ t Hedges Ht) as [[x Hx]|(p & Hp & <- & Hty)]; [done|].
    apply foldl_insert_some. destruct (Hreach p Hp Hty) as [?|[?|?]]; [left|left|by right];
      apply foldl_insert_some; [by left|right]. by rewrite (compile_pending_tags _ _ Hcomp). }
  apply bind_cache_refresh_ok. split; simpl; [done| |exact Hcaches| |].
  - intros tag o Ho. destruct (provided_calls _ _ _ _ _ Hedges (Hprov _ _ Ho)) as (calls & Hc & Hsub).
    destruct (Hrank _ _ Hc) as [Hr Hcalls]. specialize (Hclosed _ _ Hc). rewrite Forall_forall in Hcalls, Hclosed.
    split; [done|]. split; [apply Forall_forall; intros t Ht; split; [auto|by apply Hin, Hclosed, Hsub]|].
    destruct (Hprov _ _ Ho) as (p & _ & <- & _ & Hobj). destruct o; try done. by destruct Hobj as [_ ->].
  - eapply result_mapM_Forall; [exact Hentries|]. intros s o. unfold get_exec. simpl. destruct (execs !! sc_exec s); [eauto|done].
  - intros tag o Ho. destruct (Hprov _ _ Ho) as (p & Hp & <- & _). apply add_edges_tags in Hedges.
    rewrite Forall_forall in Hedges. by apply Hedges.
Qed.

Lemma runtime_build_spec cfg :
  ∃ r, runtime_build cfg = Some r ∧ ∀ rt, r = Ok rt → ∃ rank, runtime_ok rt rank.
Proof.
  unfold runtime_build. destruct (normalize_entries cfg) as [cfg'|e]; [|by eexists].
  unfold validate_plugin_graph. destruct (result_foldM add_edges _ _) as [[tags edges]|e] eqn:Ee; [|by eexists].
  destruct (validate_edges_spec edges) as (r & -> & Hiff). destruct r as [[]|e]; [|by eexists].
  eexists. split; [done|]. intros rt (u & _ & Hb)%result_bind_Ok.
  destruct (proj1 Hiff eq_refl) as [rank Hl]. exists rank. by eapply build_validated_ok.
Qed.

(** The listeners of a built runtime have been validated. *)
Lemma built_listeners cfg rt :
  runtime_build cfg = Some (Ok rt) →
  Forall (λ s, Forall (λ l, validate_listener l = Ok tt) (sc_listeners s)) (cf_servers (rt_config rt)).
Proof.
  unfold runtime_build. destruct (normalize_entries cfg) as [cfg'|e]; [|done].
  destruct (validate_plugin_graph cfg') as [[]|]; [|done..]. intros [= Hb]. apply result_bind_Ok in Hb as ([] & Hv & Hb).
  unfold validate_settings in Hv. apply result_bind_Ok in Hv as (? & _ & Hv). case_match; [done|].
  apply result_bind_Ok in Hv as (? & _ & Hv). apply (proj1 (result_foldM_checks _ _)) in Hv. unfold build_validated in Hb.
  apply result_bind_Ok in Hb as (b & _ & Hb). apply result_bind_Ok in Hb as (servers & Hs & Hb).
  apply result_bind_Ok in Hb as (compiled & _ & Hb).
  assert (Hc : ∀ rt, rt_config (bind_cache_refresh rt) = rt_config rt) by (intros r; unfold bind_cache_refresh; by destruct (rg_default_entry (rt_registry r))).
  cbv zeta in Hb. apply result_bind_Ok in Hb as (u & _ & Hb). assert (rt = _) as -> by (by injection Hb).
  rewrite Hc. cbn [rt_config cf_servers]. apply result_mapM_Ok in Hs. clear -Hv Hs.
  induction Hs as [|s s' ss ss' Hs _ IH]; [done|]. apply Forall_cons in Hv as [Hv Hvs]. constructor; [|by apply IH].
  apply result_foldM_checks in Hv. unfold server_with_entry in Hs. case_decide; [|by injection Hs as <-].
  apply result_bind_Ok in Hs as (? & _ & [= <-]). done.
Qed.
End built.

(** ** Properties *)

(** C22: building a runtime always ends, for any configuration, with a runtime or
    an error; a runtime it returns is ready, every chain of calls among its
    executables has at most 64 of them and every call finds its target, every
    [forward] has an upstream, every cache is registered under its own tag in
    both maps, every server entry is an executable, and no tag has blanks or a
    leading [$], so that a reference to it can be read in only one way. *)
Theorem runtime_build_ok {H : Hickory} {N : IpNetLib} {Rx : RegexLib} {Y : Yaml} {E : ConfigEnv}
    {HT : HttpLib} {L : ListenerLib} {O : HashOrder} {LL : LogLib} {OL : HashOrderLaws O} (cfg : Config) :
  ∃ r, runtime_build cfg = Some r ∧ ∀ rt, r = Ok rt → ∃ rank, runtime_ok rt rank.
Proof. apply runtime_build_spec. Qed.

Section pipelines.
Context {H : Hickory} {HL : HickoryLaws H} {N : IpNetLib} {Rx : RegexLib} {T : TlsLib} {Y : Yaml}.
Context (P : Protocol) (HP : ambient P).

(** The caches of a registry may be used under the protocol. *)
Definition caches_allowed (reg : Registry) : Prop :=
  ∀ tag c, rg_execs reg !! tag = Some (XCache c) → cache_allowed P c.

(** One unit of fuel per level of calls. *)
Lemma steps_runtime rt rank tag o :
  runtime_ok rt rank → caches_allowed (rt_registry rt) →
  rg_execs (rt_registry rt) !! tag = Some o → steps P (exec_obj MAX_PIPELINE_DEPTH (rt_registry rt) o).
Proof.
  intros [_ He Hc _ _] Hca Ho. eapply (steps_exec_obj P HP _ rank); [|done|by apply (He _ _ Ho)]. split.
  - intros t x Hx. destruct (He _ _ Hx) as (_ & _ & Hobj). destruct x; try done. by eapply Hca.
  - intros t c Ht. eapply Hca, Hc, Ht.
  - intros t x Hx. destruct (He _ _ Hx) as (Hr & Hcalls & _). split; [done|].
    eapply Forall_impl; [exact Hcalls|]. by intros ? [].
Qed.
End pipelines.


(** C34: reloading the configuration file always ends, and is all or nothing: on
    any error (unreadable file, invalid configuration, a change of the
    listeners, entries, API or logging) the runtime that was live stays; on
    success the new runtime is a complete one, and its servers, API address and
    logging are those of the old. *)
Theorem reload_file_atomic {H : Hickory} {N : IpNetLib} {Rx : RegexLib} {Y : Yaml} {E : ConfigEnv}
    {HT : HttpLib} {L : ListenerLib} {O : HashOrder} {LL : LogLib} {OL : HashOrderLaws O}
    (previous : Runtime) (path : string) :
  ∃ live r, reload_file previous path = Some (live, r)
    ∧ match r with
      | Err _ => live = previous
      | Ok _ => (∃ rank, runtime_ok live rank)
                ∧ cf_servers (rt_config live) = cf_servers (rt_config previous)
                ∧ cf_api_http (rt_config live) = cf_api_http (rt_config previous)
                ∧ cf_log (rt_config live) = cf_log (rt_config previous)
      end.
Proof.
  unfold reload_file.
  destruct (config_load_returns path) as (r & -> & _).
  destruct r as [cfg|e]; [|by eexists _, _].
  destruct (runtime_build_spec cfg) as (r & -> & Hok). destruct r as [rt|e]; [|by eexists _, _].
  repeat case_bool_decide; eexists _, _; (split; [reflexivity|]); try done.
  by split; [apply Hok|].
Qed.

(** ** A configuration for the witnesses

    [main] runs the cache [c1], a filter and then the fallback [fb]; [fb] prefers
    the upstream over a refusal. *)
#[export] Instance DemoLog : LogLib := {| level_filter s := if decide (s = "info") then Ok tt else Err "bad level" |}.

Definition d_plugin (tag ty : string) (args : YValue) : PluginConfig := mkPluginConfig (Some tag) ty args ".".
Definition d_config : Config :=
  mkConfig default_log []
    [d_plugin "c1" "cache" (DMap [(DStr "lazy_cache_ttl", DNum 86400)]);
     d_plugin "up" "forward" (DMap [(DStr "upstream", DStr "9.9.9.9")]);
     d_plugin "no" "black_hole" (DMap [(DStr "rcode", DStr "REFUSED")]);
     d_plugin "fb" "fallback" (DMap [(DStr "primary", DStr "up"); (DStr "secondary", DStr "no")]);
     d_plugin "main" "sequence" (DSeq [DStr "$c1";
       DMap [(DStr "matches", DStr "has_resp"); (DStr "exec", DStr "accept")]; DStr "goto fb"])]
    [mkServerConfig "main" 5
       [mkListenerConfig "udp" "127.0.0.1:53" None None None None None;
        mkListenerConfig "tls" "127.0.0.1:853" (Some "/etc/dns.pem") (Some "/etc/dns.pem") None None None]] None ".".

(** A clock that stays a century away from the end of time. *)
Definition d_run_protocol : Protocol :=
  mkProtocol (λ e, match e return reply e → Prop with ENow => λ now, (0 ≤ now ≤ secs (2 ^ 32))%Z | _ => λ _, True end)
    (λ _, True) (λ _ _, True) (λ _, True).
Lemma d_run_ambient : ambient d_run_protocol.
Proof. by split. Qed.

Lemma d_run_cache_allowed c : (0 ≤ ca_lazy_ttl c ≤ secs (2 ^ 32))%Z → cache_allowed d_run_protocol c.
Proof.
  intros Hl. split; try done. intros wire min now Hnow Hm. cbn in Hnow. unfold make_entry, instant_add, secs, u32_max, instant_max in *.
  assert (min * 1000000000 ≤ 4294967295 * 1000000000)%Z by lia.
  destruct (Z.leb_spec (now + min * 1000000000) (9223372036854775807 * 1000000000 + 999999999)); [|lia].
  simpl. destruct (0 <? ca_lazy_ttl c)%Z; [|simpl; eauto].
  destruct (Z.leb_spec (now + ca_lazy_ttl c) (9223372036854775807 * 1000000000 + 999999999)); [|lia]. simpl. eauto.
Qed.

Definition built (r : option (Res Runtime)) : Runtime :=
  match r with Some (Ok rt) => rt | _ => mkRuntime (mkRegistry ∅ ∅ ∅ ∅ None false) d_config end.
Lemma built_spec r : match r with Some (Ok _) => true | _ => false end = true → r = Some (Ok (built r)).
Proof. by destruct r as [[rt|e]|]. Qed.

Definition d_runtime : Runtime := built (runtime_build d_config).
Lemma d_runtime_built : runtime_build d_config = Some (Ok d_runtime).
Proof. apply built_spec. by vm_compute. Qed.

(** [Some] of the value found, without computing it. *)
Lemma lookup_found {A} (o : option A) : match o with Some _ => true | None => false end = true → ∃ a, o = Some a.
Proof. destruct o; [eauto|done]. Qed.

Lemma d_runtime_caches : caches_allowed d_run_protocol (rt_registry d_runtime).
Proof.
  assert (Hall : forallb (λ p, match p.2 with
            | XCache c => (0 <=? ca_lazy_ttl c)%Z && (ca_lazy_ttl c <=? secs (2 ^ 32))%Z
            | _ => true end) (map_to_list (rg_execs (rt_registry d_runtime))) = true) by (by vm_compute).
  intros tag c Hc. apply d_run_cache_allowed. rewrite forallb_elem in Hall.
  specialize (Hall (tag, XCache c) (proj2 (elem_of_map_to_list _ _ _) Hc)). simpl in Hall. lia.
Qed.

(** The demo runtime, and a configuration with a cycle. *)
Lemma runtime_build_ok_witness :
  (∃ rank, runtime_ok d_runtime rank)
  ∧ match runtime_build (mkConfig default_log [] [d_plugin "a" "sequence" (DStr "$a")] [] None ".") with
    | Some (Err e) => e = ErrConfig "plugin reference cycle: a -> a"
    | _ => False
    end.
Proof.
  split; [|by vm_compute].
  destruct (runtime_build_ok d_config) as (r & Hr & Hok). rewrite d_runtime_built in Hr. injection Hr as <-.
  by apply Hok.
Defined.


(** A file that cannot be read leaves the runtime as it was. *)
Lemma reload_file_atomic_witness :
  ∃ e, reload_file d_runtime "/etc/none.yaml" = Some (d_runtime, Err e).
Proof.
  destruct (reload_file_atomic d_runtime "/etc/none.yaml") as (live & r & Hr & Hm).
  destruct r as [u|e]; [|exists e; by rewrite Hr, Hm].
  exfalso. assert (Hbad : match reload_file d_runtime "/etc/none.yaml" with Some (_, Ok _) => false | _ => true end = true)
    by (by vm_compute). by rewrite Hr in Hbad.
Defined.
