(* ===== verification/Server.v ===== *)
(** * [server.rs], second half: handling a query, and the three transports

    [handle] runs the pipeline of an entry under its time limit and finalises
    the reply.  [udp_packet], [serve_frame] and [doh_handle] are what one
    datagram, one frame of a stream and one HTTP request do with it.  The
    runtime is the one [Live::get] gives at that moment, by its number among
    those the server has had ([ELive]). *)
From S2P Require Import Prelude RustStr RustNet Error Hickory HickoryDemo External PublicIp.
From S2P Require Import DnsUtil Context Config DomainSet Matcher Upstream Shard Net Task Actions Ecs.
From S2P Require Import Hosts Cache Exchange Forward Fallback Sequence Graph Listener Runtime.

Section server.
Context {H : Hickory} {N : IpNetLib} {Rx : RegexLib} {T : TlsLib} {Y : Yaml}.

(** [Metrics::observe_query].
    @src src/src/metrics.rs 34-37 Metrics::observe_query *)
Definition observe_query {L} (latency_us : Z) : M L unit :=
  do! count Queries in
  sync (EMetric LatencyUsSum latency_us).

(** The end of [handle]: finalise, strip, count.
    @src src/src/server.rs 662-679 handle *)
Definition handle_finish : M QueryContext (Res unit) :=
  do! modify finalize_response in
  do! modify (λ ctx, if strip_ecs_on_reply ctx then with_response (remove_ecs <$> c_response ctx) ctx else ctx) in
  let! ctx := get in
  do! (if has_resp ctx then count Responses else count Dropped) in
  let! now := sync ENow in
  do! observe_query (elapsed_us now ctx) in
  ret (Ok tt).

(** What [handle] does with the outcome of the pipeline; [None]: the time ran out.
    @src src/src/server.rs 648-659 handle *)
Definition handle_outcome (r : option (Res Action)) : M QueryContext unit :=
  match r with
  | Some (Ok _) => ret tt
  | Some (Err _) => modify (λ ctx, if has_resp ctx then ctx else reject rc_ServFail ctx)
  | None => modify (reject rc_ServFail)
  end.

(** The pipeline of an executable; the depth of its calls is the fuel. *)
Definition run_pipeline (rt : Runtime) (o : ExecObj) (limit : Z) : M QueryContext (option (Res Action)) :=
  timeout limit (exec_obj MAX_PIPELINE_DEPTH (rt_registry rt) o).

(** @src src/src/server.rs 634-680 handle *)
Definition handle (rt : Runtime) (entry : string) (limit : Z) : M QueryContext (Res unit) := λ ctx,
  match classify_incoming (c_query ctx) with
  | IncomingDrop => Ret ctx (Ok tt)
  | IncomingNotImp => (do! modify (reject rc_NotImp) in handle_finish) ctx
  | IncomingOk =>
      (do! modify (begin_pipeline entry) in
       match get_exec (rt_registry rt) entry with
       | Err e => ret (Err e)
       | Ok o =>
           let! r := run_pipeline rt o limit in
           do! handle_outcome r in
           handle_finish
       end) ctx
  end.

(** @src src/src/runtime.rs 239-251 Runtime::handle_query *)
Definition handle_query (rt : Runtime) (entry : string) : M QueryContext (Res unit) :=
  handle rt (trim_start_matches "$" (trim entry)) (secs 5).

(** The query a refresh makes, while its runtime is still there.
    @src src/src/plugin/cache.rs 292-295 Cache::kick_refresh *)
Definition refresh_body (rt : Runtime) (r : Refresh) : M unit unit :=
  let! alive := sync EUpgrade in
  if alive : bool then let! _ := within (handle_query rt (rf_entry r)) (rf_ctx r) in ret tt else ret tt.

(** The body of the task a lazy hit spawns; the guard removes the mark however
    the task ends.
    @src src/src/plugin/cache.rs 287-297 Cache::kick_refresh *)
Definition refresh_task (rt : Runtime) (r : Refresh) : M unit unit :=
  do! refresh_body rt r in
  sync (EUnmark (rf_tag r) (rf_key r)).

(** [live.get()]; [live g] is the [g]-th runtime the server has had.
    @src src/src/runtime.rs 41-43 Live::get *)
Definition live_get {L} (live : nat → Runtime) : M L Runtime :=
  let! g := sync ELive in ret (live g).

(** [handle] with the runtime of the moment, on a context of its own. *)
Definition live_handle (live : nat → Runtime) (entry : string) (limit : Z) (ctx : QueryContext)
    : M unit (QueryContext * Res unit) :=
  let! rt := live_get live in
  within (handle rt entry limit) ctx.

(** ** UDP *)

(** @src src/src/server.rs 210-215 udp_loop *)
Definition udp_send (ctx : QueryContext) : M unit unit :=
  match c_response ctx with
  | Some resp =>
      let max := udp_payload_max (c_query ctx) in
      match encode_udp resp max with
      | Ok bytes => let! _ := suspend (ASendTo bytes) in ret tt
      | Err _ => ret tt
      end
  | None => ret tt
  end.

(** The task of one datagram.
    @src src/src/server.rs 181-216 udp_loop *)
Definition udp_packet (live : nat → Runtime) (entry : string) (limit : Z) (peer : IpAddr) (buf : list Z) : M unit unit :=
  match decode_msg buf with
  | Err _ => ret tt
  | Ok q =>
      match classify_incoming q with
      | IncomingDrop => ret tt
      | IncomingNotImp =>
          let! ctx := new_ctx q (Some peer) ProtoUdp in
          udp_send (reject rc_NotImp ctx)
      | IncomingOk =>
          let! ctx := new_ctx q (Some peer) ProtoUdp in
          let! (ctx, r) := live_handle live entry limit ctx in
          match r with
          | Err _ => ret tt
          | Ok _ => udp_send ctx
          end
      end
  end.

(** ** Streams *)

(** The three writes under one time limit; [flush] writes nothing more.
    @src src/src/server.rs 353-374 write_tcp_response *)
Definition write_tcp_response (idle : Z) (ctx : QueryContext) : M unit (Res unit) :=
  match c_response ctx with
  | None => ret (Ok tt)
  | Some resp =>
      match encode_msg resp with
      | Err e => ret (Err e)
      | Ok bytes =>
          let n := Z.of_nat (length bytes) in
          if (u16_max <? n)%Z then ret (Err (ErrProtocol "tcp payload too large"))
          else
            let! r := timeout idle
              (let! r1 := suspend (AWriteAll (to_be_bytes n)) in
               match r1 with
               | Err e => ret (Err e)
               | Ok _ =>
                   let! r2 := suspend (AWriteAll bytes) in
                   match r2 with
                   | Err e => ret (Err e)
                   | Ok _ => suspend (AWriteAll [])
                   end
               end) in
            ret (match r with
                 | None => Err (ErrProtocol "idle timeout")
                 | Some (Err e) => Err (io_error e)
                 | Some (Ok _) => Ok tt
                 end)
      end
  end.

(** One round of the loop: [Ok false] is [return Ok(())], [Ok true] another round.
    @src src/src/server.rs 319-350 serve_framed *)
Definition serve_frame (live : nat → Runtime) (entry : string) (limit idle : Z) (proto : ClientProto)
    (peer : option IpAddr) : M unit (Res bool) :=
  let! hdr := timeout idle (suspend (AReadExact 2)) in
  match hdr with
  | None => ret (Ok false)
  | Some (Err IoEof) => ret (Ok false)
  | Some (Err e) => ret (Err (io_error e))
  | Some (Ok hdr) =>
      let len := from_be_bytes hdr in
      if (len =? 0)%Z then ret (Err (ErrProtocol "bad length"))
      else
        let! body := timeout idle (suspend (AReadExact (Z.to_nat len))) in
        match body with
        | None => ret (Err (ErrProtocol "idle timeout"))
        | Some (Err e) => ret (Err (io_error e))
        | Some (Ok buf) =>
            match decode_msg buf with
            | Err e => ret (Err e)
            | Ok q =>
                match classify_incoming q with
                | IncomingDrop => ret (Ok true)
                | IncomingNotImp =>
                    let! ctx := new_ctx q peer proto in
                    let!? _ := write_tcp_response idle (reject rc_NotImp ctx) in
                    ret (Ok true)
                | IncomingOk =>
                    let! ctx := new_ctx q peer proto in
                    let! (ctx, r) := live_handle live entry limit ctx in
                    match r with
                    | Err e => ret (Err e)
                    | Ok _ =>
                        let!? _ := write_tcp_response idle ctx in
                        ret (Ok true)
                    end
                end
            end
        end
  end.

(** The loop over a connection that carries at most [n] messages; [Ok true]: it would
    go on.
    @src src/src/server.rs 310-351 serve_framed *)
Fixpoint serve_framed (n : nat) (live : nat → Runtime) (entry : string) (limit idle : Z)
    (proto : ClientProto) (peer : option IpAddr) : M unit (Res bool) :=
  match n with
  | O => ret (Ok true)
  | S n =>
      let!? again := serve_frame live entry limit idle proto peer in
      if again : bool then serve_framed n live entry limit idle proto peer else ret (Ok false)
  end.
End server.

(** ** DNS over HTTPS *)

(** [char::from(b)] appended to a [String]: a byte above 127 takes two bytes. *)
Definition push_byte (b : Z) (s : string) : string :=
  if (b <? 128)%Z then String (ascii_of_N (Z.to_N b)) s
  else String (ascii_of_N (Z.to_N (192 + b / 64))) (String (ascii_of_N (Z.to_N (128 + b mod 64))) s).

(** [u8::from_str_radix] of two characters: a leading [+] is a sign. *)
Definition hex_pair (a b : ascii) : option Z :=
  if decide (a = "+"%char) then digit_of 16 b
  else match digit_of 16 a, digit_of 16 b with
       | Some x, Some y => Some (x * 16 + y)%Z
       | _, _ => None
       end.

(** @src src/src/server.rs 548-566 percent_decode *)
Fixpoint percent_decode (s : string) : string :=
  match s with
  | "" => ""
  | String c rest =>
      match c, rest with
      | "%"%char, String a (String b rest') =>
          match hex_pair a b with
          | Some v => push_byte v (percent_decode rest')
          | None => push_byte (Z.of_N (byte_of c)) (percent_decode rest)
          end
      | _, _ => push_byte (Z.of_N (byte_of c)) (percent_decode rest)
      end
  end.

(** The two [base64] engines the program uses. *)
Class Base64Lib := {
  url_safe_no_pad : string → option (list Z);
  url_safe : string → option (list Z);
}.

Section doh.
Context {H : Hickory} {N : IpNetLib} {Rx : RegexLib} {T : TlsLib} {Y : Yaml} {B : Base64Lib}.

Fixpoint dns_param_of (parts : list string) : option (list Z) :=
  match parts with
  | [] => None
  | part :: parts =>
      match split_once "=" part with
      | None => dns_param_of parts
      | Some (k, v) =>
          if negb (bool_decide (k = "dns")) then dns_param_of parts
          else
            let v := percent_decode v in
            match url_safe_no_pad v with
            | Some b => Some b
            | None => match url_safe v with Some b => Some b | None => dns_param_of parts end
            end
      end
  end.

(** @src src/src/server.rs 527-546 dns_query_param *)
Definition dns_query_param (query : string) : option (list Z) := dns_param_of (split_on "&" query).

(** The responses [doh_handle] gives; [HttpDns] is status 200 with the
    [application/dns-message] type. *)
Inductive HttpReply : Type :=
| HttpBadRequest (body : string)
| HttpBadGateway (body : option string)
| HttpDns (body : list Z).

(** @src src/src/server.rs 568-594 doh_handle *)
Definition doh_handle (live : nat → Runtime) (entry : string) (limit : Z) (peer : IpAddr) (body : list Z)
    : M unit HttpReply :=
  match decode_msg body with
  | Err e => ret (HttpBadRequest (error_display e))
  | Ok q =>
      let! ctx := new_ctx q (Some peer) ProtoHttps in
      let! (ctx, r) := live_handle live entry limit ctx in
      match r with
      | Err e => ret (HttpBadGateway (Some (error_display e)))
      | Ok _ =>
          ret (match c_response ctx ≫= (λ r, result_ok (encode_msg r)) with
               | Some bytes => HttpDns bytes
               | None => HttpBadGateway None
               end)
      end
  end.

(** [query] is [uri.query()].
    @src src/src/server.rs 516-525 doh_get *)
Definition doh_get (live : nat → Runtime) (entry : string) (limit : Z) (peer : IpAddr) (query : option string)
    : M unit HttpReply :=
  match query ≫= dns_query_param with
  | None => ret (HttpBadRequest "missing dns= parameter")
  | Some raw => doh_handle live entry limit peer raw
  end.

(** @src src/src/server.rs 507-514 doh_post *)
Definition doh_post (live : nat → Runtime) (entry : string) (limit : Z) (peer : IpAddr) (body : list Z)
    : M unit HttpReply :=
  doh_handle live entry limit peer body.
End doh.

(** ** The reply *)

(** A reply [m] the server may send for [q], [c] being the finished context: it is
    bound to [q], carries no client subnet when that is to be stripped, and has
    the CNAME chain from the name asked to the name resolved. *)
Record reply_ok `{Hickory} (q : Message) (c : QueryContext) (m : Message) : Prop := mkReplyOk {
  rp_bound : bound_to q m;
  rp_strip : strip_ecs_on_reply c = true → ecs_of m = None;
  rp_chain : ∀ q0 qs, queries q = q0 :: qs → response_code m = rc_NoError ∨ response_code m = rc_NXDomain →
    ∃ q1, head (queries (c_query c)) = Some q1 ∧ cname_path (answers m) (query_name q0) (query_name q1);
}.

(** The context [handle_finish] leaves. *)
Definition finish `{Hickory} (c : QueryContext) : QueryContext :=
  let c := finalize_response c in
  if strip_ecs_on_reply c then with_response (remove_ecs <$> c_response c) c else c.

Section replies.
Context {H : Hickory} {HL : HickoryLaws H}.

Lemma remove_ecs_keeps m : answers (remove_ecs m) = answers m ∧ response_code (remove_ecs m) = response_code m.
Proof. unfold remove_ecs. destruct (extensions m); dns; done. Qed.

Lemma finish_fields c :
  c_original (finish c) = c_original c ∧ c_query (finish c) = c_query c
  ∧ strip_ecs_on_reply (finish c) = strip_ecs_on_reply c ∧ has_resp (finish c) = has_resp c.
Proof.
  unfold finish, finalize_response. cbn.
  assert (Hs := response_for_query_Some (c_original c) 0 c). unfold has_resp.
  destruct (strip_ecs_on_reply c) eqn:Es; cbn; (repeat split; try done);
    destruct (response_for_query _ _ _) as [m|], (c_response c) as [m'|]; simpl; try done; exfalso; destruct Hs as [H1 H2].
  - destruct H1; [eauto|done].
  - destruct H2; [eauto|done].
  - destruct H1; [eauto|done].
  - destruct H2; [eauto|done].
Qed.

Lemma finish_reply c m :
  aliases_connected c → c_response (finish c) = Some m → reply_ok (c_original c) (finish c) m.
Proof.
  intros Ha Hm. destruct (finish_fields c) as (_ & Hq & Hstrip & _).
  assert (∃ m0, response_for_query (c_original c) 0 c = Some m0
            ∧ m = if strip_ecs_on_reply c then remove_ecs m0 else m0) as (m0 & Hm0 & ->).
  { unfold finish, finalize_response in Hm. cbn in Hm.
    destruct (strip_ecs_on_reply c); cbn in Hm; [|by eauto].
    destruct (response_for_query _ _ _) as [m0|]; [|done]. injection Hm as <-. eauto. }
  assert (Hb : bound_to (c_original c) m0) by (by eapply response_for_query_bound).
  assert (Hk : answers (if strip_ecs_on_reply c then remove_ecs m0 else m0) = answers m0
            ∧ response_code (if strip_ecs_on_reply c then remove_ecs m0 else m0) = response_code m0).
  { destruct (strip_ecs_on_reply c); [apply remove_ecs_keeps|done]. }
  destruct Hk as [Hans Hrc]. split.
  - destruct (strip_ecs_on_reply c); [by apply bound_to_remove_ecs|done].
  - rewrite Hstrip. intros ->. apply ecs_of_remove_ecs.
  - intros q0 qs Hq0. rewrite Hans, Hrc, Hq. intros Hcode.
    destruct (proj1 (response_for_query_Some (c_original c) 0 c) ltac:(rewrite Hm0; eauto)) as [up Hup].
    destruct (finalize_response_spec c up q0 qs Hup Ha Hq0) as (m1 & q1 & qs1 & Hm1 & _ & Hq1 & _ & Hrc1 & Hp).
    unfold finalize_response in Hm1. cbn in Hm1. rewrite Hm0 in Hm1. injection Hm1 as <-.
    exists q1. rewrite Hq1. split; [done|]. apply Hp. by rewrite <- Hrc1.
Qed.

(** Finishing keeps the response code of what the pipeline left. *)
Lemma finish_rcode c up : c_response c = Some up →
  ∃ m, c_response (finish c) = Some m ∧ response_code m = response_code up.
Proof.
  intros Hup.
  assert (∃ m, response_for_query (c_original c) 0 c = Some m ∧ response_code m = response_code up) as (m & Hm & Hrc).
  { unfold response_for_query. rewrite Hup. destruct (rebind_response_keeps up (c_original c)) as (_ & _ & _ & Hrc & _).
    destruct (_ && _); eexists; (split; [reflexivity|]); dns; exact Hrc. }
  unfold finish, finalize_response. cbn. destruct (strip_ecs_on_reply c); cbn; rewrite Hm; [|by exists m].
  exists (remove_ecs m). split; [done|]. by rewrite (proj2 (remove_ecs_keeps m)).
Qed.

Lemma finish_reject rc c : ∃ m, c_response (finish (reject rc c)) = Some m ∧ response_code m = rc.
Proof.
  destruct (finish_rcode (reject rc c) _ eq_refl) as (m & Hm & Hrc). exists m. split; [done|]. rewrite Hrc. dns.
  apply (reply_skeleton_spec (c_query c) rc).
Qed.

Lemma wp_handle_finish (P : Protocol) (I : QueryContext → Prop) c (Q : QueryContext → Res unit → Prop) :
  ambient P → Q (finish c) (Ok tt) → wp P I (handle_finish c) Q.
Proof.
  intros HP HQ. unfold handle_finish. wp_steps. destruct (has_resp _); apply wp_count; try done;
    (apply wp_bind, wp_sync; [apply HP|]; intros now _; apply wp_bind, wp_bind, wp_count; [done|];
     apply wp_sync; [apply HP|]; intros [] _; apply wp_ret; exact HQ).
Qed.

(** What [handle_finish] counts. *)
Lemma run_handle_finish c tr c' r :
  run (handle_finish c) tr c' r →
  c' = finish c ∧ r = Ok tt
  ∧ counted Responses tr = (if has_resp c then 1 else 0)%Z
  ∧ counted Dropped tr = (if has_resp c then 0 else 1)%Z
  ∧ counted Queries tr = 1%Z.
Proof.
  destruct (finish_fields c) as (_ & _ & _ & Hresp). intros Hr.
  apply run_bind in Hr as (t1 & t2 & c1 & u1 & -> & (-> & -> & ->) & Hr).
  apply run_bind in Hr as (t3 & t4 & c2 & u2 & -> & (-> & -> & ->) & Hr).
  fold (finish c) in Hr.
  apply run_bind in Hr as (t5 & t6 & c3 & u3 & -> & (-> & -> & ->) & Hr).
  apply run_bind in Hr as (t7 & t8 & c4 & u4 & -> & Hcount & Hr).
  assert (t7 = [ISync (EMetric (if has_resp c then Responses else Dropped) 1) tt] ∧ c4 = finish c) as [-> ->].
  { revert Hcount. change (has_resp (if strip_ecs_on_reply (finalize_response c) then _ else _)) with (has_resp (finish c)).
    rewrite Hresp. destruct (has_resp c); by intros [-> ->]%run_count. }
  apply run_bind in Hr as (t9 & t10 & c5 & now & -> & (now' & t' & -> & -> & -> & ->) & Hr).
  apply run_bind in Hr as (t11 & t12 & c6 & u6 & -> & Hobs & (-> & -> & ->)).
  apply run_bind in Hobs as (t13 & t14 & c7 & u7 & -> & [-> ->]%run_count & (u' & t'' & -> & -> & -> & _)).
  split; [done|]. split; [done|]. rewrite !counted_app. by destruct (has_resp c).
Qed.
End replies.

(** ** Handling a query *)
Section handling.
Context {H : Hickory} {HL : HickoryLaws H} {N : IpNetLib} {Rx : RegexLib} {T : TlsLib} {Y : Yaml}.
Context (P : Protocol) (HP : ambient P).
Context (rt : Runtime) (rank : string → nat) (Hrt : runtime_ok rt rank) (Hca : caches_allowed P (rt_registry rt)).

Lemma connected_begin entry c : aliases_connected c → aliases_connected (begin_pipeline entry c).
Proof. unfold aliases_connected, begin_pipeline. by destruct (c_entry_state c). Qed.

Lemma connected_fresh id now q addr proto : aliases_connected (ctx_new id now q addr proto).
Proof. intros q0 qs Hq. exists q0, qs. done. Qed.

(** What [handle] leaves, by the kind of the message. *)
Definition handled (entry : string) (c c' : QueryContext) (r : Res unit) : Prop :=
  match classify_incoming (c_query c) with
  | IncomingDrop => c' = c ∧ r = Ok tt
  | IncomingNotImp => c' = finish (reject rc_NotImp c) ∧ r = Ok tt
  | IncomingOk =>
      match get_exec (rt_registry rt) entry with
      | Err e => c' = begin_pipeline entry c ∧ r = Err e
      | Ok _ => r = Ok tt ∧ ∃ c1, ctx_step (begin_pipeline entry c) c1 ∧ c' = finish c1
      end
  end.

Lemma wp_handle_outcome c0 c r (Q : QueryContext → unit → Prop) :
  ctx_step c0 c → (∀ c1, ctx_step c0 c1 → Q c1 tt) → wp P (ctx_step c0) (handle_outcome r c) Q.
Proof.
  intros Hc HQ. unfold handle_outcome. destruct r as [[a|e]|].
  - apply wp_ret. by apply HQ.
  - apply wp_modify, HQ. destruct (has_resp c); [done|]. etrans; [exact Hc|apply ctx_step_reject].
  - apply wp_modify, HQ. etrans; [exact Hc|apply ctx_step_reject].
Qed.

Lemma wp_handle entry limit c :
  p_ctx P (begin_pipeline entry c) →
  wp P (ctx_step (begin_pipeline entry c)) (handle rt entry limit c) (handled entry c).
Proof.
  intros Hc. unfold handle, handled. destruct (classify_incoming (c_query c)).
  - done.
  - apply wp_bind, wp_modify, wp_handle_finish; [done|]. done.
  - apply wp_bind, wp_modify. set (c0 := begin_pipeline entry c) in *.
    unfold get_exec. destruct (rg_execs (rt_registry rt) !! entry) as [o|] eqn:Eo; [|by apply wp_ret].
    cbn [ok_or]. apply wp_bind.
    eapply (wp_timeout P _ limit _ _ (λ c1 _, ctx_step c0 c1)); [apply HP|apply wp_timed; [done|]|..];
      [by apply (steps_runtime P HP rt rank entry o)| |].
    + intros c1 r Hs. apply wp_bind, wp_handle_outcome; [done|]. intros c2 Hs2.
      apply wp_handle_finish; eauto.
    + intros c1 Hs. apply wp_bind, wp_handle_outcome; [done|]. intros c2 Hs2.
      apply wp_handle_finish; eauto.
Qed.

(** The replies of [handle] for a fresh context. *)
Lemma handled_reply entry c c' r m :
  aliases_connected c → c_response c = None → handled entry c c' r → r = Ok tt →
  c_response c' = Some m → reply_ok (c_original c) c' m.
Proof.
  intros Ha Hn Hh -> Hm. unfold handled in Hh. destruct (classify_incoming (c_query c)).
  - destruct Hh as [-> _]. congruence.
  - destruct Hh as [-> _]. by apply (finish_reply (reject rc_NotImp c)).
  - destruct (get_exec (rt_registry rt) entry); [|by destruct Hh].
    destruct Hh as [_ (c1 & [Hs Hal] & ->)].
    assert (c_original c1 = c_original c) as <-.
    { rewrite (sr_original _ _ Hs). unfold begin_pipeline. by destruct (c_entry_state c). }
    apply finish_reply; [|done]. by apply Hal, connected_begin.
Qed.

(** The runs of what follows the pipeline [m]. *)
Lemma run_after_pipeline (m : M QueryContext (option (Res Action))) c0 tr c' r :
  run ((let! r := m in do! handle_outcome r in handle_finish) c0) tr c' r →
  ∃ tr1 tr2 c1 outcome,
    tr = tr1 ++ tr2 ∧ run (m c0) tr1 c1 outcome
    ∧ r = Ok tt
    ∧ (outcome = None → has_resp c' = true ∧ c' = finish (reject rc_ServFail c1))
    ∧ (∀ e, outcome = Some (Err e) → has_resp c' = true)
    ∧ counted Responses tr2 = (if has_resp c' then 1 else 0)%Z
    ∧ counted Dropped tr2 = (if has_resp c' then 0 else 1)%Z
    ∧ counted Queries tr2 = 1%Z.
Proof.
  intros (t1 & t2 & c1 & outcome & -> & Hpipe & Hr)%run_bind.
  apply run_bind in Hr as (t3 & t4 & c2 & u3 & -> & Hout & Hr).
  apply run_handle_finish in Hr as (-> & -> & H1 & H2 & H3).
  destruct (finish_fields c2) as (_ & _ & _ & Hresp).
  exists t1, t4, c1, outcome. rewrite Hresp.
  assert (t3 = []) as -> by (destruct outcome as [[]|]; by destruct Hout as (-> & _)).
  split; [done|]. split; [done|]. split; [done|]. split; [|split; [|done]].
  - intros ->. by destruct Hout as (_ & -> & _).
  - intros e ->. destruct Hout as (_ & -> & _). by destruct (has_resp c1) eqn:E.
Qed.

(** The runs of [handle] that reach a pipeline. *)
Lemma handle_pipeline entry limit c o :
  classify_incoming (c_query c) = IncomingOk → rg_execs (rt_registry rt) !! entry = Some o →
  handle rt entry limit c
  = (let! r := run_pipeline rt o limit in do! handle_outcome r in handle_finish) (begin_pipeline entry c).
Proof. intros Hk Ho. unfold handle, get_exec. by rewrite Hk, Ho. Qed.
End handling.

(** ** Transports *)
Section transports.
Context {H : Hickory} {HL : HickoryLaws H} {N : IpNetLib} {Rx : RegexLib} {T : TlsLib} {Y : Yaml}.

Lemma run_within {L L' A} (m : M L' A) l' (l l1 : L) tr l2 a :
  run (within m l' l) tr l1 (l2, a) ↔ l1 = l ∧ run (m l') tr l2 a.
Proof.
  unfold within, enclose. rewrite run_task_bind. split.
  - intros (t1 & t2 & l3 & a' & -> & Hr & (-> & -> & [= -> ->])). by rewrite app_nil_r.
  - intros [-> Hr]. exists tr, [], l2, a. by rewrite app_nil_r.
Qed.

Lemma run_new_ctx {L} q addr proto (l l1 : L) tr c :
  run (new_ctx q addr proto l) tr l1 c →
  l1 = l ∧ ∃ id now, tr = [ISync ENextId id; ISync ENow now] ∧ c = ctx_new id now q addr proto.
Proof.
  intros (t1 & t2 & l2 & id & -> & (id' & t' & -> & -> & -> & ->) & Hr)%run_bind.
  apply run_bind in Hr as (t3 & t4 & l3 & now & -> & (now' & t' & -> & -> & -> & ->) & (-> & -> & ->)).
  split; [done|]. by exists id', now'.
Qed.

(** The bytes of a reply [m] as a datagram: whole, or truncated to its header. *)
Definition udp_bytes (m : Message) (bytes : list Z) : Prop :=
  (encode_msg m = Ok bytes ∧ (Z.of_nat (length bytes) ≤ 4096)%Z) ∨ encode_msg (message_truncate m) = Ok bytes.

Lemma encode_udp_bytes c m bytes : encode_udp m (udp_payload_max c) = Ok bytes → udp_bytes m bytes.
Proof.
  intros [[? Hlen]|(full & _ & _ & ?)]%encode_udp_Ok; [left|by right]. split; [done|].
  unfold udp_payload_max in Hlen. lia.
Qed.

(** A message addressed to the sender of [q]: what a reply needs to be accepted. *)
Record addressed_to (q m : Message) : Prop := mkAddressedTo {
  at_id : msg_id m = msg_id q;
  at_type : message_type m = mt_Response;
  at_opcode : op_code m = op_code q;
  at_queries : queries m = queries q;
}.

(** The NOTIMP reply to an opcode other than QUERY, sent without a pipeline. *)
Lemma rejected_addressed id now q addr proto rc :
  addressed_to q (set_message_type mt_Response (set_id (msg_id q) (make_response rc (ctx_new id now q addr proto)))).
Proof.
  unfold make_response. change (c_query (ctx_new id now q addr proto)) with q.
  destruct (reply_skeleton_fields q rc) as [Hop Hq]. split; dns; done.
Qed.

Lemma run_udp_send c tr u :
  run (udp_send c tt) tr tt u →
  tr = [] ∨ ∃ m bytes r, c_response c = Some m ∧ udp_bytes m bytes ∧ tr = [IAwait (ASendTo bytes) r].
Proof.
  unfold udp_send. destruct (c_response c) as [m|]; [|intros (-> & _); by left].
  destruct (encode_udp m (udp_payload_max (c_query c))) as [bytes|e] eqn:Ee; [|intros (-> & _); by left].
  intros (t1 & t2 & l2 & r & -> & (r' & t' & -> & -> & _ & ->) & (-> & _))%run_bind. right.
  exists m, bytes, r'. split; [done|]. split; [by eapply encode_udp_bytes|done].
Qed.

Context (P : Protocol) (HP : ambient P).

(** The context of a query from a client, before and after [begin_pipeline]. *)
Definition serves (entry : string) (q : Message) (addr : option IpAddr) (proto : ClientProto) : Prop :=
  ∀ id now, p_ctx P (begin_pipeline entry (ctx_new id now q addr proto)).

(** Every run of [handle] on a new context gives replies that are in order. *)
Lemma run_handle_reply (rt : Runtime) (rank : string → nat) (Hrt : runtime_ok rt rank)
    (Hca : caches_allowed P (rt_registry rt)) entry limit id now q addr proto tr c' r m :
  serves entry q addr proto →
  run (handle rt entry limit (ctx_new id now q addr proto)) tr c' r → Forall (item_ok P) tr →
  r = Ok tt → c_response c' = Some m → reply_ok q c' m.
Proof.
  intros Hs Hr Htr Hok Hm. set (c := ctx_new id now q addr proto) in *.
  pose proof (wp_handle P HP rt rank Hrt Hca entry limit c (Hs id now)) as Hw.
  destruct (wp_run P _ _ _ _ _ _ Hw Hr Htr) as [Hh _].
  change q with (c_original c). eapply handled_reply; [by apply connected_fresh|done|exact Hh|done|done].
Qed.

(** The runtimes that can be live were built, and keep to the protocol. *)
Definition live_ok {E : ConfigEnv} {HT : HttpLib} {L : ListenerLib} {O : HashOrder} {LL : LogLib} (live : nat → Runtime) : Prop :=
  ∀ g, p_reply P ELive g →
  (∃ cfg, runtime_build cfg = Some (Ok (live g))) ∧ caches_allowed P (rt_registry (live g)).

Lemma run_live_handle live entry limit c tr u c' r :
  run (live_handle live entry limit c u) tr tt (c', r) →
  ∃ g trh, tr = ISync ELive g :: trh ∧ run (handle (live g) entry limit c) trh c' r.
Proof.
  intros (t1 & t2 & [] & rt & -> & H1 & [_ Hh]%run_within)%run_bind.
  apply run_bind in H1 as (t3 & t4 & [] & g & -> & H1 & (-> & _ & ->)).
  destruct H1 as (g' & t & -> & -> & _ & <-). by exists g, t2.
Qed.

(** The same for the runtime of the moment. *)
Lemma run_live_reply {E : ConfigEnv} {HT : HttpLib} {L : ListenerLib} {O : HashOrder} {OL : HashOrderLaws O} {LL : LogLib}
    live entry limit id now q addr proto g tr c' m :
  live_ok live → serves entry q addr proto →
  run (handle (live g) entry limit (ctx_new id now q addr proto)) tr c' (Ok tt) →
  Forall (item_ok P) (ISync ELive g :: tr) → c_response c' = Some m → reply_ok q c' m.
Proof.
  intros Hlive Hs Hr [Hg Htr]%Forall_cons Hm. destruct (Hlive g Hg) as [[cfg Hb] Hca].
  destruct (runtime_build_spec cfg) as (r0 & Hr0 & Hok). rewrite Hb in Hr0. injection Hr0 as <-.
  destruct (Hok _ eq_refl) as [rank Hrank].
  exact (run_handle_reply (live g) rank Hrank Hca entry limit id now q addr proto tr c' (Ok tt) m Hs Hr Htr eq_refl Hm).
Qed.
End transports.

(** ** Properties *)


(** C30: every run of [handle] that reaches a pipeline ends with a count of exactly
    one query and exactly one of a response or a drop, a response precisely when
    the client gets one; when the pipeline ran out of time the reply is a
    SERVFAIL, and when it failed there is a reply too. *)
Theorem handle_accounting {H : Hickory} {HL : HickoryLaws H} {N : IpNetLib} {Rx : RegexLib} {T : TlsLib} {Y : Yaml}
    (rt : Runtime) (entry : string) (limit : Z) (c c' : QueryContext) (tr : list item) (r : Res unit) (o : ExecObj) :
  classify_incoming (c_query c) = IncomingOk → rg_execs (rt_registry rt) !! entry = Some o →
  run (handle rt entry limit c) tr c' r →
  ∃ tr1 tr2 c1 outcome,
    tr = tr1 ++ tr2
    ∧ run (run_pipeline rt o limit (begin_pipeline entry c)) tr1 c1 outcome
    ∧ r = Ok tt
    ∧ (outcome = None → ∃ m, c_response c' = Some m ∧ response_code m = rc_ServFail)
    ∧ (∀ e, outcome = Some (Err e) → has_resp c' = true)
    ∧ counted Queries tr2 = 1%Z
    ∧ counted Responses tr2 = (if has_resp c' then 1 else 0)%Z
    ∧ counted Dropped tr2 = (if has_resp c' then 0 else 1)%Z.
Proof.
  intros Hk Ho Hr. rewrite (handle_pipeline rt entry limit c o Hk Ho) in Hr.
  destruct (run_after_pipeline _ _ _ _ _ Hr) as (tr1 & tr2 & c1 & outcome & -> & Hp & -> & H1 & H2 & H3 & H4 & H5).
  exists tr1, tr2, c1, outcome. split; [done|]. split; [exact Hp|]. split; [done|]. split; [|done].
  intros [_ ->]%H1. apply finish_reject.
Qed.


(** ** Frames *)

(** The bytes a run writes to a stream. *)
Fixpoint written `{Hickory} (tr : list item) : list Z :=
  match tr with
  | IAwait (ATimer _ (AWriteAll bytes)) _ :: tr => bytes ++ written tr
  | _ :: tr => written tr
  | [] => []
  end.

(** The reading of [bytes], begun at [now], with [d] as time limit. *)
Definition timed_read `{Hickory} (now d : Z) (bytes : list Z) : list item :=
  [ISync ENow now; IAwait (ATimer (timer_at now d) (AReadExact (length bytes))) (Some (Ok bytes))].
Lemma timed_read_ok `{Hickory} (P : Protocol) now d n bytes :
  Forall (item_ok P) [ISync ENow now; IAwait (ATimer (timer_at now d) (AReadExact n)) (Some (Ok bytes))] → length bytes = n.
Proof. by intros [_ [Hok _]%Forall_cons]%Forall_cons. Qed.

(** The first frame of a stream, read as [serve_framed] reads it. *)
Definition first_frame (s : list Z) : option (list Z) :=
  match s with
  | a :: b :: rest =>
      let len := Z.to_nat (from_be_bytes [a; b]) in
      if Nat.leb len (length rest) then Some (take len rest) else None
  | _ => None
  end.

Lemma first_frame_written bytes rest :
  (Z.of_nat (length bytes) ≤ u16_max)%Z →
  first_frame (to_be_bytes (Z.of_nat (length bytes)) ++ bytes ++ rest) = Some bytes.
Proof.
  intros Hlen. pose proof (from_to_be_bytes (Z.of_nat (length bytes)) ltac:(lia)) as Hn. unfold to_be_bytes, first_frame in *.
  cbn [app]. rewrite Hn, Nat2Z.id.
  destruct (Nat.leb_spec (length bytes) (length (bytes ++ rest))); [|rewrite length_app in *; lia].
  by rewrite take_app_length.
Qed.

Section frames.
Context {H : Hickory} {HL : HickoryLaws H} {N : IpNetLib} {Rx : RegexLib} {T : TlsLib} {Y : Yaml}.

(** A write that ended well wrote one frame. *)
Lemma run_write_tcp_response idle c tr u r :
  run (write_tcp_response idle c tt) tr u r →
  match c_response c with
  | None => tr = [] ∧ r = Ok tt
  | Some m => r = Ok tt → ∃ bytes, encode_msg m = Ok bytes ∧ (Z.of_nat (length bytes) ≤ u16_max)%Z
                ∧ written tr = to_be_bytes (Z.of_nat (length bytes)) ++ bytes
  end.
Proof.
  unfold write_tcp_response. destruct (c_response c) as [m|]; [|by intros (-> & _ & ->)].
  destruct (encode_msg m) as [bytes|e] eqn:Em; [|intros (_ & _ & ->); by intros [=]].
  destruct (Z.ltb_spec u16_max (Z.of_nat (length bytes))); [intros (_ & _ & ->); by intros [=]|].
  intros (t1 & t2 & l & o & -> & Hr & (-> & _ & ->))%run_bind Hok.
  exists bytes. split; [done|]. split; [done|].
  destruct o as [[x|e]|]; [|by destruct e|done].
  simpl in Hr. destruct Hr as (now & tr0 & -> & [[[]|e1]|] & tr1 & -> & Hr); [|by destruct Hr as (_ & _ & [=])..].
  simpl in Hr. destruct Hr as ([[[]|e1]|] & tr2 & -> & Hr); [|by destruct Hr as (_ & _ & [=])..].
  simpl in Hr. destruct Hr as ([[[]|e1]|] & tr3 & -> & Hr); [|by destruct Hr as (_ & _ & [=])..].
  simpl in Hr. destruct Hr as (-> & _ & _). simpl. by rewrite !app_nil_r.
Qed.
End frames.


(** C38: an HTTP request gets DNS bytes only as the encoding of a reply bound to the
    query it carried; a body that does not decode is a 400, with no query
    handled. *)
Theorem doh_reply {H : Hickory} {HL : HickoryLaws H} {N : IpNetLib} {Rx : RegexLib} {T : TlsLib} {Y : Yaml}
    {E : ConfigEnv} {HT : HttpLib} {L : ListenerLib} {O : HashOrder} {LL : LogLib} {OL : HashOrderLaws O}
    (P : Protocol) (live : nat → Runtime) (entry : string) (limit : Z) (peer : IpAddr) (body : list Z)
    (tr : list item) (reply : HttpReply) :
  ambient P → live_ok P live →
  (∀ q, serves P entry q (Some peer) ProtoHttps) →
  run (doh_handle live entry limit peer body tt) tr tt reply → Forall (item_ok P) tr →
  match decode_msg body with
  | Err e => tr = [] ∧ reply = HttpBadRequest (error_display e)
  | Ok q => match reply with
            | HttpDns bytes => ∃ m, bound_to q m ∧ encode_msg m = Ok bytes
            | HttpBadRequest _ => False
            | HttpBadGateway _ => True
            end
  end.
Proof.
  intros HP Hlive Hs Hr Htr.
  unfold doh_handle in Hr. destruct (decode_msg body) as [q|e]; [|by destruct Hr as (-> & _ & ->)].
  apply run_bind in Hr as (t1 & t2 & [] & c & -> & [_ (id & now & -> & ->)]%run_new_ctx & Hr).
  apply run_bind in Hr as (t3 & t4 & [] & [c' r] & -> & (g & trh & -> & Hh)%run_live_handle & Hr).
  destruct r as [[]|e]; destruct Hr as (-> & _ & ->); [|done].
  destruct (c_response c') as [m|] eqn:Em; [|done]. simpl. destruct (encode_msg m) as [bytes|e] eqn:Ee; [|done].
  simpl. exists m. split; [|done]. rewrite !Forall_app in Htr.
  eapply rp_bound, (run_live_reply P HP live); [exact Hlive|apply Hs|exact Hh|apply Htr|done].
Qed.

(** ** Percent decoding *)

(** A client's encoding: the characters [keep] accepts stand for themselves, the
    others are escaped with two hexadecimal digits. *)
Fixpoint percent_encode (keep : ascii → bool) (s : string) : string :=
  match s with
  | "" => ""
  | String c s =>
      if keep c then String c (percent_encode keep s)
      else String "%" (show_hex8 (Z.of_N (byte_of c)) +:+ percent_encode keep s)
  end.

Fixpoint ascii_only (s : string) : bool :=
  match s with "" => true | String c s => (byte_of c <? 128)%N && ascii_only s end.

Lemma hex_pair_show8 n : (0 ≤ n < 256)%Z →
  ∃ a b, show_hex8 n = String a (String b "") ∧ hex_pair a b = Some n.
Proof.
  intros Hn. eexists _, _. split; [reflexivity|].
  assert (Hall : forallb (λ i, bool_decide (hex_pair (hex_char (i / 16 mod 16)) (hex_char (i mod 16)) = Some i))
                   (seqZ 0 256) = true) by (by vm_compute).
  rewrite forallb_elem in Hall. apply (bool_decide_unpack _).
  rewrite (Hall n); [done|]. apply elem_of_seqZ. lia.
Qed.

Lemma push_ascii c s : (byte_of c < 128)%N → push_byte (Z.of_N (byte_of c)) s = String c s.
Proof.
  intros Hc. unfold push_byte. destruct (Z.ltb_spec (Z.of_N (byte_of c)) 128); [|lia].
  rewrite N2Z.id. unfold byte_of. by rewrite ascii_N_embedding.
Qed.

Lemma percent_decode_other c s : c ≠ "%"%char →
  percent_decode (String c s) = push_byte (Z.of_N (byte_of c)) (percent_decode s).
Proof. intros Hc. destruct c as [[] [] [] [] [] [] [] []]; try reflexivity. by destruct Hc. Qed.

(** The DoH parameter decoder inverts percent-encoding: whichever characters
    the client chose to escape, with [%] among them, an ASCII text comes back as
    it was. *)
Theorem percent_decode_encode (keep : ascii → bool) (s : string) :
  keep "%"%char = false → ascii_only s = true → percent_decode (percent_encode keep s) = s.
Proof.
  intros Hk. induction s as [|c s IH]; cbn [ascii_only percent_encode]; [done|].
  rewrite andb_true_iff, N.ltb_lt. intros [Hc Hs]. specialize (IH Hs). destruct (keep c) eqn:Ek.
  - rewrite percent_decode_other by congruence. by rewrite IH, push_ascii.
  - destruct (hex_pair_show8 (Z.of_N (byte_of c))) as (a & b & -> & Hab); [lia|].
    change (String a (String b "") +:+ percent_encode keep s) with (String a (String b (percent_encode keep s))).
    cbn [percent_decode]. by rewrite Hab, IH, push_ascii.
Qed.

Lemma percent_decode_encode_witness :
  percent_decode "q80%2B_%3d" = "q80+_="
  ∧ percent_decode (percent_encode (λ c, is_digit c || is_lower c) "q80+_=") = "q80+_=".
Proof. split; [by vm_compute|]. by apply percent_decode_encode. Defined.

(** The decoder takes [%+5] for the byte 5: a sign counts as a digit. *)
Lemma percent_decode_sign : percent_decode "%+5" = String (ascii_of_N 5) "".
Proof. reflexivity. Qed.

(** ** The refresh of a lazy hit *)
Section refresh.
Context {H : Hickory} {HL : HickoryLaws H} {N : IpNetLib} {Rx : RegexLib} {T : TlsLib} {Y : Yaml}.

Lemma run_refresh_task rt r tr u :
  run (refresh_task rt r tt) tr tt u →
  ∃ tr', tr = tr' ++ [ISync (EUnmark (rf_tag r) (rf_key r)) tt].
Proof.
  intros (t1 & t2 & [] & [] & -> & _ & Hr)%run_bind.
  destruct Hr as ([] & t & -> & -> & _). by exists t1.
Qed.
End refresh.

(** The task a lazy hit spawns always ends, whether its runtime is still there
    or was replaced and whatever the query does, and its last act is to take its
    key off the cache's set of refreshes in flight, so the key can be refreshed
    again. *)
Theorem refresh_task_releases {H : Hickory} {HL : HickoryLaws H} {N : IpNetLib} {Rx : RegexLib} {T : TlsLib} {Y : Yaml}
    {E : ConfigEnv} {HT : HttpLib} {L : ListenerLib} {O : HashOrder} {LL : LogLib} {OL : HashOrderLaws O}
    (P : Protocol) (cfg : Config) (rt : Runtime) (r : Refresh) :
  ambient P → runtime_build cfg = Some (Ok rt) → caches_allowed P (rt_registry rt) →
  p_event P EUpgrade → p_event P (EUnmark (rf_tag r) (rf_key r)) →
  p_ctx P (begin_pipeline (trim_start_matches "$" (trim (rf_entry r))) (rf_ctx r)) →
  wp P (λ _, True) (refresh_task rt r tt) (λ _ _, True)
  ∧ ∀ tr, run (refresh_task rt r tt) tr tt tt →
      ∃ tr', tr = tr' ++ [ISync (EUnmark (rf_tag r) (rf_key r)) tt].
Proof.
  intros HP Hb Hca Hup Hrm Hctx. split; [|intros tr; apply run_refresh_task].
  destruct (runtime_build_spec cfg) as (r0 & Hr0 & Hok). rewrite Hb in Hr0.
  injection Hr0 as <-. destruct (Hok rt eq_refl) as [rank Hrank].
  unfold refresh_task. apply wp_bind. eapply (wp_mono P (λ _, True) _ _ (λ _ _, True));
    [|done|intros [] [] _; by apply wp_sync].
  unfold refresh_body. apply wp_bind, wp_sync; [done|]. intros [|] _; [|done]. apply wp_bind. unfold within.
  eapply wp_enclose; [|done|]; [by apply (wp_handle P HP rt rank Hrank Hca)|]. done.
Qed.

(** ** Concrete instances *)

Definition d_q : Message := d_query 7 "a.test" rt_A.
(** A message with opcode 2, and its encoding. *)
Definition d_status : Message := set_op_code 2%Z d_q.
Definition d_wire (m : Message) : list Z := match encode_msg m with Ok w => w | Err _ => [] end.


(** A registry with one [black_hole]. *)
Definition d_hole : Runtime :=
  mkRuntime (mkRegistry {["no" := XBlackhole (mkBlackhole rc_NXDomain)]} ∅ ∅ ∅ None true) d_config.
Lemma handle_accounting_witness :
  let c := ctx_new 1 0 d_q None ProtoTcp in
  ∃ tr c', run (handle d_hole "no" (secs 5) c) tr c' (Ok tt) ∧ has_resp c' = true
    ∧ ∃ tr1 tr2, tr = tr1 ++ tr2 ∧ counted Responses tr2 = 1%Z ∧ counted Dropped tr2 = 0%Z ∧ counted Queries tr2 = 1%Z.
Proof.
  intros c.
  assert (Hr : ∃ tr c', run (handle d_hole "no" (secs 5) c) tr c' (Ok tt) ∧ has_resp c' = true).
  { eexists _, _. split; [|shelve].
    exists 8000%Z. eexists. split; [reflexivity|].
    eexists tt, _. split; [reflexivity|]. exists 9000%Z. eexists. split; [reflexivity|].
    eexists tt, _. split; [reflexivity|]. eexists tt, _. split; [reflexivity|]. split; [reflexivity|].
    split; [reflexivity|reflexivity]. Unshelve. reflexivity. }
  destruct Hr as (tr & c' & Hr & Hc'). exists tr, c'. split; [exact Hr|]. split; [exact Hc'|].
  destruct (handle_accounting d_hole "no" (secs 5) c c' tr (Ok tt) (XBlackhole (mkBlackhole rc_NXDomain)))
    as (tr1 & tr2 & c1 & outcome & Htr & _ & _ & _ & _ & H1 & H2 & H3); [reflexivity|reflexivity|exact Hr|].
  rewrite Hc' in H2, H3. exists tr1, tr2. done.
Defined.

Lemma d_serves entry q addr proto : serves d_run_protocol entry q addr proto.
Proof. by intros id now. Qed.

Lemma d_clock_ok : item_ok d_run_protocol (ISync ENow 0%Z).
Proof. cbn. unfold secs. lia. Qed.
Lemma d_clock_sent bytes : Forall (item_ok d_run_protocol) [ISync ENow 0%Z; IAwait (ASendTo bytes) (Ok tt)].
Proof. apply Forall_cons. split; [apply d_clock_ok|]. by apply Forall_singleton. Qed.

(** Sends that go well. *)
Section sends.
Context {H : Hickory}.

Lemma udp_send_run c m bytes :
  c_response c = Some m → encode_udp m (udp_payload_max (c_query c)) = Ok bytes →
  run (udp_send c tt) [IAwait (ASendTo bytes) (Ok tt)] tt tt.
Proof.
  intros Hm Hb. unfold udp_send. rewrite Hm, Hb. by eexists (Ok tt), _.
Qed.

(** The writing of a frame, begun at [now]. *)
Definition timed_write (now d : Z) (bytes : list Z) : list item :=
  let w part := IAwait (ATimer (timer_at now d) (AWriteAll part)) (Some (Ok tt)) in
  [ISync ENow now; w (to_be_bytes (Z.of_nat (length bytes))); w bytes; w []].

Lemma write_tcp_run idle c m bytes now :
  c_response c = Some m → encode_msg m = Ok bytes → (u16_max <? Z.of_nat (length bytes))%Z = false →
  run (write_tcp_response idle c tt) (timed_write now idle bytes) tt (Ok tt).
Proof.
  intros Hm Hb Hl. unfold write_tcp_response. rewrite Hm, Hb, Hl. eexists now, _. split; [reflexivity|].
  eexists (Some (Ok tt)), _. split; [reflexivity|]. eexists (Some (Ok tt)), _. split; [reflexivity|].
  by eexists (Some (Ok tt)), _.
Qed.

Lemma new_ctx_run {L} id now q addr proto (l : L) :
  run (new_ctx q addr proto l) [ISync ENextId id; ISync ENow now] l (ctx_new id now q addr proto).
Proof. exists id. eexists. split; [reflexivity|]. exists now. by eexists. Qed.
End sends.

(** A round of a connection that reads a message with another opcode. *)
Lemma serve_frame_notimp_run `{Hickory} {N : IpNetLib} {Rx : RegexLib} {T : TlsLib} {Y : Yaml} (live : nat → Runtime)
    entry limit idle proto peer hdr buf q m bytes id now :
  length hdr = 2 → length buf = Z.to_nat (from_be_bytes hdr) →
  (from_be_bytes hdr =? 0)%Z = false → decode_msg buf = Ok q → classify_incoming q = IncomingNotImp →
  c_response (reject rc_NotImp (ctx_new id now q peer proto)) = Some m → encode_msg m = Ok bytes →
  (u16_max <? Z.of_nat (length bytes))%Z = false →
  run (serve_frame live entry limit idle proto peer tt)
    (timed_read now idle hdr ++ timed_read now idle buf ++ [ISync ENextId id; ISync ENow now] ++ timed_write now idle bytes)
    tt (Ok true).
Proof.
  intros H2 Hlen Hhdr Hd Hk Hm Hb Hl. unfold serve_frame.
  apply run_bind. eexists _, _, tt, (Some (Ok hdr)). split; [reflexivity|].
  split; [apply run_timeout_suspend; split; [done|]; exists now; by rewrite <- H2|]. cbv beta iota zeta. rewrite Hhdr.
  apply run_bind. eexists _, _, tt, (Some (Ok buf)). split; [reflexivity|].
  split; [apply run_timeout_suspend; split; [done|]; exists now; by rewrite <- Hlen|]. cbv beta iota zeta. rewrite Hd, Hk.
  apply run_bind. eexists [_; _], _, tt, _. split; [reflexivity|]. split; [apply new_ctx_run|].
  apply run_bind. eexists _, [], tt, (Ok tt). split; [symmetry; apply app_nil_r|].
  split; [by apply write_tcp_run with m|done].
Qed.

(** The NOTIMP reply to [d_status], as a context, and that it can be sent. *)
Definition d_notimp (addr : option IpAddr) (proto : ClientProto) : QueryContext :=
  reject rc_NotImp (ctx_new 1 0 d_status addr proto).
Lemma d_notimp_udp addr proto : ∃ m bytes, c_response (d_notimp addr proto) = Some m
  ∧ encode_udp m (udp_payload_max (c_query (d_notimp addr proto))) = Ok bytes.
Proof.
  eexists. destruct (encode_udp (make_response rc_NotImp (ctx_new 1 0 d_status addr proto)) 512) as [b|e] eqn:E.
  - exists b. split; [reflexivity|exact E].
  - exfalso. assert (Hb : is_ok (encode_udp (make_response rc_NotImp (ctx_new 1 0 d_status addr proto)) 512) = true)
      by (by vm_compute). by rewrite E in Hb.
Qed.

Lemma d_notimp_tcp addr proto : ∃ m bytes, c_response (d_notimp addr proto) = Some m
  ∧ encode_msg m = Ok bytes ∧ (u16_max <? Z.of_nat (length bytes))%Z = false.
Proof.
  eexists. destruct (encode_msg (make_response rc_NotImp (ctx_new 1 0 d_status addr proto))) as [b|e] eqn:E.
  - exists b. split; [reflexivity|]. split; [exact E|].
    assert (Hb : match encode_msg (make_response rc_NotImp (ctx_new 1 0 d_status addr proto)) with
                 | Ok b => (u16_max <? Z.of_nat (length b))%Z | Err _ => true end = false) by (by vm_compute).
    by rewrite E in Hb.
  - exfalso. assert (Hb : is_ok (encode_msg (make_response rc_NotImp (ctx_new 1 0 d_status addr proto))) = true)
      by (by vm_compute). by rewrite E in Hb.
Qed.

(** A datagram with another opcode is answered with NOTIMP. *)
(** A server that is never reloaded. *)
Definition d_live : nat → Runtime := λ _, d_runtime.
Lemma d_live_ok : live_ok d_run_protocol d_live.
Proof. intros g _. split; [exists d_config; apply d_runtime_built|apply d_runtime_caches]. Qed.


(** The frame of [d_status]. *)
Lemma d_status_frame : ∃ hdr buf, decode_msg buf = Ok d_status ∧ length buf = Z.to_nat (from_be_bytes hdr)
  ∧ (from_be_bytes hdr =? 0)%Z = false ∧ length hdr = 2.
Proof.
  exists (to_be_bytes (Z.of_nat (length (d_wire d_status)))), (d_wire d_status). split; [by vm_compute|].
  split; [|split; [by vm_compute|reflexivity]]. rewrite from_to_be_bytes, Nat2Z.id; [done|]. split; [lia|]. apply Z.leb_le. by vm_compute.
Qed.


(** A request whose body does not decode. *)
Lemma doh_reply_witness :
  let body := [0%Z; 0%Z; 0%Z] in
  ∃ e, decode_msg body = Err e
    ∧ ∀ tr reply, run (doh_handle d_live "main" (secs 5) (V4 134744072%Z) body tt) tr tt reply →
        Forall (item_ok d_run_protocol) tr → tr = [] ∧ reply = HttpBadRequest (error_display e).
Proof.
  intros body. destruct (decode_msg body) as [q|e] eqn:Ed.
  { exfalso. assert (Hb : is_ok (decode_msg body) = false) by (by vm_compute). by rewrite Ed in Hb. }
  exists e. split; [done|]. intros tr reply Hr Htr.
  pose proof (doh_reply d_run_protocol d_live "main" (secs 5) (V4 134744072%Z) body tr reply
    d_run_ambient d_live_ok (λ q, d_serves _ q _ _) Hr Htr) as Hd.
  by rewrite Ed in Hd.
Defined.

Lemma refresh_task_releases_witness :
  let r := mkRefresh (clone_for_lazy 2 0 (begin_pipeline "main" (d_ctx d_q))) "c1" "key" "main" in
  wp d_run_protocol (λ _, True) (refresh_task d_runtime r tt) (λ _ _, True).
Proof.
  intros r. apply (refresh_task_releases d_run_protocol d_config d_runtime r);
    [apply d_run_ambient|apply d_runtime_built|apply d_runtime_caches|exact I..].
Defined.
