(* ===== verification/Accept.v ===== *)
(** * [server.rs], the listeners: what is accepted, and how much at once

    Binding the UDP workers and the receive loop; the loop that accepts TCP and TLS
    streams; and [TlsIncoming], which feeds HTTPS connections to [axum].  A stream
    listener is a state machine: its free handshake permits and its sessions, with a
    step for everything the network or a session can do next.  Any order of such
    steps is possible, so what holds in every reachable state holds for every
    interleaving of the sessions.  What serves a session is a task here, and the number
    of one in [Front].

    [spawn_tcp] and [TlsIncoming] bound the handshakes under way by
    [MAX_TLS_HANDSHAKES] in two ways, a semaphore and the length of a queue; the
    theorems show both bounds, and that no permit is ever lost. *)
From S2P Require Import Prelude RustStr RustNet Error Hickory HickoryDemo External PublicIp.
From S2P Require Import DnsUtil Context Config DomainSet Matcher Upstream Shard Net Task Actions Ecs.
From S2P Require Import Hosts Cache Exchange Forward Fallback Sequence Graph Listener Runtime Server.

(** @src src/src/server.rs 31-31 MAX_TLS_HANDSHAKES *)
Definition MAX_TLS_HANDSHAKES : nat := 128.
(** @src src/src/server.rs 32-32 TLS_HANDSHAKE_TIMEOUT *)
Definition TLS_HANDSHAKE_TIMEOUT : Z := secs 10.

(** The socket calls; [k] tells the attempts apart. *)
Class SocketLib := {
  udp_socket : nat → bool → result IoError nat;
  set_reuse_address : nat → result IoError unit;
  set_reuse_port : nat → result IoError unit;
  set_nonblocking : nat → result IoError unit;
  socket_bind : nat → SocketAddr → result IoError unit;
  socket_into_tokio : nat → result IoError nat;
}.

(** ** UDP *)
Section udp.
Context {H : Hickory} {N : IpNetLib} {Rx : RegexLib} {T : TlsLib} {Y : Yaml} {SL : SocketLib}.

(** @src src/src/server.rs 220-236 bind_udp *)
Definition bind_udp (addr : string) (k : nat) : Res nat :=
  let? sa := ok_or (parse_socket_addr addr) (ErrConfig ("bad listen addr " +:+ addr +:+ ": " +:+ socket_parse_error)) in
  let? sock := map_err io_error (udp_socket k (negb (is_ipv4 (sa_ip sa)))) in
  let? _ := map_err io_error (set_reuse_address sock) in
  let? _ := map_err io_error (set_reuse_port sock) in
  let? _ := map_err io_error (set_nonblocking sock) in
  let? _ := map_err io_error (socket_bind sock sa) in
  map_err io_error (socket_into_tokio sock).

(** The sockets of the workers: all of them are bound before one is started.
    @src src/src/server.rs 138-160 spawn_udp *)
Definition spawn_udp (addr : string) (workers : Z) : Res (list nat) :=
  result_mapM (bind_udp addr) (seq 0 (Z.to_nat (Z.max workers 1))).

(** The outcome, given how the workers end.
    @src src/src/server.rs 161-164 spawn_udp *)
Definition udp_join (ended : list (result string unit)) : Res unit :=
  let? _ := result_mapM (map_err (λ e, ErrProtocol ("udp worker failed: " +:+ e))) ended in Ok tt.

(** The tasks a worker spawns for what it receives.
    @src src/src/server.rs 167-183 udp_loop *)
Fixpoint udp_loop (live : nat → Runtime) (entry : string) (limit : Z)
    (received : list (result IoError (list Z * SocketAddr))) : list (M unit unit) :=
  match received with
  | [] => []
  | Err _ :: received => udp_loop live entry limit received
  | Ok (bytes, peer) :: received =>
      udp_packet live entry limit (sa_ip peer) bytes :: udp_loop live entry limit received
  end.
End udp.

(** ** Streams *)
Section stream.
Context {H : Hickory} {N : IpNetLib} {Rx : RegexLib} {T : TlsLib} {Y : Yaml}.

(** One accepted stream: its TLS handshake is under way, it is being served, or its
    task ended.  [X]: what serves a stream, a task or the name of one. *)
Inductive Session (X : Type) : Type :=
| Handshaking (peer : IpAddr)
| Serving (peer : IpAddr) (serve : X)
| Ended (r : Res unit).
#[global] Arguments Handshaking {X}.
#[global] Arguments Serving {X}.
#[global] Arguments Ended {X}.

(** The permits left and the sessions in the order they were accepted. *)
Record StreamListener (X : Type) : Type := mkStreamListener { sl_permits : nat; sl_sessions : list (Session X) }.
#[global] Arguments mkStreamListener {X}.
#[global] Arguments sl_permits {X}.
#[global] Arguments sl_sessions {X}.

(** The settings of a listener.
    @src src/src/server.rs 238-246 spawn_tcp *)
Record StreamSettings : Type := mkStreamSettings {
  ss_live : nat → Runtime;
  ss_entry : string;
  ss_limit : Z;
  ss_idle : Z;
  ss_proto : ClientProto;
  ss_tls : bool;
}.

Context (cfg : StreamSettings) (n : nat).
Context {X : Type}.
Implicit Types (serve : IpAddr → X) (s : StreamListener X).

(** @src src/src/server.rs 247-249 spawn_tcp *)
Definition listener_start : StreamListener X := mkStreamListener MAX_TLS_HANDSHAKES [].

(** A stream is accepted: without a permit left it is dropped.
    @src src/src/server.rs 251-269 spawn_tcp *)
Definition on_accept serve (accepted : result IoError IpAddr) s : StreamListener X :=
  match accepted with
  | Err _ => s
  | Ok peer =>
      if ss_tls cfg then
        match sl_permits s with
        | 0 => s
        | S permits => mkStreamListener permits (sl_sessions s ++ [Handshaking peer])
        end
      else mkStreamListener (sl_permits s) (sl_sessions s ++ [Serving peer (serve peer)])
  end.

(** How long a handshake may take.
    @src src/src/server.rs 273-273 spawn_tcp *)
Definition handshake_limit : Z := Z.min (ss_idle cfg) TLS_HANDSHAKE_TIMEOUT.

(** A handshake ends: [None] when it took too long.  The permit is dropped when
    the stream begins to be served, or with the task.
    @src src/src/server.rs 269-302 spawn_tcp *)
Definition after_handshake serve (peer : IpAddr) (r : option (result string unit)) : Session X :=
  match r with
  | None => Ended (Err (ErrProtocol "tls handshake timeout"))
  | Some (Err e) => Ended (Err (ErrProtocol e))
  | Some (Ok _) => Serving peer (serve peer)
  end.
Definition on_handshake serve (i : nat) (peer : IpAddr) (r : option (result string unit)) s : StreamListener X :=
  mkStreamListener (S (sl_permits s)) (<[i := after_handshake serve peer r]> (sl_sessions s)).
End stream.

(** The listener with the tasks that serve its sessions. *)
Section sessions.
Context {H : Hickory} {N : IpNetLib} {Rx : RegexLib} {T : TlsLib} {Y : Yaml}.
Context (cfg : StreamSettings) (n : nat).
Notation Task := (task unit (Res bool)).

(** What serves a stream of at most [n] messages. *)
Definition serve_stream (peer : IpAddr) : Task :=
  serve_framed n (ss_live cfg) (ss_entry cfg) (ss_limit cfg) (ss_idle cfg) (ss_proto cfg) (Some peer) tt.

(** A session that is served makes an access or gets a reply, or its task ends. *)
Inductive serve_step : Session Task → Session Task → Prop :=
| serve_sync peer l e k r : serve_step (Serving peer (Sync l e k)) (Serving peer (k r))
| serve_await peer l a k r : serve_step (Serving peer (Await l a k)) (Serving peer (k r))
| serve_ret peer l r : serve_step (Serving peer (Ret l r)) (Ended (let? _ := r in Ok tt)).

Inductive listener_step : StreamListener Task → StreamListener Task → Prop :=
| step_accept accepted s : listener_step s (on_accept cfg serve_stream accepted s)
| step_handshake i peer r s :
    sl_sessions s !! i = Some (Handshaking peer) → listener_step s (on_handshake serve_stream i peer r s)
| step_serve i x x' s :
    sl_sessions s !! i = Some x → serve_step x x' →
    listener_step s (mkStreamListener (sl_permits s) (<[i := x']> (sl_sessions s))).

Definition listener_reachable (s : StreamListener Task) : Prop := rtc listener_step listener_start s.

(** The sessions that hold a permit. *)
Definition handshaking {X} (x : Session X) : Prop := match x with Handshaking _ => True | _ => False end.
#[export] Instance handshaking_dec {X} (x : Session X) : Decision (handshaking x).
Proof. destruct x; apply _. Defined.
Definition handshakes {X} (s : StreamListener X) : nat := length (filter handshaking (sl_sessions s)).

(** Every permit is free or held by one handshake. *)
Definition permits_balanced {X} (s : StreamListener X) : Prop := sl_permits s + handshakes s = MAX_TLS_HANDSHAKES.

Lemma handshakes_snoc {X} p (l : list (Session X)) x : handshakes (mkStreamListener p (l ++ [x])) = length (filter handshaking l) + (if decide (handshaking x) then 1 else 0).
Proof. unfold handshakes. cbn. rewrite list.filter_app, length_app. f_equal. rewrite filter_cons. by case_decide. Qed.

Lemma filter_insert_length {A} (Q : A → Prop) `{∀ x, Decision (Q x)} (l : list A) i x x' :
  l !! i = Some x →
  length (filter Q (<[i := x']> l)) + (if decide (Q x) then 1 else 0)
  = length (filter Q l) + (if decide (Q x') then 1 else 0).
Proof.
  intros Hi. rewrite (insert_take_drop l i x') by (by eapply lookup_lt_Some).
  rewrite <- (take_drop_middle l i x Hi) at 3. rewrite !list.filter_app, !filter_cons, !length_app.
  repeat case_decide; cbn; lia.
Qed.

Lemma listener_step_balanced s s' : listener_step s s' → permits_balanced s → permits_balanced s'.
Proof.
  unfold permits_balanced. intros Hstep Hb. destruct Hstep as [[peer|e] s|i peer r s Hi|i x x' s Hi Hx].
  - unfold on_accept. destruct (ss_tls cfg).
    + destruct s as [[|p] l]; cbn [sl_permits sl_sessions] in *; [done|].
      rewrite handshakes_snoc, decide_True by done. unfold handshakes in Hb. cbn in *. lia.
    + rewrite handshakes_snoc, decide_False by tauto. unfold handshakes in Hb. cbn in *. lia.
  - done.
  - unfold on_handshake, handshakes in *. cbn [sl_permits sl_sessions].
    pose proof (filter_insert_length handshaking (sl_sessions s) i _ (after_handshake serve_stream peer r) Hi) as Hf.
    rewrite (decide_True (P := handshaking (Handshaking peer))) in Hf by done.
    rewrite (decide_False (P := handshaking (after_handshake serve_stream peer r))) in Hf by (destruct r as [[]|]; tauto). lia.
  - unfold handshakes in *. cbn [sl_permits sl_sessions].
    pose proof (filter_insert_length handshaking (sl_sessions s) i x x' Hi) as Hf.
    rewrite !decide_False in Hf by (by destruct Hx; cbn; tauto). lia.
Qed.

Lemma listener_reachable_balanced s : listener_reachable s → permits_balanced s.
Proof.
  unfold listener_reachable. assert (permits_balanced (X := Task) listener_start) as Hs by done. revert Hs.
  generalize (listener_start (X := Task)). intros s0 Hs Hr. induction Hr as [|s1 s2 s3 Hst _ IH]; [done|].
  by apply IH, (listener_step_balanced s1).
Qed.

(** Handshakes that run into their time limit. *)
Lemma handshake_times_out s i peer :
  sl_sessions s !! i = Some (Handshaking peer) →
  let s' := on_handshake serve_stream i peer None s in
  listener_step s s' ∧ S (handshakes s') = handshakes s
  ∧ (∀ j x, sl_sessions s !! j = Some x → ¬ handshaking x → sl_sessions s' !! j = Some x).
Proof.
  intros Hi s'. split; [by apply step_handshake|]. split.
  - unfold handshakes, s', on_handshake. cbn [sl_sessions].
    pose proof (filter_insert_length handshaking (sl_sessions s) i _ (after_handshake serve_stream peer None) Hi) as Hf.
    rewrite (decide_True (P := handshaking (Handshaking peer))), (decide_False (P := handshaking (after_handshake serve_stream peer None))) in Hf by (cbn; tauto).
    lia.
  - intros j x Hj Hx. cbn [s' on_handshake sl_sessions]. rewrite list_lookup_insert_ne; [done|].
    intros ->. rewrite Hi in Hj. by injection Hj as <-.
Qed.

Lemma handshakes_all_end s :
  ∃ s', rtc listener_step s s' ∧ handshakes s' = 0
    ∧ (∀ j x, sl_sessions s !! j = Some x → ¬ handshaking x → sl_sessions s' !! j = Some x).
Proof.
  remember (handshakes s) as k eqn:Ek. revert s Ek. induction k as [|k IH]; intros s Ek.
  { exists s. split; [reflexivity|done]. }
  assert (∃ i peer, sl_sessions s !! i = Some (Handshaking peer)) as (i & peer & Hi).
  { unfold handshakes in Ek. destruct (filter handshaking (sl_sessions s)) as [|x l] eqn:Ef; [done|].
    assert (x ∈ filter handshaking (sl_sessions s)) as Hx by (rewrite Ef; left).
    apply list_elem_of_filter in Hx as [Hh [i Hi]%list_elem_of_lookup]. destruct x as [peer| |]; [|done..]. by exists i, peer. }
  destruct (handshake_times_out s i peer Hi) as (Hst & Hlen & Hsame).
  destruct (IH (on_handshake serve_stream i peer None s)) as (s' & Hr & Hz & Hs'); [lia|].
  exists s'. split; [by eapply rtc_l|]. split; [done|]. intros j x Hj Hx. apply Hs'; [by apply Hsame|done].
Qed.
End sessions.

(** ** HTTPS connections *)
Section https.
Context {H : Hickory} {N : IpNetLib} {Rx : RegexLib} {T : TlsLib} {Y : Yaml} {LI : ListenerLib} {B : Base64Lib}.

(** A handshake of the queue, with its outcome once it has one.
    @src src/src/server.rs 436-444 TlsIncoming *)
Record Pending : Type := mkPending { pd_peer : SocketAddr; pd_done : option (Res unit) }.
Notation Queue := (list Pending) (only parsing).

(** @src src/src/server.rs 410-411 spawn_doh *)
Definition doh_handshake_limit (l : ListenerConfig) : Z :=
  Z.min (secs (Z.max (default 10%Z (l_idle_timeout l)) 1)) TLS_HANDSHAKE_TIMEOUT.

(** The paths of the service.
    @src src/src/server.rs 389-393 spawn_doh *)
Definition doh_paths (l : ListenerConfig) : list string :=
  let path := default "/dns-query" (l_url_path l) in
  if decide (path = "/dns-query") then ["/dns-query"] else ["/dns-query"; path].

(** What [spawn_doh] serves: the address, and the acceptor with its handshake limit when
    it is HTTPS.
    @src src/src/server.rs 396-434 spawn_doh *)
Definition spawn_doh (l : ListenerConfig) : Res (SocketAddr * option (TlsConfig * list string * Z)) :=
  let? addr := ok_or (parse_socket_addr (l_addr l)) (ErrConfig ("bad doh addr: " +:+ socket_parse_error)) in
  match l_cert l, l_key l with
  | Some cert, Some key =>
      let? acceptor := tls_acceptor cert key ["h2"; "http/1.1"] in
      Ok (addr, Some (acceptor, doh_handshake_limit l))
  | None, None => Ok (addr, None)
  | _, _ => Err (ErrConfig "doh https needs both cert and key (omit both for plaintext behind a TLS terminator)")
  end.

(** What [validate_listener] accepted is served. *)
Lemma validated_doh_starts l l' :
  validate_listener l = Ok tt → spawn_listener l = Ok (ServeDoh l') → l' = l ∧ is_ok (spawn_doh l') = true.
Proof.
  unfold spawn_listener. intros Hv. rewrite Hv. cbn [result_bind]. cbv zeta. unfold validate_listener in Hv.
  apply result_bind_Ok in Hv as (addr & Ha & Hv). revert Hv.
  generalize (to_ascii_lowercase (l_protocol l)). intros p.
  destruct (decide (p ∈ ["udp"; ""; "tcp"])) as [H1|H1].
  { intros _. destruct (decide (p ∈ ["udp"; ""])); [done|]. rewrite decide_True; [done|set_solver]. }
  rewrite (decide_False (P := p ∈ ["udp"; ""])), (decide_False (P := p = "tcp")) by set_solver.
  destruct (decide (p ∈ ["tls"; "dot"])).
  { intros _ Hs. repeat (apply result_bind_Ok in Hs as (? & _ & Hs)). discriminate Hs. }
  destruct (decide (p ∈ ["doh"; "https"; "http"])); [|done]. intros Hv [= <-]. split; [done|].
  apply result_bind_Ok in Hv as ([upath uquery] & _ & Hv). destruct (doh_path_ok _ _ _); [|done]. cbn [negb] in Hv.
  unfold spawn_doh. destruct (parse_socket_addr (l_addr l)) as [sa|]; [|done]. cbn [ok_or result_bind].
  destruct (l_cert l), (l_key l); try done. by destruct (tls_acceptor _ _ _).
Qed.

(** What the service does with a request for [path]; [None]: the router's own reply.
    HEAD is served as GET.
    @src src/src/server.rs 390-394 spawn_doh *)
Definition doh_app (l : ListenerConfig) (live : nat → Runtime) (entry : string) (limit : Z) (peer : IpAddr)
    (method path : string) (uri_query : option string) (body : list Z) : option (M unit HttpReply) :=
  if negb (bool_decide (path ∈ doh_paths l)) then None
  else if decide (method = "POST") then Some (doh_post live entry limit peer body)
  else if decide (method = "GET" ∨ method = "HEAD") then Some (doh_get live entry limit peer uri_query)
  else None.

(** How a handshake of the queue ends.
    @src src/src/server.rs 491-495 TlsIncoming::accept *)
Definition handshake_outcome (r : option (result string unit)) : Res unit :=
  match r with
  | None => Err (ErrProtocol "tls handshake timeout")
  | Some (Err e) => Err (ErrProtocol e)
  | Some (Ok _) => Ok tt
  end.

(** A socket is accepted.
    @src src/src/server.rs 477-497 TlsIncoming::accept *)
Definition enqueue (accepted : result IoError SocketAddr) (q : Queue) : Queue :=
  match accepted with
  | Err _ => q
  | Ok addr => if Nat.leb MAX_TLS_HANDSHAKES (length q) then q else q ++ [mkPending addr None]
  end.

(** One round of [accept]: with a finished handshake in the queue, that is taken
    ([biased]): the call returns the connection, or goes on when it failed.  A
    socket is accepted only when none is finished.
    @src src/src/server.rs 465-500 TlsIncoming::accept *)
Inductive accept_round : Queue → Queue → option SocketAddr → Prop :=
| round_ready q i addr :
    q !! i = Some (mkPending addr (Some (Ok tt))) → accept_round q (delete i q) (Some addr)
| round_failed q i addr e :
    q !! i = Some (mkPending addr (Some (Err e))) → accept_round q (delete i q) None
| round_accept q accepted :
    Forall (λ p, pd_done p = None) q → accept_round q (enqueue accepted q) None.

(** Meanwhile handshakes end. *)
Inductive incoming_step : Queue → Queue → Prop :=
| incoming_round q q' out : accept_round q q' out → incoming_step q q'
| incoming_ends q i addr r :
    q !! i = Some (mkPending addr None) →
    incoming_step q (<[i := mkPending addr (Some (handshake_outcome r))]> q).

Lemma incoming_step_bound q q' :
  incoming_step q q' → length q ≤ MAX_TLS_HANDSHAKES → length q' ≤ MAX_TLS_HANDSHAKES.
Proof.
  intros Hst Hq. destruct Hst as [q q' out Hr|q i addr r Hi]; [|by rewrite length_insert].
  destruct Hr as [q i addr Hi|q i addr e Hi|q accepted Hd]; [rewrite length_delete; eauto; lia..|].
  destruct accepted as [addr|e]; [|done]. unfold enqueue. destruct (Nat.leb_spec MAX_TLS_HANDSHAKES (length q)); [done|].
  rewrite length_app. cbn. lia.
Qed.

Lemma incoming_bound q : rtc incoming_step [] q → length q ≤ MAX_TLS_HANDSHAKES.
Proof.
  assert (length (@nil Pending) ≤ MAX_TLS_HANDSHAKES) as H0 by (cbn; lia). revert H0. generalize (@nil Pending).
  intros q0 H0 Hr. induction Hr as [|q1 q2 q3 Hst _ IH]; [done|]. by apply IH, (incoming_step_bound q1).
Qed.
End https.

(** C26: TLS handshakes are bounded and none of their permits is lost.  In every
    state a stream listener can reach, the free permits and the handshakes under
    way are 128 together; a TLS stream is accepted exactly when fewer than 128 are
    under way, and otherwise nothing changes, whatever sessions are being
    served; and from every such state the handshakes can all end, be it by their
    time limit, after which all 128 permits are free and every session that was
    being served is as it was.  The queue of an HTTPS listener never holds more than
    128 handshakes. *)
Theorem tls_handshakes_bounded {H : Hickory} {N : IpNetLib} {Rx : RegexLib} {T : TlsLib} {Y : Yaml}
    (cfg : StreamSettings) (n : nat) (s : StreamListener (task unit (Res bool))) (peer : IpAddr) (q : list Pending) :
  listener_reachable cfg n s → ss_tls cfg = true → rtc incoming_step [] q →
  sl_permits s + handshakes s = 128
  ∧ on_accept cfg (serve_stream cfg n) (Ok peer) s
    = (if Nat.ltb (handshakes s) 128 then mkStreamListener (sl_permits s - 1) (sl_sessions s ++ [Handshaking peer]) else s)
  ∧ (∃ s', rtc (listener_step cfg n) s s' ∧ sl_permits s' = 128
       ∧ ∀ j x, sl_sessions s !! j = Some x → ¬ handshaking x → sl_sessions s' !! j = Some x)
  ∧ length q ≤ 128.
Proof.
  intros Hr Htls Hq. pose proof (listener_reachable_balanced cfg n s Hr) as Hb. unfold permits_balanced in Hb.
  split; [exact Hb|]. split; [|split; [|by apply incoming_bound]].
  - unfold on_accept. rewrite Htls. unfold MAX_TLS_HANDSHAKES in Hb.
    destruct (sl_permits s) as [|p], (Nat.ltb_spec (handshakes s) 128); try lia; [done|]. f_equal. lia.
  - destruct (handshakes_all_end cfg n s) as (s' & Hrs & Hz & Hsame). exists s'. split; [done|]. split; [|done].
    pose proof (listener_reachable_balanced cfg n s' ltac:(unfold listener_reachable in *; by etrans)) as Hb'.
    unfold permits_balanced, MAX_TLS_HANDSHAKES in Hb'. lia.
Qed.

(** ** One handshake under way *)
Definition d_settings : StreamSettings :=
  mkStreamSettings d_live "main" (secs 5) (secs 10) ProtoTls true.
Definition d_handshaking : StreamListener (task unit (Res bool)) :=
  on_accept d_settings (serve_stream d_settings 1) (Ok (V4 134744072%Z)) listener_start.

Lemma d_handshaking_reachable : listener_reachable d_settings 1 d_handshaking.
Proof. apply rtc_once, step_accept. Qed.

Lemma tls_handshakes_bounded_witness :
  listener_reachable d_settings 1 d_handshaking
  ∧ sl_permits d_handshaking + handshakes d_handshaking = 128 ∧ sl_permits d_handshaking = 127.
Proof.
  split; [exact d_handshaking_reachable|]. split; [|done].
  exact (proj1 (tls_handshakes_bounded d_settings 1 d_handshaking (V4 0%Z) [] d_handshaking_reachable eq_refl (rtc_refl _ _))).
Defined.
