(* ===== verification/Api.v ===== *)
(** * [api.rs]: the admin API

    A request passes [response_headers], which refuses writes that a browser sends
    for another origin and sets the headers every response has, and is then
    dispatched to its handler.  The live runtime is the one [Live::get] gives when
    the request arrives, its counters are a [Metrics] value; the handlers that
    use the pipeline or the caches are tasks.

    The types of [http], [url], [axum] and [serde_json] are the parameter
    [WebLib]; JSON values are data here, how they print is not modelled. *)
From S2P Require Import Prelude RustStr RustNet Error Hickory HickoryDemo External PublicIp.
From S2P Require Import DnsUtil Context Config DomainSet Matcher Upstream Shard Net Task Metrics.
From S2P Require Import Actions Ecs Hosts Cache CacheKey CacheHits Exchange Forward Fallback Sequence Graph Listener.
From S2P Require Import Runtime Server.
From stdpp Require Import sorting.

(** ** Requests and responses *)

(** The fields of the body of a query, as far as they are given. *)
Record QueryFields : Type := mkQueryFields {
  qf_name : string;
  qf_qtype : option string;
  qf_entry : option string;
  qf_ecs : option string;
  qf_client_ip : option string;
}.

(** @src src/src/api.rs 406-411 FlushReq *)
Record FlushReq : Type := mkFlushReq { fr_tag : option string }.

(** [http::HeaderMap] and [HeaderValue], [url::Url], [http::uri::Authority], and
    what axum and serde make of a body.  The names of headers are in lower case. *)
Class WebLib := {
  HeaderValue : Type;
  header_from_static : string → HeaderValue;
  header_to_str : HeaderValue → option string;
  HeaderMap : Type;
  headers_empty : HeaderMap;
  headers_get_all : string → HeaderMap → list HeaderValue;
  headers_insert : string → HeaderValue → HeaderMap → HeaderMap;
  method_is_safe : string → bool;
  Url : Type;
  url_parse : string → option Url;
  url_scheme : Url → string;
  url_host_str : Url → option string;
  url_port : Url → option Z;
  url_username : Url → string;
  url_password : Url → option string;
  url_path : Url → string;
  url_query : Url → option string;
  url_fragment : Url → option string;
  Origin : Type;
  url_origin : Url → Origin;
  origin_eqb : Origin → Origin → bool;
  authority_parses : string → bool;
  json_query_fields : HeaderMap → list Z → result (Z * string) QueryFields;
  json_flush_req : list Z → option FlushReq;
}.

(** [HeaderMap::insert] replaces the values of one name; POST is not safe, and
    [Origin] has a decidable equality. *)
Class WebLaws (W : WebLib) : Prop := {
  headers_get_inserted : ∀ name v h, headers_get_all name (headers_insert name v h) = [v];
  headers_get_other : ∀ name name' v h, name ≠ name' →
    headers_get_all name' (headers_insert name v h) = headers_get_all name' h;
  method_post_unsafe : method_is_safe "POST" = false;
  origin_eqb_spec : ∀ o o', origin_eqb o o' = true ↔ o = o';
}.

(** How the text and the debug form of records print. *)
Class HickoryShow (H : Hickory) := {
  rdata_debug : RData → string;
  rdata_display : RData → string;
  rt_display : RecordType → string;
}.

(** [serde_json::Value]. *)
Inductive Json : Type :=
| JNull
| JBool (b : bool)
| JNum (n : Z)
| JStr (s : string)
| JArr (l : list Json)
| JObj (fields : list (string * Json)).

Definition json_opt (o : option string) : Json := match o with Some s => JStr s | None => JNull end.

Inductive Body : Type := BEmpty | BText (s : string) | BJson (j : Json).

Section api.
Context {H : Hickory} {HS : HickoryShow H} {N : IpNetLib} {Rx : RegexLib} {T : TlsLib} {Y : Yaml} {O : HashOrder} {W : WebLib}.

Record Request : Type := mkRequest {
  rq_method : string;
  rq_path : string;
  rq_headers : HeaderMap;
  rq_body : list Z;
}.
Record Response : Type := mkResponse { rs_status : Z; rs_headers : HeaderMap; rs_body : Body }.

(** [HeaderMap::get]: the first value. *)
Definition headers_get (name : string) (h : HeaderMap) : option HeaderValue := head (headers_get_all name h).

(** [IntoResponse] of a text with its status and type, and of [Json]. *)
Definition typed (ctype : string) : HeaderMap := headers_insert "content-type" (header_from_static ctype) headers_empty.
Definition text_response (status : Z) (s : string) : Response :=
  mkResponse status (typed "text/plain; charset=utf-8") (BText s).
Definition json_response (j : Json) : Response := mkResponse 200 (typed "application/json") (BJson j).
Definition into_response (r : result (Z * string) Json) : Response :=
  match r with Ok j => json_response j | Err (status, s) => text_response status s end.

Definition BAD_REQUEST : Z := 400.
Definition FORBIDDEN : Z := 403.
Definition NOT_FOUND : Z := 404.
Definition UNSUPPORTED_MEDIA_TYPE : Z := 415.
Definition BAD_GATEWAY : Z := 502.

(** ** The guard *)

(** The first test of [trusted_browser_source].
    @src src/src/api.rs 92-97 trusted_browser_source *)
Definition trusted_site (h : HeaderMap) : bool :=
  match headers_get_all "sec-fetch-site" h with
  | [] => true
  | [site] => match header_to_str site with
              | Some s => bool_decide (s = "same-origin" ∨ s = "none")
              | None => false
              end
  | _ => false
  end.

(** An origin as browsers write it: no credentials, path, query or fragment.
    @src src/src/api.rs 113-122 trusted_browser_source *)
Definition plain_origin (u : Url) : bool :=
  bool_decide (url_scheme u = "http" ∨ url_scheme u = "https")
  && bool_decide (url_host_str u ≠ None) && bool_decide (url_username u = "")
  && bool_decide (url_password u = None) && bool_decide (url_path u = "/")
  && bool_decide (url_query u = None) && bool_decide (url_fragment u = None).

(** The host the request names, checked.
    @src src/src/api.rs 124-133 trusted_browser_source *)
Definition request_host (h : HeaderMap) : option string :=
  match headers_get_all "host" h with
  | [v] =>
      host ← header_to_str v;
      if str_contains "@" host || negb (authority_parses host) then None else Some host
  | _ => None
  end.

(** @src src/src/api.rs 91-139 trusted_browser_source *)
Definition trusted_browser_source (h : HeaderMap) : bool :=
  if negb (trusted_site h) then false
  else match headers_get_all "origin" h with
       | [] => true
       | [v] =>
           match header_to_str v ≫= url_parse with
           | None => false
           | Some origin =>
               if negb (plain_origin origin) then false
               else match request_host h with
                    | None => false
                    | Some host =>
                        match url_parse (url_scheme origin +:+ "://" +:+ host) with
                        | Some target => origin_eqb (url_origin target) (url_origin origin)
                        | None => false
                        end
                    end
           end
       | _ => false
       end.

(** @src src/src/api.rs 68-86 response_headers *)
Definition with_security_headers (r : Response) : Response :=
  let set name v h := headers_insert name (header_from_static v) h in
  mkResponse (rs_status r)
    (set "referrer-policy" "no-referrer"
      (set "x-content-type-options" "nosniff"
        (set "content-security-policy" "default-src 'none'; script-src 'self'; style-src 'self'; img-src 'self'; font-src 'self'; connect-src 'self'; base-uri 'none'; frame-ancestors 'none'; form-action 'self'"
          (set "cache-control" "no-store" (rs_headers r)))))
    (rs_body r).

(** The test of a request that must not reach a handler.
    @src src/src/api.rs 57-60 response_headers *)
Definition refused_write (req : Request) : bool :=
  starts_with "/api/" (rq_path req) && negb (method_is_safe (rq_method req))
  && negb (trusted_browser_source (rq_headers req)).

(** @src src/src/api.rs 56-86 response_headers *)
Definition response_headers {L} (req : Request) (next : M L Response) : M L Response :=
  let! response :=
    (if refused_write req then ret (text_response FORBIDDEN "cross-origin API writes are not allowed") else next) in
  ret (with_security_headers response).

(** ** Reading handlers *)

(** The state of the API, the live runtime with its counters in it.
    @src src/src/api.rs 19-24 AppState *)
Record AppState : Type := mkAppState {
  st_live : Runtime;
  st_metrics : Metrics;
  st_id_prefix : Z;
  st_initial_started : Z;
}.

(** [{:016x}] of a [u64]: sixteen digits. *)
Fixpoint hex_digits (n : nat) (z : Z) : string :=
  match n with 0 => "" | S n => hex_digits n (z / 16) +:+ String (hex_char (z mod 16)) "" end.
Definition show_hex64 (z : Z) : string := hex_digits 16 z.

(** @src src/src/api.rs 185-193 system *)
Definition runtime_id (id_prefix initial started : Z) : string :=
  let '(direction, elapsed) :=
    if (initial <=? started)%Z then ("+", (started - initial)%Z) else ("-", (initial - started)%Z) in
  show_hex64 id_prefix +:+ direction +:+ show_Z elapsed.

(** @src src/src/api.rs 249-267 public_upstream_address *)
Definition public_upstream_address (address : string) : string :=
  let address := trim address in
  let normalized := if str_contains "://" address then address else "udp://" +:+ address in
  match url_parse normalized with
  | None => "(hidden)"
  | Some url =>
      match url_host_str url with
      | None => "(hidden)"
      | Some host =>
          let port := match url_port url with Some port => ":" +:+ show_Z port | None => "" end in
          url_scheme url +:+ "://" +:+ host +:+ port
      end
  end.

(** @src src/src/api.rs 195-219 system *)
Definition plugin_upstreams (plugin : PluginConfig) : list Json :=
  if decide (pc_ty plugin = "forward" ∨ pc_ty plugin = "fast_forward") then
    match (match yget "upstreams" (pc_args plugin) with
           | Some list => Some list
           | None => yget "upstream" (pc_args plugin)
           end) with
    | None => []
    | Some list =>
        let values := default [list] (y_as_sequence list) in
        omap (λ value,
          match upstream_spec_from_value value with
          | Ok spec => Some (JObj [("plugin", JStr (plugin_tag plugin)); ("tag", json_opt (us_tag spec));
                                   ("addr", JStr (public_upstream_address (us_addr spec)))])
          | Err _ => None
          end) values
    end
  else [].

(** @src src/src/api.rs 224-238 system *)
Definition listener_json (server : ServerConfig) (listener : ListenerConfig) : Json :=
  let protocol := to_ascii_lowercase (l_protocol listener) in
  let tls := bool_decide (protocol = "tls" ∨ protocol = "dot")
             || (bool_decide (protocol = "http" ∨ protocol = "https" ∨ protocol = "doh")
                 && bool_decide (is_Some (l_cert listener)) && bool_decide (is_Some (l_key listener))) in
  JObj [("protocol", JStr (if decide (protocol = "") then "udp" else protocol));
        ("addr", JStr (l_addr listener)); ("entry", JStr (sc_exec server));
        ("timeout_secs", JNum (Z.max (sc_timeout server) 1)); ("tls", JBool tls)].

(** [VERSION] is set by the build.
    @src src/src/api.rs 181-245 system *)
Definition system (version : string) (st : AppState) : Json :=
  let rt := st_live st in
  let cfg := rt_config rt in
  JObj [("version", JStr version);
        ("runtime_id", JStr (runtime_id (st_id_prefix st) (st_initial_started st) (started (st_metrics st))));
        ("entry", json_opt (rg_default_entry (rt_registry rt)));
        ("listeners", JArr (server ← cf_servers cfg; listener_json server <$> sc_listeners server));
        ("plugins", JArr ((λ p, JObj [("tag", JStr (plugin_tag p)); ("type", JStr (pc_ty p))]) <$> cf_plugins cfg));
        ("upstreams", JArr (plugin ← cf_plugins cfg; plugin_upstreams plugin))].

(** [#[derive(Serialize)]] of [Snapshot]. *)
Definition snapshot_json (s : Snapshot) : Json :=
  JObj [("queries", JNum (sn_queries s)); ("responses", JNum (sn_responses s));
        ("cache_hits", JNum (sn_cache_hits s)); ("cache_misses", JNum (sn_cache_misses s));
        ("cache_lazy_hits", JNum (sn_cache_lazy_hits s)); ("upstream_ok", JNum (sn_upstream_ok s));
        ("upstream_err", JNum (sn_upstream_err s)); ("dropped", JNum (sn_dropped s));
        ("avg_latency_us", JNum (sn_avg_latency_us s)); ("uptime_secs", JNum (sn_uptime_secs s))].

(** @src src/src/api.rs 177-179 stats *)
Definition stats {L} (st : AppState) : M L Json :=
  let! now := sync ENow in
  ret (snapshot_json (snapshot now (st_metrics st))).

(** @src src/src/api.rs 173-175 metrics_prom *)
Definition metrics_prom {L} (st : AppState) : M L string :=
  let! now := sync ENow in
  ret (prometheus now (st_metrics st)).

(** The sizes of the caches under the tags [tags], in that order. *)
Fixpoint cache_sizes {L} (caches : gmap string Cache) (tags : list string) : M L (list Json) :=
  match tags with
  | [] => ret []
  | k :: tags =>
      match caches !! k with
      | None => cache_sizes caches tags
      | Some c =>
          let! size := cache_len c in
          let! rest := cache_sizes caches tags in
          ret (JObj [("tag", JStr k); ("size", JNum (Z.of_nat size))] :: rest)
      end
  end.

(** @src src/src/api.rs 269-282 plugins *)
Definition plugins {L} (st : AppState) : M L Json :=
  let r := rt_registry (st_live st) in
  let! caches := cache_sizes (rg_caches r) (hash_keys (rg_caches r)) in
  ret (JObj [("executables", JArr (JStr <$> hash_keys (rg_execs r)));
             ("domain_sets", JArr (JStr <$> hash_keys (rg_domains r)));
             ("ip_sets", JArr (JStr <$> hash_keys (rg_ips r)));
             ("caches", JArr caches); ("entry", json_opt (rg_default_entry r))]).

(** ** The query handler *)

(** @src src/src/api.rs 299-301 default_qtype *)
Definition default_qtype : string := "A".

(** @src src/src/api.rs 284-297 QueryReq *)
Record QueryReq : Type := mkQueryReq {
  qr_name : string;
  qr_qtype : string;
  qr_entry : option string;
  qr_ecs : option string;
  qr_client_ip : option string;
}.
Definition query_req (f : QueryFields) : QueryReq :=
  mkQueryReq (qf_name f) (default default_qtype (qf_qtype f)) (qf_entry f) (qf_ecs f) (qf_client_ip f).

(** @src src/src/api.rs 314-321 QueryRecord *)
Record QueryRecord : Type := mkQueryRecord { qc_name : string; qc_ttl : Z; qc_type : string; qc_data : string }.

(** @src src/src/api.rs 303-312 QueryResp *)
Record QueryResp : Type := mkQueryResp {
  qs_rcode : string;
  qs_answers : list string;
  qs_records : list QueryRecord;
  qs_elapsed_us : Z;
  qs_cache_hit : bool;
  qs_ecs : option string;
  qs_trace : list TraceEvent;
}.

Definition bad_request (s : string) : Z * string := (BAD_REQUEST, s).
Definition with_trace_enabled (b : bool) (c : QueryContext) : QueryContext :=
  mkCtx (c_id c) (c_start c) (client_addr c) (protocol c) (c_query c) (c_original c) (c_response c) (c_marks c) (c_rewrites c) (c_entry_state c) (c_trace c) b (skip_cache c) (strip_ecs_on_reply c) (served_from_cache c) (pipeline_entry c).

(** The message of a request: its question, and the client subnet it gives.
    @src src/src/api.rs 328-340 query *)
Definition query_message (id : Z) (req : QueryReq) : result (Z * string) Message :=
  let? qtype := ok_or (qtype_from_str (qr_qtype req)) (bad_request "bad qtype") in
  let name := if ends_with "." (qr_name req) then qr_name req else qr_name req +:+ "." in
  let? msg := map_err bad_request (build_query id name qtype) in
  match qr_ecs req with
  | None => Ok msg
  | Some spec =>
      let? cs := map_err (λ e, bad_request (error_display e)) (parse_ecs_spec spec) in
      Ok (set_ecs msg cs)
  end.

(** @src src/src/api.rs 341-348 query *)
Definition query_client (req : QueryReq) : result (Z * string) (option IpAddr) :=
  match qr_client_ip req with
  | None => Ok None
  | Some s => let? ip := ok_or (parse_ip_addr s) (bad_request "bad client_ip") in Ok (Some ip)
  end.

(** The entry asked for or the default one, which must exist.
    @src src/src/api.rs 351-358 query *)
Definition query_entry (rt : Runtime) (req : QueryReq) : result (Z * string) string :=
  let? entry := ok_or (match qr_entry req with
                       | Some entry => Some (trim_start_matches "$" (trim entry))
                       | None => rg_default_entry (rt_registry rt)
                       end) (bad_request "no entry") in
  let? _ := map_err (λ e, bad_request (error_display e)) (get_exec (rt_registry rt) entry) in
  Ok entry.

(** @src src/src/api.rs 363-403 query *)
Definition query_resp (rt : Runtime) (now : Z) (ctx : QueryContext) : QueryResp :=
  let records := match c_response ctx with Some r => answers r | None => [] end in
  mkQueryResp
    (match c_response ctx with Some r => rcode_display (response_code r) | None => "SERVFAIL" end)
    ((λ rec, name_display (rec_name rec) +:+ " " +:+ show_Z (rec_ttl rec) +:+ " " +:+ rdata_debug (rec_data rec)) <$> records)
    ((λ rec, mkQueryRecord (name_display (rec_name rec)) (rec_ttl rec) (rt_display (record_type rec))
               (rdata_display (rec_data rec))) <$> records)
    (elapsed_us now ctx)
    (existsb (λ t, bool_decide (te_event t = "hit" ∨ te_event t = "lazy_hit")
                   && bool_decide (is_Some (rg_caches (rt_registry rt) !! te_plugin t))) (c_trace ctx))
    ((λ cs, ecs_label (Some cs)) <$> ecs_of (c_query ctx))
    (c_trace ctx).

(** What a request that passed its checks does.
    @src src/src/api.rs 359-404 query *)
Definition query_run {L} (rt : Runtime) (entry : string) (ctx : QueryContext)
    : M L (result (Z * string) QueryResp) :=
  let! (ctx, r) := within (handle_query rt entry) ctx in
  match r with
  | Err e => ret (Err (BAD_GATEWAY, error_display e))
  | Ok _ => let! now := sync ENow in ret (Ok (query_resp rt now ctx))
  end.

(** The random id is drawn when the type is known, the context made when the
    address is.
    @src src/src/api.rs 323-404 query *)
Definition query {L} (rt : Runtime) (req : QueryReq) : M L (result (Z * string) QueryResp) :=
  match qtype_from_str (qr_qtype req) with
  | None => ret (Err (bad_request "bad qtype"))
  | Some _ =>
      let! id := sync (ENet NRandomId) in
      match (let? msg := query_message id req in let? ip := query_client req in Ok (msg, ip)) with
      | Err e => ret (Err e)
      | Ok (msg, client_ip) =>
          let! ctx := new_ctx msg client_ip ProtoHttps in
          match query_entry rt req with
          | Err e => ret (Err e)
          | Ok entry => query_run rt entry (with_trace_enabled true ctx)
          end
      end
  end.

Definition query_resp_json (r : QueryResp) : Json :=
  JObj [("rcode", JStr (qs_rcode r)); ("answers", JArr (JStr <$> qs_answers r));
        ("records", JArr ((λ x, JObj [("name", JStr (qc_name x)); ("ttl", JNum (qc_ttl x));
                                      ("type", JStr (qc_type x)); ("data", JStr (qc_data x))]) <$> qs_records r));
        ("elapsed_us", JNum (qs_elapsed_us r)); ("cache_hit", JBool (qs_cache_hit r)); ("ecs", json_opt (qs_ecs r));
        ("trace", JArr ((λ t, JObj [("plugin", JStr (te_plugin t)); ("event", JStr (te_event t));
                                    ("detail", JStr (te_detail t)); ("elapsed_us", JNum (te_elapsed_us t))]) <$> qs_trace r))].

(** ** The flush handler *)

(** The first part of the [Content-Type], trimmed.
    @src src/src/api.rs 421-425 flush *)
Definition content_type (h : HeaderMap) : option string :=
  value ← headers_get "content-type" h;
  text ← header_to_str value;
  part ← head (split_on ";" text);
  Some (trim part).

(** @src src/src/api.rs 418-438 flush *)
Definition flush_req (h : HeaderMap) (body : list Z) : result (Z * string) FlushReq :=
  match body with
  | [] => Ok (mkFlushReq None)
  | _ =>
      if decide (content_type h = Some "application/json") then
        ok_or (json_flush_req body) (BAD_REQUEST, "invalid cache flush request")
      else Err (UNSUPPORTED_MEDIA_TYPE, "expected application/json")
  end.

(** The loop over the caches, in the order [tags].
    @src src/src/api.rs 449-456 flush *)
Fixpoint flush_all {L} (caches : gmap string Cache) (tags : list string) : M L (list string) :=
  match tags with
  | [] => ret []
  | tag :: tags =>
      match caches !! tag with
      | None => flush_all caches tags
      | Some cache =>
          do! cache_flush cache in
          let! flushed := flush_all caches tags in
          ret (tag :: flushed)
      end
  end.

(** The tags of the caches flushed, sorted.
    @src src/src/api.rs 413-460 flush *)
Definition flush {L} (rt : Runtime) (h : HeaderMap) (body : list Z) : M L (result (Z * string) (list string)) :=
  match flush_req h body with
  | Err e => ret (Err e)
  | Ok req =>
      let caches := rg_caches (rt_registry rt) in
      match fr_tag req with
      | Some tag =>
          match caches !! tag with
          | None => ret (Err (NOT_FOUND, "unknown cache tag"))
          | Some cache => do! cache_flush cache in ret (Ok [tag])
          end
      | None =>
          let! flushed := flush_all caches (hash_keys caches) in
          ret (Ok (merge_sort String.le flushed))
      end
  end.

(** @src src/src/api.rs 459-459 flush *)
Definition flush_json (tags : list string) : Json :=
  JObj [("ok", JBool true); ("flushed", JArr (JStr <$> tags))].

(** ** The routes *)

(** [get] serves HEAD too, without the body.
    @src src/src/api.rs 36-44 serve *)
Definition on_get {L} (req : Request) (h : M L Response) : M L Response :=
  if decide (rq_method req = "GET") then h
  else if decide (rq_method req = "HEAD") then let! r := h in ret (mkResponse (rs_status r) (rs_headers r) BEmpty)
  else ret (mkResponse 405 headers_empty BEmpty).
Definition on_post {L} (req : Request) (h : M L Response) : M L Response :=
  if decide (rq_method req = "POST") then h else ret (mkResponse 405 headers_empty BEmpty).

Context (version : string) (asset : string → string).

(** The files built into the program.
    @src src/src/api.rs 141-167 index *)
Definition file_response (ctype path : string) : Response := mkResponse 200 (typed ctype) (BText (asset path)).

(** @src src/src/api.rs 35-47 serve *)
Definition api_routes {L} (st : AppState) (req : Request) : M L Response :=
  let path := rq_path req in
  let rt := st_live st in
  if decide (path = "/") then on_get req (ret (file_response "text/html; charset=utf-8" "../web/index.html"))
  else if decide (path = "/assets/style.css") then on_get req (ret (file_response "text/css; charset=utf-8" "../web/style.css"))
  else if decide (path = "/assets/app.js") then on_get req (ret (file_response "text/javascript; charset=utf-8" "../web/app.js"))
  else if decide (path = "/favicon.svg") then on_get req (ret (file_response "image/svg+xml" "../web/favicon.svg"))
  else if decide (path = "/health") then on_get req (ret (text_response 200 "ok"))
  else if decide (path = "/metrics") then on_get req (let! s := metrics_prom st in ret (text_response 200 s))
  else if decide (path = "/api/system") then on_get req (ret (json_response (system version st)))
  else if decide (path = "/api/stats") then on_get req (let! j := stats st in ret (json_response j))
  else if decide (path = "/api/plugins") then on_get req (let! j := plugins st in ret (json_response j))
  else if decide (path = "/api/query") then on_post req
    (match json_query_fields (rq_headers req) (rq_body req) with
     | Err (status, s) => ret (text_response status s)
     | Ok fields => let! r := query rt (query_req fields) in
                    ret (into_response (let? x := r in Ok (query_resp_json x)))
     end)
  else if decide (path = "/api/cache/flush") then on_post req
    (let! r := flush rt (rq_headers req) (rq_body req) in
     ret (into_response (let? tags := r in Ok (flush_json tags))))
  else ret (mkResponse NOT_FOUND headers_empty BEmpty).

(** @src src/src/api.rs 47-48 serve *)
Definition api_handle {L} (st : AppState) (req : Request) : M L Response :=
  response_headers req (api_routes st req).
End api.

(** ** The guard, exactly *)
Section guard.
Context {H : Hickory} {HS : HickoryShow H} {N : IpNetLib} {Rx : RegexLib} {T : TlsLib} {Y : Yaml} {O : HashOrder}.
Context {W : WebLib} {WL : WebLaws W}.

(** The request is not marked as coming from another site. *)
Definition same_site (h : HeaderMap) : Prop :=
  headers_get_all "sec-fetch-site" h = []
  ∨ ∃ v s, headers_get_all "sec-fetch-site" h = [v] ∧ header_to_str v = Some s ∧ (s = "same-origin" ∨ s = "none").

(** Nothing but a scheme of the web, a host and perhaps a port. *)
Record bare_origin (u : Url) : Prop := mkBareOrigin {
  bo_scheme : url_scheme u = "http" ∨ url_scheme u = "https";
  bo_host : url_host_str u ≠ None;
  bo_credentials : url_username u = "" ∧ url_password u = None;
  bo_path : url_path u = "/";
  bo_rest : url_query u = None ∧ url_fragment u = None;
}.

(** No origin is given, or the only one is the origin of the only host the request
    names, under the scheme of the origin. *)
Definition same_origin (h : HeaderMap) : Prop :=
  headers_get_all "origin" h = []
  ∨ ∃ v text origin w host target,
      headers_get_all "origin" h = [v] ∧ header_to_str v = Some text ∧ url_parse text = Some origin
      ∧ bare_origin origin
      ∧ headers_get_all "host" h = [w] ∧ header_to_str w = Some host
      ∧ str_contains "@" host = false ∧ authority_parses host = true
      ∧ url_parse (url_scheme origin +:+ "://" +:+ host) = Some target ∧ url_origin target = url_origin origin.

Lemma trusted_site_iff h : trusted_site h = true ↔ same_site h.
Proof.
  unfold trusted_site, same_site. destruct (headers_get_all _ h) as [|v [|v' l]]; [naive_solver| |naive_solver].
  destruct (header_to_str v) as [s|] eqn:E; [|naive_solver]. rewrite bool_decide_eq_true. split; [naive_solver|].
  intros [[=]|(? & ? & [= <-] & ? & ?)]. by simplify_eq.
Qed.

Lemma plain_origin_iff u : plain_origin u = true ↔ bare_origin u.
Proof.
  unfold plain_origin. rewrite !andb_true_iff, !bool_decide_eq_true.
  split; [intros ((((((? & ?) & ?) & ?) & ?) & ?) & ?); by split|by intros [? ? [] ? []]].
Qed.

Lemma request_host_Some h host :
  request_host h = Some host ↔
  ∃ w, headers_get_all "host" h = [w] ∧ header_to_str w = Some host
    ∧ str_contains "@" host = false ∧ authority_parses host = true.
Proof.
  unfold request_host. destruct (headers_get_all _ h) as [|w [|w' l]]; [naive_solver| |naive_solver].
  destruct (header_to_str w) as [x|] eqn:E; cbn; [|naive_solver]. split.
  - destruct (str_contains "@" x) eqn:Ec, (authority_parses x) eqn:Ea; cbn; intros [= <-]. by exists w.
  - intros (w0 & [= <-] & Hw & Hc & Ha). rewrite E in Hw. injection Hw as <-. by rewrite Hc, Ha.
Qed.

Lemma trusted_iff h : trusted_browser_source h = true ↔ same_site h ∧ same_origin h.
Proof.
  rewrite <- trusted_site_iff. unfold trusted_browser_source, same_origin.
  destruct (trusted_site h); cbn [negb]; [|naive_solver]. split; [intros Ht; split; [done|]|intros [_ Ht]].
  - destruct (headers_get_all "origin" h) as [|v [|v' l]]; [by left| |done]. right.
    destruct (header_to_str v) as [text|] eqn:Et; [|done]. cbn in Ht.
    destruct (url_parse text) as [o|] eqn:Eo; [|done]. destruct (plain_origin o) eqn:Ep; [|done]. cbn in Ht.
    destruct (request_host h) as [host|] eqn:Eh; [|done]. destruct (url_parse _) as [t|] eqn:Eu in Ht; [|done].
    apply request_host_Some in Eh as (w & ? & ? & ? & ?). apply plain_origin_iff in Ep. apply origin_eqb_spec in Ht.
    by exists v, text, o, w, host, t.
  - destruct Ht as [->|(v & text & o & w & host & t & -> & Hv & Ho & Hp & Hw & Hh & Hat & Ha & Ht & He)]; [done|].
    rewrite Hv. cbn. rewrite Ho. rewrite (proj2 (plain_origin_iff o) Hp). cbn.
    rewrite (proj2 (request_host_Some h host)) by by exists w. rewrite Ht. by apply origin_eqb_spec.
Qed.

(** The headers of every response. *)
Record secured (r : Response) : Prop := mkSecured {
  sec_store : headers_get_all "cache-control" (rs_headers r) = [header_from_static "no-store"];
  sec_sniff : headers_get_all "x-content-type-options" (rs_headers r) = [header_from_static "nosniff"];
  sec_referrer : headers_get_all "referrer-policy" (rs_headers r) = [header_from_static "no-referrer"];
  sec_policy : ∃ p, headers_get_all "content-security-policy" (rs_headers r) = [header_from_static p]
    ∧ starts_with "default-src 'none'; script-src 'self';" p = true;
}.

Lemma with_security_headers_secured r : secured (with_security_headers r).
Proof.
  unfold with_security_headers. split; cbn [rs_headers];
    try (rewrite ?headers_get_other by discriminate; apply headers_get_inserted).
  eexists. rewrite ?headers_get_other by discriminate. rewrite headers_get_inserted. split; [reflexivity|]. by vm_compute.
Qed.

(** Accesses that change nothing. *)
Definition reading (e : event) : Prop :=
  match e with
  | ENow => True
  | EShard _ _ _ f => ∀ now s, (f now s).1 = s
  | _ => False
  end.
Definition reading_item (i : item) : Prop := match i with ISync e _ => reading e | IAwait _ _ => False end.

(** Tasks that make only such accesses and never wait. *)
Fixpoint reads {L A} (t : task L A) : Prop :=
  match t with
  | Sync _ e k => reading e ∧ ∀ r, reads (k r)
  | Await _ _ _ => False
  | _ => True
  end.

Lemma reads_run {L A} (t : task L A) tr l a : reads t → run t tr l a → Forall reading_item tr.
Proof.
  revert tr. induction t as [| l0 e k IH| | |]; intros tr Ht Hr; simpl in *; [by destruct Hr as [-> _]| |done|done|done].
  destruct Hr as (r & tr' & -> & Hr), Ht as [He Ht]. constructor; [done|]. by apply (IH r tr').
Qed.

Lemma reads_bind {L A B} (m : M L A) (f : A → M L B) l :
  reads (m l) → (∀ a l, reads (f a l)) → reads (bind m f l).
Proof.
  intros Hm Hf. unfold bind. generalize dependent (m l). intros t Ht.
  induction t as [| l0 e k IH| | |]; simpl in *; [auto| |done|done|done]. destruct Ht as [He Ht]. split; [done|]. auto.
Qed.

Lemma reads_cache_len {L} c (l : L) : reads (cache_len c l).
Proof.
  unfold cache_len. revert l. induction (seq 0 (ca_n_shards c)) as [|i idx IH]; intros l; [done|].
  simpl foldr. apply reads_bind; [by split|]. intros n l'. apply reads_bind; [apply IH|done].
Qed.

Lemma reads_cache_sizes {L} caches tags (l : L) : reads (cache_sizes caches tags l).
Proof.
  revert l. induction tags as [|k tags IH]; intros l; [done|]. simpl. destruct (caches !! k) as [c|]; [|apply IH].
  apply reads_bind; [apply reads_cache_len|]. intros n l'. apply reads_bind; [apply IH|done].
Qed.

Lemma reads_plugins {L} st (l : L) : reads (plugins st l).
Proof. apply reads_bind; [apply reads_cache_sizes|done]. Qed.

Lemma reads_stats {L} st (l : L) : reads (stats st l).
Proof. by apply reads_bind. Qed.
Lemma reads_metrics_prom {L} st (l : L) : reads (metrics_prom st l).
Proof. by apply reads_bind. Qed.

Lemma reads_on_get {L} req (h : M L Response) (l : L) : reads (h l) → reads (on_get req h l).
Proof. intros Hh. unfold on_get. repeat case_decide; [done| |done]. by apply reads_bind. Qed.

Lemma reads_on_post {L} req (h : M L Response) (l : L) : rq_method req ≠ "POST" → reads (on_post req h l).
Proof. intros Hn. unfold on_post. by rewrite decide_False. Qed.

(** Only the two writing routes do more than read, and only for POST. *)
Lemma api_routes_reads {L} version asset st req (l : L) :
  rq_method req ≠ "POST" ∨ (rq_path req ≠ "/api/query" ∧ rq_path req ≠ "/api/cache/flush") →
  reads (api_routes version asset st req l).
Proof.
  intros Hreq. unfold api_routes.
  repeat (case_decide; [first [by apply reads_on_get | destruct Hreq as [Hn|[]]; [by apply reads_on_post|done]
    | (apply reads_on_get, reads_bind; [first [apply reads_metrics_prom|apply reads_stats|apply reads_plugins]|done])]|]).
  done.
Qed.
End guard.

(** ** What a flush does *)
Section flushing.
Context {H : Hickory} {HS : HickoryShow H} {N : IpNetLib} {Rx : RegexLib} {T : TlsLib} {Y : Yaml}.
Context {O : HashOrder} {OL : HashOrderLaws O} {W : WebLib}.

Definition flush_item (c : Cache) (i : nat) : item :=
  ISync (EShard (ca_tag c) i unit (λ _ s, (shard_flush s, tt))) tt.
Definition flush_items (c : Cache) : list item := flush_item c <$> seq 0 (ca_n_shards c).

(** The flushes of the caches under [tags]. *)
Definition flushes (caches : gmap string Cache) (tags : list string) : list item :=
  tag ← tags; from_option flush_items [] (caches !! tag).

(** The shards after the accesses of a run, all at time [now]. *)
Fixpoint shards_after (now : Z) (tr : list item) (m : gmap string (list Shard)) : gmap string (list Shard) :=
  match tr with
  | [] => m
  | ISync (EShard tag i _ f) _ :: tr => shards_after now tr (alter (alter (λ s, (f now s).1) i) tag m)
  | _ :: tr => shards_after now tr m
  end.

Lemma run_cache_flush {L} c (l : L) tr l' u : run (cache_flush c l) tr l' u → tr = flush_items c ∧ l' = l.
Proof.
  unfold cache_flush, flush_items. revert l tr. induction (seq 0 (ca_n_shards c)) as [|i idx IH]; intros l tr.
  - by intros (-> & -> & _).
  - simpl foldr. intros (t1 & t2 & l1 & [] & -> & Hi & Hr)%run_bind.
    destruct Hi as ([] & t & -> & -> & -> & _). by apply IH in Hr as [-> ->].
Qed.

Lemma run_flush_all {L} caches tags (l : L) tr l' r :
  run (flush_all caches tags l) tr l' r →
  l' = l ∧ tr = flushes caches tags ∧ r = filter (λ tag, is_Some (caches !! tag)) tags.
Proof.
  unfold flushes. revert l tr l' r. induction tags as [|tag tags IH]; intros l tr l' r; [by intros (-> & -> & ->)|].
  cbn [flush_all]. rewrite bind_cons. destruct (caches !! tag) as [c|] eqn:E; cbn [from_option].
  - rewrite filter_cons_True by eauto. intros (t1 & t2 & l1 & [] & -> & [-> ->]%run_cache_flush & Hr)%run_bind.
    apply run_bind in Hr as (t3 & t4 & l2 & fl & -> & (-> & -> & ->)%IH & Hr).
    destruct Hr as (-> & -> & ->). by rewrite app_nil_r.
  - rewrite filter_cons_False by (rewrite E; by intros []). apply IH.
Qed.

Lemma shards_after_app now tr1 tr2 m : shards_after now (tr1 ++ tr2) m = shards_after now tr2 (shards_after now tr1 m).
Proof.
  revert m. induction tr1 as [|[e r|w r] tr1 IH]; intros m; [done| |apply IH]. destruct e; simpl; apply IH.
Qed.

(** A cache's flush empties its shards and touches no others. *)
Lemma shards_after_flush_from now c n k m tag :
  shards_after now (flush_item c <$> seq k n) m !! tag
  = (if decide (tag = ca_tag c)
     then (λ ss, take k ss ++ (shard_flush <$> take n (drop k ss)) ++ drop (k + n) ss) <$> (m !! tag) else m !! tag).
Proof.
  revert k m. induction n as [|n IH]; intros k m.
  { simpl. case_decide; [|done]. destruct (m !! tag) as [ss|]; [|done]. simpl.
    by rewrite Nat.add_0_r, take_drop. }
  simpl. rewrite IH. case_decide as Ht; [subst tag|by rewrite lookup_alter_ne by done].
  rewrite lookup_alter_eq. destruct (m !! ca_tag c) as [ss|]; [|done]. cbn. f_equal.
  destruct (decide (k < length ss)) as [Hk|Hk].
  - destruct (lookup_lt_is_Some_2 ss k Hk) as [s Hs].
    rewrite <- (take_drop_middle ss k s Hs) at 1 2 3. rewrite alter_app_r_alt by (rewrite length_take; lia).
    rewrite length_take, Nat.min_l, Nat.sub_diag by lia. cbn [alter list_alter].
    assert (length (take k ss) = k) as Hl by (rewrite length_take; lia).
    rewrite take_app_ge, !drop_app_ge by (rewrite Hl; lia). rewrite Hl.
    replace (S k - k) with 1 by lia. cbn [take drop].
    rewrite (drop_S ss s k Hs). cbn [take]. rewrite fmap_cons, take_0, <- !app_assoc. cbn [app].
    replace (S (k + n) - k) with (S n) by lia. cbn [drop]. rewrite ?drop_drop. f_equal. f_equal. f_equal; [|f_equal; lia]. by rewrite ?Nat.add_0_r, ?Nat.add_0_l.
  - assert (alter (λ s, shard_flush s) k ss = ss) as ->.
    { apply list_eq. intros j. destruct (decide (k = j)) as [<-|]; [|by rewrite list_lookup_alter_ne].
      by rewrite list_lookup_alter_eq, lookup_ge_None_2 by lia. }
    by rewrite !(drop_ge ss), !(take_ge ss), !take_nil by lia.
Qed.

Lemma shards_after_flush now c m tag ss :
  m !! tag = Some ss → length ss = ca_n_shards c →
  shards_after now (flush_items c) m !! tag = Some (if decide (tag = ca_tag c) then shard_flush <$> ss else ss).
Proof.
  intros Hm Hn. unfold flush_items. rewrite shards_after_flush_from, Hm. case_decide; [|done]. cbn.
  by rewrite drop_0, <- Hn, drop_all, firstn_all, app_nil_r.
Qed.

Lemma shards_after_flushes now caches tags m tag ss :
  map_Forall (λ t c, ca_tag c = t) caches → m !! tag = Some ss →
  (∀ c, caches !! tag = Some c → length ss = ca_n_shards c) →
  shards_after now (flushes caches tags) m !! tag
  = Some (if decide (tag ∈ tags ∧ is_Some (caches !! tag)) then shard_flush <$> ss else ss).
Proof.
  intros Ht. unfold flushes. revert m ss. induction tags as [|t tags IH]; intros m ss Hm Hn.
  { rewrite decide_False; [done|]. by intros [?%not_elem_of_nil]. }
  rewrite bind_cons, shards_after_app. destruct (caches !! t) as [c|] eqn:Ec; cbn [from_option].
  - assert (ca_tag c = t) as Hc by exact (Ht _ _ Ec). destruct (decide (tag = t)) as [->|Hne].
    + pose proof (shards_after_flush now c m t ss Hm (Hn c Ec)) as Hf. rewrite decide_True in Hf by done.
      rewrite (IH _ _ Hf) by (intros c' Hc'; rewrite length_fmap; auto). f_equal.
      rewrite (decide_True (P := t ∈ t :: tags ∧ _)) by (split; [left|eauto]).
      case_decide; [|done]. by rewrite <- list_fmap_compose.
    + assert (shards_after now (flush_items c) m !! tag = Some ss) as Hf.
      { unfold flush_items. rewrite shards_after_flush_from, decide_False by congruence. done. }
      rewrite (IH _ _ Hf Hn). f_equal. apply decide_ext. rewrite elem_of_cons. naive_solver.
  - simpl. rewrite (IH _ _ Hm Hn). f_equal. apply decide_ext. rewrite elem_of_cons.
    split; [naive_solver|]. intros [[->|?] Hs]; [rewrite Ec in Hs; by destruct Hs|done].
Qed.

(** The first checks of a flush. *)
Lemma flush_req_Err h body e :
  flush_req h body = Err e →
  body ≠ [] ∧ ((e.1 = 415%Z ∧ content_type h ≠ Some "application/json")
               ∨ (e.1 = 400%Z ∧ content_type h = Some "application/json" ∧ json_flush_req body = None)).
Proof.
  unfold flush_req. destruct body as [|b body]; [done|]. case_decide as Hc.
  - destruct (json_flush_req _) eqn:E; cbn [ok_or]; [done|]. intros [= <-]. auto.
  - intros [= <-]. auto.
Qed.
End flushing.


(** C14: the guard of the admin API.  Whatever a request is, its response carries the
    security headers; when it does more than read the clock and the sizes of
    the caches, so that it runs a query or empties a cache, it is a POST
    that no browser marks as coming from another site or origin; and a write that
    is so marked gets 403 without one access to the state of the server. *)
Theorem api_write_guard {H : Hickory} {HS : HickoryShow H} {N : IpNetLib} {Rx : RegexLib} {T : TlsLib} {Y : Yaml}
    {O : HashOrder} {W : WebLib} {WL : WebLaws W} {L} (version : string) (asset : string → string)
    (st : AppState) (req : Request) (l l' : L) (tr : list item) (r : Response) :
  run (api_handle version asset st req l) tr l' r →
  secured r
  ∧ (¬ Forall reading_item tr → rq_method req = "POST" ∧ same_site (rq_headers req) ∧ same_origin (rq_headers req))
  ∧ (starts_with "/api/" (rq_path req) = true → method_is_safe (rq_method req) = false →
     ¬ (same_site (rq_headers req) ∧ same_origin (rq_headers req)) → tr = [] ∧ rs_status r = 403%Z).
Proof.
  unfold api_handle, response_headers. intros (t1 & t2 & l1 & r0 & -> & Hr & (-> & -> & ->))%run_bind.
  rewrite app_nil_r. split; [apply with_security_headers_secured|].
  unfold refused_write in Hr. rewrite <- (trusted_iff (rq_headers req)).
  destruct (trusted_browser_source (rq_headers req)) eqn:Et.
  - rewrite andb_false_r in Hr. split; [|intros _ _ Hn; by destruct Hn].
    intros Hnot. split; [|done]. destruct (decide (rq_method req = "POST")) as [|Hp]; [done|]. destruct Hnot.
    eapply reads_run; [|exact Hr]. apply api_routes_reads. by left.
  - rewrite andb_true_r in Hr. destruct (starts_with "/api/" (rq_path req)) eqn:Ep; cbn [andb] in Hr.
    + destruct (method_is_safe (rq_method req)) eqn:Em; cbn [negb] in Hr.
      * split; [|done]. intros Hnot. destruct Hnot. eapply reads_run; [|exact Hr]. apply api_routes_reads. left.
        intros Hm. by rewrite Hm, method_post_unsafe in Em.
      * destruct Hr as (-> & _ & ->). split; [|done]. intros []. constructor.
    + split; [|done]. intros Hnot. destruct Hnot. eapply reads_run; [|exact Hr]. apply api_routes_reads. right.
      by split; intros Hp; rewrite Hp in Ep.
Qed.

(** ** What a query answers *)
Section querying.
Context {H : Hickory} {HL : HickoryLaws H} {HS : HickoryShow H} {N : IpNetLib} {Rx : RegexLib} {T : TlsLib} {Y : Yaml}.
Context (P : Protocol) (HP : ambient P).
Context (rt : Runtime) (rank : string → nat) (Hrt : runtime_ok rt rank) (Hca : caches_allowed P (rt_registry rt)).

(** The checks of a request in their order, [id] being the id drawn. *)
Definition query_checks (id : Z) (req : QueryReq) : result (Z * string) (Message * option IpAddr * string) :=
  let? msg := query_message id req in
  let? client_ip := query_client req in
  let? entry := query_entry rt req in
  Ok (msg, client_ip, entry).

(** Results whose errors are bad requests. *)
Definition only_bad {A} (r : result (Z * string) A) : Prop := ∀ e, r = Err e → e.1 = BAD_REQUEST.

Lemma only_bad_bind {A B} (r : result (Z * string) A) (f : A → result (Z * string) B) :
  only_bad r → (∀ a, only_bad (f a)) → only_bad (result_bind r f).
Proof. intros Hr Hf. destruct r as [a|e]; [apply Hf|]. intros e' [= <-]. by apply Hr. Qed.
Lemma only_bad_Ok {A} (a : A) : only_bad (Ok a).
Proof. done. Qed.
Lemma only_bad_map_err {E A} (f : E → string) (r : result E A) : only_bad (map_err (λ e, bad_request (f e)) r).
Proof. destruct r; [done|]. by intros ? [= <-]. Qed.
Lemma only_bad_ok_or {A} (o : option A) s : only_bad (ok_or o (bad_request s)).
Proof. destruct o; [done|]. by intros e [= <-]. Qed.

Lemma query_checks_bad id req : only_bad (query_checks id req).
Proof.
  unfold query_checks, query_message, query_client, query_entry.
  repeat first [apply only_bad_Ok|apply only_bad_map_err|apply only_bad_ok_or|apply (only_bad_map_err (λ e, e))
    |apply only_bad_bind
    |match goal with |- ∀ _, only_bad _ => intros ? end|case_match].
Qed.

Lemma traced_connected id now q addr proto :
  aliases_connected (with_trace_enabled true (ctx_new id now q addr proto)).
Proof. intros q0 qs Hq. by exists q0, qs. Qed.

(** Running the pipeline for a request that passed its checks. *)
Lemma wp_query_run {L} entry q addr id now (l : L) :
  let c := with_trace_enabled true (ctx_new id now q addr ProtoHttps) in
  is_Some (rg_execs (rt_registry rt) !! entry) → p_ctx P (begin_pipeline entry c) →
  wp P (λ _, True) (query_run rt entry c l) (λ _ r,
    match r with
    | Ok resp => ∃ now c', resp = query_resp rt now c' ∧ ∀ m, c_response c' = Some m → reply_ok q c' m
    | Err _ => False
    end).
Proof.
  intros c [o Ho] Hc. unfold query_run, handle_query. destruct (rto_tags _ _ Hrt _ _ Ho) as [Hd Hw].
  rewrite (trim_no_whitespace entry Hw), Hd. apply wp_bind.
  eapply wp_enclose; [by apply (wp_handle P HP rt rank Hrt Hca entry (secs 5) c)|done|].
  intros c' [[]|e] Hh.
  - apply wp_bind, wp_sync; [apply HP|]. intros now' _. apply wp_ret. exists now', c'. split; [done|].
    intros m Hm. change q with (c_original c). eapply handled_reply; [apply traced_connected|done|exact Hh|done|done].
  - apply wp_ret. unfold handled, get_exec in Hh. destruct (classify_incoming (c_query c)); [naive_solver..|].
    rewrite Ho in Hh. naive_solver.
Qed.
End querying.


(** ** On a small web *)
#[export] Instance DemoShow : HickoryShow Demo := {|
  rdata_debug d := match rdata_view d with RDataA i => show_ip (V4 i) | _ => "?" end;
  rdata_display d := match rdata_view d with RDataA i => show_ip (V4 i) | _ => "?" end;
  rt_display := rt_debug;
|}.

(** URLs without credentials: a scheme and what follows it. *)
#[export] Instance DemoWeb : WebLib := {|
  HeaderValue := string;
  header_from_static s := s;
  header_to_str := Some;
  HeaderMap := list (string * string);
  headers_empty := [];
  headers_get_all name h := (List.filter (λ p, bool_decide (p.1 = name)) h).*2;
  headers_insert name v h := (name, v) :: List.filter (λ p, bool_decide (p.1 ≠ name)) h;
  method_is_safe m := bool_decide (m ∈ ["GET"; "HEAD"; "OPTIONS"; "TRACE"]);
  Url := string * string;
  url_parse := split_once_str "://";
  url_scheme u := u.1;
  url_host_str u := Some u.2;
  url_port _ := None;
  url_username _ := "";
  url_password _ := None;
  url_path _ := "/";
  url_query _ := None;
  url_fragment _ := None;
  Origin := string * string;
  url_origin u := u;
  origin_eqb o o' := bool_decide (o = o');
  authority_parses s := negb (str_contains "/" s);
  json_query_fields _ _ := Ok (mkQueryFields "a.test" None None None None);
  json_flush_req _ := Some (mkFlushReq (Some "c"));
|}.
#[export] Instance DemoWeb_laws : WebLaws DemoWeb.
Proof.
  split; cbn.
  - intros name v h. rewrite bool_decide_true by done. cbn. f_equal.
    induction h as [|[k x] h IH]; [done|]. cbn. case_bool_decide; [|done]. cbn. by rewrite bool_decide_false.
  - intros name name' v h Hn. rewrite bool_decide_false by done.
    induction h as [|[k x] h IH]; [done|]. cbn. repeat (case_bool_decide; cbn; simplify_eq); by rewrite ?IH.
  - done.
  - intros o o'. apply bool_decide_eq_true.
Qed.

Definition d_api_state : AppState := mkAppState d_runtime (metrics_new 0) 7 0.

(** A form of another origin that would empty the caches, and the console's own. *)
Definition d_flush_request (origin : string) : Request :=
  mkRequest "POST" "/api/cache/flush" [("host", "dns.test"); ("origin", origin)] [].

Lemma api_write_guard_witness :
  ∃ r, run (api_handle "1" (λ _, "") d_api_state (d_flush_request "https://evil.test") tt) [] tt r
    ∧ trusted_browser_source (rq_headers (d_flush_request "https://dns.test")) = true
    ∧ secured r ∧ rs_status r = 403%Z.
Proof.
  assert (Hrun : ∃ r, run (api_handle "1" (λ _, "") d_api_state (d_flush_request "https://evil.test") tt) [] tt r).
  { eexists. unfold api_handle, response_headers.
    replace (refused_write (d_flush_request "https://evil.test")) with true by by vm_compute. by repeat split. }
  destruct Hrun as [r Hr]. exists r. split; [exact Hr|]. split; [by vm_compute|].
  destruct (api_write_guard "1" (λ _, "") d_api_state (d_flush_request "https://evil.test") tt tt [] r Hr) as (Hs & _ & H403).
  split; [exact Hs|]. apply H403; [by vm_compute..|]. rewrite <- (trusted_iff (W := DemoWeb)).
  replace (trusted_browser_source _) with false by by vm_compute. done.
Defined.

Lemma cache_flush_run {L} c (l : L) : run (cache_flush c l) (flush_items c) l tt.
Proof.
  unfold cache_flush, flush_items. induction (seq 0 (ca_n_shards c)) as [|i idx IH]; [done|].
  simpl foldr. apply run_bind. exists [flush_item c i], (flush_item c <$> idx), l, tt.
  split; [done|]. split; [|exact IH]. by eexists tt, [].
Qed.

Definition d_cached_runtime : Runtime :=
  mkRuntime (mkRegistry {["c" := XCache d_cache]} ∅ ∅ {["c" := d_cache]} None true) d_config.
Definition d_json_header : list (string * string) := [("content-type", "application/json; charset=utf-8")].


