(* ===== verification/Ownership.v ===== *)
(** * Who owns a mark, who owns a connection

    Two things are handed from task to task.  A lazy cache hit marks its key as
    being refreshed, spawns the refresh and hands the mark over to it;
    [RefreshGuard] removes the mark when that task ends.  A connection to an
    upstream is opened by an exchange or taken from a pool, and belongs to that
    exchange until it is put into the pool or dropped.

    [owns base held cs t K] follows both through a task: [held] are the marks it
    owns now, [base] those it owns at every suspension, [cs] the connections it may
    use.  The program is [balanced]: whatever it marks it hands over before it
    suspends or returns, so a timeout can never drop a mark; and it touches no
    connection but those it opened or took from a pool itself, not even to
    put it into a pool, never one from two branches at once. *)
From S2P Require Import Prelude RustStr RustNet Error Hickory HickoryDemo External PublicIp.
From S2P Require Import DnsUtil Context Config DomainSet Matcher Upstream Shard Net Task Actions Ecs.
From S2P Require Import Hosts Cache Exchange Forward Fallback Sequence Graph Listener Runtime Server Api.

Notation Mark := (string * string)%type (only parsing).
Notation Marks := (@gset (string * string) (@prod_eq_dec string String.eq_dec string String.eq_dec)
  (@prod_countable string String.eq_dec String.countable string String.eq_dec String.countable)) (only parsing).
Notation Conns := (gset nat) (only parsing).

Section owns.
Context {H : Hickory}.
Implicit Types base held : Marks.
Implicit Types cs : Conns.

Definition mark_of (r : Refresh) : Mark := (rf_tag r, rf_key r).

(** The marks held after an access with reply [r]; [None]: an access no task makes
    there: a pipeline never removes a mark nor spawns a refresh whose mark is not one
    it took itself, and a task that goes over to the live runtime holds no mark
    of the one it leaves. *)
Definition marks_after (e : event) (base held : Marks) : reply e → option Marks :=
  match e return reply e → option Marks with
  | EMark tag key => λ fresh, Some (if fresh : bool then {[(tag, key)]} ∪ held else held)
  | EUnmark _ _ => λ _, None
  | ESpawn r => λ _, if decide (mark_of r ∈ held ∖ base) then Some (held ∖ {[mark_of r]}) else None
  | ELive => λ _, if decide (held = ∅) then Some ∅ else None
  | _ => λ _, Some held
  end.

(** A reply the environment can give to the owner of [held]: a mark that is held
    is not free. *)
Definition marks_reply (e : event) (held : Marks) : reply e → Prop :=
  match e return reply e → Prop with
  | EMark tag key => λ fresh, (fresh : bool) = true → (tag, key) ∉ held
  | _ => λ _, True
  end.

(** The connections an access works on, those it gives away, and those its reply
    brings.  A pool is used within [POOL_CAP]. *)
Definition access_conns (e : event) : Conns :=
  match e with ENet (NSetNoDelay c) => {[c]} | ENet (NPoolPut _ _ s) => {[s]} | _ => ∅ end.
Definition access_gives (e : event) : Conns := match e with ENet (NPoolPut _ _ s) => {[s]} | _ => ∅ end.
Definition access_brings (e : event) : reply e → Conns :=
  match e return reply e → Conns with
  | ENet a => match a return net_access_reply a → Conns with
              | NPoolTake _ _ _ => λ o, match o with Some s => {[s]} | None => ∅ end
              | _ => λ _, ∅
              end
  | _ => λ _, ∅
  end.
Definition pool_fits (e : event) : Prop :=
  match e with ENet (NPoolPut _ p _) => sp_cap p ≤ POOL_CAP | _ => True end.

(** The same of a suspension. *)
Fixpoint await_conns (a : await) : list nat :=
  match a with
  | ANet op => op_conns op
  | ATimer _ a => await_conns a
  | APar a b => await_conns a ++ await_conns b
  | _ => []
  end.
Fixpoint await_brings (a : await) : areply a → Conns :=
  match a with
  | ANet op => λ r, match op_opens op r with Some s => {[s]} | None => ∅ end
  | ATimer _ a => λ r, match r with Some r => await_brings a r | None => ∅ end
  | APar a b => λ r, match r with inl r => await_brings a r | inr r => await_brings b r end
  | _ => λ _, ∅
  end.

Fixpoint owns {L A : Type} base held cs (t : task L A) (K : Marks → Conns → A → Prop) : Prop :=
  match t with
  | Ret _ a => K held cs a
  | Sync _ e k => access_conns e ⊆ cs ∧ pool_fits e ∧ ∀ r, marks_reply e held r → access_brings e r ## cs →
      match marks_after e base held r with
      | Some held' => owns base held' (access_brings e r ∪ (cs ∖ access_gives e)) (k r) K
      | None => False
      end
  | Await _ a k => held = base ∧ list_to_set (await_conns a) ⊆ cs ∧ NoDup (await_conns a)
      ∧ ∀ r, await_brings a r ## cs → owns base base (await_brings a r ∪ cs) (k r) K
  | Panic _ | OutOfFuel => True
  end.

Lemma owns_mono {L A} base held cs (t : task L A) (K K' : Marks → Conns → A → Prop) :
  owns base held cs t K → (∀ h c a, K h c a → K' h c a) → owns base held cs t K'.
Proof.
  revert held cs. induction t as [l a|l e k IH|l a k IH| |]; intros held cs Ht HK; simpl in *; [auto| | |done|done].
  - destruct Ht as (? & ? & Ht). split; [done|]. split; [done|]. intros r Hr Hb. specialize (Ht r Hr Hb).
    destruct (marks_after e base held r); [by apply IH|done].
  - destruct Ht as (? & ? & ? & Ht). eauto 10.
Qed.

Lemma owns_bind {L L' A B} base held cs (t : task L A) (f : L → A → task L' B) (up : L → L') K :
  owns base held cs t (λ h c a, ∀ l, owns base h c (f l a) K) → owns base held cs (task_bind t f up) K.
Proof.
  revert held cs. induction t as [l a|l e k IH|l a k IH| |]; intros held cs Ht; simpl in *; [auto| | |done|done].
  - destruct Ht as (? & ? & Ht). split; [done|]. split; [done|]. intros r Hr Hb. specialize (Ht r Hr Hb).
    destruct (marks_after e base held r); [by apply IH|done].
  - destruct Ht as (? & ? & ? & Ht). eauto 10.
Qed.

Lemma access_gives_conns e : access_gives e ⊆ access_conns e.
Proof. by destruct e as [| | | | | | | | |[]]. Qed.

(** A task leaves the connections it does not own alone. *)
Lemma owns_frame {L A} base held cs F (t : task L A) K :
  owns base held cs t K → F ## cs →
  owns base held (cs ∪ F) t (λ h c a, ∃ c', c = c' ∪ F ∧ F ## c' ∧ K h c' a).
Proof.
  revert held cs. induction t as [l a|l e k IH|l a k IH| |]; intros held cs Ht HF; simpl in *; [| | |done|done].
  - by exists cs.
  - destruct Ht as (Hc & ? & Ht). pose proof (access_gives_conns e). split; [set_solver|]. split; [done|]. intros r Hr Hb.
    assert (access_brings e r ## cs) as Hb' by set_solver. specialize (Ht r Hr Hb').
    destruct (marks_after e base held r); [|done].
    replace (access_brings e r ∪ ((cs ∪ F) ∖ access_gives e)) with ((access_brings e r ∪ cs ∖ access_gives e) ∪ F).
    { apply IH; [done|]. set_solver. }
    apply set_eq. intros x. destruct (decide (x ∈ access_gives e)); set_solver.
  - destruct Ht as (-> & Hc & ? & Ht). split; [done|]. split; [set_solver|]. split; [done|]. intros r Hb.
    replace (await_brings a r ∪ (cs ∪ F)) with ((await_brings a r ∪ cs) ∪ F) by set_solver.
    apply IH; [apply Ht|]; set_solver.
Qed.

(** ** Balanced tasks *)

(** From the connections [cs], back to the marks [base], with [R] of the
    connections and the result at the end. *)
Definition balanced_task {L A : Type} base cs (t : task L A) (R : Conns → A → Prop) : Prop :=
  owns base base cs t (λ held cs' a, held = base ∧ R cs' a).
Definition anything {A : Type} : Conns → A → Prop := λ _ _, True.
Definition balanced {L A : Type} (m : M L A) : Prop := ∀ base l, balanced_task base ∅ (m l) anything.

Lemma balanced_task_mono {L A} base cs (t : task L A) (R R' : Conns → A → Prop) :
  balanced_task base cs t R → (∀ c a, R c a → R' c a) → balanced_task base cs t R'.
Proof. intros Ht HR. eapply owns_mono; [exact Ht|]. intros h c a [-> Ha]. split; auto. Qed.

Lemma balanced_task_bind {L L' A B} base cs (t : task L A) (f : L → A → task L' B) (up : L → L') R R' :
  balanced_task base cs t R → (∀ l a c, R c a → balanced_task base c (f l a) R') →
  balanced_task base cs (task_bind t f up) R'.
Proof. intros Ht Hf. apply owns_bind. eapply owns_mono; [exact Ht|]. intros h c a [-> Ha] l. by apply Hf. Qed.

(** More connections do no harm. *)
Lemma balanced_task_frame {L A} base cs cs' (t : task L A) R :
  balanced_task base cs t R → cs ⊆ cs' →
  balanced_task base cs' t (λ c a, cs' ∖ cs ⊆ c ∧ ∃ c', c' ⊆ c ∧ R c' a).
Proof.
  intros Ht Hsub. pose proof (owns_frame base base cs (cs' ∖ cs) t _ Ht) as Hf.
  replace (cs ∪ cs' ∖ cs) with cs' in Hf by (rewrite (union_difference_L cs cs') at 1; done).
  eapply owns_mono; [apply Hf; set_solver|]. intros h c a (c' & -> & _ & -> & Ha). split; [done|]. split; [set_solver|].
  exists c'. split; [set_solver|done].
Qed.

(** A balanced computation, from any connections. *)
Lemma balanced_at {L A} (m : M L A) base cs l :
  balanced m → balanced_task base cs (m l) (λ c _, cs ⊆ c).
Proof.
  intros Hm. eapply balanced_task_mono; [apply (balanced_task_frame base ∅ cs (m l)); [apply Hm|set_solver]|].
  intros c a [? _]. set_solver.
Qed.
Lemma balanced_run {L A} (m : M L A) base cs l : balanced m → balanced_task base cs (m l) anything.
Proof. intros Hm. eapply balanced_task_mono; [by apply balanced_at|done]. Qed.

Lemma balanced_ret {L A} (a : A) : balanced (L := L) (ret a).
Proof. by intros base l. Qed.
Lemma balanced_get {L} : balanced (L := L) get.
Proof. by intros base l. Qed.
Lemma balanced_modify {L} (f : L → L) : balanced (modify f).
Proof. by intros base l. Qed.
Lemma balanced_suspend {L} a : await_conns a = [] → balanced (L := L) (suspend a).
Proof. intros Ha base l. cbn. rewrite Ha. split; [done|]. split; [done|]. split; [constructor|done]. Qed.
Lemma balanced_panic {L A} msg : balanced (L := L) (A := A) (λ _, Panic msg).
Proof. by intros base l. Qed.

Definition markless (e : event) : Prop :=
  match e with
  | EMark _ _ | EUnmark _ _ | ESpawn _ | ELive | ENet (NSetNoDelay _) | ENet (NPoolPut _ _ _) => False
  | _ => True
  end.
Lemma balanced_sync {L} e : markless e → balanced (L := L) (sync e).
Proof. intros He base l. by destruct e as [| | | | | | | | |[]]. Qed.

Lemma balanced_bind {L A B} (m : M L A) (f : A → M L B) :
  balanced m → (∀ a, balanced (f a)) → balanced (bind m f).
Proof. intros Hm Hf base l. eapply balanced_task_bind; [apply Hm|]. intros l' a c _. by apply balanced_run. Qed.

Lemma balanced_bind_res {L A B} (m : M L (Res A)) (f : A → M L (Res B)) :
  balanced m → (∀ a, balanced (f a)) → balanced (bind_res m f).
Proof. intros Hm Hf. apply balanced_bind; [done|]. intros [a|e]; [apply Hf|apply balanced_ret]. Qed.

Lemma balanced_enclose {L L' A} (t : task L' A) R (l : L) base cs :
  balanced_task base cs t R → balanced_task base cs (enclose l t) (λ c la, R c la.2).
Proof. intros Ht. eapply balanced_task_bind; [exact Ht|]. intros l' a c Ha. by split. Qed.

Lemma balanced_within {L L' A} (m : M L' A) l' : balanced m → balanced (L := L) (within m l').
Proof. intros Hm base l. eapply balanced_task_mono; [apply (balanced_enclose (m l')), Hm|done]. Qed.

Lemma balanced_until {L A} base cs d (t : task L A) :
  balanced_task base cs t anything → balanced_task base cs (until d t) anything.
Proof.
  unfold balanced_task. assert (∀ held, owns base held cs t (λ h _ _, h = base ∧ True) →
    owns base held cs (until d t) (λ h _ _, h = base ∧ True)); [|auto].
  revert cs. induction t as [l a|l e k IH|l a k IH| |]; intros cs held Ht; simpl in *; [done| | |done|done].
  - destruct Ht as (? & ? & Ht). split; [done|]. split; [done|]. intros r Hr Hb. specialize (Ht r Hr Hb).
    destruct (marks_after e base held r); [by apply IH|done].
  - destruct Ht as (-> & ? & ? & Ht). split; [done|]. split; [done|]. split; [done|].
    intros [r|] Hb; [|by split]. by apply IH, Ht.
Qed.

(** A task without connections reads the clock. *)
Lemma balanced_timeout_task {L A} base cs d (m : M L A) l :
  balanced_task base cs (m l) anything → balanced_task base cs (timeout d m l) anything.
Proof.
  intros Hm. split; [cbn; set_solver|]. split; [done|]. intros now _ _. cbn.
  replace (∅ ∪ cs ∖ ∅) with cs by set_solver. by apply balanced_until.
Qed.
Lemma balanced_timeout {L A} d (m : M L A) : balanced m → balanced (timeout d m).
Proof. intros Hm base l. apply balanced_timeout_task, Hm. Qed.

(** What is left of the task that did not finish first is balanced too. *)
Definition balanced_rest {L1 A1 L2 A2} base (R1 : Conns → A1 → Prop) (R2 : Conns → A2 → Prop) cs
    (r : selected L1 A1 L2 A2) : Prop :=
  ∃ cs1 cs2, cs1 ## cs2 ∧ cs = cs1 ∪ cs2 ∧
  match r with
  | inl (_, a1, t2) => R1 cs1 a1 ∧ balanced_task base cs2 t2 R2
  | inr (_, a2, t1) => R2 cs2 a2 ∧ balanced_task base cs1 t1 R1
  end.

Lemma balanced_select {L L1 A1 L2 A2} base cs1 cs2 (l : L) (t1 : task L1 A1) (t2 : task L2 A2) R1 R2 :
  cs1 ## cs2 → balanced_task base cs1 t1 R1 → balanced_task base cs2 t2 R2 →
  balanced_task base (cs1 ∪ cs2) (select l t1 t2) (balanced_rest base R1 R2).
Proof.
  assert (∀ held, cs1 ## cs2 → owns base held cs1 t1 (λ h c a, h = base ∧ R1 c a) → balanced_task base cs2 t2 R2 →
    owns base held (cs1 ∪ cs2) (select l t1 t2) (λ h c r, h = base ∧ balanced_rest base R1 R2 c r)) as Hs;
    [|intros; by apply Hs].
  revert cs1 cs2 t2. induction t1 as [l1 a1|l1 e k1 IH1|l1 a1 k1 IH1| |]; intros cs1 cs2 t2 held Hd H1 H2; simpl in *; [| | |done|done].
  - destruct H1 as [-> Ha]. split; [done|]. by exists cs1, cs2.
  - destruct H1 as (Hc & ? & H1). pose proof (access_gives_conns e). split; [set_solver|]. split; [done|]. intros r Hr Hb.
    assert (access_brings e r ## cs1) as Hb' by set_solver. specialize (H1 r Hr Hb').
    destruct (marks_after e base held r); [|done].
    replace (access_brings e r ∪ (cs1 ∪ cs2) ∖ access_gives e) with ((access_brings e r ∪ cs1 ∖ access_gives e) ∪ cs2).
    { apply IH1; [set_solver|done..]. }
    apply set_eq. intros x. destruct (decide (x ∈ access_gives e)); set_solver.
  - destruct H1 as (-> & Hc1 & Hn1 & H1).
    assert (∀ held2, owns base held2 cs2 t2 (λ h c a, h = base ∧ R2 c a) → owns base held2 (cs1 ∪ cs2)
      (select l (Await l1 a1 k1) t2) (λ h c r, h = base ∧ balanced_rest base R1 R2 c r)) as Hr; [|by apply Hr].
    clear H2. revert cs2 Hd. induction t2 as [l2 a2|l2 e k2 IH2|l2 a2 k2 IH2| |]; intros cs2 Hd held2 H2; simpl in *; [| | |done|done].
    + destruct H2 as [-> Ha]. split; [done|]. exists cs1, cs2. split; [done|]. split; [done|]. split; [done|]. by repeat split.
    + destruct H2 as (Hc & ? & H2). pose proof (access_gives_conns e). split; [set_solver|]. split; [done|]. intros r Hr Hb.
      assert (access_brings e r ## cs2) as Hb' by set_solver. specialize (H2 r Hr Hb').
      destruct (marks_after e base held2 r); [|done].
      replace (access_brings e r ∪ (cs1 ∪ cs2) ∖ access_gives e) with (cs1 ∪ (access_brings e r ∪ cs2 ∖ access_gives e)).
      { apply IH2; [set_solver|done]. }
      apply set_eq. intros x. destruct (decide (x ∈ access_gives e)); set_solver.
    + destruct H2 as (-> & Hc2 & Hn2 & H2). split; [done|]. split; [rewrite list_to_set_app_L; set_solver|].
      split. { apply NoDup_app. split; [done|]. split; [|done]. intros x Hx1 Hx2. set_solver. }
      intros [r|r] Hb.
      * rewrite union_assoc_L. apply IH1; [set_solver|apply H1; set_solver|]. by repeat split.
      * replace (await_brings a2 r ∪ (cs1 ∪ cs2)) with (cs1 ∪ (await_brings a2 r ∪ cs2)) by set_solver.
        apply IH2; [set_solver|]. apply H2. set_solver.
Qed.

Lemma balanced_select_fresh {L L1 A1 L2 A2} base (l : L) (t1 : task L1 A1) (t2 : task L2 A2) :
  balanced_task base ∅ t1 anything → balanced_task base ∅ t2 anything →
  balanced_task base ∅ (select l t1 t2) (balanced_rest base anything anything).
Proof. intros H1 H2. rewrite <- (union_empty_l_L ∅). by apply balanced_select. Qed.

Lemma balanced_more {L A} base cs cs' (t : task L A) :
  balanced_task base cs t anything → cs ⊆ cs' → balanced_task base cs' t anything.
Proof. intros Ht Hsub. eapply balanced_task_mono; [by eapply balanced_task_frame|done]. Qed.

(** Waiting for what is left of a task, then going on. *)
Lemma balanced_enclose_bind {L L' A B} base cs (l : L) (t : task L' A) (f : L' * A → M L B) :
  balanced_task base cs t anything → (∀ p, balanced (f p)) →
  balanced_task base cs (bind (λ l, enclose l t) f l) anything.
Proof.
  intros Ht Hf. eapply balanced_task_bind; [by apply balanced_enclose|]. intros l' p c _. by apply balanced_run.
Qed.

(** Pending tasks. *)
Fixpoint balanced_race {A} base cs (n : nat) : racing A n → Prop :=
  match n return racing A n → Prop with
  | O => λ _, True
  | S n => λ pending, balanced_task base cs pending (λ c (x : A * racing A n), balanced_race base c n x.2)
  end.

Lemma balanced_race_more {A} base cs cs' n (pending : racing A n) :
  balanced_race base cs n pending → cs ⊆ cs' → balanced_race base cs' n pending.
Proof.
  revert cs cs' pending. induction n as [|n IH]; intros cs cs' pending Hp Hsub; [done|].
  eapply balanced_task_mono; [by eapply balanced_task_frame|]. intros c x (_ & c' & Hc' & Hx). by eapply IH.
Qed.

Lemma balanced_race_push {A} base cs1 cs2 n (t : task unit A) (pending : racing A n) :
  cs1 ## cs2 → balanced_task base cs1 t anything → balanced_race base cs2 n pending →
  balanced_race base (cs1 ∪ cs2) (S n) (race_push t pending).
Proof.
  revert cs1 cs2 t pending. induction n as [|n IH]; intros cs1 cs2 t pending Hd Ht Hp.
  - eapply balanced_task_mono; [apply (balanced_task_frame base cs1 _ _ anything); [|set_solver]|done].
    eapply balanced_task_bind; [exact Ht|]. by intros l a c _.
  - eapply balanced_task_bind; [apply (balanced_select base cs1 cs2 tt t pending _ _ Hd Ht Hp)|].
    intros l [[[l1 a] rest]|[[l2 [a rest]] t']] c (c1 & c2 & Hd' & -> & Hx & Hrest); (split; [done|]); cbn [snd] in *.
    + eapply (balanced_race_more _ _ _ (S n)); [exact Hrest|set_solver].
    + by apply IH.
Qed.

Lemma balanced_race_list {A} base cs (ts : list (task unit A)) :
  Forall (λ t, balanced_task base ∅ t anything) ts → balanced_race base cs (length ts) (race ts).
Proof.
  intros Hts. apply (balanced_race_more base ∅); [|set_solver]. induction Hts as [|t ts Ht _ IH]; [done|].
  rewrite <- (union_empty_l_L ∅). apply balanced_race_push; [set_solver|done|done].
Qed.

Lemma balanced_race_next {L A} base cs n (pending : racing A (S n)) (l : L) :
  balanced_race base cs (S n) pending →
  balanced_task base cs (race_next pending l) (λ c x, balanced_race base c n x.2).
Proof.
  intros Hp. eapply balanced_task_bind; [by apply balanced_enclose|]. intros l' [u x] c Hx. by split.
Qed.
End owns.

#[export] Hint Resolve balanced_ret balanced_get balanced_modify balanced_panic : ferrum.
#[export] Hint Extern 1 (balanced (suspend _)) => (apply balanced_suspend; reflexivity) : ferrum.

(** Decompose a goal [balanced m] along the structure of [m]. *)
Ltac bal_auto :=
  repeat first
    [ progress intros | done | progress cbv zeta beta | solve [auto with ferrum nocore]
    | apply balanced_sync; exact I
    | apply balanced_timeout | apply balanced_bind | apply balanced_bind_res | apply balanced_within | case_match ].

(** ** The program is balanced *)
Section program.
Context {H : Hickory} {N : IpNetLib} {Rx : RegexLib} {T : TlsLib} {Y : Yaml}.

Lemma balanced_count {L} c : balanced (L := L) (count c).
Proof. by apply balanced_sync. Qed.

Lemma balanced_push_trace plugin event detail : balanced (push_trace plugin event detail).
Proof. intros base c. unfold push_trace. by case_match. Qed.

Lemma balanced_fork_ctx : balanced fork_ctx.
Proof. unfold fork_ctx. bal_auto. Qed.

Lemma balanced_clone_ctx : balanced clone_ctx_for_lazy.
Proof. unfold clone_ctx_for_lazy. bal_auto. Qed.

Lemma balanced_new_ctx {L} q addr proto : balanced (L := L) (new_ctx q addr proto).
Proof. unfold new_ctx. bal_auto. Qed.

#[local] Hint Resolve balanced_count balanced_push_trace balanced_fork_ctx balanced_new_ctx : ferrum.

(** A refresh that is marked is spawned before the task suspends. *)
Lemma balanced_kick_refresh c key : balanced (kick_refresh c key).
Proof.
  intros base ctx. unfold kick_refresh. destruct (skip_cache ctx); [done|].
  destruct (ca_refresh c) as [entry|]; [|done]. split; [done|]. split; [done|]. intros fresh Hf _.
  destruct fresh; simpl; [|by split].
  split; [set_solver|]. split; [done|]. intros id _ _. split; [set_solver|]. split; [done|]. intros now _ _.
  split; [set_solver|]. split; [done|]. intros u _ _. cbn. unfold mark_of. cbn [rf_tag rf_key].
  specialize (Hf eq_refl). rewrite decide_True by set_solver. split; [|done]. apply set_eq. set_solver.
Qed.

Ltac bal_exec := intros ? ?; repeat case_match; try (apply balanced_run; bal_auto); try done.

Lemma balanced_cache_miss c detail : balanced (cache_miss c detail).
Proof. unfold cache_miss. bal_auto. Qed.
#[local] Hint Resolve balanced_kick_refresh balanced_cache_miss : ferrum.

Lemma balanced_cache_hit c key msg lazy stored : balanced (cache_hit c key msg lazy stored).
Proof. unfold cache_hit. bal_auto. Qed.
#[local] Hint Resolve balanced_cache_hit : ferrum.

Lemma balanced_cache_exec c : balanced (cache_exec c).
Proof. unfold cache_exec, cache_lookup. bal_exec. Qed.

Lemma balanced_cache_store {L} c key resp : balanced (L := L) (cache_store c key resp).
Proof. unfold cache_store. bal_auto. Qed.
#[local] Hint Resolve balanced_cache_store : ferrum.

Lemma balanced_store_lookup {L} c ctx lookup : balanced (L := L) (store_lookup c ctx lookup).
Proof. unfold store_lookup. bal_auto. Qed.
#[local] Hint Resolve balanced_store_lookup : ferrum.

Lemma balanced_hosts_exec h : balanced (hosts_exec h).
Proof. unfold hosts_exec. bal_exec. Qed.

Lemma balanced_blackhole_exec b : balanced (blackhole_exec b).
Proof. unfold blackhole_exec. bal_exec. Qed.

Lemma balanced_redirect_exec r : balanced (redirect_exec r).
Proof. unfold redirect_exec. bal_exec. Qed.

Lemma balanced_ecs_exec e : balanced (ecs_exec e).
Proof. unfold ecs_exec. bal_exec. Qed.

Lemma balanced_no_ecs_exec n : balanced (no_ecs_exec n).
Proof. unfold no_ecs_exec. bal_exec. Qed.

Lemma balanced_builtin_apply b : balanced (builtin_apply b).
Proof. unfold builtin_apply. bal_exec. Qed.
#[local] Hint Resolve balanced_builtin_apply : ferrum.

(** ** Exchanges with an upstream *)

(** [m] may use the connections [cs0], and keeps what it owns. *)
Definition uses {L A} (cs0 : Conns) (m : M L A) : Prop :=
  ∀ base cs l, cs0 ⊆ cs → balanced_task base cs (m l) (λ c _, cs ⊆ c).
(** [m] moreover opens the connection it returns. *)
Definition opens {L} (cs0 : Conns) (m : M L (Res nat)) : Prop :=
  ∀ base cs l, cs0 ⊆ cs →
  balanced_task base cs (m l) (λ c r, cs ⊆ c ∧ match r with Ok s => s ∈ c | Err _ => True end).

Lemma uses_balanced {L A} cs0 (m : M L A) : balanced m → uses cs0 m.
Proof. intros Hm base cs l _. by apply balanced_at. Qed.
Lemma balanced_uses {L A} (m : M L A) : uses ∅ m → balanced m.
Proof. intros Hm base l. eapply balanced_task_mono; [by apply Hm|done]. Qed.

Lemma uses_bind {L A B} cs0 (m : M L A) (f : A → M L B) :
  uses cs0 m → (∀ a, uses cs0 (f a)) → uses cs0 (bind m f).
Proof.
  intros Hm Hf base cs l Hcs. eapply balanced_task_bind; [by apply Hm|]. intros l' a c Hc.
  eapply balanced_task_mono; [apply Hf; set_solver|]. set_solver.
Qed.
Lemma uses_bind_res {L A B} cs0 (m : M L (Res A)) (f : A → M L (Res B)) :
  uses cs0 m → (∀ a, uses cs0 (f a)) → uses cs0 (bind_res m f).
Proof. intros Hm Hf. apply uses_bind; [done|]. intros [a|e]; [done|]. apply uses_balanced, balanced_ret. Qed.

(** Binding a connection that was opened: the rest may use it too. *)
Lemma uses_bind_opens {L A} cs0 (m : M L (Res nat)) (f : nat → M L (Res A)) :
  opens cs0 m → (∀ s, uses ({[s]} ∪ cs0) (f s)) → uses cs0 (bind_res m f).
Proof.
  intros Hm Hf base cs l Hcs. eapply balanced_task_bind; [by apply Hm|]. intros l' [s|e] c [Hc Hs]; [|by split].
  eapply balanced_task_mono; [apply Hf; set_solver|]. set_solver.
Qed.
Lemma opens_bind {L A} cs0 (m : M L (Res A)) (f : A → M L (Res nat)) :
  uses cs0 m → (∀ a, opens cs0 (f a)) → opens cs0 (bind_res m f).
Proof.
  intros Hm Hf base cs l Hcs. eapply balanced_task_bind; [by apply Hm|]. intros l' [a|e] c Hc; [|by split].
  eapply balanced_task_mono; [apply Hf; set_solver|]. set_solver.
Qed.
Lemma opens_bind_opens {L} cs0 (m : M L (Res nat)) (f : nat → M L (Res nat)) :
  opens cs0 m → (∀ s, opens ({[s]} ∪ cs0) (f s)) → opens cs0 (bind_res m f).
Proof.
  intros Hm Hf base cs l Hcs. eapply balanced_task_bind; [by apply Hm|]. intros l' [s|e] c [Hc Hs]; [|by split].
  eapply balanced_task_mono; [apply Hf; set_solver|]. set_solver.
Qed.

Lemma uses_net {L} cs0 op : list_to_set (op_conns op) ⊆ cs0 → uses (L := L) cs0 (net op).
Proof.
  intros Hop base cs l Hcs. split; [done|]. split; [cbn; set_solver|]. split; [destruct op; cbn; repeat constructor; set_solver|].
  intros r Hb. split; [done|]. set_solver.
Qed.
Lemma uses_io {L A} cs0 (m : M L (result IoError A)) : uses cs0 m → uses cs0 (io m).
Proof. intros Hm. apply uses_bind; [done|]. intros a. apply uses_balanced, balanced_ret. Qed.
Lemma uses_nodelay {L} c cs0 : c ∈ cs0 → uses (L := L) cs0 (cell (NSetNoDelay c)).
Proof.
  intros Hc base cs l Hcs. split; [cbn; set_solver|]. split; [done|]. intros r _ _. split; [done|]. cbn. set_solver.
Qed.
Lemma balanced_cell {L} a : markless (ENet a) → balanced (L := L) (cell a).
Proof. apply balanced_sync. Qed.

(** The three operations that open something. *)
Lemma opens_udp_bind {L} cs0 addr : opens (L := L) cs0 (io (net (NUdpBind addr))).
Proof.
  intros base cs l Hcs. split; [done|]. split; [cbn; set_solver|]. split; [constructor|].
  intros [s|e] Hb; (split; [done|]); set_solver.
Qed.
Lemma opens_tcp_connect {L} cs0 dest : opens (L := L) cs0 (io (net (NTcpConnect dest))).
Proof.
  intros base cs l Hcs. split; [done|]. split; [cbn; set_solver|]. split; [constructor|].
  intros [s|e] Hb; (split; [done|]); set_solver.
Qed.
Lemma opens_tls_connect {L} cs0 name c : c ∈ cs0 →
  opens (L := L) cs0 (let! tls := net (NTlsConnect name c) in ret (map_err ErrProtocol (tls : result string nat))).
Proof.
  intros Hc base cs l Hcs. split; [done|]. split; [cbn; set_solver|]. split; [repeat constructor; set_solver|].
  intros [s|e] Hb; (split; [done|]); set_solver.
Qed.
#[local] Hint Resolve uses_nodelay opens_udp_bind opens_tcp_connect : ferrum.
#[local] Hint Extern 1 (_ ⊆ _) => (progress cbn; set_solver) : ferrum.

Ltac uses_auto :=
  repeat first
    [ progress intros | done | progress cbv zeta beta | solve [eauto with ferrum nocore]
    | apply uses_bind_res | apply uses_io | apply uses_net; cbn; set_solver | apply uses_nodelay; set_solver
    | apply uses_balanced; solve [bal_auto] | apply uses_bind | case_match ].

Lemma uses_framed_exchange {L} s cs0 q : s ∈ cs0 → uses (L := L) cs0 (framed_exchange s q).
Proof. intros Hs. unfold framed_exchange, write_framed, read_framed. uses_auto. Qed.

Lemma uses_udp_receive {L} n sock cs0 dest q : sock ∈ cs0 → uses (L := L) cs0 (udp_receive n sock dest q).
Proof.
  intros Hs. induction n as [|n IH]; cbn [udp_receive]; [uses_auto|]. apply uses_bind_res; [uses_auto|].
  intros buf. case_match; [|exact IH]. case_match; [|exact IH]. case_match; [|uses_auto].
  apply uses_bind_opens; [auto with ferrum|]. intros stream. apply uses_bind_res; [uses_auto|]. intros _.
  apply uses_bind_res; [apply uses_framed_exchange; set_solver|]. uses_auto.
Qed.

Lemma balanced_udp_exchange {L} dest q : balanced (L := L) (udp_exchange_addr dest q).
Proof.
  apply balanced_uses. unfold udp_exchange_addr. apply uses_bind_opens; [auto with ferrum|]. intros sock.
  apply uses_bind_res; [uses_auto|]. intros _. apply uses_bind_res; [uses_auto|]. intros bytes.
  apply uses_bind_res; [uses_auto|]. intros _. apply uses_udp_receive. set_solver.
Qed.
#[local] Hint Resolve balanced_udp_exchange : ferrum.
#[local] Hint Extern 1 (balanced (cell _)) => (apply balanced_cell; exact I) : ferrum.
Lemma balanced_io {L A} (m : M L (result IoError A)) : balanced m → balanced (io m).
Proof. intros Hm. unfold io. bal_auto. Qed.
#[local] Hint Extern 1 (balanced (net _)) => (apply balanced_suspend; reflexivity) : ferrum.
#[local] Hint Extern 1 (balanced (io _)) => (apply balanced_io) : ferrum.

Lemma balanced_bootstrap_ips {L} bootstrap hostname budget : balanced (L := L) (bootstrap_ips bootstrap hostname budget).
Proof.
  unfold bootstrap_ips. apply balanced_bind_res; [bal_auto|]. intros boot base l.
  assert (Hq : ∀ d host qtype, balanced_task base ∅ (timeout d (bootstrap_query boot host qtype) tt) anything).
  { intros d host qtype. apply balanced_timeout_task. apply (balanced_run (bootstrap_query boot host qtype)).
    unfold bootstrap_query. bal_auto. }
  eapply balanced_task_bind; [by apply balanced_select_fresh|]. intros l' r c (c1 & c2 & _ & -> & Hr).
  eapply balanced_task_bind; [|intros l2 ips c3 _; apply balanced_run; bal_auto].
  destruct r as [[[l1 r1] rest]|[[l1 r1] rest]]; destruct Hr as [_ Hrest];
    (apply balanced_enclose_bind; [eapply balanced_more; [exact Hrest|set_solver]|]; intros [l4 r2]; bal_auto).
Qed.
#[local] Hint Resolve balanced_bootstrap_ips : ferrum.

Lemma balanced_cached_dest {L} u spec target budget : balanced (L := L) (cached_dest u spec target budget).
Proof. unfold cached_dest, resolve_spec, resolve_target. bal_auto. Qed.
Lemma balanced_resolve_host {L} u p host budget : balanced (L := L) (resolve_host u p host budget).
Proof. unfold resolve_host. bal_auto. Qed.
#[local] Hint Resolve balanced_cached_dest balanced_resolve_host : ferrum.

Lemma pool_put_gives {L} base cs u p s (l : L) : s ∈ cs → sp_cap p ≤ POOL_CAP →
  balanced_task base cs (pool_put u p s l) anything.
Proof. intros Hs Hp. split; [cbn; set_solver|]. split; [done|]. by intros r _ _. Qed.

Lemma pool_take_brings {L} base u p (l : L) :
  balanced_task base ∅ (pool_take u p l) (λ c o, match o with Some s => s ∈ c | None => True end).
Proof.
  split; [done|]. split; [done|]. intros now _ _. split; [done|]. split; [done|]. intros [s|] _ _; cbn; [|done].
  split; [done|]. set_solver.
Qed.

Lemma balanced_reused {L} u p q : sp_cap p ≤ POOL_CAP → balanced (L := L) (reused_exchange u p q).
Proof.
  intros Hp base l. eapply balanced_task_bind; [apply pool_take_brings|]. intros l' [s|] c Hs; [|done].
  eapply balanced_task_bind; [apply (uses_framed_exchange s {[s]} q); set_solver|]. intros l2 [m|e] c2 Hc2; [|done].
  eapply balanced_task_bind; [apply pool_put_gives; [set_solver|done]|]. by intros.
Qed.

Lemma balanced_fresh {L} u p (connect : M L (Res nat)) q :
  sp_cap p ≤ POOL_CAP → opens ∅ connect → balanced (fresh_exchange u p connect q).
Proof.
  intros Hp Hc base l. eapply balanced_task_bind; [by apply Hc|]. intros l' [s|e] c [_ Hs]; [|done].
  eapply balanced_task_bind; [apply (uses_framed_exchange s {[s]} q); set_solver|]. intros l2 [m|e] c2 Hc2; [|done].
  eapply balanced_task_bind; [apply pool_put_gives; [set_solver|done]|]. by intros.
Qed.

Lemma balanced_pooled {L} u p (connect : M L (Res nat)) q : sp_cap p ≤ POOL_CAP → opens ∅ connect →
  balanced (let! reused := reused_exchange u p q in
    match reused with Some msg => ret (Ok msg) | None => fresh_exchange u p connect q end).
Proof.
  intros Hp Hc. apply balanced_bind; [by apply balanced_reused|]. intros [m|]; [apply balanced_ret|by apply balanced_fresh].
Qed.

Lemma opens_tcp {L} cs0 dest : opens (L := L) cs0 (tcp_connect dest).
Proof.
  apply opens_bind_opens; [apply opens_tcp_connect|]. intros s base cs l Hcs.
  eapply balanced_task_bind; [apply (uses_io ({[s]} ∪ cs0)); [apply uses_nodelay; set_solver|done]|].
  intros l' [u|e] c Hc; (split; [done|]); [|done]. split; [done|]. set_solver.
Qed.

Lemma opens_tls {L} dest sni : opens (L := L) ∅ (tls_connect dest sni).
Proof.
  apply opens_bind_opens; [apply opens_tcp|]. intros s. apply opens_bind; [apply uses_balanced; bal_auto|].
  intros name. apply opens_tls_connect. set_solver.
Qed.

Lemma balanced_tcp_exchange {L} u p dest q : sp_cap p ≤ POOL_CAP → balanced (L := L) (tcp_exchange_pooled u p dest q).
Proof. intros Hp. apply balanced_pooled; [done|apply opens_tcp]. Qed.
Lemma balanced_tls_exchange {L} u p dest sni q :
  sp_cap p ≤ POOL_CAP → balanced (L := L) (tls_exchange_pooled u p dest sni q).
Proof. intros Hp. apply balanced_pooled; [done|apply opens_tls]. Qed.
Lemma balanced_doh_exchange {L} url q : balanced (L := L) (doh_exchange url q).
Proof. unfold doh_exchange. bal_auto. Qed.
#[local] Hint Resolve balanced_doh_exchange : ferrum.

Lemma upstream_pool_fits up : sp_cap (upstream_pool up) ≤ POOL_CAP.
Proof. done. Qed.
#[local] Hint Extern 1 (balanced (tcp_exchange_pooled _ _ _ _)) => (apply balanced_tcp_exchange, upstream_pool_fits) : ferrum.
#[local] Hint Extern 1 (balanced (tls_exchange_pooled _ _ _ _ _)) => (apply balanced_tls_exchange, upstream_pool_fits) : ferrum.

Lemma balanced_exchange {L} u up q limit : balanced (L := L) (exchange u up q limit).
Proof.
  unfold exchange. apply balanced_bind; [|bal_auto]. apply balanced_timeout. unfold exchange_inner, upstream_err. bal_auto.
Qed.

Lemma balanced_forward_finish f e u : balanced (forward_finish f e u).
Proof. unfold forward_finish. bal_auto. Qed.
#[local] Hint Resolve balanced_forward_finish : ferrum.

Lemma balanced_with_label f i k base cs (ctx : QueryContext) :
  (∀ label, balanced_task base cs (k label ctx) anything) → balanced_task base cs (with_label f i k ctx) anything.
Proof. intros Hk. unfold with_label. by case_match. Qed.

Lemma balanced_forward_loop f base cs n (pending : racing (nat * Res Message) n) le lu ctx :
  balanced_race base cs n pending → balanced_task base cs (forward_loop f pending le lu ctx) anything.
Proof.
  revert cs pending le lu ctx. induction n as [|n IH]; intros cs pending le lu ctx Hp; cbn [forward_loop].
  { apply balanced_run. auto with ferrum. }
  eapply balanced_task_bind; [by apply balanced_race_next|]. intros c1 [[i r] rest] c Hrest. cbn [fst snd] in Hrest.
  destruct r as [msg|e]; [case_match|];
    (eapply balanced_task_bind; [apply balanced_at, balanced_count|intros c2 [] c' Hc']).
  - apply balanced_with_label. intros label. apply balanced_run. bal_auto.
  - apply balanced_with_label. intros label. apply IH. by eapply balanced_race_more.
  - apply IH. by eapply balanced_race_more.
Qed.

Lemma balanced_forward_exec f : balanced (forward_exec f).
Proof.
  unfold forward_exec, forward_single. intros base ctx. cbv zeta. case_match.
  - case_match; [done|]. apply balanced_enclose_bind; [apply balanced_exchange|]. intros [un r]. bal_auto.
  - apply balanced_forward_loop, balanced_race_list. unfold forward_pending. apply Forall_lookup_2.
    intros i t Hi. rewrite list_lookup_imap in Hi. apply fmap_Some in Hi as (up & _ & ->).
    eapply balanced_task_bind; [apply balanced_exchange|]. by intros l r c _.
Qed.

Lemma balanced_use_primary f p : balanced (use_primary f p).
Proof. unfold use_primary. bal_auto. Qed.
Lemma balanced_use_secondary s r : balanced (use_secondary s r).
Proof. unfold use_secondary. bal_auto. Qed.
#[local] Hint Resolve balanced_use_primary balanced_use_secondary : ferrum.

Lemma balanced_fallback_standby f primary secondary :
  balanced primary → balanced secondary → balanced (fallback_standby f primary secondary).
Proof.
  intros Hp Hs. unfold fallback_standby. apply balanced_bind; [auto with ferrum|]. intros pctx.
  apply balanced_bind; [auto with ferrum|]. intros sctx base ctx.
  eapply balanced_task_bind; [apply balanced_select_fresh; [apply balanced_timeout_task, Hp|apply Hs]|].
  intros ctx' r c (c1 & c2 & _ & -> & Hr).
  assert (Hrest : ∀ (t : task QueryContext (Res Action)) cs, balanced_task base cs t anything →
            cs ⊆ c1 ∪ c2 → balanced_task base (c1 ∪ c2) t anything) by (intros; by eapply balanced_more).
  destruct r as [[[p r] rest]|[[s r] rest]]; destruct Hr as [_ Hrun].
  - case_match; [apply balanced_run; auto with ferrum|].
    eapply balanced_enclose_bind; [eapply Hrest; [exact Hrun|set_solver]|]. intros [s r']. bal_auto.
  - eapply balanced_enclose_bind; [eapply balanced_more; [exact Hrun|set_solver]|]. intros [p r']. bal_auto.
Qed.

Lemma balanced_fallback_exec get_exec f :
  (∀ t p, get_exec t = Ok p → balanced p) → balanced (fallback_exec get_exec f).
Proof.
  intros Hget. unfold fallback_exec. intros base ctx. destruct (get_exec (fb_primary f)) as [p|] eqn:Ep; [|done].
  destruct (get_exec (fb_secondary f)) as [s|] eqn:Es; [|done]. apply Hget in Ep, Es.
  case_match; [by apply balanced_fallback_standby|]. apply balanced_run. unfold fallback_sequential.
  apply balanced_bind; [auto with ferrum|]. intros pctx base' c.
  eapply balanced_enclose_bind; [apply balanced_timeout_task, Ep|]. intros [p' r]. bal_auto.
Qed.

Section sequence.
Context (reg : Lookups) (Hreg : ∀ t p, lk_exec reg t = Ok p → balanced p).

Lemma balanced_sequence_store writes : balanced (sequence_store writes).
Proof.
  intros base ctx. unfold sequence_store. apply balanced_run. clear base.
  induction writes as [|[c w] writes IH]; cbn [foldr]; [bal_auto|]. apply balanced_bind; [bal_auto|]. intros _. apply IH.
Qed.
#[local] Hint Resolve balanced_sequence_store : ferrum.

Lemma balanced_run_step tag e writes : balanced (run_step reg tag e writes).
Proof.
  unfold run_step. destruct e as [t|b]; [|bal_auto].
  destruct (lk_exec reg t) as [p|] eqn:E; [|bal_auto]. apply Hreg in E. bal_auto.
Qed.
#[local] Hint Resolve balanced_run_step : ferrum.

Lemma balanced_run_steps tag sts writes : balanced (run_steps reg tag sts writes).
Proof.
  revert writes. induction sts as [|s sts IH]; intros writes; cbn [run_steps]; [bal_auto|].
  intros base ctx. destruct (negb _); [apply IH|]. apply balanced_run, balanced_bind_res; [auto with ferrum|].
  intros [[] w]; [apply IH|bal_auto..|].
  destruct (lk_exec reg tag0) as [p|] eqn:E; [|bal_auto]. apply Hreg in E. bal_auto.
Qed.
End sequence.

Lemma balanced_exec_obj fuel reg o : balanced (exec_obj fuel reg o).
Proof.
  revert o. induction fuel as [|fuel IH]; intros o; [by intros base l|]. destruct o; cbn [exec_obj].
  - apply balanced_cache_exec.
  - apply balanced_hosts_exec.
  - apply balanced_forward_exec.
  - apply balanced_blackhole_exec.
  - apply balanced_redirect_exec.
  - apply balanced_ecs_exec.
  - apply balanced_no_ecs_exec.
  - unfold slot_sequence_exec. destruct (rg_ready reg); [|apply balanced_ret]. apply balanced_run_steps.
    intros t p (o & _ & [= <-])%result_bind_Ok. apply IH.
  - unfold slot_fallback_exec. destruct (rg_ready reg); [|apply balanced_ret]. apply balanced_fallback_exec.
    intros t p (o & _ & [= <-])%result_bind_Ok. apply IH.
Qed.

Lemma balanced_handle rt entry limit : balanced (handle rt entry limit).
Proof.
  assert (balanced handle_finish) by (unfold handle_finish, observe_query; bal_exec).
  assert (∀ r, balanced (handle_outcome r)) by (intros r; unfold handle_outcome; bal_exec).
  assert (∀ o, balanced (run_pipeline rt o limit)) by (intros o; apply balanced_timeout, balanced_exec_obj).
  unfold handle. intros base ctx. destruct (classify_incoming _); [done|apply balanced_run; bal_auto|].
  apply balanced_run. apply balanced_bind; [auto with ferrum|]. intros _.
  destruct (get_exec _ _) as [o|]; bal_auto.
Qed.
#[local] Hint Resolve balanced_handle : ferrum.

(** The tasks of the transports hold no mark when they ask for the live runtime. *)
Definition markfree {L A} (m : M L A) : Prop := ∀ l, balanced_task ∅ ∅ (m l) anything.

Lemma markfree_balanced {L A} (m : M L A) : balanced m → markfree m.
Proof. intros Hm l. apply Hm. Qed.
Lemma markfree_bind {L A B} (m : M L A) (f : A → M L B) : markfree m → (∀ a, markfree (f a)) → markfree (bind m f).
Proof.
  intros Hm Hf l. eapply balanced_task_bind; [apply Hm|]. intros l' a c _. eapply balanced_more; [apply Hf|set_solver].
Qed.
Lemma markfree_bind_res {L A B} (m : M L (Res A)) (f : A → M L (Res B)) :
  markfree m → (∀ a, markfree (f a)) → markfree (bind_res m f).
Proof. intros Hm Hf. apply markfree_bind; [done|]. intros [a|e]; [apply Hf|apply markfree_balanced, balanced_ret]. Qed.
Lemma markfree_live {L} : markfree (L := L) (sync ELive).
Proof. intros l. split; [done|]. split; [done|]. intros g _ _. cbn. by split. Qed.

Lemma markfree_live_handle live entry limit ctx : markfree (live_handle live entry limit ctx).
Proof.
  unfold live_handle, live_get. apply markfree_bind; [apply markfree_bind; [apply markfree_live|]|];
    intros; apply markfree_balanced; bal_auto.
Qed.

Ltac markfree_auto :=
  repeat first
    [ progress intros | apply markfree_live_handle | case_match | apply markfree_balanced; solve [bal_auto]
    | apply markfree_bind | apply markfree_bind_res ].

Lemma markfree_udp_packet live entry limit peer buf : markfree (udp_packet live entry limit peer buf).
Proof. unfold udp_packet, udp_send. markfree_auto. Qed.

Lemma balanced_write_tcp_response idle ctx : balanced (write_tcp_response idle ctx).
Proof.
  unfold write_tcp_response. bal_auto.
Qed.
#[local] Hint Resolve balanced_write_tcp_response : ferrum.

Lemma balanced_timeout_suspend {L} d a : await_conns a = [] → balanced (timeout d (suspend (L := L) a)).
Proof. intros Ha. by apply balanced_timeout, balanced_suspend. Qed.
#[local] Hint Extern 1 (balanced (timeout _ (suspend _))) => (apply balanced_timeout_suspend; reflexivity) : ferrum.

Lemma markfree_serve_frame live entry limit idle proto peer : markfree (serve_frame live entry limit idle proto peer).
Proof. unfold serve_frame. markfree_auto. Qed.

Lemma markfree_serve_framed n live entry limit idle proto peer :
  markfree (serve_framed n live entry limit idle proto peer).
Proof.
  induction n as [|n IH]; cbn [serve_framed]; [by apply markfree_balanced, balanced_ret|].
  apply markfree_bind_res; [apply markfree_serve_frame|]. intros [|]; [exact IH|by apply markfree_balanced, balanced_ret].
Qed.

Lemma balanced_refresh_body rt r : balanced (refresh_body rt r).
Proof. unfold refresh_body, handle_query. bal_auto. Qed.

Lemma balanced_cache_flush {L} c : balanced (L := L) (cache_flush c).
Proof.
  unfold cache_flush. induction (seq 0 (ca_n_shards c)) as [|i rest IH]; cbn [foldr]; [bal_auto|].
  apply balanced_bind; [bal_auto|auto].
Qed.

Lemma markfree_doh_handle live entry limit peer body : markfree (doh_handle live entry limit peer body).
Proof. unfold doh_handle. markfree_auto. Qed.

(** The admin API. *)
Section api.
Context {HS : HickoryShow H} {O : HashOrder} {W : WebLib}.

Lemma balanced_cache_len {L} c : balanced (L := L) (cache_len c).
Proof.
  unfold cache_len. induction (seq 0 (ca_n_shards c)) as [|i idx IH]; cbn [foldr]; [bal_auto|].
  apply balanced_bind; [bal_auto|]. intros n. apply balanced_bind; [apply IH|bal_auto].
Qed.

Lemma balanced_plugins {L} st : balanced (L := L) (plugins st).
Proof.
  unfold plugins. apply balanced_bind; [|bal_auto]. generalize (hash_keys (rg_caches (rt_registry (st_live st)))).
  intros tags. induction tags as [|t tags IH]; cbn [cache_sizes]; [bal_auto|]. case_match; [|done].
  apply balanced_bind; [apply balanced_cache_len|]. bal_auto.
Qed.

Lemma balanced_flush {L} rt h body : balanced (L := L) (flush rt h body).
Proof.
  assert (Hall : ∀ caches tags, balanced (L := L) (flush_all caches tags)).
  { intros caches tags. induction tags as [|t tags IH]; cbn [flush_all]; [bal_auto|]. case_match; [|done].
    apply balanced_bind; [apply balanced_cache_flush|]. bal_auto. }
  unfold flush. repeat case_match; try apply balanced_ret.
  - apply balanced_bind; [apply balanced_cache_flush|]. bal_auto.
  - apply balanced_bind; [apply Hall|]. bal_auto.
Qed.

Lemma balanced_query {L} rt req : balanced (L := L) (query rt req).
Proof.
  unfold query, query_run, handle_query. pose proof (@balanced_handle). bal_auto.
Qed.
#[local] Hint Resolve balanced_query balanced_flush balanced_plugins : ferrum.

Lemma balanced_api_handle {L} version asset st req : balanced (L := L) (api_handle version asset st req).
Proof.
  unfold api_handle, response_headers, api_routes, on_get, on_post, metrics_prom, stats.
  apply balanced_bind; [|bal_auto]. case_match; [bal_auto|].
  repeat (case_decide; [bal_auto|]). bal_auto.
Qed.
End api.
End program.

(** ** One owner per connection *)

(** The pools of one upstream of one of the runtimes a server has had; [nets g] are
    the cells of the [g]-th. *)
Notation Home := (nat * Cells)%type (only parsing).
Notation Nets := (nat → NetState) (only parsing).
(** Where a connection can be: with a task, or in a pool. *)
Notation Holder := (nat + Home)%type (only parsing).

Definition pool_at (v : Home) (nets : Nets) : Slots := pool_of v.2 (nets v.1).
Definition pooled (v : Home) (nets : Nets) : list nat := (pool_at v nets).*1.
Definition holds (css : list Conns) (nets : Nets) (o : Holder) (x : nat) : Prop :=
  match o with
  | inl i => ∃ cs, css !! i = Some cs ∧ x ∈ cs
  | inr v => x ∈ pooled v nets
  end.

(** Every connection was opened, has one holder at most, and is in its pool once;
    the pools are within their bound. *)
Record conns_owned (css : list Conns) (nets : Nets) (opened : Conns) : Prop := mkConnsOwned {
  co_one : ∀ x o1 o2, holds css nets o1 x → holds css nets o2 x → o1 = o2;
  co_opened : ∀ x o, holds css nets o x → x ∈ opened;
  co_nodup : ∀ v, NoDup (pooled v nets);
  co_bound : ∀ v, length (pool_at v nets) ≤ POOL_CAP;
}.

Section conns.
Implicit Types css : list Conns.
Implicit Types opened cs : Conns.
Implicit Types nets : nat → NetState.

Lemma pool_of_with_pool u v slots ns :
  pool_of v (with_pool u slots ns) = if decide (u = v) then slots else pool_of v ns.
Proof.
  unfold pool_of, with_pool. cbn. destruct (decide (u = v)) as [<-|Hne];
    [by rewrite lookup_insert_eq|by rewrite lookup_insert_ne].
Qed.

(** [nets'] is [nets] with [slots] in the pool [v]. *)
Definition pool_set (v : Home) (slots : Slots) (nets nets' : Nets) : Prop :=
  ∀ w, pool_at w nets' = if decide (v = w) then slots else pool_at w nets.

Lemma pool_set_insert g u slots nets : pool_set (g, u) slots nets (<[g := with_pool u slots (nets g)]> nets).
Proof.
  intros [g' u']. unfold pool_at. cbn [fst snd]. destruct (decide (g = g')) as [<-|Hne].
  - rewrite fn_lookup_insert, pool_of_with_pool. repeat case_decide; naive_solver.
  - rewrite fn_lookup_insert_ne by done. case_decide; naive_solver.
Qed.

(** Task [i] and a pool exchange connections. *)
Lemma conns_owned_swap css nets nets' opened i cs cs' v slots :
  conns_owned css nets opened → css !! i = Some cs → pool_set v slots nets nets' →
  (∀ x, x ∈ cs' ∨ x ∈ slots.*1 → x ∈ cs ∨ x ∈ pooled v nets) →
  (∀ x, x ∈ cs' → x ∉ slots.*1) → NoDup slots.*1 → length slots ≤ POOL_CAP →
  conns_owned (<[i := cs']> css) nets' opened.
Proof.
  intros [Hone Hop Hnd Hb] Hi Hset Hsub Hdis Hnd' Hb'. assert (i < length css) as Hlt by (by apply lookup_lt_Some in Hi).
  assert (Hpool : ∀ w, pooled w nets' = if decide (v = w) then slots.*1 else pooled w nets).
  { intros w. unfold pooled. rewrite Hset. by case_decide. }
  set (inside := λ o : Holder, o = inl i ∨ o = inr v).
  assert (Hold : ∀ o x, holds (<[i := cs']> css) nets' o x →
            (inside o ∧ ∃ o', inside o' ∧ holds css nets o' x) ∨ (¬ inside o ∧ holds css nets o x)).
  { intros [j|w] x; cbn.
    - intros (c & Hj & Hx). destruct (decide (i = j)) as [<-|Hne].
      + rewrite list_lookup_insert_eq in Hj by done. injection Hj as <-. left. split; [by left|].
        destruct (Hsub x (or_introl Hx)) as [?|?]; [exists (inl i)|exists (inr v)]; (split; [by constructor|]); cbn; eauto.
      + rewrite list_lookup_insert_ne in Hj by done. right. split; [intros [[=]|[=]]; done|eauto].
    - rewrite Hpool. case_decide as Hv; [subst w|].
      + intros Hx. left. split; [by right|].
        destruct (Hsub x (or_intror Hx)) as [?|?]; [exists (inl i)|exists (inr v)]; (split; [by constructor|]); cbn; eauto.
      + intros Hx. right. split; [|done]. intros [E|E]; [done|]. by injection E as ->. }
  assert (Hnew : ∀ o x, inside o → holds (<[i := cs']> css) nets' o x →
            if o then x ∈ cs' else x ∈ slots.*1).
  { intros o x [->| ->]; cbn.
    - intros (c & Hj & Hx). rewrite list_lookup_insert_eq in Hj by done. by injection Hj as <-.
    - rewrite Hpool. by rewrite decide_True. }
  split.
  - intros x o1 o2 H1 H2. destruct (Hold _ _ H1) as [[Ho1 (o1' & Hi1 & Hx1)]|[Hn1 Hx1]],
      (Hold _ _ H2) as [[Ho2 (o2' & Hi2 & Hx2)]|[Hn2 Hx2]].
    + pose proof (Hnew _ _ Ho1 H1) as Hw1. pose proof (Hnew _ _ Ho2 H2) as Hw2.
      destruct Ho1 as [-> | ->], Ho2 as [-> | ->]; cbn in *; [done|by destruct (Hdis x)|by destruct (Hdis x)|done].
    + by rewrite (Hone _ _ _ Hx1 Hx2) in Hi1.
    + by rewrite (Hone _ _ _ Hx2 Hx1) in Hi2.
    + by apply (Hone x).
  - intros x o Hx. destruct (Hold _ _ Hx) as [[_ (o' & _ & Hx')]|[_ Hx']]; by eapply Hop.
  - intros w. rewrite Hpool. case_decide; [done|apply Hnd].
  - intros w. rewrite Hset. case_decide; [done|apply Hb].
Qed.

(** Task [i] keeps what it has, or less; the pools stay. *)
Lemma conns_owned_same_pools css nets nets' opened i cs cs' :
  conns_owned css nets opened → css !! i = Some cs → cs' ⊆ cs → (∀ v, pool_at v nets' = pool_at v nets) →
  conns_owned (<[i := cs']> css) nets' opened.
Proof.
  intros [Hone Hop Hnd Hb] Hi Hsub Hp. assert (i < length css) as Hlt by (by apply lookup_lt_Some in Hi).
  assert (Hold : ∀ o x, holds (<[i := cs']> css) nets' o x → holds css nets o x).
  { intros [j|v] x; cbn; [|by unfold pooled; rewrite Hp]. intros (c & Hj & Hx). destruct (decide (i = j)) as [<-|Hne].
    - rewrite list_lookup_insert_eq in Hj by done. injection Hj as <-. exists cs. split; [done|]. by apply Hsub.
    - rewrite list_lookup_insert_ne in Hj by done. by exists c. }
  split; [eauto|eauto|intros u; unfold pooled; rewrite Hp; apply Hnd|intros u; rewrite Hp; apply Hb].
Qed.

(** Task [i] opens a connection. *)
Lemma conns_owned_open css nets opened i cs new :
  conns_owned css nets opened → css !! i = Some cs → new ## opened →
  conns_owned (<[i := new ∪ cs]> css) nets (new ∪ opened).
Proof.
  intros [Hone Hop Hnd Hb] Hi Hnew. assert (i < length css) as Hlt by (by apply lookup_lt_Some in Hi).
  assert (Hold : ∀ o x, holds (<[i := new ∪ cs]> css) nets o x → (o = inl i ∧ x ∈ new) ∨ holds css nets o x).
  { intros [j|v] x; cbn; [|by right]. intros (c & Hj & Hx). destruct (decide (i = j)) as [<-|Hne].
    - rewrite list_lookup_insert_eq in Hj by done. injection Hj as <-. apply elem_of_union in Hx as [?|?]; [by left|right; eauto].
    - rewrite list_lookup_insert_ne in Hj by done. right. by exists c. }
  split; [|intros x o [[-> ?]|?%Hop]%Hold; set_solver|done|done].
  intros x o1 o2 [[-> H1]|H1]%Hold [[-> H2]|H2]%Hold; [done| | |by eapply Hone].
  - apply Hop in H2. set_solver.
  - apply Hop in H1. set_solver.
Qed.

(** New tasks, without connections. *)
Lemma conns_owned_spawn css nets opened n :
  conns_owned css nets opened → conns_owned (css ++ replicate n ∅) nets opened.
Proof.
  intros [Hone Hop Hnd Hb]. assert (Hold : ∀ o x, holds (css ++ replicate n ∅) nets o x → holds css nets o x).
  { intros [j|v] x; cbn; [|done]. intros (c & Hj & Hx). apply lookup_app_Some in Hj as [Hj|[_ Hj]]; [by exists c|].
    apply lookup_replicate in Hj as [-> _]. set_solver. }
  split; eauto.
Qed.

(** The pools of a runtime are dropped, or a new runtime begins without any. *)
Lemma conns_owned_fewer css nets nets' opened :
  conns_owned css nets opened → (∀ v, pool_at v nets' = pool_at v nets ∨ pool_at v nets' = []) →
  conns_owned css nets' opened.
Proof.
  intros [Hone Hop Hnd Hb] Hp.
  assert (Hold : ∀ o x, holds css nets' o x → holds css nets o x).
  { intros [j|v] x; cbn; [done|]. unfold pooled. destruct (Hp v) as [-> | ->]; [done|]. by intros ?%not_elem_of_nil. }
  split; [eauto|eauto|intros v; unfold pooled|intros v]; destruct (Hp v) as [-> | ->]; [apply Hnd|constructor|apply Hb|cbn; lia].
Qed.

(** One access of task [i]: what its reply brings is not in use elsewhere. *)
Lemma net_step_owned g now a nets (r : net_access_reply a) ns' css opened i cs :
  net_step now a (nets g) r ns' → conns_owned css nets opened → css !! i = Some cs →
  access_conns (ENet a) ⊆ cs → pool_fits (ENet a) →
  access_brings (ENet a) r ## cs
  ∧ conns_owned (<[i := access_brings (ENet a) r ∪ cs ∖ access_gives (ENet a)]> css) (<[g := ns']> nets) opened.
Proof.
  intros Hs Hown Hi Hc Hf.
  assert (Hsame : access_brings (ENet a) r = ∅ → ns_pools ns' = ns_pools (nets g) → access_brings (ENet a) r ## cs
    ∧ conns_owned (<[i := access_brings (ENet a) r ∪ cs ∖ access_gives (ENet a)]> css) (<[g := ns']> nets) opened).
  { intros Hb Hp. rewrite Hb. split; [set_solver|]. eapply conns_owned_same_pools; [done|done|set_solver|].
    intros [g' u]. unfold pool_at. cbn [fst snd]. destruct (decide (g = g')) as [<-|Hne];
      [rewrite fn_lookup_insert; unfold pool_of; by rewrite Hp|by rewrite fn_lookup_insert_ne]. }
  assert (Hone : ∀ x v, x ∈ cs → x ∉ pooled v nets).
  { intros x v Hx Hv. assert (inl i = inr v :> Holder); [|done]. eapply (co_one _ _ _ Hown x); [by exists cs|done]. }
  pose proof (λ u, mkPoolInv (mkStreamPool POOL_CAP 0) (pool_at (g, u) nets) (co_bound _ _ _ Hown (g, u))
    (co_nodup _ _ _ Hown (g, u))) as Hinv.
  destruct a; cbn in Hs; try (apply Hsame; [done|by destruct Hs as [_ ->]||by rewrite Hs]).
  - destruct Hs as [-> ->]. destruct (pool_take_inv _ (sp_idle p) now0 _ (Hinv u)) as [[Hlen Hnd] Hnot].
    pose proof (pool_take_spec (sp_idle p) now0 (pool_at (g, u) nets)) as Hspec.
    unfold pool_at in *. cbn [fst snd] in *.
    destruct (pool_take_locked (sp_idle p) now0 (pool_of u (nets g))) as [rest [s|]]; cbn [fst snd] in *.
    + destruct Hspec as (stale & t & Hslots & _).
      assert (Hsub : ∀ x, x = s ∨ x ∈ rest.*1 → x ∈ pooled (g, u) nets).
      { unfold pooled, pool_at. cbn [fst snd]. rewrite Hslots, fmap_app. set_solver. }
      assert (Hs : s ∉ cs) by (intros Hs; eapply (Hone s (g, u)); [done|by apply Hsub; left]).
      split; [cbn; set_solver|]. eapply (conns_owned_swap _ _ _ _ _ _ _ (g, u)); [done|done|apply pool_set_insert| | |done|done].
      * intros x [Hx|Hx]; [cbn in Hx; set_solver|]. right. by apply Hsub; right.
      * intros x Hx Hr. cbn in Hx. destruct (decide (x = s)) as [->|Hne]; [by apply (Hnot s)|].
        apply (Hone x (g, u)); [set_solver|by apply Hsub; right].
    + destruct Hspec as [-> _]. split; [cbn; set_solver|].
      eapply (conns_owned_swap _ _ _ _ _ _ _ (g, u)); [done|done|apply pool_set_insert| | |done|done].
      * intros x [Hx|Hx]; [cbn in Hx; set_solver|]. by apply not_elem_of_nil in Hx.
      * intros x _. apply not_elem_of_nil.
  - subst ns'. cbn in Hc, Hf. assert (Hs : s ∈ cs) by set_solver. pose proof (Hone s (g, u) Hs) as Hnot.
    pose proof (λ x Hx, Hone x (g, u) Hx) as Hne. unfold pooled, pool_at in Hnot, Hne. cbn [fst snd] in Hnot, Hne.
    split; [cbn; set_solver|]. eapply (conns_owned_swap _ _ _ _ _ _ _ (g, u)); [done|done|apply pool_set_insert|..];
      unfold pool_put_locked; destruct (Nat.ltb_spec (length (pool_of u (nets g))) (sp_cap p)); cbn.
    + unfold pooled, pool_at. cbn. set_solver.
    + unfold pooled, pool_at. cbn. set_solver.
    + intros x Hx. rewrite not_elem_of_cons. split; [set_solver|]. apply Hne. set_solver.
    + intros x Hx. apply Hne. set_solver.
    + constructor; [done|]. apply (co_nodup _ _ _ Hown (g, u)).
    + apply (co_nodup _ _ _ Hown (g, u)).
    + lia.
    + apply (co_bound _ _ _ Hown (g, u)).
  - subst ns'. by apply Hsame.
Qed.
End conns.

(** ** One owner per mark *)

Section marks.
Implicit Types h : Marks.
(** What each task holds: marks of one of the runtimes. *)
Implicit Types hs : list (nat * Marks).
(** The marks that are set, by runtime. *)
Implicit Types marks : nat → Marks.

(** The marks that are set are those the tasks hold, each held by one task. *)
Definition marks_owned hs marks : Prop :=
  (∀ g m, m ∈ marks g ↔ ∃ i h, hs !! i = Some (g, h) ∧ m ∈ h)
  ∧ ∀ i j g h1 h2 m, hs !! i = Some (g, h1) → hs !! j = Some (g, h2) → m ∈ h1 → m ∈ h2 → i = j.

Lemma marks_owned_sub hs marks i g h : marks_owned hs marks → hs !! i = Some (g, h) → h ⊆ marks g.
Proof. intros [Ho _] Hi m Hm. apply Ho. eauto. Qed.

(** Task [i] gives up what it holds for [h'] of runtime [g'], nothing of which
    another task holds. *)
Lemma marks_owned_update hs marks marks' i g h g' h' :
  marks_owned hs marks → hs !! i = Some (g, h) → (∀ m, m ∈ h' → (g' = g ∧ m ∈ h) ∨ m ∉ marks g') →
  (∀ x m, m ∈ marks' x ↔ (m ∈ marks x ∧ ¬ (x = g ∧ m ∈ h)) ∨ (x = g' ∧ m ∈ h')) →
  marks_owned (<[i := (g', h')]> hs) marks'.
Proof.
  intros [Ho Hd] Hi Hh Hm'. assert (i < length hs) as Hlt by (by apply lookup_lt_Some in Hi). split.
  - intros x m. rewrite Hm'. split.
    + intros [[Hm Hn]|[-> Hm]]; [|exists i, h'; by rewrite list_lookup_insert_eq].
      apply Ho in Hm as (j & hj & Hj & Hm). exists j, hj.
      rewrite list_lookup_insert_ne; [done|]. intros ->. rewrite Hj in Hi. injection Hi as -> ->. by apply Hn.
    + intros (j & hj & Hj & Hm). destruct (decide (i = j)) as [<-|Hij].
      * rewrite list_lookup_insert_eq in Hj by done. injection Hj as <- <-. by right.
      * rewrite list_lookup_insert_ne in Hj by done. left. split; [apply Ho; eauto|].
        intros [-> Hmh]. apply Hij. by apply (Hd i j g h hj m).
  - intros j k x h1 h2 m. destruct (decide (i = j)) as [<-|Hij], (decide (i = k)) as [<-|Hik];
      rewrite ?list_lookup_insert_eq, ?list_lookup_insert_ne by done; [done|..].
    + intros [= <- <-] Hk Hm1 Hm2. destruct (Hh m Hm1) as [[-> Hm]|Hm]; [by apply (Hd i k g h h2 m)|].
      exfalso. apply Hm, Ho. eauto.
    + intros Hj [= <- <-] Hm1 Hm2. destruct (Hh m Hm2) as [[-> Hm]|Hm]; [by apply (Hd j i g h1 h m)|].
      exfalso. apply Hm, Ho. eauto.
    + by apply Hd.
Qed.

Lemma marks_owned_ext hs marks marks' :
  marks_owned hs marks → (∀ x m, m ∈ marks' x ↔ m ∈ marks x) → marks_owned hs marks'.
Proof. intros [Ho Hd] E. split; [|done]. intros x m. by rewrite E. Qed.

(** Task [i] holds the same, or goes over to another runtime with nothing. *)
Lemma marks_owned_same hs marks i g h g' :
  marks_owned hs marks → hs !! i = Some (g, h) → (g' = g ∨ h = ∅) → marks_owned (<[i := (g', h)]> hs) marks.
Proof.
  intros Ho Hi Hg. eapply marks_owned_update; [done|done|..].
  - intros m Hm. destruct Hg as [->|]; [by left|set_solver].
  - pose proof (marks_owned_sub _ _ _ _ _ Ho Hi) as Hsub. intros x m.
    destruct Hg as [->|]; [|set_solver]. destruct (decide (x = g ∧ m ∈ h)) as [[-> ?]|]; set_solver.
Qed.

(** A new task. *)
Lemma marks_owned_app hs marks marks' g h :
  marks_owned hs marks → h ## marks g → (∀ x m, m ∈ marks' x ↔ m ∈ marks x ∨ (x = g ∧ m ∈ h)) →
  marks_owned (hs ++ [(g, h)]) marks'.
Proof.
  intros [Ho Hd] Hdis Hm'. split.
  - intros x m. rewrite Hm'. split.
    + intros [Hm|[-> Hm]].
      * apply Ho in Hm as (i & hi & Hi & Hm). exists i, hi. by rewrite (lookup_app_l_Some hs [_] i _ Hi).
      * exists (length hs), h. by rewrite list_lookup_middle.
    + intros (i & hi & Hi & Hm). apply lookup_app_Some in Hi as [Hi|[_ Hi]]; [left; apply Ho; eauto|].
      apply list_lookup_singleton_Some in Hi as [_ [= <- <-]]. by right.
  - intros i j x h1 h2 m Hi Hj Hm1 Hm2.
    apply lookup_app_Some in Hi as [Hi|[Hli Hi]], Hj as [Hj|[Hlj Hj]]; [by apply (Hd i j x h1 h2 m)|..];
      rewrite ?list_lookup_singleton_Some in *.
    + destruct Hj as [_ [= <- <-]]. exfalso. eapply (Hdis m); [done|]. apply Ho. eauto.
    + destruct Hi as [_ [= <- <-]]. exfalso. eapply (Hdis m); [done|]. apply Ho. eauto.
    + lia.
Qed.

Lemma marks_owned_none hs marks g : marks_owned hs marks → marks_owned (hs ++ [(g, ∅)]) marks.
Proof. intros Ho. eapply marks_owned_app; [done|set_solver..]. Qed.
End marks.
