(* ===== verification/Main.v ===== *)
(** * [main.rs]: the command line, and the life of a server

    [check] and [start] up to the point where the listeners run, [Live::serve]
    around them, and the loop that reloads the configuration at each SIGHUP.  The
    files a reload reads are those of that moment, so each signal comes with a
    [ConfigEnv] of its own.  How clap parses the command line, the logger and the
    signals themselves are other crates'. *)
From S2P Require Import Prelude RustStr RustNet Error Hickory HickoryDemo External PublicIp.
From S2P Require Import DnsUtil Context Config DomainSet Matcher Upstream Shard Net Task Actions Ecs.
From S2P Require Import Hosts Cache Forward Fallback Sequence Graph Listener Runtime.

(** [EnvFilter::try_from_default_env], [EnvFilter::try_new], and opening a file to
    append to it. *)
Class LogEnv := {
  filter_from_env : result string unit;
  filter_new : string → result string unit;
  fs_open_append : string → result string unit;
}.

(** [anyhow::Error]: an error under the contexts given to it, the outermost first. *)
Record AnyError : Type := mkAnyError { ae_context : list string; ae_text : string }.
Definition context {A} (c : string) (r : result AnyError A) : result AnyError A :=
  map_err (λ e, mkAnyError (c :: ae_context e) (ae_text e)) r.
Definition anyhow {A} (r : Res A) : result AnyError A := map_err (λ e, mkAnyError [] (error_display e)) r.
Definition any_text {A} (r : result string A) : result AnyError A := map_err (mkAnyError []) r.

Section main.
Context {H : Hickory} {N : IpNetLib} {Rx : RegexLib} {Y : Yaml}.
Context {HT : HttpLib} {LI : ListenerLib} {O : HashOrder} {LL : LogLib} {LE : LogEnv}.

(** Whether the logger can be set up.
    @src src/src/main.rs 74-96 init_log *)
Definition init_log (log : LogConfig) : result AnyError unit :=
  let? _ := context "invalid log filter" (any_text
    (match filter_from_env with
     | Ok x => Ok x
     | Err _ => filter_new ("ferrumdns=" +:+ lc_level log +:+ ",info")
     end)) in
  match lc_file log with
  | Some path => context ("open log file " +:+ path) (any_text (fs_open_append path))
  | None => Ok tt
  end.

(** Loading and building, as both commands do it.  [None] is what
    [config_load_file_exact] and [runtime_build_ok] exclude.
    @src src/src/main.rs 44-46 main *)
Definition load_for {E : ConfigEnv} (path : string) : option (result AnyError Config) :=
  r ← config_load_file path; Some (context ("load " +:+ path) (anyhow r)).
Definition build_for {E : ConfigEnv} (cfg : Config) : option (result AnyError Runtime) :=
  r ← runtime_build cfg; Some (context "build runtime" (anyhow r)).

(** [?] on a computation that may not end. *)
Definition obind {A B} (m : option (result AnyError A)) (f : A → option (result AnyError B)) : option (result AnyError B) :=
  r ← m; match r with Ok a => f a | Err e => Some (Err e) end.

(** The line [check] prints.
    @src src/src/main.rs 42-50 main *)
Definition check_command {E : ConfigEnv} (path : string) : option (result AnyError string) :=
  match init_log default_log with
  | Err e => Some (Err e)
  | Ok _ =>
      obind (load_for path) (λ cfg,
      obind (build_for cfg) (λ rt,
      Some (let? _ := context "validate service" (anyhow (validate_service rt)) in
            Ok ("config ok (" +:+ path +:+ ")"))))
  end.

(** The listeners [serve] spawns with their entry and time limit, and the address of
    the API.
    @src src/src/runtime.rs 52-73 Live::serve *)
Definition serve_plan (rt : Runtime) : Res (list (string * Z * ListenerConfig) * option string) :=
  let? _ := validate_service rt in
  Ok ((srv ← cf_servers (rt_config rt); (λ l, (sc_exec srv, secs (Z.max (sc_timeout srv) 1), l)) <$> sc_listeners srv),
      cf_api_http (rt_config rt)).

(** The error of [serve] when the first of its tasks ended with [ended].
    @src src/src/runtime.rs 75-83 Live::serve *)
Definition serve_error (ended : option (result string (Res unit))) : Error :=
  match ended with
  | Some (Ok (Err error)) => error
  | Some (Err error) => ErrConfig ("listener task failed: " +:+ error)
  | _ => ErrConfig "listener exited unexpectedly"
  end.

(** [start] until its listeners run.
    @src src/src/main.rs 51-66 main *)
Definition start_command {E : ConfigEnv} (path : string)
    : option (result AnyError (Runtime * (list (string * Z * ListenerConfig) * option string))) :=
  obind (load_for path) (λ cfg,
  obind (Some (init_log (cf_log cfg))) (λ _,
  obind (build_for cfg) (λ rt,
  Some (let? plan := context "serve" (anyhow (serve_plan rt)) in Ok (rt, plan))))).

(** @src src/src/main.rs 17-32 Command *)
Inductive Command : Type :=
| Start (config : string)
| Check (config : string)
| Version.

(** How the listeners of [start] end: one of their tasks did, or a signal to stop came
    first ([tokio::select!]). *)
Inductive Stop : Type :=
| Served (ended : option (result string (Res unit)))
| Shutdown.

(** What the program prints, or the error it exits with; [stop] is how its listeners
    end, if it gets to them.
    @src src/src/main.rs 35-72 main *)
Definition main {E : ConfigEnv} (version : string) (cmd : Command) (stop : Stop) : option (result AnyError (list string)) :=
  match cmd with
  | Version => Some (Ok ["ferrumdns " +:+ version])
  | Check config => obind (check_command config) (λ line, Some (Ok [line]))
  | Start config =>
      obind (start_command config) (λ _,
      Some (match stop with
            | Served ended => let? _ := context "serve" (anyhow (Err (serve_error ended) : Res unit)) in Ok []
            | Shutdown => Ok []
            end))
  end.

(** The live runtime after the signals whose files are [signals].
    @src src/src/main.rs 101-116 reload_loop *)
Fixpoint reload_loop (live : Runtime) (path : string) (signals : list ConfigEnv) : option Runtime :=
  match signals with
  | [] => Some live
  | files :: signals =>
      match reload_file (E := files) live path with
      | None => None
      | Some (live, _) => reload_loop live path signals
      end
  end.

(** What a reload cannot change: what the running listeners and the logger were
    set up with. *)
Record same_service (a b : Runtime) : Prop := mkSameService {
  ss_servers : cf_servers (rt_config a) = cf_servers (rt_config b);
  ss_api : cf_api_http (rt_config a) = cf_api_http (rt_config b);
  ss_log : cf_log (rt_config a) = cf_log (rt_config b);
}.
#[export] Instance same_service_equiv : Equivalence same_service.
Proof. split; [by intros a|by intros a b []|]. intros a b c [] []. split; etrans; done. Qed.

Definition complete (rt : Runtime) : Prop := ∃ rank, runtime_ok rt rank.

Context {OL : HashOrderLaws O}.

(** One reload keeps the service, and leaves a complete runtime. *)
Lemma reload_file_keeps (files : ConfigEnv) live path :
  complete live →
  ∃ live' r, reload_file live path = Some (live', r) ∧ complete live' ∧ same_service live' live
    ∧ (live' = live ∨ ∃ cfg, config_load_file path = Some (Ok cfg) ∧ runtime_build cfg = Some (Ok live')).
Proof.
  intros Hl. unfold reload_file.
  destruct (config_load_returns path) as (r & -> & _).
  destruct r as [cfg|e]; [|eexists _, _; split; [done|]; split; [done|]; split; [reflexivity|by left]].
  destruct (runtime_build_spec cfg) as (r & Hb & Hok). rewrite Hb.
  destruct r as [rt|e]; [|eexists _, _; split; [done|]; split; [done|]; split; [reflexivity|by left]].
  repeat case_bool_decide; eexists _, _; (split; [reflexivity|]);
    try (split; [done|]; split; [reflexivity|by left]).
  split; [by apply Hok|]. split; [by split|]. right. eauto.
Qed.
End main.

(** C25: however often the configuration is reloaded, and whatever its files say each
    time, reloading ends and the live runtime stays a complete one with the
    listeners, API address and logging the server was started with; the entry
    of every running listener is still an executable; and it is the old runtime
    unless it is what the files of one of the signals describe. *)
Theorem reload_loop_invariant {H : Hickory} {N : IpNetLib} {Rx : RegexLib} {Y : Yaml} {HT : HttpLib}
    {LI : ListenerLib} {O : HashOrder} {OL : HashOrderLaws O} {LL : LogLib}
    (live : Runtime) (path : string) (signals : list ConfigEnv) :
  complete live →
  ∃ live', reload_loop live path signals = Some live' ∧ complete live' ∧ same_service live' live
    ∧ Forall (λ s, is_Some (rg_execs (rt_registry live') !! sc_exec s)) (cf_servers (rt_config live))
    ∧ (live' = live ∨ ∃ (files : ConfigEnv) cfg, files ∈ signals
         ∧ config_load_file path = Some (Ok cfg) ∧ runtime_build cfg = Some (Ok live')).
Proof.
  intros Hl. assert (Hloop : ∃ live', reload_loop live path signals = Some live' ∧ complete live' ∧ same_service live' live
    ∧ (live' = live ∨ ∃ (files : ConfigEnv) cfg, files ∈ signals
         ∧ config_load_file path = Some (Ok cfg) ∧ runtime_build cfg = Some (Ok live'))).
  { revert live Hl. induction signals as [|files signals IH]; intros live Hl; cbn [reload_loop].
    { exists live. split; [done|]. split; [done|]. split; [reflexivity|by left]. }
    destruct (reload_file_keeps files live path Hl) as (live1 & r & -> & Hc1 & Hs1 & Hfrom1).
    destruct (IH live1 Hc1) as (live2 & -> & Hc2 & Hs2 & Hfrom2). exists live2. split; [done|]. split; [done|].
    split; [by etrans|]. destruct Hfrom2 as [->|(files' & cfg & Hin & ? & ?)].
    - destruct Hfrom1 as [->|(cfg & ? & ?)]; [by left|]. right. exists files, cfg. split; [by left|done].
    - right. exists files', cfg. split; [by right|done]. }
  destruct Hloop as (live' & Hr & Hc & Hs & Hfrom). exists live'. split; [done|]. split; [done|]. split; [done|].
  split; [|done]. destruct Hc as [rank Hok]. rewrite <- (ss_servers _ _ Hs). exact (rto_entries _ _ Hok).
Qed.

Section commands.
Context {H : Hickory} {N : IpNetLib} {Rx : RegexLib} {Y : Yaml} {E : ConfigEnv}.
Context {HT : HttpLib} {LI : ListenerLib} {O : HashOrder} {OL : HashOrderLaws O} {LL : LogLib} {LE : LogEnv}.

Lemma validate_service_plan (rt : Runtime) :
  validate_service rt = Ok tt →
  ∃ plan, serve_plan rt = Ok plan ∧ (plan.1 ≠ [] ∨ plan.2 ≠ None).
Proof.
  unfold serve_plan. intros Hv. rewrite Hv. cbn [result_bind]. eexists. split; [done|]. cbn [fst snd].
  unfold validate_service in Hv. destruct (cf_api_http (rt_config rt)) as [api|]; [by right|]. left. intros Hnil.
  rewrite bool_decide_true in Hv by done. cbn [andb] in Hv.
  destruct (forallb _ _) eqn:Ef; [done|]. apply not_true_iff_false in Ef. destruct Ef. apply forallb_elem. intros s Hs.
  apply bool_decide_eq_true. destruct (sc_listeners s) as [|l ls] eqn:El; [done|]. exfalso.
  eapply (not_elem_of_nil (sc_exec s, secs (Z.max (sc_timeout s) 1), l)). rewrite <- Hnil.
  apply list_elem_of_bind. exists s. rewrite El. split; [left|done].
Qed.

(** How both commands begin. *)
Lemma load_for_spec path :
  ∃ r, config_load_file path = Some r ∧ load_for path = Some (context ("load " +:+ path) (anyhow r)).
Proof.
  unfold load_for.
  destruct (config_load_returns path) as (r & -> & _).
  by exists r.
Qed.

(** [start] exits without an error only when it is told to. *)
Lemma start_exits path started version stop out :
  start_command path = Some started → main version (Start path) stop = Some (Ok out) → stop = Shutdown ∧ is_ok started = true.
Proof.
  unfold main. intros ->. destruct started as [[rt plan]|e]; cbn; [|done].
  destruct stop as [ended|]; cbn; [done|]. by intros _.
Qed.

Lemma build_for_spec cfg :
  ∃ r, build_for cfg = Some (context "build runtime" (anyhow r)) ∧ ∀ rt, r = Ok rt → complete rt.
Proof. unfold build_for. destruct (runtime_build_spec cfg) as (r & -> & Hok). by exists r. Qed.
End commands.

(** C29: [check] tells whether [start] would serve.  Both always end; with a logger
    that can be set up, [check] accepts a file exactly when [start] gets to
    its listeners with it; and then there is something to listen on, the runtime is
    complete, and every listener is started with an entry that exists.  [start] exits
    without an error only when it got that far and was told to stop. *)
Theorem check_agrees_with_start {H : Hickory} {N : IpNetLib} {Rx : RegexLib} {Y : Yaml} {E : ConfigEnv}
    {HT : HttpLib} {LI : ListenerLib} {O : HashOrder} {OL : HashOrderLaws O} {LL : LogLib} {LE : LogEnv} (path : string) :
  init_log default_log = Ok tt → (∀ cfg, config_load_file path = Some (Ok cfg) → init_log (cf_log cfg) = Ok tt) →
  ∃ checked started, check_command path = Some checked ∧ start_command path = Some started
    ∧ is_ok checked = is_ok started
    ∧ (∀ version stop out, main version (Start path) stop = Some (Ok out) → stop = Shutdown ∧ is_ok started = true)
    ∧ ∀ rt plan, started = Ok (rt, plan) → complete rt ∧ (plan.1 ≠ [] ∨ plan.2 ≠ None)
        ∧ Forall (λ x, is_Some (rg_execs (rt_registry rt) !! x.1.1)) plan.1.
Proof.
  intros Hdef Hlog. assert (∃ checked started, check_command path = Some checked ∧ start_command path = Some started
    ∧ is_ok checked = is_ok started
    ∧ ∀ rt plan, started = Ok (rt, plan) → complete rt ∧ (plan.1 ≠ [] ∨ plan.2 ≠ None)
        ∧ Forall (λ x, is_Some (rg_execs (rt_registry rt) !! x.1.1)) plan.1) as (checked & started & Hc & Hs & Heq & Hplan).
  2: { exists checked, started. split; [done|]. split; [done|]. split; [done|]. split; [|done].
       intros version stop out. by apply start_exits. }
  unfold check_command, start_command. rewrite Hdef.
  destruct (load_for_spec path) as (r & Hload & ->). destruct r as [cfg|e]; cbn; [|by eexists _, _].
  rewrite (Hlog cfg Hload). cbn. destruct (build_for_spec cfg) as (r & -> & Hok). destruct r as [rt|e]; cbn; [|by eexists _, _].
  destruct (validate_service rt) as [[]|e] eqn:Ev; cbn.
  2: { unfold serve_plan. rewrite Ev. cbn. by eexists _, _. }
  destruct (validate_service_plan rt Ev) as (plan & Hp & Hne). rewrite Hp. cbn. eexists _, _. split; [done|]. split; [done|].
  split; [done|]. intros rt' plan' [= <- <-]. destruct (Hok rt eq_refl) as [rank Hr]. split; [by exists rank|]. split; [done|].
  unfold serve_plan in Hp. rewrite Ev in Hp. injection Hp as <-. cbn [fst].
  apply Forall_forall. intros x (s & Hx & Hs)%list_elem_of_bind. apply list_elem_of_fmap in Hx as (l & -> & _). cbn.
  pose proof (rto_entries _ _ Hr) as He. rewrite Forall_forall in He. by apply He.
Qed.

(** ** A server and its files *)
#[export] Instance DemoLogEnv : LogEnv := {|
  filter_from_env := Err "environment variable not found";
  filter_new s := Ok tt;
  fs_open_append p := if starts_with "/" p then Ok tt else Err "Permission denied";
|}.

(** The configuration file, whatever its path. *)
Definition d_files : ConfigEnv := {|
  yaml_config text := if decide (text = "demo") then Ok d_config else Err "not a mapping";
  fs_read_to_string _ := Ok "demo";
  fs_canonicalize p := Ok p;
|}.

Lemma d_runtime_complete : complete d_runtime.
Proof. destruct (runtime_build_spec d_config) as (r & Hr & Hok). rewrite d_runtime_built in Hr. injection Hr as <-. by apply Hok. Qed.

(** The first reload fails (the file is gone), the second reads the file again. *)
Lemma reload_loop_invariant_witness :
  complete d_runtime
  ∧ match reload_file (E := DemoEnv) d_runtime "c.yaml" with Some (_, Err _) => true | _ => false end = true
  ∧ match reload_file (E := d_files) d_runtime "c.yaml" with Some (_, Ok _) => true | _ => false end = true
  ∧ ∃ live', reload_loop d_runtime "c.yaml" [DemoEnv; d_files] = Some live' ∧ complete live' ∧ same_service live' d_runtime.
Proof.
  split; [exact d_runtime_complete|]. split; [by vm_compute|]. split; [by vm_compute|].
  destruct (reload_loop_invariant d_runtime "c.yaml" [DemoEnv; d_files] d_runtime_complete) as (live' & Hr & Hc & Hs & _).
  exists live'. split; [exact Hr|]. split; [exact Hc|exact Hs].
Defined.

Lemma check_agrees_with_start_witness :
  match check_command (E := d_files) "c.yaml" with Some (Ok _) => true | _ => false end = true
  ∧ ∃ checked started, check_command (E := d_files) "c.yaml" = Some checked
      ∧ start_command (E := d_files) "c.yaml" = Some started ∧ is_ok checked = is_ok started.
Proof.
  split; [by vm_compute|].
  destruct (check_agrees_with_start (E := d_files) "c.yaml") as (checked & started & Hc & Hs & Heq & _).
  - by vm_compute.
  - intros cfg Hcfg. assert (Hf : match config_load_file (E := d_files) "c.yaml" with
                             | Some (Ok cfg) => bool_decide (lc_file (cf_log cfg) = None) | _ => false end = true) by by vm_compute.
    rewrite Hcfg in Hf. apply bool_decide_eq_true in Hf. unfold init_log. by rewrite Hf.
  - exists checked, started. split; [exact Hc|]. split; [exact Hs|exact Heq].
Defined.
