(* ===== verification/Safe.v ===== *)
(** * What every task of a server promises

    A task of a server works with one runtime at a time, that of the moment its
    request began, and asks [Live] for the runtime of the moment when a new request
    begins.  [live_wp o g heard t Q] is [wp] for such a task, which comes from the
    source [o] and has read [heard] from its client: with the [g]-th runtime it keeps
    to the protocol of that runtime's caches ([shared_protocol]), after asking, to that
    of the runtime it was given; and all it says to its client is an answer to what
    it read, and all it waits for, but for the sending of a datagram, it waits for under
    a timer ([speaks]).  A refresh spawns no refresh ([may_spawn]).  Every task of the
    program, the transports, the refreshes and the admin API, is [safe]: it never panics, never exhausts the depth of calls, and
    keeps to all this. *)
From S2P Require Import Prelude RustStr RustNet Error Hickory HickoryDemo External PublicIp.
From S2P Require Import DnsUtil Context Config DomainSet Matcher Upstream Shard Net Task Metrics.
From S2P Require Import Actions Ecs Hosts Cache CacheKey CacheHits Exchange Forward Fallback Sequence Graph.
From S2P Require Import Listener Runtime Server Api Ownership Main.

(** A spawned task: nobody waits for its result. *)
Definition Thread `{Hickory} : Type := task unit unit.
Definition thread_of `{Hickory} {L A} (t : task L A) : Thread := task_bind t (λ _ _, Ret tt tt) (λ _, tt).

(** The caches of a runtime, under their tags. *)
Definition runtime_caches {H : Hickory} {N : IpNetLib} {Rx : RegexLib} {Y : Yaml} (rt : Runtime) : gmap string Cache :=
  omap (λ o, match o with XCache c => Some c | _ => None end) (rg_execs (rt_registry rt)).

Lemma runtime_cache_tag {H : Hickory} {N : IpNetLib} {Rx : RegexLib} {Y : Yaml} rt tag c :
  runtime_caches rt !! tag = Some c ↔ rg_execs (rt_registry rt) !! tag = Some (XCache c).
Proof.
  unfold runtime_caches. rewrite lookup_omap_Some. split.
  - intros (o & Ho & Hx). by destruct o; simplify_eq.
  - intros Hc. by exists (XCache c).
Qed.

(** ** With one runtime *)
Section one_runtime.
Context {H : Hickory} {HL : HickoryLaws H} {HS : HickoryShow H} {N : IpNetLib} {Rx : RegexLib} {T : TlsLib} {Y : Yaml}.
Context {O : HashOrder} {W : WebLib}.
Context (rt : Runtime) (horizon : Z) (spawns : bool).
Notation P := (shared_protocol (runtime_caches rt) horizon spawns).

(** Programs on no state of their own. *)
Definition fine {A} (m : M unit A) : Prop := ∀ l, wp P (λ _, True) (m l) (λ _ _, True).

Lemma fine_bind {A C} (m : M unit A) (f : A → M unit C) : fine m → (∀ a, fine (f a)) → fine (bind m f).
Proof. intros Hm Hf l. apply wp_bind. eapply wp_mono; [apply Hm|done|]. intros l' a _. apply Hf. Qed.
Lemma fine_bind_res {A C} (m : M unit (Res A)) (f : A → M unit (Res C)) :
  fine m → (∀ a, fine (f a)) → fine (bind_res m f).
Proof. intros Hm Hf. apply fine_bind; [done|]. intros [a|e]; [apply Hf|done]. Qed.
Lemma fine_timeout {A} d (m : M unit A) : fine m → fine (timeout d m).
Proof. intros Hm l. by eapply wp_timeout; [|apply wp_timed; [apply shared_ambient|apply Hm]|..]. Qed.
Lemma fine_new_ctx q addr proto : fine (new_ctx q addr proto).
Proof. intros l. apply wp_new_ctx; [apply shared_ambient|done]. Qed.
Lemma fine_ret {A} (a : A) : fine (ret a).
Proof. done. Qed.
Lemma fine_now : fine (sync ENow).
Proof. by intros l. Qed.
Lemma fine_random : fine (sync (ENet NRandomId)).
Proof. by intros l. Qed.
End one_runtime.
#[export] Hint Resolve fine_new_ctx fine_ret fine_now fine_random : ferrum.

Ltac fine_auto :=
  repeat first
    [ progress intros | done | solve [auto with ferrum nocore] | apply fine_bind | apply fine_bind_res
    | apply fine_timeout | case_match ].

Section complete_runtime.
Context {H : Hickory} {HL : HickoryLaws H} {HS : HickoryShow H} {N : IpNetLib} {Rx : RegexLib} {T : TlsLib} {Y : Yaml}.
Context {O : HashOrder} {W : WebLib}.
Context (rt : Runtime) (horizon : Z) (spawns : bool).
Context (Hrt : complete rt) (Hcaches : caches_wf (runtime_caches rt) horizon).
Notation P := (shared_protocol (runtime_caches rt) horizon spawns).
Notation fine := (fine rt horizon spawns).

Lemma runtime_caches_allowed : caches_allowed P (rt_registry rt).
Proof. intros tag c Hc%runtime_cache_tag. by eapply shared_cache_allowed. Qed.

Lemma fine_handle entry limit c : spawns = true ∨ skip_cache c = true → fine (within (handle rt entry limit) c).
Proof.
  intros Hc l. destruct Hrt as [rank Hrank]. eapply (wp_enclose P _ (λ _, True) l _ (λ _ _, True)); [|done|done].
  eapply wp_mono; [apply (wp_handle P (shared_ambient _ _ _) rt rank Hrank runtime_caches_allowed)|done..].
  cbn. by rewrite skip_begin_pipeline.
Qed.
#[local] Hint Resolve fine_handle : ferrum.

Lemma fine_refresh_task r : skip_cache (rf_ctx r) = true → fine (refresh_task rt r).
Proof.
  intros Hr. assert (∀ entry limit, fine (within (handle rt entry limit) (rf_ctx r))) by (intros; apply fine_handle; by right). unfold refresh_task, refresh_body, handle_query. apply fine_bind; [|intros _; by intros l].
  apply fine_bind; [by intros l|]. intros [|]; fine_auto.
Qed.

Lemma runtime_cache_of t c : rg_caches (rt_registry rt) !! t = Some c → ∃ tag, runtime_caches rt !! tag = Some c.
Proof. intros Hc. destruct Hrt as [rank Hrank]. exists t. apply runtime_cache_tag. by eapply rto_caches. Qed.

Lemma fine_flush hm body : fine (flush rt hm body).
Proof.
  assert (Hflush : ∀ t c, rg_caches (rt_registry rt) !! t = Some c → fine (cache_flush c)).
  { intros t c (tag & Hc)%runtime_cache_of l. by eapply wp_shared_flush. }
  assert (Hall : ∀ tags, fine (flush_all (rg_caches (rt_registry rt)) tags)).
  { induction tags as [|t tags IH]; cbn [flush_all]; [fine_auto|].
    destruct (rg_caches (rt_registry rt) !! t) as [c|] eqn:E; [|done]. apply fine_bind; [by eapply Hflush|]. fine_auto. }
  unfold flush. destruct (flush_req hm body) as [req|]; [|fine_auto]. destruct (fr_tag req) as [t|]; [|fine_auto].
  destruct (rg_caches (rt_registry rt) !! t) as [c|] eqn:E; [|fine_auto]. apply fine_bind; [by eapply Hflush|fine_auto].
Qed.

Lemma fine_plugins st : st_live st = rt → fine (plugins st).
Proof.
  intros Hst. unfold plugins. rewrite Hst. apply fine_bind; [|fine_auto]. generalize (hash_keys (rg_caches (rt_registry rt))).
  intros tags. induction tags as [|t tags IH]; cbn [cache_sizes]; [fine_auto|].
  destruct (rg_caches (rt_registry rt) !! t) as [c|] eqn:E; [|done].
  apply fine_bind; [|fine_auto]. intros l. apply runtime_cache_of in E as [tag Hc]. by eapply wp_shared_len.
Qed.
#[local] Hint Resolve fine_flush fine_plugins : ferrum.

Lemma fine_query req : spawns = true → fine (query rt req).
Proof. intros Hsp. assert (∀ entry limit c, fine (within (handle rt entry limit) c)) by (intros; apply fine_handle; by left). unfold query, query_run, handle_query. fine_auto. Qed.
#[local] Hint Resolve fine_query : ferrum.

Lemma fine_on_get req (m : M unit Response) : fine m → fine (on_get req m).
Proof. intros Hh. unfold on_get. fine_auto. Qed.
Lemma fine_on_post req (m : M unit Response) : fine m → fine (on_post req m).
Proof. intros Hh. unfold on_post. fine_auto. Qed.

Lemma fine_api_handle version asset st req : st_live st = rt → spawns = true → fine (api_handle version asset st req).
Proof.
  intros Hst Hsp. unfold api_handle, response_headers. apply fine_bind; [|fine_auto]. case_match; [fine_auto|].
  unfold api_routes, metrics_prom, stats. rewrite Hst.
  repeat (case_decide; [first [apply fine_on_get|apply fine_on_post]; fine_auto|]). fine_auto.
Qed.
End complete_runtime.

(** ** What a task says to its client *)
Section speaks.
Context {H : Hickory}.

(** Where a task comes from: the datagram it answers, a stream, a request of the HTTPS
    listener or of the admin API (whose responses are the server's to send), or a
    lazy hit. *)
Inductive Source : Type :=
| FromDatagram (buf : list Z)
| FromStream
| FromHttp
| FromApi
| FromRefresh (r : Refresh).

(** [m] answers the client's message [q], as [handle_replies] and [udp_packet_reply]
    say. *)
Definition replies_to (q m : Message) : Prop :=
  match classify_incoming q with
  | IncomingOk => bound_to q m
  | IncomingNotImp => addressed_to q m
  | IncomingDrop => False
  end.

(** What a task waits for, when [heard] are the bytes it read last from its client:
    the network of the upstreams; the sending of a reply to the datagram it is for;
    on a stream, reading, and the writing of a part of a frame that holds a reply to the
    message it read last.  All but the sending of a datagram is under a timer. *)
Definition speaks_leaf (o : Source) (heard : list Z) (timed : bool) (a : await) : Prop :=
  match a, o with
  | ANet _, _ => timed = true
  | ASendTo bytes, FromDatagram buf => ∃ q m, decode_msg buf = Ok q ∧ replies_to q m ∧ udp_bytes m bytes
  | AReadExact _, FromStream => timed = true
  | AWriteAll bytes, FromStream => timed = true ∧ ∃ q m wire, decode_msg heard = Ok q ∧ replies_to q m ∧ encode_msg m = Ok wire
      ∧ (Z.of_nat (length wire) ≤ u16_max)%Z
      ∧ (bytes = to_be_bytes (Z.of_nat (length wire)) ∨ bytes = wire ∨ bytes = [])
  | _, _ => False
  end.
Definition speaks (o : Source) (heard : list Z) : await → Prop := awaits_all (speaks_leaf o heard) false.

(** The bytes read last from the client, after a reply. *)
Fixpoint heard_after (a : await) : areply a → list Z → list Z :=
  match a return areply a → list Z → list Z with
  | AReadExact _ => λ r heard, match r with Ok bytes => bytes | Err _ => heard end
  | ATimer _ a => λ r heard, match r with Some r => heard_after a r heard | None => heard end
  | APar a b => λ r heard, match r with inl r => heard_after a r heard | inr r => heard_after b r heard end
  | _ => λ _ heard, heard
  end.

Definition net_leaf (timed : bool) (a : await) : Prop := match a with ANet _ => timed = true | _ => False end.
Lemma net_speaks o heard a : awaits_all net_leaf false a → speaks o heard a.
Proof. apply awaits_all_mono; by intros []. Qed.
Lemma net_heard b a (r : areply a) heard : awaits_all net_leaf b a → heard_after a r heard = heard.
Proof.
  revert b. induction a as [n|bytes|bytes|op|d a IH|a IHa c IHc]; intros b; cbn; [done..| |].
  - intros Ha. destruct r; eauto.
  - intros [Ha Hb]. destruct r; eauto.
Qed.
End speaks.

(** ** With the live runtime *)

(** What [handle] leaves answers the client. *)
Lemma handled_bound {H : Hickory} {HL : HickoryLaws H} {N : IpNetLib} {Rx : RegexLib} {T : TlsLib} {Y : Yaml} rt entry id now q addr proto c r :
  handled rt entry (ctx_new id now q addr proto) c r → r = Ok tt → ∀ m, c_response c = Some m → bound_to q m.
Proof.
  intros Hh Hr m Hm. eapply rp_bound. change q with (c_original (ctx_new id now q addr proto)).
  eapply handled_reply; [by apply connected_fresh|done|exact Hh|done|done].
Qed.

Section live.
Context {H : Hickory} {HL : HickoryLaws H} {HS : HickoryShow H} {N : IpNetLib} {Rx : RegexLib} {T : TlsLib} {Y : Yaml}.
Context {O : HashOrder} {W : WebLib}.
Context (live : nat → Runtime) (horizon : Z).
(** A refresh starts no other. *)
Definition may_spawn (o : Source) : bool := match o with FromRefresh _ => false | _ => true end.
Notation P o g := (shared_protocol (runtime_caches (live g)) horizon (may_spawn o)).

(** What a task with runtime [g] may access, what it is promised, and the runtime it
    has then. *)
Definition allowed (o : Source) (g : nat) (e : event) : Prop := match e with ELive => True | _ => p_event (P o g) e end.
Definition promised (g : nat) (e : event) : reply e → Prop :=
  match e return reply e → Prop with ELive => λ g', complete (live g') | e => p_reply (P FromStream g) e end.
Definition gen_after (g : nat) (e : event) : reply e → nat :=
  match e return reply e → nat with ELive => λ g', g' | _ => λ _, g end.

Fixpoint live_wp {L A} (o : Source) (g : nat) (heard : list Z) (t : task L A) (Q : nat → list Z → A → Prop) : Prop :=
  match t with
  | Ret _ a => Q g heard a
  | Sync _ e k => allowed o g e ∧ ∀ r, promised g e r → live_wp o (gen_after g e r) heard (k r) Q
  | Await _ a k => speaks o heard a ∧ ∀ r, areply_ok a r → live_wp o g (heard_after a r heard) (k r) Q
  | Panic _ | OutOfFuel => False
  end.

Lemma live_wp_mono {L A} o g h (t : task L A) (Q Q' : nat → list Z → A → Prop) :
  live_wp o g h t Q → (∀ g h a, Q g h a → Q' g h a) → live_wp o g h t Q'.
Proof. intros Ht HQ. revert g h Ht. induction t; intros g h; simpl; naive_solver. Qed.

Lemma live_wp_task_bind {L L' A B} o g h (t : task L A) (f : L → A → task L' B) (up : L → L') Q :
  live_wp o g h t (λ g h a, ∀ l, live_wp o g h (f l a) Q) → live_wp o g h (task_bind t f up) Q.
Proof. intros Ht. revert g h Ht. induction t; intros g h; simpl; naive_solver. Qed.

Lemma live_wp_bind {L A B} o g h (m : M L A) (f : A → M L B) l Q :
  live_wp o g h (m l) (λ g h a, ∀ l, live_wp o g h (f a l) Q) → live_wp o g h (bind m f l) Q.
Proof. apply live_wp_task_bind. Qed.

Lemma live_wp_bind_res {L A B} o g h (m : M L (Res A)) (f : A → M L (Res B)) l (Q : nat → list Z → Res B → Prop) :
  live_wp o g h (m l) (λ g h r, match r with Ok a => ∀ l, live_wp o g h (f a l) Q | Err e => Q g h (Err e) end) →
  live_wp o g h (bind_res m f l) Q.
Proof. intros Hm. apply live_wp_bind. eapply live_wp_mono; [exact Hm|]. intros g' h' [a|e] HQ l'; [apply HQ|exact HQ]. Qed.

(** A task that stays with its runtime and does not talk to its client. *)
Lemma live_wp_stays {L A} (I : L → Prop) o g h (t : task L A) (Q : L → A → Prop) (Q' : nat → list Z → A → Prop) :
  wp (P o g) I t Q → (∀ l a, Q l a → Q' g h a) → live_wp o g h t Q'.
Proof.
  intros Ht HQ. induction t as [l a|l e k IH|l a k IH| |]; simpl in *; [by eapply HQ| | |done|done].
  - destruct Ht as [He Ht]. destruct e; try done; (split; [done|]; intros x Hx; apply IH, Ht, Hx).
  - destruct Ht as (_ & Ha & Ht). split; [by apply net_speaks|]. intros r Hr. erewrite net_heard by done. by apply IH, Ht.
Qed.

(** A task that begins with runtime [g] never panics, keeps to the protocols, and
    says to its client what it should. *)
Definition safe (o : Source) (g : nat) (heard : list Z) (t : Thread) : Prop := live_wp o g heard t (λ _ _ _, True).

Context (Hcaches : ∀ g, caches_wf (runtime_caches (live g)) horizon).

Lemma live_wp_new_ctx o g h q addr proto (l : unit) Q :
  (∀ id now, Q g h (ctx_new id now q addr proto)) → live_wp o g h (new_ctx q addr proto l) Q.
Proof. intros HQ. split; [done|]. intros id _. split; [done|]. intros now _. apply HQ. Qed.

(** The runtime of the moment handles a client's message. *)
Lemma live_wp_handle o g h entry limit id now q addr proto (l : unit) (Q : nat → list Z → QueryContext * Res unit → Prop) :
  may_spawn o = true →
  (∀ g' c r, (r = Ok tt → ∀ m, c_response c = Some m → bound_to q m) → Q g' h (c, r)) →
  live_wp o g h (live_handle live entry limit (ctx_new id now q addr proto) l) Q.
Proof.
  intros Ho HQ. split; [done|]. intros g' [rank Hrank]. eapply live_wp_stays.
  - eapply (wp_enclose (P o g') (λ _, True) _ l _ _ (λ _ x, x.2 = Ok tt → ∀ m, c_response x.1 = Some m → bound_to q m)).
    + apply (wp_handle (P o g') (shared_ambient _ _ _) (live g') rank Hrank); [by apply runtime_caches_allowed|by left].
    + done.
    + intros c r Hc. by eapply handled_bound.
  - intros _ [c r] Hc. apply HQ, Hc.
Qed.

(** The sending of a reply. *)
Lemma live_wp_udp_send buf g h q c l :
  decode_msg buf = Ok q → (∀ m, c_response c = Some m → replies_to q m) →
  live_wp (FromDatagram buf) g h (udp_send c l) (λ _ _ _, True).
Proof.
  intros Hq Hm. unfold udp_send. destruct (c_response c) as [m|] eqn:Em; [|done].
  destruct (encode_udp m (udp_payload_max (c_query c))) as [bytes|e] eqn:Ee; [|done].
  split; [|done]. exists q, m. split; [done|]. split; [by apply Hm|]. by eapply encode_udp_bytes.
Qed.

Lemma safe_udp_packet entry limit peer buf g h : safe (FromDatagram buf) g h (udp_packet live entry limit peer buf tt).
Proof.
  unfold safe, udp_packet. destruct (decode_msg buf) as [q|e] eqn:Eq; [|done].
  destruct (classify_incoming q) eqn:Ek; [done|..]; apply live_wp_bind, live_wp_new_ctx; intros id now l1.
  - apply (live_wp_udp_send _ _ _ q); [done|]. intros m [= <-]. unfold replies_to. rewrite Ek. apply rejected_addressed.
  - apply live_wp_bind, live_wp_handle; [done|]. intros g' c r Hc l2. destruct r as [[]|e]; [|done].
    apply (live_wp_udp_send _ _ _ q); [done|]. intros m Hm. unfold replies_to. rewrite Ek. by apply Hc.
Qed.

Lemma live_wp_write idle g h q c l :
  decode_msg h = Ok q → (∀ m, c_response c = Some m → replies_to q m) →
  live_wp FromStream g h (write_tcp_response idle c l) (λ _ _ _, True).
Proof.
  intros Hq Hm. unfold write_tcp_response. destruct (c_response c) as [m|] eqn:Em; [|done].
  destruct (encode_msg m) as [wire|e] eqn:Ee; [|done]. destruct (Z.ltb_spec u16_max (Z.of_nat (length wire))); [done|].
  assert (Hs : ∀ bytes, bytes = to_be_bytes (Z.of_nat (length wire)) ∨ bytes = wire ∨ bytes = [] →
            ∀ d, speaks FromStream h (ATimer d (AWriteAll bytes))).
  { intros bytes Hb d. split; [done|]. exists q, m, wire. eauto 8. }
  split; [done|]. intros now _. split; [apply Hs; auto|]. intros [[[]|e]|] _; [|done..].
  split; [apply Hs; auto|]. intros [[[]|e]|] _; [|done..].
  split; [apply Hs; auto|]. by intros [[[]|e]|] _.
Qed.

Lemma live_wp_frame entry limit idle proto peer g h l :
  live_wp FromStream g h (serve_frame live entry limit idle proto peer l) (λ _ _ _, True).
Proof.
  unfold serve_frame. split; [done|]. intros n1 _. split; [done|]. intros [[hdr|[]]|] Hhdr; [|done..].
  cbn [heard_after until task_bind suspend]. destruct (from_be_bytes hdr =? 0)%Z; [done|].
  split; [done|]. intros n2 _. split; [done|]. intros [[buf|e]|] Hbuf; [|done..]. cbn [heard_after until task_bind suspend].
  destruct (decode_msg buf) as [q|e] eqn:Eq; [|done].
  assert (Hwrite : ∀ g' c l', (∀ m, c_response c = Some m → replies_to q m) →
            live_wp FromStream g' buf ((let!? _ := write_tcp_response idle c in ret (Ok true)) l') (λ _ _ _, True)).
  { intros g' c l' Hm. apply live_wp_bind_res. eapply live_wp_mono; [by apply (live_wp_write _ _ _ q)|]. by intros ? ? [[]|]. }
  destruct (classify_incoming q) eqn:Ek; [done|..]; apply live_wp_bind, live_wp_new_ctx; intros id now l1.
  - apply Hwrite. intros m [= <-]. unfold replies_to. rewrite Ek. apply rejected_addressed.
  - apply live_wp_bind, live_wp_handle; [done|]. intros g' c r Hc l2. destruct r as [[]|e]; [|done].
    apply Hwrite. intros m Hm. unfold replies_to. rewrite Ek. by apply Hc.
Qed.

Lemma live_wp_framed n entry limit idle proto peer g h l :
  live_wp FromStream g h (serve_framed n live entry limit idle proto peer l) (λ _ _ _, True).
Proof.
  revert g h l. induction n as [|n IH]; intros g h l; cbn [serve_framed]; [done|].
  apply live_wp_bind_res. eapply live_wp_mono; [apply live_wp_frame|]. intros g' h' [[]|e] _; [apply IH|done..].
Qed.

Lemma live_wp_doh entry limit peer body g h l :
  live_wp FromHttp g h (doh_handle live entry limit peer body l) (λ _ _ _, True).
Proof.
  unfold doh_handle. destruct (decode_msg body) as [q|e]; [|done].
  apply live_wp_bind, live_wp_new_ctx. intros id now l1. apply live_wp_bind, live_wp_handle; [done|]. by intros g' c [[]|e] _ l2.
Qed.

Lemma safe_thread_of {A} (m : M unit A) o g h : live_wp o g h (m tt) (λ _ _ _, True) → safe o g h (thread_of (m tt)).
Proof. intros Hm. apply live_wp_task_bind. eapply live_wp_mono; [exact Hm|]. done. Qed.

Lemma safe_api version asset st req g h : complete (live g) → st_live st = live g →
  safe FromApi g h (thread_of (api_handle version asset st req tt)).
Proof. intros Hg Hst. apply safe_thread_of. by eapply live_wp_stays; [apply fine_api_handle|]. Qed.

Lemma safe_refresh r g h : complete (live g) → skip_cache (rf_ctx r) = true →
  safe (FromRefresh r) g h (refresh_task (live g) r tt).
Proof. intros Hg Hr. by eapply live_wp_stays; [apply fine_refresh_task|]. Qed.
End live.
