(* ===== verification/World.v ===== *)
(** * The running server: tasks over shared state

    The state the tasks of a running server share next to the tasks themselves, and
    what one step of the system is: time passes, a task makes one shared access, the
    environment answers a task that is suspended, a request arrives, the
    configuration is reloaded.  Any task may step at any moment, so this is every
    interleaving.  Time passes as it likes; a timer fires at its instant or later.

    Every runtime the server has had has state of its own: its counters, the shards
    of its caches, the keys it is refreshing, the pools and cells of its upstreams.
    A reload adds a runtime; the requests and refreshes that are under way stay with
    theirs, next to the new ones.  The clock, the query ids and the numbers of the
    connections are common to all.

    The protocols of [Safe] and the ownership of [Ownership] are invariants of this
    system ([world_inv]), so what they promise of one task holds of every task in
    every reachable state. *)
From S2P Require Import Prelude RustStr RustNet Error Hickory HickoryDemo External PublicIp.
From S2P Require Import DnsUtil Context Config DomainSet Matcher Upstream Shard Net Task Metrics.
From S2P Require Import Actions Ecs Hosts Cache CacheKey CacheHits Exchange Forward Fallback Sequence Graph.
From S2P Require Import Listener Runtime Server Api Ownership Main Safe.

(** ** The shared state *)

(** The state of one runtime. *)
Record GenState : Type := mkGen {
  gn_metrics : Metrics;
  gn_shards : gmap string (list Shard);
  gn_marks : Marks;
  gn_net : NetState;
}.

Definition gn_with_metrics (x : Metrics) (s : GenState) : GenState := mkGen x (gn_shards s) (gn_marks s) (gn_net s).
Definition gn_with_shards (x : gmap string (list Shard)) (s : GenState) : GenState :=
  mkGen (gn_metrics s) x (gn_marks s) (gn_net s).
Definition gn_with_marks (x : Marks) (s : GenState) : GenState := mkGen (gn_metrics s) (gn_shards s) x (gn_net s).
Definition gn_with_net (x : NetState) (s : GenState) : GenState := mkGen (gn_metrics s) (gn_shards s) (gn_marks s) x.

(** [sh_opened]: the sockets and connections opened so far, which are numbered.
    [sh_live]: which runtime [Live] holds; those before it are the earlier ones. *)
Record Shared : Type := mkShared {
  sh_now : Z;
  sh_next_id : Z;
  sh_opened : gset nat;
  sh_live : nat;
  sh_gens : nat → GenState;
}.

Definition with_now (x : Z) (s : Shared) : Shared := mkShared x (sh_next_id s) (sh_opened s) (sh_live s) (sh_gens s).
Definition with_next_id (x : Z) (s : Shared) : Shared := mkShared (sh_now s) x (sh_opened s) (sh_live s) (sh_gens s).
Definition with_opened (x : gset nat) (s : Shared) : Shared :=
  mkShared (sh_now s) (sh_next_id s) (x ∪ sh_opened s) (sh_live s) (sh_gens s).
Definition with_live (x : nat) (s : Shared) : Shared := mkShared (sh_now s) (sh_next_id s) (sh_opened s) x (sh_gens s).
Definition with_gen (g : nat) (x : GenState) (s : Shared) : Shared :=
  mkShared (sh_now s) (sh_next_id s) (sh_opened s) (sh_live s) (<[g := x]> (sh_gens s)).

Definition marks_at (s : Shared) (g : nat) : Marks := gn_marks (sh_gens s g).
Definition nets_at (s : Shared) (g : nat) : NetState := gn_net (sh_gens s g).

Section world.
Context {H : Hickory} {HS : HickoryShow H} {N : IpNetLib} {Rx : RegexLib} {T : TlsLib} {Y : Yaml}.
Context {HT : HttpLib} {LI : ListenerLib} {O : HashOrder} {LL : LogLib} {W : WebLib}.
(** The runtimes the server has one after the other. *)
Context (live : nat → Runtime).

(** A task with the runtime it works with, what it comes from, and the bytes it read
    last from its client. *)
Record Spawned : Type := mkSpawned {
  th_gen : nat;
  th_source : Source;
  th_heard : list Z;
  th_task : Thread;
}.
(** The refresh a task is for, if a lazy hit spawned it. *)
Definition refresh_of (o : Source) : option Refresh := match o with FromRefresh r => Some r | _ => None end.
Definition th_for (t : Spawned) : option Refresh := refresh_of (th_source t).

(** One access of a task that works with runtime [g]: its reply, the state it
    leaves, and the task it spawns.  The ids wrap ([fetch_add] on an [AtomicU64]).
    [EUpgrade]: the runtime that is live is there, an earlier one may be gone. *)
Definition access (g : nat) (e : event) (s : Shared) (r : reply e) (s' : Shared) (spawned : list Spawned) : Prop :=
  let gs := sh_gens s g in
  match e return reply e → Prop with
  | ENow => λ now, now = sh_now s ∧ s' = s ∧ spawned = []
  | ENextId => λ id, id = sh_next_id s ∧ s' = with_next_id (wrap_u64 (sh_next_id s + 1)) s ∧ spawned = []
  | EMetric c n => λ _, s' = with_gen g (gn_with_metrics (fetch_add c n (gn_metrics gs)) gs) s ∧ spawned = []
  | EShard tag i R f => λ r, ∃ shards shard, gn_shards gs !! tag = Some shards ∧ shards !! i = Some shard
      ∧ r = (f (sh_now s) shard).2
      ∧ s' = with_gen g (gn_with_shards (<[tag := <[i := (f (sh_now s) shard).1]> shards]> (gn_shards gs)) gs) s
      ∧ spawned = []
  | EMark tag key => λ fresh, fresh = bool_decide ((tag, key) ∉ gn_marks gs)
      ∧ s' = with_gen g (gn_with_marks ({[(tag, key)]} ∪ gn_marks gs) gs) s ∧ spawned = []
  | EUnmark tag key => λ _, s' = with_gen g (gn_with_marks (gn_marks gs ∖ {[(tag, key)]}) gs) s ∧ spawned = []
  | ESpawn r => λ _, s' = s ∧ spawned = [mkSpawned g (FromRefresh r) [] (refresh_task (live g) r tt)]
  | EUpgrade => λ there, (g = sh_live s → there = true) ∧ s' = s ∧ spawned = []
  | ELive => λ g', g' = sh_live s ∧ s' = s ∧ spawned = []
  | ENet a => λ r, ∃ ns, net_step (sh_now s) a (gn_net gs) r ns ∧ s' = with_gen g (gn_with_net ns gs) s ∧ spawned = []
  end r.

(** What arrives: datagrams, connections, HTTP requests (one that carries no message
    has its reply at once), and requests of the admin API, which works with the runtime of that moment. *)
Inductive arrival (g : nat) : Source → Thread → Prop :=
| arrive_udp entry limit peer buf : arrival g (FromDatagram buf) (udp_packet live entry limit peer buf tt)
| arrive_stream n entry limit idle proto peer :
    arrival g FromStream (thread_of (serve_framed n live entry limit idle proto peer tt))
| arrive_doh entry limit peer body : arrival g FromHttp (thread_of (doh_handle live entry limit peer body tt))
| arrive_bad_http reply : arrival g FromHttp (thread_of (Ret tt reply : task unit HttpReply))
| arrive_api version asset st req :
    st_live st = live g → arrival g FromApi (thread_of (api_handle version asset st req tt)).

Context (horizon : Z).
Notation World := (Shared * list Spawned)%type.

(** A timer fires when its instant has come. *)
Fixpoint due (now : Z) (a : await) : areply a → Prop :=
  match a return areply a → Prop with
  | ATimer d a => λ r, match r with Some r => due now a r | None => (d ≤ now)%Z end
  | APar a b => λ r, match r with inl r => due now a r | inr r => due now b r end
  | _ => λ _, True
  end.

(** A task makes its next access, or gets the reply it waits for; a socket or
    connection it opens is a new one. *)
Definition thread_access (s : Shared) (t : Spawned) (s' : Shared) (t' : Spawned) (spawned : list Spawned) : Prop :=
  match th_task t with
  | Sync _ e k => ∃ r, access (th_gen t) e s r s' spawned
      ∧ t' = mkSpawned (gen_after (th_gen t) e r) (th_source t) (th_heard t) (k r)
  | _ => False
  end.
Definition thread_resume (s : Shared) (t : Spawned) (s' : Shared) (t' : Spawned) : Prop :=
  match th_task t with
  | Await _ a k => ∃ r, areply_ok a r ∧ due (sh_now s) a r
      ∧ await_brings a r ## sh_opened s ∧ s' = with_opened (await_brings a r) s
      ∧ t' = mkSpawned (th_gen t) (th_source t) (heard_after a r (th_heard t)) (k r)
  | _ => False
  end.

(** A runtime as it is built: empty caches, nothing in flight. *)
Definition gen_new (rt : Runtime) (now : Z) : GenState :=
  mkGen (metrics_new now) (new_shards <$> runtime_caches rt) ∅ net_empty.

(** The next runtime takes over.
    @src src/src/runtime.rs 45-47 Live::swap *)
Definition swapped (s : Shared) : Shared :=
  with_live (S (sh_live s)) (with_gen (S (sh_live s)) (gen_new (live (S (sh_live s))) (sh_now s)) s).

(** A reload that fails changes nothing; one that succeeds swaps in what
    [reload_file] built from the files of that moment. *)
Inductive world_step : World → World → Prop :=
| step_time s ts now : (sh_now s ≤ now ≤ horizon)%Z → world_step (s, ts) (with_now now s, ts)
| step_access s ts i t s' t' spawned :
    ts !! i = Some t → thread_access s t s' t' spawned → world_step (s, ts) (s', <[i := t']> ts ++ spawned)
| step_resume s ts i t s' t' :
    ts !! i = Some t → thread_resume s t s' t' → world_step (s, ts) (s', <[i := t']> ts)
| step_arrive s ts o t :
    arrival (sh_live s) o t → world_step (s, ts) (s, ts ++ [mkSpawned (sh_live s) o [] t])
| step_reload s ts (files : ConfigEnv) path :
    reload_file (live (sh_live s)) path = Some (live (S (sh_live s)), Ok tt) → world_step (s, ts) (swapped s, ts).

(** The server when it starts. *)
Definition world_init (now : Z) : World := (mkShared now 1 ∅ 0 (λ g, gen_new (live g) now), []).
Definition reachable (w : World) : Prop := ∃ now, (0 ≤ now ≤ horizon)%Z ∧ rtc world_step (world_init now) w.
End world.

(** What a step does to the state of the other runtimes. *)
Lemma with_gen_proj {B} (pr : GenState → B) g x s h :
  pr (sh_gens (with_gen g x s) h) = if decide (g = h) then pr x else pr (sh_gens s h).
Proof. cbn. unfold insert, fn_insert. by destruct (decide (g = h)). Qed.

(** ** The invariant *)
Section invariant.
Context {H : Hickory} {HL : HickoryLaws H} {HS : HickoryShow H} {N : IpNetLib} {Rx : RegexLib} {T : TlsLib} {Y : Yaml}.
Context {HT : HttpLib} {LI : ListenerLib} {O : HashOrder} {OL : HashOrderLaws O} {LL : LogLib} {W : WebLib}.
Context (live : nat → Runtime) (horizon : Z) (Hcaches : ∀ g, caches_wf (runtime_caches (live g)) horizon).

(** The shared state: the clock before the horizon, the live runtime complete and
    serving what the first one does, every shard of every cache there and well formed. *)
Record shared_ok (s : Shared) : Prop := mkSharedOk {
  so_time : (0 ≤ sh_now s ≤ horizon)%Z;
  so_live : complete (live (sh_live s));
  so_service : same_service (live (sh_live s)) (live 0);
  so_shards : ∀ g tag c, runtime_caches (live g) !! tag = Some c →
    ∃ shards, gn_shards (sh_gens s g) !! tag = Some shards ∧ length shards = ca_n_shards c
      ∧ ∀ i shard, shards !! i = Some shard → shard_good c i shard;
}.

Lemma gen_new_shards rt now tag c : runtime_caches rt !! tag = Some c →
  ∃ shards, gn_shards (gen_new rt now) !! tag = Some shards ∧ length shards = ca_n_shards c
    ∧ ∀ i shard, shards !! i = Some shard → shard_good c i shard.
Proof.
  intros Hc. exists (new_shards c). cbn [gen_new gn_shards].
  rewrite lookup_fmap, Hc. split; [done|]. unfold new_shards. split; [by rewrite length_replicate|].
  intros i shard [-> _]%lookup_replicate. apply shard_good_new.
Qed.

Lemma shared_ok_gen s g x :
  shared_ok s → (∀ tag c, runtime_caches (live g) !! tag = Some c →
     ∃ shards, gn_shards x !! tag = Some shards ∧ length shards = ca_n_shards c
       ∧ ∀ i shard, shards !! i = Some shard → shard_good c i shard) →
  shared_ok (with_gen g x s).
Proof.
  intros [Ht Hl Hsv Hs] Hx. split; [done..|]. intros h tag c Hc. rewrite (with_gen_proj gn_shards).
  case_decide as E; [subst h; by apply Hx|by apply Hs].
Qed.

Lemma shared_ok_init now : (0 ≤ now ≤ horizon)%Z → complete (live 0) → shared_ok (world_init live now).1.
Proof. intros Hn Hc. split; [done|done|reflexivity|]. intros g tag c Ht. by apply gen_new_shards. Qed.

Lemma shared_ok_swapped s : shared_ok s → complete (live (S (sh_live s))) →
  same_service (live (S (sh_live s))) (live (sh_live s)) → shared_ok (swapped live s).
Proof.
  intros Hs Hc Hsv. assert (Hg : shared_ok (with_gen (S (sh_live s)) (gen_new (live (S (sh_live s))) (sh_now s)) s)).
  { apply shared_ok_gen; [done|]. intros tag c Ht. by apply gen_new_shards. }
  destruct Hg as [Ht _ _ Hsh]. split; [done|done| |done]. etrans; [exact Hsv|apply (so_service s Hs)].
Qed.

(** The replies of an access are those the protocol promises ... *)
Lemma access_reply g e s r s' spawned : shared_ok s → access live g e s r s' spawned → promised live horizon g e r.
Proof.
  intros [Ht Hl _ Hs]. destruct e; try done; cbn.
  - by intros (-> & _).
  - intros (shards & shard & Hsh & Hi & -> & _) c Hc Hlt.
    destruct (Hs _ _ _ Hc) as (shards' & Hsh' & _ & Hg). rewrite Hsh in Hsh'. injection Hsh' as <-.
    exists (sh_now s), shard. eauto.
  - by intros (-> & _).
Qed.

(** ... and an access the protocol allows keeps the shared state in order. *)
Lemma access_shared_ok o g e s r s' spawned :
  shared_ok s → allowed live horizon o g e → access live g e s r s' spawned → shared_ok s'.
Proof.
  intros Hok He. pose proof (so_shards s Hok) as Hs. destruct e; cbn in *.
  - by intros (_ & -> & _).
  - intros (_ & -> & _). by destruct Hok.
  - intros (-> & _). by apply shared_ok_gen; [|apply Hs].
  - intros (shards & shard & Hsh & Hi & _ & -> & _). apply shared_ok_gen; [done|].
    intros tag' c' Hc'. cbn [gn_with_shards gn_shards].
    destruct (decide (tag = tag')) as [<-|Hne]; [|rewrite lookup_insert_ne by done; by apply Hs].
    rewrite lookup_insert_eq. destruct (Hs _ _ _ Hc') as (shards' & Hsh' & Hlen & Hg).
    rewrite Hsh in Hsh'. injection Hsh' as <-. eexists. split; [done|]. split; [by rewrite length_insert|].
    destruct He as (c & Hc & Hlt & Hf). rewrite Hc in Hc'. injection Hc' as ->.
    intros j x. destruct (decide (i = j)) as [<-|Hij].
    + rewrite list_lookup_insert_eq by (by apply lookup_lt_Some in Hi). intros [= <-].
      apply Hf; [apply (so_time s Hok)|]. by apply Hg.
    + rewrite list_lookup_insert_ne by done. apply Hg.
  - intros (_ & -> & _). by apply shared_ok_gen; [|apply Hs].
  - intros (-> & _). by apply shared_ok_gen; [|apply Hs].
  - by intros (-> & _).
  - by intros (_ & -> & _).
  - by intros (_ & -> & _).
  - intros (ns & _ & -> & _). by apply shared_ok_gen; [|apply Hs].
Qed.

(** ** Ownership *)

(** What a refresh is: its query, which leaves the mark alone, then the release. *)
Definition release (r : Refresh) : M unit unit := sync (EUnmark (rf_tag r) (rf_key r)).
Definition refreshing (r : Refresh) (h : Marks) (cs : gset nat) (t : Thread) : Prop :=
  (mark_of r ∈ h ∧ ∃ inner : Thread, t = task_bind inner (λ l _, release r l) id
     ∧ owns {[mark_of r]} h cs inner (λ held _ _, held = {[mark_of r]}))
  ∨ (h = ∅ ∧ t = Ret tt tt).

(** A task holds the marks [h] of runtime [gh.1] and the connections [cs]. *)
Definition thread_owns (gh : nat * Marks) (cs : gset nat) (t : Spawned) : Prop :=
  gh.1 = th_gen t ∧
  match th_for t with
  | Some r => refreshing r gh.2 cs (th_task t)
  | None => owns ∅ gh.2 cs (th_task t) (λ held _ _, held = ∅)
  end.

Lemma markfree_thread_of {A} (m : M unit A) g o h : refresh_of o = None → markfree m →
  thread_owns (g, ∅) ∅ (mkSpawned g o h (thread_of (m tt))).
Proof.
  intros Ho Hm. split; [done|]. unfold th_for. cbn. rewrite Ho. apply owns_bind.
  eapply owns_mono; [apply (Hm tt)|]. by intros hs c a [-> _] l.
Qed.

Lemma arrival_owns g o t : arrival live g o t → thread_owns (g, ∅) ∅ (mkSpawned g o [] t).
Proof.
  intros [].
  - split; [done|]. eapply owns_mono; [apply (markfree_udp_packet _ _ _ _ _ tt)|]. by intros h c a [-> _].
  - apply markfree_thread_of; [done|]. apply markfree_serve_framed.
  - apply markfree_thread_of; [done|]. apply markfree_doh_handle.
  - apply (markfree_thread_of (λ l, Ret l reply)); [done|]. by intros l.
  - apply markfree_thread_of; [done|]. apply markfree_balanced, balanced_api_handle.
Qed.

Lemma access_marks_reply g e s r s' spawned hs i h :
  access live g e s r s' spawned → marks_owned hs (marks_at s) → hs !! i = Some (g, h) → marks_reply e h r.
Proof.
  intros Ha Ho Hi. pose proof (marks_owned_sub _ _ _ _ _ Ho Hi) as Hsub. destruct e; try done; cbn in *.
  destruct Ha as (-> & _). rewrite bool_decide_eq_true. set_solver.
Qed.

(** An access that is not about marks leaves them alone. *)
Lemma access_marks_same g e s r s' spawned :
  access live g e s r s' spawned → match e with EMark _ _ | EUnmark _ _ | ESpawn _ => False | _ => True end →
  spawned = [] ∧ ∀ x m, m ∈ marks_at s' x ↔ m ∈ marks_at s x.
Proof.
  assert (Hgen : ∀ x, gn_marks x = gn_marks (sh_gens s g) → ∀ y m, m ∈ marks_at (with_gen g x s) y ↔ m ∈ marks_at s y).
  { intros x Hx y m. unfold marks_at. rewrite (with_gen_proj gn_marks). case_decide as E; [subst y; by rewrite Hx|done]. }
  intros Ha He. destruct e; try done; cbn in Ha.
  - by destruct Ha as (_ & -> & ->).
  - by destruct Ha as (_ & -> & ->).
  - destruct Ha as (-> & ->). split; [done|]. by apply Hgen.
  - destruct Ha as (? & ? & _ & _ & _ & -> & ->). split; [done|]. by apply Hgen.
  - by destruct Ha as (_ & -> & ->).
  - by destruct Ha as (_ & -> & ->).
  - destruct Ha as (ns & _ & -> & ->). split; [done|]. by apply Hgen.
Qed.

Lemma spawned_owns g r : thread_owns (g, {[mark_of r]}) ∅ (mkSpawned g (FromRefresh r) [] (refresh_task (live g) r tt)).
Proof.
  split; [done|]. left. split; [cbn; set_solver|]. exists (refresh_body (live g) r tt). split; [done|].
  eapply owns_mono; [apply (balanced_refresh_body (live g) r {[mark_of r]} tt)|]. by intros h c a [-> _].
Qed.

(** One access of a task: who owns which mark afterwards. *)
Lemma access_owned g e s r s' spawned hs i base h h' :
  access live g e s r s' spawned → marks_owned hs (marks_at s) → hs !! i = Some (g, h) →
  marks_after e base h r = Some h' →
  (∀ m, m ∈ base → m ∈ h → m ∈ h')
  ∧ ∃ new, Forall2 (λ gh t, thread_owns gh ∅ t) new spawned
      ∧ marks_owned (<[i := (gen_after g e r, h')]> hs ++ new) (marks_at s').
Proof.
  intros Ha Ho Hi Hh. pose proof (marks_owned_sub _ _ _ _ _ Ho Hi) as Hsub.
  assert (Hsame : match e with EMark _ _ | EUnmark _ _ | ESpawn _ => False | _ => True end →
            h' = h → (gen_after g e r = g ∨ h = ∅) →
            (∀ m, m ∈ base → m ∈ h → m ∈ h') ∧ ∃ new, Forall2 (λ gh t, thread_owns gh ∅ t) new spawned
            ∧ marks_owned (<[i := (gen_after g e r, h')]> hs ++ new) (marks_at s')).
  { intros He -> Hg. destruct (access_marks_same _ _ _ _ _ _ Ha He) as [-> Hm]. split; [done|]. exists [].
    split; [done|]. rewrite app_nil_r. eapply marks_owned_ext; [by eapply marks_owned_same|done]. }
  destruct e; try (apply Hsame; [done|by injection Hh as <-|by left]); cbn in Ha, Hh; [|done| |].
  - clear Hsame. injection Hh as <-. destruct Ha as (-> & -> & ->). split; [intros m; case_bool_decide; set_solver|].
    exists []. split; [done|]. rewrite app_nil_r.
    assert (Hm' : ∀ x m, m ∈ marks_at (with_gen g (gn_with_marks ({[(tag, key)]} ∪ gn_marks (sh_gens s g)) (sh_gens s g)) s) x
              ↔ m ∈ marks_at s x ∨ (x = g ∧ m = (tag, key))).
    { intros x m. unfold marks_at. rewrite (with_gen_proj gn_marks). case_decide as E; [subst x|]; cbn; set_solver. }
    case_bool_decide as Hm.
    + eapply marks_owned_update; [done|done|..].
      * intros m. rewrite elem_of_union, elem_of_singleton. intros [->|?]; [by right|by left].
      * intros x m. rewrite Hm'. destruct (decide (x = g)) as [->|]; destruct (decide (m ∈ h)); set_solver.
    + eapply marks_owned_ext; [eapply marks_owned_same; [done|done|by left]|]. intros x m. rewrite Hm'.
      split; [|by left]. intros [?|[-> ->]]; [done|]. apply dec_stable. set_solver.
  - clear Hsame. case_decide as Hm; [|done]. injection Hh as <-. destruct Ha as (-> & ->). split; [set_solver|].
    exists [(g, {[mark_of r0]})]. split; [constructor; [apply spawned_owns|constructor]|].
    apply (marks_owned_app _ (λ x, if decide (x = g) then marks_at s x ∖ {[mark_of r0]} else marks_at s x)).
    + eapply marks_owned_update; [done|done|..].
      * intros m ?. left. set_solver.
      * intros x m. case_decide as E; [subst x|]; destruct (decide (m ∈ h)), (decide (m = mark_of r0)); set_solver.
    + rewrite decide_True by done. set_solver.
    + intros x m. case_decide as E; [subst x|]; [|set_solver].
      destruct (decide (m = mark_of r0)) as [->|]; set_solver.
  - case_decide as Hm; [|done]. injection Hh as <-. apply Hsame; [done|done|by right].
Qed.

(** The same for the connections. *)
Lemma access_conns_owned g e s r s' spawned css i cs :
  access live g e s r s' spawned → conns_owned css (nets_at s) (sh_opened s) → css !! i = Some cs →
  access_conns e ⊆ cs → pool_fits e →
  access_brings e r ## cs
  ∧ conns_owned (<[i := access_brings e r ∪ cs ∖ access_gives e]> css ++ replicate (length spawned) ∅)
      (nets_at s') (sh_opened s').
Proof.
  intros Ha Hown Hi Hc Hf.
  assert (Hsame : access_brings e r = ∅ → (∀ v, pool_at v (nets_at s') = pool_at v (nets_at s)) →
    sh_opened s' = sh_opened s →
    access_brings e r ## cs
    ∧ conns_owned (<[i := access_brings e r ∪ cs ∖ access_gives e]> css ++ replicate (length spawned) ∅)
        (nets_at s') (sh_opened s')).
  { intros Hb Hp ->. rewrite Hb. split; [set_solver|]. apply conns_owned_spawn.
    eapply conns_owned_same_pools; [done|done|set_solver|done]. }
  assert (Hgen : ∀ x, gn_net x = gn_net (sh_gens s g) → ∀ v, pool_at v (nets_at (with_gen g x s)) = pool_at v (nets_at s)).
  { intros x Hx v. unfold pool_at, nets_at. rewrite (with_gen_proj gn_net). case_decide as E; [by rewrite Hx, E|done]. }
  destruct e; cbn in Ha.
  - destruct Ha as (_ & -> & _). by apply Hsame.
  - destruct Ha as (_ & -> & _). by apply Hsame.
  - destruct Ha as (-> & _). by apply Hsame; [|apply Hgen|].
  - destruct Ha as (? & ? & _ & _ & _ & -> & _). by apply Hsame; [|apply Hgen|].
  - destruct Ha as (_ & -> & _). by apply Hsame; [|apply Hgen|].
  - destruct Ha as (-> & _). by apply Hsame; [|apply Hgen|].
  - destruct Ha as (-> & _). by apply Hsame.
  - destruct Ha as (_ & -> & _). by apply Hsame.
  - destruct Ha as (_ & -> & _). by apply Hsame.
  - destruct Ha as (ns & Hs & -> & ->). rewrite app_nil_r.
    destruct (net_step_owned _ _ _ _ _ _ _ _ _ _ Hs Hown Hi Hc Hf) as [Hb Hco]. split; [exact Hb|].
    apply (conns_owned_fewer _ _ _ _ Hco). intros [g' u]. left. unfold pool_at, nets_at. cbn [fst snd].
    rewrite (with_gen_proj gn_net). case_decide as E; [subst g'; by rewrite fn_lookup_insert|by rewrite fn_lookup_insert_ne].
Qed.

(** One access of any task. *)
Lemma thread_access_owned s s' t t' spawned hs css i h cs :
  thread_access live s t s' t' spawned → marks_owned hs (marks_at s) → conns_owned css (nets_at s) (sh_opened s) →
  hs !! i = Some h → css !! i = Some cs → thread_owns h cs t →
  ∃ h' cs' new, thread_owns h' cs' t' ∧ Forall2 (λ gh t, thread_owns gh ∅ t) new spawned
    ∧ marks_owned (<[i := h']> hs ++ new) (marks_at s')
    ∧ conns_owned (<[i := cs']> css ++ replicate (length spawned) ∅) (nets_at s') (sh_opened s').
Proof.
  destruct h as [g h], t as [gt o hd t]. intros Ht Ho Hco Hi Hj [Hg Hown]. unfold th_for in Hown. cbn in Hg, Hown. subst gt.
  unfold thread_access in Ht. cbn in Ht. unfold thread_owns, th_for. destruct (refresh_of o) as [rf|] eqn:Eo.
  - destruct Hown as [[Hm (inner & -> & Hin)]|[_ ->]]; [|done].
    destruct inner as [[] []|l e k|l a k| |]; [| |done|done|done]; cbn in Ht.
    + destruct Ht as ([] & [-> ->] & ->). cbn in Hin. subst h. exists (g, ∅), cs, []. split; [cbn; rewrite Eo; split; [done|by right]|].
      split; [done|]. rewrite !app_nil_r. split.
      * eapply marks_owned_update; [done|done|set_solver|]. intros x m. unfold marks_at. rewrite (with_gen_proj gn_marks).
        case_decide as E; [subst x|]; cbn; set_solver.
      * eapply conns_owned_same_pools; [done|done|done|]. intros v. unfold pool_at, nets_at.
        rewrite (with_gen_proj gn_net). case_decide as E; [by rewrite E|done].
    + destruct Ht as (r & Ha & ->). destruct Hin as (Hc & Hf & Hin).
      destruct (access_conns_owned _ _ _ _ _ _ _ _ _ Ha Hco Hj Hc Hf) as [Hb Hco'].
      pose proof (Hin r (access_marks_reply _ _ _ _ _ _ _ _ _ Ha Ho Hi) Hb) as Hkr.
      destruct (marks_after e _ h r) as [h'|] eqn:Ema; [|done].
      destruct (access_owned _ _ _ _ _ _ _ _ _ _ _ Ha Ho Hi Ema) as (Hbase & new & Hnew & Hown').
      exists (gen_after g e r, h'), (access_brings e r ∪ cs ∖ access_gives e), new. split; [|done]. split; [done|].
      cbn. rewrite Eo. left. split; [apply Hbase; set_solver|]. by exists (k r).
  - destruct t as [|l e k| | |]; try done. destruct Ht as (r & Ha & ->). destruct Hown as (Hc & Hf & Hown).
    destruct (access_conns_owned _ _ _ _ _ _ _ _ _ Ha Hco Hj Hc Hf) as [Hb Hco'].
    pose proof (Hown r (access_marks_reply _ _ _ _ _ _ _ _ _ Ha Ho Hi) Hb) as Hkr.
    destruct (marks_after e _ h r) as [h'|] eqn:Ema; [|done].
    destruct (access_owned _ _ _ _ _ _ _ _ _ _ _ Ha Ho Hi Ema) as (_ & new & Hnew & Hown').
    exists (gen_after g e r, h'), (access_brings e r ∪ cs ∖ access_gives e), new. split; [|done]. cbn. by rewrite Eo.
Qed.

(** A reply to a suspended task: what it opens is its own. *)
Lemma thread_resume_owned s s' t t' css i h cs :
  thread_resume s t s' t' → conns_owned css (nets_at s) (sh_opened s) → css !! i = Some cs →
  thread_owns h cs t →
  ∃ cs', thread_owns h cs' t' ∧ conns_owned (<[i := cs']> css) (nets_at s') (sh_opened s').
Proof.
  destruct h as [g h], t as [gt o hd t]. intros Ht Hco Hj [Hg Hown]. unfold th_for in Hown. cbn in Hg, Hown. subst gt.
  unfold thread_resume in Ht. cbn in Ht. unfold thread_owns, th_for.
  assert (Hopen : ∀ new, new ## sh_opened s → new ## cs).
  { intros new Hn x Hx Hc. apply (Hn x Hx). by apply (co_opened _ _ _ Hco x (inl i)); exists cs. }
  destruct (refresh_of o) as [rf|] eqn:Eo.
  - destruct Hown as [[Hm (inner & -> & Hin)]|[_ ->]]; [|done].
    destruct inner as [|l e k|l a k| |]; try done. destruct Ht as (r & _ & _ & Hb & -> & ->).
    destruct Hin as (-> & _ & _ & Hin). exists (await_brings a r ∪ cs). split; [|by apply conns_owned_open].
    split; [done|]. cbn. rewrite Eo. left. split; [done|]. exists (k r). split; [done|]. apply Hin. by apply Hopen.
  - destruct t as [| |l a k| |]; try done. destruct Ht as (r & _ & _ & Hb & -> & ->).
    destruct Hown as (-> & _ & _ & Hown). exists (await_brings a r ∪ cs).
    split; [|by apply conns_owned_open]. split; [done|]. cbn. rewrite Eo. apply Hown. by apply Hopen.
Qed.

(** ** Every reachable state *)

(** A task that has a complete runtime, never panics and keeps to the protocols. *)
Definition thread_safe (t : Spawned) : Prop :=
  complete (live (th_gen t)) ∧ safe live horizon (th_source t) (th_gen t) (th_heard t) (th_task t).

Lemma access_spawned o g e s r s' spawned :
  complete (live g) → allowed live horizon o g e → access live g e s r s' spawned → Forall thread_safe spawned.
Proof.
  intros Hg He. destruct e; cbn in *; [intros (_ & _ & ->)|intros (_ & _ & ->)|intros (_ & ->)
    |intros (? & ? & _ & _ & _ & _ & ->)|intros (_ & _ & ->)|intros (_ & ->)|intros (_ & ->)
    |intros (_ & _ & ->)|intros (_ & _ & ->)|intros (? & _ & _ & ->)]; repeat constructor; [done|].
  by apply safe_refresh; [..|apply He].
Qed.

Lemma arrival_safe g o t : complete (live g) → arrival live g o t → safe live horizon o g [] t.
Proof.
  intros Hg [].
  - by apply safe_udp_packet.
  - by apply safe_thread_of, live_wp_framed.
  - by apply safe_thread_of, live_wp_doh.
  - done.
  - by apply safe_api.
Qed.

(** No access swaps the runtimes, and a task works with one there has been. *)
Lemma access_gens g e s r s' spawned :
  access live g e s r s' spawned → g ≤ sh_live s →
  sh_live s' = sh_live s ∧ gen_after g e r ≤ sh_live s ∧ Forall (λ t, th_gen t ≤ sh_live s) spawned.
Proof.
  intros Ha Hg. destruct e; cbn in Ha |- *; try (destruct Ha as (? & ? & Ha)); try (destruct Ha as (? & ? & Ha));
    destruct_and?; subst; repeat split; (done || by repeat constructor).
Qed.

Lemma thread_access_safe s s' t t' spawned :
  shared_ok s → thread_safe t → thread_access live s t s' t' spawned →
  shared_ok s' ∧ thread_safe t' ∧ Forall thread_safe spawned.
Proof.
  intros Hs [Hg Ht] Ha. unfold thread_access, safe in *. destruct (th_task t) as [|l e k| | |]; try done.
  destruct Ha as (r & Ha & ->). destruct Ht as [He Hk]. pose proof (access_reply _ _ _ _ _ _ Hs Ha) as Hr.
  split; [by eapply access_shared_ok|]. split; [|by eapply access_spawned]. split; cbn; [|by apply Hk].
  by destruct e.
Qed.

Definition all_own (hs : list (nat * Marks)) (css : list (gset nat)) (ts : list Spawned) : Prop :=
  Forall2 (λ (hc : (nat * Marks) * gset nat) t, thread_owns hc.1 hc.2 t) (zip hs css) ts
  ∧ length hs = length ts ∧ length css = length ts.

Record world_inv (w : Shared * list Spawned) : Prop := mkWorldInv {
  wi_shared : shared_ok w.1;
  wi_safe : Forall thread_safe w.2;
  wi_gens : Forall (λ t, th_gen t ≤ sh_live w.1) w.2;
  wi_owned : ∃ hs css, all_own hs css w.2 ∧ marks_owned hs (marks_at w.1) ∧ conns_owned css (nets_at w.1) (sh_opened w.1);
}.

Lemma all_own_lookup hs css ts i t : all_own hs css ts → ts !! i = Some t →
  ∃ h cs, hs !! i = Some h ∧ css !! i = Some cs ∧ thread_owns h cs t.
Proof.
  intros (Hall & _ & _) Hi. destruct (Forall2_lookup_r _ _ _ _ _ Hall Hi) as ([h cs] & Hz & Ht).
  apply lookup_zip_Some in Hz as [? ?]. eauto.
Qed.

Lemma all_own_held hs css ts i h : all_own hs css ts → hs !! i = Some h →
  ∃ t cs, ts !! i = Some t ∧ thread_owns h cs t.
Proof.
  intros Ho Hi. pose proof Ho as (_ & Hl & _). assert (is_Some (ts !! i)) as [t Ht].
  { apply lookup_lt_is_Some. rewrite <- Hl. by eapply lookup_lt_Some. }
  destruct (all_own_lookup _ _ _ _ _ Ho Ht) as (h' & cs & Hh' & _ & Hown). rewrite Hi in Hh'. injection Hh' as <-. eauto.
Qed.

Lemma all_own_insert hs css ts i h cs t : all_own hs css ts → thread_owns h cs t →
  all_own (<[i := h]> hs) (<[i := cs]> css) (<[i := t]> ts).
Proof.
  intros (Hall & Hl1 & Hl2) Ht. split; [|by rewrite !length_insert].
  rewrite <- (insert_zip_with pair). by apply Forall2_insert.
Qed.

Lemma all_own_app hs css ts new spawned : all_own hs css ts → Forall2 (λ h t, thread_owns h ∅ t) new spawned →
  all_own (hs ++ new) (css ++ replicate (length spawned) ∅) (ts ++ spawned).
Proof.
  intros (Hall & Hl1 & Hl2) Hnew. pose proof (Forall2_length _ _ _ Hnew) as Hl.
  split; [|rewrite !length_app, length_replicate; lia]. rewrite (zip_with_app pair) by lia.
  apply Forall2_app; [done|]. rewrite <- Hl. clear -Hnew. induction Hnew; cbn; by constructor.
Qed.

Lemma world_inv_init now : (0 ≤ now ≤ horizon)%Z → complete (live 0) → world_inv (world_init live now).
Proof.
  intros Hn Hc. split; [by apply shared_ok_init|constructor|constructor|]. exists [], []. split; [by split; [constructor|]|]. split.
  - split; [|by intros []]. intros g m. split; [set_solver|]. by intros ([] & h & [=] & _).
  - assert (Hpool : ∀ v, pool_at v (nets_at (world_init live now).1) = []) by done.
    assert (Hnone : ∀ o x, ¬ holds [] (nets_at (world_init live now).1) o x).
    { intros [j|v] x; cbn; [by intros (? & [=] & _)|]. unfold pooled. rewrite Hpool. apply not_elem_of_nil. }
    split; [intros x o1 o2 Hx; by apply Hnone in Hx|intros x o Hx; by apply Hnone in Hx|..];
      intros u; unfold pooled; rewrite Hpool; cbn; [constructor|lia].
Qed.

(** The marks and connections of a reload: the next runtime begins with none. *)
Lemma swapped_marks hs css ts s :
  all_own hs css ts → Forall (λ t, th_gen t ≤ sh_live s) ts → marks_owned hs (marks_at s) →
  marks_owned hs (marks_at (swapped live s)).
Proof.
  intros Ho Hle Hm. eapply marks_owned_ext; [exact Hm|]. intros x m. unfold marks_at, swapped. cbn [with_live sh_gens].
  rewrite (with_gen_proj gn_marks). case_decide as E; [|done]. subst x. cbn. split; [set_solver|].
  intros (i & h & Hi & Hx)%(proj1 Hm). exfalso.
  destruct (all_own_held _ _ _ _ _ Ho Hi) as (t & cs & Ht & Hg & _). cbn in Hg. rewrite Forall_lookup in Hle. specialize (Hle _ _ Ht). lia.
Qed.

Lemma thread_access_gens s t s' t' spawned : thread_access live s t s' t' spawned → th_gen t ≤ sh_live s →
  sh_live s' = sh_live s ∧ th_gen t' ≤ sh_live s ∧ Forall (λ t, th_gen t ≤ sh_live s) spawned.
Proof.
  unfold thread_access. destruct (th_task t); try done. intros (r & Ha & ->) Hg. by eapply access_gens.
Qed.

Lemma world_inv_step w w' : world_step live horizon w w' → world_inv w → world_inv w'.
Proof.
  intros Hstep [Hsh Hsafe Hgen (hs & css & Hto & Hown & Hco)]. destruct Hstep as [s ts now Hn|s ts i t s' t' spawned Hi Ha|
    s ts i t s' t' Hi Hr|s ts o t Ht|s ts files path Hre]; cbn [fst snd] in *.
  - split; [|done|done|by exists hs, css]. destruct Hsh as [? ? ? Hs]. split; [cbn in *; lia|done|done|exact Hs].
  - destruct (all_own_lookup _ _ _ _ _ Hto Hi) as (h & cs & Hh & Hcs & Hb).
    destruct (thread_access_owned _ _ _ _ _ _ _ _ _ _ Ha Hown Hco Hh Hcs Hb) as (h' & cs' & new & Ht' & Hnew & Hown' & Hco').
    destruct (thread_access_safe _ _ _ _ _ Hsh (proj1 (Forall_lookup _ _) Hsafe _ _ Hi) Ha) as (Hs' & Hts & Hsp).
    destruct (thread_access_gens _ _ _ _ _ Ha (proj1 (Forall_lookup _ _) Hgen _ _ Hi)) as (Hl & Hg' & Hgs).
    split; cbn [fst snd]; [done| |rewrite Hl|].
    1,2: apply Forall_app; split; [by apply Forall_insert|done].
    eexists _, _. split; [|split; [exact Hown'|exact Hco']]. apply all_own_app; [|done]. by apply all_own_insert.
  - destruct (all_own_lookup _ _ _ _ _ Hto Hi) as (h & cs & Hh & Hcs & Hb).
    destruct (thread_resume_owned _ _ _ _ _ _ _ _ Hr Hco Hcs Hb) as (cs' & Ht' & Hco').
    destruct (proj1 (Forall_lookup _ _) Hsafe _ _ Hi) as [Hg Hs]. pose proof (proj1 (Forall_lookup _ _) Hgen _ _ Hi) as Hle.
    unfold thread_resume, safe in Hr, Hs. destruct (th_task t); try done. destruct Hr as (r & Hr & _ & _ & -> & ->).
    split; cbn [fst snd].
    + by destruct Hsh.
    + apply Forall_insert; [done|]. split; [done|]. by apply Hs.
    + by apply Forall_insert.
    + eexists (<[i := h]> hs), _. split; [by apply all_own_insert|]. split; [by rewrite list_insert_id|done].
  - pose proof (so_live _ Hsh) as Hl. split; cbn [fst snd]; [done| | |].
    + apply Forall_app. split; [done|]. constructor; [|constructor]. split; [done|]. by apply arrival_safe.
    + apply Forall_app. split; [done|]. by constructor; [|constructor].
    + exists (hs ++ [(sh_live s, ∅)]), (css ++ replicate 1 ∅). split; [|split].
      * apply (all_own_app _ _ _ [(sh_live s, ∅)] [mkSpawned (sh_live s) o [] t]); [done|]. constructor; [by apply arrival_owns|constructor].
      * by apply marks_owned_none.
      * by apply conns_owned_spawn.
  - destruct (reload_file_keeps files _ path (so_live _ Hsh)) as (rt & r & Hre' & Hc & Hsv & _). rewrite Hre in Hre'.
    injection Hre' as <- <-. split; cbn [fst snd]; [by apply shared_ok_swapped|done| |].
    + eapply Forall_impl; [exact Hgen|]. cbn. intros t ?. lia.
    + exists hs, css. split; [done|]. split; [by eapply swapped_marks|].
      apply (conns_owned_fewer _ (nets_at s)); [exact Hco|]. intros [g u]. unfold pool_at, nets_at, swapped. cbn [with_live sh_gens fst snd].
      rewrite (with_gen_proj gn_net). case_decide; [by right|by left].
Qed.

Lemma reachable_inv w : complete (live 0) → reachable live horizon w → world_inv w.
Proof.
  intros Hc (now & Hn & Hr). pose proof (world_inv_init now Hn Hc) as Hi. revert Hi. generalize dependent (world_init live now).
  intros w0 Hr Hi. induction Hr as [w|w1 w2 w3 Hs _ IH]; [done|]. by apply IH, (world_inv_step w1).
Qed.
End invariant.

(** ** Properties *)
Definition crashed {L A} `{Hickory} (t : task L A) : bool :=
  match t with Panic _ | OutOfFuel => true | _ => false end.
Definition finished {L A} `{Hickory} (t : task L A) : bool :=
  match t with Ret _ _ => true | _ => false end.
Definition waiting {L A} `{Hickory} (t : task L A) : bool :=
  match t with Await _ _ _ => true | _ => false end.
(** Between two shared accesses, not suspended. *)
Definition running {L A} `{Hickory} (t : task L A) : bool :=
  match t with Sync _ _ _ => true | _ => false end.
(** The connections a suspended task is waiting on. *)
Definition waits_on {L A} `{Hickory} (t : task L A) : list nat := match t with Await _ a _ => await_conns a | _ => [] end.

Section reached.
Context {H : Hickory} {HL : HickoryLaws H} {HS : HickoryShow H} {N : IpNetLib} {Rx : RegexLib} {T : TlsLib} {Y : Yaml}.
Context {HT : HttpLib} {LI : ListenerLib} {O : HashOrder} {LL : LogLib} {W : WebLib}.
Context (live : nat → Runtime) (horizon : Z).

(** The access a task is about to make is always possible. *)
Lemma access_possible o g e s :
  shared_ok live horizon s → allowed live horizon o g e → ∃ r s' spawned, access live g e s r s' spawned.
Proof.
  intros Hok He. destruct e; cbn in *.
  - by exists (sh_now s), s, [].
  - by eexists (sh_next_id s), _, [].
  - by eexists tt, _, [].
  - destruct He as (c & Hc & Hlt & _). destruct (so_shards _ _ _ Hok _ _ _ Hc) as (shards & Hsh & Hlen & _).
    destruct (lookup_lt_is_Some_2 shards i) as [shard Hi]; [lia|].
    eexists _, _, []. by exists shards, shard.
  - by eexists _, _, [].
  - by eexists tt, _, [].
  - by eexists tt, _, _.
  - by eexists true, _, [].
  - by eexists _, _, [].
  - destruct (net_step_total (sh_now s) a (gn_net (sh_gens s g))) as (r & ns & Hr). eexists r, _, []. by exists ns.
Qed.

(** A task that holds a mark is the live refresh of that mark, or runs. *)
Lemma holder_runs h cs (t : Spawned) m :
  thread_owns h cs t → m ∈ h.2 → crashed (th_task t) = false →
  (∃ r, th_for t = Some r ∧ mark_of r = m ∧ finished (th_task t) = false) ∨ running (th_task t) = true.
Proof.
  destruct h as [gh h], t as [g o hd t]. unfold th_for. intros [_ Hown] Hm Hc. unfold th_for in Hown. cbn in *.
  destruct (refresh_of o) as [r|].
  - destruct Hown as [[Hr (inner & -> & Hin)]|[-> ->]]; [|set_solver].
    destruct (decide (mark_of r = m)) as [<-|Hne].
    { left. exists r. split; [done|]. split; [done|]. by destruct inner. }
    right. destruct inner as [[] []|l e k|l a k| |]; cbn in *; try done.
    destruct Hin as [-> _]. set_solver.
  - right. destruct t as [l a|l e k|l a k| |]; cbn in *; try done; [|destruct Hown as [Hown _]]; set_solver.
Qed.

Lemma waits_on_owned h cs (t : Spawned) :
  thread_owns h cs t → NoDup (waits_on (th_task t)) ∧ ∀ x, x ∈ waits_on (th_task t) → x ∈ cs.
Proof.
  assert (Hin : ∀ base h (t : Thread) K, owns base h cs t K → NoDup (waits_on t) ∧ ∀ x, x ∈ waits_on t → x ∈ cs).
  { clear h t. intros base h [| |l a k| |] K Ht; cbn in *; try (split; [constructor|by intros x ?%not_elem_of_nil]).
    destruct Ht as (_ & Hsub & Hnd & _). split; [done|]. intros x Hx. apply Hsub. by apply elem_of_list_to_set. }
  destruct t as [g o hd t]. intros [_ Hown]. unfold th_for in Hown. cbn in *. destruct (refresh_of o) as [r|]; [|by eapply Hin].
  destruct Hown as [[_ (inner & -> & Ht)]|[_ ->]].
  - apply Hin in Ht. by destruct inner as [[] []| | | |].
  - split; [constructor|by intros x ?%not_elem_of_nil].
Qed.

Lemma refresh_holds h cs r (t : Spawned) :
  thread_owns h cs t → th_for t = Some r → finished (th_task t) = false → mark_of r ∈ h.2.
Proof. destruct h as [gh h], t as [g o hd t]. unfold th_for. intros [_ Hown] Hr Hf. unfold th_for in Hown. cbn in *. rewrite Hr in Hown. destruct Hown as [[Hm _]|[_ E]]; [done|]. by rewrite E in Hf. Qed.
End reached.

(** The invariant, of a server that was started with what [cfg] describes. *)
Lemma server_inv {H : Hickory} {HL : HickoryLaws H} {HS : HickoryShow H} {N : IpNetLib} {Rx : RegexLib} {T : TlsLib}
    {Y : Yaml} {W : WebLib} {E : ConfigEnv} {HT : HttpLib} {L : ListenerLib} {O : HashOrder} {LL : LogLib} {OL : HashOrderLaws O}
    (cfg : Config) (live : nat → Runtime) (horizon : Z) w :
  runtime_build cfg = Some (Ok (live 0)) → (∀ g, caches_wf (runtime_caches (live g)) horizon) →
  reachable live horizon w → world_inv live horizon w ∧ complete (live 0).
Proof.
  intros Hb Hwf Hr. destruct (runtime_build_spec cfg) as (r0 & Hr0 & Hok). rewrite Hb in Hr0.
  injection Hr0 as <-. assert (complete (live 0)) as Hc by (by apply Hok). split; [by apply reachable_inv|done].
Qed.


(** A mark belongs to a live refresh of its key, or to a task that is running. *)
Lemma refresh_marks {H : Hickory} {HL : HickoryLaws H} {HS : HickoryShow H} {N : IpNetLib} {Rx : RegexLib} {T : TlsLib} {Y : Yaml} {W : WebLib}
    {HT : HttpLib} {L : ListenerLib} {O : HashOrder} {LL : LogLib} (live : nat → Runtime) (horizon : Z)
    (w : Shared * list Spawned) g m :
  world_inv live horizon w → m ∈ marks_at w.1 g → ∃ i t, w.2 !! i = Some t ∧ th_gen t = g
    ∧ ((∃ r, th_for t = Some r ∧ mark_of r = m ∧ finished (th_task t) = false) ∨ running (th_task t) = true).
Proof.
  intros [_ Hsafe _ (hs & css & Ho & Hown & _)] Hm. apply (proj1 Hown) in Hm as (i & h & Hh & Hm).
  destruct (all_own_held _ _ _ _ _ Ho Hh) as (t & cs & Hi & Hb'). exists i, t. split; [done|].
  split; [by destruct Hb'|]. eapply (holder_runs (g, h)); [exact Hb'|done|].
  destruct (proj1 (Forall_lookup _ _) Hsafe _ _ Hi) as [_ Hs]. unfold safe in Hs. by destruct (th_task t).
Qed.

(** C5: lazy refreshes are single-flight and leave nothing behind: in every
    reachable state two refreshes of the same key of the same cache that have not
    ended are the same task; the mark of such a refresh is set; and every mark that
    is set belongs to a live refresh of that key, or to a task that is running and
    has not suspended since it set it.  So a key is never left marked by a request
    that timed out or was dropped.  The caches of two runtimes are not the same
    cache: a refresh that outlives a reload does not keep the new runtime from
    refreshing that key. *)
Theorem refresh_single_flight {H : Hickory} {HL : HickoryLaws H} {HS : HickoryShow H} {N : IpNetLib} {Rx : RegexLib} {T : TlsLib}
    {Y : Yaml} {W : WebLib} {E : ConfigEnv} {HT : HttpLib} {L : ListenerLib} {O : HashOrder} {LL : LogLib} {OL : HashOrderLaws O}
    (cfg : Config) (live : nat → Runtime) (horizon : Z) (s : Shared) (ts : list Spawned) :
  runtime_build cfg = Some (Ok (live 0)) → (∀ g, caches_wf (runtime_caches (live g)) horizon) →
  reachable live horizon (s, ts) →
  (∀ i j t1 t2 r1 r2, ts !! i = Some t1 → ts !! j = Some t2 → th_for t1 = Some r1 → th_for t2 = Some r2 →
     finished (th_task t1) = false → finished (th_task t2) = false →
     th_gen t1 = th_gen t2 → mark_of r1 = mark_of r2 → i = j)
  ∧ (∀ i t r, ts !! i = Some t → th_for t = Some r → finished (th_task t) = false → mark_of r ∈ marks_at s (th_gen t))
  ∧ (∀ g m, m ∈ marks_at s g → ∃ i t, ts !! i = Some t ∧ th_gen t = g
       ∧ ((∃ r, th_for t = Some r ∧ mark_of r = m ∧ finished (th_task t) = false) ∨ running (th_task t) = true)).
Proof.
  intros Hb Hwf Hr. destruct (server_inv _ _ _ _ Hb Hwf Hr) as [Hinv _]. pose proof Hinv as [_ _ _ (hs & css & Ho & Hown & _)]. cbn [fst snd] in *.
  assert (Hlive : ∀ i t r, ts !! i = Some t → th_for t = Some r → finished (th_task t) = false →
            ∃ h, hs !! i = Some (th_gen t, h) ∧ mark_of r ∈ h).
  { intros i t r Hi Hr' Hf. destruct (all_own_lookup _ _ _ _ _ Ho Hi) as ([g h] & cs & Hh & _ & Hb').
    pose proof (refresh_holds _ _ _ _ Hb' Hr' Hf) as Hm. destruct Hb' as [Hg _]. cbn in Hg, Hm. subst g. by exists h. }
  split; [|split].
  - intros i j t1 t2 r1 r2 Hi Hj Hr1 Hr2 Hf1 Hf2 Hg Hm. destruct (Hlive _ _ _ Hi Hr1 Hf1) as (h1 & Hh1 & Hm1).
    destruct (Hlive _ _ _ Hj Hr2 Hf2) as (h2 & Hh2 & Hm2). rewrite Hm in Hm1. rewrite Hg in Hh1.
    by apply (proj2 Hown i j (th_gen t2) h1 h2 (mark_of r2)).
  - intros i t r Hi Hr' Hf. destruct (Hlive _ _ _ Hi Hr' Hf) as (h & Hh & Hm). apply (proj1 Hown). eauto.
  - intros g m Hm. by apply (refresh_marks live horizon (s, ts)).
Qed.

(** C4: clients get answers to what they asked.  In every reachable state, however many
    requests are under way and whatever was cut off or reloaded: the task of a
    datagram sends nothing but the encoding of a reply to that datagram, bound to its
    message (with its id, opcode and question, when the opcode is not QUERY), or of
    the truncation of one; the task of a stream writes nothing but parts of one frame
    that holds a reply to the message it read last; neither says anything in answer to
    a message that is not a query; and no other task, no refresh and no exchange with
    an upstream, talks to a client at all. *)
Theorem replies_answer_clients {H : Hickory} {HL : HickoryLaws H} {HS : HickoryShow H} {N : IpNetLib} {Rx : RegexLib}
    {T : TlsLib} {Y : Yaml} {W : WebLib} {E : ConfigEnv} {HT : HttpLib} {L : ListenerLib} {O : HashOrder} {LL : LogLib}
    {OL : HashOrderLaws O} (cfg : Config) (live : nat → Runtime) (horizon : Z) (s : Shared) (ts : list Spawned) :
  runtime_build cfg = Some (Ok (live 0)) → (∀ g, caches_wf (runtime_caches (live g)) horizon) →
  reachable live horizon (s, ts) →
  ∀ i t l a k, ts !! i = Some t → th_task t = Await l a k → speaks (th_source t) (th_heard t) a.
Proof.
  intros Hb Hwf Hr i t l a k Hi Ht. destruct (server_inv _ _ _ _ Hb Hwf Hr) as [[_ Hsafe _ _] _].
  destruct (proj1 (Forall_lookup _ _) Hsafe _ _ Hi) as [_ Hs]. unfold safe in Hs. rewrite Ht in Hs. apply Hs.
Qed.

(** C6: a connection to an upstream is used by one exchange at a time.  In every
    reachable state, whatever the interleaving, wherever tasks were cut off and
    whatever was reloaded: no two tasks wait on the same socket or connection, nor
    one task twice; a connection that lies in a pool is in no other pool, is there
    once, and no task waits on it; every pool is within its capacity; and all of them
    were opened.  So a reply can never reach another exchange than the one that
    asked. *)
Theorem connections_exclusive {H : Hickory} {HL : HickoryLaws H} {HS : HickoryShow H} {N : IpNetLib} {Rx : RegexLib}
    {T : TlsLib} {Y : Yaml} {W : WebLib} {E : ConfigEnv} {HT : HttpLib} {L : ListenerLib} {O : HashOrder} {LL : LogLib}
    {OL : HashOrderLaws O} (cfg : Config) (live : nat → Runtime) (horizon : Z) (s : Shared) (ts : list Spawned) :
  runtime_build cfg = Some (Ok (live 0)) → (∀ g, caches_wf (runtime_caches (live g)) horizon) →
  reachable live horizon (s, ts) →
  (∀ i t, ts !! i = Some t → NoDup (waits_on (th_task t))
     ∧ ∀ x, x ∈ waits_on (th_task t) → x ∈ sh_opened s ∧ (∀ v, x ∉ pooled v (nets_at s))
         ∧ ∀ j t', ts !! j = Some t' → x ∈ waits_on (th_task t') → i = j)
  ∧ ∀ v, NoDup (pooled v (nets_at s)) ∧ length (pooled v (nets_at s)) ≤ POOL_CAP
      ∧ ∀ x, x ∈ pooled v (nets_at s) → x ∈ sh_opened s ∧ ∀ w, x ∈ pooled w (nets_at s) → v = w.
Proof.
  intros Hb Hwf Hr. destruct (server_inv _ _ _ _ Hb Hwf Hr) as [[_ _ _ (hs & css & Ho & _ & Hco)] _]. cbn [fst snd] in *.
  assert (Hw : ∀ i t, ts !! i = Some t → NoDup (waits_on (th_task t))
            ∧ ∀ x, x ∈ waits_on (th_task t) → holds css (nets_at s) (inl i) x).
  { intros i t Hi. destruct (all_own_lookup _ _ _ _ _ Ho Hi) as (h & cs & _ & Hcs & Hown).
    destruct (waits_on_owned _ _ _ Hown) as [Hnd Hsub]. split; [done|]. intros x Hx. exists cs. split; [done|]. by apply Hsub. }
  split.
  - intros i t Hi. destruct (Hw _ _ Hi) as [Hnd Hh]. split; [done|]. intros x Hx. specialize (Hh x Hx).
    split; [by eapply co_opened|]. split.
    + intros v Hv. assert (inl i = inr v :> Holder); [|done]. by eapply (co_one _ _ _ Hco x).
    + intros j t' Hj Hx'. destruct (Hw _ _ Hj) as [_ Hh']. specialize (Hh' x Hx').
      assert (inl i = inl j :> Holder) as [= ->]; [|done]. by eapply (co_one _ _ _ Hco x).
  - intros v. split; [apply (co_nodup _ _ _ Hco)|]. split.
    { unfold pooled. rewrite length_fmap. apply (co_bound _ _ _ Hco). }
    intros x Hx. split; [by eapply (co_opened _ _ _ Hco x (inr v))|]. intros w Hx'.
    assert (E' : inr v = inr w :> Holder); [by eapply (co_one _ _ _ Hco x)|]. by injection E'.
Qed.

(** ** A server in execution

    [drive datagram n m i w] lets task [i] run until it waits for the [m+1]-th time, its first
    [m] waits being answered by a network on which everything succeeds. *)
Section drive.
Context {H : Hickory} {HL : HickoryLaws H} {HS : HickoryShow H} {N : IpNetLib} {Rx : RegexLib} {T : TlsLib} {Y : Yaml}.
Context {HT : HttpLib} {LI : ListenerLib} {O : HashOrder} {LL : LogLib} {W : WebLib}.
Context (live : nat → Runtime) (horizon : Z).

Definition access_pick (g : nat) (e : event) (s : Shared) : option (reply e * Shared * list Spawned) :=
  let gs := sh_gens s g in
  match e return option (reply e * Shared * list Spawned) with
  | ENow => Some (sh_now s, s, [])
  | ENextId => Some (sh_next_id s, with_next_id (wrap_u64 (sh_next_id s + 1)) s, [])
  | EMetric c n => Some (tt, with_gen g (gn_with_metrics (fetch_add c n (gn_metrics gs)) gs) s, [])
  | EShard tag i R f =>
      shards ← gn_shards gs !! tag; shard ← (shards : list Shard) !! i;
      Some ((f (sh_now s) shard).2,
            with_gen g (gn_with_shards (<[tag := <[i := (f (sh_now s) shard).1]> shards]> (gn_shards gs)) gs) s, [])
  | EMark tag key =>
      Some (bool_decide ((tag, key) ∉ gn_marks gs), with_gen g (gn_with_marks ({[(tag, key)]} ∪ gn_marks gs) gs) s, [])
  | EUnmark tag key => Some (tt, with_gen g (gn_with_marks (gn_marks gs ∖ {[(tag, key)]}) gs) s, [])
  | ESpawn r => Some (tt, s, [mkSpawned g (FromRefresh r) [] (refresh_task (live g) r tt)])
  | EUpgrade => Some (true, s, [])
  | ELive => Some (sh_live s, s, [])
  | ENet a => let p := net_pick (sh_now s) a (gn_net gs) in Some (p.1, with_gen g (gn_with_net p.2 gs) s, [])
  end.

Lemma access_pick_access g e s r s' spawned :
  access_pick g e s = Some (r, s', spawned) → access live g e s r s' spawned.
Proof.
  destruct e; cbn; try (intros [= <- <- <-]; by repeat split).
  - destruct (gn_shards (sh_gens s g) !! tag) as [shards|] eqn:Et; [|done]. cbn.
    destruct (shards !! i) as [shard|] eqn:Ei; [|done]. cbn. intros [= <- <- <-]. by exists shards, shard.
  - intros [= <- <- <-]. eexists. split; [apply net_pick_step|done].
Qed.

(** Everything succeeds: a new socket is [fresh], a datagram received is [datagram],
    what is read is zeros, and of two branches the first is answered. *)
Definition net_answer (datagram : list Z) (fresh : nat) (op : net_op) : net_reply op :=
  match op return net_reply op with
  | NUdpBind _ | NTcpConnect _ => Ok fresh
  | NUdpConnect _ _ | NUdpSend _ _ | NWriteAll _ _ | NFlush _ => Ok tt
  | NUdpRecv _ n => Ok (take n datagram)
  | NReadExact _ n => Ok (replicate n 0%Z)
  | NTlsConnect _ _ => Ok fresh
  | NLookupHost _ | NLookupPair _ _ => Ok []
  | NHttpSend _ _ _ => Ok (mkHttpResponse 200 "" fresh)
  | NHttpBody _ => Ok []
  end.
Fixpoint answer (datagram : list Z) (fresh : nat) (a : await) : areply a :=
  match a return areply a with
  | AReadExact n => Ok (replicate n 0%Z)
  | AWriteAll _ | ASendTo _ => Ok tt
  | ANet op => net_answer datagram fresh op
  | ATimer _ a => Some (answer datagram fresh a)
  | APar a _ => inl (answer datagram fresh a)
  end.
Lemma answer_due now datagram fresh a : due now a (answer datagram fresh a).
Proof. by induction a. Qed.
Lemma answer_ok datagram fresh a : areply_ok a (answer datagram fresh a).
Proof.
  induction a as [n|bytes|bytes|op|d a IH|a IH b IHb]; cbn; [by rewrite length_replicate|done|done| |done|done].
  destruct op; cbn; try done; [rewrite length_take; lia|by rewrite length_replicate].
Qed.

Fixpoint drive (datagram : list Z) (n m i : nat) (w : Shared * list Spawned) : option (Shared * list Spawned) :=
  match n with
  | 0 => None
  | S n =>
      t ← w.2 !! i;
      match th_task t with
      | Sync _ e k =>
          p ← access_pick (th_gen t) e w.1;
          let '(r, s', spawned) := p in
          drive datagram n m i (s', <[i := mkSpawned (gen_after (th_gen t) e r) (th_source t) (th_heard t) (k r)]> w.2 ++ spawned)
      | Await _ a k =>
          match m with
          | 0 => Some w
          | S m =>
              let r := answer datagram (size (sh_opened w.1)) a in
              if decide (await_brings a r ## sh_opened w.1)
              then drive datagram n m i (with_opened (await_brings a r) w.1,
                     <[i := mkSpawned (th_gen t) (th_source t) (heard_after a r (th_heard t)) (k r)]> w.2)
              else None
          end
      | _ => Some w
      end
  end.

Lemma drive_steps datagram n m i w w' : drive datagram n m i w = Some w' → rtc (world_step live horizon) w w'.
Proof.
  revert m w. induction n as [|n IH]; intros m w Hd; [done|]. cbn [drive] in Hd. destruct w as [s ts]. cbn [fst snd] in Hd.
  destruct (ts !! i) as [t|] eqn:Hi; [|done]. cbn in Hd. destruct (th_task t) as [l a|l e k|l a k| |] eqn:Et.
  - by injection Hd as <-.
  - destruct (access_pick (th_gen t) e s) as [[[r s'] spawned]|] eqn:Ea; [|done]. cbn in Hd.
    eapply rtc_l; [|by eapply IH]. apply step_access with t; [done|]. unfold thread_access. rewrite Et.
    exists r. split; [by apply access_pick_access|done].
  - destruct m as [|m]; [by injection Hd as <-|]. case_decide as Hf; [|done].
    eapply rtc_l; [|by eapply IH]. apply step_resume with t; [done|]. unfold thread_resume. rewrite Et.
    eexists. split; [apply answer_ok|]. split; [apply answer_due|]. by split.
  - by injection Hd as <-.
  - by injection Hd as <-.
Qed.
End drive.

(** ** A concrete server *)

(** The demo runtime, and what the first reload makes of its file. *)
Definition d_reloaded : Runtime :=
  match reload_file (E := d_files) d_runtime "c.yaml" with Some (rt, _) => rt | None => d_runtime end.
Definition d_lives : nat → Runtime := λ g, match g with 0 => d_runtime | _ => d_reloaded end.
Lemma d_reload : reload_file (E := d_files) (d_lives 0) "c.yaml" = Some (d_lives 1, Ok tt).
Proof.
  cbn [d_lives]. unfold d_reloaded.
  assert (match reload_file (E := d_files) d_runtime "c.yaml" with Some (_, Ok tt) => true | _ => false end = true) as Hr by by vm_compute.
  by destruct (reload_file (E := d_files) d_runtime "c.yaml") as [[rt [[]|e]]|].
Qed.

(** The caches of a runtime are filed under their tags and within the horizon. *)
Definition caches_check (rt : Runtime) : bool :=
  forallb (λ p, match p.2 with
            | XCache c => bool_decide (ca_tag c = p.1) && Nat.ltb 0 (ca_n_shards c) && (0 <=? ca_lazy_ttl c)%Z
                && (ca_lazy_ttl c <=? secs (2 ^ 32))%Z && (1 <=? ca_lazy_reply_ttl c)%Z
                && (ca_lazy_reply_ttl c <=? u32_max)%Z
            | _ => true end) (map_to_list (rg_execs (rt_registry rt))).
Lemma caches_check_wf rt : caches_check rt = true → caches_wf (runtime_caches rt) d_horizon.
Proof.
  intros Hall. assert (Hc : ∀ tag c, runtime_caches rt !! tag = Some c →
            (ca_tag c = tag ∧ cache_wf c) ∧ (ca_lazy_ttl c ≤ secs (2 ^ 32))%Z).
  { intros tag c Hc%runtime_cache_tag. unfold caches_check in Hall. rewrite forallb_elem in Hall.
    specialize (Hall (tag, XCache c) (proj2 (elem_of_map_to_list _ _ _) Hc)). simpl in Hall.
    rewrite !andb_true_iff, bool_decide_eq_true, Nat.ltb_lt, !Z.leb_le in Hall.
    destruct Hall as (((((? & ?) & ?) & ?) & ?) & ?). by repeat split. }
  split; intros tag c Hl; destruct (Hc tag c Hl) as [Hw Ht]; [done|]. cbn.
  unfold d_horizon, instant_max, secs, u32_max in *. lia.
Qed.
Lemma d_lives_caches g : caches_wf (runtime_caches (d_lives g)) d_horizon.
Proof. apply caches_check_wf. destruct g; by vm_compute. Qed.

(** What can happen: a datagram with a query arrives; time passes; the configuration
    is reloaded; a task runs. *)
Definition d_bytes (m : Message) : list Z := match encode_msg m with Ok b => b | Err _ => [] end.
Definition d_datagram : list Z := d_bytes (d_query 7 "a.test" rt_A).
Definition d_arrive (w : Shared * list Spawned) : option (Shared * list Spawned) :=
  Some (w.1, w.2 ++ [mkSpawned (sh_live w.1) (FromDatagram d_datagram) []
    (udp_packet d_lives "main" (secs 5) (V4 2130706433%Z) d_datagram tt)]).
Definition d_pass (now : Z) (w : Shared * list Spawned) : option (Shared * list Spawned) :=
  if decide (sh_now w.1 ≤ now ≤ d_horizon)%Z then Some (with_now now w.1, w.2) else None.
Definition d_swap (w : Shared * list Spawned) : option (Shared * list Spawned) :=
  if decide (sh_live w.1 = 0) then Some (swapped d_lives w.1, w.2) else None.
Definition d_drive (n m i : nat) (w : Shared * list Spawned) : option (Shared * list Spawned) :=
  drive d_lives (d_bytes (d_response 7 "a.test" rt_A [d_a "a.test" 60 1%Z])) n m i w.

Notation d_reachable w := (reachable d_lives d_horizon w).
Lemma d_step_reachable w w' : d_reachable w → world_step d_lives d_horizon w w' → d_reachable w'.
Proof. intros (now & Hn & Hr) Hs. exists now. split; [done|]. by eapply rtc_r. Qed.
Lemma d_drive_reachable n m i w w' : d_reachable w → d_drive n m i w = Some w' → d_reachable w'.
Proof. intros (now & Hn & Hr) Hd. exists now. split; [done|]. etrans; [exact Hr|]. by eapply drive_steps. Qed.
Lemma d_arrive_reachable w w' : d_reachable w → d_arrive w = Some w' → d_reachable w'.
Proof. intros Hr [= <-]. eapply d_step_reachable; [exact Hr|]. destruct w as [s ts]. apply step_arrive, arrive_udp. Qed.
Lemma d_pass_reachable now w w' : d_reachable w → d_pass now w = Some w' → d_reachable w'.
Proof.
  unfold d_pass. intros Hr. case_decide; [|done]. intros [= <-]. eapply d_step_reachable; [exact Hr|].
  destruct w as [s ts]. by apply step_time.
Qed.
Lemma d_swap_reachable w w' : d_reachable w → d_swap w = Some w' → d_reachable w'.
Proof.
  unfold d_swap. intros Hr. case_decide as Hg; [|done]. intros [= <-]. eapply d_step_reachable; [exact Hr|].
  destruct w as [s ts]. cbn [fst snd] in *. apply (step_reload _ _ s ts d_files "c.yaml"). rewrite Hg. apply d_reload.
Qed.

(** A history: one of these after the other. *)
Inductive Move : Type := MArrive | MPass (now : Z) | MSwap | MDrive (n m i : nat).
Definition d_move (v : Move) : Shared * list Spawned → option (Shared * list Spawned) :=
  match v with MArrive => d_arrive | MPass now => d_pass now | MSwap => d_swap | MDrive n m i => d_drive n m i end.
Fixpoint d_moves (vs : list Move) (w : Shared * list Spawned) : option (Shared * list Spawned) :=
  match vs with [] => Some w | v :: vs => w ← d_move v w; d_moves vs w end.

Lemma d_moves_reachable vs w w' : d_reachable w → d_moves vs w = Some w' → d_reachable w'.
Proof.
  revert w. induction vs as [|v vs IH]; intros w Hr; [by intros [= <-]|].
  intros (w1 & Hv & Hm)%bind_Some. eapply IH; [|exact Hm].
  destruct v; [by eapply d_arrive_reachable|by eapply d_pass_reachable|by eapply d_swap_reachable|by eapply d_drive_reachable].
Qed.

(** The first query is answered by the upstream and its answer cached.  A second one,
    100 seconds later, gets the stale answer and starts a refresh, which has sent its
    query when the configuration is reloaded.  The cache of the new runtime is empty,
    so a third query goes to the upstream too. *)
Definition d_history : list Move :=
  [MArrive; MDrive 100 9 0; MPass (secs 100); MArrive; MDrive 100 0 1; MDrive 100 2 2; MSwap; MArrive; MDrive 100 3 3].
Definition d_busy : option (Shared * list Spawned) := d_moves d_history (world_init d_lives 0).

Lemma d_busy_reachable w : d_busy = Some w → d_reachable w.
Proof. apply d_moves_reachable. exists 0%Z. split; [split; [done|by apply Z.leb_le]|constructor]. Qed.

(** Its tasks: an answered query, one whose reply is being sent, the refresh of the first
    runtime, the query of the second; the connections each waits on. *)
Definition answering (t : Spawned) : option (list Z) :=
  match th_source t, th_task t with FromDatagram buf, Await _ (ASendTo _) _ => Some buf | _, _ => None end.
Definition d_busy_view (w : Shared * list Spawned) : list (nat * bool * bool * list nat * option (list Z)) :=
  (λ t, (th_gen t, bool_decide (is_Some (th_for t)), finished (th_task t), waits_on (th_task t), answering t)) <$> w.2.
Definition d_busy_tasks : list (nat * bool * bool * list nat * option (list Z)) :=
  [(0, false, true, [], None); (0, false, false, [], Some d_datagram); (0, true, false, [1], None);
   (1, false, false, [2], None)].
Lemma d_busy_runs : ∃ s t0 t1 t2 t3, d_busy = Some (s, [t0; t1; t2; t3]) ∧ d_reachable (s, [t0; t1; t2; t3])
  ∧ d_busy_view (s, [t0; t1; t2; t3]) = d_busy_tasks.
Proof.
  assert (Hv : match d_busy with Some w => bool_decide (d_busy_view w = d_busy_tasks) | None => false end = true)
    by by vm_compute.
  destruct d_busy as [[s ts]|] eqn:Eb; [|done]. apply bool_decide_eq_true in Hv.
  pose proof (f_equal length Hv) as Hl. unfold d_busy_view in Hl. rewrite length_fmap in Hl.
  do 4 (destruct ts as [|? ts]; [done|]). destruct ts as [|? ts]; [|done].
  eexists _, _, _, _, _. split; [reflexivity|]. split; [by apply d_busy_reachable|exact Hv].
Qed.


(** What the second query is being sent answers it. *)
Lemma replies_answer_clients_witness :
  ∃ s ts t l bytes k, reachable d_lives d_horizon (s, ts) ∧ ts !! 1 = Some t ∧ th_task t = Await l (ASendTo bytes) k
    ∧ ∃ q m, decode_msg d_datagram = Ok q ∧ replies_to q m ∧ udp_bytes m bytes.
Proof.
  destruct d_busy_runs as (s & t0 & t1 & t2 & t3 & _ & Hr & Hv).
  injection Hv as _ _ _ _ _ _ _ _ _ Ha _ _ _ _ _ _ _ _ _ _. unfold answering in Ha.
  pose proof (replies_answer_clients d_config d_lives d_horizon s [t0; t1; t2; t3] d_runtime_built d_lives_caches Hr
    1 t1) as Hs.
  destruct t1 as [g o hd t]. cbn [th_source th_heard th_task] in *. destruct o as [buf| | | |]; try done.
  destruct t as [|l e k|l a k| |]; try done. destruct a as [|bytes|bytes| | |]; try done. injection Ha as ->.
  exists s, [t0; mkSpawned g (FromDatagram d_datagram) hd (Await l (ASendTo bytes) k); t2; t3],
    (mkSpawned g (FromDatagram d_datagram) hd (Await l (ASendTo bytes) k)), l, bytes, k.
  split; [exact Hr|]. split; [reflexivity|]. split; [reflexivity|].
  exact (Hs l (ASendTo bytes) k eq_refl eq_refl).
Defined.

(** The refresh of the first runtime has its mark while the second runs. *)
Lemma refresh_single_flight_witness :
  ∃ s ts t r, reachable d_lives d_horizon (s, ts) ∧ ts !! 2 = Some t ∧ th_for t = Some r
    ∧ finished (th_task t) = false ∧ mark_of r ∈ marks_at s 0.
Proof.
  destruct d_busy_runs as (s & t0 & t1 & t2 & t3 & _ & Hr & Hv). exists s, [t0; t1; t2; t3], t2.
  injection Hv as _ _ _ _ _ _ _ _ _ _ Hg Hfor Hf _ _ _ _ _ _ _. apply bool_decide_eq_true in Hfor as [r Hfor].
  exists r. split; [exact Hr|]. split; [reflexivity|]. split; [exact Hfor|]. split; [exact Hf|].
  rewrite <- Hg. destruct (refresh_single_flight d_config d_lives d_horizon s [t0; t1; t2; t3] d_runtime_built d_lives_caches Hr)
    as (_ & Hm & _).
  exact (Hm 2 t2 r eq_refl Hfor Hf).
Defined.

(** The refresh and the third query wait on connections of their own. *)
Lemma connections_exclusive_witness :
  ∃ s ts t2 t3, reachable d_lives d_horizon (s, ts) ∧ ts !! 2 = Some t2 ∧ ts !! 3 = Some t3
    ∧ waits_on (th_task t2) = [1] ∧ waits_on (th_task t3) = [2]
    ∧ 1 ∈ sh_opened s ∧ 1 ∉ waits_on (th_task t3).
Proof.
  destruct d_busy_runs as (s & t0 & t1 & t2 & t3 & _ & Hr & Hv). exists s, [t0; t1; t2; t3], t2, t3.
  injection Hv as _ _ _ _ _ _ _ _ _ _ _ _ _ Hw2 _ _ _ _ Hw3 _.
  split; [exact Hr|]. split; [reflexivity|]. split; [reflexivity|]. split; [exact Hw2|]. split; [exact Hw3|].
  destruct (connections_exclusive d_config d_lives d_horizon s [t0; t1; t2; t3] d_runtime_built d_lives_caches Hr) as [Hx _].
  destruct (Hx 2 t2 eq_refl) as [_ Hw]. destruct (Hw 1) as (Ho & _ & Hne); [rewrite Hw2; left|].
  split; [exact Ho|]. intros Hin. by discriminate (Hne 3 t3 eq_refl Hin).
Defined.
