(* ===== verification/Drain.v ===== *)
(** * A server that is left alone drains

    Nothing keeps a task waiting for ever: whatever it waits for, the network of the
    upstreams or its client, it waits for under a timer.  Here the timers of [World]
    are put to use.  [work_step] is one step of the tasks there are, with time passing
    and no new requests; [quiet_step] is such a step when neither upstreams nor clients
    say anything any more, so that only timers end a wait.  Service always comes to an
    end, for the refreshes that requests spawn spawn none themselves; and with nothing
    but its timers a server gets every task to its end. *)
From S2P Require Import Prelude RustStr RustNet Error Hickory HickoryDemo External PublicIp.
From S2P Require Import DnsUtil Context Config DomainSet Matcher Upstream Shard Net Task Metrics.
From S2P Require Import Actions Ecs Hosts Cache CacheKey CacheHits Exchange Forward Fallback Sequence Graph.
From S2P Require Import Listener Runtime Server Api Ownership Main Safe World.

(** ** Waits that end by themselves *)
Section silence.
Context {H : Hickory}.

(** The replies to a wait when nobody answers: a timer fires, or the socket takes a
    datagram. *)
Fixpoint silent (a : await) : areply a → Prop :=
  match a return areply a → Prop with
  | ASendTo _ => λ _, True
  | ATimer _ a => λ r, match r with Some r => silent a r | None => True end
  | APar a b => λ r, match r with inl r => silent a r | inr r => silent b r end
  | _ => λ _, False
  end.

(** The instant at which a wait ends at the latest; [None]: it ends at once. *)
Fixpoint wakes (a : await) : option Z :=
  match a with ATimer d _ => Some d | APar a _ => wakes a | _ => None end.

(** Under a timer, or a datagram that is sent. *)
Definition limited_leaf (timed : bool) (a : await) : Prop :=
  timed = true ∨ match a with ASendTo _ => True | _ => False end.
Definition limited : await → Prop := awaits_all limited_leaf false.

Lemma speaks_limited o heard a : speaks o heard a → limited a.
Proof.
  apply awaits_all_mono; [|by left]. intros [] Hs; destruct o; cbn in Hs; try done; try by right.
  by destruct Hs.
Qed.

Lemma silent_brings a (r : areply a) : silent a r → await_brings a r = ∅.
Proof. induction a; cbn; try done; destruct r; auto. Qed.

Lemma limited_wakes a now :
  limited a → (∀ d, wakes a = Some d → (d ≤ now)%Z) → ∃ r, silent a r ∧ areply_ok a r ∧ due now a r.
Proof.
  unfold limited. induction a as [n|bytes|bytes|op|d a IH|a IHa b IHb]; cbn.
  - by intros [].
  - by intros [].
  - intros _ _. by exists (Ok tt).
  - by intros [].
  - intros _ Hd. exists None. split; [done|]. split; [done|]. by apply Hd.
  - intros [Ha _] Hd. destruct (IHa Ha Hd) as (r & Hr). by exists (inl r).
Qed.

(** ** Tasks that go on *)

(** What a task does next, whatever the reply. *)
Definition child (t' t : Thread) : Prop :=
  match t with Sync _ e k => ∃ r, t' = k r | Await _ a k => ∃ r, t' = k r | _ => False end.

Lemma child_wf : well_founded child.
Proof.
  intros t. induction t as [l a|l e k IH|l a k IH|msg|]; constructor; intros t' Hc;
    [destruct Hc|destruct Hc as [r ->]; apply IH|destruct Hc as [r ->]; apply IH|destruct Hc|destruct Hc].
Qed.

(** A refresh, which spawns nothing. *)
Definition barren (t : Spawned) : Prop := may_spawn (th_source t) = false.

(** One of the tasks goes on, and may leave refreshes behind. *)
Inductive progress : list Spawned → list Spawned → Prop :=
| progress_at l1 t l2 t' spawned :
    child (th_task t') (th_task t) → th_source t' = th_source t → Forall barren spawned →
    (barren t → spawned = []) → progress (l1 ++ t' :: l2 ++ spawned) (l1 ++ t :: l2).

(** Of a list of tasks, [t] goes on or another one does. *)
Lemma progress_inv l1 t l2 y :
  progress y (l1 ++ t :: l2) →
  (∃ t' spawned, y = l1 ++ t' :: l2 ++ spawned ∧ child (th_task t') (th_task t) ∧ th_source t' = th_source t
     ∧ Forall barren spawned ∧ (barren t → spawned = []))
  ∨ ∃ k1 k2, y = k1 ++ t :: k2 ∧ progress (k1 ++ k2) (l1 ++ l2).
Proof.
  intros Hp. inversion Hp as [k1 u k2 u' spawned Hc Hsrc Hsp Hb Hy E]. subst y.
  apply app_eq_inv in E as [(k & -> & E)|(k & -> & E)]; destruct k as [|v k]; cbn in E; injection E as <- E.
  - left. subst k2. exists u', spawned. by rewrite app_nil_r.
  - right. subst l2. exists l1, (k ++ u' :: k2 ++ spawned). split; [by rewrite <- (assoc_L (++))|].
    rewrite !(assoc_L (++) l1 k). by constructor.
  - left. subst k2. exists u', spawned. by rewrite app_nil_r.
  - right. subst k2. exists (k1 ++ u' :: k), (l2 ++ spawned). split; [by rewrite <- !(assoc_L (++))|].
    rewrite <- !(assoc_L (++)). cbn. rewrite (assoc_L (++) k). by constructor.
Qed.

(** A task put into a list that comes to an end comes to its end with it: a refresh,
    and then any task. *)
Lemma progress_insert (Q : Spawned → Prop) :
  (∀ t spawned l, Q t → Forall barren spawned → (barren t → spawned = []) → Acc progress l → Acc progress (l ++ spawned)) →
  ∀ t, (∀ t', th_source t' = th_source t → Q t') → ∀ l1 l2, Acc progress (l1 ++ l2) → Acc progress (l1 ++ t :: l2).
Proof.
  intros Hsp t. destruct t as [g o h t]. revert g h. induction (child_wf t) as [t _ IH]. intros g h HQ l1 l2 Hacc.
  remember (l1 ++ l2) as l eqn:El. revert l1 l2 El. induction Hacc as [l Hl IHl]. intros l1 l2 ->. constructor.
  intros y [(t' & spawned & -> & Hc & Hsrc & Hb & Hnone)|(k1 & k2 & -> & Hp)]%progress_inv; [|by eapply IHl].
  destruct t' as [g' o' h' t']. cbn in Hsrc, Hc. subst o'. apply (IH t' Hc); [done|].
  rewrite (assoc_L (++)). eapply Hsp; [by apply (HQ (mkSpawned g o h t))|done|exact Hnone|by constructor].
Qed.

Lemma progress_insert_barren t l1 l2 : barren t → Acc progress (l1 ++ l2) → Acc progress (l1 ++ t :: l2).
Proof.
  intros Ht. apply (progress_insert barren); [|intros t' E; unfold barren; by rewrite E].
  intros u spawned l Hu _ Hn. rewrite (Hn Hu), app_nil_r. done.
Qed.

Lemma progress_append spawned l : Forall barren spawned → Acc progress l → Acc progress (l ++ spawned).
Proof.
  intros Hs. revert l. induction Hs as [|u spawned Hu _ IH]; intros l Hl; [by rewrite app_nil_r|].
  apply progress_insert_barren; [done|]. by apply IH.
Qed.

Lemma progress_wf : well_founded progress.
Proof.
  intros ts. induction ts as [|t ts IH].
  - constructor. intros y Hy. remember [] as l eqn:E. destruct Hy as [l1]. by destruct l1.
  - apply (progress_insert (λ _, True)) with (l1 := []); [|done|done].
    intros u spawned l _ Hb _. by apply progress_append.
Qed.
End silence.

(** ** Service *)
Section drain.
Context {H : Hickory} {HL : HickoryLaws H} {HS : HickoryShow H} {N : IpNetLib} {Rx : RegexLib} {T : TlsLib} {Y : Yaml}.
Context {HT : HttpLib} {LI : ListenerLib} {O : HashOrder} {OL : HashOrderLaws O} {LL : LogLib} {W : WebLib}.
Context (live : nat → Runtime) (horizon : Z).
Notation World := (Shared * list Spawned)%type.

(** A task gets a reply for which nobody had to speak. *)
Definition thread_silent (s : Shared) (t : Spawned) (s' : Shared) (t' : Spawned) : Prop :=
  match th_task t with
  | Await _ a k => ∃ r, silent a r ∧ areply_ok a r ∧ due (sh_now s) a r
      ∧ s' = s ∧ t' = mkSpawned (th_gen t) (th_source t) (heard_after a r (th_heard t)) (k r)
  | _ => False
  end.

(** The tasks there are go on: a task makes an access, or gets a reply, before which
    time may pass. *)
Inductive work_step : World → World → Prop :=
| work_access s ts i t s' t' spawned :
    ts !! i = Some t → thread_access live s t s' t' spawned → work_step (s, ts) (s', <[i := t']> ts ++ spawned)
| work_resume s ts i t now s' t' :
    ts !! i = Some t → (sh_now s ≤ now ≤ horizon)%Z → thread_resume (with_now now s) t s' t' →
    work_step (s, ts) (s', <[i := t']> ts).

(** The same when upstreams and clients are silent. *)
Inductive quiet_step : World → World → Prop :=
| quiet_access s ts i t s' t' spawned :
    ts !! i = Some t → thread_access live s t s' t' spawned → quiet_step (s, ts) (s', <[i := t']> ts ++ spawned)
| quiet_resume s ts i t now s' t' :
    ts !! i = Some t → (sh_now s ≤ now ≤ horizon)%Z → thread_silent (with_now now s) t s' t' →
    quiet_step (s, ts) (s', <[i := t']> ts).

Lemma thread_silent_resume s t s' t' : thread_silent s t s' t' → thread_resume s t s' t'.
Proof.
  unfold thread_silent, thread_resume. destruct (th_task t); try done. intros (r & Hs & Ho & Hd & -> & ->).
  exists r. split; [done|]. split; [done|]. rewrite (silent_brings _ _ Hs). split; [set_solver|]. split; [|done].
  destruct s. unfold with_opened. cbn. f_equal. set_solver.
Qed.

Lemma quiet_work w w' : quiet_step w w' → work_step w w'.
Proof. intros []; [by eapply work_access|by eapply work_resume, thread_silent_resume]. Qed.

Lemma work_world w w' : work_step w w' → rtc (world_step live horizon) w w'.
Proof.
  intros []; [by eapply rtc_once, step_access|]. eapply rtc_l; [by apply step_time|]. by eapply rtc_once, step_resume.
Qed.

Lemma work_reachable w w' : reachable live horizon w → rtc work_step w w' → reachable live horizon w'.
Proof.
  intros (now & Hn & Hr) Hs. exists now. split; [done|]. etrans; [exact Hr|].
  induction Hs as [|w1 w2 w3 H1 _ IH]; [done|]. etrans; [by apply work_world|]. by apply IH; etrans; [exact Hr|apply work_world].
Qed.
(** An access the protocol allows leaves nothing but refreshes behind, and that of a
    refresh nothing. *)
Lemma access_barren o g e s r s' spawned : allowed live horizon o g e → access live g e s r s' spawned →
  Forall barren spawned ∧ (may_spawn o = false → spawned = []).
Proof.
  intros He Ha. destruct e; cbn in *; destruct_and?; try destruct Ha as (? & ? & Ha); destruct_and?; subst;
    try (split; [by repeat constructor|done]).
  split; [by repeat constructor|]. intros Ho. congruence.
Qed.

Lemma lookup_progress ts i t t' spawned :
  ts !! i = Some t → child (th_task t') (th_task t) → th_source t' = th_source t → Forall barren spawned →
  (barren t → spawned = []) → progress (<[i := t']> ts ++ spawned) ts.
Proof.
  intros Hi Hc Hs Hb Hn. rewrite <- (take_drop_middle ts i t Hi) at 2.
  rewrite (insert_take_drop ts i t') by (by eapply lookup_lt_Some). rewrite <- (assoc_L (++)). by constructor.
Qed.

(** One step of service is one of a task. *)
Lemma work_child w w' : world_inv live horizon w → work_step w w' →
  ∃ i t t' spawned, w.2 !! i = Some t ∧ w'.2 = <[i := t']> w.2 ++ spawned ∧ child (th_task t') (th_task t)
    ∧ th_source t' = th_source t ∧ Forall barren spawned ∧ (barren t → spawned = []).
Proof.
  intros [_ Hsafe _ _] Hst. destruct Hst as [s ts i t s' t' spawned Hi Ha|s ts i t now s' t' Hi _ Hr]; cbn [fst snd] in *.
  - exists i, t, t', spawned. split; [done|]. split; [done|].
    destruct (proj1 (Forall_lookup _ _) Hsafe _ _ Hi) as [_ Hs]. unfold thread_access, safe in *.
    destruct (th_task t) as [|l e k| | |]; try done. destruct Ha as (r & Ha & ->). destruct Hs as [He _].
    destruct (access_barren _ _ _ _ _ _ _ He Ha) as [Hb Hn]. split; [by exists r|done].
  - exists i, t, t', []. split; [done|]. split; [by rewrite app_nil_r|]. unfold thread_resume in Hr.
    destruct (th_task t) as [| |l a k| |]; try done. destruct Hr as (r & _ & _ & _ & _ & ->).
    split; [by exists r|done].
Qed.

Lemma work_progress w w' : world_inv live horizon w → work_step w w' → progress w'.2 w.2.
Proof.
  intros Hw Hst. destruct (work_child _ _ Hw Hst) as (i & t & t' & spawned & Hi & -> & Hc & Hs & Hb & Hn).
  by apply (lookup_progress _ _ t).
Qed.

Context (Hcaches : ∀ g, caches_wf (runtime_caches (live g)) horizon).

(** Service comes to an end. *)
Lemma work_acc w : world_inv live horizon w → Acc (flip work_step) w.
Proof.
  destruct w as [s ts]. revert s. induction (progress_wf ts) as [ts _ IH]. intros s Hw. constructor. intros [s' ts'] Hst.
  apply IH; [by apply (work_progress (s, ts) (s', ts'))|].
  pose proof (work_world _ _ Hst) as Hr. clear Hst IH. induction Hr as [w|w1 w2 w3 H1 _ IHr]; [done|].
  by apply IHr, (world_inv_step live horizon Hcaches w1).
Qed.

(** ** Silence *)

(** The instant at which the wait of a task ends at the latest. *)
Definition wakes_at (t : Spawned) : option Z := match th_task t with Await _ a _ => wakes a | _ => None end.

(** Every task has ended, and no key is marked as being refreshed; or a task waits for
    an instant beyond the horizon. *)
Definition drained (w : World) : Prop :=
  Forall (λ t, finished (th_task t) = true) w.2 ∧ ∀ g m, m ∉ marks_at w.1 g.
Definition outlives (w : World) : Prop := ∃ i t d, w.2 !! i = Some t ∧ wakes_at t = Some d ∧ (horizon < d)%Z.

(** A task that has not ended goes on by itself. *)
Lemma quiet_progress s ts i t :
  world_inv live horizon (s, ts) → ts !! i = Some t → finished (th_task t) = false →
  outlives (s, ts) ∨ ∃ w, quiet_step (s, ts) w.
Proof.
  intros [Hsh Hsafe _ _] Hi Hf. cbn [fst snd] in *. destruct (proj1 (Forall_lookup _ _) Hsafe _ _ Hi) as [_ Hs].
  unfold safe in Hs. destruct (th_task t) as [l a|l e k|l a k| |] eqn:Et; try done.
  - right. destruct Hs as [He _]. destruct (access_possible live horizon _ _ e s Hsh He) as (r & s' & spawned & Ha).
    eexists. eapply quiet_access; [exact Hi|]. unfold thread_access. rewrite Et. by exists r.
  - destruct Hs as [Ha _]. apply speaks_limited in Ha. pose proof (so_time _ _ _ Hsh) as Ht.
    assert (Hgo : ∀ now, (sh_now s ≤ now ≤ horizon)%Z → (∀ d, wakes a = Some d → (d ≤ now)%Z) → ∃ w, quiet_step (s, ts) w).
    { intros now Hn Hd. destruct (limited_wakes a now Ha Hd) as (r & Hsl & Hok & Hdue).
      eexists. eapply quiet_resume; [exact Hi|exact Hn|]. unfold thread_silent. rewrite Et. by exists r. }
    destruct (wakes a) as [d|] eqn:Ew; [|right; by apply (Hgo (sh_now s)); [lia|]].
    destruct (Z.le_gt_cases d horizon) as [Hd|Hd]; [right; apply (Hgo (Z.max (sh_now s) d)); [lia|]; intros d' [= <-]; lia|].
    left. exists i, t, d. split; [done|]. split; [|lia]. unfold wakes_at. by rewrite Et.
Qed.
End drain.

(** C8: a server that is left alone drains.  From every state it can reach: however
    its tasks go on, without new requests, they come to an end, there is no endless
    service, and no refresh that keeps starting another; and they never get stuck:
    even when no upstream and no client ever says a word again, in every state they
    come to either every task has ended and no key is marked as being refreshed, or
    some task can still go on by itself, with an access or because a timer fires.
    (A stream brings some number of messages, however large; a timer set beyond the
    horizon of the model counts as never firing.)  So no
    request and no refresh hangs, whatever an upstream or a client does. *)
Theorem server_drains {H : Hickory} {HL : HickoryLaws H} {HS : HickoryShow H} {N : IpNetLib} {Rx : RegexLib}
    {T : TlsLib} {Y : Yaml} {W : WebLib} {E : ConfigEnv} {HT : HttpLib} {L : ListenerLib} {O : HashOrder} {LL : LogLib}
    {OL : HashOrderLaws O} (cfg : Config) (live : nat → Runtime) (horizon : Z) (w : Shared * list Spawned) :
  runtime_build cfg = Some (Ok (live 0)) → (∀ g, caches_wf (runtime_caches (live g)) horizon) →
  reachable live horizon w →
  Acc (flip (work_step live horizon)) w
  ∧ ∀ w', rtc (quiet_step live horizon) w w' →
      drained w' ∨ outlives horizon w' ∨ ∃ w'', quiet_step live horizon w' w''.
Proof.
  intros Hb Hwf Hr. destruct (server_inv _ _ _ _ Hb Hwf Hr) as [Hw _]. split; [by apply work_acc|].
  intros w' Hq. assert (Hr' : reachable live horizon w').
  { apply (work_reachable _ _ w); [done|]. eapply rtc_subrel; [apply quiet_work|done]. }
  destruct (server_inv _ _ _ _ Hb Hwf Hr') as [Hw' _]. destruct w' as [s ts].
  destruct (decide (Forall (λ t, finished (th_task t) = true) ts)) as [Hall|Hsome].
  - left. split; [done|]. intros g m Hm.
    destruct (refresh_marks _ _ _ _ _ Hw' Hm) as (i & t & Hi & _ & Ht).
    pose proof (proj1 (Forall_lookup _ _) Hall _ _ Hi) as Hf. cbn in Hf.
    destruct Ht as [(r & _ & _ & Hf')|Hrun]; [congruence|]. by destruct (th_task t).
  - right. apply not_Forall_Exists in Hsome; [|apply _]. apply Exists_exists in Hsome as (t & [i Hi]%list_elem_of_lookup & Hf).
    apply not_true_is_false in Hf. by eapply quiet_progress.
Qed.

(** The busy server of [World], when its upstream falls silent. *)
Lemma server_drains_witness :
  ∃ w, reachable d_lives d_horizon w ∧ ¬ drained w ∧ Acc (flip (work_step d_lives d_horizon)) w
    ∧ (outlives d_horizon w ∨ ∃ w', quiet_step d_lives d_horizon w w').
Proof.
  destruct d_busy_runs as (s & t0 & t1 & t2 & t3 & _ & Hr & Hv). exists (s, [t0; t1; t2; t3]). split; [exact Hr|].
  assert (Hn : ¬ drained (s, [t0; t1; t2; t3])).
  { intros [Hall _]. injection Hv as _ _ _ _ _ _ _ Hf _ _ _ _ _ _ _ _ _ _ _ _.
    rewrite (proj1 (Forall_lookup _ _) Hall 1 t1 eq_refl) in Hf. discriminate Hf. }
  split; [exact Hn|].
  destruct (server_drains d_config d_lives d_horizon (s, [t0; t1; t2; t3]) d_runtime_built d_lives_caches Hr) as [Ha Hq].
  split; [exact Ha|]. destruct (Hq _ (rtc_refl _ _)) as [Hd|Ho]; [destruct (Hn Hd)|exact Ho].
Defined.
