(* ===== verification/Deadline.v ===== *)
(** * Every request is over in time

    The time limits of a query seen from outside.  In [World] time passes as it likes;
    here computing takes no time and timers fire on the instant ([prompt]): time does
    not pass while a task can run, nor beyond an instant some task waits for.  Then a
    datagram has its reply on the way, a request of the HTTPS listener its response,
    within the time limit of the listener; a query of the admin API and a refresh are
    over within five seconds. *)
From S2P Require Import Prelude RustStr RustNet Error Hickory HickoryDemo External PublicIp.
From S2P Require Import DnsUtil Context Config DomainSet Matcher Upstream Shard Net Task Metrics.
From S2P Require Import Actions Ecs Hosts Cache CacheKey CacheHits Exchange Forward Fallback Sequence Graph.
From S2P Require Import Listener Runtime Server Api Ownership Main Safe World Drain.

(** ** Tasks with a deadline *)
Section timely.
Context {H : Hickory}.

(** The clock shows [now]. *)
Definition clock (now : Z) (e : event) : reply e → Prop :=
  match e return reply e → Prop with ENow => λ r, r = now | _ => λ _, True end.

(** From the instant [now] on, all that the task waits for before it returns ends by
    the instant [D]; [K] holds of what it returns, and when. *)
Fixpoint timely {L A} (D now : Z) (t : task L A) (K : Z → L → A → Prop) : Prop :=
  match t with
  | Ret l a => K now l a
  | Sync _ e k => ∀ r, clock now e r → timely D now (k r) K
  | Await _ a k => (∃ d, wakes a = Some d ∧ (d ≤ D)%Z) ∧ ∀ r now', (now ≤ now' ≤ D)%Z → timely D now' (k r) K
  | Panic _ | OutOfFuel => True
  end.

(** No waiting at all. *)
Fixpoint swift {L A} (t : task L A) : Prop :=
  match t with
  | Sync _ _ k => ∀ r, swift (k r)
  | Await _ _ _ => False
  | _ => True
  end.
Definition swiftly {L A} (m : M L A) : Prop := ∀ l, swift (m l).

(** A computation that begins at [now] and is over by [D]. *)
Definition within_limit {L A} (D now : Z) (m : M L A) : Prop :=
  ∀ l (K : Z → L → A → Prop), (∀ now' l' a, (now ≤ now' ≤ D)%Z → K now' l' a) → timely D now (m l) K.

Lemma timely_mono {L A} D now (t : task L A) (K K' : Z → L → A → Prop) :
  timely D now t K → (∀ now' l a, (now ≤ now')%Z → K now' l a → K' now' l a) → timely D now t K'.
Proof.
  revert now. induction t as [l a|l e k IH|l a k IH| |]; intros now Ht HK; simpl in *; [by apply HK; [lia|]| | |done|done].
  - intros r Hr. by apply IH; [apply Ht|].
  - destruct Ht as [Hd Ht]. split; [done|]. intros r now' Hn. apply IH; [by apply Ht|].
    intros now2 l' a' Hle. apply HK. lia.
Qed.

Lemma timely_task_bind {L L' A B} D now (t : task L A) (f : L → A → task L' B) up K :
  timely D now t (λ now' l a, timely D now' (f l a) K) → timely D now (task_bind t f up) K.
Proof. revert now. induction t as [l a|l e k IH|l a k IH| |]; intros now Ht; simpl in *; naive_solver. Qed.

Lemma timely_swift {L A} D now (t : task L A) (K : Z → L → A → Prop) :
  swift t → (∀ l a, K now l a) → timely D now t K.
Proof. intros Ht HK. induction t; simpl in *; [auto|intros r _; auto|done..]. Qed.

(** A timer bounds whatever runs under it. *)
Lemma timely_until {L A} D d now (t : task L A) (K : Z → L → option A → Prop) :
  (d ≤ D)%Z → (now ≤ D)%Z → (∀ now' l o, (now ≤ now' ≤ D)%Z → K now' l o) → timely D now (until d t) K.
Proof.
  intros Hd. revert now. induction t as [l a|l e k IH|l a k IH| |]; intros now Hn HK; simpl; [apply HK; lia| | |done|done].
  - intros r _. by apply IH.
  - split; [by exists d|]. intros [r|] now' Hn'; [|by apply HK]. apply IH; [lia|]. intros. apply HK. lia.
Qed.

Lemma swift_task_bind {L L' A B} (t : task L A) (f : L → A → task L' B) up :
  swift t → (∀ l a, swift (f l a)) → swift (task_bind t f up).
Proof. intros Ht Hf. induction t; simpl in *; auto. Qed.
Lemma swiftly_bind {L A B} (m : M L A) (f : A → M L B) : swiftly m → (∀ a, swiftly (f a)) → swiftly (bind m f).
Proof. intros Hm Hf l. apply swift_task_bind; [apply Hm|]. intros l' a. apply Hf. Qed.
Lemma swiftly_bind_res {L A B} (m : M L (Res A)) (f : A → M L (Res B)) :
  swiftly m → (∀ a, swiftly (f a)) → swiftly (bind_res m f).
Proof. intros Hm Hf. apply swiftly_bind; [done|]. intros [a|e]; [apply Hf|by intros l]. Qed.
Lemma swiftly_ret {L A} (a : A) : swiftly (L := L) (ret a).
Proof. by intros l. Qed.
Lemma swiftly_modify {L} (f : L → L) : swiftly (modify f).
Proof. by intros l. Qed.
Lemma swiftly_get {L} : swiftly (get (L := L)).
Proof. by intros l. Qed.
Lemma swiftly_sync {L} e : swiftly (sync (L := L) e).
Proof. by intros l. Qed.

Lemma limit_swiftly {L A} D now (m : M L A) : (now ≤ D)%Z → swiftly m → within_limit D now m.
Proof. intros Hn Hm l K HK. apply timely_swift; [apply Hm|]. intros. apply HK. lia. Qed.
Lemma limit_before {L A B} D now (m : M L A) (f : A → M L B) :
  swiftly m → (∀ a, within_limit D now (f a)) → within_limit D now (bind m f).
Proof. intros Hm Hf l K HK. apply timely_task_bind, timely_swift; [apply Hm|]. intros l' a. by apply Hf. Qed.
Lemma limit_after {L A B} D now (m : M L A) (f : A → M L B) :
  within_limit D now m → (∀ a, swiftly (f a)) → within_limit D now (bind m f).
Proof.
  intros Hm Hf l K HK. apply timely_task_bind, Hm. intros now' l' a Hn. apply timely_swift; [apply Hf|]. intros. by apply HK.
Qed.
Lemma limit_within {L L' A} D now (m : M L' A) l' : within_limit D now m → within_limit (L := L) D now (within m l').
Proof. intros Hm l K HK. apply timely_task_bind, Hm. intros. by apply HK. Qed.

Lemma timer_at_le now d : (0 ≤ d)%Z → (now ≤ timer_at now d)%Z.
Proof. intros Hd. unfold timer_at, instant_add, secs. destruct (_ <=? _)%Z; cbn; lia. Qed.

Lemma limit_timeout {L A} D now d (m : M L A) :
  (0 ≤ d)%Z → (timer_at now d ≤ D)%Z → within_limit D now (timeout d m).
Proof.
  intros Hd HD l K HK r Hr. cbn in Hr. subst r. pose proof (timer_at_le now d Hd). apply timely_until; [done|lia|done].
Qed.
End timely.

#[export] Hint Resolve swiftly_ret swiftly_modify swiftly_get swiftly_sync : ferrum.

(** A computation without a wait, along its structure. *)
Ltac swift_auto :=
  repeat first
    [ progress intros | done | progress cbv zeta beta | solve [auto with ferrum nocore]
    | apply swiftly_bind_res | apply swiftly_bind | case_match ].

(** ** The requests *)
Section requests.
Context {H : Hickory} {N : IpNetLib} {Rx : RegexLib} {T : TlsLib} {Y : Yaml}.

Lemma swiftly_count {L} c : swiftly (L := L) (count c).
Proof. by intros l. Qed.
Lemma swiftly_new_ctx {L} q addr proto : swiftly (L := L) (new_ctx q addr proto).
Proof. unfold new_ctx. swift_auto. Qed.
#[local] Hint Resolve swiftly_count swiftly_new_ctx : ferrum.

Lemma swiftly_handle_finish : swiftly handle_finish.
Proof. unfold handle_finish, observe_query. swift_auto. Qed.
Lemma swiftly_handle_outcome r : swiftly (handle_outcome r).
Proof. unfold handle_outcome. swift_auto. Qed.
#[local] Hint Resolve swiftly_handle_finish swiftly_handle_outcome : ferrum.

(** Handling a query takes the time limit at most. *)
Lemma limit_handle rt entry limit D now : (0 ≤ limit)%Z → (timer_at now limit ≤ D)%Z → within_limit D now (handle rt entry limit).
Proof.
  intros Hl HD c. pose proof (timer_at_le now limit Hl) as Hn. unfold handle. destruct (classify_incoming (c_query c)).
  - intros K HK. apply HK. lia.
  - apply (limit_swiftly D now (do! modify (reject rc_NotImp) in handle_finish)); [lia|swift_auto].
  - apply (limit_before D now (modify (begin_pipeline entry))); [swift_auto|]. intros _.
    destruct (get_exec _ _) as [o|e]; [|apply limit_swiftly; [lia|swift_auto]].
    apply limit_after; [by apply limit_timeout|swift_auto].
Qed.

(** ... and so does what is built on it. *)
Lemma limit_handle_query rt entry now : within_limit (timer_at now (secs 5)) now (handle_query rt entry).
Proof. by apply limit_handle. Qed.
Lemma limit_live_handle live entry limit c now : (0 ≤ limit)%Z → within_limit (timer_at now limit) now (live_handle live entry limit c).
Proof.
  intros Hl. apply limit_before; [unfold live_get; swift_auto|]. intros rt. by apply limit_within, limit_handle.
Qed.

Lemma limit_refresh_task rt r now : within_limit (timer_at now (secs 5)) now (refresh_task rt r).
Proof.
  unfold refresh_task. apply limit_after; [|swift_auto]. unfold refresh_body. apply limit_before; [swift_auto|].
  intros [|]; [|apply limit_swiftly; [by apply timer_at_le|swift_auto]].
  apply limit_after; [apply limit_within, limit_handle_query|swift_auto].
Qed.

Lemma limit_doh_handle live entry limit peer body now :
  (0 ≤ limit)%Z → within_limit (timer_at now limit) now (doh_handle live entry limit peer body).
Proof.
  intros Hl. pose proof (timer_at_le now limit Hl). unfold doh_handle. destruct (decode_msg body); [|by apply limit_swiftly; [|swift_auto]].
  apply limit_before; [swift_auto|]. intros c. apply limit_after; [by apply limit_live_handle|swift_auto].
Qed.
End requests.
#[export] Hint Resolve swiftly_count swiftly_new_ctx : ferrum.

(** ** The admin API *)
Section api.
Context {H : Hickory} {HS : HickoryShow H} {N : IpNetLib} {Rx : RegexLib} {T : TlsLib} {Y : Yaml} {O : HashOrder} {W : WebLib}.

Lemma swiftly_cache_flush {L} c : swiftly (L := L) (cache_flush c).
Proof. unfold cache_flush. induction (seq 0 (ca_n_shards c)) as [|i rest IH]; cbn [foldr]; swift_auto. Qed.
Lemma swiftly_cache_len {L} c : swiftly (L := L) (cache_len c).
Proof.
  unfold cache_len. induction (seq 0 (ca_n_shards c)) as [|i rest IH]; cbn [foldr]; [swift_auto|].
  apply swiftly_bind; [swift_auto|]. intros n. apply swiftly_bind; [exact IH|swift_auto].
Qed.
#[local] Hint Resolve swiftly_cache_flush swiftly_cache_len : ferrum.

Lemma swiftly_plugins {L} st : swiftly (L := L) (plugins st).
Proof.
  unfold plugins. apply swiftly_bind; [|swift_auto]. generalize (hash_keys (rg_caches (rt_registry (st_live st)))).
  intros tags. induction tags as [|t tags IH]; cbn [cache_sizes]; [swift_auto|]. case_match; [|done].
  apply swiftly_bind; [swift_auto|]. intros n. apply swiftly_bind; [exact IH|swift_auto].
Qed.
Lemma swiftly_flush {L} rt h body : swiftly (L := L) (flush rt h body).
Proof.
  assert (Hall : ∀ caches tags, swiftly (L := L) (flush_all caches tags)).
  { intros caches tags. induction tags as [|t tags IH]; cbn [flush_all]; [swift_auto|]. case_match; [|done].
    apply swiftly_bind; [swift_auto|]. intros _. swift_auto. }
  unfold flush. swift_auto.
Qed.
#[local] Hint Resolve swiftly_plugins swiftly_flush : ferrum.

Lemma limit_query {L} rt req now : within_limit (L := L) (timer_at now (secs 5)) now (query rt req).
Proof.
  pose proof (timer_at_le now (secs 5) ltac:(done)). unfold query, query_run.
  repeat first [done | progress intros | apply limit_before; [swift_auto; fail|] | apply limit_after; [apply limit_within, limit_handle_query|swift_auto]
    | case_match | apply limit_swiftly; [lia|swift_auto]].
Qed.

Lemma limit_on_get {L} req (m : M L Response) D now : (now ≤ D)%Z → within_limit D now m → within_limit D now (on_get req m).
Proof.
  intros Hn Hm. unfold on_get. case_decide; [done|]. case_decide; [|apply limit_swiftly; [done|swift_auto]].
  apply limit_after; [done|swift_auto].
Qed.

Lemma limit_api_handle {L} version asset st req now :
  within_limit (L := L) (timer_at now (secs 5)) now (api_handle version asset st req).
Proof.
  pose proof (timer_at_le now (secs 5) ltac:(done)) as Hn.
  assert (Hs : ∀ m : M L Response, swiftly m → within_limit (timer_at now (secs 5)) now m) by (intros; by apply limit_swiftly).
  unfold api_handle, response_headers. apply limit_after; [|swift_auto]. case_match; [by apply Hs; swift_auto|].
  unfold api_routes, metrics_prom, stats.
  repeat (case_decide; [try (apply limit_on_get; [done|by apply Hs; swift_auto])|]); [| |by apply Hs; swift_auto].
  - unfold on_post. case_decide; [|apply Hs; swift_auto]. case_match; [|case_match; apply Hs; swift_auto].
    apply limit_after; [apply limit_query|swift_auto].
  - unfold on_post. apply Hs. swift_auto.
Qed.
End api.

(** ** Time limits in the running server *)
Section world.
Context {H : Hickory} {HS : HickoryShow H} {N : IpNetLib} {Rx : RegexLib} {T : TlsLib} {Y : Yaml}.
Context {HT : HttpLib} {LI : ListenerLib} {O : HashOrder} {LL : LogLib} {W : WebLib}.
Context (live : nat → Runtime) (horizon : Z).

(** The sending of a datagram, after which a task is over. *)
Definition sending (t : Thread) : Prop :=
  match t with Await _ a k => match a with ASendTo _ => True | _ => False end ∧ ∀ r, finished (k r) = true | _ => False end.

(** A task that by [D] has ended or is sending its reply. *)
Fixpoint in_time (D now : Z) (t : Thread) : Prop :=
  match t with
  | Sync _ e k => ∀ r, clock now e r → in_time D now (k r)
  | Await _ a k => sending t
      ∨ (∃ d, wakes a = Some d ∧ (d ≤ D)%Z) ∧ ∀ r now', (now ≤ now' ≤ D)%Z → in_time D now' (k r)
  | _ => True
  end.

Lemma in_time_bind {L A} D now (t : task L A) (f : L → A → Thread) up :
  timely D now t (λ now' l a, in_time D now' (f l a)) → in_time D now (task_bind t f up).
Proof.
  revert now. induction t as [l a|l e k IH|l a k IH| |]; intros now Ht; simpl in *; [done|naive_solver| |done|done].
  right. naive_solver.
Qed.

Lemma in_time_timely D now (t : Thread) : timely D now t (λ _ _ _, True) → in_time D now t.
Proof. revert now. induction t as [l a|l e k IH|l a k IH| |]; intros now Ht; simpl in *; [done|naive_solver| |done|done]. right. naive_solver. Qed.

(** A request (or refresh) and how long it may take. *)
Inductive request : Source → Thread → Z → Prop :=
| request_udp entry limit peer buf :
    (0 ≤ limit)%Z → request (FromDatagram buf) (udp_packet live entry limit peer buf tt) limit
| request_doh entry limit peer body :
    (0 ≤ limit)%Z → request FromHttp (thread_of (doh_handle live entry limit peer body tt)) limit
| request_api version asset st req : request FromApi (thread_of (api_handle version asset st req tt)) (secs 5)
| request_refresh g r : request (FromRefresh r) (refresh_task (live g) r tt) (secs 5).

Lemma request_limit_pos o t limit : request o t limit → (0 ≤ limit)%Z.
Proof. by intros []. Qed.

Lemma in_time_thread_of {A} (m : M unit A) D now : within_limit D now m → in_time D now (thread_of (m tt)).
Proof. intros Hm. apply in_time_bind, Hm. done. Qed.

Lemma in_time_udp_packet entry limit peer buf now :
  (0 ≤ limit)%Z → in_time (timer_at now limit) now (udp_packet live entry limit peer buf tt).
Proof.
  intros Hl. pose proof (timer_at_le now limit Hl) as Hn. unfold udp_packet. destruct (decode_msg buf) as [q|e]; [|done].
  assert (Hsend : ∀ now' c l, in_time (timer_at now limit) now' (udp_send c l)).
  { intros now' c l. unfold udp_send. destruct (c_response c); [|done]. case_match; [|done]. left. by split. }
  destruct (classify_incoming q); [done|..];
    (apply in_time_bind, timely_swift; [apply swiftly_new_ctx|]; intros l c); [apply Hsend|].
  apply in_time_bind, limit_live_handle; [done|]. intros now' l' [c' [[]|e]] _; [apply Hsend|done].
Qed.

Lemma request_in_time o t limit now : request o t limit → in_time (timer_at now limit) now t.
Proof.
  intros [].
  - by apply in_time_udp_packet.
  - by apply in_time_thread_of, limit_doh_handle.
  - apply in_time_thread_of, limit_api_handle.
  - by apply in_time_timely, limit_refresh_task.
Qed.

(** Time waits for the tasks: it does not pass while one of them can run, nor beyond
    the instant at which the wait of one of them ends at the latest. *)
Notation World := (Shared * list Spawned)%type.
Definition patient (now : Z) (t : Spawned) : Prop :=
  running (th_task t) = false ∧ ∀ d, wakes_at t = Some d → (now ≤ d)%Z.
Definition prompt (w w' : World) : Prop :=
  world_step live horizon w w' ∧ (sh_now w'.1 = sh_now w.1 ∨ Forall (patient (sh_now w'.1)) w.2).

(** A task that will be over by [D]: over already, or [D] is still to come. *)
Definition over (t : Thread) : Prop :=
  match t with Ret _ _ | Panic _ | OutOfFuel => True | _ => sending t end.
Definition on_time (D now : Z) (t : Thread) : Prop := in_time D now t ∧ (over t ∨ (now ≤ D)%Z).

Lemma access_now g e s r s' spawned : access live g e s r s' spawned → sh_now s' = sh_now s ∧ clock (sh_now s) e r.
Proof. destruct e; cbn; intros Ha; destruct_and?; try destruct Ha as (? & ? & Ha); destruct_and?; by subst. Qed.

Lemma on_time_access D s t s' t' spawned :
  on_time D (sh_now s) (th_task t) → thread_access live s t s' t' spawned →
  sh_now s' = sh_now s ∧ on_time D (sh_now s) (th_task t').
Proof.
  unfold on_time, thread_access. intros [Ht Ho]. destruct (th_task t) as [|l e k| | |]; try done.
  intros (r & Ha & ->). destruct (access_now _ _ _ _ _ _ Ha) as [-> Hc]. split; [done|]. cbn in *.
  split; [by apply Ht|]. destruct Ho as [[]|Ho]. by right.
Qed.

Lemma on_time_resume D s t s' t' :
  on_time D (sh_now s) (th_task t) → thread_resume s t s' t' →
  sh_now s' = sh_now s ∧ on_time D (sh_now s) (th_task t').
Proof.
  unfold on_time, thread_resume. intros [Ht Ho]. destruct (th_task t) as [| |l a k| |]; try done.
  intros (r & _ & _ & _ & -> & ->). split; [done|]. cbn [in_time over th_task] in *.
  assert (Hend : sending (Await l a k) → on_time D (sh_now s) (k r)).
  { intros [_ Hk]. specialize (Hk r). destruct (k r); try done. by repeat split; left. }
  destruct Ho as [Ho|Ho]; [by apply Hend|]. destruct Ht as [Ht|[_ Ht]]; [by apply Hend|].
  split; [by apply Ht; lia|by right].
Qed.

Lemma on_time_later D now now' t :
  on_time D now (th_task t) → (now ≤ now')%Z → patient now' t → on_time D now' (th_task t).
Proof.
  unfold on_time, patient, wakes_at. intros [Ht Ho] Hn [Hr Hd]. destruct (th_task t) as [l a|l e k|l a k| |]; try done.
  - split; [done|by left].
  - cbn [in_time over] in *. destruct Ht as [Hs|[(d & Hw & Hle) Hk]]; [by split; left|].
    specialize (Hd d Hw). split; [|right; lia]. right. split; [by exists d|]. intros r now2 ?. apply Hk. lia.
  - split; [done|by left].
  - split; [done|by left].
Qed.

Lemma on_time_prompt D i w w' :
  prompt w w' → (∃ t, w.2 !! i = Some t ∧ on_time D (sh_now w.1) (th_task t)) →
  ∃ t, w'.2 !! i = Some t ∧ on_time D (sh_now w'.1) (th_task t).
Proof.
  intros [Hst Hp] (t & Hi & Ht).
  destruct Hst as [s ts now Hn|s ts j u s' u' spawned Hj Ha|s ts j u s' u' Hj Hr|s ts o u Ha|s ts files path Hrl]; cbn [fst snd] in *.
  - exists t. split; [done|]. destruct Hp as [Hp|Hp]; [cbn in *; by rewrite Hp|].
    eapply on_time_later; [done|cbn; lia|]. by apply (proj1 (Forall_lookup _ _) Hp i).
  - assert (Hnow : sh_now s' = sh_now s).
    { unfold thread_access in Ha. destruct (th_task u); try done. destruct Ha as (r & Ha & _). by apply access_now in Ha as [? _]. }
    rewrite Hnow. destruct (decide (i = j)) as [<-|Hij].
    + rewrite Hi in Hj. injection Hj as <-. exists u'. split; [|by eapply on_time_access].
      apply lookup_app_l_Some, list_lookup_insert_eq. by eapply lookup_lt_Some.
    + exists t. split; [|done]. apply lookup_app_l_Some. by rewrite list_lookup_insert_ne.
  - assert (Hnow : sh_now s' = sh_now s).
    { unfold thread_resume in Hr. destruct (th_task u); try done. by destruct Hr as (r & _ & _ & _ & -> & _). }
    rewrite Hnow. destruct (decide (i = j)) as [<-|Hij].
    + rewrite Hi in Hj. injection Hj as <-. exists u'. split; [|by eapply on_time_resume].
      apply list_lookup_insert_eq. by eapply lookup_lt_Some.
    + exists t. split; [|done]. by rewrite list_lookup_insert_ne.
  - exists t. split; [|done]. by apply lookup_app_l_Some.
  - by exists t.
Qed.

Lemma on_time_run D i w w' :
  rtc prompt w w' → (∃ t, w.2 !! i = Some t ∧ on_time D (sh_now w.1) (th_task t)) →
  ∃ t, w'.2 !! i = Some t ∧ on_time D (sh_now w'.1) (th_task t).
Proof. induction 1 as [|w1 w2 w3 H1 _ IH]; [done|]. intros Ht. by eapply IH, on_time_prompt. Qed.

Lemma prompt_reachable w w' : reachable live horizon w → rtc prompt w w' → reachable live horizon w'.
Proof. intros (now & Hn & Hr) Hp. exists now. split; [done|]. etrans; [exact Hr|]. eapply rtc_subrel; [|exact Hp]. by intros ?? []. Qed.

(** A history in which no time passes is prompt. *)
Lemma world_step_now w w' : world_step live horizon w w' → (sh_now w.1 ≤ sh_now w'.1)%Z.
Proof.
  intros Hst. destruct Hst as [s ts now Hn|s ts j u s' u' spawned _ Ha|s ts j u s' u' _ Hr| |]; cbn [fst snd]; [cbn; lia| | |done..].
  - unfold thread_access in Ha. destruct (th_task u); try done. destruct Ha as (r & Ha & _). by apply access_now in Ha as [-> _].
  - unfold thread_resume in Hr. destruct (th_task u); try done. by destruct Hr as (r & _ & _ & _ & -> & _).
Qed.

Lemma still_prompt w w' : rtc (world_step live horizon) w w' → (sh_now w'.1 ≤ sh_now w.1)%Z → rtc prompt w w'.
Proof.
  induction 1 as [|w1 w2 w3 H1 Hr IH]; intros Hn; [done|].
  assert (H3 : (sh_now w2.1 ≤ sh_now w3.1)%Z).
  { clear -Hr. induction Hr as [|x y z Hxy _ IH]; [done|]. pose proof (world_step_now _ _ Hxy). lia. }
  pose proof (world_step_now _ _ H1). eapply rtc_l; [split; [exact H1|left; lia]|]. apply IH. lia.
Qed.
End world.

(** C9: requests are over in time.  A datagram that arrives at a UDP listener has
    been dropped, answered, or has its reply on the way to the socket, within the time
    limit of the listener; a request to the HTTPS listener has its response within
    that limit; a request to the admin API, and a refresh of a cache entry, are over
    within five seconds: all whatever the other tasks do, whatever requests and
    reloads come in the meantime, and whatever the upstreams say, or do not say, so
    long as computing takes no time and timers fire on the instant.  (A limit too
    large for the clock is thirty years, as the timer has it.) *)
Theorem requests_in_time {H : Hickory} {HL : HickoryLaws H} {HS : HickoryShow H} {N : IpNetLib} {Rx : RegexLib}
    {T : TlsLib} {Y : Yaml} {W : WebLib} {E : ConfigEnv} {HT : HttpLib} {L : ListenerLib} {O : HashOrder} {LL : LogLib}
    {OL : HashOrderLaws O} (cfg : Config) (live : nat → Runtime) (horizon : Z) (s s' : Shared) (ts ts' : list Spawned)
    (g : nat) (o : Source) (hd : list Z) (t : Thread) (limit : Z) :
  runtime_build cfg = Some (Ok (live 0)) → (∀ g, caches_wf (runtime_caches (live g)) horizon) →
  request live o t limit → reachable live horizon (s, ts ++ [mkSpawned g o hd t]) →
  rtc (prompt live horizon) (s, ts ++ [mkSpawned g o hd t]) (s', ts') →
  ∃ t', ts' !! length ts = Some t'
    ∧ (finished (th_task t') = true ∨ sending (th_task t') ∨ (sh_now s' ≤ timer_at (sh_now s) limit)%Z).
Proof.
  intros Hb Hwf Hreq Hr Hp.
  destruct (on_time_run live horizon (timer_at (sh_now s) limit) (length ts) _ _ Hp) as (t' & Ht' & _ & Ho).
  { exists (mkSpawned g o hd t). split; [by apply list_lookup_middle|]. split; [by eapply request_in_time|].
    right. by eapply timer_at_le, request_limit_pos. }
  exists t'. split; [done|]. destruct Ho as [Ho|Ho]; [|by right; right].
  destruct (server_inv _ _ _ _ Hb Hwf (prompt_reachable _ _ _ _ Hr Hp)) as [[_ Hsafe _ _] _]. cbn [fst snd] in *.
  destruct (proj1 (Forall_lookup _ _) Hsafe _ _ Ht') as [_ Hs]. unfold safe in Hs.
  destruct (th_task t'); cbn in *; [by left|done|by right; left|done|done].
Qed.

(** A datagram of the demo server whose upstream says nothing, at the very end of its
    five seconds. *)
Definition d_start : Shared := (world_init d_lives 0).1.
Definition d_request : Thread := udp_packet d_lives "main" (secs 5) (V4 2130706433%Z) d_datagram tt.
Definition d_arrived : Shared * list Spawned := (d_start, [] ++ [mkSpawned 0 (FromDatagram d_datagram) [] d_request]).
Lemma d_start_reachable : d_reachable (d_start, []).
Proof. exists 0%Z. split; [split; [done|by apply Z.leb_le]|constructor]. Qed.
Lemma d_arrived_step : world_step d_lives d_horizon (d_start, []) d_arrived.
Proof. apply (step_arrive _ _ d_start []), arrive_udp. Qed.
Lemma d_request_ok : request d_lives (FromDatagram d_datagram) d_request (secs 5).
Proof. by apply request_udp, Z.leb_le. Qed.
Definition d_patient (now : Z) (t : Spawned) : bool :=
  negb (running (th_task t)) && match wakes_at t with Some d => (now <=? d)%Z | None => true end.
Lemma d_patient_ok now ts : forallb (d_patient now) ts = true → Forall (patient now) ts.
Proof.
  rewrite forallb_elem, Forall_forall. intros Hall t [Hr%negb_true_iff Hd]%Hall%andb_true_iff. split; [done|].
  intros d Hw. rewrite Hw in Hd. by apply Z.leb_le.
Qed.

Lemma d_drive_steps n m i w w' : d_drive n m i w = Some w' → rtc (world_step d_lives d_horizon) w w'.
Proof. apply drive_steps. Qed.
Lemma d_overdue : ∃ s' t', rtc (prompt d_lives d_horizon) d_arrived (s', [t'])
  ∧ waiting (th_task t') = true ∧ is_Some (wakes_at t') ∧ sh_now s' = secs 5.
Proof.
  assert (Hv : match d_drive 100 0 0 d_arrived with
               | Some (s, [t]) => forallb (d_patient (secs 5)) [t] && waiting (th_task t)
                   && bool_decide (is_Some (wakes_at t)) && bool_decide (sh_now s = 0%Z)
               | _ => false end = true) by by vm_compute.
  destruct (d_drive 100 0 0 d_arrived) as [[s [|t [|]]]|] eqn:Ed; try discriminate Hv.
  apply d_drive_steps in Ed. rewrite !andb_true_iff, !bool_decide_eq_true in Hv. destruct Hv as [[[Hp Hw] Hk] Hn].
  exists (with_now (secs 5) s), t. split; [|done]. eapply rtc_r.
  - apply still_prompt; [exact Ed|]. cbn [fst]. rewrite Hn. reflexivity.
  - split; [apply step_time; rewrite Hn; split; [done|by apply Z.leb_le]|]. right. by apply d_patient_ok.
Qed.

Lemma requests_in_time_witness :
  ∃ s' t', rtc (prompt d_lives d_horizon) d_arrived (s', [t'])
    ∧ waiting (th_task t') = true ∧ sh_now s' = secs 5 ∧ (sh_now s' ≤ timer_at (sh_now d_start) (secs 5))%Z.
Proof.
  destruct d_overdue as (s' & t' & Hr & Hw & Hk & Hn). exists s', t'. split; [exact Hr|]. split; [exact Hw|]. split; [exact Hn|].
  destruct (requests_in_time d_config d_lives d_horizon d_start s' [] [t'] 0 _ [] d_request (secs 5) d_runtime_built
    d_lives_caches d_request_ok (d_step_reachable _ _ d_start_reachable d_arrived_step) Hr) as (t & Ht & Ho).
  injection Ht as <-. destruct Ho as [Hf|[Hs|Hle]]; [| |exact Hle]; exfalso; destruct Hk as [d Hk]; unfold wakes_at in Hk;
    destruct (th_task t') as [l a|l e k|l a k| |]; try discriminate.
  destruct Hs as [Ha _]. destruct a; try exact Ha; discriminate.
Defined.
