(* ===== verification/Front.v ===== *)
(** * The server from its listeners on

    [Live::serve] starts the listeners of the configuration; what they receive or
    accept becomes the tasks of the server.  [front_step] puts [Accept] and [World]
    together: the listeners, each with its permits, its sessions or its queue of
    handshakes, next to the tasks and the state they share.  A stream that is served
    is one of the tasks, by its number in the list.

    What this server does is something [World] allows, and what each of its listeners
    does is something [Accept] allows, so the theorems of both hold of it
    ([start_serves]). *)
From S2P Require Import Prelude RustStr RustNet Error Hickory HickoryDemo External PublicIp.
From S2P Require Import DnsUtil Context Config DomainSet Matcher Upstream Shard Net Task Metrics.
From S2P Require Import Actions Ecs Hosts Cache CacheKey CacheHits Exchange Forward Fallback Sequence Graph.
From S2P Require Import Listener Runtime Server Accept Api Ownership Main Safe World Drain.

(** ** The tasks that serve streams *)
Section numbers.
Context {H : Hickory}.

(** The numbers, from [i] on, of the tasks that serve streams. *)
Fixpoint streams_from (i : nat) (sources : list Source) : list nat :=
  match sources with
  | [] => []
  | FromStream :: sources => i :: streams_from (S i) sources
  | _ :: sources => streams_from (S i) sources
  end.
Definition streams (ts : list Spawned) : list nat := streams_from 0 (th_source <$> ts).

Lemma streams_from_app i a b : streams_from i (a ++ b) = streams_from i a ++ streams_from (i + length a) b.
Proof.
  revert i. induction a as [|o a IH]; intros i; cbn [app streams_from length]; [by rewrite Nat.add_0_r|].
  rewrite IH, Nat.add_succ_comm. by destruct o.
Qed.

Lemma streams_app ts new : streams (ts ++ new) = streams ts ++ streams_from (length ts) (th_source <$> new).
Proof. unfold streams. by rewrite fmap_app, streams_from_app, length_fmap. Qed.

Lemma streams_from_other i new : Forall (λ t, th_source t ≠ FromStream) new → streams_from i (th_source <$> new) = [].
Proof. intros Hn. revert i. induction Hn as [|t new Ht _ IH]; intros i; [done|]. cbn. destruct (th_source t); [apply IH|done|apply IH..]. Qed.

Lemma streams_insert ts j t t' : ts !! j = Some t → th_source t' = th_source t → streams (<[j := t']> ts) = streams ts.
Proof. intros Hj E. unfold streams. rewrite list_fmap_insert, E, list_insert_id; [done|]. by rewrite list_lookup_fmap, Hj. Qed.

Lemma streams_from_elem i j os : j ∈ streams_from i os ↔ i ≤ j ∧ os !! (j - i) = Some FromStream.
Proof.
  revert i. induction os as [|o os IH]; intros i; cbn [streams_from]; [set_solver|].
  assert (Hs : j ∈ streams_from (S i) os ↔ i < j ∧ (o :: os) !! (j - i) = Some FromStream).
  { rewrite IH. split; intros [? Hl]; (split; [lia|]); (replace (j - i) with (S (j - S i)) in * by lia); exact Hl. }
  assert (Hi : i ≤ j ↔ i = j ∨ i < j) by lia.
  destruct o; rewrite ?elem_of_cons, Hs, Hi; (split; [intros [?|[? ?]] || intros [? ?]|intros [[->|?] Hl]]);
    try (by subst; rewrite ?Nat.sub_diag; auto); auto; rewrite Nat.sub_diag in Hl; done.
Qed.

Lemma streams_from_nodup i os : NoDup (streams_from i os).
Proof.
  revert i. induction os as [|o os IH]; intros i; cbn [streams_from]; [constructor|]. destruct o; try apply IH.
  constructor; [|apply IH]. rewrite streams_from_elem. lia.
Qed.
End numbers.

Section front.
Context {H : Hickory} {HS : HickoryShow H} {N : IpNetLib} {Rx : RegexLib} {T : TlsLib} {Y : Yaml}.
Context {HT : HttpLib} {LI : ListenerLib} {O : HashOrder} {LL : LogLib} {W : WebLib} {B : Base64Lib}.
(** The runtimes, the messages a stream may bring, and the address of the admin API. *)
Context (live : nat → Runtime) (horizon : Z) (n : nat) (api : option string).
Notation World := (Shared * list Spawned)%type.

(** ** Listeners *)

(** A listener at work.  Of an HTTPS listener, the handshakes and the peers of the
    connections it has handed to [axum]; a plain HTTP one has no handshakes. *)
Inductive Listening : Type :=
| LUdp (entry : string) (limit : Z)
| LStream (cfg : StreamSettings) (s : StreamListener nat)
| LDoh (l : ListenerConfig) (entry : string) (limit : Z) (tls : bool) (queue : list Pending) (peers : list SocketAddr).

(** A listener of the plan of [serve] when it is started, its address being bound. *)
Definition listen (p : string * Z * ListenerConfig) : Res Listening :=
  let '(entry, limit, l) := p in
  let? service := spawn_listener l in
  match service with
  | ServeUdp _ _ => Ok (LUdp entry limit)
  | ServeTcp _ idle => Ok (LStream (mkStreamSettings live entry limit (secs idle) ProtoTcp false) listener_start)
  | ServeTls _ idle _ => Ok (LStream (mkStreamSettings live entry limit (secs idle) ProtoTls true) listener_start)
  | ServeDoh l =>
      let? (_, acceptor) := spawn_doh l in
      Ok (LDoh l entry limit (bool_decide (is_Some acceptor)) [] [])
  end.

(** The task of a stream that begins to be served. *)
Definition stream_task (cfg : StreamSettings) (g : nat) (peer : IpAddr) : Spawned :=
  mkSpawned g FromStream [] (thread_of (serve_stream cfg n peer)).
(** Which stream begins when a socket is accepted: without TLS, that one. *)
Definition begins (cfg : StreamSettings) (accepted : result IoError IpAddr) : option IpAddr :=
  if ss_tls cfg then None else result_ok accepted.
Definition begins_secured (peer : IpAddr) (r : option (result string unit)) : option IpAddr :=
  match r with Some (Ok _) => Some peer | _ => None end.
Definition begin_streams (cfg : StreamSettings) (g : nat) (peer : option IpAddr) : list Spawned :=
  match peer with Some peer => [stream_task cfg g peer] | None => [] end.

(** ** Steps *)
Notation House := (World * list Listening)%type.

Inductive front_step : House → House → Prop :=
| front_time s ts ls now : (sh_now s ≤ now ≤ horizon)%Z → front_step (s, ts, ls) (with_now now s, ts, ls)
| front_work w w' ls : work_step live horizon w w' → front_step (w, ls) (w', ls)
| front_reload s ts ls (files : ConfigEnv) path :
    reload_file (live (sh_live s)) path = Some (live (S (sh_live s)), Ok tt) → front_step (s, ts, ls) (swapped live s, ts, ls)
| front_datagram s ts ls k entry limit buf peer m :
    ls !! k = Some (LUdp entry limit) → udp_loop live entry limit [Ok (buf, peer)] = [m] →
    front_step (s, ts, ls) (s, ts ++ [mkSpawned (sh_live s) (FromDatagram buf) [] (m tt)], ls)
| front_accept s ts ls k cfg l accepted :
    ls !! k = Some (LStream cfg l) →
    front_step (s, ts, ls) (s, ts ++ begin_streams cfg (sh_live s) (begins cfg accepted),
      <[k := LStream cfg (on_accept cfg (λ _, length ts) accepted l)]> ls)
| front_handshake s ts ls k cfg l i peer r :
    ls !! k = Some (LStream cfg l) → sl_sessions l !! i = Some (Handshaking peer) →
    front_step (s, ts, ls) (s, ts ++ begin_streams cfg (sh_live s) (begins_secured peer r),
      <[k := LStream cfg (on_handshake (λ _, length ts) i peer r l)]> ls)
| front_connect w ls k l entry limit queue peers addr :
    ls !! k = Some (LDoh l entry limit false queue peers) →
    front_step (w, ls) (w, <[k := LDoh l entry limit false queue (peers ++ [addr])]> ls)
| front_round w ls k l entry limit queue peers queue' out :
    ls !! k = Some (LDoh l entry limit true queue peers) → accept_round queue queue' out →
    front_step (w, ls) (w, <[k := LDoh l entry limit true queue' (peers ++ option_list out)]> ls)
| front_handshake_ends w ls k l entry limit queue peers i addr r :
    ls !! k = Some (LDoh l entry limit true queue peers) → queue !! i = Some (mkPending addr None) →
    front_step (w, ls) (w, <[k := LDoh l entry limit true (<[i := mkPending addr (Some (handshake_outcome r))]> queue) peers]> ls)
| front_http s ts ls k l entry limit tls queue peers addr method path query body m :
    ls !! k = Some (LDoh l entry limit tls queue peers) → addr ∈ peers →
    doh_app l live entry limit (sa_ip addr) method path query body = Some m →
    front_step (s, ts, ls) (s, ts ++ [mkSpawned (sh_live s) FromHttp [] (thread_of (m tt))], ls)
| front_api s ts ls version asset st req :
    is_Some api → st_live st = live (sh_live s) →
    front_step (s, ts, ls) (s, ts ++ [mkSpawned (sh_live s) FromApi [] (thread_of (api_handle version asset st req tt))], ls).

(** ** Streams and their tasks *)

(** The tasks that serve the sessions of the listeners. *)
Definition served_by (s : StreamListener nat) : list nat :=
  omap (λ x, match x with Serving _ i => Some i | _ => None end) (sl_sessions s).
Definition all_served (ls : list Listening) : list nat :=
  x ← ls; match x with LStream _ s => served_by s | _ => [] end.

(** A session, and the same session with its task at hand. *)
Definition session_runs (ts : list Spawned) (x : Session nat) (y : Session (task unit (Res bool))) : Prop :=
  match x, y with
  | Handshaking peer, Handshaking peer' => peer = peer'
  | Serving peer i, Serving peer' t => peer = peer' ∧ ∃ th, ts !! i = Some th ∧ th_source th = FromStream ∧ th_task th = thread_of t
  | Ended r, Ended r' => r = r'
  | _, _ => False
  end.

(** A listener does what [Accept] allows. *)
Definition listener_runs (ts : list Spawned) (cfg : StreamSettings) (s : StreamListener nat) : Prop :=
  ∃ s', listener_reachable cfg n s' ∧ sl_permits s = sl_permits s'
    ∧ Forall2 (session_runs ts) (sl_sessions s) (sl_sessions s').

(** *** Numbers *)

Lemma streams_begin ts cfg g peer :
  streams (ts ++ begin_streams cfg g peer) = streams ts ++ (match peer with Some _ => [length ts] | None => [] end).
Proof. rewrite streams_app. by destruct peer. Qed.

Lemma all_served_insert ls k x x' new :
  ls !! k = Some x → all_served [x'] ≡ₚ all_served [x] ++ new → all_served (<[k := x']> ls) ≡ₚ all_served ls ++ new.
Proof.
  intros Hk Hx. rewrite <- (take_drop_middle ls k x Hk) at 2. rewrite (insert_take_drop ls k x') by (by eapply lookup_lt_Some).
  unfold all_served in *. rewrite !bind_app. cbn in *. rewrite !app_nil_r in Hx. rewrite Hx, <- !(assoc_L (++)).
  do 2 f_equiv. apply Permutation_app_comm.
Qed.

Lemma served_accept cfg m a s :
  served_by (on_accept cfg (λ _, m) a s) = served_by s ++ (match begins cfg a with Some _ => [m] | None => [] end).
Proof.
  unfold served_by, on_accept, begins. destruct a as [peer|e], (ss_tls cfg); cbn; try by rewrite app_nil_r.
  - destruct (sl_permits s); [by rewrite app_nil_r|]. cbn. by rewrite omap_app.
  - by rewrite omap_app.
Qed.

Lemma served_handshake m i peer r s :
  sl_sessions s !! i = Some (Handshaking peer) →
  served_by (on_handshake (λ _, m) i peer r s) ≡ₚ served_by s ++ (match begins_secured peer r with Some _ => [m] | None => [] end).
Proof.
  intros Hi. unfold served_by, on_handshake. cbn [sl_sessions]. rewrite <- (take_drop_middle _ _ _ Hi) at 2.
  rewrite (insert_take_drop _ i) by (by eapply lookup_lt_Some). rewrite !omap_app. cbn.
  destruct r as [[u|e]|]; cbn; rewrite ?app_nil_r; [|done|done]. rewrite <- (assoc_L (++)). f_equiv. apply Permutation_cons_append.
Qed.

(** *** Sessions *)

Lemma session_runs_app ts new x y : session_runs ts x y → session_runs (ts ++ new) x y.
Proof.
  destruct x, y; cbn; try done. intros (-> & t & Hi & Ht). split; [done|]. exists t. split; [by apply lookup_app_l_Some|done].
Qed.

Lemma listener_runs_start ts cfg : listener_runs ts cfg listener_start.
Proof. exists listener_start. split; [apply rtc_refl|]. by split. Qed.

Lemma listener_runs_app ts new cfg s : listener_runs ts cfg s → listener_runs (ts ++ new) cfg s.
Proof.
  intros (s' & Hr & Hp & Hs). exists s'. split; [done|]. split; [done|].
  eapply Forall2_impl; [exact Hs|]. intros. by apply session_runs_app.
Qed.

Lemma stream_runs ts cfg g peer : session_runs (ts ++ [stream_task cfg g peer]) (Serving peer (length ts)) (Serving peer (serve_stream cfg n peer)).
Proof. split; [done|]. eexists. split; [by apply list_lookup_middle|done]. Qed.

Lemma listener_runs_accept ts cfg g a s :
  listener_runs ts cfg s → listener_runs (ts ++ begin_streams cfg g (begins cfg a)) cfg (on_accept cfg (λ _, length ts) a s).
Proof.
  intros Hl. apply (listener_runs_app _ (begin_streams cfg g (begins cfg a))) in Hl. destruct Hl as (s' & Hr & Hp & Hs).
  exists (on_accept cfg (serve_stream cfg n) a s'). split; [by eapply rtc_r, step_accept|].
  unfold begins, on_accept in *. destruct a as [peer|e]; [|done]. destruct (ss_tls cfg).
  - rewrite <- Hp. destruct (sl_permits s) eqn:E; [by rewrite E|]. split; [done|]. cbn [sl_sessions]. apply Forall2_app; [done|].
    by constructor.
  - split; [done|]. cbn [sl_sessions]. apply Forall2_app; [done|]. constructor; [apply stream_runs|constructor].
Qed.

Lemma listener_runs_handshake ts cfg g i peer r s :
  sl_sessions s !! i = Some (Handshaking peer) → listener_runs ts cfg s →
  listener_runs (ts ++ begin_streams cfg g (begins_secured peer r)) cfg (on_handshake (λ _, length ts) i peer r s).
Proof.
  intros Hi Hl. apply (listener_runs_app _ (begin_streams cfg g (begins_secured peer r))) in Hl. destruct Hl as (s' & Hr & Hp & Hs).
  destruct (Forall2_lookup_l _ _ _ _ _ Hs Hi) as (y & Hi' & Hy). destruct y as [peer'| |]; try done. cbn in Hy. subst peer'.
  exists (on_handshake (serve_stream cfg n) i peer r s'). split; [by eapply rtc_r, step_handshake|].
  unfold on_handshake. cbn [sl_permits sl_sessions]. split; [by f_equal|]. apply Forall2_insert; [done|].
  destruct r as [[u|e]|]; cbn; [apply stream_runs|done..].
Qed.

(** When a task goes on, so does the session it serves, and no other. *)
Lemma child_thread_of (t : task unit (Res bool)) t' peer :
  child t' (thread_of t) → ∃ x, t' = thread_of x ∧ serve_step (Serving peer t) (Serving peer x).
Proof.
  destruct t as [l a|l e k|l a k| |]; cbn; try done; intros [r ->]; exists (k r); split; try done; [apply serve_sync|apply serve_await].
Qed.

Lemma session_goes ts j t t' x y :
  ts !! j = Some t → child (th_task t') (th_task t) → th_source t' = th_source t → session_runs ts x y →
  ∃ y', session_runs (<[j := t']> ts) x y' ∧ (y' = y ∨ serve_step y y').
Proof.
  intros Hj Hc Hsrc Hx. destruct x as [peer|peer i|r], y as [peer'|peer' u|r']; try done; [by exists (Handshaking peer'); split; [|left]| |by exists (Ended r'); split; [|left]].
  destruct Hx as (<- & th & Hi & Hst & Ht). destruct (decide (i = j)) as [->|Hij].
  - rewrite Hi in Hj. injection Hj as ->. rewrite Ht in Hc. destruct (child_thread_of _ _ peer Hc) as (u' & Hu & Hs).
    exists (Serving peer u'). split; [|by right]. split; [done|]. exists t'.
    split; [apply list_lookup_insert_eq; by eapply lookup_lt_Some|]. by rewrite Hsrc.
  - exists (Serving peer u). split; [|by left]. split; [done|]. exists th. by rewrite list_lookup_insert_ne.
Qed.

Lemma sessions_go ts j t t' cfg p l l' :
  ts !! j = Some t → child (th_task t') (th_task t) → th_source t' = th_source t → Forall2 (session_runs ts) l l' →
  ∃ k', Forall2 (session_runs (<[j := t']> ts)) l k' ∧ rtc (listener_step cfg n) (mkStreamListener p l') (mkStreamListener p k').
Proof.
  intros Hj Hc Hsrc Hl. enough (Hpre : ∀ pre, ∃ k', Forall2 (session_runs (<[j := t']> ts)) l k'
    ∧ rtc (listener_step cfg n) (mkStreamListener p (pre ++ l')) (mkStreamListener p (pre ++ k'))) by apply (Hpre []).
  induction Hl as [|x y l l' Hx _ IH]; intros pre.
  - exists []. split; [constructor|reflexivity].
  - destruct (session_goes _ _ _ _ _ _ Hj Hc Hsrc Hx) as (y' & Hy & Hs). destruct (IH (pre ++ [y'])) as (k' & Hk & Hr).
    exists (y' :: k'). split; [by constructor|]. rewrite <- !(assoc_L (++)) in Hr. cbn in Hr.
    etrans; [|exact Hr]. destruct Hs as [->|Hs]; [reflexivity|]. apply rtc_once.
    assert (E : pre ++ y' :: l' = <[length pre := y']> (pre ++ y :: l')).
    { by rewrite insert_app_r_alt, Nat.sub_diag. }
    rewrite E. by apply step_serve with y; [apply list_lookup_middle|].
Qed.

Lemma listener_runs_goes ts j t t' cfg s :
  ts !! j = Some t → child (th_task t') (th_task t) → th_source t' = th_source t → listener_runs ts cfg s →
  listener_runs (<[j := t']> ts) cfg s.
Proof.
  intros Hj Hc Hsrc (s' & Hr & Hp & Hs).
  destruct (sessions_go _ _ _ _ cfg (sl_permits s') _ _ Hj Hc Hsrc Hs) as (k' & Hk & Hk').
  exists (mkStreamListener (sl_permits s') k'). split; [|by split]. unfold listener_reachable in *. etrans; [exact Hr|]. by destruct s'.
Qed.

(** ** The two refinements *)

(** What the server does, [World] allows. *)
Lemma front_world h h' :
  (∀ k cfg s, h.2 !! k = Some (LStream cfg s) → ss_live cfg = live) → front_step h h' → rtc (world_step live horizon) h.1 h'.1.
Proof.
  assert (Hbegin : ∀ s ts cfg peer, ss_live cfg = live → rtc (world_step live horizon) (s, ts) (s, ts ++ begin_streams cfg (sh_live s) peer)).
  { intros s ts cfg [peer|] <-; cbn; [|by rewrite app_nil_r]. apply rtc_once, step_arrive, arrive_stream. }
  intros Hlive Hst. destruct Hst as [s ts ls now Hn|w w' ls Hw|s ts ls files path Hrl|s ts ls k entry limit buf peer m _ Hm|s ts ls k cfg l a Hk
    |s ts ls k cfg l i peer r Hk _|w ls k l entry limit q peers addr _|w ls k l entry limit q peers q' out _ _
    |w ls k l entry limit q peers i addr r _ _|s ts ls k l entry limit tls q peers addr method path query body m _ _ Hm
    |s ts ls version asset st req _ Hst]; cbn [fst]; try reflexivity; try by eapply Hbegin, Hlive.
  - by apply rtc_once, step_time.
  - by apply work_world.
  - by eapply rtc_once, step_reload.
  - cbn in Hm. injection Hm as <-. apply rtc_once, step_arrive, arrive_udp.
  - apply rtc_once, step_arrive. unfold doh_app in Hm. destruct (negb _); [done|]. case_decide; [|case_decide; [|done]].
    + injection Hm as <-. apply arrive_doh.
    + injection Hm as <-. unfold doh_get. destruct (query ≫= dns_query_param); [apply arrive_doh|apply (arrive_bad_http _ _ (HttpBadRequest _))].
  - by apply rtc_once, step_arrive, arrive_api.
Qed.

(** What each of its listeners does, [Accept] allows; and its streams are its tasks. *)
Record front_inv (h : House) : Prop := mkFrontInv {
  fv_live : ∀ k cfg s, h.2 !! k = Some (LStream cfg s) → ss_live cfg = live;
  fv_streams : ∀ k cfg s, h.2 !! k = Some (LStream cfg s) → listener_runs h.1.2 cfg s;
  fv_queues : ∀ k l entry limit tls queue peers, h.2 !! k = Some (LDoh l entry limit tls queue peers) → rtc incoming_step [] queue;
  fv_served : all_served h.2 ≡ₚ streams h.1.2;
}.

(** The tasks become more, the listeners stay. *)
Lemma front_inv_tasks s s' ts new ls :
  Forall (λ t, th_source t ≠ FromStream) new → front_inv (s, ts, ls) → front_inv (s', ts ++ new, ls).
Proof.
  intros Hn [Hl Hs Hq Hv]. split; cbn [fst snd] in *; [done| |done|by rewrite streams_app, streams_from_other, app_nil_r].
  intros. by apply listener_runs_app; eauto.
Qed.

Lemma front_inv_source s s' ts t ls : th_source t ≠ FromStream → front_inv (s, ts, ls) → front_inv (s', ts ++ [t], ls).
Proof. intros Ht. apply front_inv_tasks. by constructor. Qed.

(** A stream listener moves, and a stream may begin. *)
Lemma front_inv_stream s ts ls k cfg l l' g peer :
  ls !! k = Some (LStream cfg l) → listener_runs (ts ++ begin_streams cfg g peer) cfg l' →
  served_by l' ≡ₚ served_by l ++ (match peer with Some _ => [length ts] | None => [] end) →
  front_inv (s, ts, ls) → front_inv (s, ts ++ begin_streams cfg g peer, <[k := LStream cfg l']> ls).
Proof.
  intros Hk Hl Hnew [Hw Hs Hq Hv]. split; cbn [fst snd] in *.
  - intros j cfg' l1 [(<- & [= <- _] & _)|(_ & Hj)]%list_lookup_insert_Some; eauto.
  - intros j cfg' l1 [(<- & [= <- <-] & _)|(_ & Hj)]%list_lookup_insert_Some; [done|]. apply listener_runs_app. eauto.
  - intros j l1 entry limit tls q peers [(_ & [=] & _)|(_ & Hj)]%list_lookup_insert_Some. eauto.
  - rewrite streams_begin, <- Hv. eapply all_served_insert; [exact Hk|]. unfold all_served. cbn. by rewrite !app_nil_r.
Qed.

(** An HTTPS listener moves. *)
Lemma front_inv_doh w ls k l entry limit tls q peers q' peers' :
  ls !! k = Some (LDoh l entry limit tls q peers) → rtc incoming_step q q' →
  front_inv (w, ls) → front_inv (w, <[k := LDoh l entry limit tls q' peers']> ls).
Proof.
  intros Hk Hr [Hw Hs Hq Hv]. split; cbn [fst snd] in *.
  - intros j cfg' l1 [(_ & [=] & _)|(_ & Hj)]%list_lookup_insert_Some. eauto.
  - intros j cfg' l1 [(_ & [=] & _)|(_ & Hj)]%list_lookup_insert_Some. eauto.
  - intros j l1 e lim b q1 p1 [(<- & [= <- <- <- <- <- <-] & _)|(_ & Hj)]%list_lookup_insert_Some; [|eauto]. etrans; eauto.
  - rewrite <- Hv, <- (app_nil_r (all_served ls)). eapply all_served_insert; [exact Hk|done].
Qed.
End front.

Section refinement.
Context {H : Hickory} {HL : HickoryLaws H} {HS : HickoryShow H} {N : IpNetLib} {Rx : RegexLib} {T : TlsLib} {Y : Yaml}.
Context {HT : HttpLib} {LI : ListenerLib} {O : HashOrder} {OL : HashOrderLaws O} {LL : LogLib} {W : WebLib} {B : Base64Lib}.
Context (live : nat → Runtime) (horizon : Z) (n : nat) (api : option string).
Context (Hcaches : ∀ g, caches_wf (runtime_caches (live g)) horizon).

Lemma front_inv_step h h' : world_inv live horizon h.1 → front_step live horizon n api h h' → front_inv live n h → front_inv live n h'.
Proof.
  intros Hw Hst Hinv. destruct Hst as [s ts ls now _|w w' ls Hst|s ts ls files path _|s ts ls k entry limit buf peer m _ _
    |s ts ls k cfg l a Hk|s ts ls k cfg l i peer r Hk Hi|w ls k l entry limit q peers addr Hk|w ls k l entry limit q peers q' out Hk Hr
    |w ls k l entry limit q peers i addr r Hk Hi|s ts ls k l entry limit tls q peers addr method path query body m _ _ _
    |s ts ls version asset st req _ _].
  - by destruct Hinv.
  - destruct (work_child live horizon w w' Hw Hst) as (j & t & t' & spawned & Hj & Ew & Hc & Hsrc & Hb & _).
    destruct w as [s ts], w' as [s' ts']. cbn [fst snd] in *. subst ts'. apply (front_inv_tasks live n s).
    { eapply Forall_impl; [exact Hb|]. intros x Hx E. unfold barren in Hx. by rewrite E in Hx. }
    destruct Hinv as [Hl Hs Hq Hv]. split; cbn [fst snd] in *; [done| |done|by rewrite (streams_insert _ _ t)].
    intros. eapply listener_runs_goes; eauto.
  - by destruct Hinv.
  - by apply (front_inv_source live n s).
  - eapply front_inv_stream; [exact Hk| |by rewrite served_accept|done]. apply listener_runs_accept, (fv_streams _ _ _ Hinv _ _ _ Hk).
  - eapply front_inv_stream; [exact Hk| |by apply served_handshake|done]. apply listener_runs_handshake, (fv_streams _ _ _ Hinv _ _ _ Hk); done.
  - by eapply front_inv_doh.
  - eapply front_inv_doh; [exact Hk|by eapply rtc_once, incoming_round|done].
  - eapply front_inv_doh; [exact Hk|by apply rtc_once, incoming_ends|done].
  - by apply (front_inv_source live n s).
  - by apply (front_inv_source live n s).
Qed.

Lemma front_run h h' : complete (live 0) → reachable live horizon h.1 → front_inv live n h →
  rtc (front_step live horizon n api) h h' → reachable live horizon h'.1 ∧ front_inv live n h'.
Proof.
  intros Hc Hr Hinv Hst. induction Hst as [h|h h1 h2 Hst _ IH]; [done|].
  pose proof (reachable_inv live horizon Hcaches _ Hc Hr) as Hw.
  apply IH; [|by eapply front_inv_step]. destruct Hr as (now & Hn & Hr). exists now. split; [done|].
  etrans; [exact Hr|]. eapply front_world; [|exact Hst]. by destruct Hinv.
Qed.

(** ** The start *)

(** A listener that has just been started. *)
Definition fresh (x : Listening) : Prop :=
  match x with
  | LUdp _ _ => True
  | LStream cfg s => ss_live cfg = live ∧ s = listener_start
  | LDoh _ _ _ _ queue peers => queue = [] ∧ peers = []
  end.

Lemma listen_starts entry limit l : validate_listener l = Ok tt → ∃ x, listen live (entry, limit, l) = Ok x ∧ fresh x.
Proof.
  intros Hv. pose proof (validated_listener_starts l Hv) as Hs. unfold listen.
  destruct (spawn_listener l) as [[addr workers|addr idle|addr idle acc|l']|e] eqn:El; [eexists; split; [done|done]..| |done].
  destruct (validated_doh_starts l l' Hv El) as [-> Hd]. cbn [result_bind].
  destruct (spawn_doh l) as [[addr acceptor]|e]; [|done]. eexists. by split.
Qed.

Lemma plan_starts plan :
  Forall (λ p, validate_listener p.2 = Ok tt) plan → ∃ ls, result_mapM (listen live) plan = Ok ls ∧ Forall fresh ls.
Proof.
  induction 1 as [|[[entry limit] l] plan Hv _ (ls & Hls & Hf)]; [by exists []|].
  destruct (listen_starts entry limit l Hv) as (x & Hx & Hfx). exists (x :: ls). cbn [result_mapM]. rewrite Hx. cbn [result_bind].
  rewrite Hls. split; [done|by constructor].
Qed.

Lemma serve_plan_listeners {E : ConfigEnv} cfg plan :
  runtime_build cfg = Some (Ok (live 0)) → serve_plan (live 0) = Ok (plan, api) → Forall (λ p, validate_listener p.2 = Ok tt) plan.
Proof.
  intros Hb Hp. apply built_listeners in Hb. unfold serve_plan in Hp. apply result_bind_Ok in Hp as (? & _ & [= <- _]).
  apply Forall_forall. intros p (srv & Hp & Hs)%list_elem_of_bind. apply list_elem_of_fmap in Hp as (l & -> & Hl).
  rewrite Forall_forall in Hb. specialize (Hb srv Hs). rewrite Forall_forall in Hb. by apply Hb.
Qed.

Lemma front_inv_start now ls : Forall fresh ls → front_inv live n (world_init live now, ls).
Proof.
  intros Hf. assert (Hx : ∀ k x, ls !! k = Some x → fresh x) by (intros k x Hk; by eapply (proj1 (Forall_lookup _ _) Hf)).
  split; cbn [fst snd].
  - by intros k cfg s [? _]%Hx.
  - intros k cfg s [_ ->]%Hx. apply listener_runs_start.
  - by intros k l entry limit tls q peers [-> _]%Hx.
  - unfold streams. cbn. clear Hx. induction Hf as [|x ls Hx _ IH]; [done|]. unfold all_served in *. cbn.
    destruct x as [|cfg s|]; [done| |done]. by destruct Hx as [_ ->].
Qed.
End refinement.


(** ** A stream of the demo server *)

(** No request of the demo carries a message in its URL. *)
#[export] Instance DemoBase64 : Base64Lib := {| url_safe_no_pad _ := None; url_safe _ := None |}.

(** The listeners of the demo server; a client of the second has passed its handshake. *)
Definition d_plan : list (string * Z * ListenerConfig) :=
  match serve_plan d_runtime with Ok (plan, _) => plan | Err _ => [] end.
Lemma d_plan_served : serve_plan (d_lives 0) = Ok (d_plan, None).
Proof. reflexivity. Qed.
Definition d_tls : StreamSettings := mkStreamSettings d_lives "main" (secs 5) (secs 10) ProtoTls true.
Definition d_peer : IpAddr := V4 134744072%Z.
Definition d_listening (s : StreamListener nat) : list Listening := [LUdp "main" (secs 5); LStream d_tls s].
Lemma d_listens : result_mapM (listen d_lives) d_plan = Ok (d_listening listener_start).
Proof. reflexivity. Qed.

Definition d_session : StreamListener nat := mkStreamListener 128 [Serving d_peer 0].
Definition d_handshake : StreamListener nat := mkStreamListener 127 [Handshaking d_peer].
Lemma d_session_served : rtc (front_step d_lives d_horizon 1 None) (world_init d_lives 0, d_listening listener_start)
  ((world_init d_lives 0).1, [stream_task 1 d_tls 0 d_peer], d_listening d_session).
Proof.
  apply (rtc_l _ _ ((world_init d_lives 0).1, [], d_listening d_handshake)).
  - exact (front_accept d_lives d_horizon 1 None _ [] (d_listening listener_start) 1 d_tls listener_start (Ok d_peer) eq_refl).
  - apply rtc_once. exact (front_handshake d_lives d_horizon 1 None (world_init d_lives 0).1 [] (d_listening d_handshake) 1 d_tls
      d_handshake 0 d_peer (Some (Ok tt)) eq_refl eq_refl).
Qed.

